(* ===== verification/_CoqProject ===== *)
-Q . S2P
Prelude.v
SourceFile.v
CcdlString.v
Buckets.v
StringMap.v
CNum.v
Tokenizer.v
TokenizerProofs.v
Lexemes.v
TokenStream.v
Expr.v
ExprParser.v
ExprParserProofs.v
RefBase.v
RefBaseProofs.v
RtHashMap.v
Utf8.v
CcmString.v
CcmStringProofs.v
SharedBuffer.v
StringHeap.v
StringHeapProofs.v
StringHeapOps.v
StringPrograms.v
CalendarDate.v
BaseCalendar.v
CalendarProofs.v
Mutex.v
MutexProofs.v
StringPool.v
Metadata.v
Ast.v
MetaBuilder.v
MetaSerializer.v
MetaLayout.v
MetaCalculate.v
MetaWrite.v
MetaBuild.v
MetaView.v
MetaTyping.v
MetaImage.v
MetaAdjust.v
MetaRelocate.v
MetaRoundTrip.v
MetadataTheorems.v
RtArray.v
RtArrayProofs.v
ECode.v
BigInteger.v
Logical.v
LogicalProofs.v
Buffer.v
ByteBuffer.v
Bits.v
HeapByteBuffer.v
ByteBufferProofs.v
BitsProofs.v
NumberProofs.v
NumberRoundTrip.v
BufferRules.v
BufferContents.v
BufferPrograms.v
BufferTheorems.v
TreeMap.v
TreeShape.v
TreeMapLogic.v
TreeMapBalance.v
TreeMapReads.v
TreeSubMap.v
TreeMapOrder.v
TreeMapSearch.v
TreeMapSpecs.v
TreeMapCalls.v
TreeMapAdequacy.v
TreeMapTheorems.v
TreeMapIterate.v
TreeMapBuild.v
TreeSubMapCalls.v
TreeSubMapNarrow.v
TreeSubMapTheorems.v
