(* ===== verification/Prelude.v ===== *)
(** * CCM: a verification development of the C++ Component Model

    CCM is a component framework for C++.  Its parts, under [src/src/]:

    - [ccdl/], the compiler of the interface language CDL: [util/File] delivers
      characters, [parser/Tokenizer] makes tokens of them, [parser/Parser]
      builds the tree in [ast/] ([Module], [Namespace], [Interface], constant
      expressions, ...) with names interned and looked up in [util/StringMap];
      [metadata/] flattens the tree into binary metadata, [codegen/] writes C++;
    - [runtime/], the library every component links against: [type/] has the
      strings, arrays and shared buffers; [util/] reference counting, the mutex
      and the hash map; [metadata/] and [reflection/] read the compiler's
      binary metadata; [rpc/] marshals calls over D-Bus;
    - [libcore/], a Java-like class library made of components: collections,
      text, numbers, calendars, threads and files;
    - [servicemanager/], [appentry/] and [sample/] are clients of the runtime.

    ** How the code is modelled

    A definition bears the name of the C++ function it translates.  Code that
    changes an object passes the record of its fields; [SE] (below) is the
    state monad with undefined behaviour ([None]), which is where null dereferences,
    accesses out of bounds, failed CHECKs and overflowing signed arithmetic end
    up.  Concurrent code ([RefBase], [Mutex]) is a relation of atomic steps,
    interleaved arbitrarily and sequentially consistent; a thread is the name of
    the step it takes next.  Machine integers are [Z] with their reductions
    ([i32], [u64], ...) written out.  [char] is signed, as on x86-64 Linux.

    ** The compiler's front end

    - [SourceFile]: [BufferedReader] of [util/File].  A refinement shows that
      reads deliver the file whatever the block boundaries; the limits of
      [Unread] and the byte 0xFF are stated as they are.
    - [CcdlString], [Buckets], [StringMap]: strings, and the hash map with its
      growth.  Every history of operations refines a finite map.  [Buckets] is
      shared with the runtime's map; [Dict] is the interface of both.
    - [CNum]: what [strtoll] and [atof] do, from the C standard.
    - [Tokenizer], [TokenizerProofs], [Lexemes]: every member function of the
      tokenizer.  Its loops consume a character per round; the fuel is the number
      of characters still to come, plus one, and [every_file_tokenizes] shows
      that it suffices on every input.  [Lexemes] has the grammar of tokens,
      their spelling and the gaps between them, and shows that a spelled text
      reads back as its tokens.
    - [TokenStream]: the interface the parser's proofs see the tokenizer by.
    - [Expr], [ExprParser], [ExprParserProofs]: the expression classes, the
      recursive-descent parser of constant expressions, and the theorem that an
      integer expression parses to a tree whose type and value are C++'s.
      [ParseUnaryExpression] carries the fuel of the recursion, the nesting
      depth of the text.

    ** Metadata, from the compiler to the runtime

    - [StringPool], [Metadata], [Ast]: the pool of strings; the structs of
      [runtime/metadata/Component.h] and an image of them in memory, which maps
      an address to the object there, refuses overlaps and stores outside the
      block, and knows a string only as its characters; the tree the metadata is
      made from, its shared nodes by address.
    - [MetaBuilder]: [metadata/MetaBuilder] whole, the pass that measures and the
      pass that writes.  [MetaLayout] is their reference: a description of a
      module without pointers, where each object of it lies, and how an image is
      read back ([view]).  [MetaCalculate] shows what the first pass measures,
      [MetaWrite] and [MetaBuild] that the second one writes just that and ends
      where the first did; [MetaView], [MetaImage] that what it wrote reads back
      as the description; [MetaTyping] that constants have the types they name.
      Sizes stay in [int] ([buildable]): the strings have fewer than
      [POOL_LIMIT] bytes.
    - [MetaSerializer]: [runtime/metadata/MetaSerializer] whole.  [MetaAdjust] has
      rules in the style of separation logic, what a function turns into what
      next to any other objects; [MetaRestore] and [MetaRelocate] apply them to
      every node and to the component, [MetaRoundTrip] and [MetadataTheorems] to
      the way from the builder's block to another address.  Constants of
      enumeration types do not survive it.

    ** The runtime

    - [RefBase], [RefBaseProofs]: strong and weak references.  Accounts of what
      every token and every task in progress contributes to the two counters give
      memory safety and exact counts in all interleavings (at most MAX_COUNT = 2^20 - 1
      of them, which is where the assertions of the code end).
    - [RtHashMap]: the hash map over [Buckets]; what a negative hash does to it.
    - [Utf8], [CcmString], [CcmStringProofs]: the codec and the reading half of
      [String], against the list of characters the bytes spell.
    - [SharedBuffer], [StringHeap], [StringHeapProofs], [StringHeapOps],
      [StringPrograms]: buffers on a heap with their counts, the constructing and
      changing half of [String] over them, the invariant that each buffer's count
      is the number of objects on it, one specification per operation, and the
      theorems on whole programs: strings are values, nothing leaks.
    - [Mutex], [MutexProofs]: the futex mutex; exclusion, and no lost wake-up
      with fewer than 2^31 threads.
    - [RtArray], [RtArrayProofs]: the array template over a store of blocks that
      arrays share; every copy against [memmove].

    ** The class library

    - [CalendarDate], [BaseCalendar], [CalendarProofs]: Gregorian dates with the
      one-year cache.  Dates and instants round-trip against a plain definition
      of the calendar.  Years are such that the day count stays in the code's
      64 bits ([year_ok]); the loop that borrows days runs at most three rounds.
    - [Buffer], [ByteBuffer], [Bits], [HeapByteBuffer]: [ccm/io]'s byte buffers.
      The world is the store of blocks and the buffers made so far, which refer
      to blocks by address, so that slices, duplicates and wrapped arrays share
      bytes.  Functions return their ECode and get out parameters that are not
      null; reading a variable no one has set is undefined; [<<] of negative
      integers is what GCC makes it; Float and Double are their bits.
    - [ByteBufferProofs] has the invariant of worlds ([sound]) and what each
      operation needs; [BitsProofs] the class [Number] of the encodings that
      [NumberProofs] instantiates at the six types and [NumberRoundTrip] uses for
      round trips; [BufferRules] and [BufferContents] what each operation returns
      and which bytes it changes; [BufferPrograms] programs of calls whose client
      checks [Remaining] first ([careful]); [BufferTheorems] slices, compaction
      and the faults of Get and of little-endian floats.
    - [BigInteger], [Logical]: the representations of [ccm/math/BigInteger], BoringSSL
      being the class [BN], and the bitwise operations, [ccm/math/Logical] whole.
      The digits a function makes are its state; its loops have the distance to
      their limit as fuel.  [LogicalProofs] compares words: a number is named by
      the function that gives the words of its two's complement, and every
      function of [Logical] is shown to compute the words of its result by one
      tactic.  [bitwise_operations] holds for numbers whose first digit that is
      not zero is not the least [int] ([tame]) and is where the object has it
      ([found]); the examples at the end show what happens to the others.
    - [TreeMap]: [ccm/util/TreeMap], the red-black tree.  The world is the map
      object and its entries by address; a function that mirrors another is one
      definition with the side as an argument.  Objects are a type with the
      interfaces the map asks for ([Objects]: comparing, equality), and what is
      documented of a comparison is the class [KeyOrder] ([TreeMapOrder]), under
      which the specification is: a map is a sorted list, its operations are
      filters.  Loops over a path have [rounds] as fuel, three more than the
      size, which no path exceeds.
    - [TreeShape], [TreeMapLogic]: trees with a hole as paths, the balance; and a
      total separation logic over Iris's heaps ([twp]), whose assertion for a
      tree is that it owns its entries.  [TreeMapRotate], [TreeMapInsert],
      [TreeMapDelete], [TreeMapWalk], [TreeMapSearch], [TreeMapUpdate] specify
      the functions on trees; [TreeMapSpecs] states them on lists of entries;
      [TreeMapAdequacy] leads from the logic to runs.
    - [TreeMapCalls], [TreeMapReads], [TreeMapTheorems]: every call does what the
      sorted list says, in every history; queries change nothing; searches are
      logarithmic.  [TreeMapIterate]: loops with an iterator that removes, and
      iterators overtaken by a change.  [TreeMapLevels], [TreeMapBuild]: the
      linear construction, [PutAll] and clones.  [TreeMapIntegers] is what the
      witnesses run on.
    - [TreeSubMap]: the ascending and descending views of a range, which share
      the map of the world.  [TreeSubMapOrder], [TreeSubMapSpecs],
      [TreeSubMapCalls]: a view is a filter of the sorted list, its calls those of
      a map of the range; [TreeSubMapTheorems] histories that mix the map and
      any views of it, [TreeSubMapNarrow] views of views, [TreeSubMapIterate] loops
      over views.  The size of a view with a bound is not defined.
    - These are modules; the files are [TreeMapOrder] (with [TreeMapIntegers] and
      [TreeSubMapOrder]), [TreeMapBalance] (rotations, insertion, deletion),
      [TreeMapSearch] (with [TreeMapWalk]), [TreeMapSpecs] (with [TreeMapUpdate]),
      [TreeMapReads] (with [TreeMapLevels]), [TreeSubMapCalls] (with
      [TreeSubMapSpecs]), [TreeSubMapTheorems] (with [TreeSubMapIterate]),
      [MetaRelocate] (with [MetaRestore]), [LogicalProofs] (with
      [BigIntegerProofs]), and one of its name for every other.

    ** What is not modelled

    Of the compiler: the parser of declarations with the operations that build
    the tree, the reader of metadata, and code generation, which prints.  Of
    the runtime: reflection and RPC, whose work is done by [dlopen], D-Bus and
    hand-written calling conventions.  Of the class library: all but the
    calendar, the byte buffers on arrays, the bitwise operations and the tree
    map.  Of big integers: the arithmetic BoringSSL does, shifts and single bits,
    conversions, primes and decimals.  Of the tree map: the
    key sets' forwarding functions, the comparators of descending views,
    serialization, the checks of out parameters for null, and that an
    entry goes with its last reference (no entry is reused here, so what a raw
    [mParent] of a deleted entry would read does not come up).  The vendored
    code under [src/external/], the tests and the samples are not the program's
    own logic.  Allocation never fails, but for [calloc] in [StringMap],
    [StringPool] and [MetaBuilder], whose failure the code handles. *)
From stdpp Require Export base list gmap numbers strings.
From Stdlib Require Export ZArith Lia Ascii.
From Stdlib Require String.

#[global] Open Scope Z_scope.

(** ** Machine integers

    The code is C++ on a 64-bit Linux target: [char] is signed and 8 bits,
    [int] 32, [long long], [ptrdiff_t] and pointers 64.  A value of one of
    these types is a [Z]; [wrap_s w]/[wrap_u w] reduce to [w] bits. *)

Definition wrap_u (w z : Z) : Z := z mod 2 ^ w.

Definition wrap_s (w z : Z) : Z :=
  let m := z mod 2 ^ w in if m <? 2 ^ (w - 1) then m else m - 2 ^ w.

Abbreviation u8 := (wrap_u 8).
Abbreviation u32 := (wrap_u 32).
Abbreviation u64 := (wrap_u 64).
Abbreviation i8 := (wrap_s 8).
Abbreviation i32 := (wrap_s 32).
Abbreviation i64 := (wrap_s 64).

Definition fits_s (w z : Z) : Prop := - 2 ^ (w - 1) <= z < 2 ^ (w - 1).
Definition fits_u (w z : Z) : Prop := 0 <= z < 2 ^ w.

(** [fits_sb] decides [fits_s]: signed arithmetic that leaves the range is
    undefined behaviour in C++, and an evaluator checks it before it returns. *)
Definition fits_sb (w z : Z) : bool := (- 2 ^ (w - 1) <=? z) && (z <? 2 ^ (w - 1)).

Lemma fits_sb_spec w z : fits_sb w z = true <-> fits_s w z.
Proof. unfold fits_sb, fits_s. rewrite andb_true_iff. lia. Qed.

Lemma pow2_half w : 0 < w -> 2 ^ w = 2 * 2 ^ (w - 1).
Proof. intros. rewrite <- Z.pow_succ_r by lia. f_equal. lia. Qed.

Lemma pow2_pos w : 0 <= w -> 0 < 2 ^ w.
Proof. intros. apply Z.pow_pos_nonneg; lia. Qed.

Lemma wrap_u_range w z : 0 <= w -> fits_u w (wrap_u w z).
Proof. intros. apply Z.mod_pos_bound, pow2_pos. lia. Qed.

Lemma wrap_u_id w z : fits_u w z -> wrap_u w z = z.
Proof. apply Z.mod_small. Qed.

Lemma wrap_s_range w z : 0 < w -> fits_s w (wrap_s w z).
Proof.
  intros Hw. unfold wrap_s, fits_s.
  pose proof (Z.mod_pos_bound z (2 ^ w) (pow2_pos w ltac:(lia))).
  pose proof (pow2_half w Hw).
  destruct (Z.ltb_spec (z mod 2 ^ w) (2 ^ (w - 1))); lia.
Qed.

Lemma wrap_s_id w z : 0 < w -> fits_s w z -> wrap_s w z = z.
Proof.
  intros Hw [Hl Hh]. unfold wrap_s.
  pose proof (pow2_half w Hw).
  destruct (Z.leb_spec 0 z).
  - rewrite Z.mod_small by lia. destruct (Z.ltb_spec z (2 ^ (w - 1))); lia.
  - assert (z mod 2 ^ w = z + 2 ^ w) as ->.
    { rewrite <- (Z.mod_small (z + 2 ^ w) (2 ^ w)) by lia.
      rewrite <- (Z.mod_add z 1 (2 ^ w)) by lia. f_equal. lia. }
    destruct (Z.ltb_spec (z + 2 ^ w) (2 ^ (w - 1))); lia.
Qed.

Lemma wrap_s_mod w z : 0 < w -> wrap_s w z mod 2 ^ w = z mod 2 ^ w.
Proof.
  intros Hw. unfold wrap_s. pose proof (pow2_pos w ltac:(lia)).
  case_match; [by rewrite Z.mod_mod by lia|].
  rewrite <- (Z.mod_add _ 1) by lia.
  replace (z mod 2 ^ w - 2 ^ w + 1 * 2 ^ w) with (z mod 2 ^ w) by lia.
  by rewrite Z.mod_mod by lia.
Qed.

Lemma wrap_s_congr w a b : a mod 2 ^ w = b mod 2 ^ w -> wrap_s w a = wrap_s w b.
Proof. intros H. unfold wrap_s. by rewrite H. Qed.

Lemma wrap_s_idemp w z : 0 < w -> wrap_s w (wrap_s w z) = wrap_s w z.
Proof. intros. by apply wrap_s_congr, wrap_s_mod. Qed.

(** A value fits when all bits from the sign bit on agree, so the bitwise
    operators stay inside a signed type. *)
Lemma fits_s_shiftr w z : 0 < w -> fits_s w z <-> Z.shiftr z (w - 1) = 0 \/ Z.shiftr z (w - 1) = -1.
Proof.
  intros Hw. unfold fits_s. rewrite Z.shiftr_div_pow2 by lia.
  pose proof (pow2_pos (w - 1) ltac:(lia)) as Hp. set (m := 2 ^ (w - 1)) in *.
  pose proof (Z.div_mod z m ltac:(lia)). pose proof (Z.mod_pos_bound z m Hp). split.
  - intros [Hl Hh]. destruct (Z.le_gt_cases 0 z).
    + left. apply Z.div_small. lia.
    + right. symmetry. apply (Z.div_unique z m (-1) (z + m)); lia.
  - intros [Hq|Hq]; rewrite Hq in *; lia.
Qed.

Lemma fits_s_bitwise w (op : Z -> Z -> Z) a b :
  0 < w -> (op = Z.land \/ op = Z.lor \/ op = Z.lxor) -> fits_s w a -> fits_s w b -> fits_s w (op a b).
Proof.
  intros Hw Hop. rewrite !fits_s_shiftr by done.
  destruct Hop as [->|[->| ->]]; rewrite ?Z.shiftr_land, ?Z.shiftr_lor, ?Z.shiftr_lxor;
    intros [->| ->] [->| ->]; auto.
Qed.

Lemma wrap_s_fits w z : 0 < w -> fits_s w (wrap_s w z).
Proof. apply wrap_s_range. Qed.

Lemma rem_fits w a b : b <> 0 -> fits_s w a -> fits_s w (Z.rem a b).
Proof.
  unfold fits_s. intros Hb Ha. pose proof (Z.quot_rem a b Hb).
  destruct (Z.le_ge_cases 0 a).
  - pose proof (Z.rem_bound_pos a (Z.abs b) ltac:(lia) ltac:(lia)).
    rewrite Z.rem_abs_r in * by lia. pose proof (Z.rem_le a (Z.abs b) ltac:(lia) ltac:(lia)).
    rewrite Z.rem_abs_r in * by lia. lia.
  - pose proof (Z.rem_opp_l' a b).
    pose proof (Z.rem_le (- a) (Z.abs b) ltac:(lia) ltac:(lia)) as Hle.
    pose proof (Z.rem_nonneg (- a) b ltac:(lia) ltac:(lia)).
    rewrite Z.rem_abs_r in Hle by lia. lia.
Qed.

(** ** Characters and C strings

    A [char] is the signed value it has as an [int]; a C string is the list
    of its characters without the terminating NUL. *)

Definition ch (a : ascii) : Z := wrap_s 8 (Z.of_N (N_of_ascii a)).

Definition str (s : String.string) : list Z := map ch (String.list_ascii_of_string s).

Arguments ch a%_char_scope.
Arguments str s%_string_scope.

(** What a [char*] into a buffer denotes: the characters before the first NUL. *)
Fixpoint c_str (l : list Z) : list Z :=
  match l with
  | [] => []
  | c :: l => if c =? 0 then [] else c :: c_str l
  end.

Lemma c_str_no_nul l : Forall (fun c => c <> 0) l -> c_str l = l.
Proof.
  induction 1 as [|c l Hc _ IH]; [done|]. simpl.
  destruct (Z.eqb_spec c 0); [done|]. by rewrite IH.
Qed.

Lemma c_str_app_nul l l' : Forall (fun c => c <> 0) l -> c_str (l ++ 0 :: l') = l.
Proof.
  induction 1 as [|c l Hc _ IH]; [done|]. simpl.
  destruct (Z.eqb_spec c 0); [done|]. by rewrite IH.
Qed.

Lemma c_str_Forall l : Forall (fun c => c <> 0) (c_str l).
Proof.
  induction l as [|c l IH]; simpl; [constructor|].
  destruct (Z.eqb_spec c 0); constructor; done.
Qed.

Lemma c_str_length l : (length (c_str l) <= length l)%nat.
Proof. induction l as [|c l IH]; simpl; [lia|]. case_match; simpl; lia. Qed.

Lemma c_str_app_le (l r : list Z) : (length (c_str (l ++ 0%Z :: r)) <= length l)%nat.
Proof. induction l as [|c l IH]; simpl; [lia|]. case_match; simpl; lia. Qed.

(** ** The C library's memory and string functions *)

(** [memcpy(buf + off, src, n)] with [src] of length [n]. *)
Definition memcpy {T} (buf : list T) (off : nat) (src : list T) : list T :=
  take off buf ++ src ++ drop (off + length src) buf.

Lemma memcpy_length {T} (buf : list T) off src :
  (off + length src <= length buf)%nat -> length (memcpy buf off src) = length buf.
Proof.
  intros. unfold memcpy. rewrite !length_app, length_take, length_drop. lia.
Qed.

Lemma memcpy_take {T} (buf : list T) off src :
  (off + length src <= length buf)%nat ->
  take (off + length src) (memcpy buf off src) = take off buf ++ src.
Proof.
  intros. unfold memcpy. rewrite app_assoc. apply take_app_length'.
  rewrite length_app, length_take. lia.
Qed.

Lemma memcpy_drop {T} (buf : list T) off src :
  (off + length src <= length buf)%nat ->
  drop (off + length src) (memcpy buf off src) = drop (off + length src) buf.
Proof.
  intros. unfold memcpy. rewrite app_assoc. apply drop_app_length'.
  rewrite length_app, length_take. lia.
Qed.

(** Inside the range the new content, outside it the old. *)
Lemma memcpy_in {T} (buf : list T) off src i :
  (off + length src <= length buf)%nat -> (off <= i < off + length src)%nat ->
  memcpy buf off src !! i = src !! (i - off)%nat.
Proof.
  intros Hb Hi. unfold memcpy. rewrite lookup_app_r by (rewrite length_take; lia).
  rewrite length_take, Nat.min_l, lookup_app_l by lia. done.
Qed.

Lemma memcpy_out {T} (buf : list T) off src i :
  (off + length src <= length buf)%nat -> (i < off \/ off + length src <= i)%nat ->
  memcpy buf off src !! i = buf !! i.
Proof.
  intros Hb Hi. unfold memcpy. destruct Hi.
  - rewrite lookup_app_l by (rewrite length_take; lia). apply lookup_take_lt. lia.
  - rewrite lookup_app_r by (rewrite length_take; lia). rewrite length_take, Nat.min_l by lia.
    rewrite lookup_app_r, lookup_drop by lia. f_equal. lia.
Qed.

(** One element stored at either end extends the range. *)
Lemma memcpy_extend {T} (buf : list T) off src x :
  (off + length src < length buf)%nat ->
  <[(off + length src)%nat := x]> (memcpy buf off src) = memcpy buf off (src ++ [x]).
Proof.
  intros H. unfold memcpy. rewrite <-app_assoc.
  rewrite insert_app_r_alt by (rewrite length_take; lia).
  rewrite length_take, Nat.min_l by lia.
  replace (off + length src - off)%nat with (length src + 0)%nat by lia.
  rewrite insert_app_r. f_equal. f_equal.
  rewrite length_app. cbn [length].
  destruct (drop (off + length src) buf) as [|y r] eqn:Hd.
  { apply (f_equal length) in Hd. rewrite length_drop in Hd. cbn in Hd. lia. }
  cbn. f_equal. replace (off + (length src + 1))%nat with (off + length src + 1)%nat by lia.
  by rewrite <-drop_drop, Hd.
Qed.

Lemma memcpy_extend_front {T} (buf : list T) off src x :
  (S off + length src <= length buf)%nat ->
  <[off := x]> (memcpy buf (S off) src) = memcpy buf off (x :: src).
Proof.
  intros H. unfold memcpy.
  destruct (lookup_lt_is_Some_2 buf off) as [y Hy]; [lia|].
  rewrite (take_S_r _ _ _ Hy), <-app_assoc.
  rewrite insert_app_r_alt by (rewrite length_take; lia).
  rewrite length_take, Nat.min_l, Nat.sub_diag by lia. cbn. by rewrite Nat.add_succ_r.
Qed.

(** [strcmp] on C strings, compared as unsigned characters. *)
Fixpoint strcmp (a b : list Z) : Z :=
  match a, b with
  | [], [] => 0
  | [], _ => -1
  | _, [] => 1
  | x :: a, y :: b => if x =? y then strcmp a b else if u8 x <? u8 y then -1 else 1
  end.

Lemma strcmp_0 a b : strcmp a b = 0 <-> a = b.
Proof.
  revert b. induction a as [|x a IH]; intros [|y b]; simpl; try (split; congruence || lia).
  destruct (Z.eqb_spec x y) as [->|Hne].
  - rewrite IH. split; congruence.
  - split; [case_match; lia|congruence].
Qed.

(** [t] occurs in [s] at index [p]. *)
Definition occurs_at (s t : list Z) (p : nat) : bool := bool_decide (t `prefix_of` drop p s).

(** [strstr(s, t) - s]: the first occurrence of [t] in [s]. *)
Fixpoint strstr (s t : list Z) : option nat :=
  if bool_decide (t `prefix_of` s) then Some 0%nat
  else match s with [] => None | _ :: s => S <$> strstr s t end.

(** [strchr(s, c) - s] for a character other than NUL. *)
Fixpoint strchr (s : list Z) (c : Z) : option nat :=
  match s with
  | [] => None
  | x :: s => if x =? c then Some 0%nat else S <$> strchr s c
  end.

(** [strrchr(s, c) - s] for a character other than NUL. *)
Definition strrchr (s : list Z) (c : Z) : option nat :=
  (fun i => (length s - 1 - i)%nat) <$> strchr (rev s) c.

Lemma strstr_Some s t p :
  strstr s t = Some p ->
  occurs_at s t p = true /\ forall q, (q < p)%nat -> occurs_at s t q = false.
Proof.
  unfold occurs_at. revert p. induction s as [|x s IH]; intros p; simpl;
    case_bool_decide as Hpre; intros H; try discriminate;
    try (injection H as <-; split; [by apply bool_decide_eq_true|lia]).
  destruct (strstr s t) as [p'|]; [|discriminate]. injection H as <-.
  destruct (IH p' eq_refl) as [H1 H2]. split; [done|].
  intros [|q] Hq; [by apply bool_decide_eq_false|]. apply H2. lia.
Qed.

Lemma strstr_None s t : strstr s t = None -> forall q, (q <= length s)%nat -> occurs_at s t q = false.
Proof.
  unfold occurs_at. induction s as [|x s IH]; simpl;
    case_bool_decide as Hpre; intros H q Hq; try discriminate.
  - destruct q; [|lia]. by apply bool_decide_eq_false.
  - destruct (strstr s t); [discriminate|].
    destruct q as [|q]; [by apply bool_decide_eq_false|]. apply IH; [done|lia].
Qed.

(** ** Memory allocation

    [calloc]/[malloc] may refuse a request; which sizes it grants is the
    interface between the containers and the C library. *)

Class Allocator := { alloc_ok : Z -> bool }.

Definition never_fails (A : Allocator) : Prop := forall n, @alloc_ok A n = true.

Definition generous : Allocator := {| alloc_ok := fun _ => true |}.

Lemma generous_never_fails : never_fails generous.
Proof. done. Qed.

(** ** Stateful code that may be undefined

    A member function that mutates its object and returns an [X].  [None] is
    behaviour the code does not define (a null or dangling access, falling off
    the end of a function) or a loop that outran its fuel; the termination
    theorems exclude the latter. *)
Definition SE (S X : Type) : Type := S -> option (X * S).

Definition ret {S X} (x : X) : SE S X := fun s => Some (x, s).
Definition bind {S X Y} (m : SE S X) (k : X -> SE S Y) : SE S Y :=
  fun s => match m s with Some (x, s) => k x s | None => None end.
Definition gets {S X} (f : S -> X) : SE S X := fun s => Some (f s, s).
Definition modify {S} (f : S -> S) : SE S unit := fun s => Some (tt, f s).
Definition undefined {S X} : SE S X := fun _ => None.

Notation "x <- m ;; k" := (bind m (fun x => k))
  (at level 100, m at next level, right associativity).
Notation "m ;;; k" := (bind m (fun _ => k)) (at level 100, right associativity).

Lemma bind_Some {S X Y} (m : SE S X) (k : X -> SE S Y) s x s' :
  m s = Some (x, s') -> bind m k s = k x s'.
Proof. unfold bind. by intros ->. Qed.

(** Total correctness: [m] is defined on [s] and its outcome satisfies [Q]. *)
Definition wp {S X} (m : SE S X) (Q : X -> S -> Prop) (s : S) : Prop :=
  match m s with Some (x, s') => Q x s' | None => False end.

Section Wp.
Context {S X Y : Type}.

Lemma wp_ret (x : X) Q (s : S) : Q x s -> wp (ret x) Q s.
Proof. done. Qed.

Lemma wp_gets (f : S -> X) Q s : Q (f s) s -> wp (gets f) Q s.
Proof. done. Qed.

Lemma wp_modify (f : S -> S) Q s : Q tt (f s) -> wp (modify f) Q s.
Proof. done. Qed.

Lemma wp_bind (m : SE S X) (k : X -> SE S Y) Q s :
  wp m (fun x => wp (k x) Q) s -> wp (bind m k) Q s.
Proof. unfold wp, bind. destruct (m s) as [[x s']|]; auto. Qed.

Lemma wp_bind_inv (m : SE S X) (k : X -> SE S Y) Q s :
  wp (bind m k) Q s -> wp m (fun x => wp (k x) Q) s.
Proof. unfold wp, bind. destruct (m s) as [[x s']|]; auto. Qed.

Lemma bind_undefined (m : SE S X) (k : X -> SE S Y) s : m s = None -> bind m k s = None.
Proof. unfold bind. by intros ->. Qed.

(** A computation whose continuation is undefined is undefined. *)
Lemma wp_undefined (m : SE S X) (k : X -> SE S Y) s :
  wp m (fun x s' => k x s' = None) s -> bind m k s = None.
Proof. unfold wp, bind. destruct (m s) as [[x s']|]; tauto. Qed.

Lemma wp_mono (m : SE S X) (Q Q' : X -> S -> Prop) s :
  wp m Q s -> (forall x s', Q x s' -> Q' x s') -> wp m Q' s.
Proof. unfold wp. destruct (m s) as [[x s']|]; auto. Qed.

Lemma wp_run (m : SE S X) Q s : wp m Q s -> exists x s', m s = Some (x, s') /\ Q x s'.
Proof. unfold wp. destruct (m s) as [[x s']|]; [eauto|done]. Qed.

End Wp.

(** The value of an [int] or [long] expression; overflow is undefined. *)
Definition int {S} (z : Z) : SE S Z := if fits_sb 32 z then ret z else undefined.
Definition long {S} (z : Z) : SE S Z := if fits_sb 64 z then ret z else undefined.

Lemma int_fits {S} z (s : S) : fits_s 32 z -> int z s = Some (z, s).
Proof. intros H. unfold int. by rewrite (proj2 (fits_sb_spec _ _) H). Qed.

Lemma wp_int {S} z (Q : Z -> S -> Prop) s : -2147483648 <= z < 2147483648 -> Q z s -> wp (int z) Q s.
Proof. intros Hz HQ. unfold wp. by rewrite int_fits by exact Hz. Qed.

Lemma wp_long {S} z (Q : Z -> S -> Prop) s :
  -9223372036854775808 <= z < 9223372036854775808 -> Q z s -> wp (long z) Q s.
Proof. intros Hz HQ. unfold long. rewrite (proj2 (fits_sb_spec _ _)) by exact Hz. by apply wp_ret. Qed.

(** ** Automation shared by the components *)

(** Walks through the sequencing of a stateful function. *)
Ltac wp_step :=
  lazymatch goal with
  | |- wp (bind _ _) _ _ => apply wp_bind
  | |- wp (ret _) _ _ => apply wp_ret
  | |- wp (gets _) _ _ => apply wp_gets
  | |- wp (modify _) _ _ => apply wp_modify
  end.

(** Case analysis on the boolean comparison [c] of the code. *)
Ltac bcase_on c :=
  lazymatch c with
  | ?a =? ?b => destruct (Z.eqb_spec a b)
  | ?a <? ?b => destruct (Z.ltb_spec a b)
  | ?a <=? ?b => destruct (Z.leb_spec a b)
  | ?a >=? ?b => rewrite (Z.geb_leb a b); destruct (Z.leb_spec b a)
  | ?a >? ?b => rewrite (Z.gtb_ltb a b); destruct (Z.ltb_spec b a)
  end.

(** The outermost conditional of the goal first, then any comparison. *)
Ltac bcase :=
  match goal with
  | |- context [if ?c then _ else _] => bcase_on c
  | |- context [?a =? ?b] => bcase_on (a =? b)
  | |- context [?a <? ?b] => bcase_on (a <? b)
  | |- context [?a <=? ?b] => bcase_on (a <=? b)
  end.

(** Turns the boolean facts of the context into propositions. *)
Ltac bprop :=
  repeat match goal with
  | H : _ && _ = true |- _ => apply andb_true_iff in H; destruct H
  | H : _ || _ = false |- _ => apply orb_false_iff in H; destruct H
  | H : negb _ = true |- _ => apply negb_true_iff in H
  | H : negb _ = false |- _ => apply negb_false_iff in H
  | H : (_ =? _) = true |- _ => apply Z.eqb_eq in H
  | H : (_ =? _) = false |- _ => apply Z.eqb_neq in H
  | H : (_ <? _) = true |- _ => apply Z.ltb_lt in H
  | H : (_ <? _) = false |- _ => apply Z.ltb_ge in H
  | H : (_ <=? _) = true |- _ => apply Z.leb_le in H
  | H : (_ <=? _) = false |- _ => apply Z.leb_gt in H
  end.

(** Range conditions of the machine types, with the powers evaluated. *)
Ltac fits :=
  unfold fits_s, fits_u in *;
  change (2 ^ (8 - 1)) with 128 in *; change (2 ^ (32 - 1)) with 2147483648 in *;
  change (2 ^ (64 - 1)) with 9223372036854775808 in *;
  change (2 ^ 8) with 256 in *; change (2 ^ 30) with 1073741824 in *;
  change (2 ^ 31) with 2147483648 in *;
  change (2 ^ 32) with 4294967296 in *; change (2 ^ 63) with 9223372036854775808 in *;
  change (2 ^ 64) with 18446744073709551616 in *;
  lia.

Create HintDb ccm discriminated.
