(* ===== verification/SourceFile.v ===== *)
(** * Buffered source files of the ccdl compiler

    [src/src/ccdl/util/File.cpp] and [File.h]: the 512-byte block reader the
    tokenizer pulls its characters from.  The C library's [FILE*] is the
    [stream] it still has to deliver; a [char] of the buffer is signed, so the
    reader yields the byte 0xFF as -1, which is also its end-of-file value.

    The refinement theorems state the reader through [pending], the characters
    that are still to come: [Peek] shows the first, [Read] removes it, [Unread]
    puts one back when the block still has room in front. *)
From S2P Require Import Prelude.

Module File.

Definition BUFFER_SIZE : Z := 512.

(** A [FILE*] opened for reading: the bytes not delivered yet, and whether a
    read error follows them. *)
Record stream := { s_rest : list Z; s_fails : bool }.

(** The characters delivered by [fread(buf, 1, n, fd)], the stream after it,
    and the resulting [feof] and [ferror] flags. *)
Definition fread (n : nat) (s : stream) : list Z * stream * bool * bool :=
  let got := take n (s_rest s) in
  let s' := {| s_rest := drop n (s_rest s); s_fails := s_fails s |} in
  let short := (length got <? n)%nat in
  (map i8 got, s', short && negb (s_fails s), short && s_fails s).

Record BufferedReader := {
  mColumnNo : Z;
  mPrevColumnNo : Z;
  mLineNo : Z;
  mBuffer : list Z;
  mPosition : Z;
  mCapacity : Z;
  mEof : bool;
  mError : bool;
  mFd : stream   (* mOwner->mFd *)
}.

(** [BufferedReader::BufferedReader] on the just opened [fd]; the array is left
    uninitialised and is never read before [FRead] has filled it. *)
Definition open (garbage : list Z) (fd : stream) : BufferedReader :=
  {| mColumnNo := 0; mPrevColumnNo := 0; mLineNo := 1; mBuffer := garbage;
     mPosition := -1; mCapacity := -1; mEof := false; mError := false; mFd := fd |}.

Definition GetColumnNo (r : BufferedReader) : Z := mColumnNo r.

Definition GetLineNo (r : BufferedReader) : Z := mLineNo r.

Definition FRead (r : BufferedReader) : Z * BufferedReader :=
  if mEof r || mError r then (-1, r)
  else
    let '(got, fd, eof, err) := fread (Z.to_nat BUFFER_SIZE) (mFd r) in
    let count := Z.of_nat (length got) in
    let short := count <? BUFFER_SIZE in
    let r' :=
      {| mColumnNo := mColumnNo r; mPrevColumnNo := mPrevColumnNo r; mLineNo := mLineNo r;
         mBuffer := got ++ replicate (Z.to_nat (BUFFER_SIZE - count)) 0;
         mPosition := 0; mCapacity := count;
         mEof := if short && eof then true else mEof r;
         mError := if short && negb eof then err else mError r;
         mFd := fd |} in
    (if count =? 0 then -1 else count, r').

(** [mBuffer[i]]. *)
Definition at_ (r : BufferedReader) (i : Z) : Z := nth (Z.to_nat i) (mBuffer r) 0.

Definition Peek (r : BufferedReader) : Z * BufferedReader :=
  if mPosition r >=? mCapacity r then
    let '(ret, r') := FRead r in
    if ret =? -1 then (-1, r') else (at_ r' (mPosition r'), r')
  else (at_ r (mPosition r), r).

Definition Read (r : BufferedReader) : Z * BufferedReader :=
  let '(ret, r) := Peek r in
  if ret =? -1 then (-1, r)
  else
    let nl := ret =? ch "010" in
    (ret,
     {| mColumnNo := if nl then 0 else mColumnNo r + 1;
        mPrevColumnNo := if nl then mColumnNo r else mPrevColumnNo r;
        mLineNo := if nl then mLineNo r + 1 else mLineNo r;
        mBuffer := mBuffer r; mPosition := mPosition r + 1; mCapacity := mCapacity r;
        mEof := mEof r; mError := mError r; mFd := mFd r |}).

Definition Unread (c : Z) (r : BufferedReader) : BufferedReader :=
  if mPosition r <=? 0 then r
  else
    let pos := mPosition r - 1 in
    let nl := c =? ch "010" in
    {| mColumnNo := if nl then mPrevColumnNo r else mColumnNo r - 1;
       mPrevColumnNo := mPrevColumnNo r;
       mLineNo := if nl then mLineNo r - 1 else mLineNo r;
       mBuffer := <[Z.to_nat pos := c]> (mBuffer r);
       mPosition := pos; mCapacity := mCapacity r;
       mEof := mEof r; mError := mError r; mFd := mFd r |}.

(** ** Well-formed readers and the characters still to come *)

(** The block holds [mCapacity] characters of which [mPosition] are consumed;
    before the first [FRead] both are -1, and once a short block was read the
    stream is exhausted. *)
Record wf (r : BufferedReader) : Prop := {
  wf_pos : mPosition r <= mCapacity r;
  wf_shape : (mPosition r = -1 /\ mCapacity r = -1 /\ mEof r = false /\ mError r = false) \/
             (0 <= mPosition r /\ mCapacity r <= BUFFER_SIZE /\
              length (mBuffer r) = Z.to_nat BUFFER_SIZE);
  wf_end : mEof r || mError r = true -> s_rest (mFd r) = []
}.

Definition block (r : BufferedReader) : list Z :=
  drop (Z.to_nat (mPosition r)) (take (Z.to_nat (mCapacity r)) (mBuffer r)).

Definition pending (r : BufferedReader) : list Z :=
  block r ++ map i8 (s_rest (mFd r)).

(** The position of the next character: line, column and the column [Unread]
    restores when it steps back over a newline. *)
Definition place (r : BufferedReader) : Z * Z := (mLineNo r, mColumnNo r).

Lemma open_wf g fd : wf (open g fd).
Proof. constructor; simpl; [lia | left; done | done]. Qed.

Lemma open_pending g fd : pending (open g fd) = map i8 (s_rest fd).
Proof. done. Qed.

(** With an exhausted block only the stream is left. *)
Lemma pending_exhausted r :
  wf r -> mCapacity r <= mPosition r -> pending r = map i8 (s_rest (mFd r)).
Proof.
  intros [Hp Hs _] Hc. unfold pending, block.
  rewrite drop_ge; [done|]. rewrite length_take. lia.
Qed.

(** With characters left in the block, the next one is [mBuffer[mPosition]]. *)
Lemma pending_block r :
  wf r -> mPosition r < mCapacity r ->
  exists l, pending r = at_ r (mPosition r) :: l /\
    drop (Z.to_nat (mPosition r + 1)) (take (Z.to_nat (mCapacity r)) (mBuffer r))
      ++ map i8 (s_rest (mFd r)) = l.
Proof.
  intros [Hp Hs _] Hc. eexists; split; [|done].
  destruct Hs as [Hs|(H0 & H1 & H2)]; [lia|].
  unfold pending, block, at_.
  assert (take (Z.to_nat (mCapacity r)) (mBuffer r) !! Z.to_nat (mPosition r)
          = Some (nth (Z.to_nat (mPosition r)) (mBuffer r) 0)) as Hl.
  { rewrite lookup_take_lt by lia.
    assert (Z.to_nat (mPosition r) < length (mBuffer r))%nat as Hlt by (unfold BUFFER_SIZE in *; lia).
    destruct (lookup_lt_is_Some_2 _ _ Hlt) as [x Hx].
    rewrite Hx. f_equal. symmetry. by apply nth_lookup_Some. }
  rewrite (drop_S _ _ _ Hl). simpl.
  by replace (Z.to_nat (mPosition r + 1)) with (S (Z.to_nat (mPosition r))) by lia.
Qed.

(** [FRead] loads the next block without losing a character. *)
Lemma FRead_spec r :
  wf r -> mCapacity r <= mPosition r ->
  wf (FRead r).2 /\ pending (FRead r).2 = pending r /\ place (FRead r).2 = place r /\
  mPrevColumnNo (FRead r).2 = mPrevColumnNo r /\
  ((FRead r).1 = -1 /\ pending r = [] \/
   (FRead r).1 <> -1 /\ mPosition (FRead r).2 = 0 /\ 0 < mCapacity (FRead r).2).
Proof.
  intros Hwf Hc. pose proof (pending_exhausted r Hwf Hc) as Hpend.
  unfold FRead. destruct (mEof r || mError r) eqn:He.
  { pose proof (wf_end r Hwf He) as Hnil. rewrite Hnil in Hpend.
    repeat split; auto; try apply Hwf. }
  apply orb_false_iff in He as [He1 He2]. unfold fread.
  set (rest := s_rest (mFd r)) in *.
  set (n := Z.to_nat BUFFER_SIZE).
  assert (Hn : n = 512%nat) by done.
  assert (Hlen : length (map i8 (take n rest)) = Nat.min n (length rest)).
  { by rewrite length_map, length_take. }
  cbn -[take drop]. rewrite Hlen.
  set (count := Z.of_nat (Nat.min n (length rest))).
  split; [|split; [|split; [done|split; [done|]]]].
  - constructor; cbn -[take drop].
    + lia.
    + right. unfold BUFFER_SIZE in *. split; [lia|]. split; [lia|].
      rewrite length_app, Hlen, length_replicate. lia.
    + intros Hend. rewrite He1, He2 in Hend.
      apply drop_ge. rewrite length_take in Hend.
      destruct (Nat.ltb_spec (Nat.min n (length rest)) n) as [Hlt|Hge]; [lia|].
      exfalso. destruct (Z.ltb_spec count BUFFER_SIZE); [unfold BUFFER_SIZE in *; lia|discriminate].
  - rewrite Hpend. unfold pending, block. cbn -[take drop].
    rewrite take_app_le, take_ge by lia.
    change (Z.to_nat 0) with 0%nat. rewrite drop_0.
    rewrite <- map_app, take_drop. done.
  - destruct (Z.eqb_spec count 0) as [H0|H0].
    + left. split; [done|]. rewrite Hpend.
      assert (length rest = 0%nat) as Hz by lia.
      by apply length_zero_iff_nil in Hz as ->.
    + right. repeat split; lia.
Qed.

(** [Peek] shows the next character, or -1 when there is none. *)
Theorem Peek_spec r :
  wf r ->
  wf (Peek r).2 /\ pending (Peek r).2 = pending r /\ place (Peek r).2 = place r /\
  mPrevColumnNo (Peek r).2 = mPrevColumnNo r /\
  (Peek r).1 = match pending r with [] => -1 | c :: _ => c end /\
  (pending r <> [] -> mPosition (Peek r).2 < mCapacity (Peek r).2).
Proof.
  intros Hwf. unfold Peek. rewrite Z.geb_leb.
  destruct (Z.leb_spec (mCapacity r) (mPosition r)) as [Hc|Hc].
  - destruct (FRead_spec r Hwf Hc) as (Hwf' & Hp & Hpl & Hpc & Hcase).
    destruct (FRead r) as [ret r']. simpl in *.
    destruct Hcase as [[-> Hnil]|(Hret & Hpos & Hcap)].
    + simpl. rewrite Hnil in *. split_and!; auto; done.
    + destruct (Z.eqb_spec ret (-1)); [done|]. simpl.
      destruct (pending_block r' Hwf' ltac:(lia)) as (l & Hl & _).
      rewrite <- Hp, Hl. split_and!; auto; lia.
  - simpl. destruct (pending_block r Hwf Hc) as (l & Hl & _).
    rewrite Hl. split_and!; auto.
Qed.

(** Where the reader stands after it consumed [c]. *)
Definition advance (c : Z) (p : Z * Z) : Z * Z :=
  if c =? ch "010" then (p.1 + 1, 0) else (p.1, p.2 + 1).

(** A character the reader can deliver: everything but the byte 0xFF, whose
    [char] value is the end-of-file mark. *)
Definition readable (c : Z) : Prop := c <> -1.

Lemma Read_spec r c l :
  wf r -> pending r = c :: l -> readable c ->
  (Read r).1 = c /\ wf (Read r).2 /\ pending (Read r).2 = l /\
  place (Read r).2 = advance c (place r) /\ 0 < mPosition (Read r).2 /\
  mPrevColumnNo (Read r).2 = (if c =? ch "010" then mColumnNo r else mPrevColumnNo r).
Proof.
  intros Hwf Hpend Hc. unfold Read, readable in *.
  destruct (Peek_spec r Hwf) as (Hwf' & Hp & Hpl & Hpc & Hret & Hlt).
  destruct (Peek r) as [ret r']. simpl in *. rewrite Hpend in Hret. subst ret.
  destruct (Z.eqb_spec c (-1)) as [->|_]; [done|]. cbn [fst snd].
  specialize (Hlt ltac:(by rewrite Hpend)).
  destruct (pending_block r' Hwf' Hlt) as (l' & Hl & Hdrop).
  rewrite Hp, Hpend in Hl. injection Hl as _ <-.
  destruct Hwf' as [H1 H2 H3]. unfold place in Hpl. injection Hpl as Hl1 Hl2.
  split_and!; [done| |exact Hdrop| | |]; cbn.
  - constructor; cbn; [lia| |done]. right. lia.
  - unfold place, advance; cbn. rewrite Hl1, Hl2. by destruct (c =? _).
  - lia.
  - by rewrite Hl2, Hpc.
Qed.

Lemma Read_end r :
  wf r -> match pending r with [] => True | c :: _ => ~ readable c end ->
  (Read r).1 = -1 /\ wf (Read r).2 /\ pending (Read r).2 = pending r /\
  place (Read r).2 = place r.
Proof.
  intros Hwf Hend. unfold Read, readable in *.
  destruct (Peek_spec r Hwf) as (Hwf' & Hp & Hpl & _ & Hret & _).
  destruct (Peek r) as [ret r']. cbn [fst snd] in *.
  assert (ret = -1) as -> by (destruct (pending r); lia).
  simpl. auto.
Qed.

(** [Unread] puts a character back in front, provided one was consumed from
    the current block. *)
Lemma Unread_spec r c :
  wf r -> 0 < mPosition r ->
  wf (Unread c r) /\ pending (Unread c r) = c :: pending r /\
  place (Unread c r) =
    if c =? ch "010" then (mLineNo r - 1, mPrevColumnNo r) else (mLineNo r, mColumnNo r - 1).
Proof.
  intros Hwf Hpos. unfold Unread.
  destruct (Z.leb_spec (mPosition r) 0); [lia|].
  destruct Hwf as [Hp Hs He]. destruct Hs as [Hs|(H0 & H1 & H2)]; [lia|].
  split_and!.
  - constructor; cbn; [lia| |done]. right. rewrite length_insert. lia.
  - unfold pending, block; cbn.
    set (i := Z.to_nat (mPosition r - 1)).
    assert (i < length (mBuffer r))%nat by (unfold BUFFER_SIZE in *; lia).
    rewrite (drop_S _ c i).
    2: { rewrite lookup_take_lt by lia. by apply list_lookup_insert_eq. }
    cbn. do 2 f_equal.
    replace (Z.to_nat (mPosition r)) with (S i) by lia.
    by rewrite take_insert_lt, drop_insert_lt by lia.
  - unfold place; cbn. by destruct (c =? _).
Qed.

(** Reading a character and putting it back restores the characters to come,
    the line and the column: the tokenizer's one-character lookahead. *)
Theorem Unread_Read r c l :
  wf r -> pending r = c :: l -> readable c ->
  let r' := Unread (Read r).1 (Read r).2 in
  wf r' /\ pending r' = pending r /\ place r' = place r.
Proof.
  intros Hwf Hpend Hc.
  destruct (Read_spec r c l Hwf Hpend Hc) as (-> & Hwf' & Hp & Hpl & Hpos & Hpc).
  destruct (Unread_spec (Read r).2 c Hwf' Hpos) as (Hwf'' & Hp' & Hpl').
  cbn zeta. rewrite Hp', Hp, Hpend, Hpl'. split_and!; auto.
  unfold place, advance in *.
  destruct (c =? ch "010"); cbn [fst snd] in *; injection Hpl as Hl1 Hl2;
    rewrite ?Hpc, ?Hl1, ?Hl2; f_equal; lia.
Qed.

(** The lookahead is lost at the end of a block: [Peek] then loads the next
    block, [Unread] finds no room in front and does nothing. *)
Theorem Unread_after_Peek_at_block_end r c l :
  wf r -> pending r = c :: l -> readable c ->
  mPosition (Read r).2 = mCapacity (Read r).2 -> l <> [] ->
  pending (Unread c (Peek (Read r).2).2) = l.
Proof.
  intros Hwf Hpend Hc Hend Hl.
  destruct (Read_spec r c l Hwf Hpend Hc) as (_ & Hwf' & Hp & _ & Hpos & _).
  set (r1 := (Read r).2) in *.
  destruct (FRead_spec r1 Hwf' ltac:(lia)) as (_ & Hp2 & _ & _ & Hcase).
  unfold Peek. rewrite Z.geb_leb. destruct (Z.leb_spec (mCapacity r1) (mPosition r1)); [|lia].
  destruct (FRead r1) as [ret r2]. cbn [fst snd] in *.
  destruct Hcase as [[_ Hnil]|(Hret & Hpos2 & _)]; [congruence|].
  destruct (Z.eqb_spec ret (-1)); [done|]. cbn [snd].
  unfold Unread. rewrite Hpos2. simpl. congruence.
Qed.

(** [n] reads in a row. *)
Fixpoint read_n (n : nat) (r : BufferedReader) : list Z * BufferedReader :=
  match n with
  | O => ([], r)
  | S n => let '(c, r) := Read r in let '(l, r) := read_n n r in (c :: l, r)
  end.

(** The reader delivers the file's characters in order across all its blocks,
    and the line number counts the newlines delivered. *)
Theorem read_n_delivers l r rest :
  wf r -> pending r = l ++ rest -> Forall readable l ->
  (read_n (length l) r).1 = l /\ pending (read_n (length l) r).2 = rest /\
  wf (read_n (length l) r).2 /\
  place (read_n (length l) r).2 = fold_left (fun p c => advance c p) l (place r).
Proof.
  revert r. induction l as [|c l IH]; intros r Hwf Hpend Hread; [simpl; auto|].
  inversion_clear Hread as [|? ? Hc Hl].
  destruct (Read_spec r c (l ++ rest) Hwf Hpend Hc) as (Hret & Hwf' & Hp & Hpl & _).
  simpl. destruct (Read r) as [c' r']. cbn [fst snd] in *. subst c'.
  destruct (IH r' Hwf' Hp Hl) as (H1 & H2 & H3 & H4).
  destruct (read_n (length l) r') as [l' r'']. simpl in *. subst l'.
  rewrite H4, Hpl. auto.
Qed.

(** More than one block. *)
Definition long_file : list Z := replicate 600 97 ++ [10; 98].

Lemma read_n_delivers_witness :
  let r := open [] {| s_rest := long_file; s_fails := false |} in
  (read_n (length long_file) r).1 = long_file /\
  place (read_n (length long_file) r).2 = (2, 1).
Proof.
  destruct (read_n_delivers long_file (open [] {| s_rest := long_file; s_fails := false |}) []
    (open_wf _ _)) as (H1 & _ & _ & H4).
  - vm_compute. reflexivity.
  - apply Forall_forall. intros c Hc. unfold readable. intros ->.
    apply (bool_decide_unpack (-1 ∉ long_file)); [vm_compute; exact I|exact Hc].
  - split; [exact H1|]. rewrite H4. vm_compute. reflexivity.
Defined.

End File.
