(* ===== verification/CcdlString.v ===== *)
(** * Strings of the ccdl compiler

    [src/src/ccdl/util/StringBuilder.cpp] and [String.cpp].  A [String] is
    immutable and shared; by value it is [None] (a null [mString]) or the
    characters of its buffer.  A [StringBuilder] owns a growing [calloc]ed
    array that its writes must stay inside and keep NUL-terminated. *)
From S2P Require Import Prelude.

(** [static const int MAX_SIZE] of both files. *)
Definition MAX_SIZE : Z := 67108863.

Abbreviation String := (option (list Z)).

Section Allocating.
Context {A : Allocator}.

(** [SharedBuffer::Alloc(size)] succeeds; the header takes 8 bytes. *)
Definition SharedBuffer_Alloc (size : Z) : bool :=
  if size >? MAX_SIZE then false else alloc_ok (8 + size + 1).

(** [String::String(const char *str)]. *)
Definition mkString (s : String) : String :=
  match s with
  | None => None
  | Some s => if SharedBuffer_Alloc (Z.of_nat (length s)) then Some s else None
  end.
End Allocating.

Module StringBuilder.
Section Allocating.
Context {A : Allocator}.

Record t := { mCapacity : Z; mPosition : Z; mBuffer : option (list Z) }.

Definition empty : t := {| mCapacity := 0; mPosition := 0; mBuffer := None |}.

Definition Enlarge (size : Z) (b : t) : bool * t :=
  let newSize := if mCapacity b =? 0 then 256 else mCapacity b in
  let newSize := if newSize >? size then newSize else size in
  if alloc_ok (mCapacity b + newSize) then
    let newBuffer := replicate (Z.to_nat (mCapacity b + newSize)) 0 in
    let newBuffer :=
      match mBuffer b with
      | Some buf => memcpy newBuffer 0 (take (Z.to_nat (mCapacity b)) buf)
      | None => newBuffer
      end in
    (true, {| mCapacity := mCapacity b + newSize; mPosition := mPosition b;
              mBuffer := Some newBuffer |})
  else (false, b).

(** [memcpy(mBuffer + mPosition, s, n); mPosition += n]. *)
Definition store (s : list Z) (b : t) : t :=
  {| mCapacity := mCapacity b; mPosition := mPosition b + Z.of_nat (length s);
     mBuffer := (fun buf => memcpy buf (Z.to_nat (mPosition b)) s) <$> mBuffer b |}.

Definition Append_char (c : Z) (b : t) : t :=
  if mPosition b + 1 >? MAX_SIZE then b
  else if mPosition b + 1 >=? mCapacity b then
    let '(ok, b') := Enlarge 2 b in if ok then store [c] b' else b'
  else store [c] b.

(** [Append(const char *str)] and [Append(const String&)]. *)
Definition Append (s : String) (b : t) : t :=
  match s with
  | None => b
  | Some s =>
    if bool_decide (c_str s = []) then b
    else if mPosition b >=? MAX_SIZE then b
    else
      let len := Z.of_nat (length s) in
      if mPosition b + len + 1 >=? mCapacity b then
        let '(ok, b') := Enlarge (len + 1) b in if ok then store s b' else b'
      else store s b
  end.

Definition ToString (b : t) : String := mkString (c_str <$> mBuffer b).

(** ** The buffer invariant *)

(** Either nothing was allocated, or the array has [mCapacity] cells, the
    first [mPosition] of them written and all others, at least one, zero. *)
Definition wf (b : t) : Prop :=
  match mBuffer b with
  | None => mCapacity b = 0 /\ mPosition b = 0
  | Some buf => Z.of_nat (length buf) = mCapacity b /\ 0 <= mPosition b < mCapacity b /\
      drop (Z.to_nat (mPosition b)) buf = replicate (Z.to_nat (mCapacity b - mPosition b)) 0
  end.

Definition contents (b : t) : list Z :=
  match mBuffer b with None => [] | Some buf => take (Z.to_nat (mPosition b)) buf end.

Lemma empty_wf : wf empty.
Proof. done. Qed.

Lemma contents_length b : wf b -> Z.of_nat (length (contents b)) = mPosition b.
Proof.
  unfold wf, contents. destruct (mBuffer b); [|simpl; lia].
  intros (? & ? & ?). rewrite length_take. lia.
Qed.

Lemma wf_capacity b : wf b -> 0 <= mPosition b <= mCapacity b /\ (mBuffer b = None -> mCapacity b = 0).
Proof. unfold wf. destruct (mBuffer b); intros; intuition (lia || done). Qed.

Lemma store_spec s b :
  wf b -> mBuffer b <> None -> mPosition b + Z.of_nat (length s) < mCapacity b ->
  wf (store s b) /\ contents (store s b) = contents b ++ s.
Proof.
  unfold wf, contents, store. destruct (mBuffer b) as [buf|]; [|done]; cbn.
  intros (Hl & Hp & Hz) _ Hroom.
  replace (Z.to_nat (mPosition b + Z.of_nat (length s)))
    with (Z.to_nat (mPosition b) + length s)%nat by lia.
  rewrite memcpy_length, memcpy_take, memcpy_drop by lia.
  rewrite <- drop_drop, Hz, drop_replicate.
  split_and!; try done; try lia. f_equal. lia.
Qed.

Lemma Enlarge_spec size b :
  wf b -> alloc_ok (mCapacity b + (Z.max (if mCapacity b =? 0 then 256 else mCapacity b) size)) = true ->
  wf (Enlarge size b).2 /\ (Enlarge size b).1 = true /\ mBuffer (Enlarge size b).2 <> None /\
  contents (Enlarge size b).2 = contents b /\ mPosition (Enlarge size b).2 = mPosition b /\
  mCapacity b + Z.max 1 size <= mCapacity (Enlarge size b).2.
Proof.
  intros Hwf Hok. pose proof (wf_capacity b Hwf) as [Hpc Hnone].
  unfold Enlarge. set (g := if mCapacity b =? 0 then 256 else mCapacity b) in *.
  assert (0 < g) by (subst g; bcase; lia).
  assert (Hmax : (if g >? size then g else size) = Z.max g size) by (bcase; lia).
  rewrite Hmax, Hok. unfold wf, contents in *.
  destruct (mBuffer b) as [buf|] eqn:Hb; cbn.
  - destruct Hwf as (Hl & Hp & Hz).
    rewrite take_ge by lia. set (n := Z.to_nat (mCapacity b + Z.max g size)).
    rewrite memcpy_length by (rewrite length_replicate; lia).
    assert (Hm : memcpy (replicate n 0) 0 buf = buf ++ replicate (n - length buf) 0).
    { unfold memcpy. cbn. by rewrite drop_replicate. }
    rewrite Hm, length_replicate, drop_app_le, take_app_le, Hz by lia.
    rewrite <- replicate_add. split_and!; try done; try lia. f_equal. lia.
  - destruct Hwf as [Hc Hp]. rewrite Hc, Hp. rewrite length_replicate.
  change (Z.to_nat 0) with 0%nat. rewrite drop_0.
    split_and!; try done; try lia. f_equal. lia.
Qed.

Lemma Append_char_spec c b :
  never_fails A -> wf b -> mPosition b < MAX_SIZE ->
  wf (Append_char c b) /\ contents (Append_char c b) = contents b ++ [c].
Proof.
  intros Hok Hwf Hmax. unfold Append_char. bcase; [lia|]. bcase.
  - destruct (Enlarge_spec 2 b Hwf (Hok _)) as (Hw & Ho & Hn & Hc & Hp & Hcap).
    destruct (Enlarge 2 b) as [ok b']. cbn [fst snd] in *. subst ok. rewrite <- Hc.
    apply store_spec; [done|done|]. simpl. pose proof (wf_capacity b Hwf). lia.
  - apply store_spec; [done| |simpl; lia].
    intros Hn. pose proof (wf_capacity b Hwf) as [? Hz]. specialize (Hz Hn). lia.
Qed.

Lemma Append_spec s b :
  never_fails A -> wf b -> mPosition b < MAX_SIZE -> Forall (fun c => c <> 0) s ->
  wf (Append (Some s) b) /\ contents (Append (Some s) b) = contents b ++ s.
Proof.
  intros Hok Hwf Hmax Hs. unfold Append. rewrite c_str_no_nul by done.
  case_bool_decide as Hnil; [subst; by rewrite app_nil_r|].
  bcase; [lia|]. bcase.
  - destruct (Enlarge_spec (Z.of_nat (length s) + 1) b Hwf (Hok _)) as (Hw & Ho & Hn & Hc & Hp & Hcap).
    destruct (Enlarge _ b) as [ok b']. cbn [fst snd] in *. subst ok. rewrite <- Hc.
    pose proof (wf_capacity b Hwf). apply store_spec; [done|done|]. 
    assert (Z.of_nat (length s) <> 0) by (destruct s; simpl in *; [done|lia]). lia.
  - apply store_spec; [done| |lia].
    intros Hn. pose proof (wf_capacity b Hwf) as [? Hz]. specialize (Hz Hn). lia.
Qed.

(** Whatever the allocator refuses and however long the input, no append ever
    writes outside the array or loses the terminating NUL. *)
Lemma Append_char_safe c b : wf b -> wf (Append_char c b).
Proof.
  intros Hwf. pose proof (wf_capacity b Hwf) as [Hpc Hnone]. unfold Append_char. bcase; [done|]. bcase.
  - destruct (alloc_ok (mCapacity b + Z.max (if mCapacity b =? 0 then 256 else mCapacity b) 2)) eqn:Ha.
    + destruct (Enlarge_spec 2 b Hwf Ha) as (Hw & Ho & Hn & Hc & Hp & Hcap).
      destruct (Enlarge 2 b) as [ok b']. cbn [fst snd] in *. subst ok.
      apply store_spec; [done|done|]. simpl. lia.
    + unfold Enlarge.
      match goal with |- context [alloc_ok ?x] =>
        replace x with (mCapacity b + Z.max (if mCapacity b =? 0 then 256 else mCapacity b) 2)
          by (repeat bcase; lia) end.
      by rewrite Ha.
  - apply store_spec; [done| |simpl; lia].
    intros Hn. specialize (Hnone Hn). lia.
Qed.

(** A builder something was stored in: its text is never null. *)
Definition good (b : t) : Prop := wf b /\ mBuffer b <> None /\ mPosition b <= MAX_SIZE.

Lemma Append_char_first c : never_fails A -> good (Append_char c empty).
Proof.
  intros HA. destruct (Append_char_spec c empty HA empty_wf) as [Hw Hc]; [done|].
  pose proof (contents_length _ Hw) as Hl. rewrite Hc in Hl.
  split_and!; [done| |unfold MAX_SIZE; simpl in Hl; lia].
  intros Hn. unfold contents in Hc. by rewrite Hn in Hc.
Qed.

Lemma Append_char_good c b : never_fails A -> good b -> good (Append_char c b).
Proof.
  intros HA (Hwf & Hb & Hp). destruct (Z.lt_ge_cases (mPosition b) MAX_SIZE) as [Hlt|Hge].
  - destruct (Append_char_spec c b HA Hwf Hlt) as [Hw Hc].
    pose proof (contents_length _ Hw) as Hl. pose proof (contents_length _ Hwf) as Hl0.
    rewrite Hc, length_app in Hl. simpl in Hl.
    split_and!; [done| |lia]. intros Hn. unfold contents in Hc. rewrite Hn in Hc.
    by destruct (mBuffer b) as [buf|]; [destruct (take _ buf)|].
  - unfold Append_char. bcase; [by split_and!|lia].
Qed.

Lemma ToString_good b : never_fails A -> good b -> exists l, ToString b = Some l.
Proof.
  intros HA (Hwf & Hb & Hp). unfold ToString, mkString, wf in *.
  destruct (mBuffer b) as [buf|]; [|done]. destruct Hwf as (Hl & Hpos & Hz). cbn.
  assert (Z.of_nat (length (c_str buf)) <= MAX_SIZE) as Hc.
  { rewrite <- (take_drop (Z.to_nat (mPosition b)) buf), Hz.
    replace (Z.to_nat (mCapacity b - mPosition b))
      with (S (Z.to_nat (mCapacity b - mPosition b - 1))) by lia.
    cbn [replicate]. etransitivity; [apply inj_le, c_str_app_le|]. rewrite length_take. lia. }
  unfold SharedBuffer_Alloc. bcase; [lia|]. rewrite HA. eauto.
Qed.

Lemma ToString_spec b :
  never_fails A -> wf b -> mPosition b <= MAX_SIZE -> Forall (fun c => c <> 0) (contents b) ->
  ToString b = match mBuffer b with None => None | Some _ => Some (contents b) end.
Proof.
  intros Hok Hwf Hmax Hnz. unfold ToString, mkString.
  pose proof (contents_length b Hwf) as Hlen. unfold wf, contents in *.
  destruct (mBuffer b) as [buf|]; [|done]. destruct Hwf as (Hl & Hp & Hz). cbn.
  assert (c_str buf = take (Z.to_nat (mPosition b)) buf) as ->.
  { rewrite <- (take_drop (Z.to_nat (mPosition b)) buf) at 1. rewrite Hz.
    replace (Z.to_nat (mCapacity b - mPosition b))
      with (S (Z.to_nat (mCapacity b - mPosition b - 1))) by lia.
    by apply c_str_app_nul. }
  unfold SharedBuffer_Alloc. rewrite Hlen. bcase; [lia|]. by rewrite Hok.
Qed.

(** ** What a builder holds *)

Definition holds (b : t) (l : list Z) : Prop := wf b /\ contents b = l.

Lemma holds_empty : holds empty [].
Proof. by split. Qed.

Lemma holds_position b l : holds b l -> mPosition b = Z.of_nat (length l).
Proof. intros [Hw <-]. symmetry. by apply contents_length. Qed.

Lemma holds_put c b l :
  never_fails A -> holds b l -> Z.of_nat (length l) < MAX_SIZE -> holds (Append_char c b) (l ++ [c]).
Proof.
  intros HA Hb Hl. pose proof (holds_position b l Hb). destruct Hb as [Hw <-].
  apply Append_char_spec; [done|done|lia].
Qed.

Lemma holds_append s b l :
  never_fails A -> holds b l -> Z.of_nat (length l) < MAX_SIZE -> Forall (fun c => c <> 0) s ->
  holds (Append (Some s) b) (l ++ s).
Proof.
  intros HA Hb Hl Hs. pose proof (holds_position b l Hb). destruct Hb as [Hw <-].
  apply Append_spec; [done|done|lia|done].
Qed.

Lemma holds_ToString b l :
  never_fails A -> holds b l -> l <> [] -> Z.of_nat (length l) <= MAX_SIZE ->
  Forall (fun c => c <> 0) l -> ToString b = Some l.
Proof.
  intros HA Hb Hne Hl Hz. pose proof (holds_position b l Hb). destruct Hb as [Hw <-].
  rewrite ToString_spec by (done || lia). unfold contents in *. by destruct (mBuffer b).
Qed.

End Allocating.
Arguments t : clear implicits.
End StringBuilder.

Module Str.
Section Allocating.
Context {A : Allocator}.

Definition IsNull (s : String) : bool := match s with None => true | _ => false end.

Definition IsNullOrEmpty (s : String) : bool :=
  match s with None => true | Some l => bool_decide (c_str l = []) end.

Definition GetLength (s : String) : Z :=
  match s with None => 0 | Some l => Z.of_nat (length l) end.

(** The BKDR hash; [*string] is a signed [char] widened to [unsigned int]. *)
Definition GetHashCode (s : String) : Z :=
  match s with
  | None => 0
  | Some l => Z.land (fold_left (fun h c => u32 (h * 31 + c)) (c_str l) 0) 0x7FFFFFFF
  end.

(** [Compare]: null strings come first, equal pointers are equal strings. *)
Definition Compare (s t : String) : Z :=
  match s, t with
  | None, None => 0
  | None, _ => -1
  | _, None => 1
  | Some s, Some t => strcmp (c_str s) (c_str t)
  end.

(** [Equals(const String&)]; [None] is the undefined [strcmp] on a null
    pointer that a null and an empty string reach. *)
Definition Equals (s t : String) : option bool :=
  match s, t with
  | None, None => Some true
  | _, _ =>
    if negb (GetLength s =? GetLength t) then Some false
    else match s, t with
         | Some s, Some t => Some (strcmp (c_str s) (c_str t) =? 0)
         | _, _ => None
         end
  end.

Definition GetChar (s : String) (index : Z) : Z :=
  if (index <? 0) || (index >=? GetLength s) then 0
  else match s with Some l => nth (Z.to_nat index) l 0 | None => 0 end.

(** [Substring(begin)]. *)
Definition Substring1 (s : String) (begin : Z) : String :=
  if (begin <? 0) || (begin >=? GetLength s) then None
  else match s with
       | Some l => mkString (Some (c_str (drop (Z.to_nat begin) l)))
       | None => None
       end.

(** [Substring(begin, end)], both inclusive. *)
Definition Substring (s : String) (begin end_ : Z) : String :=
  if (begin <? 0) || (begin >? end_) || (end_ >=? GetLength s) then None
  else match s with
       | Some l =>
         let len := end_ - begin + 1 in
         if SharedBuffer_Alloc len then Some (take (Z.to_nat len) (drop (Z.to_nat begin) l)) else None
       | None => None
       end.

Definition ptr_index (p : option nat) : Z := match p with Some i => Z.of_nat i | None => -1 end.

(** [IndexOf(const String&)] and [IndexOf(const char *str)]. *)
Definition IndexOf (s t : String) : Z :=
  if IsNullOrEmpty s || IsNullOrEmpty t then -1
  else match s, t with
       | Some s, Some t => ptr_index (strstr (c_str s) (c_str t))
       | _, _ => -1
       end.

(** The same from an index: the result counts from the string's start. *)
Definition IndexOf_from (s t : String) (fromIndex : Z) : Z :=
  if IsNullOrEmpty s || IsNullOrEmpty t || (fromIndex >=? GetLength s) then -1
  else match s, t with
       | Some s, Some t =>
         match strstr (c_str (drop (Z.to_nat fromIndex) s)) (c_str t) with
         | Some i => fromIndex + Z.of_nat i
         | None => -1
         end
       | _, _ => -1
       end.

(** [IndexOf(int c)] and [LastIndexOf(int c)]. *)
Definition IndexOf_char (s : String) (c : Z) : Z :=
  if (c =? 0) || IsNullOrEmpty s then -1
  else match s with Some s => ptr_index (strchr (c_str s) (i8 c)) | None => -1 end.

Definition LastIndexOf_char (s : String) (c : Z) : Z :=
  if (c =? 0) || IsNullOrEmpty s then -1
  else match s with Some s => ptr_index (strrchr (c_str s) (i8 c)) | None => -1 end.

Definition Contains (s t : String) : bool := negb (IndexOf s t =? -1).

(** ** [LastIndexOfInternal]: backwards search with two nested loops and a goto *)

Definition char_at (s : list Z) (i : Z) : Z := nth (Z.to_nat i) s 0.

(** [while (i >= min && mString[i] != strLastChar) i--;] *)
Fixpoint skip_back (fuel : nat) (s : list Z) (min last i : Z) : option Z :=
  match fuel with
  | O => None
  | S fuel => if (i >=? min) && negb (char_at s i =? last) then skip_back fuel s min last (i - 1)
              else Some i
  end.

(** [while (j > start) if (mString[j--] != string[k--]) ...;] whether the
    comparison ran to its end. *)
Fixpoint match_back (fuel : nat) (s t : list Z) (start j k : Z) : option bool :=
  match fuel with
  | O => None
  | S fuel => if j >? start then
                if negb (char_at s j =? char_at t k) then Some false
                else match_back fuel s t start (j - 1) (k - 1)
              else Some true
  end.

Fixpoint search_last (fuel : nat) (s t : list Z) (min i : Z) : option Z :=
  match fuel with
  | O => None
  | S fuel =>
    let strLastIndex := Z.of_nat (length t) - 1 in
    match skip_back (S (length s)) s min (char_at t strLastIndex) i with
    | None => None
    | Some i =>
      if i <? min then Some (-1)
      else
        let j := i - 1 in
        let start := j - (Z.of_nat (length t) - 1) in
        match match_back (S (length t)) s t start j (strLastIndex - 1) with
        | None => None
        | Some true => Some (start + 1)
        | Some false => search_last fuel s t min (i - 1)
        end
    end
  end.

(** [fuel]: the search index [i] starts inside the string and only decreases. *)
Definition LastIndexOfInternal (s t : list Z) (fromIndex : Z) : option Z :=
  let rightIndex := Z.of_nat (length s) - Z.of_nat (length t) in
  let fromIndex := if fromIndex >? rightIndex then rightIndex else fromIndex in
  let min := Z.of_nat (length t) - 1 in
  search_last (S (length s)) s t min (min + fromIndex).

Definition LastIndexOf (s t : String) : option Z :=
  if IsNullOrEmpty s || IsNullOrEmpty t then Some (-1)
  else match s, t with
       | Some s, Some t => LastIndexOfInternal s (c_str t) (Z.of_nat (length s) - 1)
       | _, _ => Some (-1)
       end.

Definition LastIndexOf_from (s t : String) (fromIndex : Z) : option Z :=
  if IsNullOrEmpty s || IsNullOrEmpty t || (fromIndex <? 0) then Some (-1)
  else match s, t with
       | Some s, Some t => LastIndexOfInternal s (c_str t) fromIndex
       | _, _ => Some (-1)
       end.

Definition StartsWith (s prefix : String) : bool := IndexOf s prefix =? 0.

Definition EndsWith (s suffix : String) : bool :=
  if IsNullOrEmpty s || IsNullOrEmpty suffix then false
  else if GetLength suffix >? GetLength s then false
  else StartsWith (Substring1 s (GetLength s - GetLength suffix)) suffix.

(** [operator+=]. *)
Definition append (s t : String) : String :=
  match t with
  | None => s
  | Some t =>
    if bool_decide (c_str t = []) then s
    else
      let old := match s with Some s => s | None => [] end in
      if SharedBuffer_Alloc (Z.of_nat (length old + length t)) then Some (old ++ t) else s
  end.

(** [Replace(int oldChar, int newChar)]. *)
Definition Replace_char (s : String) (oldChar newChar : Z) : String :=
  if oldChar =? newChar then s
  else match s with
       | None => None
       | Some l =>
         if existsb (Z.eqb oldChar) l then
           mkString (Some (map (fun c => if c =? oldChar then i8 newChar else c) l))
         else s
       end.

(** The loop of [Replace(target, replacement)]; every round moves [begin]
    past an occurrence. *)
Fixpoint replace_loop (fuel : nat) (s target replacement : String) (begin index : Z)
    (b : StringBuilder.t) : option (Z * StringBuilder.t) :=
  match fuel with
  | O => None
  | S fuel =>
    if index =? -1 then Some (begin, b)
    else
      let b := StringBuilder.Append (Substring s begin (index - 1)) b in
      let b := StringBuilder.Append replacement b in
      let begin := index + GetLength target in
      replace_loop fuel s target replacement begin (IndexOf_from s target begin) b
  end.

Definition Replace (s target replacement : String) : option String :=
  if IsNullOrEmpty target || IsNull replacement then Some s
  else
    let index := IndexOf s target in
    if index =? -1 then Some s
    else
      '(begin, b) ← replace_loop (S (Z.to_nat (GetLength s))) s target replacement 0 index
                      StringBuilder.empty;
      Some (StringBuilder.ToString (StringBuilder.Append (Substring1 s begin) b)).

End Allocating.

(** *** What the backwards search returns *)

Lemma skip_back_spec s min last fuel i :
  0 <= min -> (Z.to_nat (i - min + 1) < fuel)%nat ->
  exists i', skip_back fuel s min last i = Some i' /\ i' <= i /\
    (i' < min \/ char_at s i' = last) /\
    (forall p, min <= p -> i' < p <= i -> char_at s p <> last).
Proof.
  intros Hmin. revert i. induction fuel as [|fuel IH]; intros i Hf; [lia|]. simpl.
  rewrite Z.geb_leb. destruct (Z.leb_spec min i) as [Hle|Hlt]; simpl.
  - destruct (Z.eqb_spec (char_at s i) last) as [He|Hne]; simpl.
    + exists i. split_and!; auto; lia.
    + destruct (IH (i - 1) ltac:(lia)) as (i' & H1 & H2 & H3 & H4).
      exists i'. split_and!; auto; [lia|]. intros p Hp Hpi.
      destruct (decide (p = i)) as [->|]; [done|]. apply H4; lia.
  - exists i. split_and!; auto; lia.
Qed.

Lemma match_back_spec s t start fuel j :
  (Z.to_nat (j - start) < fuel)%nat ->
  exists b, match_back fuel s t start j (j - start - 1) = Some b /\
    (b = true <-> forall p, start < p <= j -> char_at s p = char_at t (p - start - 1)).
Proof.
  revert j. induction fuel as [|fuel IH]; intros j Hf; [lia|]. simpl.
  rewrite Z.gtb_ltb. destruct (Z.ltb_spec start j) as [Hlt|Hge].
  - destruct (Z.eqb_spec (char_at s j) (char_at t (j - start - 1))) as [He|Hne]; simpl.
    + destruct (IH (j - 1) ltac:(lia)) as (b & Hb & Hspec).
      replace (j - start - 1 - 1) with (j - 1 - start - 1) by lia.
      exists b. split; [done|]. rewrite Hspec. split; intros H p Hp.
      * destruct (decide (p = j)) as [->|]; [done|]. apply H. lia.
      * apply H. lia.
    + exists false. split; [done|]. split; [done|]. intros H. exfalso. apply Hne, H. lia.
  - exists true. split; [done|]. split; [|done]. intros; lia.
Qed.

(** [t] occurs in [s] with its last character at index [i]. *)
Lemma occurs_chars s t p :
  t <> [] -> Z.of_nat p + Z.of_nat (length t) <= Z.of_nat (length s) ->
  occurs_at s t p = true <->
  forall k, 0 <= k < Z.of_nat (length t) -> char_at s (Z.of_nat p + k) = char_at t k.
Proof.
  intros Hne Hlen. unfold occurs_at. rewrite bool_decide_eq_true. split.
  - intros [r Hr] k Hk. unfold char_at.
    replace (Z.to_nat (Z.of_nat p + k)) with (p + Z.to_nat k)%nat by lia.
    rewrite <- nth_skipn. rewrite Hr. apply app_nth1. lia.
  - intros H. exists (drop (p + length t) s). rewrite <- drop_drop.
    rewrite <- (take_drop (length t) (drop p s)) at 1. f_equal.
    apply nth_ext with 0 0; [rewrite length_take, length_drop; lia|].
    intros k Hk. rewrite length_take, length_drop in Hk.
    specialize (H (Z.of_nat k) ltac:(lia)). unfold char_at in H.
    rewrite Nat2Z.id in H. rewrite <- H, nth_firstn, nth_skipn.
    destruct (Nat.ltb_spec k (length t)); [|lia]. f_equal. lia.
Qed.

(** The index of the last occurrence of [t] at or before [hi], or -1. *)
Definition last_occurrence (s t : list Z) (hi r : Z) : Prop :=
  (r = -1 /\ forall p, Z.of_nat p <= hi -> occurs_at s t p = false) \/
  (0 <= r <= hi /\ occurs_at s t (Z.to_nat r) = true /\
   forall p, r < Z.of_nat p <= hi -> occurs_at s t p = false).

(** An occurrence ends with the last character of [t]. *)
Lemma occurs_last s t p :
  t <> [] -> Z.of_nat p + Z.of_nat (length t) <= Z.of_nat (length s) -> occurs_at s t p = true ->
  char_at s (Z.of_nat p + (Z.of_nat (length t) - 1)) = char_at t (Z.of_nat (length t) - 1).
Proof.
  intros Hne Hlen Hocc. apply (occurs_chars s t p Hne Hlen); [done|]. destruct t; [done|simpl; lia].
Qed.

Lemma search_last_spec s t fuel i :
  t <> [] ->
  let min := Z.of_nat (length t) - 1 in
  i < Z.of_nat (length s) -> (Z.to_nat (i - min + 1) < fuel)%nat ->
  exists r, search_last fuel s t min i = Some r /\ last_occurrence s t (i - min) r.
Proof.
  intros Hne min. assert (Hmin : 0 <= min) by (subst min; destruct t; [done|simpl; lia]).
  revert i. induction fuel as [|fuel IH]; intros i Hi Hf; [lia|]. cbn [search_last]. fold min.
  destruct (skip_back_spec s min (char_at t min) (S (length s)) i Hmin ltac:(lia))
    as (i' & -> & Hle & Hstop & Hskip).
  assert (Hnone : forall p, i' < Z.of_nat p + min <= i -> occurs_at s t p = false).
  { intros p Hp. apply not_true_iff_false. intros Hocc.
    apply (Hskip (Z.of_nat p + min)); [lia|lia|]. by apply occurs_last; [|lia|]. }
  destruct (Z.ltb_spec i' min) as [Hlt|Hge].
  { exists (-1). split; [done|]. left. split; [done|]. intros p Hp. apply Hnone. lia. }
  destruct Hstop as [|Hlast]; [lia|].
  destruct (match_back_spec s t (i' - 1 - min) (S (length t)) (i' - 1) ltac:(lia)) as (b & Hb & Hbs).
  replace (i' - 1 - (i' - 1 - min) - 1) with (min - 1) in Hb by lia. rewrite Hb.
  assert (Hocc : b = true <-> occurs_at s t (Z.to_nat (i' - min)) = true).
  { rewrite Hbs, occurs_chars by (done || lia). rewrite Z2Nat.id by lia. split; intros H p Hp.
    - destruct (decide (p = min)) as [->|]; [by replace (i' - min + min) with i' by lia|].
      rewrite (H (i' - min + p) ltac:(lia)). f_equal. lia.
    - specialize (H (p - (i' - 1 - min) - 1) ltac:(lia)). rewrite <- H. f_equal. lia. }
  destruct b.
  - exists (i' - 1 - min + 1). split; [done|]. right. split; [lia|].
    replace (i' - 1 - min + 1) with (i' - min) by lia. split; [by apply Hocc|].
    intros p Hp. apply Hnone. lia.
  - destruct (IH (i' - 1) ltac:(lia) ltac:(lia)) as (r & Hr & Hspec).
    exists r. split; [done|].
    assert (Hmore : forall p, i' - 1 - min < Z.of_nat p <= i - min -> occurs_at s t p = false).
    { intros p Hp. destruct (decide (Z.of_nat p = i' - min)) as [He|]; [|apply Hnone; lia].
      apply not_true_iff_false. intros H. replace p with (Z.to_nat (i' - min)) in H by lia.
      by apply Hocc in H. }
    destruct Hspec as [[-> Hn]|(Hr1 & Hr2 & Hn)]; [left|right]; split_and!; auto; try lia;
      intros p Hp; destruct (decide (Z.of_nat p <= i' - 1 - min)); first [apply Hn; lia | apply Hmore; lia].
Qed.

(** The search loops end and return the last occurrence of the target that
    starts at or before [fromIndex]. *)
Theorem LastIndexOfInternal_correct s t fromIndex :
  t <> [] ->
  exists r, LastIndexOfInternal s t fromIndex = Some r /\
    last_occurrence s t (Z.min fromIndex (Z.of_nat (length s) - Z.of_nat (length t))) r.
Proof.
  intros Hne. unfold LastIndexOfInternal.
  set (hi := if fromIndex >? _ then _ else _).
  assert (hi = Z.min fromIndex (Z.of_nat (length s) - Z.of_nat (length t))) as <-
    by (subst hi; bcase; lia).
  assert (hi <= Z.of_nat (length s) - Z.of_nat (length t)) by (subst hi; bcase; lia).
  assert (0 < length t)%nat by (destruct t; [done|simpl; lia]).
  destruct (search_last_spec s t (S (length s)) (Z.of_nat (length t) - 1 + hi) Hne
              ltac:(lia) ltac:(lia)) as (r & Hr & Hspec).
  exists r. split; [done|].
  by replace (Z.of_nat (length t) - 1 + hi - (Z.of_nat (length t) - 1)) with hi in Hspec by lia.
Qed.

Example LastIndexOf_ex : LastIndexOf (Some (str "a::b::c")) (Some (str "::")) = Some 4.
Proof. reflexivity. Qed.

End Str.
