(* ===== verification/Buckets.v ===== *)
(** * Chained hash tables

    The table both containers of the repository are built on, ccdl's
    [StringMap] (src/src/ccdl/util/StringMap.h) and the runtime's [HashMap]
    (src/src/runtime/util/hashmap.h): an array of singly linked chains of
    buckets.  The pointer loops of the two headers are the list functions here;
    a chain is owned by one slot, so a list of buckets carries all of it.

    The section is parametric in the key type, its equality test and hash, and
    in the slot [index] a hash selects; [abs] reads the table as a finite map.
    The class [Dict] is the contract the containers offer to their clients. *)
From S2P Require Import Prelude.
From Stdlib Require Export SpecFloat.

(** ** The load factor: [mThreshold = mBucketSize * LOAD_FACTOR]

    [int * float], truncated to [int]; [LOAD_FACTOR] is 0.75f. *)
Definition float_of_Z (z : Z) : spec_float := binary_normalize 24 128 z 0 false.

Definition LOAD_FACTOR : spec_float := S754_finite false 12582912 (-24).

Definition trunc (f : spec_float) : Z :=
  match f with
  | S754_finite s m e =>
    let a := if 0 <=? e then Z.shiftl (Zpos m) e else Z.shiftr (Zpos m) (- e) in
    if s then - a else a
  | _ => 0
  end.

Definition threshold (mBucketSize : Z) : Z := trunc (SFmul 24 128 (float_of_Z mBucketSize) LOAD_FACTOR).

Example threshold_53 : threshold 53 = 39.
Proof. reflexivity. Qed.

Definition MAX_BUCKET_SIZE : Z := 2147483647 - 8.

(** The value of an [int] expression; leaving the type is undefined. *)
Definition int_of (z : Z) : option Z := if fits_sb 32 z then Some z else None.

Lemma int_of_fits z : fits_s 32 z -> int_of z = Some z.
Proof. intros H. unfold int_of. by rewrite (proj2 (fits_sb_spec 32 z) H). Qed.

(** The size [Rehash] grows to: [n * 2 + 1], clamped beyond the largest size. *)
Definition next_size (n : Z) : option Z :=
  n' ← int_of (n * 2 + 1);
  Some (if (n' >? MAX_BUCKET_SIZE) || (n' <? 0) then MAX_BUCKET_SIZE else n').

(** ** Prime sizes

    [prime_list] and the search of [get_lower_bound]; falling off its loop
    would be undefined, which [None] records. *)
Definition prime_list : list Z := [5; 11; 23; 53; 97; 193; 389; 769; 1543; 3079; 6151].

Fixpoint closest_prime (l : list Z) (n : Z) : option Z :=
  match l with
  | l0 :: ((r0 :: _) as rest) =>
    if (l0 <=? n) && (n <? r0) then Some (if n - l0 <? r0 - n then l0 else r0)
    else closest_prime rest n
  | _ => None
  end.

Lemma closest_prime_in l n p : closest_prime l n = Some p -> p ∈ l.
Proof.
  revert p. induction l as [|l0 [|r0 l] IH]; intros p H; [done|done|].
  cbn [closest_prime] in H. destruct ((l0 <=? n) && (n <? r0)); [|constructor; by apply IH].
  injection H as <-. destruct (n - l0 <? r0 - n); set_solver.
Qed.

(** ** The sizes of a table

    A table grows from a prime; as long as its count of entries has not
    passed the limit, the next size is still an [int]. *)
Definition ENTRY_LIMIT : Z := 1200000000.

Fixpoint grown (fuel : nat) (n : Z) : list Z :=
  n :: match fuel, next_size n with S fuel, Some n' => grown fuel n' | _, _ => [] end.

Definition sizes : list Z := prime_list ≫= grown 30.

Lemma sizes_grow :
  Forall (fun n => 0 < n /\
    match next_size n with Some n' => n' ∈ sizes | None => ENTRY_LIMIT < threshold n end) sizes.
Proof.
  apply Forall_forall. intros n Hn.
  assert (forallb (fun n => (0 <? n) && match next_size n with
    | Some n' => existsb (Z.eqb n') sizes | None => ENTRY_LIMIT <? threshold n end) sizes = true) as H
    by (vm_compute; reflexivity).
  rewrite forallb_forall in H. apply list_elem_of_In, H, andb_true_iff in Hn as [Hp Hg]. split; [lia|].
  destruct (next_size n) as [n'|]; [|lia].
  apply existsb_exists in Hg as (x & Hx & ->%Z.eqb_eq). by apply list_elem_of_In.
Qed.

Lemma size_pos n : n ∈ sizes -> 0 < n.
Proof. intros Hn. by apply (proj1 (Forall_forall _ _) sizes_grow n Hn). Qed.

Lemma prime_size p : p ∈ prime_list -> p ∈ sizes.
Proof. intros Hp. apply list_elem_of_bind. exists p. split; [constructor|done]. Qed.

Lemma next_size_spec n count : n ∈ sizes -> threshold n <= count <= ENTRY_LIMIT ->
  exists n', next_size n = Some n' /\ n' ∈ sizes /\ 0 < n'.
Proof.
  intros Hn Hc. destruct (proj1 (Forall_forall _ _) sizes_grow n Hn) as [_ H].
  destruct (next_size n) as [n'|]; [|lia]. exists n'. split_and!; [done|done|by apply size_pos].
Qed.

Section Chains.
Context {K V : Type} `{Countable K}.

(** [struct Bucket] without its [mNext]. *)
Record Bucket := { mHash : Z; mKey : K; mValue : V }.

Variable keq : K -> K -> bool.    (* the key comparison of the container *)
Variable hash : K -> Z.
Variable index : Z -> Z -> nat.   (* slot of a hash in a table of a size *)
Variable canon : K -> K.          (* what the comparison sees of a key *)

Abbreviation table := (list (list Bucket)).

(** [curr->mHash == hash && curr->mKey == key] along a chain. *)
Fixpoint chain_find (h : Z) (k : K) (c : list Bucket) : option V :=
  match c with
  | [] => None
  | b :: c => if (mHash b =? h) && keq (mKey b) k then Some (mValue b) else chain_find h k c
  end.

(** Overwrites the value of the first bucket with the key, whatever its hash;
    [None] when the chain has none. *)
Fixpoint chain_set (k : K) (v : V) (c : list Bucket) : option (list Bucket) :=
  match c with
  | [] => None
  | b :: c =>
    if keq (mKey b) k then Some ({| mHash := mHash b; mKey := mKey b; mValue := v |} :: c)
    else (b ::.) <$> chain_set k v c
  end.

(** Unlinks the first bucket with the hash and key. *)
Fixpoint chain_remove (h : Z) (k : K) (c : list Bucket) : list Bucket :=
  match c with
  | [] => []
  | b :: c => if (mHash b =? h) && keq (mKey b) k then c else b :: chain_remove h k c
  end.

(** [PutBucket]: appends to the chain of the bucket's slot. *)
Definition put_bucket (t : table) (size : Z) (b : Bucket) : option table :=
  let i := index (mHash b) size in
  c ← t !! i; Some (<[i := c ++ [b]]> t).

Fixpoint put_buckets (t : table) (size : Z) (bs : list Bucket) : option table :=
  match bs with
  | [] => Some t
  | b :: bs => t ← put_bucket t size b; put_buckets t size bs
  end.

(** ** The table as a finite map *)

(** The map takes keys the comparison does not tell apart for one. *)
Definition ckey (b : Bucket) : K := canon (mKey b).

Definition abs (t : table) : gmap K V :=
  list_to_map ((fun b => (ckey b, mValue b)) <$> mjoin t).

Record wf (t : table) (size : Z) : Prop := {
  wf_size : Z.of_nat (length t) = size;
  wf_home : forall i c b, t !! i = Some c -> b ∈ c ->
    mHash b = hash (mKey b) /\ index (mHash b) size = i;
  wf_nodup : NoDup (ckey <$> mjoin t)
}.

Hypothesis keq_spec : forall a b, keq a b = true <-> canon a = canon b.
Hypothesis canon_idem : forall a, canon (canon a) = canon a.
Hypothesis hash_canon : forall a b, canon a = canon b -> hash a = hash b.

Lemma chain_find_Some h k (c : list Bucket) v :
  chain_find h k c = Some v -> exists b, b ∈ c /\ mHash b = h /\ ckey b = canon k /\ mValue b = v.
Proof.
  induction c as [|b c IH]; simpl; [done|].
  destruct ((mHash b =? h) && keq (mKey b) k) eqn:E.
  - intros [= <-]. apply andb_true_iff in E as [E1 E2]. apply keq_spec in E2.
    exists b. split_and!; [constructor|lia|done|done].
  - intros Hf. destruct (IH Hf) as (b' & ? & ?). exists b'. split; [by constructor|done].
Qed.

Lemma chain_find_elem h (c : list Bucket) b :
  b ∈ c -> mHash b = h -> NoDup (ckey <$> c) -> forall k, ckey b = canon k -> chain_find h k c = Some (mValue b).
Proof.
  induction c as [|b0 c IH]; intros Hin Hh Hnd k Hk; [by apply not_elem_of_nil in Hin|].
  simpl in *. apply NoDup_cons in Hnd as [Hni Hnd].
  apply elem_of_cons in Hin as [->|Hin].
  - rewrite Hh, Z.eqb_refl. rewrite (proj2 (keq_spec _ _)) by done. done.
  - destruct (keq (mKey b0) k) eqn:E; [|rewrite andb_false_r; auto].
    apply keq_spec in E. exfalso. apply Hni. unfold ckey at 1. rewrite E, <- Hk. by apply list_elem_of_fmap_2.
Qed.

Lemma wf_chain_nodup (t : table) size i c : wf t size -> t !! i = Some c -> NoDup (ckey <$> c).
Proof.
  intros [_ _ Hnd] Hi. rewrite <- (take_drop_middle t i c Hi) in Hnd.
  rewrite join_app, fmap_app in Hnd. apply NoDup_app in Hnd as (_ & _ & Hnd).
  simpl in Hnd. rewrite fmap_app in Hnd. by apply NoDup_app in Hnd as (? & _ & _).
Qed.

Lemma elem_of_table (t : table) (b : Bucket) : b ∈ mjoin t <-> exists i c, t !! i = Some c /\ b ∈ c.
Proof.
  rewrite list_elem_of_join. split.
  - intros (c & Hb & Hc). apply list_elem_of_lookup in Hc as [i Hi]. eauto.
  - intros (i & c & Hi & Hb). exists c. split; [done|]. by eapply list_elem_of_lookup_2.
Qed.

(** The slot a key hashes to holds everything the map knows of the key. *)
Lemma abs_lookup (t : table) size k c :
  wf t size -> t !! index (hash k) size = Some c -> abs t !! canon k = chain_find (hash k) k c.
Proof.
  intros Hwf Hi. unfold abs.
  assert (Hnd : NoDup (((fun b => (ckey b, mValue b)) <$> mjoin t).*1)).
  { rewrite <- list_fmap_compose. apply Hwf. }
  apply option_eq. intros v. rewrite <- elem_of_list_to_map by done. split.
  - intros Hin. apply list_elem_of_fmap in Hin as (b & [= Hk ->] & Hb).
    apply elem_of_table in Hb as (j & c' & Hj & Hb).
    destruct (wf_home t size Hwf j c' b Hj Hb) as [Hh <-].
    rewrite <- (hash_canon k (mKey b) Hk) in Hh.
    rewrite Hh, Hi in Hj. injection Hj as ->.
    apply chain_find_elem; auto. by eapply wf_chain_nodup.
  - intros Hf. apply chain_find_Some in Hf as (b & Hb & _ & <- & <-).
    apply list_elem_of_fmap. exists b. split; [done|].
    apply elem_of_table. eauto.
Qed.

Lemma abs_other (t : table) k : canon k <> k -> abs t !! k = None.
Proof.
  intros Hk. apply not_elem_of_list_to_map. rewrite <- list_fmap_compose.
  intros (b & -> & _)%list_elem_of_fmap. apply Hk. apply canon_idem.
Qed.

(** A table stands for a map when the lookups of all keys agree. *)
Lemma abs_ext (t : table) g : (forall k, canon k <> k -> g !! k = None) ->
  (forall k, abs t !! canon k = g !! canon k) -> abs t = g.
Proof.
  intros Hg H1. apply map_eq. intros k. destruct (decide (canon k = k)) as [<-|Hk]; [apply H1|].
  by rewrite abs_other, Hg.
Qed.

Lemma canon_hash k k' : hash k <> hash k' -> canon k <> canon k'.
Proof. intros H1 H2. by apply H1, hash_canon. Qed.

Lemma join_insert (t : table) i (c c' : list Bucket) :
  t !! i = Some c ->
  mjoin (<[i := c']> t) = mjoin (take i t) ++ c' ++ mjoin (drop (S i) t) /\
  mjoin t = mjoin (take i t) ++ c ++ mjoin (drop (S i) t).
Proof.
  intros Hi. split.
  - rewrite insert_take_drop by (by eapply lookup_lt_Some). by rewrite join_app.
  - rewrite <- (take_drop_middle t i c Hi) at 1. by rewrite join_app.
Qed.

Lemma chain_set_Some k v (c c' : list Bucket) :
  chain_set k v c = Some c' ->
  mKey <$> c' = mKey <$> c /\ mHash <$> c' = mHash <$> c /\ canon k ∈ ckey <$> c.
Proof.
  revert c'. induction c as [|b c IH]; intros c'; simpl; [done|].
  destruct (keq (mKey b) k) eqn:E.
  - intros [= <-]. apply keq_spec in E. csimpl. unfold ckey at 1. rewrite E. split_and!; [done|done|constructor].
  - destruct (chain_set k v c) as [c0|]; [|done]. intros [= <-]. csimpl.
    destruct (IH c0 eq_refl) as (Hk & Hh & ?). rewrite Hk, Hh. split_and!; [done|done|by constructor].
Qed.

Lemma chain_set_None k v (c : list Bucket) : chain_set k v c = None -> canon k ∉ ckey <$> c.
Proof.
  induction c as [|b c IH]; simpl; [intros _; apply not_elem_of_nil|].
  destruct (keq (mKey b) k) eqn:E; [done|].
  destruct (chain_set k v c); [done|]. intros _. apply not_elem_of_cons. split; [|auto].
  intros Hk. by rewrite (proj2 (keq_spec (mKey b) k) (eq_sym Hk)) in E.
Qed.

Lemma chain_set_find h k v k' (c c' : list Bucket) :
  NoDup (ckey <$> c) -> (forall b, b ∈ c -> ckey b = canon k -> mHash b = h) ->
  chain_set k v c = Some c' ->
  chain_find h k c' = Some v /\ forall h', canon k' <> canon k -> chain_find h' k' c' = chain_find h' k' c.
Proof.
  revert c'. induction c as [|b c IH]; intros c' Hnd Hh; simpl; [done|].
  apply NoDup_cons in Hnd as [Hni Hnd].
  destruct (keq (mKey b) k) eqn:E.
  - intros [= <-]. simpl. apply keq_spec in E as Ek. split.
    + rewrite (Hh b (list_elem_of_here _ _) Ek), Z.eqb_refl, E. done.
    + intros h' Hne. destruct (keq (mKey b) k') eqn:E'; [|by rewrite !andb_false_r].
      apply keq_spec in E'. congruence.
  - destruct (chain_set k v c) as [c0|]; [|done]. intros [= <-]. simpl.
    destruct (IH c0 Hnd) as [H1 H2]; [|done|].
    { intros b' Hb'. apply Hh. by constructor. }
    rewrite E, andb_false_r. split; [done|]. intros h' Hne. by rewrite H2.
Qed.

Lemma chain_find_app h k c b :
  chain_find h k (c ++ [b]) =
  match chain_find h k c with Some v => Some v | None => chain_find h k [b] end.
Proof.
  induction c as [|b0 c IH]; [done|]. simpl. destruct ((mHash b0 =? h) && keq (mKey b0) k); auto.
Qed.

Lemma chain_find_None h k (c : list Bucket) : canon k ∉ ckey <$> c -> chain_find h k c = None.
Proof.
  intros Hni. destruct (chain_find h k c) eqn:E; [|done].
  apply chain_find_Some in E as (b & Hb & _ & Hk & _). exfalso. apply Hni.
  rewrite <- Hk. by apply list_elem_of_fmap_2.
Qed.

(** *** Operations on the whole table *)

(** The search of [Put]: overwrite, or append a new bucket; the flag tells
    whether the bucket is new. *)
Definition table_put (t : table) (size : Z) (k : K) (v : V) : option (table * bool) :=
  let h := hash k in
  let i := index h size in
  c ← t !! i;
  match chain_set k v c with
  | Some c' => Some (<[i := c']> t, false)
  | None => Some (<[i := c ++ [{| mHash := h; mKey := k; mValue := v |}]]> t, true)
  end.

Lemma join_empty n : mjoin (replicate n []) = @nil Bucket.
Proof. by induction n. Qed.

Lemma wf_empty n : wf (replicate n []) (Z.of_nat n).
Proof.
  constructor.
  - by rewrite length_replicate.
  - intros i c b Hi Hb. apply lookup_replicate in Hi as [-> _]. by apply not_elem_of_nil in Hb.
  - rewrite join_empty. constructor.
Qed.

(** Replacing a chain by one with the same home slot keeps the table well formed. *)
Lemma wf_insert (t : table) size i (c c' : list Bucket) :
  wf t size -> t !! i = Some c ->
  (forall b, b ∈ c' -> mHash b = hash (mKey b) /\ index (mHash b) size = i) ->
  NoDup (ckey <$> mjoin (<[i := c']> t)) ->
  wf (<[i := c']> t) size.
Proof.
  intros Hwf Hi Hc' Hnd. constructor; [|intros j d b Hj Hb|done].
  - rewrite length_insert. apply Hwf.
  - destruct (decide (i = j)) as [<-|Hne].
    + rewrite list_lookup_insert_eq in Hj by (by eapply lookup_lt_Some).
      injection Hj as <-. auto.
    + rewrite list_lookup_insert_ne in Hj by done. by eapply wf_home.
Qed.

Lemma append_perm (t : table) i (c : list Bucket) b :
  t !! i = Some c -> mjoin (<[i := c ++ [b]]> t) ≡ₚ b :: mjoin t.
Proof.
  intros Hi. destruct (join_insert t i c (c ++ [b]) Hi) as [-> ->].
  rewrite <- (app_assoc c [b]). simpl. rewrite !(app_assoc (mjoin (take i t)) c).
  symmetry. apply Permutation_middle.
Qed.

Lemma wf_append (t : table) size i (c : list Bucket) b :
  wf t size -> t !! i = Some c -> index (mHash b) size = i -> mHash b = hash (mKey b) ->
  ckey b ∉ ckey <$> mjoin t -> wf (<[i := c ++ [b]]> t) size.
Proof.
  intros Hwf Hi Hb Hh Hni. apply (wf_insert t size i c _ Hwf Hi).
  - intros b' [Hb'|Hb']%elem_of_app; [by eapply wf_home|].
    by apply list_elem_of_singleton in Hb' as ->.
  - rewrite (append_perm t i c b Hi). csimpl. constructor; [done|apply Hwf].
Qed.

Lemma key_in_slot (t : table) size k c :
  wf t size -> t !! index (hash k) size = Some c ->
  canon k ∈ ckey <$> mjoin t <-> canon k ∈ ckey <$> c.
Proof.
  intros Hwf Hi. rewrite !list_elem_of_fmap. split; intros (b & Hk & Hb); exists b; (split; [done|]).
  - apply elem_of_table in Hb as (j & d & Hj & Hb).
    destruct (wf_home t size Hwf j d b Hj Hb) as [Hh <-].
    rewrite Hh, <- (hash_canon k (mKey b) Hk), Hi in Hj. by injection Hj as ->.
  - apply elem_of_table. eauto.
Qed.

(** Another chain in a key's slot changes the map at the key only, when the
    chain changes the answer for that key only. *)
Lemma abs_update (t : table) size k (c c' : list Bucket) :
  (forall k', (index (hash k') size < length t)%nat) -> wf t size ->
  t !! index (hash k) size = Some c -> wf (<[index (hash k) size := c']> t) size ->
  (forall k', canon k' <> canon k -> chain_find (hash k') k' c' = chain_find (hash k') k' c) ->
  abs (<[index (hash k) size := c']> t) = partial_alter (fun _ => chain_find (hash k) k c') (canon k) (abs t).
Proof.
  intros Hidx Hwf Hi Hwf' Hother. apply abs_ext.
  { intros k' Hk'. rewrite lookup_partial_alter_ne; [by apply abs_other|].
    intros <-. apply Hk'. apply canon_idem. }
  assert ((<[index (hash k) size := c']> t) !! index (hash k) size = Some c') as Hi'
    by (apply list_lookup_insert_eq; by eapply lookup_lt_Some).
  intros k'. destruct (decide (canon k' = canon k)) as [->|Hne].
  { rewrite lookup_partial_alter_eq. by rewrite (abs_lookup _ size k c' Hwf' Hi'). }
  rewrite lookup_partial_alter_ne by done. destruct (lookup_lt_is_Some_2 t _ (Hidx k')) as [d Hd].
  destruct (decide (index (hash k) size = index (hash k') size)) as [He|Hs].
  - rewrite He in *. rewrite Hi in Hd. injection Hd as <-.
    rewrite (abs_lookup _ size k' c' Hwf' Hi'), (abs_lookup t size k' c Hwf Hi). auto.
  - rewrite (abs_lookup _ size k' d Hwf') by (by rewrite list_lookup_insert_ne).
    by rewrite (abs_lookup t size k' d).
Qed.

(** Overwriting a value leaves keys and hashes in place. *)
Lemma chain_set_home k v (c c' : list Bucket) b' :
  chain_set k v c = Some c' -> b' ∈ c' -> exists b, b ∈ c /\ mKey b = mKey b' /\ mHash b = mHash b'.
Proof.
  intros Hset Hb. destruct (chain_set_Some k v c c' Hset) as (Hk & Hh & _).
  apply list_elem_of_lookup in Hb as [j Hj].
  assert (Hk' : (mKey <$> c') !! j = (mKey <$> c) !! j) by (by rewrite Hk).
  assert (Hh' : (mHash <$> c') !! j = (mHash <$> c) !! j) by (by rewrite Hh).
  rewrite !list_lookup_fmap, Hj in Hk'. rewrite !list_lookup_fmap, Hj in Hh'.
  destruct (c !! j) as [b|] eqn:Hc; [|done]. exists b. simpl in *.
  split_and!; [by eapply list_elem_of_lookup_2|congruence..].
Qed.

Lemma chain_hashes (t : table) size k c : wf t size -> t !! index (hash k) size = Some c ->
  forall b, b ∈ c -> ckey b = canon k -> mHash b = hash k.
Proof.
  intros Hwf Hi b Hb Hk. destruct (wf_home t size Hwf _ c b Hi Hb) as [-> _]. by apply hash_canon.
Qed.

Lemma wf_set (t : table) size k v (c c' : list Bucket) :
  wf t size -> t !! index (hash k) size = Some c -> chain_set k v c = Some c' ->
  wf (<[index (hash k) size := c']> t) size.
Proof.
  intros Hwf Hi Hset. apply (wf_insert t size _ c); [done|done| |].
  - intros b' Hb'. destruct (chain_set_home k v c c' b' Hset Hb') as (b & Hb & <- & <-). by eapply wf_home.
  - destruct (join_insert t _ c c' Hi) as [-> Hj]. pose proof (wf_nodup t size Hwf) as Hnd.
    destruct (chain_set_Some k v c c' Hset) as (Hk & _ & _).
    assert (ckey <$> c' = ckey <$> c) as Hk'.
    { change (canon ∘ mKey <$> c' = canon ∘ mKey <$> c). by rewrite !list_fmap_compose, Hk. }
    rewrite Hj in Hnd. rewrite !fmap_app in *. by rewrite Hk'.
Qed.

(** The table is updated like the map it stands for. *)
Lemma table_put_spec (t : table) size k v :
  (forall k', (index (hash k') size < length t)%nat) -> wf t size ->
  exists t' new, table_put t size k v = Some (t', new) /\ wf t' size /\
    abs t' = <[canon k := v]> (abs t) /\ new = bool_decide (abs t !! canon k = None) /\
    length t' = length t.
Proof.
  intros Hidx Hwf. unfold table_put.
  destruct (lookup_lt_is_Some_2 t _ (Hidx k)) as [c Hi]. rewrite Hi. cbn.
  rewrite (abs_lookup t size k c Hwf Hi).
  pose proof (wf_chain_nodup t size _ c Hwf Hi) as Hcnd.
  pose proof (chain_hashes t size k c Hwf Hi) as Hch.
  destruct (chain_set k v c) as [c'|] eqn:Hset.
  - pose proof (wf_set t size k v c c' Hwf Hi Hset) as Hwf'.
    destruct (chain_set_find (hash k) k v k c c' Hcnd Hch Hset) as [Hf _].
    destruct (chain_set_Some k v c c' Hset) as (_ & _ & Hin).
    eexists _, false. split_and!; [done|done| | |by rewrite length_insert].
    + rewrite (abs_update t size k c c') by (try done;
        intros k' Hk'; by eapply (chain_set_find (hash k) k v k' c c' Hcnd Hch Hset)). by rewrite Hf.
    + symmetry. apply bool_decide_eq_false. intros Hn. apply list_elem_of_fmap in Hin as (b & Hk & Hb).
      by rewrite (chain_find_elem (hash k) c b Hb (Hch b Hb (eq_sym Hk)) Hcnd k (eq_sym Hk)) in Hn.
  - apply chain_set_None in Hset as Hni. set (b := {| mHash := hash k; mKey := k; mValue := v |}).
    assert (Hwf' : wf (<[index (hash k) size := c ++ [b]]> t) size).
    { apply wf_append; [done..|]. unfold ckey at 1. simpl. by rewrite key_in_slot. }
    eexists _, true. split_and!; [done|done| | |by rewrite length_insert].
    + rewrite (abs_update t size k c (c ++ [b])); [|done..|].
      * rewrite chain_find_app, chain_find_None by done. simpl.
        by rewrite Z.eqb_refl, (proj2 (keq_spec k k)) by done.
      * intros k' Hne. rewrite chain_find_app. destruct (chain_find _ k' c); [done|]. simpl.
        destruct (keq k k') eqn:E; [apply keq_spec in E; congruence|by rewrite andb_false_r].
    + symmetry. apply bool_decide_eq_true. by apply chain_find_None.
Qed.

Lemma chain_remove_sublist h k (c : list Bucket) : chain_remove h k c `sublist_of` c.
Proof.
  induction c as [|b c IH]; simpl; [done|].
  destruct ((mHash b =? h) && keq (mKey b) k); [by constructor|by constructor].
Qed.

Lemma chain_remove_find h k (c : list Bucket) :
  NoDup (ckey <$> c) -> (forall b, b ∈ c -> ckey b = canon k -> mHash b = h) ->
  chain_find h k (chain_remove h k c) = None /\
  forall h' k', canon k' <> canon k -> chain_find h' k' (chain_remove h k c) = chain_find h' k' c.
Proof.
  intros Hnd Hh. induction c as [|b c IH]; [done|].
  apply NoDup_cons in Hnd as [Hni Hnd]. simpl.
  destruct (keq (mKey b) k) eqn:E.
  - apply keq_spec in E as Ek. rewrite (Hh b (list_elem_of_here _ _) Ek), Z.eqb_refl. simpl. split.
    + apply chain_find_None. by rewrite <- Ek.
    + intros h' k' Hne. destruct (keq (mKey b) k') eqn:E'; [|by rewrite andb_false_r].
      apply keq_spec in E'. congruence.
  - rewrite andb_false_r. simpl. rewrite E, andb_false_r.
    destruct IH as [IH1 IH2]; [done|intros b' Hb'; apply Hh; by constructor|]. split; [done|].
    intros h' k' Hne. by rewrite IH2.
Qed.

(** Unlinking a bucket deletes its key from the map. *)
Lemma table_remove_spec (t : table) size k c :
  (forall k', (index (hash k') size < length t)%nat) -> wf t size -> t !! index (hash k) size = Some c ->
  let t' := <[index (hash k) size := chain_remove (hash k) k c]> t in
  wf t' size /\ abs t' = delete (canon k) (abs t).
Proof.
  intros Hidx Hwf Hi t'.
  pose proof (chain_remove_sublist (hash k) k c) as Hsub.
  assert (Hwf' : wf t' size).
  { apply (wf_insert t size _ c); [done..| |].
    - intros b Hb. eapply wf_home; [done..|]. by eapply elem_of_sublist.
    - destruct (join_insert t _ c (chain_remove (hash k) k c) Hi) as [-> Hj].
      pose proof (wf_nodup t size Hwf) as Hnd. rewrite Hj in Hnd.
      eapply sublist_NoDup; [exact Hnd|]. rewrite !fmap_app.
      apply sublist_app; [done|apply sublist_app; [|done]]. by apply fmap_sublist. }
  split; [done|].
  destruct (chain_remove_find (hash k) k c) as [Hk Hother].
  { exact (wf_chain_nodup t size _ c Hwf Hi). }
  { exact (chain_hashes t size k c Hwf Hi). }
  unfold t'. rewrite (abs_update t size k c) by auto. by rewrite Hk.
Qed.

(** Moving buckets into another table keeps every entry. *)
Lemma put_buckets_spec (t : table) size bs :
  wf t size ->
  (forall b, b ∈ bs -> mHash b = hash (mKey b) /\ (index (mHash b) size < length t)%nat) ->
  NoDup (ckey <$> mjoin t ++ bs) ->
  exists t', put_buckets t size bs = Some t' /\ wf t' size /\ mjoin t' ≡ₚ mjoin t ++ bs /\
    length t' = length t.
Proof.
  revert t. induction bs as [|b bs IH]; intros t Hwf Hbs Hnd.
  { exists t. by rewrite app_nil_r. }
  destruct (Hbs b (list_elem_of_here _ _)) as [Hh Hidx]. simpl. unfold put_bucket.
  destruct (lookup_lt_is_Some_2 t _ Hidx) as [c Hi]. rewrite Hi. cbn.
  pose proof (append_perm t _ c b Hi) as Hperm.
  assert (Hni : ckey b ∉ ckey <$> mjoin t).
  { rewrite fmap_app in Hnd. apply NoDup_app in Hnd as (_ & Hd & _). intros Hin.
    apply (Hd _ Hin). csimpl. constructor. }
  destruct (IH (<[index (mHash b) size := c ++ [b]]> t)) as (t' & Ht' & Hwf' & Hp & Hl).
  - by apply wf_append.
  - intros b' Hb'. rewrite length_insert. apply Hbs. by constructor.
  - by rewrite Hperm, <- app_comm_cons, Permutation_middle.
  - exists t'. split_and!; [done|done| |by rewrite Hl, length_insert].
    by rewrite Hp, Hperm, <- app_comm_cons, Permutation_middle.
Qed.

(** Equal entries in any order are the same map. *)
Lemma abs_perm (t t' : table) size size' :
  wf t size -> wf t' size' -> mjoin t ≡ₚ mjoin t' -> abs t = abs t'.
Proof.
  intros Hwf Hwf' Hp. unfold abs. apply list_to_map_proper; [|by rewrite Hp].
  rewrite <- list_fmap_compose. apply Hwf.
Qed.

(** [Rehash] moves every bucket, slot by slot, into an empty table. *)
Lemma rehash_spec (t : table) size n :
  wf t size -> (forall k, (index (hash k) (Z.of_nat n) < n)%nat) ->
  exists t', put_buckets (replicate n []) (Z.of_nat n) (mjoin t) = Some t' /\
    wf t' (Z.of_nat n) /\ abs t' = abs t /\ length t' = n.
Proof.
  intros Hwf Hidx.
  destruct (put_buckets_spec (replicate n []) (Z.of_nat n) (mjoin t)) as (t' & Ht' & Hwf' & Hp & Hl).
  - apply wf_empty.
  - intros b Hb. apply elem_of_table in Hb as (i & c & Hi & Hb).
    destruct (wf_home t size Hwf i c b Hi Hb) as [Hh _]. by rewrite length_replicate, Hh.
  - rewrite join_empty. apply Hwf.
  - exists t'. rewrite length_replicate in Hl. rewrite join_empty in Hp. simpl in Hp.
    split_and!; auto. symmetry. by eapply abs_perm.
Qed.

End Chains.

Arguments Bucket : clear implicits.

(** ** The contract of a dictionary

    What [Put] and [Get] promise to a client; the client's proofs use the
    class only.  [dict_key] delimits the keys the container accepts,
    [dict_canon] says which it does not tell apart, and [dict_count] counts the
    entries it made: [Put] needs an [int] for one more. *)
Class Dict (M K V : Type) `{Countable K} := {
  dict_inv : M -> Prop;
  dict_map : M -> gmap K V;
  dict_key : K -> Prop;
  dict_canon : K -> K;
  dict_count : M -> Z;
  dict_none : V;                         (* what [Get] answers for no entry *)
  dict_put : K -> V -> M -> option M;
  dict_get : K -> M -> option V;
  dict_has : K -> M -> option bool;
  dict_put_ok : forall m k v, dict_inv m -> dict_key k -> dict_count m <= ENTRY_LIMIT ->
    exists m', dict_put k v m = Some m' /\ dict_inv m' /\
      dict_map m' = <[dict_canon k := v]> (dict_map m) /\ dict_count m' <= dict_count m + 1;
  dict_get_ok : forall m k, dict_inv m -> dict_key k ->
    dict_get k m = Some (default dict_none (dict_map m !! dict_canon k));
  dict_has_ok : forall m k, dict_inv m -> dict_key k ->
    dict_has k m = Some (bool_decide (is_Some (dict_map m !! dict_canon k)))
}.

(** A client that puts a sequence of pairs. *)
Section Client.
Context {M K V : Type} `{D : Dict M K V}.

Fixpoint dict_put_all (kvs : list (K * V)) (m : M) : option M :=
  match kvs with
  | [] => Some m
  | (k, v) :: kvs => m ← dict_put k v m; dict_put_all kvs m
  end.

Definition put_pairs (kvs : list (K * V)) (g : gmap K V) : gmap K V :=
  fold_left (fun g kv => <[dict_canon kv.1 := kv.2]> g) kvs g.

Lemma dict_put_all_ok kvs m :
  dict_inv m -> Forall (fun kv => dict_key kv.1) kvs ->
  dict_count m + Z.of_nat (length kvs) <= ENTRY_LIMIT + 1 ->
  exists m', dict_put_all kvs m = Some m' /\ dict_inv m' /\ dict_map m' = put_pairs kvs (dict_map m).
Proof.
  revert m. induction kvs as [|[k v] kvs IH]; intros m Hinv Hk Hl; [by exists m|].
  apply Forall_cons in Hk as [Hk Hks]. cbn [length] in Hl.
  destruct (dict_put_ok m k v Hinv Hk ltac:(lia)) as (m1 & H1 & Hinv1 & Hm1 & Hc).
  cbn [dict_put_all]. rewrite H1. cbn [mbind option_bind].
  destruct (IH m1 Hinv1 Hks ltac:(lia)) as (m' & Hm' & Hinv' & Heq). exists m'.
  by rewrite Heq, Hm1.
Qed.

End Client.
