(* ===== verification/StringMap.v ===== *)
(** * The compiler's string-keyed hash map

    [src/src/ccdl/util/StringMap.h]: the map behind the keyword table, the
    string pool and the symbol tables of the compiler.  [T(0)] is the answer of
    [Get] for a key without entry.  The hash and the comparison of keys see the
    bytes before the first NUL, and the comparison the length: [canon] is the
    string with all that follows its first NUL blanked, and the map is one from
    these.  [None] is undefined behaviour: an access outside the bucket array,
    reachable only after [calloc] failed in [Rehash], which leaves the size
    field ahead of the array, and an overflow of the size or of the count. *)
From S2P Require Import Prelude.
From S2P Require Import Buckets.

Module StringMap.
Section Map.
Context {A : Allocator} {V : Type}.
Variable T0 : V.

Abbreviation Key := (list Z).   (* the characters of a non-null [String] *)

Record t := {
  mThreshold : Z;
  mDataSize : Z;
  mBucketSize : Z;
  mBuckets : list (list (Bucket Key V));
  mKeyValues : list (Key * V);
  mInvalidate : bool
}.

Definition get_lower_bound (n : Z) : option Z :=
  if n <? 5 then Some 5 else if n >? 6151 then Some 6151 else closest_prime prime_list n.

Definition get_next_prime (n : Z) : option Z := get_lower_bound n.

Definition make (size : Z) : option t :=
  mBucketSize ← get_next_prime size;
  Some {| mThreshold := threshold mBucketSize; mDataSize := 0; mBucketSize := mBucketSize;
          mBuckets := if alloc_ok (8 * mBucketSize) then replicate (Z.to_nat mBucketSize) [] else [];
          mKeyValues := []; mInvalidate := true |}.

(** [String::Equals] of two non-null strings. *)
Definition Equals (a b : Key) : bool :=
  (Z.of_nat (length a) =? Z.of_nat (length b)) && (strcmp (c_str a) (c_str b) =? 0).

Definition HashString (key : Key) : Z :=
  Z.land (fold_left (fun hash c => u32 (hash * 31 + c)) (c_str key) 0) 0x7FFFFFFF.

(** [hash % mBucketSize] as an array index; a negative one is outside. *)
Definition index (h size : Z) : nat :=
  let i := Z.rem h size in if i <? 0 then Z.to_nat size else Z.to_nat i.

(** The buckets of the slots [0 .. n - 1] in the order a loop visits them. *)
Definition all_buckets (tbl : list (list (Bucket Key V))) (n : Z) : option (list (Bucket Key V)) :=
  if Z.of_nat (length tbl) <? n then None else Some (mjoin (take (Z.to_nat n) tbl)).

Definition PutBucket := @put_bucket Key V index.

Definition Rehash (m : t) : option t :=
  if mBucketSize m =? MAX_BUCKET_SIZE then Some m
  else
    n ← next_size (mBucketSize m);
    if negb (alloc_ok (8 * n)) then
      Some {| mThreshold := mThreshold m; mDataSize := mDataSize m; mBucketSize := n;
              mBuckets := mBuckets m; mKeyValues := mKeyValues m; mInvalidate := mInvalidate m |}
    else
      old ← all_buckets (mBuckets m) (mBucketSize m);
      tbl ← put_buckets index (replicate (Z.to_nat n) []) n old;
      Some {| mThreshold := threshold n; mDataSize := mDataSize m; mBucketSize := n;
              mBuckets := tbl; mKeyValues := mKeyValues m; mInvalidate := mInvalidate m |}.

Definition Put (key : option Key) (value : V) (m : t) : option t :=
  match key with
  | None => Some m
  | Some key =>
    m ← (if mDataSize m >=? mThreshold m then Rehash m else Some m);
    '(tbl, new) ← table_put Equals HashString index (mBuckets m) (mBucketSize m) key value;
    size ← (if new : bool then int_of (mDataSize m + 1) else Some (mDataSize m));
    Some {| mThreshold := mThreshold m; mDataSize := size;
            mBucketSize := mBucketSize m; mBuckets := tbl;
            mKeyValues := mKeyValues m; mInvalidate := true |}
  end.

Definition find (key : Key) (m : t) : option (option V) :=
  let h := HashString key in
  c ← mBuckets m !! index h (mBucketSize m);
  Some (chain_find Equals h key c).

Definition ContainsKey (key : option Key) (m : t) : option bool :=
  match key with
  | None => Some false
  | Some key => r ← find key m; Some (match r with Some _ => true | None => false end)
  end.

Definition Get (key : option Key) (m : t) : option V :=
  match key with
  | None => Some T0
  | Some key => r ← find key m; Some (default T0 r)
  end.

Definition GetSize (m : t) : Z := mDataSize m.

Definition GetKeyValues (m : t) : option (list (Key * V) * t) :=
  if negb (mInvalidate m) then Some (mKeyValues m, m)
  else
    bs ← all_buckets (mBuckets m) (mBucketSize m);
    let kvs := (fun b => (mKey b, mValue b)) <$> bs in
    Some (kvs, {| mThreshold := mThreshold m; mDataSize := mDataSize m;
                  mBucketSize := mBucketSize m; mBuckets := mBuckets m;
                  mKeyValues := kvs; mInvalidate := false |}).

(** Deletes the buckets and nothing else: size and pair cache stay. *)
Definition Clear (m : t) : t :=
  {| mThreshold := mThreshold m; mDataSize := mDataSize m; mBucketSize := mBucketSize m;
     mBuckets := (fun _ => []) <$> mBuckets m;
     mKeyValues := mKeyValues m; mInvalidate := mInvalidate m |}.

(** ** Keys as the comparison sees them *)

Definition canon (s : Key) : Key := c_str s ++ replicate (length s - length (c_str s)) 0.

Lemma canon_c_str s : c_str (canon s) = c_str s.
Proof.
  unfold canon. destruct (length s - length (c_str s))%nat as [|n].
  - rewrite app_nil_r. apply c_str_no_nul, c_str_Forall.
  - apply c_str_app_nul, c_str_Forall.
Qed.

Lemma canon_length s : length (canon s) = length s.
Proof. unfold canon. pose proof (c_str_length s). rewrite length_app, length_replicate. lia. Qed.

Lemma canon_eq a b : canon a = canon b <-> length a = length b /\ c_str a = c_str b.
Proof.
  split.
  - intros Heq. by rewrite <- (canon_length a), <- (canon_length b), <- (canon_c_str a), <- (canon_c_str b), Heq.
  - intros [Hl Hc]. unfold canon. by rewrite Hl, Hc.
Qed.

(** A string without NUL stands for itself. *)
Lemma canon_text s : Forall (fun c => c <> 0) s -> canon s = s.
Proof. intros Hs. unfold canon. by rewrite c_str_no_nul, Nat.sub_diag, app_nil_r. Qed.

Lemma canon_idem s : canon (canon s) = canon s.
Proof. apply canon_eq. by rewrite canon_length, canon_c_str. Qed.

Lemma Equals_spec a b : Equals a b = true <-> canon a = canon b.
Proof. unfold Equals. rewrite andb_true_iff, !Z.eqb_eq, strcmp_0, canon_eq, Nat2Z.inj_iff. done. Qed.

Lemma HashString_canon a b : canon a = canon b -> HashString a = HashString b.
Proof. rewrite canon_eq. unfold HashString. by intros [_ ->]. Qed.

Lemma HashString_nonneg k : 0 <= HashString k.
Proof. unfold HashString. apply Z.land_nonneg. right. lia. Qed.

(** ** Refinement of a finite map *)

Definition entries (m : t) : gmap Key V := abs canon (mBuckets m).

Definition inv (m : t) : Prop :=
  wf HashString index canon (mBuckets m) (mBucketSize m) /\ mBucketSize m ∈ sizes /\
  mThreshold m = threshold (mBucketSize m) /\ mDataSize m = Z.of_nat (size (entries m)).

Lemma index_lt h n : 0 <= h -> 0 < n -> (index h n < Z.to_nat n)%nat.
Proof.
  intros Hh Hn. unfold index. rewrite Z.rem_mod_nonneg by lia.
  pose proof (Z.mod_pos_bound h n Hn). destruct (Z.ltb_spec (h mod n) 0); lia.
Qed.

Lemma get_next_prime_size n p : get_next_prime n = Some p -> p ∈ sizes.
Proof.
  unfold get_next_prime, get_lower_bound. intros Hp. apply prime_size. revert Hp.
  destruct (n <? 5); [intros [= <-]; unfold prime_list; set_solver|].
  destruct (n >? 6151); [intros [= <-]; unfold prime_list; set_solver|]. apply closest_prime_in.
Qed.

Lemma make_inv n m : never_fails A -> make n = Some m -> inv m /\ entries m = ∅.
Proof.
  intros Hok. unfold make. destruct (get_next_prime n) as [p|] eqn:Hp; [|done].
  cbn -[replicate]. rewrite Hok. intros [= <-]. unfold inv, entries; cbn [mBuckets mBucketSize mDataSize mThreshold].
  apply get_next_prime_size in Hp. pose proof (size_pos p Hp).
  assert (abs (K := Key) (V := V) canon (replicate (Z.to_nat p) []) = ∅) as Habs
    by (unfold abs; by rewrite join_empty).
  rewrite Habs, map_size_empty. split_and!; [|done..].
  rewrite <- (Z2Nat.id p) at 2 by lia. apply wf_empty.
Qed.

(** Every slot of a key is in the array. *)
Lemma slots m : inv m -> forall k, (index (HashString k) (mBucketSize m) < length (mBuckets m))%nat.
Proof.
  intros ([Hl _ _] & Hs & _) k. apply size_pos in Hs.
  pose proof (index_lt (HashString k) _ (HashString_nonneg k) Hs). lia.
Qed.

Lemma all_buckets_all m : inv m -> all_buckets (mBuckets m) (mBucketSize m) = Some (mjoin (mBuckets m)).
Proof.
  intros ([Hl _ _] & _). unfold all_buckets. rewrite Hl.
  destruct (Z.ltb_spec (mBucketSize m) (mBucketSize m)); [lia|].
  rewrite take_ge by lia. done.
Qed.

(** [Rehash] changes the slots, never the map. *)
Lemma Rehash_spec m :
  never_fails A -> inv m -> mThreshold m <= mDataSize m <= ENTRY_LIMIT ->
  exists m', Rehash m = Some m' /\ inv m' /\ entries m' = entries m.
Proof.
  intros Hok Hinv Hc. unfold Rehash. destruct (Z.eqb_spec (mBucketSize m) MAX_BUCKET_SIZE) as [|_]; [by exists m|].
  pose proof Hinv as (Hwf & Hs & Ht & Hd). rewrite Ht in Hc.
  destruct (next_size_spec _ _ Hs Hc) as (n & -> & Hn & Hpos). cbn [mbind option_bind].
  rewrite Hok, all_buckets_all by done. cbn -[replicate].
  destruct (rehash_spec HashString index canon (mBuckets m) (mBucketSize m) (Z.to_nat n))
    as (tbl & Htbl & Hwf' & Habs & Hlen); [done| |].
  - intros k. rewrite Z2Nat.id by lia. apply index_lt; [apply HashString_nonneg|lia].
  - rewrite Z2Nat.id in Htbl, Hwf' by lia. rewrite Htbl. simpl. eexists. split; [done|].
    unfold inv, entries in *; simpl. rewrite Habs. done.
Qed.

Lemma find_spec m k : inv m -> find k m = Some (entries m !! canon k).
Proof.
  intros Hinv. unfold find.
  destruct (lookup_lt_is_Some_2 (mBuckets m) _ (slots m Hinv k)) as [c Hc]. rewrite Hc. simpl. f_equal. symmetry.
  apply (abs_lookup Equals HashString index canon Equals_spec HashString_canon _ (mBucketSize m)); [apply Hinv|done].
Qed.

Lemma Put_spec m k v :
  never_fails A -> inv m -> mDataSize m <= ENTRY_LIMIT ->
  exists m', Put (Some k) v m = Some m' /\ inv m' /\ entries m' = <[canon k := v]> (entries m) /\
    mDataSize m' <= mDataSize m + 1.
Proof.
  intros Hok Hinv Hc. unfold Put.
  assert (exists m1, (if mDataSize m >=? mThreshold m then Rehash m else Some m) = Some m1 /\
            inv m1 /\ entries m1 = entries m) as (m1 & -> & Hinv1 & Habs).
  { rewrite Z.geb_leb. destruct (Z.leb_spec (mThreshold m) (mDataSize m)); [by apply Rehash_spec|by exists m]. }
  cbn [mbind option_bind]. pose proof (slots m1 Hinv1) as Hslots.
  destruct Hinv as (_ & _ & _ & Hd). destruct Hinv1 as (Hwf & Hs & Ht & Hd1). rewrite Habs, <- Hd in Hd1.
  destruct (table_put_spec Equals HashString index canon Equals_spec canon_idem HashString_canon
              (mBuckets m1) (mBucketSize m1) k v Hslots Hwf) as (tbl & new & -> & Hwf' & Hput & Hnew & _).
  cbn [mbind option_bind]. fold (entries m1) in Hput, Hnew. rewrite Habs in Hput, Hnew. rewrite Hd1.
  set (s := if new then mDataSize m + 1 else mDataSize m).
  assert ((if new then int_of (mDataSize m + 1) else Some (mDataSize m)) = Some s) as ->.
  { unfold s. destruct new; [|done]. apply int_of_fits. unfold fits_s, ENTRY_LIMIT in *. cbn. lia. }
  cbn [mbind option_bind]. eexists. split; [done|]. unfold inv. change (entries {| mThreshold := mThreshold m1; mDataSize := s; mBucketSize := mBucketSize m1; mBuckets := tbl;
    mKeyValues := mKeyValues m1; mInvalidate := true |}) with (abs canon tbl).
  cbn [mBuckets mBucketSize mThreshold mDataSize]. rewrite Hput. split_and!; [done|done|done| |done|unfold s; destruct new; lia].
  unfold s. rewrite Hnew, Hd. case_bool_decide as Hn.
  - rewrite map_size_insert_None by done. lia.
  - rewrite map_size_insert. destruct (entries m !! canon k); [done|]. done.
Qed.

End Map.
Arguments t V : clear implicits.

(** The map meets the dictionary contract for every non-null key. *)
#[export] Instance StringMap_Dict (A : Allocator) (V : Type) (T0 : V) : Dict (t V) (list Z) V.
Proof.
  refine {|
    dict_inv := fun m : t V => inv m /\ never_fails A;
    dict_map := entries;
    dict_key := fun _ => True;
    dict_canon := canon;
    dict_count := mDataSize;
    dict_none := T0;
    dict_put := fun k v m => Put (Some k) v m;
    dict_get := fun k m => Get T0 (Some k) m;
    dict_has := fun k m => ContainsKey (Some k) m |}.
  - intros m k v [Hinv Hok] _ Hc. destruct (Put_spec m k v Hok Hinv Hc) as (m' & ? & ? & ? & ?). by exists m'.
  - intros m k [Hinv _] _. unfold Get. by rewrite (find_spec m k Hinv).
  - intros m k [Hinv _] _. unfold ContainsKey. rewrite (find_spec m k Hinv). simpl. f_equal.
    destruct (entries m !! canon k); symmetry;
      [apply bool_decide_eq_true; eauto|apply bool_decide_eq_false; intros [? ?]; done].
Defined.

(** [Put] of a sequence of pairs. *)
Fixpoint put_all {A : Allocator} {V} (kvs : list (list Z * V)) (m : t V) : option (t V) :=
  match kvs with
  | [] => Some m
  | (k, v) :: kvs => m ← Put (Some k) v m; put_all kvs m
  end.

(** The last value put under each key, keys taken as the comparison sees them. *)
Definition last_values {V} (kvs : list (list Z * V)) (g : gmap (list Z) V) : gmap (list Z) V :=
  fold_left (fun g kv => <[canon kv.1 := kv.2]> g) kvs g.

Lemma put_all_inv {A : Allocator} {V} (T0 : V) (kvs : list (list Z * V)) m :
  never_fails A -> inv m -> mDataSize m + Z.of_nat (length kvs) <= ENTRY_LIMIT + 1 ->
  exists m', put_all kvs m = Some m' /\ inv m' /\ entries m' = last_values kvs (entries m).
Proof.
  intros Hok Hinv Hl.
  destruct (dict_put_all_ok (D := StringMap_Dict A V T0) kvs m (conj Hinv Hok)) as (m' & Hm' & [Hinv' _] & Heq).
  - apply Forall_true. done.
  - exact Hl.
  - exists m'. split_and!; [|done|done]. rewrite <- Hm'. clear. revert m.
    induction kvs as [|[k v] kvs IH]; intros m; [done|]. cbn [put_all dict_put_all dict_put StringMap_Dict].
    destruct (Put (Some k) v m); [apply IH|done].
Qed.

(** C32: through all its rehashes a fresh map answers every lookup, of any non-null
    key, with the last value put under a key of the same length with the same
    bytes before its first NUL, and counts the keys that differ in these; for
    keys without NUL that is the key itself ([canon_text]). At most
    1,200,000,001 entries are put, so that count and size stay in [int]. *)
Theorem StringMap_refines_map {A : Allocator} {V} (T0 : V) n m kvs :
  never_fails A -> make n = Some m -> Z.of_nat (length kvs) <= ENTRY_LIMIT + 1 ->
  let final := last_values kvs ∅ in
  exists m', put_all kvs m = Some m' /\
    (forall k, Get T0 (Some k) m' = Some (default T0 (final !! canon k))) /\
    (forall k, ContainsKey (Some k) m' = Some (bool_decide (is_Some (final !! canon k)))) /\
    GetSize m' = Z.of_nat (size final).
Proof.
  intros Hok Hmake Hl final. destruct (make_inv n m Hok Hmake) as [Hinv Habs].
  assert (mDataSize m = 0) as H0.
  { destruct Hinv as (_ & _ & _ & ->). by rewrite Habs, map_size_empty. }
  destruct (put_all_inv T0 kvs m Hok Hinv) as (m' & Hm' & Hinv' & Habs'); [lia|].
  rewrite Habs in Habs'. fold final in Habs'.
  exists m'. split_and!; [done| | |].
  - intros k. rewrite <- Habs'.
    exact (dict_get_ok (Dict := StringMap_Dict A V T0) m' k (conj Hinv' Hok) I).
  - intros k. rewrite <- Habs'.
    exact (dict_has_ok (Dict := StringMap_Dict A V T0) m' k (conj Hinv' Hok) I).
  - destruct Hinv' as (_ & _ & _ & Hs). unfold GetSize. by rewrite Hs, Habs'.
Qed.

Lemma StringMap_refines_map_witness :
  exists m m', make (A := generous) (V := Z) 50 = Some m /\
    put_all (A := generous) [(str "a", 1); (str "b", 2); (str "a", 3); ([98; 0; 99], 4); ([98; 0; 100], 5)] m = Some m' /\
    GetSize m' = 3 /\ Get 0 (Some [98; 0; 0]) m' = Some 5.
Proof.
  destruct (make (A := generous) (V := Z) 50) as [m|] eqn:Hm; [|discriminate].
  destruct (StringMap_refines_map (A := generous) 0 50 m
    [(str "a", 1); (str "b", 2); (str "a", 3); ([98; 0; 99], 4); ([98; 0; 100], 5)]
    generous_never_fails Hm ltac:(discriminate)) as (m' & Hput & Hget & _ & Hsize).
  exists m, m'. split; [reflexivity|]. split; [exact Hput|]. rewrite Hsize, (Hget [98; 0; 0]).
  split; vm_compute; reflexivity.
Defined.

End StringMap.
