(* ===== verification/CNum.v ===== *)
(** * Numbers in the C library: [strtoll] and [atof]

    The conversions the compiler applies to number tokens, from the C standard;
    [float] and [double] are IEEE 754 binary32 and binary64 numbers as
    [spec_float], rounded to nearest even. *)
From S2P Require Import Prelude.
From Stdlib Require Export SpecFloat.

Definition is_digit (c : Z) : bool := (ch "0" <=? c) && (c <=? ch "9").

(** [isspace] in the C locale. *)
Definition is_space (c : Z) : bool := (c =? ch " ") || ((9 <=? c) && (c <=? 13)).

(** The value of a digit in any base up to 36. *)
Definition digit_value (c : Z) : option Z :=
  if is_digit c then Some (c - ch "0")
  else if (ch "a" <=? c) && (c <=? ch "z") then Some (c - ch "a" + 10)
  else if (ch "A" <=? c) && (c <=? ch "Z") then Some (c - ch "A" + 10)
  else None.

Definition digit_in (base c : Z) : option Z :=
  match digit_value c with Some d => if d <? base then Some d else None | None => None end.

Fixpoint skip_spaces (l : list Z) : list Z :=
  match l with c :: l' => if is_space c then skip_spaces l' else l | [] => [] end.

Definition split_sign (l : list Z) : bool * list Z :=
  match l with
  | c :: l' => if c =? ch "-" then (true, l') else if c =? ch "+" then (false, l') else (false, l)
  | [] => (false, [])
  end.

Definition has_0x (l : list Z) : bool :=
  match l with
  | c0 :: c1 :: _ => (c0 =? ch "0") && ((c1 =? ch "x") || (c1 =? ch "X"))
  | _ => false
  end.

(** The number the longest prefix of digits denotes. *)
Fixpoint digits_value (base acc : Z) (l : list Z) : Z :=
  match l with
  | c :: l => match digit_in base c with
              | Some d => digits_value base (acc * base + d) l
              | None => acc
              end
  | [] => acc
  end.

Definition LLONG_MAX : Z := 9223372036854775807.
Definition LLONG_MIN : Z := -9223372036854775808.

(** [strtoll(s, nullptr, base)]: saturates. *)
Definition strtoll (s : list Z) (base : Z) : Z :=
  let '(neg, l) := split_sign (skip_spaces s) in
  let l := if (base =? 16) && has_0x l then drop 2 l else l in
  let v := digits_value base 0 l in
  Z.max LLONG_MIN (Z.min LLONG_MAX (if neg then - v else v)).

(** ** Floating point *)

Abbreviation double := spec_float.

Definition f64_prec : Z := 53.
Definition f64_emax : Z := 1024.

(** [m * 10 ^ e] for [m > 0], correctly rounded. *)
Definition scale10 (neg : bool) (m : positive) (e : Z) : double :=
  if 0 <=? e then binary_normalize f64_prec f64_emax ((if neg then -1 else 1) * (Zpos m * 10 ^ e)) 0 neg
  else
    let '(q, e', loc) := SFdiv_core_binary f64_prec f64_emax (Zpos m) 0 (10 ^ (- e)) 0 in
    binary_round_aux f64_prec f64_emax neg q e' loc.

(** Digits with at most one point: mantissa, digits after the point, rest. *)
Fixpoint mantissa (base acc frac : Z) (point : bool) (l : list Z) : Z * Z * list Z :=
  match l with
  | c :: l' =>
    match digit_in base c with
    | Some d => mantissa base (acc * base + d) (if point then frac + 1 else frac) point l'
    | None => if (c =? ch ".") && negb point then mantissa base acc frac true l' else (acc, frac, l)
    end
  | [] => (acc, frac, [])
  end.

(** The decimal exponent [e[+-]digits], 0 unless it has a digit. *)
Definition exponent (l : list Z) : Z :=
  match l with
  | c :: l =>
    if (c =? ch "e") || (c =? ch "E") then
      let '(neg, l) := split_sign l in
      let v := digits_value 10 0 l in if neg then - v else v
    else 0
  | [] => 0
  end.

Definition atof (s : list Z) : double :=
  let '(neg, l) := split_sign (skip_spaces s) in
  if has_0x l then
    let '(m, frac, _) := mantissa 16 0 0 false (drop 2 l) in
    binary_normalize f64_prec f64_emax ((if neg then -1 else 1) * m) (- (4 * frac)) neg
  else
    let '(m, frac, rest) := mantissa 10 0 0 false l in
    match m with
    | Zpos p => scale10 neg p (exponent rest - frac)
    | _ => S754_zero neg
    end.

Example atof_half : atof (str "0.5") = S754_finite false 4503599627370496 (-53).
Proof. vm_compute. reflexivity. Qed.

Example atof_sci : atof (str "1.5e+3") = binary_normalize 53 1024 1500 0 false.
Proof. vm_compute. reflexivity. Qed.

(** ** Decimal digits *)

(** The decimal spelling of [n], most significant digit first. *)
Fixpoint decimal_rev (fuel : nat) (n : Z) : list Z :=
  match fuel with
  | O => []
  | S fuel => if n <? 10 then [ch "0" + n] else ch "0" + n mod 10 :: decimal_rev fuel (n / 10)
  end.

Definition decimal (n : Z) : list Z := rev (decimal_rev (S (Z.to_nat (Z.log2_up n))) n).

Lemma digit_in_decimal d : 0 <= d < 10 -> digit_in 10 (ch "0" + d) = Some d.
Proof.
  intros Hd. unfold digit_in, digit_value, is_digit. change (ch "0") with 48. change (ch "9") with 57.
  destruct (Z.leb_spec 48 (48 + d)), (Z.leb_spec (48 + d) 57); try lia. simpl.
  replace (48 + d - 48) with d by lia. destruct (Z.ltb_spec d 10); [done|lia].
Qed.

Lemma digits_value_app base acc l l' :
  (forall c, c ∈ l -> is_Some (digit_in base c)) ->
  digits_value base acc (l ++ l') = digits_value base (digits_value base acc l) l'.
Proof.
  revert acc. induction l as [|c l IH]; intros acc Hl; [done|]. simpl.
  destruct (Hl c (list_elem_of_here _ _)) as [d ->]. apply IH. intros c' Hc'. apply Hl. by constructor.
Qed.

Lemma decimal_rev_spec fuel n :
  0 <= n -> n < 2 ^ Z.of_nat fuel ->
  Forall (fun c => 48 <= c <= 57) (decimal_rev fuel n) /\
  digits_value 10 0 (rev (decimal_rev fuel n)) = n /\ decimal_rev fuel n <> [] \/ fuel = O.
Proof.
  revert n. induction fuel as [|fuel IH]; intros n H0 Hn; [by right|left]. cbn [decimal_rev].
  change (ch "0") with 48. destruct (Z.ltb_spec n 10).
  - split_and!; [repeat constructor; lia| |done].
    simpl. change 48 with (ch "0"). rewrite digit_in_decimal by lia. lia.
  - pose proof (Z.div_mod n 10 ltac:(lia)). pose proof (Z.mod_pos_bound n 10 ltac:(lia)).
    rewrite Nat2Z.inj_succ, Z.pow_succ_r in Hn by lia.
    destruct (IH (n / 10)) as [(Hf & Hv & Hne)| ->]; [lia|lia| |simpl in Hn; lia].
    split_and!; [constructor; [lia|done]| |done]. cbn [rev].
    rewrite digits_value_app, Hv.
    + simpl. change 48 with (ch "0"). rewrite digit_in_decimal by lia. lia.
    + intros c Hc. rewrite <- In_rev, <- list_elem_of_In in Hc || (apply list_elem_of_In, in_rev, list_elem_of_In in Hc).
      rewrite Forall_forall in Hf. specialize (Hf c Hc). exists (c - 48).
      replace c with (ch "0" + (c - 48)) at 1 by (change (ch "0") with 48; lia).
      apply digit_in_decimal. lia.
Qed.

Lemma decimal_digits n : 0 <= n -> Forall (fun c => 48 <= c <= 57) (decimal n) /\ decimal n <> [] /\
  digits_value 10 0 (decimal n) = n.
Proof.
  intros Hn. unfold decimal.
  destruct (decimal_rev_spec (S (Z.to_nat (Z.log2_up n))) n Hn) as [(Hf & Hv & Hne)|?]; [|split_and!|done].
  - rewrite Nat2Z.inj_succ, Z2Nat.id by apply Z.log2_up_nonneg.
    destruct (Z.eq_dec n 0) as [->|]; [done|]. destruct (Z.eq_dec n 1) as [->|]; [done|].
    pose proof (Z.log2_up_spec n ltac:(lia)). rewrite Z.pow_succ_r by apply Z.log2_up_nonneg. lia.
  - by apply Forall_rev.
  - intros Hr. apply Hne. apply (f_equal (@rev Z)) in Hr. by rewrite rev_involutive in Hr.
  - done.
Qed.

Lemma decimal_rev_last fuel n :
  1 <= n -> n < 2 ^ Z.of_nat fuel -> exists d, last (decimal_rev fuel n) = Some d /\ 49 <= d <= 57.
Proof.
  revert n. induction fuel as [|fuel IH]; intros n H0 Hn; [simpl in Hn; lia|]. cbn [decimal_rev].
  change (ch "0") with 48. destruct (Z.ltb_spec n 10).
  - exists (48 + n). split; [done|lia].
  - pose proof (Z.div_mod n 10 ltac:(lia)). pose proof (Z.mod_pos_bound n 10 ltac:(lia)).
    rewrite Nat2Z.inj_succ, Z.pow_succ_r in Hn by lia.
    destruct (IH (n / 10)) as (d & Hd & ?); [lia|lia|]. exists d. split; [|done].
    rewrite last_cons, Hd. done.
Qed.

Lemma decimal_fuel n : 1 <= n -> n < 2 ^ Z.of_nat (S (Z.to_nat (Z.log2_up n))).
Proof.
  intros Hn. rewrite Nat2Z.inj_succ, Z2Nat.id by apply Z.log2_up_nonneg.
  destruct (Z.eq_dec n 1) as [->|]; [done|].
  pose proof (Z.log2_up_spec n ltac:(lia)). rewrite Z.pow_succ_r by apply Z.log2_up_nonneg. lia.
Qed.

(** A positive number starts with a digit other than zero. *)
Lemma decimal_head n : 1 <= n -> exists c ds, decimal n = c :: ds /\ 49 <= c <= 57.
Proof.
  intros Hn. destruct (decimal_rev_last _ n Hn (decimal_fuel n Hn)) as (d & Hd & ?).
  unfold decimal. apply last_Some in Hd as [l' Hl]. rewrite Hl, rev_app_distr. simpl. eauto.
Qed.

Lemma decimal_rev_length fuel n : (length (decimal_rev fuel n) <= fuel)%nat.
Proof.
  revert n. induction fuel as [|fuel IH]; intros n; [done|]. cbn [decimal_rev].
  case_match; simpl; [lia|]. specialize (IH (n / 10)). lia.
Qed.

Lemma decimal_length n : 1 <= n <= LLONG_MAX -> (length (decimal n) <= 64)%nat.
Proof.
  intros Hn. unfold decimal. rewrite length_rev. etransitivity; [apply decimal_rev_length|].
  assert (Z.log2_up n <= Z.log2_up (2 ^ 63)) by (apply Z.log2_up_le_mono; unfold LLONG_MAX in Hn; lia).
  rewrite Z.log2_up_pow2 in * by lia. lia.
Qed.

(** The conversion of a decimal spelling is exact up to the largest integer. *)
Lemma strtoll_decimal n : 1 <= n <= LLONG_MAX -> strtoll (decimal n) 10 = n.
Proof.
  intros Hn. destruct (decimal_digits n) as (_ & _ & Hv); [lia|].
  destruct (decimal_head n) as (c & ds & Hd & Hc); [lia|]. unfold strtoll. rewrite Hd in *.
  assert (is_space c = false) as Hs.
  { unfold is_space. change (ch " ") with 32. rewrite orb_false_iff, andb_false_iff. lia. }
  cbn [skip_spaces]. rewrite Hs. unfold split_sign.
  rewrite (proj2 (Z.eqb_neq c (ch "-"))), (proj2 (Z.eqb_neq c (ch "+")))
    by (change (ch "-") with 45; change (ch "+") with 43; lia).
  change (10 =? 16) with false. cbn [andb]. rewrite Hv. unfold LLONG_MIN, LLONG_MAX in *. lia.
Qed.
