(* ===== verification/Tokenizer.v ===== *)
(** * The ccdl tokenizer: state and operations

    [src/src/ccdl/parser/Tokenizer.cpp] over the block reader of [SourceFile].
    Every member function is a state-passing function on the record of the
    tokenizer's fields.  The loops consume a character per round, so they get
    the number of characters still to come as fuel; [TokenizerProofs] shows it
    always suffices.  An undefined result is a read with no open file or the
    missing [return] of [ReadUuidNumberToken]. *)
From S2P Require Import Prelude.
From S2P Require Import SourceFile.
From S2P Require Import CcdlString.
From S2P Require Import Buckets.
From S2P Require Import StringMap.
From S2P Require Import CNum.
Import File.

Module Tokenizer.

(** [enum class Token], in the order its range tests rely on. *)
Inductive Token :=
  | ILLEGAL_TOKEN | BOOLEAN | BYTE | CHAR | COCLASSID | COMPONENTID | DOUBLE | ECODE | FLOAT
  | HANDLE | INTEGER | INTERFACEID | LONG | SHORT | STRING | TRIPLE | ARRAY | CALLEE | COCLASS
  | CONST | CONSTRUCTOR | DELETE | DESCRIPTION | ENUM | FALSE | IN | INCLUDE | INTERFACE
  | MODULE | NAMESPACE | NULLPTR | OUT | TRUE | URL | UUID | VERSION | AMPERSAND
  | ANGLE_BRACKETS_OPEN | ANGLE_BRACKETS_CLOSE | ASSIGNMENT | ASTERISK | BRACES_OPEN
  | BRACES_CLOSE | BRACKETS_OPEN | BRACKETS_CLOSE | COLON | COMMA | COMPLIMENT | DIVIDE
  | END_OF_LINE | EXCLUSIVE_OR | INCLUSIVE_OR | MINUS | MODULO | NOT | PARENTHESES_OPEN
  | PARENTHESES_CLOSE | PERIOD | PLUS | SEMICOLON | CHARACTER | COMMENT_BLOCK | COMMENT_LINE
  | END_OF_FILE | IDENTIFIER | NUMBER_INTEGRAL | NUMBER_FLOATINGPOINT | SHIFT_LEFT
  | SHIFT_RIGHT | SHIFT_RIGHT_UNSIGNED | STRING_LITERAL | UUID_NUMBER | VERSION_NUMBER.

#[export] Instance Token_eq_dec : EqDecision Token.
Proof. solve_decision. Defined.

Definition all_tokens : list Token :=
  [ILLEGAL_TOKEN; BOOLEAN; BYTE; CHAR; COCLASSID; COMPONENTID; DOUBLE; ECODE; FLOAT; HANDLE;
   INTEGER; INTERFACEID; LONG; SHORT; STRING; TRIPLE; ARRAY; CALLEE; COCLASS; CONST;
   CONSTRUCTOR; DELETE; DESCRIPTION; ENUM; FALSE; IN; INCLUDE; INTERFACE; MODULE; NAMESPACE;
   NULLPTR; OUT; TRUE; URL; UUID; VERSION; AMPERSAND; ANGLE_BRACKETS_OPEN;
   ANGLE_BRACKETS_CLOSE; ASSIGNMENT; ASTERISK; BRACES_OPEN; BRACES_CLOSE; BRACKETS_OPEN;
   BRACKETS_CLOSE; COLON; COMMA; COMPLIMENT; DIVIDE; END_OF_LINE; EXCLUSIVE_OR; INCLUSIVE_OR;
   MINUS; MODULO; NOT; PARENTHESES_OPEN; PARENTHESES_CLOSE; PERIOD; PLUS; SEMICOLON; CHARACTER;
   COMMENT_BLOCK; COMMENT_LINE; END_OF_FILE; IDENTIFIER; NUMBER_INTEGRAL; NUMBER_FLOATINGPOINT;
   SHIFT_LEFT; SHIFT_RIGHT; SHIFT_RIGHT_UNSIGNED; STRING_LITERAL; UUID_NUMBER; VERSION_NUMBER].

(** The enumerator's value: its position. *)
Definition token_code (t : Token) : Z :=
  match list_find (fun u => u = t) all_tokens with Some (i, _) => Z.of_nat i | None => 0 end.

Definition sKeywords : list (list Z * Token) :=
  [(str "Array", ARRAY); (str "Boolean", BOOLEAN); (str "Byte", BYTE); (str "callee", CALLEE);
   (str "Char", CHAR); (str "coclass", COCLASS); (str "CoclassID", COCLASSID);
   (str "ComponentID", COMPONENTID); (str "const", CONST); (str "Constructor", CONSTRUCTOR);
   (str "delete", DELETE); (str "description", DESCRIPTION); (str "Double", DOUBLE);
   (str "ECode", ECODE); (str "enum", ENUM); (str "false", FALSE); (str "Float", FLOAT);
   (str "HANDLE", HANDLE); (str "in", IN); (str "include", INCLUDE); (str "Integer", INTEGER);
   (str "interface", INTERFACE); (str "InterfaceID", INTERFACEID); (str "Long", LONG);
   (str "module", MODULE); (str "namespace", NAMESPACE); (str "nullptr", NULLPTR);
   (str "out", OUT); (str "Short", SHORT); (str "String", STRING); (str "Triple", TRIPLE);
   (str "true", TRUE); (str "url", URL); (str "uuid", UUID); (str "version", VERSION)].

(** A [FileNode]'s file: its path and its reader. *)
Record SourceFile := { mPath : String; mReader : BufferedReader }.

Record t := {
  mFiles : list SourceFile;
  mKeywords : StringMap.t Token;
  mCurrToken : Token;
  mHasAPeek : bool;
  mTokenLineNo : Z;
  mTokenColumnNo : Z;
  mCharacter : Z;
  mIdentifier : String;
  mComment : String;
  mNumberString : String;
  mString : String;
  mIntegralValue : Z;
  mFloatingPointValue : double;
  mBit : Z;
  mRadix : Z;
  mScientificNotation : bool
}.

(** Assignments to one field. *)
Definition set_mFiles (x : list SourceFile) (s : t) : t :=
  {| mFiles := x; mKeywords := mKeywords s; mCurrToken := mCurrToken s;
     mHasAPeek := mHasAPeek s; mTokenLineNo := mTokenLineNo s;
     mTokenColumnNo := mTokenColumnNo s; mCharacter := mCharacter s;
     mIdentifier := mIdentifier s; mComment := mComment s; mNumberString := mNumberString s;
     mString := mString s; mIntegralValue := mIntegralValue s;
     mFloatingPointValue := mFloatingPointValue s; mBit := mBit s; mRadix := mRadix s;
     mScientificNotation := mScientificNotation s |}.
Definition set_mKeywords (x : StringMap.t Token) (s : t) : t :=
  {| mFiles := mFiles s; mKeywords := x; mCurrToken := mCurrToken s; mHasAPeek := mHasAPeek s;
     mTokenLineNo := mTokenLineNo s; mTokenColumnNo := mTokenColumnNo s;
     mCharacter := mCharacter s; mIdentifier := mIdentifier s; mComment := mComment s;
     mNumberString := mNumberString s; mString := mString s;
     mIntegralValue := mIntegralValue s; mFloatingPointValue := mFloatingPointValue s;
     mBit := mBit s; mRadix := mRadix s; mScientificNotation := mScientificNotation s |}.
Definition set_mCurrToken (x : Token) (s : t) : t :=
  {| mFiles := mFiles s; mKeywords := mKeywords s; mCurrToken := x; mHasAPeek := mHasAPeek s;
     mTokenLineNo := mTokenLineNo s; mTokenColumnNo := mTokenColumnNo s;
     mCharacter := mCharacter s; mIdentifier := mIdentifier s; mComment := mComment s;
     mNumberString := mNumberString s; mString := mString s;
     mIntegralValue := mIntegralValue s; mFloatingPointValue := mFloatingPointValue s;
     mBit := mBit s; mRadix := mRadix s; mScientificNotation := mScientificNotation s |}.
Definition set_mHasAPeek (x : bool) (s : t) : t :=
  {| mFiles := mFiles s; mKeywords := mKeywords s; mCurrToken := mCurrToken s; mHasAPeek := x;
     mTokenLineNo := mTokenLineNo s; mTokenColumnNo := mTokenColumnNo s;
     mCharacter := mCharacter s; mIdentifier := mIdentifier s; mComment := mComment s;
     mNumberString := mNumberString s; mString := mString s;
     mIntegralValue := mIntegralValue s; mFloatingPointValue := mFloatingPointValue s;
     mBit := mBit s; mRadix := mRadix s; mScientificNotation := mScientificNotation s |}.
Definition set_mTokenLineNo (x : Z) (s : t) : t :=
  {| mFiles := mFiles s; mKeywords := mKeywords s; mCurrToken := mCurrToken s;
     mHasAPeek := mHasAPeek s; mTokenLineNo := x; mTokenColumnNo := mTokenColumnNo s;
     mCharacter := mCharacter s; mIdentifier := mIdentifier s; mComment := mComment s;
     mNumberString := mNumberString s; mString := mString s;
     mIntegralValue := mIntegralValue s; mFloatingPointValue := mFloatingPointValue s;
     mBit := mBit s; mRadix := mRadix s; mScientificNotation := mScientificNotation s |}.
Definition set_mTokenColumnNo (x : Z) (s : t) : t :=
  {| mFiles := mFiles s; mKeywords := mKeywords s; mCurrToken := mCurrToken s;
     mHasAPeek := mHasAPeek s; mTokenLineNo := mTokenLineNo s; mTokenColumnNo := x;
     mCharacter := mCharacter s; mIdentifier := mIdentifier s; mComment := mComment s;
     mNumberString := mNumberString s; mString := mString s;
     mIntegralValue := mIntegralValue s; mFloatingPointValue := mFloatingPointValue s;
     mBit := mBit s; mRadix := mRadix s; mScientificNotation := mScientificNotation s |}.
Definition set_mCharacter (x : Z) (s : t) : t :=
  {| mFiles := mFiles s; mKeywords := mKeywords s; mCurrToken := mCurrToken s;
     mHasAPeek := mHasAPeek s; mTokenLineNo := mTokenLineNo s;
     mTokenColumnNo := mTokenColumnNo s; mCharacter := x; mIdentifier := mIdentifier s;
     mComment := mComment s; mNumberString := mNumberString s; mString := mString s;
     mIntegralValue := mIntegralValue s; mFloatingPointValue := mFloatingPointValue s;
     mBit := mBit s; mRadix := mRadix s; mScientificNotation := mScientificNotation s |}.
Definition set_mIdentifier (x : String) (s : t) : t :=
  {| mFiles := mFiles s; mKeywords := mKeywords s; mCurrToken := mCurrToken s;
     mHasAPeek := mHasAPeek s; mTokenLineNo := mTokenLineNo s;
     mTokenColumnNo := mTokenColumnNo s; mCharacter := mCharacter s; mIdentifier := x;
     mComment := mComment s; mNumberString := mNumberString s; mString := mString s;
     mIntegralValue := mIntegralValue s; mFloatingPointValue := mFloatingPointValue s;
     mBit := mBit s; mRadix := mRadix s; mScientificNotation := mScientificNotation s |}.
Definition set_mComment (x : String) (s : t) : t :=
  {| mFiles := mFiles s; mKeywords := mKeywords s; mCurrToken := mCurrToken s;
     mHasAPeek := mHasAPeek s; mTokenLineNo := mTokenLineNo s;
     mTokenColumnNo := mTokenColumnNo s; mCharacter := mCharacter s;
     mIdentifier := mIdentifier s; mComment := x; mNumberString := mNumberString s;
     mString := mString s; mIntegralValue := mIntegralValue s;
     mFloatingPointValue := mFloatingPointValue s; mBit := mBit s; mRadix := mRadix s;
     mScientificNotation := mScientificNotation s |}.
Definition set_mNumberString (x : String) (s : t) : t :=
  {| mFiles := mFiles s; mKeywords := mKeywords s; mCurrToken := mCurrToken s;
     mHasAPeek := mHasAPeek s; mTokenLineNo := mTokenLineNo s;
     mTokenColumnNo := mTokenColumnNo s; mCharacter := mCharacter s;
     mIdentifier := mIdentifier s; mComment := mComment s; mNumberString := x;
     mString := mString s; mIntegralValue := mIntegralValue s;
     mFloatingPointValue := mFloatingPointValue s; mBit := mBit s; mRadix := mRadix s;
     mScientificNotation := mScientificNotation s |}.
Definition set_mString (x : String) (s : t) : t :=
  {| mFiles := mFiles s; mKeywords := mKeywords s; mCurrToken := mCurrToken s;
     mHasAPeek := mHasAPeek s; mTokenLineNo := mTokenLineNo s;
     mTokenColumnNo := mTokenColumnNo s; mCharacter := mCharacter s;
     mIdentifier := mIdentifier s; mComment := mComment s; mNumberString := mNumberString s;
     mString := x; mIntegralValue := mIntegralValue s;
     mFloatingPointValue := mFloatingPointValue s; mBit := mBit s; mRadix := mRadix s;
     mScientificNotation := mScientificNotation s |}.
Definition set_mIntegralValue (x : Z) (s : t) : t :=
  {| mFiles := mFiles s; mKeywords := mKeywords s; mCurrToken := mCurrToken s;
     mHasAPeek := mHasAPeek s; mTokenLineNo := mTokenLineNo s;
     mTokenColumnNo := mTokenColumnNo s; mCharacter := mCharacter s;
     mIdentifier := mIdentifier s; mComment := mComment s; mNumberString := mNumberString s;
     mString := mString s; mIntegralValue := x; mFloatingPointValue := mFloatingPointValue s;
     mBit := mBit s; mRadix := mRadix s; mScientificNotation := mScientificNotation s |}.
Definition set_mFloatingPointValue (x : double) (s : t) : t :=
  {| mFiles := mFiles s; mKeywords := mKeywords s; mCurrToken := mCurrToken s;
     mHasAPeek := mHasAPeek s; mTokenLineNo := mTokenLineNo s;
     mTokenColumnNo := mTokenColumnNo s; mCharacter := mCharacter s;
     mIdentifier := mIdentifier s; mComment := mComment s; mNumberString := mNumberString s;
     mString := mString s; mIntegralValue := mIntegralValue s; mFloatingPointValue := x;
     mBit := mBit s; mRadix := mRadix s; mScientificNotation := mScientificNotation s |}.
Definition set_mBit (x : Z) (s : t) : t :=
  {| mFiles := mFiles s; mKeywords := mKeywords s; mCurrToken := mCurrToken s;
     mHasAPeek := mHasAPeek s; mTokenLineNo := mTokenLineNo s;
     mTokenColumnNo := mTokenColumnNo s; mCharacter := mCharacter s;
     mIdentifier := mIdentifier s; mComment := mComment s; mNumberString := mNumberString s;
     mString := mString s; mIntegralValue := mIntegralValue s;
     mFloatingPointValue := mFloatingPointValue s; mBit := x; mRadix := mRadix s;
     mScientificNotation := mScientificNotation s |}.
Definition set_mRadix (x : Z) (s : t) : t :=
  {| mFiles := mFiles s; mKeywords := mKeywords s; mCurrToken := mCurrToken s;
     mHasAPeek := mHasAPeek s; mTokenLineNo := mTokenLineNo s;
     mTokenColumnNo := mTokenColumnNo s; mCharacter := mCharacter s;
     mIdentifier := mIdentifier s; mComment := mComment s; mNumberString := mNumberString s;
     mString := mString s; mIntegralValue := mIntegralValue s;
     mFloatingPointValue := mFloatingPointValue s; mBit := mBit s; mRadix := x;
     mScientificNotation := mScientificNotation s |}.
Definition set_mScientificNotation (x : bool) (s : t) : t :=
  {| mFiles := mFiles s; mKeywords := mKeywords s; mCurrToken := mCurrToken s;
     mHasAPeek := mHasAPeek s; mTokenLineNo := mTokenLineNo s;
     mTokenColumnNo := mTokenColumnNo s; mCharacter := mCharacter s;
     mIdentifier := mIdentifier s; mComment := mComment s; mNumberString := mNumberString s;
     mString := mString s; mIntegralValue := mIntegralValue s;
     mFloatingPointValue := mFloatingPointValue s; mBit := mBit s; mRadix := mRadix s;
     mScientificNotation := x |}.

Section Allocating.
Context {A : Allocator}.

Abbreviation M := (SE t).

(** ** Files *)

(** What [fopen(path, "r")] gives for a path: its characters, or a failure. *)
Definition filesystem := list Z -> option stream.

Definition PushInputFile (fs : filesystem) (filePath : String) : M bool := fun s =>
  if Str.IsNullOrEmpty filePath then Some (false, s)
  else match filePath with
       | None => Some (false, s)
       | Some p =>
         match fs p with
         | None => Some (false, s)
         | Some fd => Some (true, set_mFiles ({| mPath := filePath; mReader := open [] fd |} :: mFiles s) s)
         end
       end.

Definition PopInputFileAndRemove : M unit := modify (fun s => set_mFiles (tail (mFiles s)) s).

(** The characters the current file has still to deliver. *)
Definition remaining (s : t) : list Z :=
  match mFiles s with f :: _ => pending (mReader f) | [] => [] end.

Definition fuel_for (s : t) : nat := S (length (remaining s)).

(** [mFile->op()] on the current file, the head of the stack. *)
Definition on_file {X} (op : BufferedReader -> X * BufferedReader) : M X := fun s =>
  match mFiles s with
  | f :: fs =>
    let '(x, r) := op (mReader f) in
    Some (x, set_mFiles ({| mPath := mPath f; mReader := r |} :: fs) s)
  | [] => None
  end.

Definition Read : M Z := on_file File.Read.
Definition Peek : M Z := on_file File.Peek.
Definition Unread (c : Z) : M unit := on_file (fun r => (tt, File.Unread c r)).
Definition mark_token : M unit :=
  l <- on_file (fun r => (GetLineNo r, r)) ;;
  c <- on_file (fun r => (GetColumnNo r, r)) ;;
  modify (fun s => set_mTokenColumnNo c (set_mTokenLineNo l s)).

(** ** Character classes *)

Definition IsAlphabet (c : Z) : bool :=
  ((ch "a" <=? c) && (c <=? ch "z")) || ((ch "A" <=? c) && (c <=? ch "Z")).

Definition IsOctalDigital (c : Z) : bool := (ch "0" <=? c) && (c <=? ch "7").

Definition IsDecimalDigital (c : Z) : bool := (ch "0" <=? c) && (c <=? ch "9").

Definition IsHexDigital (c : Z) : bool :=
  ((ch "0" <=? c) && (c <=? ch "9")) || ((ch "a" <=? c) && (c <=? ch "f"))
  || ((ch "A" <=? c) && (c <=? ch "F")).

Definition IsEscape (c : Z) : bool := (c =? ch " ") || (c =? ch "010") || (c =? ch "009").

Definition IsPrimitiveType (token : Token) : bool :=
  (token_code BOOLEAN <=? token_code token) && (token_code token <=? token_code STRING).

Definition IsKeyword (token : Token) : bool :=
  (token_code BOOLEAN <=? token_code token) && (token_code token <=? token_code VERSION).

(** ** The readers of one token *)

Abbreviation builder := StringBuilder.t.
Abbreviation put_char := StringBuilder.Append_char.

(** [if (!IsEscape(c)) mFile->Unread(c);] *)
Definition unread_unless_escape (c : Z) : M unit :=
  if negb (IsEscape c) then Unread c else ret tt.

Fixpoint identifier_loop (fuel : nat) (b : builder) : M builder :=
  match fuel with
  | O => undefined
  | S fuel =>
    c <- Read ;;
    if c =? -1 then ret b
    else if IsAlphabet c || (c =? ch "_") || (c =? ch "-") || IsDecimalDigital c then
      identifier_loop fuel (put_char c b)
    else if c =? ch ":" then
      p <- Peek ;;
      if p =? ch ":" then Read ;;; identifier_loop fuel (StringBuilder.Append (Some (str "::")) b)
      else unread_unless_escape c ;;; ret b
    else unread_unless_escape c ;;; ret b
  end.

Definition ReadIdentifier (c : Z) : M Token :=
  fuel <- gets fuel_for ;;
  b <- identifier_loop fuel (put_char c StringBuilder.empty) ;;
  let key := StringBuilder.ToString b in
  kw <- gets mKeywords ;;
  match StringMap.Get ILLEGAL_TOKEN key kw with
  | None => undefined
  | Some token =>
    if bool_decide (token = ILLEGAL_TOKEN) then
      modify (set_mIdentifier key) ;;; ret IDENTIFIER
    else ret token
  end.

Inductive number_state := NUMBER_INT | NUMBER_INT_0 | NUMBER_FP | NUMBER_FP_EXP.

Fixpoint number_loop (fuel : nat) (state : number_state) (b : builder) : M (number_state * builder) :=
  match fuel with
  | O => undefined
  | S fuel =>
    c <- Read ;;
    if c =? -1 then ret (state, b)
    else
      match state with
      | NUMBER_INT_0 =>
        if (c =? ch "x") || (c =? ch "X") then
          modify (set_mRadix 16) ;;; number_loop fuel NUMBER_INT (put_char c b)
        else if IsOctalDigital c then number_loop fuel NUMBER_INT (put_char c b)
        else if c =? ch "." then number_loop fuel NUMBER_FP (put_char c b)
        else unread_unless_escape c ;;; ret (state, b)
      | NUMBER_INT =>
        radix <- gets mRadix ;;
        if ((radix =? 10) && IsDecimalDigital c) || ((radix =? 16) && IsHexDigital c) then
          number_loop fuel state (put_char c b)
        else if c =? ch "." then number_loop fuel NUMBER_FP (put_char c b)
        else if c =? ch "l" then
          p <- Peek ;;
          (if p =? ch "l" then Read ;;; modify (set_mBit 64) else ret tt) ;;; ret (state, b)
        else if c =? ch "L" then
          p <- Peek ;;
          (if p =? ch "L" then Read ;;; modify (set_mBit 64) else ret tt) ;;; ret (state, b)
        else if (c =? ch "e") || (c =? ch "E") then
          modify (set_mScientificNotation true) ;;; number_loop fuel NUMBER_FP_EXP (put_char c b)
        else unread_unless_escape c ;;; ret (state, b)
      | NUMBER_FP =>
        if IsDecimalDigital c then number_loop fuel state (put_char c b)
        else if (c =? ch "e") || (c =? ch "E") then
          modify (set_mScientificNotation true) ;;; number_loop fuel NUMBER_FP_EXP (put_char c b)
        else if (c =? ch "f") || (c =? ch "F") then ret (state, b)
        else if (c =? ch "d") || (c =? ch "D") then modify (set_mBit 64) ;;; ret (state, b)
        else unread_unless_escape c ;;; ret (state, b)
      | NUMBER_FP_EXP =>
        if (c =? ch "+") || (c =? ch "-") then number_loop fuel state (put_char c b)
        else if IsDecimalDigital c then number_loop fuel state (put_char c b)
        else if (c =? ch "f") || (c =? ch "F") then ret (state, b)
        else if (c =? ch "d") || (c =? ch "D") then modify (set_mBit 64) ;;; ret (state, b)
        else unread_unless_escape c ;;; ret (state, b)
      end
  end.

Definition ReadNumber (c : Z) : M Token :=
  let zero := c =? ch "0" in
  modify (set_mBit 32) ;;;
  modify (set_mRadix (if zero then 8 else 10)) ;;;
  modify (set_mScientificNotation false) ;;;
  fuel <- gets fuel_for ;;
  r <- number_loop fuel (if zero then NUMBER_INT_0 else NUMBER_INT) (put_char c StringBuilder.empty) ;;
  let '(state, b) := r in
  modify (set_mNumberString (StringBuilder.ToString b)) ;;;
  ns <- gets mNumberString ;;
  match state with
  | NUMBER_INT_0 | NUMBER_INT =>
    (match ns with
     | Some n =>
       match Str.Equals (Some n) (Some (str "0x8000000000000000")) with
       | Some true => modify (set_mNumberString (Str.append (mkString (Some (str "-"))) (Some n)))
       | _ => ret tt
       end
     | None => ret tt
     end) ;;;
    ns <- gets mNumberString ;;
    radix <- gets mRadix ;;
    match ns with
    | None => undefined
    | Some n => modify (set_mIntegralValue (strtoll (c_str n) radix)) ;;; ret NUMBER_INTEGRAL
    end
  | _ =>
    match ns with
    | None => undefined
    | Some n => modify (set_mFloatingPointValue (atof (c_str n))) ;;; ret NUMBER_FLOATINGPOINT
    end
  end.

Fixpoint string_loop (fuel : nat) (b : builder) : M (option builder) :=
  match fuel with
  | O => undefined
  | S fuel =>
    c <- Read ;;
    if c =? -1 then ret None
    else if negb (c =? ch "034") then string_loop fuel (put_char c b)
    else ret (Some b)
  end.

Definition ReadStringLiteral (c : Z) : M Token :=
  fuel <- gets fuel_for ;;
  r <- string_loop fuel StringBuilder.empty ;;
  match r with
  | Some b => modify (set_mString (StringBuilder.ToString b)) ;;; ret STRING_LITERAL
  | None => ret END_OF_FILE
  end.

Definition ReadCharacter (c : Z) : M Token :=
  c <- Read ;;
  if c =? -1 then ret END_OF_LINE
  else
    modify (set_mCharacter c) ;;;
    p <- Peek ;;
    if negb (p =? ch "'") then
      if c =? ch "'" then
        modify (set_mCharacter 0) ;;; modify (set_mString (mkString (Some []))) ;;; ret CHARACTER
      else ret ILLEGAL_TOKEN
    else
      Read ;;;
      modify (set_mString (if SharedBuffer_Alloc 1 then Some [c] else None)) ;;;
      ret CHARACTER.

Fixpoint line_comment_loop (fuel : nat) (b : builder) : M builder :=
  match fuel with
  | O => undefined
  | S fuel =>
    c <- Read ;;
    if negb (c =? ch "010") && negb (c =? -1) then line_comment_loop fuel (put_char c b)
    else ret b
  end.

Definition ReadLineComment (c : Z) : M Token :=
  fuel <- gets fuel_for ;;
  b <- line_comment_loop fuel (put_char c StringBuilder.empty) ;;
  modify (set_mComment (StringBuilder.ToString b)) ;;; ret COMMENT_LINE.

Fixpoint block_comment_loop (fuel : nat) (b : builder) : M builder :=
  match fuel with
  | O => undefined
  | S fuel =>
    c <- Read ;;
    if c =? -1 then ret b
    else
      let b := put_char c b in
      if c =? ch "*" then
        p <- Peek ;;
        if p =? ch "/" then Read ;;; ret (put_char (ch "/") b) else block_comment_loop fuel b
      else block_comment_loop fuel b
  end.

Definition ReadBlockComment (c : Z) : M Token :=
  fuel <- gets fuel_for ;;
  b <- block_comment_loop fuel (put_char c StringBuilder.empty) ;;
  modify (set_mComment (StringBuilder.ToString b)) ;;; ret COMMENT_BLOCK.

(** The segments of a UUID: index at which the dash must come, and the limit
    of hexadecimal digits; the last segment ends at any other character. *)
Inductive uuid_state := SEGMENT_1 | SEGMENT_2 | SEGMENT_3 | SEGMENT_4 | SEGMENT_5.

Definition uuid_next (st : uuid_state) : option uuid_state :=
  match st with
  | SEGMENT_1 => Some SEGMENT_2 | SEGMENT_2 => Some SEGMENT_3 | SEGMENT_3 => Some SEGMENT_4
  | SEGMENT_4 => Some SEGMENT_5 | SEGMENT_5 => None
  end.

Definition uuid_digits (st : uuid_state) : Z :=
  match st with SEGMENT_1 => 8 | SEGMENT_5 => 12 | _ => 4 end.

Fixpoint uuid_loop (fuel : nat) (state : uuid_state) (index : Z) (b : builder) : M Token :=
  match fuel with
  | O => undefined
  | S fuel =>
    c <- Read ;;
    if c =? -1 then undefined   (* the function ends without a return *)
    else
      let index := index + 1 in
      (match state with
       | SEGMENT_1 => if index =? 1 then mark_token else ret tt
       | _ => ret tt
       end) ;;;
      match uuid_next state with
      | Some next =>
        if c =? ch "-" then
          if index =? uuid_digits state + 1 then uuid_loop fuel next 0 (put_char c b)
          else ret ILLEGAL_TOKEN
        else if IsHexDigital c then
          if index >? uuid_digits state then ret ILLEGAL_TOKEN
          else uuid_loop fuel state index (put_char c b)
        else Unread c ;;; ret ILLEGAL_TOKEN
      | None =>
        if IsHexDigital c then
          if index >? uuid_digits state then ret ILLEGAL_TOKEN
          else uuid_loop fuel state index (put_char c b)
        else
          Unread c ;;;
          if index >=? 13 then
            modify (set_mString (StringBuilder.ToString b)) ;;; ret UUID_NUMBER
          else ret ILLEGAL_TOKEN
      end
  end.

Definition ReadUuidNumberToken : M Token :=
  fuel <- gets fuel_for ;;
  uuid_loop fuel SEGMENT_1 0 StringBuilder.empty.

Inductive version_state := V_START | V_SEGMENT_1 | V_SEGMENT_2 | V_SEGMENT_3 | V_END.

(** The result of the loop: a token returned inside it, or the state in which
    it was left. *)
Fixpoint version_loop (fuel : nat) (state : version_state) (b : builder) : M (Token + version_state) :=
  match fuel with
  | O => undefined
  | S fuel =>
    c <- Read ;;
    if c =? -1 then ret (inr state)
    else
      match state with
      | V_START =>
        mark_token ;;;
        if IsEscape c then version_loop fuel state b
        else if IsDecimalDigital c then version_loop fuel V_SEGMENT_1 (put_char c b)
        else Unread c ;;; ret (inl ILLEGAL_TOKEN)
      | V_SEGMENT_1 =>
        if IsDecimalDigital c then version_loop fuel V_SEGMENT_1 (put_char c b)
        else if c =? ch "." then version_loop fuel V_SEGMENT_2 (put_char c b)
        else unread_unless_escape c ;;; ret (inl ILLEGAL_TOKEN)
      | V_SEGMENT_2 =>
        if IsDecimalDigital c then version_loop fuel V_SEGMENT_2 (put_char c b)
        else if c =? ch "." then version_loop fuel V_SEGMENT_3 (put_char c b)
        else unread_unless_escape c ;;; ret (inl ILLEGAL_TOKEN)
      | V_SEGMENT_3 =>
        if IsDecimalDigital c then version_loop fuel V_END (put_char c b)
        else unread_unless_escape c ;;; ret (inl ILLEGAL_TOKEN)
      | V_END =>
        if IsDecimalDigital c then version_loop fuel V_END (put_char c b)
        else unread_unless_escape c ;;;
             modify (set_mString (StringBuilder.ToString b)) ;;; ret (inr V_END)
      end
  end.

Definition ReadVersionNumberToken : M Token :=
  fuel <- gets fuel_for ;;
  r <- version_loop fuel V_START StringBuilder.empty ;;
  match r with
  | inl token => ret token
  | inr V_END => ret VERSION_NUMBER
  | inr _ => ret ILLEGAL_TOKEN
  end.

(** The one-character tokens of [ReadToken]'s switch. *)
Definition symbol (c : Z) : option Token :=
  if c =? ch "=" then Some ASSIGNMENT
  else if c =? ch "*" then Some ASTERISK
  else if c =? ch "{" then Some BRACES_OPEN
  else if c =? ch "}" then Some BRACES_CLOSE
  else if c =? ch "[" then Some BRACKETS_OPEN
  else if c =? ch "]" then Some BRACKETS_CLOSE
  else if c =? ch ":" then Some COLON
  else if c =? ch "," then Some COMMA
  else if c =? ch "-" then Some MINUS
  else if c =? ch "(" then Some PARENTHESES_OPEN
  else if c =? ch ")" then Some PARENTHESES_CLOSE
  else if c =? ch "." then Some PERIOD
  else if c =? ch ";" then Some SEMICOLON
  else if c =? ch "&" then Some AMPERSAND
  else if c =? ch "~" then Some COMPLIMENT
  else if c =? ch "^" then Some EXCLUSIVE_OR
  else if c =? ch "|" then Some INCLUSIVE_OR
  else if c =? ch "%" then Some MODULO
  else if c =? ch "!" then Some NOT
  else if c =? ch "+" then Some PLUS
  else None.

(** [c == '-' && IsAlphabet(mFile->Peek())]: peeks only at a dash. *)
Definition starts_identifier (c : Z) : M bool :=
  if IsAlphabet c || (c =? ch "_") then ret true
  else if c =? ch "-" then p <- Peek ;; ret (IsAlphabet p)
  else ret false.

(** The token that starts with [c]; [again] is the next round of the loop. *)
Definition token_switch (again : M Token) (separatorChar c : Z) : M Token :=
  ident <- starts_identifier c ;;
  if ident then ReadIdentifier c
  else if IsDecimalDigital c then ReadNumber c
  else if c =? ch "<" then
    if negb (c =? separatorChar) then
      p <- Peek ;;
      if p =? ch "<" then Read ;;; ret SHIFT_LEFT else ret ANGLE_BRACKETS_OPEN
    else ret ANGLE_BRACKETS_OPEN
  else if c =? ch ">" then
    if negb (c =? separatorChar) then
      p <- Peek ;;
      if p =? ch ">" then
        Read ;;;
        p <- Peek ;;
        if p =? ch ">" then Read ;;; ret SHIFT_RIGHT_UNSIGNED else ret SHIFT_RIGHT
      else ret ANGLE_BRACKETS_CLOSE
    else ret ANGLE_BRACKETS_CLOSE
  else if c =? ch "/" then
    p <- Peek ;;
    if p =? ch "/" then ReadLineComment c ;;; again
    else
      p <- Peek ;;
      if p =? ch "*" then ReadBlockComment c ;;; again
      else ret DIVIDE
  else if c =? ch "034" then ReadStringLiteral c
  else if c =? ch "'" then ReadCharacter c
  else match symbol c with
       | Some token => ret token
       | None => again
       end.

Fixpoint token_loop (fuel : nat) (separatorChar : Z) : M Token :=
  match fuel with
  | O => undefined
  | S fuel =>
    c <- Read ;;
    if c =? -1 then ret END_OF_FILE
    else
      mark_token ;;;
      if IsEscape c then token_loop fuel separatorChar
      else token_switch (token_loop fuel separatorChar) separatorChar c
  end.

Definition ReadToken (separatorChar : Z) : M Token :=
  fuel <- gets fuel_for ;; token_loop fuel separatorChar.

(** ** The interface to the parser *)

Definition PeekToken_sep (separatorChar : Z) : M Token :=
  peek <- gets mHasAPeek ;;
  if peek : bool then gets mCurrToken
  else
    token <- ReadToken separatorChar ;;
    modify (set_mCurrToken token) ;;; modify (set_mHasAPeek true) ;;; ret token.

(** The three getters share the pending peek. *)
Definition get_or (read : M Token) : M Token :=
  peek <- gets mHasAPeek ;;
  if peek : bool then modify (set_mHasAPeek false) ;;; gets mCurrToken else read.

Definition GetToken_sep (separatorChar : Z) : M Token := get_or (ReadToken separatorChar).

Definition GetUuidNumberToken : M Token := get_or ReadUuidNumberToken.

Definition GetVersionNumberToken : M Token := get_or ReadVersionNumberToken.

(** The default argument [separatorChar = -1]. *)
Definition PeekToken : M Token := PeekToken_sep (-1).
Definition GetToken : M Token := GetToken_sep (-1).

Fixpoint skip_line_loop (fuel : nat) : M unit :=
  match fuel with
  | O => undefined
  | S fuel =>
    c <- Read ;;
    if negb (c =? -1) && negb (c =? ch "010") then skip_line_loop fuel else ret tt
  end.

Definition SkipCurrentLine : M unit :=
  fuel <- gets fuel_for ;;
  skip_line_loop fuel ;;; modify (set_mHasAPeek false).

Definition Is64Bit (s : t) : bool := mBit s =? 64.

(** [Tokenizer::Tokenizer] with [InitializeKeyword]; [mCharacter] and
    [mScientificNotation] are left uninitialised by the constructor. *)
Definition make (garbage : Z * bool) : option t :=
  kw ← StringMap.make 50;
  kw ← StringMap.put_all sKeywords kw;
  Some {| mFiles := []; mKeywords := kw; mCurrToken := ILLEGAL_TOKEN; mHasAPeek := false;
          mTokenLineNo := 0; mTokenColumnNo := 0; mCharacter := garbage.1; mIdentifier := None;
          mComment := None; mNumberString := None; mString := None; mIntegralValue := 0;
          mFloatingPointValue := S754_zero false; mBit := 32; mRadix := 10;
          mScientificNotation := garbage.2 |}.

(** [DumpToken] for the tokens with a fixed spelling, and the field it shows
    for the others. *)
Definition DumpToken (token : Token) (s : t) : String :=
  let lit x := Some (str x) in
  match token with
  | AMPERSAND => lit "&" | ANGLE_BRACKETS_OPEN => lit "<" | ANGLE_BRACKETS_CLOSE => lit ">"
  | ARRAY => lit "Array" | ASSIGNMENT => lit "=" | ASTERISK => lit "*" | BOOLEAN => lit "Boolean"
  | BRACES_OPEN => lit "{" | BRACES_CLOSE => lit "}" | BRACKETS_OPEN => lit "[" | BRACKETS_CLOSE => lit "]"
  | BYTE => lit "Byte" | CALLEE => lit "callee" | CHAR => lit "Char" | CHARACTER => mString s
  | COCLASS => lit "coclass" | COCLASSID => lit "CoclassID" | COLON => lit ":" | COMMA => lit ","
  | COMMENT_BLOCK => mComment s | COMMENT_LINE => mComment s | COMPLIMENT => lit "~"
  | COMPONENTID => lit "ComponentID" | CONST => lit "const" | CONSTRUCTOR => lit "Constructor"
  | DELETE => lit "Delete" | DESCRIPTION => lit "description" | DIVIDE => lit "/" | DOUBLE => lit "Double"
  | ECODE => lit "ECode" | END_OF_LINE => Some [ch "010"] | ENUM => lit "enum" | EXCLUSIVE_OR => lit "^"
  | FALSE => lit "false" | FLOAT => lit "Float" | HANDLE => lit "HANDLE" | IDENTIFIER => mIdentifier s
  | IN => lit "in" | INCLUDE => lit "include" | INCLUSIVE_OR => lit "|" | INTEGER => lit "Integer"
  | INTERFACE => lit "interface" | INTERFACEID => lit "InterfaceID" | LONG => lit "Long"
  | MINUS => lit "-" | MODULE => lit "module" | MODULO => lit "%" | NAMESPACE => lit "namespace"
  | NOT => lit "!" | NULLPTR => lit "nullptr" | NUMBER_INTEGRAL => mNumberString s
  | NUMBER_FLOATINGPOINT => mNumberString s | OUT => lit "out" | PARENTHESES_OPEN => lit "("
  | PARENTHESES_CLOSE => lit ")" | PERIOD => lit "." | PLUS => lit "+" | SEMICOLON => lit ";"
  | SHIFT_LEFT => lit "<<" | SHIFT_RIGHT => lit ">>" | SHIFT_RIGHT_UNSIGNED => lit ">>>"
  | SHORT => lit "Short" | STRING => lit "String" | STRING_LITERAL => mString s | TRIPLE => lit "Triple"
  | TRUE => lit "true" | URL => lit "url" | UUID => lit "uuid" | UUID_NUMBER => mString s
  | VERSION => lit "version" | VERSION_NUMBER => mString s
  | _ => Some []
  end.

End Allocating.
End Tokenizer.
