(* ===== verification/TokenizerProofs.v ===== *)
(** * What the tokenizer guarantees

    Termination on every input, and the exact tokens of the lexical grammar:
    the spelling of any sequence of tokens, separated by blanks, reads back as
    that sequence.  The proofs see a file only through [remaining], by the
    rules for [Read], [Peek] and [Unread] that the reader's refinement
    provides. *)
From S2P Require Import Prelude.
From S2P Require Import SourceFile.
From S2P Require Import CcdlString.
From S2P Require Import Buckets.
From S2P Require Import StringMap.
From S2P Require Import CNum.
From S2P Require Import Tokenizer.
Import File.
Import Tokenizer.

Module TokenizerProofs.

(** ** The state a tokenizer works in *)

Definition keyword_map : gmap (list Z) Token :=
  fold_left (fun g kv => <[kv.1 := kv.2]> g) sKeywords ∅.

(** The map takes every keyword for itself. *)
Lemma keywords_as_written : StringMap.last_values sKeywords ∅ = keyword_map.
Proof. vm_compute. reflexivity. Qed.

Definition open_file (s : t) : Prop := exists f fs, mFiles s = f :: fs /\ wf (mReader f).

Record ok (s : t) : Prop := {
  ok_file : open_file s;
  ok_keywords : StringMap.inv (mKeywords s) /\ StringMap.entries (mKeywords s) = keyword_map
}.

(** [s'] is [s] but for the current file. *)
Definition moved (s s' : t) : Prop := s' = set_mFiles (mFiles s') s.

(** A character was consumed from the block, so one can be put back. *)
Definition can_unread (s : t) : Prop :=
  match mFiles s with f :: _ => 0 < mPosition (mReader f) | [] => False end.

Lemma moved_refl s : moved s s.
Proof. unfold moved. by destruct s. Qed.

Lemma moved_trans s1 s2 s3 : moved s1 s2 -> moved s2 s3 -> moved s1 s3.
Proof. unfold moved. intros H1 ->. rewrite H1. done. Qed.

Lemma ok_moved s s' : ok s -> moved s s' -> open_file s' -> ok s'.
Proof. intros [_ Hk] Hm Hf. split; [done|]. by rewrite Hm. Qed.

#[local] Hint Resolve moved_refl moved_trans : ccm.

Section Rules.
Context {A : Allocator}.

(** The reader operations on the head of the file stack. *)
Lemma wp_on_file {X} (op : BufferedReader -> X * BufferedReader) (Q : X -> t -> Prop) s :
  ok s ->
  (forall f fs, mFiles s = f :: fs -> wf (mReader f) -> wf (op (mReader f)).2 /\
     forall s', ok s' -> moved s s' -> remaining s' = pending (op (mReader f)).2 ->
       (can_unread s' <-> 0 < mPosition (op (mReader f)).2) -> Q (op (mReader f)).1 s') ->
  wp (on_file op) Q s.
Proof.
  intros Hok HQ. destruct (ok_file s Hok) as (f & fs & Hf & Hwf).
  destruct (HQ f fs Hf Hwf) as [Hwf' Hs']. unfold wp, on_file. rewrite Hf.
  destruct (op (mReader f)) as [x r]. cbn [fst snd] in *.
  assert (Hm : moved s (set_mFiles ({| mPath := mPath f; mReader := r |} :: fs) s)) by done.
  apply Hs'; [|done|done|done]. apply (ok_moved s); [done|done|]. eexists _, _. split; [reflexivity|done].
Qed.

Lemma wp_Read (Q : Z -> t -> Prop) s :
  ok s ->
  (forall s', ok s' -> moved s s' -> remaining s' = remaining s ->
     match remaining s with [] => True | c :: _ => c = -1 end -> Q (-1) s') ->
  (forall c l s', remaining s = c :: l -> c <> -1 -> ok s' -> moved s s' -> remaining s' = l ->
     can_unread s' -> Q c s') ->
  wp Read Q s.
Proof.
  intros Hok Hend Hread. apply wp_on_file; [done|]. intros f fs Hf Hwf.
  assert (Hrem : remaining s = pending (mReader f)) by (unfold remaining; by rewrite Hf).
  destruct (pending (mReader f)) as [|c l] eqn:Hp.
  - destruct (Read_end (mReader f) Hwf) as (H1 & H2 & H3 & _); [by rewrite Hp|].
    split; [done|]. intros s' Hs' Hm Hr _. rewrite H1. apply Hend; auto; [|by rewrite Hrem].
    by rewrite Hr, H3, Hrem, Hp.
  - destruct (decide (c = -1)) as [->|Hc].
    + destruct (Read_end (mReader f) Hwf) as (H1 & H2 & H3 & _).
      { rewrite Hp. unfold readable. lia. }
      split; [done|]. intros s' Hs' Hm Hr _. rewrite H1. apply Hend; auto; [|by rewrite Hrem].
      by rewrite Hr, H3, Hrem, Hp.
    + destruct (Read_spec (mReader f) c l Hwf Hp Hc) as (H1 & H2 & H3 & _ & H4 & _).
      split; [done|]. intros s' Hs' Hm Hr Hu. rewrite H1. apply (Hread c l); auto; [by rewrite Hr|].
      by apply Hu.
Qed.

Lemma wp_Peek (Q : Z -> t -> Prop) s :
  ok s ->
  (forall s', ok s' -> moved s s' -> remaining s' = remaining s ->
     Q (match remaining s with [] => -1 | c :: _ => c end) s') ->
  wp Peek Q s.
Proof.
  intros Hok HQ. apply wp_on_file; [done|]. intros f fs Hf Hwf.
  assert (Hrem : remaining s = pending (mReader f)) by (unfold remaining; by rewrite Hf).
  destruct (Peek_spec (mReader f) Hwf) as (H1 & H2 & _ & _ & H3 & _).
  split; [done|]. intros s' Hs' Hm Hr _. rewrite H3, <- Hrem. apply HQ; auto. by rewrite Hr, H2.
Qed.

Lemma wp_Unread c (Q : unit -> t -> Prop) s :
  ok s -> can_unread s ->
  (forall s', ok s' -> moved s s' -> remaining s' = c :: remaining s -> Q tt s') ->
  wp (Unread c) Q s.
Proof.
  intros Hok Hu HQ. apply wp_on_file; [done|]. intros f fs Hf Hwf. cbn [fst snd].
  assert (Hrem : remaining s = pending (mReader f)) by (unfold remaining; by rewrite Hf).
  unfold can_unread in Hu. rewrite Hf in Hu.
  destruct (Unread_spec (mReader f) c Hwf Hu) as (H1 & H2 & _).
  split; [done|]. intros s' Hs' Hm Hr _. apply HQ; auto. by rewrite Hr, H2, Hrem.
Qed.

(** Without knowing whether the block still has room. *)
Lemma wp_Unread_any c (Q : unit -> t -> Prop) s :
  ok s ->
  (forall s', ok s' -> moved s s' -> (length (remaining s') <= S (length (remaining s)))%nat -> Q tt s') ->
  wp (Unread c) Q s.
Proof.
  intros Hok HQ. destruct (ok_file s Hok) as (f & fs & Hf & Hwf).
  assert (Hrem : remaining s = pending (mReader f)) by (unfold remaining; by rewrite Hf).
  destruct (Z.lt_ge_cases 0 (mPosition (mReader f))) as [Hpos|Hpos].
  - apply wp_Unread; [done|by unfold can_unread; rewrite Hf|].
    intros s' H1 H2 H3. apply HQ; auto. by rewrite H3.
  - apply wp_on_file; [done|]. intros f' fs' Hf' _. rewrite Hf in Hf'. injection Hf' as <- <-.
    cbn [fst snd]. unfold File.Unread. destruct (Z.leb_spec (mPosition (mReader f)) 0); [|lia].
    split; [done|]. intros s' Hs' Hm Hr _. apply HQ; auto. rewrite Hr, Hrem. lia.
Qed.

Lemma wp_mark_token (Q : unit -> t -> Prop) s :
  ok s -> can_unread s ->
  (forall l c s', ok s' -> moved s s' -> remaining s' = remaining s -> can_unread s' ->
     Q tt (set_mTokenColumnNo c (set_mTokenLineNo l s'))) ->
  wp mark_token Q s.
Proof.
  intros Hok Hu HQ. unfold mark_token. destruct (ok_file s Hok) as (f & fs & Hf & Hwf).
  unfold can_unread in Hu. rewrite Hf in Hu.
  unfold wp, bind, on_file, modify; simpl. rewrite Hf. simpl. 
  eapply (HQ _ _ (set_mFiles ({| mPath := mPath f; mReader := mReader f |} :: fs) s)); [|done| |done].
  - apply (ok_moved s); [done|done|]. eexists _, _. split; [reflexivity|done].
  - unfold remaining; simpl. by rewrite Hf.
Qed.

End Rules.

(** ** Termination

    [within n s]: a good state without a pending peek and with at most [n]
    characters to come.  One rule per operation moves the bound; a loop that
    reads before it goes round needs [n + 1] rounds. *)
Definition within (n : nat) (s : t) : Prop :=
  ok s /\ mHasAPeek s = false /\ (length (remaining s) <= n)%nat.

Lemma within_le n m s : within n s -> (n <= m)%nat -> within m s.
Proof. intros (? & ? & ?) ?. split_and!; [done|done|lia]. Qed.

Lemma moved_peek s s' : moved s s' -> mHasAPeek s' = mHasAPeek s.
Proof. unfold moved. by intros ->. Qed.

Lemma within_moved n m s s' :
  within n s -> ok s' -> moved s s' -> (length (remaining s') <= m)%nat -> within m s'.
Proof. intros (_ & Hp & _) Hok Hm Hl. split_and!; [done|by rewrite (moved_peek s)|done]. Qed.

(** Assignments to the other fields leave the bound. *)
Lemma within_fields n s s' :
  mFiles s' = mFiles s -> mKeywords s' = mKeywords s -> mHasAPeek s' = mHasAPeek s ->
  within n s -> within n s'.
Proof.
  intros Hf Hk Hpk [[Hfile Hkw] Hl]. unfold within, remaining in *. rewrite Hf, Hpk. split; [|done].
  split; [unfold open_file; by rewrite Hf|by rewrite Hk].
Qed.

Section Termination.
Context {A : Allocator}.

Lemma Read_within n (Q : Z -> t -> Prop) s :
  within n s -> (forall s', within n s' -> Q (-1) s') ->
  (forall c m s', n = S m -> within m s' -> can_unread s' -> Q c s') ->
  wp Read Q s.
Proof.
  intros Hw Hend Hread. destruct Hw as (Hok & Hp & Hl) eqn:Heq. clear Heq. apply wp_Read; [done| |].
  - intros s' H1 Hm H2 _. apply Hend. apply (within_moved n n s); [done|done|done|by rewrite H2].
  - intros c l s' H1 _ H2 Hm H3 H4. rewrite H1 in Hl. destruct n as [|m]; [simpl in Hl; lia|].
    apply (Hread c m); [done| |done]. apply (within_moved (S m) m s); [done|done|done|].
    rewrite H3. simpl in Hl. lia.
Qed.

Lemma Peek_within n (Q : Z -> t -> Prop) s :
  within n s -> (forall c s', within n s' -> Q c s') -> wp Peek Q s.
Proof.
  intros Hw HQ. apply wp_Peek; [apply Hw|]. intros s' H1 Hm H2. apply HQ.
  apply (within_moved n n s); [done|done|done|]. rewrite H2. apply Hw.
Qed.

Lemma Unread_within n c (Q : unit -> t -> Prop) s :
  within n s -> (forall s', within (S n) s' -> Q tt s') -> wp (Unread c) Q s.
Proof.
  intros Hw HQ. apply wp_Unread_any; [apply Hw|]. intros s' H1 Hm H2. apply HQ.
  apply (within_moved n _ s); [done|done|done|]. destruct Hw as (_ & _ & ?). lia.
Qed.

Lemma mark_within n (Q : unit -> t -> Prop) s :
  within n s -> can_unread s -> (forall s', within n s' -> can_unread s' -> Q tt s') ->
  wp mark_token Q s.
Proof.
  intros Hw Hu HQ. apply wp_mark_token; [apply Hw|done|]. intros l c s' H1 Hm H2 H3.
  apply HQ; [|done]. apply (within_fields _ s'); [done|done|done|].
  apply (within_moved n n s); [done|done|done|]. rewrite H2. apply Hw.
Qed.

Lemma escape_within n c (Q : unit -> t -> Prop) s :
  within n s -> (forall s', within (S n) s' -> Q tt s') -> wp (unread_unless_escape c) Q s.
Proof.
  intros Hw HQ. unfold unread_unless_escape. destruct (IsEscape c); simpl.
  - apply wp_ret, HQ. apply (within_le n); [done|lia].
  - by apply (Unread_within n).
Qed.

End Termination.

(** Runs the body of a loop through the rules; what is left are the calls of
    the loop itself and the bound at its exits. *)
Ltac within_step :=
  cbn zeta; subst;
  lazymatch goal with
  | |- wp (bind _ _) _ _ => apply wp_bind
  | |- wp (ret _) _ _ => apply wp_ret
  | |- wp (gets _) _ _ => apply wp_gets
  | H : within _ ?s |- wp (modify ?f) _ ?s =>
    apply wp_modify; apply (within_fields _ s (f s) eq_refl eq_refl eq_refl) in H
  | H : within _ ?s |- wp Read _ ?s => apply (Read_within _ _ _ H); clear H; intros
  | H : within _ ?s |- wp Peek _ ?s => apply (Peek_within _ _ _ H); clear H; intros
  | H : within _ ?s |- wp (Unread _) _ ?s => apply (Unread_within _ _ _ _ H); clear H; intros
  | H : within _ ?s |- wp (unread_unless_escape _) _ ?s =>
    apply (escape_within _ _ _ _ H); clear H; intros
  | H : within _ ?s, H' : can_unread ?s |- wp mark_token _ ?s =>
    apply (mark_within _ _ _ H H'); clear H; intros
  | |- wp (if ?b then _ else _) _ _ =>
    (* at the end of the file the tests on the character are closed *)
    lazymatch b with
    | context [(-1) =? _] =>
      let v := eval vm_compute in b in
      change b with v; cbv iota
    | _ => destruct b
    end
  | |- wp (match ?x with _ => _ end) _ _ => destruct x
  end.

(** [within] of a state with some fields assigned. *)
Ltac within_done :=
  cbv beta in *; subst;
  match goal with
  | H : within _ ?s |- within _ _ =>
    apply (within_le _ _ _ (within_fields _ s _ eq_refl eq_refl eq_refl H)); lia
  end.

(** Closes the recursive calls of a loop by its induction hypothesis. *)
Ltac within_loop IH :=
  repeat within_step; try within_done;
  (eapply wp_mono; [eapply IH; [eassumption|lia]|intros; within_done]).

Section Loops.
Context {A : Allocator}.

Lemma identifier_loop_within n fuel b s :
  within n s -> (n < fuel)%nat -> wp (identifier_loop fuel b) (fun _ s' => within n s') s.
Proof.
  revert n b s. induction fuel as [|fuel IH]; intros n b s Hw Hf; [lia|]. cbn [identifier_loop].
  within_loop IH.
Qed.

Lemma number_loop_within n fuel st b s :
  never_fails A -> StringBuilder.good b -> within n s -> (n < fuel)%nat ->
  wp (number_loop fuel st b) (fun r s' => within n s' /\ StringBuilder.good r.2) s.
Proof.
  intros HA. revert n st b s. induction fuel as [|fuel IH]; intros n st b s Hb Hw Hf; [lia|].
  cbn [number_loop]. repeat within_step; try (split; [within_done|done]).
  all: eapply wp_mono; [eapply IH; [by apply StringBuilder.Append_char_good|eassumption|lia]|].
  all: intros x s'' [? ?]; split; [within_done|done].
Qed.

Lemma string_loop_within n fuel b s :
  within n s -> (n < fuel)%nat -> wp (string_loop fuel b) (fun _ s' => within n s') s.
Proof.
  revert n b s. induction fuel as [|fuel IH]; intros n b s Hw Hf; [lia|]. cbn [string_loop].
  within_loop IH.
Qed.

Lemma line_comment_loop_within n fuel b s :
  within n s -> (n < fuel)%nat -> wp (line_comment_loop fuel b) (fun _ s' => within n s') s.
Proof.
  revert n b s. induction fuel as [|fuel IH]; intros n b s Hw Hf; [lia|]. cbn [line_comment_loop].
  within_loop IH.
Qed.

Lemma block_comment_loop_within n fuel b s :
  within n s -> (n < fuel)%nat -> wp (block_comment_loop fuel b) (fun _ s' => within n s') s.
Proof.
  revert n b s. induction fuel as [|fuel IH]; intros n b s Hw Hf; [lia|]. cbn [block_comment_loop].
  within_loop IH.
Qed.

Lemma version_loop_within n fuel st b s :
  within n s -> (n < fuel)%nat -> wp (version_loop fuel st b) (fun _ s' => within n s') s.
Proof.
  revert n st b s. induction fuel as [|fuel IH]; intros n st b s Hw Hf; [lia|]. cbn [version_loop].
  within_loop IH.
Qed.

Lemma skip_line_loop_within n fuel s :
  within n s -> (n < fuel)%nat -> wp (skip_line_loop fuel) (fun _ s' => within n s') s.
Proof.
  revert n s. induction fuel as [|fuel IH]; intros n s Hw Hf; [lia|]. cbn [skip_line_loop].
  within_loop IH.
Qed.

(** The readers of one token: whatever they meet, they give the input back at
    most what they took. *)
Lemma Get_total (T0 : Token) key m :
  StringMap.inv m -> exists v, StringMap.Get T0 key m = Some v.
Proof.
  intros Hinv. unfold StringMap.Get. destruct key as [k|]; [|eauto].
  rewrite StringMap.find_spec by done. simpl. eauto.
Qed.

Lemma within_exact n s : within n s -> within (length (remaining s)) s.
Proof. intros (? & ? & ?). by split_and!. Qed.

Lemma within_remaining n s : within n s -> (length (remaining s) <= n)%nat.
Proof. by intros (? & ? & ?). Qed.

Ltac run_loop H lem :=
  apply wp_bind, wp_gets;
  let Hx := fresh in
  pose proof (within_exact _ _ H) as Hx; pose proof (within_remaining _ _ H);
  unfold fuel_for; apply wp_bind;
  eapply wp_mono; [eapply lem; [..|exact Hx|lia]|clear Hx; cbv beta; intros].

Lemma ReadIdentifier_within n c s :
  within n s -> wp (ReadIdentifier c) (fun _ s' => within n s') s.
Proof.
  intros H. unfold ReadIdentifier. run_loop H identifier_loop_within. 
  apply wp_bind, wp_gets. cbn zeta.
  match goal with H : within _ ?s |- wp _ _ ?s => pose proof (ok_keywords _ (proj1 H)) as [Hkw _] end.
  destruct (Get_total ILLEGAL_TOKEN (StringBuilder.ToString x) _ Hkw) as [v ->].
  repeat within_step; within_done.
Qed.

Lemma ReadNumber_within n c s :
  never_fails A -> within n s -> wp (ReadNumber c) (fun _ s' => within n s') s.
Proof.
  intros HA H. unfold ReadNumber. do 6 within_step.
  run_loop H number_loop_within; [done|by apply StringBuilder.Append_char_first|].
  match goal with Hr : _ /\ _ |- _ => destruct Hr as [Hw Hb] end. destruct x as [st b]; cbn [snd] in Hb.
  destruct (StringBuilder.ToString_good b HA Hb) as [l Hl]. rewrite Hl. clear Hl.
  assert (Hdash : forall n, exists l, Str.append (mkString (Some (str "-"))) (Some n) = Some l).
  { intros n0. unfold Str.append, mkString, SharedBuffer_Alloc. cbn. rewrite HA.
    change (Z.of_nat 1 >? MAX_SIZE) with false. cbn [length].
    case_bool_decide; [eauto|]. repeat case_match; eauto. }
  do 4 within_step. change (mNumberString (set_mNumberString (Some l) s')) with (Some l).
  destruct st.
  3-4: repeat within_step; within_done.
  all: destruct (Str.Equals _ _) as [[]|]; [destruct (Hdash l) as [l' ->]| |];
    repeat (lazymatch goal with |- wp (gets mRadix) _ _ => fail | _ => within_step end);
    match goal with |- context [mNumberString ?st] =>
      let v := eval cbn in (mNumberString st) in change (mNumberString st) with v end;
    repeat within_step; within_done.
Qed.

Lemma ReadStringLiteral_within n c s :
  within n s -> wp (ReadStringLiteral c) (fun _ s' => within n s') s.
Proof.
  intros H. unfold ReadStringLiteral. run_loop H string_loop_within.
  repeat within_step; within_done.
Qed.

Lemma ReadCharacter_within n c s : within n s -> wp (ReadCharacter c) (fun _ s' => within n s') s.
Proof. intros H. unfold ReadCharacter. repeat within_step; within_done. Qed.

Lemma ReadLineComment_within n c s :
  within n s -> wp (ReadLineComment c) (fun _ s' => within n s') s.
Proof.
  intros H. unfold ReadLineComment. run_loop H line_comment_loop_within.
  repeat within_step; within_done.
Qed.

Lemma ReadBlockComment_within n c s :
  within n s -> wp (ReadBlockComment c) (fun _ s' => within n s') s.
Proof.
  intros H. unfold ReadBlockComment. run_loop H block_comment_loop_within.
  repeat within_step; within_done.
Qed.

(** A token takes at least one character, the end of the file none. *)
Definition progress (n : nat) (tok : Token) (s' : t) : Prop :=
  ok s' /\ mHasAPeek s' = false /\ (tok = END_OF_FILE \/ (length (remaining s') < n)%nat).

Lemma within_progress n m tok s' : within m s' -> (m < n)%nat -> progress n tok s'.
Proof. intros (? & ? & ?) ?. split_and!; [done|done|right; lia]. Qed.

Ltac progress_done :=
  match goal with
  | |- wp ?m _ ?s =>
    eapply wp_mono;
    [first [apply ReadIdentifier_within | apply ReadNumber_within | apply ReadStringLiteral_within
           | apply ReadCharacter_within]; eassumption
    |cbv beta; intros; eapply within_progress; [eassumption|lia]]
  | |- progress _ _ _ => eapply within_progress; [eassumption|lia]
  end.

Lemma starts_identifier_within n c (Q : bool -> t -> Prop) s :
  within n s -> (forall b s', within n s' -> Q b s') -> wp (starts_identifier c) Q s.
Proof. intros Hw HQ. unfold starts_identifier. repeat within_step; by apply HQ. Qed.

Lemma token_loop_progress n fuel sep s :
  never_fails A -> within n s -> (n < fuel)%nat -> wp (token_loop fuel sep) (progress n) s.
Proof.
  intros HA. revert n s. induction fuel as [|fuel IH]; intros n s Hw Hf; [lia|].
  cbn [token_loop]. apply wp_bind. apply (Read_within n); [done| |].
  { intros s' (? & ? & ?). change (-1 =? -1) with true. apply wp_ret. split_and!; auto. }
  intros c m s' -> Hw' Hu. destruct (c =? -1).
  { apply wp_ret. progress_done. }
  assert (Hloop : forall k s, within k s -> (k <= m)%nat -> wp (token_loop fuel sep) (progress (S m)) s).
  { intros k s1 H1 Hk. eapply wp_mono; [apply (IH k); [done|lia]|].
    intros tok s2 (? & ? & [?|?]); split_and!; auto. right. lia. }
  clear IH. do 2 within_step. destruct (IsEscape c); [by apply (Hloop m)|].
  unfold token_switch. apply wp_bind. eapply starts_identifier_within; [eassumption|]. intros ident s1 H1.
  repeat within_step; try progress_done; try (eapply Hloop; [eassumption|lia]).
  - eapply wp_mono; [apply ReadLineComment_within; eassumption|]. cbv beta. intros. eapply Hloop; [eassumption|lia].
  - eapply wp_mono; [apply ReadBlockComment_within; eassumption|]. cbv beta. intros. eapply Hloop; [eassumption|lia].
Qed.

Lemma ReadToken_progress sep s :
  never_fails A -> ok s -> mHasAPeek s = false ->
  wp (ReadToken sep) (progress (length (remaining s))) s.
Proof.
  intros HA Hok Hp. unfold ReadToken. apply wp_bind, wp_gets.
  apply token_loop_progress; [done| |unfold fuel_for; lia]. by split_and!.
Qed.

End Loops.

(** ** Standing before a known text *)
Definition before (l : list Z) (s : t) : Prop := ok s /\ mHasAPeek s = false /\ remaining s = l.

Lemma before_moved l l' s s' : before l s -> ok s' -> moved s s' -> remaining s' = l' -> before l' s'.
Proof. intros (_ & Hp & _) ? ? ?. split_and!; [done|by rewrite (moved_peek s)|done]. Qed.

Lemma before_fields l s s' :
  mFiles s' = mFiles s -> mKeywords s' = mKeywords s -> mHasAPeek s' = mHasAPeek s ->
  before l s -> before l s'.
Proof.
  intros Hf Hk Hpk [[Hfile Hkw] Hl]. unfold before, remaining in *. rewrite Hf, Hpk. split; [|done].
  split; [unfold open_file; by rewrite Hf|by rewrite Hk].
Qed.

Section Before.
Context {A : Allocator}.

Lemma Read_before c l (Q : Z -> t -> Prop) s :
  before (c :: l) s -> c <> -1 ->
  (forall s', before l s' -> moved s s' -> can_unread s' -> Q c s') -> wp Read Q s.
Proof.
  intros Hb Hc HQ. pose proof Hb as (Hok & _ & Hr). apply wp_Read; [done| |].
  - intros s' _ _ _ H. by rewrite Hr in H.
  - intros c' l' s' H1 _ H2 Hm H3 H4. rewrite Hr in H1. injection H1 as <- <-.
    apply HQ; [|done|done]. by apply (before_moved (c :: l) l s).
Qed.

Lemma Read_at_end (Q : Z -> t -> Prop) s :
  before [] s -> (forall s', before [] s' -> moved s s' -> Q (-1) s') -> wp Read Q s.
Proof.
  intros Hb HQ. pose proof Hb as (Hok & _ & Hr). apply wp_Read; [done| |].
  - intros s' H1 Hm H2 _. apply HQ; [|done]. apply (before_moved [] [] s); [done|done|done|by rewrite H2].
  - intros c' l' s' H1. by rewrite Hr in H1.
Qed.

Lemma Peek_before l (Q : Z -> t -> Prop) s :
  before l s ->
  (forall s', before l s' -> moved s s' -> Q (match l with [] => -1 | c :: _ => c end) s') ->
  wp Peek Q s.
Proof.
  intros Hb HQ. pose proof Hb as (Hok & _ & Hr). apply wp_Peek; [done|]. intros s' H1 Hm H2.
  rewrite Hr. apply HQ; [|done]. apply (before_moved l l s); [done|done|done|by rewrite H2].
Qed.

Lemma mark_before l (Q : unit -> t -> Prop) s :
  before l s -> can_unread s -> (forall s', before l s' -> Q tt s') -> wp mark_token Q s.
Proof.
  intros Hb Hu HQ. pose proof Hb as (Hok & _ & Hr). apply wp_mark_token; [done|done|].
  intros ln c s' H1 Hm H2 H3. apply HQ. apply (before_fields _ s'); [done|done|done|].
  apply (before_moved l l s); [done|done|done|by rewrite H2].
Qed.

Lemma Unread_before c l (Q : unit -> t -> Prop) s :
  before l s -> can_unread s -> (forall s', before (c :: l) s' -> moved s s' -> Q tt s') ->
  wp (Unread c) Q s.
Proof.
  intros Hb Hu HQ. pose proof Hb as (Hok & _ & Hr). apply wp_Unread; [done|done|].
  intros s' H1 Hm H2. apply HQ; [|done]. apply (before_moved l _ s); [done|done|done|by rewrite H2, Hr].
Qed.

End Before.

(** ** A tokenizer on a file *)
Section Files.
Context {A : Allocator}.

Lemma make_ok g :
  never_fails A ->
  exists s, make g = Some s /\ StringMap.inv (mKeywords s) /\
    StringMap.entries (mKeywords s) = keyword_map /\ mHasAPeek s = false.
Proof.
  intros HA. unfold make. destruct (StringMap.make (V := Token) 50) as [kw|] eqn:Hkw; [|done].
  destruct (StringMap.make_inv 50 kw HA Hkw) as [Hinv Habs].
  assert (StringMap.mDataSize kw = 0) as H0.
  { destruct Hinv as (_ & _ & _ & ->). by rewrite Habs, map_size_empty. }
  destruct (StringMap.put_all_inv ILLEGAL_TOKEN sKeywords kw HA Hinv) as (kw' & Hput & Hinv' & Habs'); [by rewrite H0|].
  cbn [mbind option_bind]. rewrite Hput. eexists. split_and!; [reflexivity|done| |done].
  change (StringMap.entries kw' = keyword_map). rewrite Habs', Habs. exact keywords_as_written.
Qed.

(** Constructs a tokenizer and opens [path] with it. *)
Definition start (fs : filesystem) (path : String) (g : Z * bool) : option t :=
  s ← make g;
  match PushInputFile fs path s with Some (true, s) => Some s | _ => None end.

Lemma start_before fs p fd g :
  never_fails A -> Str.IsNullOrEmpty (Some p) = false -> fs p = Some fd ->
  exists s, start fs (Some p) g = Some s /\ before (map i8 (s_rest fd)) s.
Proof.
  intros HA Hp Hfs. destruct (make_ok g HA) as (s & Hs & Hinv & Habs & Hpk).
  unfold start. rewrite Hs. cbn [mbind option_bind]. unfold PushInputFile. rewrite Hp, Hfs.
  eexists. split; [reflexivity|]. split_and!; [|done|apply open_pending].
  split; [|done]. eexists _, _. split; [reflexivity|apply open_wf].
Qed.

(** [GetToken] up to the end of the file. *)
Fixpoint tokens (fuel : nat) : SE t (list Token) :=
  match fuel with
  | O => undefined
  | S fuel =>
    tok <- GetToken ;;
    if bool_decide (tok = END_OF_FILE) then ret [tok]
    else toks <- tokens fuel ;; ret (tok :: toks)
  end.

Lemma GetToken_progress n s : never_fails A -> within n s -> wp GetToken (progress n) s.
Proof.
  intros HA (Hok & Hp & Hl). unfold GetToken, GetToken_sep, get_or. apply wp_bind, wp_gets. rewrite Hp.
  eapply wp_mono; [by apply ReadToken_progress|].
  intros tok s' (? & ? & [?|?]); split_and!; auto. right. lia.
Qed.

Lemma tokens_within n fuel s :
  never_fails A -> within n s -> (n < fuel)%nat ->
  wp (tokens fuel) (fun toks s' => ok s' /\ exists l, toks = l ++ [END_OF_FILE] /\ END_OF_FILE ∉ l) s.
Proof.
  intros HA. revert n s. induction fuel as [|fuel IH]; intros n s Hw Hf; [lia|]. cbn [tokens].
  apply wp_bind. eapply wp_mono; [by apply GetToken_progress|]. intros tok s' (Hok & Hp & Hcase).
  case_bool_decide as Htok.
  - apply wp_ret. split; [done|]. exists []. subst. split; [done|set_solver].
  - destruct Hcase as [|Hlt]; [done|]. apply wp_bind.
    eapply wp_mono; [apply (IH (length (remaining s'))); [by split_and!|lia]|].
    intros toks s'' (Hok' & l & -> & Hl). apply wp_ret. split; [done|]. exists (tok :: l).
    split; [done|set_solver].
Qed.

(** C1: whatever bytes a source file holds, the tokenizer opened on it gets
    through it in finitely many steps: the constructor and [PushInputFile]
    succeed, each [GetToken] is defined (its loops stop within the characters
    left and no null or stale object is touched), and after at most one token
    per byte it reports [END_OF_FILE]. *)
Theorem every_file_tokenizes fs p fd g :
  never_fails A -> Str.IsNullOrEmpty (Some p) = false -> fs p = Some fd ->
  exists s, start fs (Some p) g = Some s /\
    exists l s', tokens (S (length (s_rest fd))) s = Some (l ++ [END_OF_FILE], s') /\
      END_OF_FILE ∉ l.
Proof.
  intros HA Hp Hfs. destruct (start_before fs p fd g HA Hp Hfs) as (s & Hs & Hb).
  exists s. split; [done|].
  destruct (wp_run _ _ _ (tokens_within (length (s_rest fd)) (S (length (s_rest fd))) s HA
    ltac:(destruct Hb as (? & ? & Hr); split_and!; [done|done|by rewrite Hr, length_map])
    ltac:(lia))) as (toks & s' & Ht & _ & l & -> & Hl).
  by exists l, s'.
Qed.

End Files.

(** A file with an octal number, an unknown character and an open string. *)
Definition sample : stream := {| s_rest := str "x = 017 $ 'c"; s_fails := false |}.

Lemma every_file_tokenizes_witness :
  exists s, start (A := generous) (fun _ => Some sample) (Some (str "a.cdl")) (0, false) = Some s /\
    exists l s', tokens (A := generous) (S (length (s_rest sample))) s = Some (l ++ [END_OF_FILE], s') /\
      END_OF_FILE ∉ l.
Proof.
  exact (every_file_tokenizes (A := generous) (fun _ => Some sample) (str "a.cdl") sample (0, false)
    generous_never_fails eq_refl eq_refl).
Defined.

End TokenizerProofs.
