(* ===== verification/Lexemes.v ===== *)
(** * The lexical grammar of a CDL file

    The tokens a programmer writes, their spelling, and the gaps of blanks and
    comments between them; the tokenizer reads every such text back as the
    tokens it spells.  A gap starts with a blank, so that the tokenizer never
    has to put back a character it has looked past (see
    [File.Unread_after_Peek_at_block_end] for what happens when it does). *)
From S2P Require Import Prelude.
From S2P Require Import SourceFile.
From S2P Require Import CcdlString.
From S2P Require Import Buckets.
From S2P Require Import StringMap.
From S2P Require Import CNum.
From S2P Require Import Tokenizer.
From S2P Require Import TokenizerProofs.
Import File.
Import Tokenizer.
Import TokenizerProofs.

Module Lexemes.

(** ** The grammar *)

(** A letter, digit, underscore or dash of a word, or its separator [::]. *)
Inductive piece := Letter (c : Z) | Scope.

Inductive lexeme :=
  | Word (c : Z) (ps : list piece)   (* keyword or identifier *)
  | Int (n : Z) (ll : bool)          (* decimal integer, with the suffix LL *)
  | Lit (l : list Z)                 (* string literal *)
  | Chr (c : Z)                      (* character literal *)
  | Sym (k : Token).                 (* operator or punctuation *)

Definition word_char (c : Z) : bool :=
  IsAlphabet c || (c =? ch "_") || (c =? ch "-") || IsDecimalDigital c.

Definition piece_text (p : piece) : list Z :=
  match p with Letter c => [c] | Scope => str "::" end.

Definition word_text (c : Z) (ps : list piece) : list Z := c :: (ps ≫= piece_text).

Definition symbol_text (k : Token) : list Z :=
  match k with
  | AMPERSAND => str "&" | ANGLE_BRACKETS_OPEN => str "<" | ANGLE_BRACKETS_CLOSE => str ">"
  | ASSIGNMENT => str "=" | ASTERISK => str "*" | BRACES_OPEN => str "{" | BRACES_CLOSE => str "}"
  | BRACKETS_OPEN => str "[" | BRACKETS_CLOSE => str "]" | COLON => str ":" | COMMA => str ","
  | COMPLIMENT => str "~" | DIVIDE => str "/" | EXCLUSIVE_OR => str "^" | INCLUSIVE_OR => str "|"
  | MINUS => str "-" | MODULO => str "%" | NOT => str "!" | PARENTHESES_OPEN => str "("
  | PARENTHESES_CLOSE => str ")" | PERIOD => str "." | PLUS => str "+" | SEMICOLON => str ";"
  | SHIFT_LEFT => str "<<" | SHIFT_RIGHT => str ">>" | SHIFT_RIGHT_UNSIGNED => str ">>>"
  | _ => []
  end.

Definition spell (x : lexeme) : list Z :=
  match x with
  | Word c ps => word_text c ps
  | Int n ll => decimal n ++ (if ll then str "LL" else [])
  | Lit l => ch "034" :: l ++ [ch "034"]
  | Chr c => [ch "'"; c; ch "'"]
  | Sym k => symbol_text k
  end.

Definition valid (x : lexeme) : Prop :=
  match x with
  | Word c ps => (IsAlphabet c || (c =? ch "_")) = true /\
      Forall (fun p => match p with Letter c => word_char c = true | Scope => True end) ps /\
      Z.of_nat (length (word_text c ps)) < MAX_SIZE
  | Int n ll => 1 <= n <= LLONG_MAX
  | Lit l => l <> [] /\ Forall (fun c => c <> ch "034" /\ c <> 0 /\ c <> -1) l /\
      Z.of_nat (length l) < MAX_SIZE
  | Chr c => c <> -1
  | Sym k => symbol_text k <> []
  end.

(** What the tokenizer must report for the lexeme. *)
Definition means (x : lexeme) (tok : Token) (s : t) : Prop :=
  match x with
  | Word c ps =>
    match keyword_map !! word_text c ps with
    | Some k => tok = k
    | None => tok = IDENTIFIER /\ mIdentifier s = Some (word_text c ps)
    end
  | Int n ll => tok = NUMBER_INTEGRAL /\ mIntegralValue s = n /\ Is64Bit s = ll
  | Lit l => tok = STRING_LITERAL /\ mString s = Some l
  | Chr c => tok = CHARACTER /\ mCharacter s = c
  | Sym k => tok = k
  end.

(** Gaps between lexemes. *)
Inductive filler := Blank (c : Z) | LineComment (l : list Z) | BlockComment (l : list Z).

Definition filler_text (f : filler) : list Z :=
  match f with
  | Blank c => [c]
  | LineComment l => str "//" ++ l ++ [ch "010"]
  | BlockComment l => str "/*" ++ l ++ str "*/"
  end.

(** No star-slash inside the text, which is also not to follow the opening
    star: [ReadBlockComment] takes the opening star for a possible closing one. *)
Fixpoint no_close (l : list Z) : Prop :=
  match l with
  | [] => True
  | c :: l' => (c = ch "*" -> head l' <> Some (ch "/")) /\ no_close l'
  end.

Definition valid_filler (f : filler) : Prop :=
  match f with
  | Blank c => IsEscape c = true
  | LineComment l => Forall (fun c => c <> ch "010" /\ c <> -1) l
  | BlockComment l => no_close (ch "*" :: l) /\ Forall (fun c => c <> -1) l
  end.

Definition gap_text (g : list filler) : list Z := g ≫= filler_text.

(** The gap that follows a lexeme: a blank, then anything. *)
Definition gap := (Z * list filler)%type.
Definition valid_gap (g : gap) : Prop := IsEscape g.1 = true /\ Forall valid_filler g.2.

Definition text (xs : list (lexeme * gap)) : list Z :=
  xs ≫= (fun x => spell x.1 ++ x.2.1 :: gap_text x.2.2).

(** [GetToken] yields the lexemes one after another, then the end of file. *)
Fixpoint lexes {A : Allocator} (xs : list lexeme) (s : t) : Prop :=
  match xs with
  | [] => wp GetToken (fun tok _ => tok = END_OF_FILE) s
  | x :: xs => wp GetToken (fun tok s' => means x tok s' /\ lexes xs s') s
  end.

(** ** Reading a text *)
Section Reading.
Context {A : Allocator}.

(** The token loop started before [l] satisfies [Q]. *)
Definition reads (l : list Z) (Q : Token -> t -> Prop) : Prop :=
  forall fuel s, before l s -> (length l < fuel)%nat -> wp (token_loop fuel (-1)) Q s.

(** The loop's round on the character [c]. *)
Lemma reads_cons c l Q :
  c <> -1 -> IsEscape c = false ->
  (forall fuel s, before l s -> (length l < fuel)%nat -> can_unread s ->
     wp (token_switch (token_loop fuel (-1)) (-1) c) Q s) ->
  reads (c :: l) Q.
Proof.
  intros Hc He H fuel s Hb Hf. destruct fuel as [|fuel]; [lia|]. cbn [token_loop].
  apply wp_bind, (Read_before c l); [done|done|]. intros s1 H1 _ Hu.
  rewrite (proj2 (Z.eqb_neq c (-1)) Hc). apply wp_bind, wp_mark_token; [apply H1|done|].
  intros ln col s2 Hok Hm Hr Hu2. rewrite He. apply H; [|simpl in Hf; lia|done].
  apply (before_fields _ s2); [done|done|done|]. apply (before_moved l l s1); [done|done|done|].
  rewrite Hr. apply H1.
Qed.

Lemma IsEscape_readable c : IsEscape c = true -> c <> -1.
Proof.
  unfold IsEscape. change (ch " ") with 32. change (ch "010") with 10. change (ch "009") with 9.
  rewrite !orb_true_iff, !Z.eqb_eq. lia.
Qed.

Lemma reads_blank c l Q : IsEscape c = true -> reads l Q -> reads (c :: l) Q.
Proof.
  intros He Hl fuel s Hb Hf. destruct fuel as [|fuel]; [lia|]. cbn [token_loop].
  pose proof (IsEscape_readable c He) as Hc.
  apply wp_bind, (Read_before c l); [done|done|]. intros s1 H1 _ Hu.
  rewrite (proj2 (Z.eqb_neq c (-1)) Hc). apply wp_bind, (mark_before l); [done|done|].
  intros s2 H2. rewrite He. apply Hl; [done|simpl in Hf; lia].
Qed.

Lemma reads_end (Q : Token -> t -> Prop) : (forall s, before [] s -> Q END_OF_FILE s) -> reads [] Q.
Proof.
  intros HQ fuel s Hb Hf. destruct fuel as [|fuel]; [lia|]. cbn [token_loop].
  apply wp_bind, Read_at_end; [done|]. intros s1 H1 _. by apply wp_ret, HQ.
Qed.

(** Characters of the classes can be read. *)
Ltac chars :=
  repeat match goal with
  | |- context [ch ?a] => let v := eval vm_compute in (ch a) in change (ch a) with v
  | H : context [ch ?a] |- _ => let v := eval vm_compute in (ch a) in change (ch a) with v in H
  end.
Ltac classes :=
  unfold word_char, IsAlphabet, IsDecimalDigital, IsEscape in *; chars;
  rewrite ?orb_true_iff, ?andb_true_iff, ?orb_false_iff, ?andb_false_iff,
    ?Z.leb_le, ?Z.eqb_eq, ?Z.leb_gt, ?Z.eqb_neq in *; lia.

Lemma identifier_loop_before ps b w e l fuel (Q : StringBuilder.t -> t -> Prop) s :
  never_fails A -> StringBuilder.holds b w -> before ((ps ≫= piece_text) ++ e :: l) s ->
  IsEscape e = true ->
  Forall (fun p => match p with Letter c => word_char c = true | Scope => True end) ps ->
  Z.of_nat (length w + length (ps ≫= piece_text)) < MAX_SIZE ->
  (length ((ps ≫= piece_text) ++ e :: l) < fuel)%nat ->
  (forall b' s', StringBuilder.holds b' (w ++ (ps ≫= piece_text)) -> before l s' -> moved s s' -> Q b' s') ->
  wp (identifier_loop fuel b) Q s.
Proof.
  intros HA Hb Hs He Hps. revert b w fuel s Hb Hs.
  induction Hps as [|[c|] ps Hc Hps IH]; intros b w fuel s Hb Hs Hmax Hf HQ;
    (destruct fuel as [|fuel]; [lia|]); cbn [identifier_loop].
  - pose proof (IsEscape_readable e He) as Hr. apply wp_bind, (Read_before e l); [done|done|].
    intros s1 H1 Hm1 _. rewrite (proj2 (Z.eqb_neq e (-1)) Hr).
    assert (word_char e = false) as Hw by (destruct (word_char e) eqn:H; [exfalso; classes|done]).
    unfold word_char in Hw. rewrite Hw. unfold unread_unless_escape. rewrite He.
    destruct (Z.eqb_spec e (ch ":")) as [->|_]; [done|]. apply HQ; [|done|done].
    by rewrite app_nil_r.
  - cbn in Hs, Hmax, Hf. assert (c <> -1) as Hr by classes.
    apply wp_bind; eapply Read_before; [exact Hs|done|].
    intros s1 H1 Hm1 _. rewrite (proj2 (Z.eqb_neq c (-1)) Hr). unfold word_char in Hc. rewrite Hc.
    apply (IH (StringBuilder.Append_char c b) (w ++ [c])).
    + apply StringBuilder.holds_put; [done|done|lia].
    + done.
    + rewrite length_app. simpl. lia.
    + simpl in Hf. lia.
    + intros b' s' Hb' Hs' Hm'. rewrite <- app_assoc in Hb'. apply HQ; [done|done|].
      by eapply moved_trans.
  - cbn in Hs, Hmax, Hf.
    apply wp_bind; eapply Read_before; [exact Hs|done|]. intros s1 H1 Hm1 _.
    change (ch ":" =? -1) with false. change (word_char (ch ":")) with false.
    apply wp_bind; eapply Peek_before; [exact H1|]. intros s2 H2 Hm2. cbv beta iota.
    rewrite Z.eqb_refl. apply wp_bind; eapply Read_before; [exact H2|done|].
    intros s3 H3 Hm3 _. apply (IH (StringBuilder.Append (Some (str "::")) b) (w ++ str "::")).
    + apply StringBuilder.holds_append; [done|done|lia|repeat constructor; done].
    + done.
    + rewrite length_app. simpl. lia.
    + simpl in Hf. lia.
    + intros b' s' Hb' Hs' Hm'. rewrite <- app_assoc in Hb'. apply HQ; [done|done|].
      by do 3 (eapply moved_trans; [eassumption|]).
Qed.

Lemma keyword_map_legal w : keyword_map !! w <> Some ILLEGAL_TOKEN.
Proof.
  assert (map_Forall (fun _ k => k <> ILLEGAL_TOKEN) keyword_map) as H.
  { apply (bool_decide_unpack _). vm_compute. exact I. }
  intros Hw. by apply (H w ILLEGAL_TOKEN).
Qed.

Lemma word_text_chars c ps :
  (IsAlphabet c || (c =? ch "_")) = true ->
  Forall (fun p => match p with Letter c => word_char c = true | Scope => True end) ps ->
  Forall (fun c => c <> 0) (word_text c ps).
Proof.
  intros Hc Hps. constructor; [classes|]. induction Hps as [|[x|] ps Hx _ IH]; cbn.
  - constructor.
  - constructor; [classes|done].
  - repeat (constructor; [done|]). done.
Qed.

Lemma ReadIdentifier_before c ps e l (Q : Token -> t -> Prop) s :
  never_fails A -> valid (Word c ps) -> IsEscape e = true -> before ((ps ≫= piece_text) ++ e :: l) s ->
  (forall tok s', means (Word c ps) tok s' -> before l s' -> Q tok s') ->
  wp (ReadIdentifier c) Q s.
Proof.
  intros HA (Hc & Hps & Hmax) He Hs HQ. unfold ReadIdentifier. apply wp_bind, wp_gets, wp_bind.
  unfold word_text in Hmax. simpl in Hmax.
  apply (identifier_loop_before ps (StringBuilder.Append_char c StringBuilder.empty) [c] e l).
  2: exact (StringBuilder.holds_put c _ [] HA StringBuilder.holds_empty eq_refl).
  all: try done.
  { unfold fuel_for. rewrite (proj2 (proj2 Hs)). lia. }
  intros b s' Hb H' Hm. apply wp_bind, wp_gets. cbn zeta.
  rewrite (StringBuilder.holds_ToString b (word_text c ps)); [|done|done|done|unfold word_text; simpl; lia|].
  2: by apply word_text_chars.
  destruct (ok_keywords s' (proj1 H')) as [Hinv Habs]. unfold StringMap.Get.
  rewrite StringMap.find_spec, Habs, StringMap.canon_text by (done || by apply word_text_chars). cbn [mbind option_bind].
  destruct (keyword_map !! word_text c ps) as [k|] eqn:Hk; cbn.
  - case_bool_decide as Hi; [subst; by apply keyword_map_legal in Hk|].
    apply wp_ret, HQ; [|done]. unfold means. by rewrite Hk.
  - case_bool_decide; [|done]. apply wp_bind, wp_modify, wp_ret, HQ.
    + unfold means. by rewrite Hk.
    + by apply (before_fields _ s').
Qed.

(** ** Literals and comments *)

Lemma string_loop_before cs b w l fuel (Q : option StringBuilder.t -> t -> Prop) s :
  never_fails A -> StringBuilder.holds b w -> before (cs ++ ch "034" :: l) s ->
  Forall (fun c => c <> ch "034" /\ c <> 0 /\ c <> -1) cs ->
  Z.of_nat (length w + length cs) < MAX_SIZE -> (length (cs ++ ch "034" :: l) < fuel)%nat ->
  (forall b' s', StringBuilder.holds b' (w ++ cs) -> before l s' -> Q (Some b') s') ->
  wp (string_loop fuel b) Q s.
Proof.
  intros HA Hb Hs Hcs. revert b w fuel s Hb Hs.
  induction Hcs as [|c cs (Hq & _ & Hc) _ IH]; intros b w fuel s Hb Hs Hmax Hf HQ;
    (destruct fuel as [|fuel]; [lia|]); cbn [string_loop]; apply wp_bind;
    (eapply Read_before; [exact Hs|done|]); intros s1 H1 _ _.
  - apply HQ; [by rewrite app_nil_r|done].
  - rewrite (proj2 (Z.eqb_neq c _) Hc), (proj2 (Z.eqb_neq c _) Hq). cbn [negb].
    apply (IH (StringBuilder.Append_char c b) (w ++ [c])).
    + apply StringBuilder.holds_put; [done|done|simpl in Hmax; lia].
    + done.
    + rewrite length_app. simpl in *. lia.
    + simpl in Hf. lia.
    + intros b' s'. rewrite <- app_assoc. apply HQ.
Qed.

Lemma ReadStringLiteral_before c cs l (Q : Token -> t -> Prop) s :
  never_fails A -> valid (Lit cs) -> before (cs ++ ch "034" :: l) s ->
  (forall tok s', means (Lit cs) tok s' -> before l s' -> Q tok s') ->
  wp (ReadStringLiteral c) Q s.
Proof.
  intros HA (Hne & Hcs & Hmax) Hs HQ. unfold ReadStringLiteral. apply wp_bind, wp_gets, wp_bind.
  apply (string_loop_before cs StringBuilder.empty [] l); [done|apply StringBuilder.holds_empty|done..| |].
  { unfold fuel_for. rewrite (proj2 (proj2 Hs)). lia. }
  intros b s' Hb H'. cbn zeta.
  rewrite (StringBuilder.holds_ToString b cs); [|done|done|done|lia|].
  - apply wp_bind, wp_modify, wp_ret, HQ; [done|by apply (before_fields _ s')].
  - eapply Forall_impl; [exact Hcs|]. by intros x (_ & ? & _).
Qed.

Lemma ReadCharacter_before x c l (Q : Token -> t -> Prop) s :
  c <> -1 -> before (c :: ch "'" :: l) s ->
  (forall tok s', means (Chr c) tok s' -> before l s' -> Q tok s') ->
  wp (ReadCharacter x) Q s.
Proof.
  intros Hc Hs HQ. unfold ReadCharacter. apply wp_bind, (Read_before c (ch "'" :: l)); [done|done|].
  intros s1 H1 _ _. rewrite (proj2 (Z.eqb_neq c _) Hc). apply wp_bind, wp_modify, wp_bind.
  eapply Peek_before; [by apply (before_fields _ s1)|]. intros s2 H2 Hm2.
  rewrite Z.eqb_refl. cbn [negb]. apply wp_bind, (Read_before (ch "'") l); [done|done|].
  intros s3 H3 Hm3 _. apply wp_bind, wp_modify, wp_ret, HQ; [|by apply (before_fields _ s3)].
  split; [done|]. cbn [mCharacter set_mString]. unfold moved in *. by rewrite Hm3, Hm2.
Qed.

Lemma line_comment_before cs b l fuel (Q : StringBuilder.t -> t -> Prop) s :
  before (cs ++ ch "010" :: l) s -> Forall (fun c => c <> ch "010" /\ c <> -1) cs ->
  (length (cs ++ ch "010" :: l) < fuel)%nat -> (forall b' s', before l s' -> Q b' s') ->
  wp (line_comment_loop fuel b) Q s.
Proof.
  intros Hs Hcs. revert b fuel s Hs.
  induction Hcs as [|c cs (Hq & Hc) _ IH]; intros b fuel s Hs Hf HQ;
    (destruct fuel as [|fuel]; [lia|]); cbn [line_comment_loop]; apply wp_bind;
    (eapply Read_before; [exact Hs|done|]); intros s1 H1 _ _.
  - by apply HQ.
  - rewrite (proj2 (Z.eqb_neq c _) Hc), (proj2 (Z.eqb_neq c _) Hq). cbn [negb andb].
    apply IH; [done|simpl in Hf; lia|done].
Qed.

Lemma block_comment_before cs b l fuel (Q : StringBuilder.t -> t -> Prop) s :
  before (cs ++ str "*/" ++ l) s -> no_close cs -> Forall (fun c => c <> -1) cs ->
  (length (cs ++ str "*/" ++ l) < fuel)%nat -> (forall b' s', before l s' -> Q b' s') ->
  wp (block_comment_loop fuel b) Q s.
Proof.
  intros Hs Hn Hcs. revert b fuel s Hs Hn.
  induction Hcs as [|c cs Hc _ IH]; intros b fuel s Hs Hn Hf HQ;
    (destruct fuel as [|fuel]; [lia|]); cbn [block_comment_loop]; apply wp_bind;
    (eapply Read_before; [exact Hs|done|]); intros s1 H1 _ _.
  - change (ch "*" =? -1) with false. cbn zeta. rewrite Z.eqb_refl. apply wp_bind.
    eapply Peek_before; [exact H1|]. intros s2 H2 _. rewrite Z.eqb_refl. apply wp_bind.
    eapply Read_before; [exact H2|done|]. intros s3 H3 _ _. by apply wp_ret, HQ.
  - rewrite (proj2 (Z.eqb_neq c _) Hc). cbn zeta. destruct Hn as [Hstar Hn]. cbn [app length] in Hf.
    destruct (Z.eqb_spec c (ch "*")) as [->|_]; [|by apply IH; [| |lia|]].
    apply wp_bind. eapply Peek_before; [exact H1|]. intros s2 H2 _.
    match goal with |- context [?x =? ch "/"] => destruct (Z.eqb_spec x (ch "/")) as [Hx|_] end.
    { exfalso. specialize (Hstar eq_refl). destruct cs as [|x cs]; [done|].
      apply Hstar. cbn [head]. f_equal. exact Hx. }
    by apply IH; [| |lia|].
Qed.

(** ** Numbers *)

Definition number_end (ll : bool) (e : Z) (l : list Z) : list Z :=
  if ll then str "LL" ++ e :: l else e :: l.

Lemma escape_ends_number e : IsEscape e = true ->
  IsDecimalDigital e = false /\ (e =? ch ".") = false /\ (e =? ch "l") = false /\
  (e =? ch "L") = false /\ (e =? ch "e") = false /\ (e =? ch "E") = false.
Proof.
  intros He. assert (e = 32 \/ e = 10 \/ e = 9) as He' by classes.
  by destruct He' as [->|[->| ->]].
Qed.

Lemma number_loop_before ds b w ll e l fuel (Q : number_state * StringBuilder.t -> t -> Prop) s :
  never_fails A -> StringBuilder.holds b w -> before (ds ++ number_end ll e l) s -> mRadix s = 10 ->
  IsEscape e = true -> Forall (fun c => 48 <= c <= 57) ds ->
  Z.of_nat (length w + length ds) < MAX_SIZE -> (length (ds ++ number_end ll e l) < fuel)%nat ->
  (forall b' s', StringBuilder.holds b' (w ++ ds) -> mRadix s' = 10 ->
     before (if ll then e :: l else l) s' -> mBit s' = (if ll then 64 else mBit s) ->
     Q (NUMBER_INT, b') s') ->
  wp (number_loop fuel NUMBER_INT b) Q s.
Proof.
  intros HA Hb Hs Hrad He Hds. revert b w fuel s Hb Hs Hrad.
  induction Hds as [|c ds Hc Hds IH]; intros b w fuel s Hb Hs Hrad Hmax Hf HQ;
    (destruct fuel as [|fuel]; [lia|]); cbn [number_loop].
  - cbn [app] in Hs. unfold number_end in *. destruct ll.
    + apply wp_bind. eapply Read_before; [exact Hs|done|]. intros s1 H1 Hm1 _.
      change (ch "L" =? -1) with false. apply wp_bind, wp_gets.
      assert (mRadix s1 = 10) as -> by by rewrite Hm1.
      cbn -[Peek Read before]. apply wp_bind. eapply Peek_before; [exact H1|].
      intros s2 H2 Hm2. cbn -[Peek Read before]. apply wp_bind, wp_bind.
      eapply Read_before; [exact H2|done|]. intros s3 H3 Hm3 _. apply wp_modify, wp_ret, HQ.
      * by rewrite app_nil_r.
      * cbn. by rewrite Hm3, Hm2, Hm1.
      * by apply (before_fields _ s3).
      * done.
    + pose proof (IsEscape_readable e He) as Hr. apply wp_bind.
      eapply Read_before; [exact Hs|done|]. intros s1 H1 Hm1 _.
      rewrite (proj2 (Z.eqb_neq e (-1)) Hr). apply wp_bind, wp_gets.
      assert (mRadix s1 = 10) as -> by by rewrite Hm1.
      destruct (escape_ends_number e He) as (-> & -> & -> & -> & -> & ->).
      cbn [Z.eqb Pos.eqb andb orb]. unfold unread_unless_escape. rewrite He.
      apply wp_bind, wp_ret, wp_ret, HQ; [by rewrite app_nil_r|by rewrite Hm1|done|by rewrite Hm1].
  - assert (c <> -1) as Hr by lia.
    apply wp_bind. eapply Read_before; [exact Hs|done|]. intros s1 H1 Hm1 _.
    rewrite (proj2 (Z.eqb_neq c (-1)) Hr). apply wp_bind, wp_gets.
    assert (mRadix s1 = 10) as Hrad1 by by rewrite Hm1. rewrite Hrad1.
    assert (IsDecimalDigital c = true) as -> by classes. cbn [Z.eqb Pos.eqb andb orb].
    apply (IH (StringBuilder.Append_char c b) (w ++ [c])).
    + apply StringBuilder.holds_put; [done|done|simpl in Hmax; lia].
    + done.
    + done.
    + rewrite length_app. simpl in *. lia.
    + simpl in Hf. lia.
    + intros b' s' Hb' H' Hs' Hbit. rewrite <- app_assoc in Hb'. apply HQ; [done|done|done|].
      rewrite Hbit. destruct ll; [done|]. by rewrite Hm1.
Qed.

Lemma decimal_not_hex n : 1 <= n -> Str.Equals (Some (decimal n)) (Some (str "0x8000000000000000")) <> Some true.
Proof.
  intros Hn. unfold Str.Equals. case_match; [done|]. intros [= Heq].
  apply Z.eqb_eq, strcmp_0 in Heq. destruct (decimal_digits n) as (Hd & _); [lia|].
  rewrite (c_str_no_nul (decimal n)) in Heq by (eapply Forall_impl; [exact Hd|]; cbn; lia).
  change (c_str _) with (str "0x8000000000000000") in Heq. rewrite Heq in Hd.
  apply Forall_cons_1 in Hd as [_ Hd]. apply Forall_cons_1 in Hd as [[_ Hx] _]. by apply Hx.
Qed.

Lemma ReadNumber_before n c ds ll e l (Q : Token -> t -> Prop) s :
  never_fails A -> valid (Int n ll) -> decimal n = c :: ds -> IsEscape e = true ->
  before (ds ++ number_end ll e l) s ->
  (forall tok s', means (Int n ll) tok s' -> before (if ll then e :: l else l) s' -> Q tok s') ->
  wp (ReadNumber c) Q s.
Proof.
  intros HA Hn Hd He Hs HQ. cbn in Hn. pose proof (decimal_digits n ltac:(lia)) as (Hdig & _ & _).
  destruct (decimal_head n) as (c' & ds' & Hd' & Hc); [lia|]. rewrite Hd in Hd'. injection Hd' as <- <-.
  pose proof (decimal_length n Hn) as Hlen.
  unfold ReadNumber. cbn zeta. rewrite (proj2 (Z.eqb_neq c (ch "0"))) by (change (ch "0") with 48; lia).
  do 3 (apply wp_bind, wp_modify). apply wp_bind, wp_gets, wp_bind.
  rewrite Hd in Hdig, Hlen. simpl in Hlen.
  apply (number_loop_before ds (StringBuilder.Append_char c StringBuilder.empty) [c] ll e l); try done.
  - exact (StringBuilder.holds_put c _ [] HA StringBuilder.holds_empty eq_refl).
  - by apply (before_fields _ s).
  - by inversion Hdig.
  - unfold MAX_SIZE. simpl. lia.
  - unfold fuel_for. change (remaining _) with (remaining s). rewrite (proj2 (proj2 Hs)). lia.
  - intros b s' Hb Hrad H' Hbit. change ([c] ++ ds) with (c :: ds) in Hb. rewrite <- Hd in *.
    assert (Forall (fun x => x <> 0) (decimal n)) as Hz.
    { eapply Forall_impl; [exact Hdig|]. cbn. lia. }
    rewrite (StringBuilder.holds_ToString b (decimal n) HA Hb); [|by rewrite Hd|rewrite Hd; unfold MAX_SIZE; simpl; lia|done].
    apply wp_bind, wp_modify, wp_bind, wp_gets.
    change (mNumberString (set_mNumberString (Some (decimal n)) s')) with (Some (decimal n)).
    pose proof (decimal_not_hex n ltac:(lia)) as Hneq. cbv beta iota. apply wp_bind.
    destruct (Str.Equals _ _) as [[]|]; [done| |]; apply wp_ret, wp_bind, wp_gets, wp_bind, wp_gets;
      change (mNumberString (set_mNumberString (Some (decimal n)) s')) with (Some (decimal n));
      change (mRadix (set_mNumberString (Some (decimal n)) s')) with (mRadix s');
      rewrite Hrad, c_str_no_nul, strtoll_decimal by done;
      (apply wp_bind, wp_modify, wp_ret, HQ; [|by apply (before_fields _ s')]);
      (split_and!; [done|done|]); unfold Is64Bit; cbn; rewrite Hbit; by destruct ll.
Qed.

(** ** The loop on a lexeme *)

Lemma starts_identifier_yes c (Q : bool -> t -> Prop) s :
  (IsAlphabet c || (c =? ch "_")) = true -> Q true s -> wp (starts_identifier c) Q s.
Proof. intros Hc HQ. unfold starts_identifier. rewrite Hc. by apply wp_ret. Qed.

Lemma starts_identifier_no c (Q : bool -> t -> Prop) s :
  (IsAlphabet c || (c =? ch "_")) = false -> c <> ch "-" -> Q false s -> wp (starts_identifier c) Q s.
Proof.
  intros Hc Hd HQ. unfold starts_identifier. rewrite Hc, (proj2 (Z.eqb_neq c _) Hd). by apply wp_ret.
Qed.

Lemma reads_word c ps e l (Q : Token -> t -> Prop) :
  never_fails A -> valid (Word c ps) -> IsEscape e = true ->
  (forall tok s', means (Word c ps) tok s' -> before l s' -> Q tok s') ->
  reads (spell (Word c ps) ++ e :: l) Q.
Proof.
  intros HA Hv He HQ. pose proof Hv as (Hc & _ & _). cbn [spell]. unfold word_text.
  apply reads_cons; [classes| |].
  { destruct (IsEscape c) eqn:H; [exfalso; classes|done]. }
  intros fuel s Hs _ _. apply wp_bind, starts_identifier_yes; [done|].
  by apply (ReadIdentifier_before c ps e l).
Qed.

Lemma digit_class c : 49 <= c <= 57 ->
  IsEscape c = false /\ (IsAlphabet c || (c =? ch "_")) = false /\ c <> ch "-" /\ IsDecimalDigital c = true.
Proof.
  intros Hc. split_and!.
  - destruct (IsEscape c) eqn:H; [exfalso; classes|done].
  - destruct (_ || _) eqn:H; [exfalso; classes|done].
  - chars. lia.
  - classes.
Qed.

Lemma reads_int n ll e l (Q : Token -> t -> Prop) :
  never_fails A -> valid (Int n ll) -> IsEscape e = true ->
  (forall tok s', means (Int n ll) tok s' -> before (if ll then e :: l else l) s' -> Q tok s') ->
  reads (spell (Int n ll) ++ e :: l) Q.
Proof.
  intros HA Hv He HQ. destruct (decimal_head n) as (c & ds & Hd & Hc); [apply Hv|].
  destruct (digit_class c Hc) as (H1 & H2 & H3 & H4).
  assert (spell (Int n ll) ++ e :: l = c :: ds ++ number_end ll e l) as ->.
  { cbn [spell]. rewrite Hd, <- app_assoc. by destruct ll. }
  apply reads_cons; [lia|done|]. intros fuel s Hs _ _.
  apply wp_bind, starts_identifier_no; [done|done|]. rewrite H4.
  by apply (ReadNumber_before n c ds ll e l).
Qed.

Lemma reads_lit cs l (Q : Token -> t -> Prop) :
  never_fails A -> valid (Lit cs) ->
  (forall tok s', means (Lit cs) tok s' -> before l s' -> Q tok s') ->
  reads (spell (Lit cs) ++ l) Q.
Proof.
  intros HA Hv HQ. cbn [spell]. cbn [app]. rewrite <- app_assoc. apply reads_cons; [done|done|].
  intros fuel s Hs _ _. apply wp_bind, starts_identifier_no; [done|done|].
  by apply (ReadStringLiteral_before _ cs l).
Qed.

Lemma reads_chr c l (Q : Token -> t -> Prop) :
  valid (Chr c) -> (forall tok s', means (Chr c) tok s' -> before l s' -> Q tok s') ->
  reads (spell (Chr c) ++ l) Q.
Proof.
  intros Hv HQ. cbn [spell app]. apply reads_cons; [done|done|].
  intros fuel s Hs _ _. apply wp_bind, starts_identifier_no; [done|done|].
  by apply (ReadCharacter_before _ c l).
Qed.

(** The symbols the switch decides without a look ahead. *)
Definition plain (k : Token) : bool :=
  match k with
  | ANGLE_BRACKETS_OPEN | ANGLE_BRACKETS_CLOSE | DIVIDE | MINUS
  | SHIFT_LEFT | SHIFT_RIGHT | SHIFT_RIGHT_UNSIGNED => false
  | _ => true
  end.

Lemma plain_symbol k : plain k = true -> valid (Sym k) ->
  exists c, symbol_text k = [c] /\ c <> -1 /\ IsEscape c = false /\
    forall again s, token_switch again (-1) c s = Some (k, s).
Proof. intros Hp Hv. cbn in Hv. destruct k; try done; by eexists; split_and!. Qed.

(** Runs the switch on known characters. *)
Ltac switch_step :=
  lazymatch goal with
  | |- wp (bind _ _) _ _ => apply wp_bind
  | |- wp (ret _) _ _ => apply wp_ret
  | H : before _ ?s |- wp Peek _ ?s => eapply Peek_before; [exact H|]; clear H; intros
  | H : before (_ :: _) ?s |- wp Read _ ?s => eapply Read_before; [exact H|done|]; clear H; intros
  | |- wp (starts_identifier _) _ _ => unfold starts_identifier
  | |- wp (token_switch _ _ _) _ _ => unfold token_switch
  | |- wp (if ?b then _ else _) _ _ =>
    let v := eval vm_compute in b in change b with v; cbv iota
  end.

Lemma reads_sym k e l (Q : Token -> t -> Prop) :
  valid (Sym k) -> IsEscape e = true ->
  (forall tok s', means (Sym k) tok s' -> before (e :: l) s' -> Q tok s') ->
  reads (spell (Sym k) ++ e :: l) Q.
Proof.
  intros Hv He HQ. destruct (plain k) eqn:Hp.
  - destruct (plain_symbol k Hp Hv) as (c & Hc & H1 & H2 & H3). cbn [spell]. rewrite Hc.
    apply reads_cons; [done|done|]. intros fuel s Hs _ _. unfold wp. rewrite H3. by apply HQ.
  - assert (e = 32 \/ e = 10 \/ e = 9) as He' by classes.
    destruct k; try done; cbn [spell symbol_text]; (apply reads_cons; [done|done|]);
      intros fuel s Hs _ _; destruct He' as [->|[->| ->]]; repeat switch_step; by apply HQ.
Qed.

Lemma reads_filler f l (Q : Token -> t -> Prop) :
  valid_filler f -> reads l Q -> reads (filler_text f ++ l) Q.
Proof.
  intros Hf Hl. destruct f as [c|cs|cs]; [by apply reads_blank| |].
  - change (reads (ch "/" :: ch "/" :: (cs ++ [ch "010"]) ++ l) Q). rewrite <- app_assoc.
    apply reads_cons; [done|done|]. intros fuel s Hs Hfuel _. repeat switch_step.
    unfold ReadLineComment. apply wp_bind, wp_gets, wp_bind.
    apply (line_comment_before (ch "/" :: cs) _ l); [done|by constructor|unfold fuel_for|].
    { match goal with H : before _ ?s |- context [remaining ?s] => rewrite (proj2 (proj2 H)) end.
      cbn [app length]. lia. }
    intros b s_end H'. apply wp_bind, wp_modify, wp_ret, Hl; [by apply (before_fields _ s_end)|].
    cbn [length app] in Hfuel. rewrite !length_app in Hfuel. simpl in Hfuel. lia.
  - change (reads (ch "/" :: ch "*" :: (cs ++ str "*/") ++ l) Q). rewrite <- app_assoc.
    apply reads_cons; [done|done|]. intros fuel s Hs Hfuel _. repeat switch_step.
    unfold ReadBlockComment. apply wp_bind, wp_gets, wp_bind. destruct Hf as [Hn Hf].
    apply (block_comment_before (ch "*" :: cs) _ l); [done|done|by constructor|unfold fuel_for|].
    { match goal with H : before _ ?s |- context [remaining ?s] => rewrite (proj2 (proj2 H)) end.
      cbn [app length]. lia. }
    intros b s_end H'. apply wp_bind, wp_modify, wp_ret, Hl; [by apply (before_fields _ s_end)|].
    cbn [length app] in Hfuel. rewrite !length_app in Hfuel. simpl in Hfuel. lia.
Qed.

Lemma reads_gap g l (Q : Token -> t -> Prop) :
  Forall valid_filler g -> reads l Q -> reads (gap_text g ++ l) Q.
Proof.
  intros Hg Hl. induction Hg as [|f g Hf _ IH]; [done|].
  unfold gap_text in *. cbn. rewrite <- app_assoc. by apply reads_filler.
Qed.

Lemma reads_lexeme x e l (Q : Token -> t -> Prop) :
  never_fails A -> valid x -> IsEscape e = true ->
  (forall tok s', means x tok s' -> before l s' \/ before (e :: l) s' -> Q tok s') ->
  reads (spell x ++ e :: l) Q.
Proof.
  intros HA Hx He HQ. destruct x as [c ps|n ll|cs|c|k].
  - apply (reads_word c ps e l Q HA Hx He). intros. apply HQ; [assumption|by left].
  - apply (reads_int n ll e l Q HA Hx He). intros. apply HQ; [assumption|]. destruct ll; [by right|by left].
  - apply (reads_lit cs (e :: l) Q HA Hx). intros. apply HQ; [assumption|by right].
  - apply (reads_chr c (e :: l) Q Hx). intros. apply HQ; [assumption|by right].
  - apply (reads_sym k e l Q Hx He). intros. apply HQ; [assumption|by right].
Qed.

Lemma GetToken_reads l (Q : Token -> t -> Prop) s : before l s -> reads l Q -> wp GetToken Q s.
Proof.
  intros Hs HQ. unfold GetToken, GetToken_sep, get_or. apply wp_bind, wp_gets.
  rewrite (proj1 (proj2 Hs)). unfold ReadToken. apply wp_bind, wp_gets, HQ; [done|].
  unfold fuel_for. rewrite (proj2 (proj2 Hs)). lia.
Qed.

Lemma lexes_text g xs s :
  never_fails A -> Forall valid_filler g -> Forall (fun x => valid x.1 /\ valid_gap x.2) xs ->
  before (gap_text g ++ text xs) s -> lexes (fst <$> xs) s.
Proof.
  intros HA Hg Hxs. revert g s Hg. induction Hxs as [|[x [e g']] xs [Hx [He Hg']] _ IH];
    intros g s Hg Hs; cbn [fmap list_fmap lexes fst].
  - apply (GetToken_reads _ _ s Hs), reads_gap; [done|]. by apply reads_end.
  - apply (GetToken_reads _ _ s Hs), reads_gap; [done|].
    unfold text. cbn. rewrite <- app_assoc. cbn [app]. apply reads_lexeme; [done|done|done|].
    cbn [fst snd] in *.
    intros tok s' Hm [H|H]; (split; [done|]).
    + by apply (IH g').
    + apply (IH (Blank e :: g')); [by constructor|]. done.
Qed.

(** ** UUIDs *)

Definition hex_digits (n : nat) (l : list Z) : Prop :=
  length l = n /\ Forall (fun c => IsHexDigital c = true) l.

Lemma hex_char c : IsHexDigital c = true -> c <> -1 /\ c <> ch "-" /\ c <> 0.
Proof.
  unfold IsHexDigital. chars. rewrite !orb_true_iff, !andb_true_iff, !Z.leb_le. lia.
Qed.

Lemma uuid_digit_step st i b c l fuel (Q : Token -> t -> Prop) s :
  before (c :: l) s -> IsHexDigital c = true -> i + 1 <= uuid_digits st ->
  (forall s', before l s' -> wp (uuid_loop fuel st (i + 1) (StringBuilder.Append_char c b)) Q s') ->
  wp (uuid_loop (S fuel) st i b) Q s.
Proof.
  intros Hs Hc Hi HQ. destruct (hex_char c Hc) as (H1 & H2 & _). cbn [uuid_loop].
  apply wp_bind. eapply Read_before; [exact Hs|done|]. intros s1 Hs1 _ Hu.
  rewrite (proj2 (Z.eqb_neq c (-1)) H1), (proj2 (Z.eqb_neq c _) H2), Hc. cbn zeta.
  assert ((i + 1 >? uuid_digits st) = false) as -> by (rewrite Z.gtb_ltb; apply Z.ltb_ge; lia).
  apply wp_bind. destruct st; cbn [uuid_next]; try (apply wp_ret; by apply HQ).
  destruct (i + 1 =? 1); [|apply wp_ret; by apply HQ].
  apply (mark_before l); [done|done|]. intros s2 Hs2. by apply HQ.
Qed.

(** The digits of one segment, from the [i]-th on. *)
Lemma uuid_digits_before st hs i b w l fuel (Q : Token -> t -> Prop) s :
  never_fails A -> StringBuilder.holds b w -> before (hs ++ l) s ->
  Forall (fun c => IsHexDigital c = true) hs -> i + Z.of_nat (length hs) <= uuid_digits st ->
  Z.of_nat (length w) + Z.of_nat (length hs) < MAX_SIZE -> (length (hs ++ l) < fuel)%nat ->
  (forall b' s' fuel', StringBuilder.holds b' (w ++ hs) -> before l s' -> (length l < fuel')%nat ->
     wp (uuid_loop fuel' st (i + Z.of_nat (length hs)) b') Q s') ->
  wp (uuid_loop fuel st i b) Q s.
Proof.
  intros HA Hb Hs Hhs. revert i b w fuel s Hb Hs.
  induction Hhs as [|c hs Hc _ IH]; intros i b w fuel s Hb Hs Hd Hmax Hf HQ.
  - specialize (HQ b s fuel). rewrite app_nil_r, Z.add_0_r in HQ. by apply HQ.
  - destruct fuel as [|fuel]; [lia|]. cbn [length app] in *.
    apply (uuid_digit_step st i b c (hs ++ l)); [done|done|lia|]. intros s1 Hs1.
    apply (IH (i + 1) (StringBuilder.Append_char c b) (w ++ [c])).
    + apply StringBuilder.holds_put; [done|done|lia].
    + done.
    + lia.
    + rewrite length_app. simpl. lia.
    + lia.
    + intros b' s' fuel'. rewrite <- app_assoc.
      replace (i + 1 + Z.of_nat (length hs)) with (i + Z.of_nat (S (length hs))) by lia. apply HQ.
Qed.

(** A whole segment and its dash. *)
Lemma uuid_segment_before st next hs b w l fuel (Q : Token -> t -> Prop) s :
  never_fails A -> uuid_next st = Some next -> hex_digits (Z.to_nat (uuid_digits st)) hs ->
  StringBuilder.holds b w -> before (hs ++ ch "-" :: l) s ->
  Z.of_nat (length w) <= 100 -> (length (hs ++ ch "-" :: l) < fuel)%nat ->
  (forall b' s' fuel', StringBuilder.holds b' (w ++ hs ++ str "-") -> before l s' ->
     (length l < fuel')%nat -> wp (uuid_loop fuel' next 0 b') Q s') ->
  wp (uuid_loop fuel st 0 b) Q s.
Proof.
  intros HA Hnext [Hlen Hhs] Hb Hs Hw Hf HQ.
  assert (0 < uuid_digits st <= 12) as Hd by by destruct st.
  apply (uuid_digits_before st hs 0 b w (ch "-" :: l)); try done; try (unfold MAX_SIZE; lia).
  intros b' s' fuel' Hb' Hs' Hf'. destruct fuel' as [|fuel']; [lia|]. cbn [uuid_loop].
  apply wp_bind. eapply Read_before; [exact Hs'|done|]. intros s1 Hs1 _ Hu.
  change (ch "-" =? -1) with false. cbn zeta. apply wp_bind.
  assert (0 + Z.of_nat (length hs) + 1 = uuid_digits st + 1) as -> by lia.
  rewrite Hnext, !Z.eqb_refl.
  assert (wp (uuid_loop fuel' next 0 (StringBuilder.Append_char (ch "-") b')) Q s1) as Hgo.
  { apply HQ; [|done|simpl in Hf'; lia]. rewrite app_assoc. apply StringBuilder.holds_put; [done|done|].
    rewrite length_app. unfold MAX_SIZE. lia. }
  destruct st; apply wp_ret; exact Hgo.
Qed.

Definition uuid_text (h1 h2 h3 h4 h5 : list Z) : list Z :=
  h1 ++ str "-" ++ h2 ++ str "-" ++ h3 ++ str "-" ++ h4 ++ str "-" ++ h5.

Lemma uuid_before h1 h2 h3 h4 h5 e l (Q : Token -> t -> Prop) s :
  never_fails A ->
  hex_digits 8 h1 -> hex_digits 4 h2 -> hex_digits 4 h3 -> hex_digits 4 h4 -> hex_digits 12 h5 ->
  IsHexDigital e = false -> e <> -1 -> before (uuid_text h1 h2 h3 h4 h5 ++ e :: l) s ->
  (forall s', before (e :: l) s' -> mString s' = Some (uuid_text h1 h2 h3 h4 h5) -> Q UUID_NUMBER s') ->
  wp GetUuidNumberToken Q s.
Proof.
  intros HA H1 H2 H3 H4 H5 He Hne Hs HQ.
  unfold GetUuidNumberToken, get_or. apply wp_bind, wp_gets. rewrite (proj1 (proj2 Hs)).
  unfold ReadUuidNumberToken. apply wp_bind, wp_gets. unfold fuel_for. rewrite (proj2 (proj2 Hs)).
  unfold uuid_text in Hs. rewrite <- !app_assoc in Hs.
  pose proof (proj1 H1). pose proof (proj1 H2). pose proof (proj1 H3). pose proof (proj1 H4).
  pose proof (proj1 H5).
  eapply (uuid_segment_before SEGMENT_1); [done|done|exact H1|apply StringBuilder.holds_empty|exact Hs|simpl; lia
    |unfold uuid_text; rewrite <- !app_assoc; apply Nat.lt_succ_diag_r|].
  intros b1 s1 f1 Hb1 Hs1 Hf1.
  eapply (uuid_segment_before SEGMENT_2); [done|done|exact H2|exact Hb1|exact Hs1|rewrite !length_app; simpl; lia|exact Hf1|].
  intros b2 s2 f2 Hb2 Hs2 Hf2.
  eapply (uuid_segment_before SEGMENT_3); [done|done|exact H3|exact Hb2|exact Hs2|rewrite !length_app; simpl; lia|exact Hf2|].
  intros b3 s3 f3 Hb3 Hs3 Hf3.
  eapply (uuid_segment_before SEGMENT_4); [done|done|exact H4|exact Hb3|exact Hs3|rewrite !length_app; simpl; lia|exact Hf3|].
  intros b4 s4 f4 Hb4 Hs4 Hf4.
  eapply (uuid_digits_before SEGMENT_5 h5 0 b4); [done|exact Hb4|exact Hs4|apply H5|simpl; lia
    |rewrite !length_app; unfold MAX_SIZE; simpl; lia|exact Hf4|].
  intros b5 s5 f5 Hb5 Hs5 Hf5. destruct f5 as [|f5]; [lia|]. cbn [uuid_loop].
  apply wp_bind. eapply Read_before; [exact Hs5|done|]. intros s6 Hs6 _ Hu.
  rewrite (proj2 (Z.eqb_neq e (-1)) Hne), He. cbn zeta. cbn [uuid_next].
  apply wp_bind, wp_ret, wp_bind. apply (Unread_before e l); [done|done|]. intros s7 Hs7 _.
  assert ((0 + Z.of_nat (length h5) + 1 >=? 13) = true) as -> by (rewrite Z.geb_leb; apply Z.leb_le; lia).
  apply wp_bind, wp_modify, wp_ret, HQ; [by apply (before_fields _ s7)|]. cbn [mString set_mString].
  assert (forall n hs, hex_digits n hs -> Forall (fun c => c <> 0) hs) as Hz.
  { intros n hs [_ Hhs]. eapply Forall_impl; [exact Hhs|]. cbn. intros c Hc. by apply hex_char. }
  rewrite <- !app_assoc in Hb5. apply (StringBuilder.holds_ToString _ _ HA Hb5).
  - intros Hnil. apply (f_equal length) in Hnil. rewrite !length_app in Hnil. simpl in Hnil. lia.
  - unfold MAX_SIZE. rewrite !length_app. simpl. lia.
  - cbn [app]. rewrite !Forall_app. split_and!; eauto; by repeat constructor.
Qed.


(** ** The properties *)

(** C2: printing and tokenizing are inverse on plain texts. A file that spells
    keywords, identifiers, decimal integers from 1 to the greatest Long, string
    literals that are not empty, character literals and operators, each followed
    by a blank and then any blanks, line comments and block comments that do not
    open with slash-star-slash, is read as exactly that sequence: [GetToken]
    returns each token with its identifier, value, width, string or character,
    and then [END_OF_FILE]. Constants that begin with 0 are not among them
    ([octal_constants_are_cut]), nor are the comments
    [slash_star_slash_is_a_comment] is about. *)
Theorem text_reads_back fs p fd g lead xs :
  never_fails A -> Str.IsNullOrEmpty (Some p) = false -> fs p = Some fd ->
  map i8 (s_rest fd) = gap_text lead ++ text xs ->
  Forall valid_filler lead -> Forall (fun x => valid x.1 /\ valid_gap x.2) xs ->
  exists s, start fs (Some p) g = Some s /\ lexes (fst <$> xs) s.
Proof.
  intros HA Hp Hfs Htext Hlead Hxs. destruct (start_before fs p fd g HA Hp Hfs) as (s & Hs & Hb).
  exists s. split; [done|]. rewrite Htext in Hb. by apply (lexes_text lead xs).
Qed.

(** a UUID in its 8-4-4-4-12 form, followed by any character that is no
    hexadecimal digit, is accepted whole by [GetUuidNumberToken], which leaves
    the following character to be read. *)
Theorem uuid_accepted h1 h2 h3 h4 h5 e l s :
  never_fails A ->
  hex_digits 8 h1 -> hex_digits 4 h2 -> hex_digits 4 h3 -> hex_digits 4 h4 -> hex_digits 12 h5 ->
  IsHexDigital e = false -> e <> -1 -> before (uuid_text h1 h2 h3 h4 h5 ++ e :: l) s ->
  exists s', GetUuidNumberToken s = Some (UUID_NUMBER, s') /\
    mString s' = Some (uuid_text h1 h2 h3 h4 h5) /\ remaining s' = e :: l.
Proof.
  intros HA H1 H2 H3 H4 H5 He Hne Hs.
  destruct (wp_run _ _ _ (uuid_before h1 h2 h3 h4 h5 e l
    (fun tok s' => tok = UUID_NUMBER /\ mString s' = Some (uuid_text h1 h2 h3 h4 h5) /\ remaining s' = e :: l)
    s HA H1 H2 H3 H4 H5 He Hne Hs
    ltac:(intros s' (_ & _ & Hr) Hm; by split_and!))) as (tok & s' & Hrun & -> & Hm & Hr).
  by exists s'.
Qed.

(** [ReadBlockComment] takes the star that opens a comment for the one that
    may close it, so slash-star-slash is a whole comment: whatever follows it
    is read as program text. *)
Theorem slash_star_slash_is_a_comment l Q : reads l Q -> reads (str "/*/" ++ l) Q.
Proof.
  intros Hl. change (reads (ch "/" :: ch "*" :: ch "/" :: l) Q).
  apply reads_cons; [done|done|]. intros fuel s Hs Hfuel _. repeat switch_step.
  unfold ReadBlockComment. apply wp_bind, wp_gets, wp_bind.
  apply (block_comment_before [] _ l); [done|done|done|unfold fuel_for|].
  { match goal with H : before _ ?s |- context [remaining ?s] => rewrite (proj2 (proj2 H)) end.
    simpl. lia. }
  intros b s_end H'. apply wp_bind, wp_modify, wp_ret, Hl; [by apply (before_fields _ s_end)|].
  simpl in Hfuel. lia.
Qed.

End Reading.

(** *** Witnesses *)

Definition words_of_a_file : list (lexeme * gap) :=
  [(Word (ch "m") (Letter <$> str "odule"), (ch " ", []));
   (Word (ch "c") ((Letter <$> str "cm") ++ Scope :: (Letter <$> str "core")), (ch "010", [LineComment (str " core")]));
   (Sym BRACES_OPEN, (ch " ", [BlockComment (str " a * b ")]));
   (Int 42 true, (ch "009", []));
   (Lit (str "text"), (ch " ", []));
   (Chr (ch "x"), (ch " ", []));
   (Sym SHIFT_RIGHT_UNSIGNED, (ch " ", []))].

Definition file_of (l : list Z) : stream := {| s_rest := map u8 l; s_fails := false |}.

Definition one_file (fd : stream) : filesystem := fun _ => Some fd.

Lemma text_reads_back_witness :
  exists s, start (A := generous) (one_file (file_of (text words_of_a_file))) (Some (str "a.cdl")) (0, false) = Some s /\
    lexes (A := generous) (fst <$> words_of_a_file) s.
Proof.
  apply (text_reads_back (A := generous) (one_file (file_of (text words_of_a_file))) (str "a.cdl")
    (file_of (text words_of_a_file)) (0, false) [] words_of_a_file generous_never_fails eq_refl eq_refl).
  - vm_compute. reflexivity.
  - constructor.
  - repeat constructor; cbn; repeat constructor; try discriminate; try lia; try (intros; discriminate).
Defined.

Lemma uuid_accepted_witness :
  exists s, start (A := generous) (one_file (file_of (str "0123abcd-0f1e-2d3c-4b5a-68796a7bcdef)"))) (Some (str "u")) (0, false) = Some s /\
    exists s', GetUuidNumberToken (A := generous) s = Some (UUID_NUMBER, s') /\
      mString s' = Some (uuid_text (str "0123abcd") (str "0f1e") (str "2d3c") (str "4b5a") (str "68796a7bcdef")) /\
      remaining s' = [ch ")"].
Proof.
  destruct (start_before (A := generous) (one_file (file_of (str "0123abcd-0f1e-2d3c-4b5a-68796a7bcdef)")))
    (str "u") (file_of (str "0123abcd-0f1e-2d3c-4b5a-68796a7bcdef)")) (0, false)
    generous_never_fails eq_refl eq_refl) as (s & Hs & Hb).
  exists s. split; [exact Hs|].
  apply (uuid_accepted (A := generous) (str "0123abcd") (str "0f1e") (str "2d3c") (str "4b5a")
    (str "68796a7bcdef") (ch ")") [] s generous_never_fails); try (split; [reflexivity|repeat constructor]).
  - reflexivity.
  - discriminate.
  - exact Hb.
Defined.

Lemma slash_star_slash_is_a_comment_witness :
  reads (A := generous) (str "/*/" ++ str "x */") (fun tok s => tok = IDENTIFIER).
Proof.
  apply (slash_star_slash_is_a_comment (A := generous) (str "x */")).
  apply (reads_word (A := generous) (ch "x") [] (ch " ") (str "*/")).
  - exact generous_never_fails.
  - split; [reflexivity|]. split; [constructor|reflexivity].
  - reflexivity.
  - intros tok s' Hm _. unfold means in Hm.
    assert (keyword_map !! word_text (ch "x") [] = None) as Hx by (vm_compute; reflexivity).
    rewrite Hx in Hm. exact (proj1 Hm).
Defined.

(** ** Spellings the tokenizer does not read back *)

(** The kinds and integer values of the tokens of a file. *)
Fixpoint integers (fuel : nat) : SE t (list (Token * Z)) :=
  match fuel with
  | O => undefined
  | S fuel =>
    tok <- GetToken (A := generous) ;;
    v <- gets mIntegralValue ;;
    if bool_decide (tok = END_OF_FILE) then ret []
    else l <- integers fuel ;; ret ((tok, v) :: l)
  end.

Definition integers_of (l : list Z) : option (list (Token * Z)) :=
  s ← start (A := generous) (one_file (file_of l)) (Some (str "a.cdl")) (0, false);
  fst <$> integers (S (length l)) s.

(** an octal constant of more than two digits is cut: after the first
    octal digit [ReadNumber] is in the state of decimal and hexadecimal
    integers, whose digit test knows no radix 8, so 0d1d2 reads as the octal
    number 0d1 followed by the number d2. *)
Theorem octal_constants_are_cut :
  Forall (fun d1 => Forall (fun d2 =>
    integers_of [ch "0"; ch "0" + d1; ch "0" + d2; ch ";"] =
      Some [(NUMBER_INTEGRAL, d1); (NUMBER_INTEGRAL, d2); (SEMICOLON, d2)]) (seqZ 0 8)) (seqZ 0 8).
Proof. apply (bool_decide_unpack _). vm_compute. exact I. Qed.

(** [DumpToken] prints every keyword the way a program writes it, but for
    the keyword delete, which it prints as Delete. *)
Theorem DumpToken_keywords s :
  Forall (fun kw => DumpToken kw.2 s =
    Some (if decide (kw.2 = DELETE) then str "Delete" else kw.1)) sKeywords.
Proof. repeat constructor. Qed.

End Lexemes.
