(* ===== verification/TokenStream.v ===== *)
(** * The tokenizer as a stream of lexemes

    The interface the parser's theorems use: a tokenizer that is [ready] for a
    list of lexemes shows the first with [PeekToken] and delivers it with
    [GetToken], whatever blanks and comments lie between. *)
From S2P Require Import Prelude.
From S2P Require Import SourceFile.
From S2P Require Import CcdlString.
From S2P Require Import Tokenizer.
From S2P Require Import TokenizerProofs.
From S2P Require Import Lexemes.
Import File.
Import Tokenizer.
Import TokenizerProofs.
Import Lexemes.

Module TokenStream.

(** The file still spells the lexemes. *)
Definition fresh (xs : list lexeme) (s : t) : Prop :=
  exists lead ys, fst <$> ys = xs /\ Forall valid_filler lead /\
    Forall (fun x => valid x.1 /\ valid_gap x.2) ys /\ before (gap_text lead ++ text ys) s.

(** The first lexeme was looked at with [PeekToken]. *)
Definition peeked (x : lexeme) (xs : list lexeme) (s : t) : Prop :=
  mHasAPeek s = true /\ means x (mCurrToken s) s /\ fresh xs (set_mHasAPeek false s).

Definition ready (xs : list lexeme) (s : t) : Prop :=
  fresh xs s \/ exists x xs', xs = x :: xs' /\ peeked x xs' s.

(** A file is open. *)
Lemma ready_file xs s : ready xs s -> exists f fs, mFiles s = f :: fs.
Proof.
  assert (forall xs s, fresh xs s -> exists f fs, mFiles s = f :: fs) as H.
  { intros l s' (_ & _ & _ & _ & _ & Hok & _). destruct (ok_file s' Hok) as (f & fs & Hf & _). eauto. }
  intros [Hf|(x & xs' & _ & _ & _ & Hf)]; [by eapply H|]. exact (H xs' (set_mHasAPeek false s) Hf).
Qed.

Lemma fresh_ready xs s : fresh xs s -> ready xs s.
Proof. by left. Qed.

Lemma peeked_ready x xs s : peeked x xs s -> ready (x :: xs) s.
Proof. right. eauto. Qed.

(** Every lexeme takes a character at least. *)
Lemma text_length ys : (length ys <= length (text ys))%nat.
Proof.
  unfold text. induction ys as [|y ys IH]; [done|].
  cbn [mbind list_bind]. rewrite !length_app. simpl length. lia.
Qed.

Lemma ready_length xs s : ready xs s -> (length xs <= S (length (remaining s)))%nat.
Proof.
  assert (forall xs s, fresh xs s -> (length xs <= length (remaining s))%nat) as Hf.
  { intros l s' (lead & ys & <- & _ & _ & _ & _ & Hr). rewrite Hr, length_app, length_fmap.
    pose proof (text_length ys). lia. }
  intros [H|(x & xs' & -> & _ & _ & H)].
  - apply Hf in H. lia.
  - apply Hf in H. change (remaining (set_mHasAPeek false s)) with (remaining s) in H. simpl. lia.
Qed.

Section Stream.
Context {A : Allocator}.

Lemma means_peek x tok s b : means x tok s -> means x tok (set_mHasAPeek b s).
Proof. done. Qed.

Lemma ReadToken_fresh x xs s :
  never_fails A -> fresh (x :: xs) s ->
  wp (ReadToken (-1)) (fun tok s' => means x tok s' /\ fresh xs s') s.
Proof.
  intros HA (lead & ys & Hxs & Hlead & Hys & Hb).
  destruct ys as [|[x' [e g]] ys]; [done|]. injection Hxs as -> Hxs.
  apply Forall_cons_1 in Hys as [[Hx [He Hg]] Hys]. cbn [fst snd] in *.
  assert (reads (gap_text lead ++ text ((x, (e, g)) :: ys)) (fun tok s' => means x tok s' /\ fresh xs s')) as Hr.
  { apply reads_gap; [done|]. unfold text. cbn. rewrite <- app_assoc. cbn [app].
    apply reads_lexeme; [done|done|done|]. intros tok s' Hm [H|H]; (split; [done|]).
    - exists g, ys. by split_and!.
    - exists (Blank e :: g), ys. split_and!; [done|by constructor|done|done]. }
  unfold ReadToken. apply wp_bind, wp_gets. apply Hr; [done|].
  unfold fuel_for. destruct Hb as (_ & _ & ->). apply Nat.lt_succ_diag_r.
Qed.

Lemma fresh_no_peek xs s : fresh xs s -> mHasAPeek s = false.
Proof. by intros (? & ? & _ & _ & _ & _ & H & _). Qed.

Lemma GetToken_ready x xs s :
  never_fails A -> ready (x :: xs) s ->
  wp GetToken (fun tok s' => means x tok s' /\ fresh xs s') s.
Proof.
  intros HA [H|(x' & xs' & [= -> ->] & Hp & Hm & Hf)]; unfold GetToken, GetToken_sep, get_or;
    apply wp_bind, wp_gets.
  - rewrite (fresh_no_peek _ _ H). by apply ReadToken_fresh.
  - rewrite Hp. by apply wp_bind, wp_modify, wp_gets.
Qed.

Lemma fresh_fields xs s s' :
  mFiles s' = mFiles s -> mKeywords s' = mKeywords s -> mHasAPeek s' = mHasAPeek s ->
  fresh xs s -> fresh xs s'.
Proof.
  intros H1 H2 H3 (lead & ys & ? & ? & ? & Hb). exists lead, ys. split_and!; [done|done|done|].
  by apply (before_fields _ s).
Qed.

Lemma PeekToken_ready x xs s :
  never_fails A -> ready (x :: xs) s ->
  wp PeekToken (fun tok s' => means x tok s' /\ peeked x xs s' /\ tok = mCurrToken s') s.
Proof.
  intros HA [H|(x' & xs' & [= -> ->] & Hp & Hm & Hf)]; unfold PeekToken, PeekToken_sep;
    apply wp_bind, wp_gets.
  - rewrite (fresh_no_peek _ _ H). apply wp_bind.
    eapply wp_mono; [by apply ReadToken_fresh|]. intros tok s' [Hm Hf].
    apply wp_bind, wp_modify, wp_bind, wp_modify, wp_ret. split_and!; [done| |done].
    split_and!; [done|done|]. apply (fresh_fields _ s'); [done|done|cbn; by rewrite (fresh_no_peek _ _ Hf)|done].
  - rewrite Hp. by apply wp_gets.
Qed.

End Stream.
End TokenStream.
