(* ===== verification/Expr.v ===== *)
(** * Constant expressions of the ccdl compiler: the tree and its values

    [src/src/ccdl/ast/*Expression.cpp].  An expression node answers the virtual
    functions of [Expression]; an [object] is the record of these answers, and
    each class builds its object from the objects of its operands, the way its
    member functions call those of [mLeftOperand] and [mRightOperand].  A value
    is [None] when the C++ is undefined: a null operand or type is
    dereferenced, signed arithmetic overflows, a shift count is out of range. *)
From S2P Require Import Prelude.
From S2P Require Import CcdlString.
From S2P Require Import CNum.

Module Expr.

(** ** Types

    The subclasses of [Type] an expression can meet; [Other] is any of the
    rest, whose predicates all answer false here. *)
Inductive Ty :=
  | Boolean | Byte | Short | Integer | Long | Char | Float | Double | StringT | HANDLE
  | Enumeration (name : list Z) (enumerators : list (list Z))
  | Interface (name : list Z)
  | Pointer (name : list Z)
  | Other (name : list Z).

#[export] Instance Ty_eq_dec : EqDecision Ty.
Proof. solve_decision. Defined.

Definition IsBooleanType (t : Ty) : bool := match t with Boolean => true | _ => false end.
Definition IsStringType (t : Ty) : bool := match t with StringT => true | _ => false end.
Definition IsHANDLEType (t : Ty) : bool := match t with HANDLE => true | _ => false end.
Definition IsIntegerType (t : Ty) : bool := match t with Integer => true | _ => false end.
Definition IsLongType (t : Ty) : bool := match t with Long => true | _ => false end.
Definition IsFloatType (t : Ty) : bool := match t with Float => true | _ => false end.
Definition IsDoubleType (t : Ty) : bool := match t with Double => true | _ => false end.
Definition IsEnumerationType (t : Ty) : bool := match t with Enumeration _ _ => true | _ => false end.
Definition IsInterfaceType (t : Ty) : bool := match t with Interface _ => true | _ => false end.
Definition IsPointerType (t : Ty) : bool := match t with Pointer _ => true | _ => false end.
Definition IsIntegralType (t : Ty) : bool :=
  match t with Byte | Short | Integer | Long | Char => true | _ => false end.
Definition IsNumericType (t : Ty) : bool :=
  match t with Byte | Short | Integer | Long | Char | Float | Double => true | _ => false end.

(** ** Floating point *)

(** [float] arithmetic is binary32, [double] binary64. *)
Record format := { fprec : Z; femax : Z }.
Definition f32 : format := {| fprec := 24; femax := 128 |}.
Definition f64 : format := {| fprec := 53; femax := 1024 |}.

Definition fp_of_Z (f : format) (z : Z) : spec_float := binary_normalize (fprec f) (femax f) z 0 false.
Definition fp_add (f : format) := SFadd (fprec f) (femax f).
Definition fp_sub (f : format) := SFsub (fprec f) (femax f).
Definition fp_mul (f : format) := SFmul (fprec f) (femax f).
Definition fp_div (f : format) := SFdiv (fprec f) (femax f).

(** [(float)d] and [(double)d]. *)
Definition fp_convert (f : format) (d : spec_float) : spec_float :=
  match d with
  | S754_finite s m e => binary_normalize (fprec f) (femax f) (if s then Zneg m else Zpos m) e s
  | _ => d
  end.
Abbreviation to_float := (fp_convert f32).
Abbreviation to_double := (fp_convert f64).

(** [d != 0]: true on NaN. *)
Definition fp_nonzero (d : spec_float) : bool := match d with S754_zero _ => false | _ => true end.

(** [! d], converted to a floating-point number. *)
Definition fp_not (f : format) (d : spec_float) : spec_float := fp_of_Z f (if fp_nonzero d then 0 else 1).

Definition fp_zero : spec_float := S754_zero false.

(** ** Signed arithmetic *)

Definition checked (w z : Z) : option Z := if fits_sb w z then Some z else None.

(** [l << r] for a [w]-bit signed type in C++11: the product must fit the
    unsigned type. *)
Definition shift_left (w l r : Z) : option Z :=
  if (0 <=? r) && (r <? w) && (0 <=? l) && (Z.shiftl l r <? 2 ^ w) then Some (wrap_s w (Z.shiftl l r)) else None.

Definition shift_right (w l r : Z) : option Z :=
  if (0 <=? r) && (r <? w) then Some (Z.shiftr l r) else None.

Definition shift_right_unsigned (w l r : Z) : option Z :=
  if (0 <=? r) && (r <? w) then Some (wrap_s w (Z.shiftr (wrap_u w l) r)) else None.

(** ** Objects *)

Record object := {
  mType : option Ty;
  mRadix : Z;
  mScientificNotation : bool;
  IntegerValue : option Z;
  LongValue : option Z;
  FloatValue : option spec_float;
  DoubleValue : option spec_float;
  CharacterValue : option Z;
  BooleanValue : option bool;
  StringValue : option String;
  EnumeratorValue : option String;
  IsPositiveInfinity : option bool;
  IsNegativeInfinity : option bool;
  IsNaN : option bool
}.

Definition GetType (o : object) : option Ty := mType o.

(** The fields every expression has besides its operands. *)
Record header := { h_type : option Ty; h_radix : Z; h_scientific : bool }.

(** [Expression::Expression]. *)
Definition new_header : header := {| h_type := None; h_radix := 10; h_scientific := false |}.

(** The operand's value in [LongValue]: by [IntegerValue] when it is an Integer. *)
Definition long_operand (o : object) : option Z :=
  ty ← GetType o; if IsIntegerType ty then IntegerValue o else LongValue o.

(** The operand's value in [FloatValue] and in [DoubleValue]. *)
Definition float_operand (o : object) : option spec_float :=
  ty ← GetType o;
  if IsIntegerType ty then fp_of_Z f32 <$> IntegerValue o
  else if IsLongType ty then fp_of_Z f32 <$> LongValue o
  else FloatValue o.

Definition double_operand (o : object) : option spec_float :=
  ty ← GetType o;
  if IsIntegerType ty then fp_of_Z f64 <$> IntegerValue o
  else if IsLongType ty then fp_of_Z f64 <$> LongValue o
  else if IsFloatType ty then to_double <$> FloatValue o
  else DoubleValue o.

(** [mLeftOperand != nullptr || mRightOperand == nullptr ? false : ...], the
    infinity and NaN tests of most classes. *)
Definition pass_right (f : object -> option bool) (l r : option object) : option bool :=
  match l, r with None, Some r => f r | _, _ => Some false end.

Module PostfixExpression.

Record t := {
  mBooleanValue : bool; mIntegralValue : Z; mFloatingPointValue : double;
  mStringValue : String; mEnumeratorName : String
}.

(** [PostfixExpression::PostfixExpression]. *)
Definition make : t :=
  {| mBooleanValue := false; mIntegralValue := 0; mFloatingPointValue := fp_zero;
     mStringValue := None; mEnumeratorName := None |}.

(** None of the value functions looks at [mExpression]. *)
Definition vtable (h : header) (p : t) : object := {|
  mType := h_type h; mRadix := h_radix h; mScientificNotation := h_scientific h;
  IntegerValue := Some (i32 (mIntegralValue p));
  LongValue := Some (mIntegralValue p);
  FloatValue := Some (to_float (mFloatingPointValue p));
  DoubleValue := Some (mFloatingPointValue p);
  CharacterValue := Some (i8 (mIntegralValue p));
  BooleanValue := Some (mBooleanValue p);
  StringValue := Some (mStringValue p);
  EnumeratorValue := Some (mEnumeratorName p);
  IsPositiveInfinity := Some false; IsNegativeInfinity := Some false; IsNaN := Some false |}.

End PostfixExpression.

Module UnaryExpression.

Definition POSITIVE : Z := 0.
Definition NEGATIVE : Z := 1.
Definition COMPLIMENT : Z := 2.
Definition NOT : Z := 3.

Section Members.
Variables (mOperator : Z) (mLeftOperand mRightOperand : option object).

Definition IntegerValue : option Z :=
  match mLeftOperand, mRightOperand with
  | Some l, _ => Expr.IntegerValue l
  | None, Some r =>
    if mOperator =? POSITIVE then Expr.IntegerValue r
    else if mOperator =? NEGATIVE then v ← Expr.IntegerValue r; checked 32 (- v)
    else if mOperator =? COMPLIMENT then v ← Expr.IntegerValue r; Some (Z.lnot v)
    else if mOperator =? NOT then v ← Expr.IntegerValue r; Some (if v =? 0 then 1 else 0)
    else Some 0
  | None, None => Some 0
  end.

Definition LongValue : option Z :=
  match mLeftOperand, mRightOperand with
  | Some l, _ => Expr.LongValue l
  | None, Some r =>
    if mOperator =? POSITIVE then Expr.LongValue r
    else if mOperator =? NEGATIVE then v ← Expr.IntegerValue r; checked 32 (- v)
    else if mOperator =? COMPLIMENT then v ← Expr.IntegerValue r; Some (Z.lnot v)
    else if mOperator =? NOT then v ← Expr.IntegerValue r; Some (if v =? 0 then 1 else 0)
    else Some 0
  | None, None => Some 0
  end.

Definition FloatValue : option spec_float :=
  match mLeftOperand, mRightOperand with
  | Some l, _ => Expr.FloatValue l
  | None, Some r =>
    if mOperator =? POSITIVE then Expr.FloatValue r
    else if mOperator =? NEGATIVE then SFopp <$> Expr.FloatValue r
    else if mOperator =? NOT then fp_not f32 <$> Expr.FloatValue r
    else Some fp_zero
  | None, None => Some fp_zero
  end.

Definition DoubleValue : option spec_float :=
  match mLeftOperand, mRightOperand with
  | Some l, _ => Expr.DoubleValue l
  | None, Some r =>
    if mOperator =? POSITIVE then Expr.DoubleValue r
    else if mOperator =? NEGATIVE then SFopp <$> Expr.DoubleValue r
    else if mOperator =? NOT then fp_not f64 <$> Expr.DoubleValue r
    else Some fp_zero
  | None, None => Some fp_zero
  end.

Definition CharacterValue : option Z :=
  match mLeftOperand, mRightOperand with
  | Some l, _ => Expr.CharacterValue l
  | None, Some r =>
    if mOperator =? POSITIVE then Expr.CharacterValue r
    else if mOperator =? NEGATIVE then v ← Expr.CharacterValue r; Some (i8 (- v))
    else if mOperator =? COMPLIMENT then v ← Expr.CharacterValue r; Some (i8 (Z.lnot v))
    else if mOperator =? NOT then v ← Expr.CharacterValue r; Some (if v =? 0 then 1 else 0)
    else Some 0
  | None, None => Some 0
  end.

Definition BooleanValue : option bool :=
  match mLeftOperand, mRightOperand with
  | Some l, _ => Expr.BooleanValue l
  | None, Some r => if mOperator =? NOT then negb <$> Expr.BooleanValue r else Some false
  | None, None => Some false
  end.

Definition StringValue : option String :=
  match mLeftOperand with Some l => Expr.StringValue l | None => Some None end.

Definition EnumeratorValue : option String :=
  match mLeftOperand with Some l => Expr.EnumeratorValue l | None => Some None end.

Definition vtable (h : header) : object := {|
  mType := h_type h; mRadix := h_radix h; mScientificNotation := h_scientific h;
  Expr.IntegerValue := IntegerValue; Expr.LongValue := LongValue;
  Expr.FloatValue := FloatValue; Expr.DoubleValue := DoubleValue;
  Expr.CharacterValue := CharacterValue; Expr.BooleanValue := BooleanValue;
  Expr.StringValue := StringValue; Expr.EnumeratorValue := EnumeratorValue;
  IsPositiveInfinity := Some false; IsNegativeInfinity := Some false; IsNaN := Some false |}.

End Members.
End UnaryExpression.

Module MultiplicativeExpression.

Definition MULTIPLE : Z := 0.
Definition DIVIDE : Z := 1.
Definition MODULO : Z := 2.

Section Members.
Variables (mOperator : Z) (mLeftOperand mRightOperand : option object).

(** The division is done in [long long] and the result cut to [int]; the
    dividend is looked at only when the divisor is not 0. *)
Definition IntegerValue : option Z :=
  r ← mRightOperand;
  match mLeftOperand with
  | Some l =>
    if mOperator =? MULTIPLE then
      a ← Expr.IntegerValue l; b ← Expr.IntegerValue r; checked 32 (a * b)
    else if mOperator =? DIVIDE then
      divisor ← Expr.IntegerValue r;
      if divisor =? 0 then Some 0 else a ← Expr.IntegerValue l; Some (i32 (Z.quot a divisor))
    else if mOperator =? MODULO then
      divisor ← Expr.IntegerValue r;
      if divisor =? 0 then Some 0 else a ← Expr.IntegerValue l; Some (i32 (Z.rem a divisor))
    else Some 0
  | None => Expr.IntegerValue r
  end.

Definition LongValue : option Z :=
  r ← mRightOperand;
  match mLeftOperand with
  | Some l =>
    leftValue ← long_operand l; rightValue ← long_operand r;
    if mOperator =? MULTIPLE then checked 64 (leftValue * rightValue)
    else if mOperator =? DIVIDE then
      if rightValue =? 0 then Some 0 else checked 64 (Z.quot leftValue rightValue)
    else if mOperator =? MODULO then
      if rightValue =? 0 then Some 0
      else if fits_sb 64 (Z.quot leftValue rightValue) then Some (Z.rem leftValue rightValue) else None
    else Some 0
  | None => Expr.LongValue r
  end.

Definition fp_value (f : format) (leftValue rightValue : spec_float) : spec_float :=
  if mOperator =? MULTIPLE then fp_mul f leftValue rightValue
  else if mOperator =? DIVIDE then
    if fp_nonzero rightValue then fp_div f leftValue rightValue else fp_zero
  else fp_zero.

Definition FloatValue : option spec_float :=
  r ← mRightOperand;
  match mLeftOperand with
  | Some l => a ← float_operand l; b ← float_operand r; Some (fp_value f32 a b)
  | None => Expr.FloatValue r
  end.

Definition DoubleValue : option spec_float :=
  r ← mRightOperand;
  match mLeftOperand with
  | Some l => a ← double_operand l; b ← double_operand r; Some (fp_value f64 a b)
  | None => Expr.DoubleValue r
  end.

(** [mLeftOperand->FloatValue() == numerator && mRightOperand->FloatValue() ==
    0.0 && mOperator == DIVIDE]. *)
Definition quotient_is (numerator : spec_float -> bool) : option bool :=
  match mLeftOperand, mRightOperand with
  | Some l, Some r =>
    a ← Expr.FloatValue l;
    if numerator a then b ← Expr.FloatValue r; Some (negb (fp_nonzero b) && (mOperator =? DIVIDE))
    else Some false
  | _, _ => Some false
  end.

Definition IsPositiveInfinity : option bool := quotient_is (SFeqb (fp_of_Z f32 1)).
Definition IsNegativeInfinity : option bool := quotient_is (SFeqb (fp_of_Z f32 (-1))).
Definition IsNaN : option bool := quotient_is (fun a => negb (fp_nonzero a)).

Definition vtable (h : header) : object := {|
  mType := h_type h; mRadix := h_radix h; mScientificNotation := h_scientific h;
  Expr.IntegerValue := IntegerValue; Expr.LongValue := LongValue;
  Expr.FloatValue := FloatValue; Expr.DoubleValue := DoubleValue;
  Expr.CharacterValue := mRightOperand ≫= Expr.CharacterValue;
  Expr.BooleanValue := mRightOperand ≫= Expr.BooleanValue;
  Expr.StringValue := mRightOperand ≫= Expr.StringValue;
  Expr.EnumeratorValue := mRightOperand ≫= Expr.EnumeratorValue;
  Expr.IsPositiveInfinity := IsPositiveInfinity; Expr.IsNegativeInfinity := IsNegativeInfinity;
  Expr.IsNaN := IsNaN |}.

End Members.
End MultiplicativeExpression.

Module AdditiveExpression.

Definition PLUS : Z := 0.
Definition MINUS : Z := 1.

Section Members.
Variables (mOperator : Z) (mLeftOperand mRightOperand : option object).

Definition IntegerValue : option Z :=
  r ← mRightOperand;
  match mLeftOperand with
  | Some l =>
    if mOperator =? PLUS then
      a ← Expr.IntegerValue l; b ← Expr.IntegerValue r; checked 32 (a + b)
    else if mOperator =? MINUS then
      a ← Expr.IntegerValue l; b ← Expr.IntegerValue r; checked 32 (a - b)
    else Some 0
  | None => Expr.IntegerValue r
  end.

Definition LongValue : option Z :=
  r ← mRightOperand;
  match mLeftOperand with
  | Some l =>
    leftValue ← long_operand l; rightValue ← long_operand r;
    if mOperator =? PLUS then checked 64 (leftValue + rightValue)
    else if mOperator =? MINUS then checked 64 (leftValue - rightValue)
    else Some 0
  | None => Expr.LongValue r
  end.

Definition fp_value (f : format) (leftValue rightValue : spec_float) : spec_float :=
  if mOperator =? PLUS then fp_add f leftValue rightValue
  else if mOperator =? MINUS then fp_sub f leftValue rightValue
  else fp_zero.

Definition FloatValue : option spec_float :=
  r ← mRightOperand;
  match mLeftOperand with
  | Some l => a ← float_operand l; b ← float_operand r; Some (fp_value f32 a b)
  | None => Expr.FloatValue r
  end.

Definition DoubleValue : option spec_float :=
  r ← mRightOperand;
  match mLeftOperand with
  | Some l => a ← double_operand l; b ← double_operand r; Some (fp_value f64 a b)
  | None => Expr.DoubleValue r
  end.

Definition vtable (h : header) : object := {|
  mType := h_type h; mRadix := h_radix h; mScientificNotation := h_scientific h;
  Expr.IntegerValue := IntegerValue; Expr.LongValue := LongValue;
  Expr.FloatValue := FloatValue; Expr.DoubleValue := DoubleValue;
  Expr.CharacterValue := mRightOperand ≫= Expr.CharacterValue;
  Expr.BooleanValue := mRightOperand ≫= Expr.BooleanValue;
  Expr.StringValue := mRightOperand ≫= Expr.StringValue;
  Expr.EnumeratorValue := mRightOperand ≫= Expr.EnumeratorValue;
  IsPositiveInfinity := pass_right Expr.IsPositiveInfinity mLeftOperand mRightOperand;
  IsNegativeInfinity := pass_right Expr.IsNegativeInfinity mLeftOperand mRightOperand;
  IsNaN := pass_right Expr.IsNaN mLeftOperand mRightOperand |}.

End Members.
End AdditiveExpression.

Module ShiftExpression.

Definition LEFT : Z := 0.
Definition RIGHT : Z := 1.
Definition RIGHT_UNSIGNED : Z := 2.

Section Members.
Variables (mOperator : Z) (mLeftOperand mRightOperand : option object).

Definition shift (w leftValue rightValue : Z) : option Z :=
  if mOperator =? LEFT then shift_left w leftValue rightValue
  else if mOperator =? RIGHT then shift_right w leftValue rightValue
  else if mOperator =? RIGHT_UNSIGNED then shift_right_unsigned w leftValue rightValue
  else Some 0.

Definition IntegerValue : option Z :=
  r ← mRightOperand;
  match mLeftOperand with
  | Some l => a ← Expr.IntegerValue l; b ← Expr.IntegerValue r; shift 32 a b
  | None => Expr.IntegerValue r
  end.

Definition LongValue : option Z :=
  r ← mRightOperand;
  match mLeftOperand with
  | Some l => leftValue ← long_operand l; rightValue ← long_operand r; shift 64 leftValue rightValue
  | None => Expr.LongValue r
  end.

Definition vtable (h : header) : object := {|
  mType := h_type h; mRadix := h_radix h; mScientificNotation := h_scientific h;
  Expr.IntegerValue := IntegerValue; Expr.LongValue := LongValue;
  FloatValue := mRightOperand ≫= Expr.FloatValue;
  DoubleValue := mRightOperand ≫= Expr.DoubleValue;
  CharacterValue := mRightOperand ≫= Expr.CharacterValue;
  BooleanValue := mRightOperand ≫= Expr.BooleanValue;
  StringValue := mRightOperand ≫= Expr.StringValue;
  EnumeratorValue := mRightOperand ≫= Expr.EnumeratorValue;
  IsPositiveInfinity := pass_right Expr.IsPositiveInfinity mLeftOperand mRightOperand;
  IsNegativeInfinity := pass_right Expr.IsNegativeInfinity mLeftOperand mRightOperand;
  IsNaN := pass_right Expr.IsNaN mLeftOperand mRightOperand |}.

End Members.
End ShiftExpression.

(** [AndExpression], [ExclusiveOrExpression] and [InclusiveOrExpression] are
    the same text but for the operator. *)
Module BitwiseExpression.
Section Members.
Variables (bitop : Z -> Z -> Z) (mLeftOperand mRightOperand : option object).

Definition IntegerValue : option Z :=
  r ← mRightOperand;
  match mLeftOperand with
  | Some l => a ← Expr.IntegerValue l; b ← Expr.IntegerValue r; Some (bitop a b)
  | None => Expr.IntegerValue r
  end.

Definition LongValue : option Z :=
  r ← mRightOperand;
  match mLeftOperand with
  | Some l => leftValue ← long_operand l; rightValue ← long_operand r; Some (bitop leftValue rightValue)
  | None => Expr.LongValue r
  end.

Definition vtable (h : header) : object := {|
  mType := h_type h; mRadix := h_radix h; mScientificNotation := h_scientific h;
  Expr.IntegerValue := IntegerValue; Expr.LongValue := LongValue;
  FloatValue := mRightOperand ≫= Expr.FloatValue;
  DoubleValue := mRightOperand ≫= Expr.DoubleValue;
  CharacterValue := mRightOperand ≫= Expr.CharacterValue;
  BooleanValue := mRightOperand ≫= Expr.BooleanValue;
  StringValue := mRightOperand ≫= Expr.StringValue;
  EnumeratorValue := mRightOperand ≫= Expr.EnumeratorValue;
  IsPositiveInfinity := pass_right Expr.IsPositiveInfinity mLeftOperand mRightOperand;
  IsNegativeInfinity := pass_right Expr.IsNegativeInfinity mLeftOperand mRightOperand;
  IsNaN := pass_right Expr.IsNaN mLeftOperand mRightOperand |}.

End Members.
End BitwiseExpression.

Definition AndExpression_vtable := BitwiseExpression.vtable Z.land.
Definition ExclusiveOrExpression_vtable := BitwiseExpression.vtable Z.lxor.
Definition InclusiveOrExpression_vtable := BitwiseExpression.vtable Z.lor.

(** ** The tree *)

Inductive class := Unary | Multiplicative | Additive | Shift | And | ExclusiveOr | InclusiveOr.

#[export] Instance class_eq_dec : EqDecision class.
Proof. solve_decision. Defined.

#[local] Set Warnings "-register-all".

(** A node of the class [c] with its header, operator and operands; a postfix
    expression carries its constants and the parenthesised expression. *)
Inductive Expression :=
  | Postfix (h : header) (p : PostfixExpression.t) (mExpression : option Expression)
  | Node (c : class) (h : header) (mOperator : Z) (mLeftOperand mRightOperand : option Expression).

(** Induction over the operands of nodes. *)
Lemma Expression_operands (P : Expression -> Prop)
    (Hpost : forall h p sub, P (Postfix h p sub))
    (Hnode : forall c h op l r, (forall e, l = Some e -> P e) -> (forall e, r = Some e -> P e) ->
       P (Node c h op l r)) :
  forall e, P e.
Proof.
  fix IH 1. intros [h p sub|c h op l r]; [apply Hpost|]. apply Hnode; intros e He.
  - destruct l as [l|]; [|discriminate]. injection He as <-. apply IH.
  - destruct r as [r|]; [|discriminate]. injection He as <-. apply IH.
Qed.

Definition vtable_of (c : class) (mOperator : Z) : option object -> option object -> header -> object :=
  match c with
  | Unary => UnaryExpression.vtable mOperator
  | Multiplicative => MultiplicativeExpression.vtable mOperator
  | Additive => AdditiveExpression.vtable mOperator
  | Shift => ShiftExpression.vtable mOperator
  | And => AndExpression_vtable
  | ExclusiveOr => ExclusiveOrExpression_vtable
  | InclusiveOr => InclusiveOrExpression_vtable
  end.

(** The virtual functions of the tree. *)
Fixpoint dispatch (e : Expression) : object :=
  match e with
  | Postfix h p _ => PostfixExpression.vtable h p
  | Node c h op l r =>
    vtable_of c op
      (match l with Some l => Some (dispatch l) | None => None end)
      (match r with Some r => Some (dispatch r) | None => None end) h
  end.

(** [Clone]: [PostfixExpression::Clone] copies its own fields only, and leaves
    type, radix and notation as the constructor sets them. *)
Fixpoint Clone (e : Expression) : Expression :=
  match e with
  | Postfix _ p sub =>
    Postfix new_header p (match sub with Some e => Some (Clone e) | None => None end)
  | Node c h op l r =>
    Node c h op (match l with Some l => Some (Clone l) | None => None end)
      (match r with Some r => Some (Clone r) | None => None end)
  end.

End Expr.
