(* ===== verification/ExprParser.v ===== *)
(** * The expression parser of the ccdl compiler

    [Parser::ParseExpression] and everything below it in
    [src/src/ccdl/parser/Parser.cpp], over the tokenizer's state.  A parse
    function returns the new node or, after it has logged an error, a null
    pointer.  The pools and scopes a name is looked up in are arguments (an
    [Env]): expression parsing only reads them.

    [ParseUnaryExpression] calls itself and, through the parenthesis of
    [ParsePostfixExpression], the whole chain again: it carries the fuel of the
    recursion.  The loops of the binary levels consume a token per round and
    get the number of characters still to come as fuel. *)
From S2P Require Import Prelude.
From S2P Require Import CcdlString.
From S2P Require Import CNum.
From S2P Require Import Tokenizer.
From S2P Require Import Expr.
Import Tokenizer.
Import Expr.

Module ExprParser.

(** ** State *)

Record Error := {
  mErrorToken : Token; mFileName : String; mLineNo : Z; mColumnNo : Z; mMessage : String
}.

(** The tokenizer and the list of logged errors, oldest first. *)
Record t := { mTokenizer : Tokenizer.t; mErrors : list Error }.

Record Constant := { c_type : option Ty; c_value : option Expression }.

(** What the parser's pools answer: [mPool->FindType], [Parser::FindType],
    [Interface::FindConstant] of an interface type, [Type::ToString], and
    [mParsingType]. *)
Record Env := {
  ToString : Ty -> String;
  pool_FindType : list Z -> option Ty;
  FindType : String -> option Ty;
  FindConstant : Ty -> String -> option Constant;
  mParsingType : option Ty
}.

Section Parsing.
Context {A : Allocator}.
Variable env : Env.

Abbreviation P := (SE t).

(** A call on [mTokenizer]. *)
Definition on_tokenizer {X} (m : SE Tokenizer.t X) : P X := fun s =>
  match m (mTokenizer s) with
  | Some (x, tk) => Some (x, {| mTokenizer := tk; mErrors := mErrors s |})
  | None => None
  end.

Definition PeekToken : P Token := on_tokenizer Tokenizer.PeekToken.
Definition GetToken : P Token := on_tokenizer Tokenizer.GetToken.
Definition tokenizer {X} (f : Tokenizer.t -> X) : P X := gets (fun s => f (mTokenizer s)).

(** A dereference of a pointer the code does not test. *)
Definition deref {X} (p : option X) : P X := match p with Some x => ret x | None => undefined end.

Definition LogError (token : Token) (message : String) : P unit :=
  file <- tokenizer (fun tk => head (mFiles tk)) ;;
  f <- deref file ;;
  let file := Str.Substring1 (mPath f) (Str.LastIndexOf_char (mPath f) (ch "/") + 1) in
  modify (fun s => {| mTokenizer := mTokenizer s;
    mErrors := mErrors s ++ [{| mErrorToken := token; mFileName := file;
                                mLineNo := mTokenLineNo (mTokenizer s);
                                mColumnNo := mTokenColumnNo (mTokenizer s);
                                mMessage := message |}] |}).

(** [String(literal)], and [String::Format] of literals and [%s] arguments;
    [Format] clears its buffer without a look whether it got one. *)
Definition lit (s : String.string) : String := mkString (Some (str s)).

Definition percent_s (s : String) : list Z := match s with Some l => c_str l | None => str "(null)" end.

Definition Format (parts : list (list Z)) : P String :=
  let l := mjoin parts in
  if SharedBuffer_Alloc (Z.of_nat (length l)) then ret (Some l) else undefined.

Definition quote : list Z := [ch "034"].

Definition GetName (ty : Ty) : String :=
  match ty with
  | Boolean => lit "Boolean" | Byte => lit "Byte" | Short => lit "Short" | Integer => lit "Integer"
  | Long => lit "Long" | Char => lit "Char" | Float => lit "Float" | Double => lit "Double"
  | StringT => lit "String" | HANDLE => lit "HANDLE"
  | Enumeration n _ | Interface n | Other n => Some n
  | Pointer _ => None
  end.

(** [LogError(token, message); return nullptr;] *)
Definition fail_with (token : Token) (message : String) : P (option Expression) :=
  LogError token message ;;; ret None.

Definition fail_format (token : Token) (parts : list (list Z)) : P (option Expression) :=
  message <- Format parts ;; fail_with token message.

Definition CastType (type1 type2 : Ty) : Ty :=
  if IsDoubleType type1 then type1
  else if IsFloatType type1 then if IsDoubleType type2 then type2 else type1
  else if IsLongType type1 then if IsIntegerType type2 then type1 else type2
  else type2.

(** ** Constants *)

Definition new_postfix (ty : option Ty) (radix : Z) (scientific : bool) (p : PostfixExpression.t) : Expression :=
  Postfix {| h_type := ty; h_radix := radix; h_scientific := scientific |} p None.

Definition integral (v : Z) : PostfixExpression.t :=
  {| PostfixExpression.mBooleanValue := false; PostfixExpression.mIntegralValue := v;
     PostfixExpression.mFloatingPointValue := fp_zero; PostfixExpression.mStringValue := None;
     PostfixExpression.mEnumeratorName := None |}.

Definition floating (v : double) : PostfixExpression.t :=
  {| PostfixExpression.mBooleanValue := false; PostfixExpression.mIntegralValue := 0;
     PostfixExpression.mFloatingPointValue := v; PostfixExpression.mStringValue := None;
     PostfixExpression.mEnumeratorName := None |}.

Definition boolean (b : bool) : PostfixExpression.t :=
  {| PostfixExpression.mBooleanValue := b; PostfixExpression.mIntegralValue := 0;
     PostfixExpression.mFloatingPointValue := fp_zero; PostfixExpression.mStringValue := None;
     PostfixExpression.mEnumeratorName := None |}.

Definition string_constant (s : String) : PostfixExpression.t :=
  {| PostfixExpression.mBooleanValue := false; PostfixExpression.mIntegralValue := 0;
     PostfixExpression.mFloatingPointValue := fp_zero; PostfixExpression.mStringValue := s;
     PostfixExpression.mEnumeratorName := None |}.

Definition enumerator (s : String) : PostfixExpression.t :=
  {| PostfixExpression.mBooleanValue := false; PostfixExpression.mIntegralValue := 0;
     PostfixExpression.mFloatingPointValue := fp_zero; PostfixExpression.mStringValue := None;
     PostfixExpression.mEnumeratorName := s |}.

Definition ParseIntegralNumber (exprType : Ty) : P (option Expression) :=
  token <- GetToken ;;
  value <- tokenizer mIntegralValue ;;
  radix <- tokenizer Tokenizer.mRadix ;;
  is64 <- tokenizer Is64Bit ;;
  if IsNumericType exprType || IsEnumerationType exprType then
    let integralType := if is64 : bool then pool_FindType env (str "ccm::Long")
                        else pool_FindType env (str "ccm::Integer") in
    ret (Some (new_postfix integralType radix false (integral value)))
  else if IsHANDLEType exprType then
    ret (Some (new_postfix (pool_FindType env (str "ccm::Long")) radix false (integral value)))
  else
    fail_format token [str "Integral values can not be assigned to "; quote;
                             percent_s (GetName exprType); quote; str " type."].

Definition ParseFloatingPointNumber (exprType : Ty) : P (option Expression) :=
  token <- GetToken ;;
  value <- tokenizer mFloatingPointValue ;;
  scientific <- tokenizer Tokenizer.mScientificNotation ;;
  is64 <- tokenizer Is64Bit ;;
  if IsNumericType exprType then
    let fpType := if is64 : bool then pool_FindType env (str "ccm::Double")
                  else pool_FindType env (str "ccm::Float") in
    ret (Some (new_postfix fpType 10 scientific (floating value)))
  else
    fail_format token [str "FloatingPoint values can not be assigned to "; quote;
                             percent_s (GetName exprType); quote; str " type."].

Definition ParseBooleanLiteral (exprType : Ty) : P (option Expression) :=
  token <- GetToken ;;
  if IsBooleanType exprType then
    ret (Some (new_postfix (pool_FindType env (str "ccm::Boolean")) 10 false
                 (boolean (bool_decide (token = TRUE)))))
  else
    dump <- tokenizer (DumpToken token) ;;
    fail_format token [quote; percent_s dump; quote; str " can not be assigned to "; quote;
                             percent_s (GetName exprType); quote; str " type."].

Definition ParseCharacter (exprType : Ty) : P (option Expression) :=
  token <- GetToken ;;
  c <- tokenizer mCharacter ;;
  if IsNumericType exprType then
    ret (Some (new_postfix (pool_FindType env (str "ccm::Char")) 10 false (integral c)))
  else fail_with token (lit "Character can not be assigned to non-numeric type.").

Definition ParseStringLiteral (exprType : Ty) : P (option Expression) :=
  token <- GetToken ;;
  s <- tokenizer mString ;;
  if IsStringType exprType then
    ret (Some (new_postfix (pool_FindType env (str "ccm::String")) 10 false (string_constant s)))
  else
    fail_format token [quote; percent_s s; quote; str " can not be assigned to "; quote;
                             percent_s (GetName exprType); quote; str " type."].

(** ** Identifiers *)

(** [constant->GetValue()->...] *)
Definition constant_value (c : Constant) : P object :=
  e <- deref (c_value c) ;; ret (dispatch e).

Definition enumerators_of (ty : Ty) : list (list Z) :=
  match ty with Enumeration _ l => l | _ => [] end.

(** [Enumeration::Contains]. *)
Fixpoint Contains (l : list (list Z)) (name : String) : P bool :=
  match l with
  | [] => ret false
  | e :: l => b <- deref (Str.Equals (Some e) name) ;; if b : bool then ret true else Contains l name
  end.

(** The type part of a qualified name must name an interface. *)
Definition find_interface (token : Token) (typeStr : String) : P (option Ty) :=
  match FindType env typeStr with
  | None =>
    fail_format token [str "Type "; quote; percent_s typeStr; quote; str " is not found"] ;;; ret None
  | Some ty => ret (Some ty)
  end.

Definition ParseEnumerator (token : Token) (exprType : Ty) : P (option Expression) :=
  idStr <- tokenizer mIdentifier ;;
  known <- Contains (enumerators_of exprType) idStr ;;
  if known : bool then ret (Some (new_postfix (Some exprType) 10 false (enumerator idStr)))
  else
    idx <- deref (Str.LastIndexOf idStr (Some (str "::"))) ;;
    if idx >? 0 then
      let typeStr := Str.Substring idStr 0 (idx - 1) in
      let constStr := Str.Substring1 idStr (idx + 2) in
      found <- find_interface token typeStr ;;
      match found with
      | None => ret None
      | Some ty =>
        if negb (IsInterfaceType ty) then
          fail_format token [str "Type "; quote; percent_s (ToString env ty); quote; str " is not interface"]
        else
          match FindConstant env ty constStr with
          | None => fail_format token [quote; percent_s constStr; quote; str " is not a constant of ";
                                       percent_s idStr]
          | Some constant =>
            value <- constant_value constant ;;
            v <- deref (IntegerValue value) ;;
            ret (Some (new_postfix (Some exprType) (mRadix value) false (integral v)))
          end
      end
    else
      fail_format token [quote; percent_s idStr; quote; str " is not a valid enumerator of ";
                         percent_s (GetName exprType)].

Definition ParseNumericIdentifier (token : Token) (exprType : Ty) : P (option Expression) :=
  idStr <- tokenizer mIdentifier ;;
  let idx := Str.IndexOf idStr (Some (str "::")) in
  r <- (if idx >? 0 then
          found <- find_interface token (Str.Substring idStr 0 (idx - 1)) ;;
          ret (match found with Some ty => Some (ty, Str.Substring1 idStr (idx + 2)) | None => None end)
        else ty <- deref (mParsingType env) ;; ret (Some (ty, idStr))) ;;
  match r with
  | None => ret None
  | Some (ty, constStr) =>
    if negb (IsInterfaceType ty) then
      fail_format token [str "Type "; quote; percent_s (ToString env ty); quote; str " is not interface"]
    else
      match FindConstant env ty constStr with
      | None => fail_format token [quote; percent_s constStr; quote; str " is not a constant of ";
                                   percent_s idStr]
      | Some constant =>
        if IsIntegerType exprType then
          cty <- deref (c_type constant) ;;
          if IsIntegerType cty then
            value <- constant_value constant ;;
            v <- deref (IntegerValue value) ;;
            ret (Some (new_postfix (Some exprType) (mRadix value) false (integral v)))
          else fail_format token [quote; percent_s idStr; quote; str " is not an Integer constant."]
        else if IsLongType exprType then
          cty <- deref (c_type constant) ;;
          if IsLongType cty then
            value <- constant_value constant ;;
            v <- deref (LongValue value) ;;
            ret (Some (new_postfix (Some exprType) (mRadix value) false (integral v)))
          else fail_format token [quote; percent_s idStr; quote; str " is not a Long constant."]
        else fail_format token [quote; percent_s idStr; quote; str " is not a constant of ";
                                percent_s (GetName exprType)]
      end
  end.

Definition ParseIdentifier (exprType : Ty) : P (option Expression) :=
  token <- GetToken ;;
  if IsEnumerationType exprType then ParseEnumerator token exprType
  else if IsNumericType exprType then ParseNumericIdentifier token exprType
  else
    idStr <- tokenizer mIdentifier ;;
    fail_format token [quote; percent_s idStr; quote; str " can not be assigned to "; quote;
                       percent_s (GetName exprType); quote; str " type."].

(** ** The levels *)

(** [ParsePostfixExpression]; [ParseExpression] is the recursive call.  The
    opening parenthesis is peeked at and not taken. *)
Definition ParsePostfixExpression (ParseExpression : Ty -> P (option Expression)) (exprType : Ty)
  : P (option Expression) :=
  token <- PeekToken ;;
  match token with
  | NUMBER_INTEGRAL => ParseIntegralNumber exprType
  | NUMBER_FLOATINGPOINT => ParseFloatingPointNumber exprType
  | TRUE | FALSE => ParseBooleanLiteral exprType
  | CHARACTER => ParseCharacter exprType
  | STRING_LITERAL => ParseStringLiteral exprType
  | IDENTIFIER => ParseIdentifier exprType
  | PARENTHESES_OPEN =>
    expr <- ParseExpression exprType ;;
    close <- PeekToken ;;
    if bool_decide (close = PARENTHESES_CLOSE) then
      GetToken ;;;
      ret (Some (Postfix {| h_type := Some exprType; h_radix := 10; h_scientific := false |}
                   PostfixExpression.make expr))
    else fail_with token (mkString (Some (quote ++ str ")" ++ quote ++ str " is expected.")))
  | NULLPTR =>
    GetToken ;;;
    if IsPointerType exprType then
      ret (Some (new_postfix (pool_FindType env (str "ccm::Long")) 16 false (integral 0)))
    else fail_format token [quote; str "nullptr"; quote; str " can not be assigned to "; quote;
                            percent_s (GetName exprType); quote; str " type."]
  | _ =>
    dump <- tokenizer (DumpToken token) ;;
    fail_format token [quote; percent_s dump; quote; str " is not expected."]
  end.

(** The wrapper a level puts around its only operand. *)
Definition lift (c : class) (right : Expression) : Expression :=
  let o := dispatch right in
  Node c {| h_type := GetType o; h_radix := mRadix o; h_scientific := mScientificNotation o |} (-1)
    None (Some right).

(** The operator an operation token stands for at a level: [None] ends the
    level's loop. *)
Definition operator_of (c : class) (token : Token) : option Z :=
  match c, token with
  | InclusiveOr, INCLUSIVE_OR => Some (-1)
  | ExclusiveOr, EXCLUSIVE_OR => Some (-1)
  | And, AMPERSAND => Some (-1)
  | Shift, SHIFT_LEFT => Some ShiftExpression.LEFT
  | Shift, SHIFT_RIGHT => Some ShiftExpression.RIGHT
  | Shift, SHIFT_RIGHT_UNSIGNED => Some ShiftExpression.RIGHT_UNSIGNED
  | Additive, PLUS => Some AdditiveExpression.PLUS
  | Additive, MINUS => Some AdditiveExpression.MINUS
  | Multiplicative, ASTERISK => Some MultiplicativeExpression.MULTIPLE
  | Multiplicative, DIVIDE => Some MultiplicativeExpression.DIVIDE
  | Multiplicative, MODULO => Some MultiplicativeExpression.MODULO
  | _, _ => None
  end.

Definition operand_ok (c : class) (ty : Ty) : bool :=
  match c with Additive | Multiplicative => IsNumericType ty | _ => IsIntegralType ty end.

Definition operand_message (c : class) : String :=
  match c with
  | InclusiveOr => lit "Inclusive or operation can not be applied tonon-integral type."
  | ExclusiveOr => lit "Exclusive or operation can not be applied tonon-integral type."
  | And => lit "And operation can not be applied tonon-integral type."
  | Shift => lit "Shift operation can not be applied tonon-integral type."
  | Additive => lit "Additive operation can not be applied tonon-numeric type."
  | _ => lit "Multiplicative operation can not be applied tonon-numeric type."
  end.

(** The loop of a binary level with the operands [next] parses. *)
Fixpoint level_loop (fuel : nat) (c : class) (next : P (option Expression)) (leftExpr : Expression)
  : P (option Expression) :=
  match fuel with
  | O => undefined
  | S fuel =>
    token <- PeekToken ;;
    match operator_of c token with
    | None => ret (Some leftExpr)
    | Some op =>
      GetToken ;;;
      right <- next ;;
      match right with
      | None => ret None
      | Some rightExpr =>
        lty <- deref (GetType (dispatch leftExpr)) ;;
        ok <- (if operand_ok c lty then
                 rty <- deref (GetType (dispatch rightExpr)) ;;
                 ret (if operand_ok c rty then Some rty else None)
               else ret None) ;;
        match ok with
        | None => token <- PeekToken ;; fail_with token (operand_message c)
        | Some rty =>
          level_loop fuel c next
            (Node c {| h_type := Some (CastType lty rty); h_radix := 10; h_scientific := false |} op
               (Some leftExpr) (Some rightExpr))
        end
      end
    end
  end.

Definition level (c : class) (next : P (option Expression)) : P (option Expression) :=
  right <- next ;;
  match right with
  | None => ret None
  | Some rightExpr =>
    fuel <- tokenizer fuel_for ;; level_loop (S fuel) c next (lift c rightExpr)
  end.

Section Levels.
Variable unary : Ty -> P (option Expression).

Definition ParseMultiplicativeExpression (exprType : Ty) := level Multiplicative (unary exprType).
Definition ParseAdditiveExpression (exprType : Ty) := level Additive (ParseMultiplicativeExpression exprType).
Definition ParseShiftExpression (exprType : Ty) := level Shift (ParseAdditiveExpression exprType).
Definition ParseAndExpression (exprType : Ty) := level And (ParseShiftExpression exprType).
Definition ParseExclusiveOrExpression (exprType : Ty) := level ExclusiveOr (ParseAndExpression exprType).
Definition ParseInclusiveOrExpression (exprType : Ty) := level InclusiveOr (ParseExclusiveOrExpression exprType).

End Levels.

Definition unary_operator (token : Token) : option Z :=
  match token with
  | PLUS => Some UnaryExpression.POSITIVE
  | MINUS => Some UnaryExpression.NEGATIVE
  | COMPLIMENT => Some UnaryExpression.COMPLIMENT
  | NOT => Some UnaryExpression.NOT
  | _ => None
  end.

Definition ParsePrefix (op : Z) (operand : Expression) : P (option Expression) :=
  ty <- deref (GetType (dispatch operand)) ;;
  if negb (op =? UnaryExpression.COMPLIMENT) && negb (IsNumericType ty) then
    token <- PeekToken ;;
    fail_with token (lit "Plus, minus and not operation can not be applied tonon-numeric type.")
  else if (op =? UnaryExpression.COMPLIMENT) && negb (IsIntegralType ty) then
    token <- PeekToken ;;
    fail_with token (lit "Compliment operation can not be applied tonon-integral type.")
  else
    ret (Some (Node Unary {| h_type := Some ty; h_radix := 10; h_scientific := false |} op None (Some operand))).

(** [cut] stands for the calls below the depth [fuel]. *)
Fixpoint ParseUnaryExpression_to (cut : Ty -> P (option Expression)) (fuel : nat) (exprType : Ty) : P (option Expression) :=
  match fuel with
  | O => cut exprType
  | S fuel =>
    token <- PeekToken ;;
    match unary_operator token with
    | Some op =>
      GetToken ;;;
      operand <- ParseUnaryExpression_to cut fuel exprType ;;
      match operand with
      | None => ret None
      | Some operand => ParsePrefix op operand
      end
    | None =>
      operand <- ParsePostfixExpression (ParseInclusiveOrExpression (ParseUnaryExpression_to cut fuel)) exprType ;;
      match operand with
      | None => ret None
      | Some operand =>
        let o := dispatch operand in
        ret (Some (Node Unary {| h_type := GetType o; h_radix := mRadix o; h_scientific := mScientificNotation o |}
                     (-1) (Some operand) None))
      end
    end
  end.

Definition ParseUnaryExpression : nat -> Ty -> P (option Expression) :=
  ParseUnaryExpression_to (fun _ => undefined).

(** [fuel] bounds the nesting of prefix operators and parentheses. *)
Definition ParseExpression_to (cut : Ty -> P (option Expression)) (fuel : nat) (exprType : Ty) : P (option Expression) :=
  ParseInclusiveOrExpression (ParseUnaryExpression_to cut fuel) exprType.

Definition ParseExpression : nat -> Ty -> P (option Expression) := ParseExpression_to (fun _ => undefined).

End Parsing.
End ExprParser.
