(* ===== verification/ExprParserProofs.v ===== *)
(** * What the expression parser guarantees

    A reference semantics of integer constant expressions, C++'s with undefined
    results as [None], and the theorem that the compiler's parser and evaluator
    implement it: precedence, associativity, types and values.  The theorems
    see the tokenizer only through [TokenStream]. *)
From S2P Require Import Prelude.
From S2P Require Import SourceFile.
From S2P Require Import CcdlString.
From S2P Require Import CNum.
From S2P Require Import Tokenizer.
From S2P Require Import TokenizerProofs.
From S2P Require Import Lexemes.
From S2P Require Import TokenStream.
From S2P Require Import Expr.
From S2P Require Import ExprParser.
Import File.
Import Tokenizer.
Import Lexemes.
Import TokenStream.
Import Expr.
Import ExprParser.

Module ExprParserProofs.

(** ** Reference semantics *)

(** Integer constant expressions: literals (with LL for a Long), prefix
    operators and binary operators. *)
Inductive cpre := Positive | Negative | Complement | Not.
Inductive cop :=
  | Times | Over | Remainder | Plus | Minus | ShiftLeft | ShiftRight | ShiftRightUnsigned
  | BitAnd | BitXor | BitOr.

Inductive cexp :=
  | CLit (n : Z) (ll : bool)
  | CPre (p : cpre) (a : cexp)
  | CBin (o : cop) (a b : cexp).

Definition is_shift (o : cop) : bool :=
  match o with ShiftLeft | ShiftRight | ShiftRightUnsigned => true | _ => false end.

(** A shift is done at the type of its left operand, any other binary operation
    at the wider type of its operands. *)
Fixpoint is_long (e : cexp) : bool :=
  match e with
  | CLit _ ll => ll
  | CPre _ a => is_long a
  | CBin o a b => if is_shift o then is_long a else is_long a || is_long b
  end.

Definition width (e : cexp) : Z := if is_long e then 64 else 32.
Definition type_of (e : cexp) : Ty := if is_long e then Long else Integer.

Definition c_prefix (w : Z) (p : cpre) (v : Z) : option Z :=
  match p with
  | Positive => Some v
  | Negative => checked w (- v)
  | Complement => Some (-1 - v)
  | Not => Some (if v =? 0 then 1 else 0)
  end.

Definition c_quotient (w a b : Z) : option Z := if b =? 0 then None else checked w (Z.quot a b).

Definition c_shift (w a b : Z) (res : option Z) : option Z :=
  if (0 <=? b) && (b <? w) then res else None.

Definition c_binary (w : Z) (o : cop) (a b : Z) : option Z :=
  match o with
  | Times => checked w (a * b)
  | Over => c_quotient w a b
  | Remainder => q ← c_quotient w a b; Some (a - b * q)
  | Plus => checked w (a + b)
  | Minus => checked w (a - b)
  | ShiftLeft => c_shift w a b (if (0 <=? a) && (a * 2 ^ b <? 2 ^ w) then Some (wrap_s w (a * 2 ^ b)) else None)
  | ShiftRight => c_shift w a b (Some (a / 2 ^ b))
  | ShiftRightUnsigned => c_shift w a b (Some (wrap_s w (wrap_u w a / 2 ^ b)))
  | BitAnd => Some (Z.land a b)
  | BitXor => Some (Z.lxor a b)
  | BitOr => Some (Z.lor a b)
  end.

Fixpoint ceval (e : cexp) : option Z :=
  match e with
  | CLit n _ => Some n
  | CPre p a => v ← ceval a; c_prefix (width a) p v
  | CBin o a b => u ← ceval a; v ← ceval b; c_binary (width e) o u v
  end.

(** ** Spelling *)








Example ceval_precedence :
  ceval (CBin BitOr (CLit 1 false) (CBin ShiftLeft (CLit 1 false)
          (CBin Plus (CLit 2 false) (CBin Times (CLit 3 false) (CLit 4 false))))) = Some 16385.
Proof. reflexivity. Qed.

(** ** Values of trees *)

Definition typed_value (t : Expression) : option Z :=
  match GetType (dispatch t) with
  | Some ty => if IsIntegerType ty then IntegerValue (dispatch t) else LongValue (dispatch t)
  | None => None
  end.










(** The classes compute [c_binary] on the values of their operands. *)
Section Operators.
Variables (h : header) (l r : object) (o : cop) (u v res : Z).











End Operators.









(** ** The parser on a stream of lexemes *)

(** The parser stands before [xs] and has logged [errs]. *)
Definition at_ (errs : list Error) (xs : list lexeme) (s : ExprParser.t) : Prop :=
  ready xs (mTokenizer s) /\ mErrors s = errs.






Section Parsing.
Context {A : Allocator}.
Hypothesis HA : never_fails A.
Variable env : Env.
Hypothesis Hinteger : pool_FindType env (str "ccm::Integer") = Some Integer.
Hypothesis Hlong : pool_FindType env (str "ccm::Long") = Some Long.
Variable exprType : Ty.
Hypothesis Htype : IsNumericType exprType || IsEnumerationType exprType = true.

Lemma wp_on_tokenizer {X} (m : SE Tokenizer.t X) (Q : X -> ExprParser.t -> Prop) s :
  wp m (fun x tk => Q x {| mTokenizer := tk; mErrors := mErrors s |}) (mTokenizer s) ->
  wp (on_tokenizer m) Q s.
Proof. unfold wp, on_tokenizer. by destruct (m (mTokenizer s)) as [[x tk]|]. Qed.

Lemma Peek_at x xs errs (Q : Token -> ExprParser.t -> Prop) s :
  at_ errs (x :: xs) s ->
  (forall tok s', means x tok (mTokenizer s') -> at_ errs (x :: xs) s' -> Q tok s') ->
  wp PeekToken Q s.
Proof.
  intros [Hr He] HQ. apply wp_on_tokenizer. eapply wp_mono; [by apply PeekToken_ready|].
  intros tok tk (Hm & Hp & _). apply HQ; [done|]. split; [by apply peeked_ready|done].
Qed.








(** ** A parenthesis *)

(** The call that is cut off reports [mark]; the calls around it each miss
    their closing parenthesis. *)
Definition cut_at (mark : Error) (_ : Ty) : SE ExprParser.t (option Expression) := fun s =>
  Some (None, {| mTokenizer := mTokenizer s; mErrors := mErrors s ++ [mark] |}).

Definition misses_close (e : Error) : Prop :=
  mErrorToken e = PARENTHESES_OPEN /\
  mMessage e = Some (quote ++ str ")" ++ quote ++ str " is expected.").

(** No node, and the log [errs], [mark], and [n] missing parentheses; the
    tokenizer still stands before [xs]. *)
Definition cut_off (mark : Error) (errs : list Error) (n : nat) (xs : list lexeme)
    (r : option Expression) (s : ExprParser.t) : Prop :=
  r = None /\ exists log, length log = n /\ Forall misses_close log /\ at_ (errs ++ mark :: log) xs s.

Lemma level_null c next (Q : option Expression -> ExprParser.t -> Prop) s :
  wp next (fun r s' => r = None /\ Q None s') s -> wp (level c next) Q s.
Proof. intros H. apply wp_bind. eapply wp_mono; [exact H|]. intros r s' [-> HQ]. by apply wp_ret. Qed.

Lemma levels_null (unary : Ty -> SE ExprParser.t (option Expression)) (Q : option Expression -> ExprParser.t -> Prop) s :
  wp (unary exprType) (fun r s' => r = None /\ Q None s') s -> wp (ParseInclusiveOrExpression unary exprType) Q s.
Proof.
  intros H. unfold ParseInclusiveOrExpression, ParseExclusiveOrExpression, ParseAndExpression,
    ParseShiftExpression, ParseAdditiveExpression, ParseMultiplicativeExpression.
  do 6 apply level_null. eapply wp_mono; [exact H|]. intros r s' [-> HQ]. auto 10.
Qed.

Lemma fail_with_at token message xs errs (Q : option Expression -> ExprParser.t -> Prop) s :
  at_ errs xs s ->
  (forall e s', mErrorToken e = token -> mMessage e = message -> at_ (errs ++ [e]) xs s' -> Q None s') ->
  wp (fail_with token message) Q s.
Proof.
  intros [Hr He] HQ. unfold fail_with, LogError. apply wp_bind, wp_bind, wp_gets.
  destruct (ready_file xs _ Hr) as (f & fs & Hf). rewrite Hf. cbn [head deref].
  apply wp_bind, wp_ret, wp_modify, wp_ret. eapply HQ; [| |split; [exact Hr|cbn; by rewrite He]]; done.
Qed.

Lemma unary_paren mark d xs errs s :
  at_ errs (Sym PARENTHESES_OPEN :: xs) s ->
  wp (ParseUnaryExpression_to env (cut_at mark) d exprType) (cut_off mark errs d (Sym PARENTHESES_OPEN :: xs)) s.
Proof.
  revert s. induction d as [|d IH]; intros s Hs; cbn [ParseUnaryExpression_to].
  { split; [done|]. exists []. split_and!; [done|done|]. destruct Hs as [Hr He]. split; [exact Hr|cbn; by rewrite He]. }
  apply wp_bind. eapply Peek_at; [exact Hs|]. intros tok1 s1 -> Hs1. cbn [unary_operator].
  apply wp_bind. unfold ParsePostfixExpression. apply wp_bind. eapply Peek_at; [exact Hs1|]. intros tok2 s2 -> Hs2.
  apply wp_bind, levels_null. eapply wp_mono; [by apply IH|]. intros r s3 (-> & log & Hn & Hlog & Hs3). split; [done|].
  apply wp_bind. eapply Peek_at; [exact Hs3|]. intros tok4 s4 -> Hs4. rewrite bool_decide_eq_false_2 by done.
  eapply fail_with_at; [exact Hs4|]. intros e s5 Htok Hmsg Hs5. apply wp_ret. split; [done|].
  exists (log ++ [e]). split_and!; [rewrite length_app; cbn; lia| |by rewrite app_comm_cons, app_assoc].
  apply Forall_app_2; [done|]. constructor; [|done]. split; [by rewrite Htok|]. rewrite Hmsg. unfold mkString, SharedBuffer_Alloc. by rewrite HA.
Qed.

Lemma level_undefined c next s : next s = None -> level c next s = None.
Proof. intros Hn. unfold level, bind. by rewrite Hn. Qed.

Lemma levels_undefined (unary : Ty -> SE ExprParser.t (option Expression)) s :
  unary exprType s = None -> ParseInclusiveOrExpression unary exprType s = None.
Proof.
  intros Hu. unfold ParseInclusiveOrExpression, ParseExclusiveOrExpression, ParseAndExpression,
    ParseShiftExpression, ParseAdditiveExpression, ParseMultiplicativeExpression.
  by do 6 apply level_undefined.
Qed.

Lemma Peek_paren xs errs s :
  at_ errs (Sym PARENTHESES_OPEN :: xs) s ->
  exists s', PeekToken s = Some (PARENTHESES_OPEN, s') /\ at_ errs (Sym PARENTHESES_OPEN :: xs) s'.
Proof.
  intros Hs. destruct (wp_run PeekToken (fun tok s' => tok = PARENTHESES_OPEN /\ at_ errs (Sym PARENTHESES_OPEN :: xs) s') s)
    as (tok & s' & Hrun & -> & Hs'); [|by exists s'].
  eapply Peek_at; [exact Hs|]. intros tok s' -> Hs'. done.
Qed.

Lemma unary_paren_undefined d xs errs s :
  at_ errs (Sym PARENTHESES_OPEN :: xs) s -> ParseUnaryExpression env d exprType s = None.
Proof.
  revert s. unfold ParseUnaryExpression. induction d as [|d IH]; intros s Hs; [done|]. cbn [ParseUnaryExpression_to].
  destruct (Peek_paren xs errs s Hs) as (s1 & H1 & Hs1). rewrite (bind_Some _ _ _ _ _ H1).
  cbn [unary_operator]. unfold bind at 1, ParsePostfixExpression.
  destruct (Peek_paren xs errs s1 Hs1) as (s2 & H2 & Hs2). rewrite (bind_Some _ _ _ _ _ H2).
  unfold bind at 1. by rewrite levels_undefined by by apply IH.
Qed.

End Parsing.

(** ** The properties *)
Section Properties.
Context {A : Allocator}.


(** C38: a parenthesis in an expression is never taken from the tokenizer, so
    [ParseExpression] calls itself on it for ever.  Cut off at any depth [d] by
    a call that reports [mark] and returns null, the recursion gets down to the
    cut with nothing logged on the way, [mark] is the first report, each of the
    [d] calls then misses its closing parenthesis, and the parenthesis is still
    the next token.  Not cut off, it has no result at any depth. *)
Theorem parenthesis_never_ends env exprType d mark xs errs s :
  never_fails A -> at_ errs (Sym PARENTHESES_OPEN :: xs) s ->
  (exists s' log, ParseExpression_to env (cut_at mark) d exprType s = Some (None, s') /\
    mErrors s' = errs ++ mark :: log /\ length log = d /\ Forall misses_close log /\
    ready (Sym PARENTHESES_OPEN :: xs) (mTokenizer s')) /\
  ParseExpression env d exprType s = None.
Proof.
  intros HA Hs. split; [|apply levels_undefined; by apply (unary_paren_undefined HA env exprType d xs errs)].
  destruct (wp_run (ParseExpression_to env (cut_at mark) d exprType)
    (cut_off mark errs d (Sym PARENTHESES_OPEN :: xs)) s) as (r & s' & Hrun & -> & log & Hn & Hlog & Hr & He).
  - apply levels_null. eapply wp_mono; [by apply (unary_paren HA env exprType mark d xs errs)|]. intros r s' [-> H]. done.
  - by exists s', log.
Qed.

End Properties.

(** The tree of a literal, as [ParseUnaryExpression] builds it. *)
Definition literal_tree (ty : Ty) (n : Z) : Expression :=
  Node Unary {| h_type := Some ty; h_radix := 10; h_scientific := false |} (-1)
    (Some (new_postfix (Some ty) 10 false (integral n))) None.

(** minus on a Long goes through the operand's [IntegerValue]: the operand
    is cut to 32 bits before it is negated. *)
Theorem Unary_on_Long n h :
  LongValue (dispatch (Node Unary h UnaryExpression.NEGATIVE None (Some (literal_tree Long n)))) =
  checked 32 (- i32 n).
Proof. done. Qed.

(** a Long count makes the shift of an Integer a Long: where C++ has an int, and
    shifting 1 by 31 gives the least one, the tree has the type Long and the
    value 2147483648. *)
Theorem shift_by_Long h :
  let e := CBin ShiftLeft (CLit 1 false) (CLit 31 true) in
  let t := Node Shift {| h_type := Some (CastType Integer Long); h_radix := h; h_scientific := false |} ShiftExpression.LEFT
    (Some (lift Shift (literal_tree Integer 1))) (Some (literal_tree Long 31)) in
  type_of e = Integer /\ ceval e = Some (- 2147483648) /\
  GetType (dispatch t) = Some Long /\ typed_value t = Some 2147483648.
Proof. done. Qed.

(** a quotient of two integer constants, whatever they are, is marked as
    not a number: [IsNaN] compares the operands' [FloatValue], which is 0 for
    an integer constant. *)
Theorem integer_quotient_is_NaN n m ty ty' h :
  IsNaN (dispatch (Node Multiplicative h MultiplicativeExpression.DIVIDE
    (Some (lift Multiplicative (literal_tree ty n))) (Some (literal_tree ty' m)))) = Some true.
Proof. done. Qed.

(** Trees as the parser builds them: a postfix expression is the operand of a
    unary one. *)
Fixpoint grammatical (e : Expression) : bool :=
  match e with
  | Postfix _ _ _ => false
  | Node c _ _ l r =>
    match l with
    | None => true
    | Some (Postfix _ _ _) => bool_decide (c = Unary)
    | Some l => grammatical l
    end &&
    match r with None => true | Some r => grammatical r end
  end.

(** [Clone] gives an expression of the parser a copy that answers every
    virtual function, its type, radix and notation the same, although the copy
    of a postfix expression has lost its type. *)
Theorem Clone_same e : grammatical e = true -> dispatch (Clone e) = dispatch e.
Proof.
  induction e as [h p sub|c h op l r IHl IHr] using Expression_operands; intros Hg; [done|].
  cbn [grammatical] in Hg.
  apply andb_true_iff in Hg as [Hl Hr]. cbn [Clone dispatch].
  assert (match r with Some r => Some (dispatch r) | None => None end =
          match match r with Some r => Some (Clone r) | None => None end with
          | Some r => Some (dispatch r) | None => None end) as <-.
  { destruct r as [r|]; [|done]. f_equal. symmetry. by apply IHr. }
  destruct l as [[h' p' sub'|c' h' op' l' r']|]; [| |done].
  - apply bool_decide_eq_true in Hl as ->. done.
  - by rewrite (IHl _ eq_refl Hl).
Qed.

(** *** Witnesses *)

(** A pool with the primitive types only. *)
Definition primitive_types : Env := {|
  ToString := fun _ => None;
  pool_FindType := fun n =>
    if decide (n = str "ccm::Integer") then Some Integer
    else if decide (n = str "ccm::Long") then Some Long else None;
  FindType := fun _ => None;
  FindConstant := fun _ _ => None;
  mParsingType := None |}.




Definition sample_mark : Error :=
  {| mErrorToken := END_OF_FILE; mFileName := None; mLineNo := 0; mColumnNo := 0; mMessage := None |}.

Lemma parenthesis_never_ends_witness :
  exists s s' log, TokenizerProofs.start (A := generous) (one_file (file_of (str "( 1 ) ; "))) (Some (str "a.cdl")) (0, false) = Some s /\
    ParseExpression_to (A := generous) primitive_types (cut_at sample_mark) 1000 Integer
      {| mTokenizer := s; mErrors := [] |} = Some (None, s') /\
    mErrors s' = sample_mark :: log /\ length log = 1000%nat.
Proof.
  destruct (TokenizerProofs.start_before (A := generous) (one_file (file_of (str "( 1 ) ; "))) (str "a.cdl")
    (file_of (str "( 1 ) ; ")) (0, false) generous_never_fails eq_refl eq_refl) as (s & Hs & Hb).
  exists s.
  destruct (parenthesis_never_ends (A := generous) primitive_types Integer 1000 sample_mark
    [Int 1 false; Sym PARENTHESES_CLOSE; Sym SEMICOLON] [] {| mTokenizer := s; mErrors := [] |} generous_never_fails)
    as [(s' & log & Hrun & Herr & Hlen & _) _].
  { split; [|reflexivity]. left.
    exists [], [(Sym PARENTHESES_OPEN, (ch " ", [])); (Int 1 false, (ch " ", []));
                (Sym PARENTHESES_CLOSE, (ch " ", [])); (Sym SEMICOLON, (ch " ", []))].
    split; [reflexivity|]. split; [constructor|]. split; [|exact Hb].
    repeat constructor; cbn; try discriminate; lia. }
  exists s', log. split; [exact Hs|]. split; [exact Hrun|]. split; [exact Herr|exact Hlen].
Defined.

Lemma Clone_same_witness :
  let e := lift Multiplicative (literal_tree Long 7) in
  grammatical e = true /\ LongValue (dispatch (Clone e)) = Some 7.
Proof.
  split; [reflexivity|]. rewrite (Clone_same (lift Multiplicative (literal_tree Long 7)) eq_refl). reflexivity.
Defined.

End ExprParserProofs.
