(* ===== verification/RefBase.v ===== *)
(** * Reference counting of the runtime: RefBase

    [src/src/runtime/util/ccmrefbase.cpp].  An object derived from [RefBase]
    has a [WeakRefImpl] with two atomic counters.  An operation is a task whose
    steps are the atomic accesses of its body, in program order; tasks of any
    number of threads interleave.  A [compare_exchange_weak] may fail
    spuriously.  Every step checks that the memory it touches is alive and that
    no [assert] of the code fails; otherwise it is [Bad].

    Owners are tokens: a strong or weak reference that is not used by a task
    right now.  A task that needs a reference to be alive while it runs borrows
    one and gives it back at its end. *)
From S2P Require Import Prelude.

Module RefBase.

Definition INITIAL_STRONG_VALUE : Z := Z.shiftl 1 28.
Definition MAX_COUNT : Z := 0xfffff.
Definition BAD_STRONG (c : Z) : bool :=
  (c =? 0) || negb (Z.land c (Z.lnot (Z.lor MAX_COUNT INITIAL_STRONG_VALUE)) =? 0).
Definition BAD_WEAK (c : Z) : bool := (c =? 0) || negb (Z.land c (Z.lnot MAX_COUNT) =? 0).

Definition OBJECT_LIFETIME_STRONG : Z := 0.
Definition OBJECT_LIFETIME_WEAK : Z := 1.
Definition OBJECT_LIFETIME_MASK : Z := 1.
Definition FIRST_INC_STRONG : Z := 1.

(** The counters, and which of the two allocations are still alive. *)
Record mem := {
  mStrong : Z; mWeak : Z; mFlags : Z;
  mRefs_alive : bool;    (* the [WeakRefImpl] *)
  mBase_alive : bool     (* the object *)
}.

(** [RefBase::RefBase] and [WeakRefImpl::WeakRefImpl]. *)
Definition new_object : mem :=
  {| mStrong := INITIAL_STRONG_VALUE; mWeak := 0; mFlags := 0; mRefs_alive := true; mBase_alive := true |}.

(** [RefBase::ExtendObjectLifetime], called while the object is built. *)
Definition ExtendObjectLifetime (mode : Z) (m : mem) : mem :=
  {| mStrong := mStrong m; mWeak := mWeak m; mFlags := Z.lor (mFlags m) mode;
     mRefs_alive := mRefs_alive m; mBase_alive := mBase_alive m |}.

Definition set_mStrong (v : Z) (m : mem) : mem :=
  {| mStrong := v; mWeak := mWeak m; mFlags := mFlags m; mRefs_alive := mRefs_alive m; mBase_alive := mBase_alive m |}.
Definition set_mWeak (v : Z) (m : mem) : mem :=
  {| mStrong := mStrong m; mWeak := v; mFlags := mFlags m; mRefs_alive := mRefs_alive m; mBase_alive := mBase_alive m |}.
Definition free_mRefs (m : mem) : mem :=
  {| mStrong := mStrong m; mWeak := mWeak m; mFlags := mFlags m; mRefs_alive := false; mBase_alive := mBase_alive m |}.
Definition free_mBase (m : mem) : mem :=
  {| mStrong := mStrong m; mWeak := mWeak m; mFlags := mFlags m; mRefs_alive := mRefs_alive m; mBase_alive := false |}.

(** [fetch_add] and [fetch_sub] of an [atomic<Integer>]. *)
Definition add_strong (v : Z) (m : mem) : mem := set_mStrong (i32 (mStrong m + v)) m.
Definition add_weak (v : Z) (m : mem) : mem := set_mWeak (i32 (mWeak m + v)) m.

Definition lifetime_strong (m : mem) : bool := Z.land (mFlags m) OBJECT_LIFETIME_MASK =? OBJECT_LIFETIME_STRONG.

(** [OnIncStrongAttempted] as [RefBase] defines it. *)
Definition OnIncStrongAttempted (flags : Z) : bool := negb (Z.land flags FIRST_INC_STRONG =? 0).

(** References and what lets an operation run: the creator's pointer to the
    new object, a strong or a weak reference. *)
Inductive right := Creator | Strong | Weak.

(** Where a task stands: before the access its name says. *)
Inductive task :=
  | IncStrong_weak (by_ : right)        (* refs->IncWeak(id) *)
  | IncStrong_strong (by_ : right)      (* mStrong.fetch_add(1) *)
  | IncStrong_first (by_ : right)       (* mStrong.fetch_sub(INITIAL_STRONG_VALUE) *)
  | DecStrong_strong                    (* mStrong.fetch_sub(1) *)
  | DecStrong_last                      (* OnLastStrongRef, delete this *)
  | DecWeak_weak (owned : right)        (* mWeak.fetch_sub(1) *)
  | DecWeak_last                        (* mStrong.load(), delete *)
  | IncWeak_weak (by_ : right)          (* mWeak.fetch_add(1) *)
  | Attempt_weak                        (* IncWeak(id) *)
  | Attempt_load                        (* mStrong.load() *)
  | Attempt_cas (curCount : Z)          (* the first compare_exchange_weak *)
  | Attempt_hard (curCount : Z)         (* mFlags.load() *)
  | Attempt_cas_initial (curCount : Z)  (* the second compare_exchange_weak *)
  | Attempt_revive                      (* mStrong.fetch_add(1) *)
  | Attempt_fixup                       (* mStrong.fetch_sub(INITIAL_STRONG_VALUE) *)
  | Attempt_fail                        (* DecWeak(id) *)
  | Force_weak (by_ : right)            (* refs->IncWeak(id) *)
  | Force_strong (by_ : right)          (* mStrong.fetch_add(1) *)
  | Force_first (by_ : right)           (* mStrong.fetch_sub(INITIAL_STRONG_VALUE) *)
  | AttemptWeak_load                    (* mWeak.load() *)
  | AttemptWeak_cas (curCount : Z).     (* compare_exchange_weak *)

(** What a step leads to: another point of the task, its end, which gives
    references back or to the caller, or an error. *)
Inductive outcome :=
  | Go (m : mem) (t : task)
  | Done (m : mem) (refs : list right)
  | Bad.

(** An access through [mRefs]. *)
Definition with_refs (m : mem) (o : outcome) : outcome := if mRefs_alive m then o else Bad.

(** [RefBase::~RefBase] and the release of the object. *)
Definition delete_object (m : mem) : option mem :=
  if mBase_alive m && mRefs_alive m then
    if Z.land (mFlags m) OBJECT_LIFETIME_MASK =? OBJECT_LIFETIME_WEAK then
      Some (free_mBase (if mWeak m =? 0 then free_mRefs m else m))
    else if mStrong m =? INITIAL_STRONG_VALUE then Some (free_mBase (free_mRefs m))
    else Some (free_mBase m)
  else None.

Definition IncStrong (t : task) (m : mem) : outcome :=
  match t with
  | IncStrong_weak r =>
    (* [mRefs] is read from the object *)
    if negb (mBase_alive m) || (mWeak m <? 0) then Bad else Go (add_weak 1 m) (IncStrong_strong r)
  | IncStrong_strong r =>
    let c := mStrong m in
    if c <=? 0 then Bad
    else if negb (c =? INITIAL_STRONG_VALUE) then Done (add_strong 1 m) [r; Strong]
    else Go (add_strong 1 m) (IncStrong_first r)
  | IncStrong_first r =>
    if mStrong m <=? INITIAL_STRONG_VALUE then Bad
    else if mBase_alive m then Done (add_strong (- INITIAL_STRONG_VALUE) m) [r; Strong] else Bad
  | _ => Bad
  end.

Definition DecWeak (t : task) (m : mem) : outcome :=
  match t with
  | DecWeak_weak _ =>
    let c := mWeak m in
    if BAD_WEAK c then Bad
    else if negb (c =? 1) then Done (add_weak (-1) m) []
    else Go (add_weak (-1) m) DecWeak_last
  | DecWeak_last =>
    if lifetime_strong m then
      if mStrong m =? INITIAL_STRONG_VALUE then Done m []
      else Done (free_mRefs m) []
    else
      (* [OnLastWeakRef], [delete impl->mBase] *)
      match delete_object m with Some m => Done m [] | None => Bad end
  | _ => Bad
  end.

Definition DecStrong (t : task) (m : mem) : outcome :=
  match t with
  | DecStrong_strong =>
    let c := mStrong m in
    if negb (mBase_alive m) || BAD_STRONG c then Bad
    else if c =? 1 then Go (add_strong (-1) m) DecStrong_last
    else Go (add_strong (-1) m) (DecWeak_weak Strong)
  | DecStrong_last =>
    if negb (mBase_alive m) then Bad
    else if lifetime_strong m then
      match delete_object m with Some m => Go m (DecWeak_weak Strong) | None => Bad end
    else Go m (DecWeak_weak Strong)
  | _ => Bad
  end.

(** [ForceIncStrong], which also accepts a count of 0. *)
Definition ForceIncStrong (t : task) (m : mem) : outcome :=
  match t with
  | Force_weak r =>
    if negb (mBase_alive m) || (mWeak m <? 0) then Bad else Go (add_weak 1 m) (Force_strong r)
  | Force_strong r =>
    let c := mStrong m in
    if c <? 0 then Bad
    else if c =? INITIAL_STRONG_VALUE then Go (add_strong 1 m) (Force_first r)
    else if (c =? 0) && negb (mBase_alive m) then Bad
    else Done (add_strong 1 m) [r; Strong]
  | Force_first r =>
    if mBase_alive m then Done (add_strong (- INITIAL_STRONG_VALUE) m) [r; Strong] else Bad
  | _ => Bad
  end.

(** [WeakRef::IncWeak]; an owner of the object calls it through [CreateWeak],
    which reads [mRefs] from the object. *)
Definition IncWeak (t : task) (m : mem) : outcome :=
  match t with
  | IncWeak_weak r =>
    if match r with Weak => false | _ => negb (mBase_alive m) end then Bad
    else if mWeak m <? 0 then Bad else Done (add_weak 1 m) [r; Weak]
  | _ => Bad
  end.

(** The first loop's test; the branch behind it is [Attempt_hard]. *)
Definition attempt_test (curCount : Z) : task :=
  if (curCount >? 0) && negb (curCount =? INITIAL_STRONG_VALUE) then Attempt_cas curCount
  else Attempt_hard curCount.

(** Behind the loops: the count is fixed up when it was the initial value. *)
Definition attempt_end (curCount : Z) (m : mem) : outcome :=
  if curCount =? INITIAL_STRONG_VALUE then Go m Attempt_fixup else Done m [Weak; Strong].

(** [spurious]: the exchange fails although the value is the expected one. *)
Definition AttemptIncStrong (spurious : bool) (t : task) (m : mem) : outcome :=
  match t with
  | Attempt_weak => if mWeak m <? 0 then Bad else Go (add_weak 1 m) Attempt_load
  | Attempt_load => if mStrong m <? 0 then Bad else Go m (attempt_test (mStrong m))
  | Attempt_cas curCount =>
    if (mStrong m =? curCount) && negb spurious then Done (set_mStrong (i32 (curCount + 1)) m) [Weak; Strong]
    else Go m (attempt_test (mStrong m))
  | Attempt_hard curCount =>
    if lifetime_strong m then
      if curCount <=? 0 then Go m Attempt_fail else Go m (Attempt_cas_initial curCount)
    else if negb (mBase_alive m) then Bad
    else if negb (OnIncStrongAttempted FIRST_INC_STRONG) then Go m Attempt_fail
    else Go m Attempt_revive
  | Attempt_cas_initial curCount =>
    if (mStrong m =? curCount) && negb spurious then attempt_end curCount (set_mStrong (i32 (curCount + 1)) m)
    else if mStrong m >? 0 then Go m (Attempt_cas_initial (mStrong m))
    else Go m Attempt_fail
  | Attempt_revive =>
    (* [OnLastStrongRef] of the base class does nothing *)
    if mBase_alive m then attempt_end (mStrong m) (add_strong 1 m) else Bad
  | Attempt_fixup => Done (add_strong (- INITIAL_STRONG_VALUE) m) [Weak; Strong]
  | Attempt_fail =>
    if BAD_WEAK (mWeak m) then Bad
    else if negb (mWeak m =? 1) then Done (add_weak (-1) m) [Weak]
    else Go (add_weak (-1) m) DecWeak_last
  | _ => Bad
  end.

Definition AttemptIncWeak (spurious : bool) (t : task) (m : mem) : outcome :=
  match t with
  | AttemptWeak_load =>
    if mWeak m <? 0 then Bad
    else if mWeak m >? 0 then Go m (AttemptWeak_cas (mWeak m)) else Done m [Weak]
  | AttemptWeak_cas curCount =>
    if (mWeak m =? curCount) && negb spurious then Done (set_mWeak (i32 (curCount + 1)) m) [Weak; Weak]
    else if mWeak m >? 0 then Go m (AttemptWeak_cas (mWeak m)) else Done m [Weak]
  | _ => Bad
  end.

(** One step of a task. *)
Definition exec (spurious : bool) (t : task) (m : mem) : outcome :=
  with_refs m
    match t with
    | IncStrong_weak _ | IncStrong_strong _ | IncStrong_first _ => IncStrong t m
    | DecStrong_strong | DecStrong_last => DecStrong t m
    | DecWeak_weak _ | DecWeak_last => DecWeak t m
    | IncWeak_weak _ => IncWeak t m
    | Force_weak _ | Force_strong _ | Force_first _ => ForceIncStrong t m
    | AttemptWeak_load | AttemptWeak_cas _ => AttemptIncWeak spurious t m
    | _ => AttemptIncStrong spurious t m
    end.

(** ** The system of all threads *)

Record sys := {
  s_mem : mem;
  s_refs : list right;     (* references nobody is using right now *)
  s_tasks : list task
}.

(** How many references there are at most once the running operations end:
    an operation gives back at most two. *)
Definition size (s : sys) : Z := Z.of_nat (length (s_refs s)) + 2 * Z.of_nat (length (s_tasks s)).

(** The operations a reference allows.  The creator's pointer is spent by the
    first [IncStrong]; with [early] it may hand out weak references before.  A
    weak reference may force a strong one when it keeps the object alive. *)
Inductive begins (early : bool) (m : mem) : right -> task -> Prop :=
  | begin_first : begins early m Creator (IncStrong_weak Creator)
  | begin_force_first : begins early m Creator (Force_weak Creator)
  | begin_early : early = true -> begins early m Creator (IncWeak_weak Creator)
  | begin_copy : begins early m Strong (IncStrong_weak Strong)
  | begin_force : begins early m Strong (Force_weak Strong)
  | begin_release : begins early m Strong DecStrong_strong
  | begin_weak : begins early m Strong (IncWeak_weak Strong)
  | begin_weak_copy : begins early m Weak (IncWeak_weak Weak)
  | begin_weak_release : begins early m Weak (DecWeak_weak Weak)
  | begin_promote : begins early m Weak Attempt_weak
  | begin_weak_attempt : begins early m Weak AttemptWeak_load
  | begin_revive : lifetime_strong m = false -> begins early m Weak (Force_weak Weak).

(** The references an ended task leaves: the creator's pointer does not
    survive its [IncStrong]. *)
Definition returned (t : task) (refs : list right) : list right :=
  match t with
  | IncStrong_strong Creator | IncStrong_first Creator
  | Force_strong Creator | Force_first Creator => [Strong]
  | _ => refs
  end.

(** Tasks take steps in any order; an operation begins only while the counters
    can stay within [MAX_COUNT]. *)
Inductive step (early : bool) : sys -> option sys -> Prop :=
  | step_begin m l1 r l2 ts t :
      begins early m r t ->
      size {| s_mem := m; s_refs := l1 ++ r :: l2; s_tasks := ts |} < MAX_COUNT ->
      step early {| s_mem := m; s_refs := l1 ++ r :: l2; s_tasks := ts |}
        (Some {| s_mem := m; s_refs := l1 ++ l2; s_tasks := t :: ts |})
  | step_go m refs l1 t l2 spurious m' t' :
      exec spurious t m = Go m' t' ->
      step early {| s_mem := m; s_refs := refs; s_tasks := l1 ++ t :: l2 |}
        (Some {| s_mem := m'; s_refs := refs; s_tasks := l1 ++ t' :: l2 |})
  | step_done m refs l1 t l2 spurious m' back :
      exec spurious t m = Done m' back ->
      step early {| s_mem := m; s_refs := refs; s_tasks := l1 ++ t :: l2 |}
        (Some {| s_mem := m'; s_refs := returned t back ++ refs; s_tasks := l1 ++ l2 |})
  | step_bad m refs l1 t l2 spurious :
      exec spurious t m = Bad ->
      step early {| s_mem := m; s_refs := refs; s_tasks := l1 ++ t :: l2 |} None.

(** The object as its creator has it, which may have extended its lifetime. *)
Definition created (mode : Z) : sys :=
  {| s_mem := ExtendObjectLifetime mode new_object; s_refs := [Creator]; s_tasks := [] |}.

Inductive reachable (early : bool) (mode : Z) : sys -> Prop :=
  | reach_new : reachable early mode (created mode)
  | reach_step s s' : reachable early mode s -> step early s (Some s') -> reachable early mode s'.

End RefBase.
