(* ===== verification/RefBaseProofs.v ===== *)
(** * Every interleaving of reference operations is memory safe

    The accounts of [RefBase]: what each reference and each task in progress
    contributes to the two counters, the invariant that ties the counters and
    the two allocations to them, and its preservation by every step. *)
From S2P Require Import Prelude.
From S2P Require Import RefBase.

Module RefBaseProofs.
Import RefBase.

(** ** Accounts *)

(** What is held: units of the strong and of the weak count, and the tasks
    which are about to release the object or the counters. *)
Record account := acc { a_strong : Z; a_weak : Z; a_last_strong : Z; a_last_weak : Z }.

Definition plus (a b : account) : account :=
  acc (a_strong a + a_strong b) (a_weak a + a_weak b)
    (a_last_strong a + a_last_strong b) (a_last_weak a + a_last_weak b).
Definition zero : account := acc 0 0 0 0.

Definition of_right (r : right) : account :=
  match r with Creator => zero | Strong => acc 1 1 0 0 | Weak => acc 0 1 0 0 end.

Definition of_task (t : task) : account :=
  match t with
  | IncStrong_weak r | IncWeak_weak r | Force_weak r => of_right r
  | IncStrong_strong r | Force_strong r => plus (of_right r) (acc 0 1 0 0)
  | IncStrong_first _ | Force_first _ => zero
  | DecStrong_strong => acc 1 1 0 0
  | DecStrong_last => acc 0 1 1 0
  | DecWeak_weak _ => acc 0 1 0 0
  | DecWeak_last => acc 0 0 0 1
  | Attempt_weak | AttemptWeak_load | AttemptWeak_cas _ => acc 0 1 0 0
  | Attempt_load | Attempt_cas _ | Attempt_hard _ | Attempt_cas_initial _
  | Attempt_revive | Attempt_fixup | Attempt_fail => acc 0 2 0 0
  end.

Definition is_Strong (r : right) : bool := match r with Strong => true | _ => false end.

Fixpoint total {A} (f : A -> account) (l : list A) : account :=
  match l with [] => zero | x :: l => plus (f x) (total f l) end.

Definition nonneg (a : account) : Prop :=
  0 <= a_strong a /\ 0 <= a_weak a /\ 0 <= a_last_strong a /\ 0 <= a_last_weak a.

(** ** The counters against the accounts, once the first strong reference is there *)

Definition is_strong_mode (mode : Z) : bool := mode =? OBJECT_LIFETIME_STRONG.

Record live (mode : Z) (a : account) (m : mem) : Prop := {
  live_mode : mFlags m = mode;
  live_strong : mStrong m = a_strong a;
  live_weak : mWeak m = a_weak a;
  live_refs : mRefs_alive m = (0 <? a_weak a + a_last_weak a);
  live_last_weak : a_last_weak a = 0 \/ (a_last_weak a = 1 /\ a_weak a = 0);
  live_base : mBase_alive m =
    if is_strong_mode mode then 0 <? a_strong a + a_last_strong a else mRefs_alive m;
  live_last_strong : is_strong_mode mode = true ->
    a_last_strong a = 0 \/ (a_last_strong a = 1 /\ a_strong a = 0)
}.

(** The points a task can be at then. *)
Definition can_be (mode : Z) (t : task) : Prop :=
  match t with
  | IncStrong_weak r | IncStrong_strong r => r = Strong
  | Force_weak r | Force_strong r => r = Strong \/ (r = Weak /\ is_strong_mode mode = false)
  | IncWeak_weak r => r <> Creator
  | IncStrong_first _ | Force_first _ | Attempt_cas_initial _ | Attempt_fixup => False
  | Attempt_cas c => 0 < c < MAX_COUNT
  | AttemptWeak_cas c => 0 < c < MAX_COUNT
  | Attempt_hard c => c = 0
  | Attempt_revive => is_strong_mode mode = false
  | _ => True
  end.

Lemma bad_weak_ok c : 0 < c <= MAX_COUNT -> BAD_WEAK c = false.
Proof.
  intros H. unfold BAD_WEAK. apply orb_false_iff. split; [apply Z.eqb_neq; lia|].
  apply negb_false_iff, Z.eqb_eq. change MAX_COUNT with (Z.ones 20).
  rewrite <- Z.ldiff_land, Z.ldiff_ones_r, Z.shiftr_div_pow2 by lia.
  rewrite Z.div_small; [reflexivity|]. unfold MAX_COUNT in H. lia.
Qed.

Lemma bad_strong_ok c : 0 < c <= MAX_COUNT -> BAD_STRONG c = false.
Proof.
  intros H. unfold BAD_STRONG. apply orb_false_iff. split; [apply Z.eqb_neq; lia|].
  apply negb_false_iff, Z.eqb_eq.
  rewrite <- Z.ldiff_land, <- Z.ldiff_ldiff_l. change MAX_COUNT with (Z.ones 20).
  rewrite Z.ldiff_ones_r, Z.shiftr_div_pow2 by lia.
  rewrite Z.div_small; [reflexivity|]. unfold MAX_COUNT in H. lia.
Qed.

Lemma i32_small z : -1 <= z <= MAX_COUNT -> i32 z = z.
Proof. intros H. apply wrap_s_id; [lia|]. unfold MAX_COUNT in H. unfold fits_s. cbn. lia. Qed.

(** ** One step of one task *)

(** [o] leads from a live state with [rest] held by the others to a live one. *)
Definition keeps (mode : Z) (rest : account) (t : task) (o : outcome) : Prop :=
  match o with
  | Go m' t' => can_be mode t' /\ live mode (plus rest (of_task t')) m'
  | Done m' back =>
    returned t back = back /\ Forall (fun r => r <> Creator) back /\ (length back <= 2)%nat /\
    live mode (plus rest (total of_right back)) m'
  | Bad => False
  end.

(** Decides the comparisons of a step one by one; the accounts exclude the
    wrong cases. *)
Ltac decide_comparison :=
  match goal with
  | |- context [BAD_WEAK ?c] => rewrite (bad_weak_ok c) by lia
  | |- context [BAD_STRONG ?c] => rewrite (bad_strong_ok c) by lia
  | |- context [i32 ?c] => rewrite (i32_small c) by lia
  | |- context [?a <? ?b] => destruct (Z.ltb_spec a b); try (exfalso; lia)
  | |- context [?a <=? ?b] => destruct (Z.leb_spec a b); try (exfalso; lia)
  | |- context [?a >? ?b] => rewrite (Z.gtb_ltb a b)
  | |- context [?a =? ?b] => destruct (Z.eqb_spec a b); try (exfalso; lia)
  end.

Ltac account_step :=
  repeat (decide_comparison; cbn);
  repeat match goal with |- _ /\ _ => split | |- live _ _ _ => split end; cbn;
  repeat (decide_comparison; cbn);
  try first [lia | reflexivity | congruence | (intros; lia) | tauto | (repeat constructor; discriminate)].

(** The references a task can run by. *)
Ltac which_right :=
  repeat match goal with
  | H : ?r = Strong |- _ => subst r
  | H : _ = Strong \/ (_ = Weak /\ _) |- _ => destruct H as [->|[-> ?]]; try discriminate
  | r : right |- _ => destruct r
  end; cbn in *; try congruence.

Ltac open_step :=
  repeat (unfold delete_object, attempt_end, attempt_test, lifetime_strong; cbn);
  change INITIAL_STRONG_VALUE with 268435456 in *;
  change (OnIncStrongAttempted FIRST_INC_STRONG) with true; cbn.

Section Step.

Context (rest : account) (Hrest : nonneg rest).
Context (Hs : a_strong rest + 2 <= MAX_COUNT) (Hw : a_weak rest + 2 <= MAX_COUNT).

Lemma exec_keeps mode spurious t m :
  mode = OBJECT_LIFETIME_STRONG \/ mode = OBJECT_LIFETIME_WEAK ->
  can_be mode t -> live mode (plus rest (of_task t)) m -> keeps mode rest t (exec spurious t m).
Proof.
  intros Hmode Hc L.
  destruct rest as [s w ls lw]; destruct Hrest as (H1 & H2 & H3 & H4); cbn in *.
  destruct L as [Lm Ls Lw Lr Llw Lb Lls].
  destruct m as [ms mw fl ra ba]; cbn in *; subst.
  assert (HI : INITIAL_STRONG_VALUE = 268435456) by reflexivity.
  assert (HM : MAX_COUNT = 1048575) by reflexivity.
  destruct Hmode; subst mode; [specialize (Lls eq_refl)|clear Lls];
    destruct t; cbn in *; try tauto; which_right; destruct spurious;
    unfold exec, with_refs; open_step; account_step.
Qed.
End Step.

(** ** The system *)

(** The first reference is being made by the creator alone, or the counters
    are live. *)
Definition starting (mode : Z) (s : sys) : Prop :=
  let m := s_mem s in
  mFlags m = mode /\ mRefs_alive m = true /\ mBase_alive m = true /\
  match s_refs s, s_tasks s with
  | [Creator], [] | [], [IncStrong_weak Creator] | [], [Force_weak Creator] =>
    mStrong m = INITIAL_STRONG_VALUE /\ mWeak m = 0
  | [], [IncStrong_strong Creator] | [], [Force_strong Creator] =>
    mStrong m = INITIAL_STRONG_VALUE /\ mWeak m = 1
  | [], [IncStrong_first Creator] | [], [Force_first Creator] =>
    mStrong m = INITIAL_STRONG_VALUE + 1 /\ mWeak m = 1
  | _, _ => False
  end.

Definition held (s : sys) : account := plus (total of_right (s_refs s)) (total of_task (s_tasks s)).

Record running (mode : Z) (s : sys) : Prop := {
  running_refs : Forall (fun r => r <> Creator) (s_refs s);
  running_tasks : Forall (can_be mode) (s_tasks s);
  running_size : size s <= MAX_COUNT;
  running_live : live mode (held s) (s_mem s)
}.

Lemma account_eq a b : a_strong a = a_strong b -> a_weak a = a_weak b ->
  a_last_strong a = a_last_strong b -> a_last_weak a = a_last_weak b -> a = b.
Proof. destruct a, b; cbn; congruence. Qed.

Lemma total_app {A} (f : A -> account) l1 l2 : total f (l1 ++ l2) = plus (total f l1) (total f l2).
Proof.
  induction l1 as [|x l1 IH]; cbn; [apply account_eq; cbn; lia|].
  rewrite IH. apply account_eq; cbn; lia.
Qed.

Lemma total_nonneg {A} (f : A -> account) l : (forall x, nonneg (f x)) -> nonneg (total f l).
Proof.
  intros Hf. induction l as [|x l IH]; cbn; [unfold nonneg; cbn; lia|].
  specialize (Hf x). unfold nonneg in *; cbn; lia.
Qed.

Lemma of_right_nonneg r : nonneg (of_right r).
Proof. destruct r; unfold nonneg; cbn; lia. Qed.
Lemma of_task_nonneg t : nonneg (of_task t).
Proof. destruct t; unfold nonneg; cbn; try (destruct by_; cbn); lia. Qed.

Lemma total_bound {A} (f : A -> account) n l : 0 <= n -> (forall x, a_strong (f x) <= n /\ a_weak (f x) <= n) ->
  a_strong (total f l) <= n * Z.of_nat (length l) /\ a_weak (total f l) <= n * Z.of_nat (length l).
Proof. intros Hn Hf. induction l as [|x l IH]; cbn -[Z.of_nat]; [lia|]. specialize (Hf x). lia. Qed.

Lemma of_right_bound r : a_strong (of_right r) <= 1 /\ a_weak (of_right r) <= 1.
Proof. destruct r; cbn; lia. Qed.
Lemma of_task_bound t : a_strong (of_task t) <= 2 /\ a_weak (of_task t) <= 2.
Proof. destruct t; cbn; try (destruct by_; cbn); lia. Qed.

(** What all but the task in the middle hold. *)
Definition others (refs : list right) (l1 l2 : list task) : account :=
  plus (total of_right refs) (plus (total of_task l1) (total of_task l2)).

Lemma others_nonneg refs l1 l2 : nonneg (others refs l1 l2).
Proof.
  pose proof (total_nonneg of_right refs of_right_nonneg).
  pose proof (total_nonneg of_task l1 of_task_nonneg). pose proof (total_nonneg of_task l2 of_task_nonneg).
  unfold nonneg, others in *; cbn; lia.
Qed.

Lemma others_bound m refs l1 t l2 : size {| s_mem := m; s_refs := refs; s_tasks := l1 ++ t :: l2 |} <= MAX_COUNT ->
  a_strong (others refs l1 l2) + 2 <= MAX_COUNT /\ a_weak (others refs l1 l2) + 2 <= MAX_COUNT.
Proof.
  unfold size; cbn. rewrite length_app; cbn. intros H.
  pose proof (total_bound of_right 1 refs ltac:(lia) of_right_bound).
  pose proof (total_bound of_task 2 l1 ltac:(lia) of_task_bound).
  pose proof (total_bound of_task 2 l2 ltac:(lia) of_task_bound).
  unfold others; cbn. lia.
Qed.

Lemma held_split m refs l1 t l2 :
  held {| s_mem := m; s_refs := refs; s_tasks := l1 ++ t :: l2 |} = plus (others refs l1 l2) (of_task t).
Proof. unfold held, others; cbn. rewrite total_app; cbn. apply account_eq; cbn; lia. Qed.

Lemma held_done m refs l1 l2 back :
  held {| s_mem := m; s_refs := back ++ refs; s_tasks := l1 ++ l2 |} = plus (others refs l1 l2) (total of_right back).
Proof. unfold held, others; cbn. rewrite !total_app. apply account_eq; cbn; lia. Qed.

Lemma running_exec mode m refs l1 t l2 spurious :
  mode = OBJECT_LIFETIME_STRONG \/ mode = OBJECT_LIFETIME_WEAK ->
  running mode {| s_mem := m; s_refs := refs; s_tasks := l1 ++ t :: l2 |} ->
  keeps mode (others refs l1 l2) t (exec spurious t m).
Proof.
  intros Hm [_ Ht Hs Hl]. cbn in *. destruct (others_bound _ _ _ _ _ Hs).
  rewrite held_split in Hl. apply Forall_app in Ht. destruct Ht as [_ Ht]. inversion Ht; subst.
  apply exec_keeps; auto using others_nonneg.
Qed.

Section System.

Context (mode : Z) (Hmode : mode = OBJECT_LIFETIME_STRONG \/ mode = OBJECT_LIFETIME_WEAK).

Lemma mode_is m : mFlags m = mode -> lifetime_strong m = is_strong_mode mode.
Proof. intros H. unfold lifetime_strong. rewrite H. destruct Hmode as [E|E]; rewrite E; reflexivity. Qed.

(** Only the creator's pointer is left at the start of an object. *)
Lemma starting_begin m l1 r l2 ts t :
  begins false m r t -> starting mode {| s_mem := m; s_refs := l1 ++ r :: l2; s_tasks := ts |} ->
  starting mode {| s_mem := m; s_refs := l1 ++ l2; s_tasks := t :: ts |}.
Proof.
  unfold starting; cbn. intros B (Hm & Hr & Hb & H). split_and!; [assumption..|].
  destruct l1 as [|x [|y l1]]; cbn in *; [|destruct x, r; tauto|destruct x; tauto].
  destruct r, l2, ts; try tauto. inversion B; subst; [exact H|exact H|discriminate].
Qed.

(** The first strong reference is made. *)
Lemma first_running : running mode
  {| s_mem := {| mStrong := 1; mWeak := 1; mFlags := mode; mRefs_alive := true; mBase_alive := true |};
     s_refs := [Strong]; s_tasks := [] |}.
Proof.
  split; cbn; [repeat constructor; discriminate|constructor|vm_compute; discriminate|].
  split; cbn; [reflexivity..|auto| |auto]. destruct (is_strong_mode mode); reflexivity.
Qed.

Lemma starting_exec m refs l1 t l2 spurious :
  starting mode {| s_mem := m; s_refs := refs; s_tasks := l1 ++ t :: l2 |} ->
  match exec spurious t m with
  | Go m' t' => starting mode {| s_mem := m'; s_refs := refs; s_tasks := l1 ++ t' :: l2 |}
  | Done m' back => running mode {| s_mem := m'; s_refs := returned t back ++ refs; s_tasks := l1 ++ l2 |}
  | Bad => False
  end.
Proof.
  unfold starting; cbn. intros (Hm & Hr & Hb & H).
  assert (E : refs = [] /\ l1 = []).
  { destruct refs as [|[| |] [|? ?]], l1 as [|[] [|? ?]]; cbn in H; try tauto; destruct by_; tauto. }
  destruct E as [-> ->]; cbn in *.
  destruct m as [ms mw fl ra ba]; cbn in *; subst.
  destruct t; try tauto; destruct by_, l2; try tauto; destruct H as [-> ->]; 
    first [exact first_running | vm_compute; tauto].
Qed.

Lemma running_begin m l1 r l2 ts t :
  begins false m r t -> size {| s_mem := m; s_refs := l1 ++ r :: l2; s_tasks := ts |} < MAX_COUNT ->
  running mode {| s_mem := m; s_refs := l1 ++ r :: l2; s_tasks := ts |} ->
  running mode {| s_mem := m; s_refs := l1 ++ l2; s_tasks := t :: ts |}.
Proof.
  unfold size; cbn. intros B Hs [Hr Ht _ Hl]; cbn in *.
  rewrite length_app in Hs; cbn in Hs. rewrite Forall_app, Forall_cons in Hr. destruct Hr as (Hr1 & Hr & Hr2).
  assert (Hc : of_task t = of_right r /\ can_be mode t).
  { inversion B; subst; try congruence; cbn; try (split; [reflexivity|]; auto; congruence).
    split; [reflexivity|]. right. split; [reflexivity|].
    rewrite <- (mode_is m) by exact (live_mode _ _ _ Hl). assumption. }
  destruct Hc as [Hc Hcan]. split; cbn.
  - apply Forall_app; auto.
  - constructor; assumption.
  - unfold size; cbn. rewrite length_app. lia.
  - replace (held _) with (held {| s_mem := m; s_refs := l1 ++ r :: l2; s_tasks := ts |}); [exact Hl|].
    unfold held; cbn. rewrite !total_app, Hc; cbn. apply account_eq; cbn; lia.
Qed.

Definition sound (s : sys) : Prop := starting mode s \/ running mode s.

Lemma sound_step s s' : sound s -> step false s s' ->
  match s' with Some s' => sound s' | None => False end.
Proof.
  intros I St. inversion St; subst.
  - destruct I as [I|I]; [left; eapply starting_begin; eassumption|right; eapply running_begin; eassumption].
  - destruct I as [I|I]; [left|right].
    + pose proof (starting_exec _ _ _ _ _ spurious I) as H'. rewrite H in H'. exact H'.
    + pose proof (running_exec _ _ _ _ _ _ spurious Hmode I) as K. rewrite H in K. destruct K as [Kc Kl].
      destruct I as [Ir It Is _]; cbn in *. apply Forall_app in It. destruct It as [It1 It2]. inversion It2; subst.
      split; cbn; [assumption|apply Forall_app; auto| |rewrite held_split; exact Kl].
      unfold size in *; cbn in *. rewrite length_app in *; cbn in *. lia.
  - right. destruct I as [I|I].
    + pose proof (starting_exec _ _ _ _ _ spurious I) as H'. rewrite H in H'. exact H'.
    + pose proof (running_exec _ _ _ _ _ _ spurious Hmode I) as K. rewrite H in K.
      destruct K as (Kr & Kc & Kn & Kl). rewrite Kr.
      destruct I as [Ir It Is _]; cbn in *. apply Forall_app in It. destruct It as [It1 It2]. inversion It2; subst.
      split; cbn; [apply Forall_app; auto|apply Forall_app; auto| |rewrite held_done; exact Kl].
      unfold size in *; cbn in *. rewrite !length_app in *; cbn in *. lia.
  - destruct I as [I|I].
    + pose proof (starting_exec _ _ _ _ _ spurious I) as H'. rewrite H in H'. exact H'.
    + pose proof (running_exec _ _ _ _ _ _ spurious Hmode I) as K. rewrite H in K. exact K.
Qed.

Lemma sound_created : sound (created mode).
Proof. left. destruct Hmode; subst mode; vm_compute; tauto. Qed.

Lemma sound_reachable s : reachable false mode s -> sound s.
Proof.
  induction 1 as [|s s' _ IH St]; [exact sound_created|]. exact (sound_step _ _ IH St).
Qed.

Lemma held_in r refs : In r refs -> a_strong (of_right r) <= a_strong (total of_right refs)
  /\ a_weak (of_right r) <= a_weak (total of_right refs).
Proof.
  induction refs as [|x refs IH]; cbn; [tauto|]. pose proof (of_right_nonneg x) as Hx.
  pose proof (total_nonneg of_right refs of_right_nonneg) as Ht. unfold nonneg in *.
  intros [->|H]; [lia|]. specialize (IH H). lia.
Qed.

Lemma running_refs_alive s r : running mode s -> In r (s_refs s) -> mRefs_alive (s_mem s) = true.
Proof.
  intros [Hr _ _ Hl] Hin. rewrite (live_refs _ _ _ Hl). apply Z.ltb_lt. unfold held; cbn.
  pose proof (held_in r _ Hin) as [_ H].
  assert (a_weak (of_right r) = 1).
  { rewrite List.Forall_forall in Hr. specialize (Hr r Hin). destruct r; cbn; congruence. }
  pose proof (total_nonneg of_task (s_tasks s) of_task_nonneg) as Ht.
  pose proof (total_nonneg of_right (s_refs s) of_right_nonneg) as Hr'. unfold nonneg in *. lia.
Qed.

Lemma running_alive s : running mode s -> In Strong (s_refs s) -> mBase_alive (s_mem s) = true.
Proof.
  intros I Hin. rewrite (live_base _ _ _ (running_live _ _ I)). destruct (is_strong_mode mode).
  - apply Z.ltb_lt. unfold held; cbn. pose proof (held_in Strong _ Hin) as [H _]; cbn in H.
    pose proof (total_nonneg of_task (s_tasks s) of_task_nonneg) as Ht.
    pose proof (total_nonneg of_right (s_refs s) of_right_nonneg) as Hr'. unfold nonneg in *. lia.
  - exact (running_refs_alive s Strong I Hin).
Qed.

(** References in hand, counted. *)
Lemma total_counts refs : Forall (fun r => r <> Creator) refs ->
  total of_right refs = acc (Z.of_nat (length (List.filter is_Strong refs))) (Z.of_nat (length refs)) 0 0.
Proof.
  induction 1 as [|r refs Hr _ IH]; [reflexivity|]. cbn [total]. rewrite IH.
  destruct r; [congruence| |]; unfold plus; cbn -[Z.of_nat]; f_equal; lia.
Qed.

Lemma filter_Strong refs : (0 <? Z.of_nat (length (List.filter is_Strong refs))) = true <-> In Strong refs.
Proof.
  rewrite Z.ltb_lt. induction refs as [|r refs IH]; cbn -[Z.of_nat]; [intuition lia|].
  destruct r; cbn -[Z.of_nat]; [rewrite IH; intuition congruence| |rewrite IH; intuition congruence].
  intuition lia.
Qed.

End System.

(** ** Runs *)

(** A run of the system: which task or reference is next, and how. *)
Inductive choice :=
  | Begin (i : nat) (t : task)   (* the i-th reference begins [t] *)
  | Step (i : nat) (spurious : bool).

Definition right_eqb (a b : right) : bool :=
  match a, b with Creator, Creator | Strong, Strong | Weak, Weak => true | _, _ => false end.

(** [begins], decided. *)
Definition may_begin (early : bool) (m : mem) (r : right) (t : task) : bool :=
  match r, t with
  | Creator, IncStrong_weak Creator | Creator, Force_weak Creator => true
  | Creator, IncWeak_weak Creator => early
  | Strong, IncStrong_weak Strong | Strong, Force_weak Strong | Strong, DecStrong_strong
  | Strong, IncWeak_weak Strong | Weak, IncWeak_weak Weak | Weak, DecWeak_weak Weak
  | Weak, Attempt_weak | Weak, AttemptWeak_load => true
  | Weak, Force_weak Weak => negb (lifetime_strong m)
  | _, _ => false
  end.

(** The state after a choice; [None] when it is not possible. *)
Definition choose (early : bool) (c : choice) (s : sys) : option (option sys) :=
  match c with
  | Begin i t =>
    match nth_error (s_refs s) i with
    | Some r =>
      if may_begin early (s_mem s) r t && (size s <? MAX_COUNT) then
        Some (Some {| s_mem := s_mem s; s_refs := firstn i (s_refs s) ++ skipn (S i) (s_refs s);
                      s_tasks := t :: s_tasks s |})
      else None
    | None => None
    end
  | Step i spurious =>
    match nth_error (s_tasks s) i with
    | Some t =>
      let l1 := firstn i (s_tasks s) in let l2 := skipn (S i) (s_tasks s) in
      Some (match exec spurious t (s_mem s) with
            | Go m t' => Some {| s_mem := m; s_refs := s_refs s; s_tasks := l1 ++ t' :: l2 |}
            | Done m back => Some {| s_mem := m; s_refs := returned t back ++ s_refs s; s_tasks := l1 ++ l2 |}
            | Bad => None
            end)
    | None => None
    end
  end.

Fixpoint play (early : bool) (cs : list choice) (s : sys) : option sys :=
  match cs with
  | [] => Some s
  | c :: cs => match choose early c s with Some (Some s) => play early cs s | _ => None end
  end.

Lemma may_begin_begins early m r t : may_begin early m r t = true -> begins early m r t.
Proof.
  destruct r, t; cbn; try discriminate; try (destruct by_); try (destruct owned); try discriminate;
    intros H; constructor; auto. apply negb_true_iff, H.
Qed.

Lemma nth_error_here {A} (l : list A) i x : nth_error l i = Some x -> l = firstn i l ++ x :: skipn (S i) l.
Proof.
  revert i; induction l as [|y l IH]; intros [|i] H; cbn in *; try discriminate; [injection H as ->; reflexivity|].
  f_equal. apply IH, H.
Qed.

Lemma choose_step early c s s' : choose early c s = Some s' -> step early s s'.
Proof.
  destruct s as [m refs ts]. destruct c as [i t|i sp]; cbn -[firstn skipn size].
  - destruct (nth_error refs i) as [r|] eqn:E; [|discriminate]. apply nth_error_here in E.
    destruct (may_begin early m r t) eqn:B; [|discriminate]; cbn -[firstn skipn size].
    destruct (size _ <? MAX_COUNT) eqn:S; [|discriminate]. intros [= <-]. apply Z.ltb_lt in S.
    revert S. rewrite E at 1 2. intros S. apply step_begin; [apply may_begin_begins, B|exact S].
  - destruct (nth_error ts i) as [t|] eqn:E; [|discriminate]. apply nth_error_here in E.
    intros [= <-]. rewrite E at 1. destruct (exec sp t m) eqn:X; econstructor; exact X.
Qed.

Lemma play_reachable early mode cs s s' : reachable early mode s -> play early cs s = Some s' -> reachable early mode s'.
Proof.
  revert s; induction cs as [|c cs IH]; cbn; intros s R; [congruence|].
  destruct (choose early c s) as [[s1|]|] eqn:E; try discriminate.
  apply IH. exact (reach_step _ _ _ _ R (choose_step _ _ _ _ E)).
Qed.

(** C12: as long as no weak reference is handed out before the first strong one, no
    interleaving of [IncStrong], [DecStrong], [ForceIncStrong], [IncWeak],
    [DecWeak], [AttemptIncStrong] and [AttemptIncWeak] in any number of threads
    touches freed memory, frees twice or fails an [assert], whatever the
    object's lifetime mode; and while anybody holds a strong reference the
    object is alive, while anybody holds a reference at all the counters are.
    [early_weak_reference_races] shows what the condition excludes. *)
Theorem references_are_safe mode s :
  mode = OBJECT_LIFETIME_STRONG \/ mode = OBJECT_LIFETIME_WEAK ->
  reachable false mode s ->
  ~ step false s None /\
  (In Strong (s_refs s) -> mBase_alive (s_mem s) = true) /\
  (s_refs s <> [] -> mRefs_alive (s_mem s) = true).
Proof.
  intros Hm R. pose proof (sound_reachable mode Hm s R) as I. split; [|split].
  - intros St. exact (sound_step mode Hm s None I St).
  - intros Hin. destruct I as [(_ & _ & Hb & _)|I]; [exact Hb|]. exact (running_alive mode Hm s I Hin).
  - intros Hne. destruct I as [(_ & Ha & _)|I]; [exact Ha|].
    destruct (s_refs s) as [|r l] eqn:E; [congruence|]. exact (running_refs_alive mode Hm s r I ltac:(rewrite E; left; reflexivity)).
Qed.

(** C13: as long as no weak reference is handed out before the first strong one: when
    no operation is in progress and the creator's pointer is spent, the counters
    count exactly the references in hand; the object is alive just while
    somebody holds a strong one (any one, when its lifetime is extended), and
    the counters just while somebody holds any: nothing is freed early and
    nothing leaks. *)
Theorem references_are_counted mode s :
  mode = OBJECT_LIFETIME_STRONG \/ mode = OBJECT_LIFETIME_WEAK ->
  reachable false mode s -> s_tasks s = [] -> ~ In Creator (s_refs s) ->
  mStrong (s_mem s) = Z.of_nat (length (List.filter is_Strong (s_refs s))) /\
  mWeak (s_mem s) = Z.of_nat (length (s_refs s)) /\
  (mBase_alive (s_mem s) = true <-> if is_strong_mode mode then In Strong (s_refs s) else s_refs s <> []) /\
  (mRefs_alive (s_mem s) = true <-> s_refs s <> []).
Proof.
  intros Hm R Ht Hc. pose proof (sound_reachable mode Hm s R) as I.
  destruct s as [m refs ts]; cbn in *; subst ts. destruct I as [(_ & _ & _ & I)|[Hr _ _ Hl]].
  { cbn in I. destruct refs as [|[| |] [|? ?]]; cbn in *; tauto. }
  unfold held in Hl; cbn in *. rewrite total_counts in Hl by assumption.
  destruct Hl as [_ Hs Hw Ha _ Hb _]; cbn -[Z.of_nat] in *. rewrite !Z.add_0_r in *.
  assert (Hne : (0 <? Z.of_nat (length refs)) = true <-> refs <> []).
  { rewrite Z.ltb_lt. destruct refs; cbn -[Z.of_nat]; [intuition (congruence || lia)|]. split; [discriminate|lia]. }
  split_and!; [assumption..| |rewrite Ha; exact Hne].
  rewrite Hb. destruct (is_strong_mode mode); [apply (filter_Strong mode Hm)|rewrite Ha; exact Hne].
Qed.

(** Two owners: one makes a weak reference, drops its strong one and promotes
    the weak one while the other drops its own. *)
Definition promotion_race : list choice :=
  [Begin 0 (IncStrong_weak Creator); Step 0 false; Step 0 false; Step 0 false;
   Begin 0 (IncWeak_weak Strong); Step 0 false;
   Begin 1 Attempt_weak; Begin 0 DecStrong_strong; Step 1 false; Step 1 false; Step 0 false;
   Step 1 false; Step 0 false; Step 1 false; Step 1 false].

Lemma references_are_safe_witness : exists s, play false promotion_race (created 0) = Some s /\
  ~ step false s None /\
  (In Strong (s_refs s) -> mBase_alive (s_mem s) = true) /\
  (s_refs s <> [] -> mRefs_alive (s_mem s) = true).
Proof.
  eexists. split; [vm_compute; reflexivity|]. apply (references_are_safe 0); [left; reflexivity|].
  apply (play_reachable false 0 promotion_race (created 0)); [constructor|vm_compute; reflexivity].
Defined.

Lemma references_are_counted_witness :
  let m := {| mStrong := 0; mWeak := 1; mFlags := 0; mRefs_alive := true; mBase_alive := false |} in
  mStrong m = Z.of_nat (length (List.filter is_Strong [Weak])) /\ mWeak m = Z.of_nat (length [Weak]) /\
  (mBase_alive m = true <-> In Strong [Weak]) /\ (mRefs_alive m = true <-> [Weak] <> []).
Proof.
  intros m. apply (references_are_counted 0 {| s_mem := m; s_refs := [Weak]; s_tasks := [] |});
    [left; reflexivity| |reflexivity|intros [H|[]]; discriminate].
  apply (play_reachable false 0 (promotion_race ++ [Step 0 false]) (created 0)); [constructor|vm_compute; reflexivity].
Defined.

(** A weak reference handed out before the first strong one breaks this:
    when its owner drops it while the creator is in [IncStrong], the owner
    sees the weak count fall to zero and then a strong count that is no longer
    the initial value, and frees counters in use. *)
Theorem early_weak_reference_races : exists s, reachable true 0 s /\ step true s None.
Proof.
  pose (cs := [Begin 0 (IncWeak_weak Creator); Step 0 false; Begin 1 (DecWeak_weak Weak); Step 0 false;
    Begin 0 (IncStrong_weak Creator); Step 0 false; Step 0 false; Step 1 false]).
  destruct (play true cs (created 0)) as [s|] eqn:E; [|vm_compute in E; discriminate].
  exists s. split; [exact (play_reachable true 0 cs _ s (reach_new _ _) E)|].
  apply (choose_step true (Step 0 false)). vm_compute in E. injection E as <-. reflexivity.
Qed.

End RefBaseProofs.
