(* ===== verification/RtHashMap.v ===== *)
(** * The runtime's hash map

    [src/src/runtime/util/hashmap.h], the map behind the class loader, the
    reflection caches and the RPC registries.  Its key type supplies the hash
    ([HashFunc]) and the comparison ([CompareFunc]); a hash of -1 means no key.
    [Put], [Get] and [Remove] take the slot of the hash as an unsigned number,
    [PutBucket], which [Rehash] uses, of the signed one: a negative hash falls
    before the array there.  An access outside the array and an overflow of the
    count or the size are [None]. *)
From S2P Require Import Prelude.
From S2P Require Import Buckets.

Module RtHashMap.

(** [hash % bucketSize] of two ints as an array index. *)
Definition signed_index (h size : Z) : nat :=
  let i := Z.rem h size in if i <? 0 then Z.to_nat size else Z.to_nat i.

(** [(unsigned int)hash % mBucketSize]. *)
Definition index (h size : Z) : nat := Z.to_nat (u32 h mod size).

Definition get_lower_bound (n : Z) : option Z :=
  if n <=? 5 then Some 5 else if n >=? 6151 then Some 6151 else closest_prime prime_list n.

Definition get_next_prime (n : Z) : option Z := get_lower_bound n.

Lemma rt_prime_size n p : get_next_prime n = Some p -> p ∈ sizes.
Proof.
  unfold get_next_prime, get_lower_bound. intros Hp. apply prime_size. revert Hp.
  destruct (n <=? 5); [intros [= <-]; unfold prime_list; set_solver|].
  destruct (n >=? 6151); [intros [= <-]; unfold prime_list; set_solver|]. apply closest_prime_in.
Qed.

Section Map.
Context {A : Allocator} {K V : Type} `{Countable K}.
Variable V0 : V.                 (* [Val(0)] *)
Variable keq : K -> K -> bool.   (* [!compareF(a, b)] *)
Variable HashF : K -> Z.         (* [HashFunc<Key>] *)

Record t := {
  mThreshold : Z;
  mCount : Z;
  mBucketSize : Z;
  mBuckets : list (list (Bucket K V))
}.

Definition make (size : Z) : option t :=
  n ← get_next_prime size;
  Some {| mThreshold := threshold n; mCount := 0; mBucketSize := n;
          mBuckets := if alloc_ok (8 * n) then replicate (Z.to_nat n) [] else [] |}.

Definition HashKey (key : K) : Z := HashF key.

(** The buckets of the slots [0 .. n - 1] in the order a loop visits them. *)
Definition all_buckets (tbl : list (list (Bucket K V))) (n : Z) : option (list (Bucket K V)) :=
  if Z.of_nat (length tbl) <? n then None else Some (mjoin (take (Z.to_nat n) tbl)).

Definition PutBucket := @put_bucket K V signed_index.

Definition Rehash (m : t) : option t :=
  if mBucketSize m =? MAX_BUCKET_SIZE then Some m
  else
    n ← next_size (mBucketSize m);
    if negb (alloc_ok (8 * n)) then
      Some {| mThreshold := mThreshold m; mCount := mCount m; mBucketSize := n; mBuckets := mBuckets m |}
    else
      old ← all_buckets (mBuckets m) (mBucketSize m);
      tbl ← put_buckets signed_index (replicate (Z.to_nat n) []) n old;
      Some {| mThreshold := threshold n; mCount := mCount m; mBucketSize := n; mBuckets := tbl |}.

Definition Put (key : K) (value : V) (m : t) : option t :=
  m ← (if mCount m >=? mThreshold m then Rehash m else Some m);
  if HashKey key =? -1 then Some m
  else
    '(tbl, new) ← table_put keq HashKey index (mBuckets m) (mBucketSize m) key value;
    count ← (if new : bool then int_of (mCount m + 1) else Some (mCount m));
    Some {| mThreshold := mThreshold m; mCount := count;
            mBucketSize := mBucketSize m; mBuckets := tbl |}.

Definition find (key : K) (m : t) : option (option V) :=
  let h := HashKey key in
  c ← mBuckets m !! index h (mBucketSize m);
  Some (chain_find keq h key c).

Definition ContainsKey (key : K) (m : t) : option bool :=
  if HashKey key =? -1 then Some false
  else r ← find key m; Some (match r with Some _ => true | None => false end).

Definition Get (key : K) (m : t) : option V :=
  if HashKey key =? -1 then Some V0 else r ← find key m; Some (default V0 r).

(** The count is not changed. *)
Definition Remove (key : K) (m : t) : option t :=
  if HashKey key =? -1 then Some m
  else
    let h := HashKey key in
    let i := index h (mBucketSize m) in
    c ← mBuckets m !! i;
    Some {| mThreshold := mThreshold m; mCount := mCount m; mBucketSize := mBucketSize m;
            mBuckets := <[i := chain_remove keq h key c]> (mBuckets m) |}.

Definition Clear (m : t) : t :=
  {| mThreshold := mThreshold m; mCount := mCount m; mBucketSize := mBucketSize m;
     mBuckets := (fun _ => []) <$> mBuckets m |}.

Definition GetValues (m : t) : option (list V) :=
  option_map (map mValue) (all_buckets (mBuckets m) (mBucketSize m)).

(** ** Refinement of a finite map *)

Hypothesis keq_spec : forall a b, keq a b = true <-> a = b.

Lemma keq_id a b : keq a b = true <-> id a = id b.
Proof. apply keq_spec. Qed.

Lemma hash_id (a b : K) : id a = id b -> HashF a = HashF b.
Proof. by intros [= ->]. Qed.

(** A key every operation treats alike. *)
Definition good_key (k : K) : Prop := 0 <= HashF k < 2147483648.

(** The comparison is equality. *)
Abbreviation entries := (abs id).

Definition inv (m : t) : Prop :=
  wf HashF index id (mBuckets m) (mBucketSize m) /\ mBucketSize m ∈ sizes /\
  mThreshold m = threshold (mBucketSize m) /\ Z.of_nat (size (entries (mBuckets m))) <= mCount m.

Definition good_keys (m : t) : Prop := forall b, b ∈ mjoin (mBuckets m) -> good_key (mKey b).

Lemma rt_index_lt h n : 0 < n -> (index h n < Z.to_nat n)%nat.
Proof. intros Hn. unfold index. pose proof (Z.mod_pos_bound (u32 h) n Hn). lia. Qed.

Lemma index_signed h n : 0 <= h < 2147483648 -> 0 < n -> signed_index h n = index h n.
Proof.
  intros Hh Hn. unfold signed_index, index. rewrite Z.rem_mod_nonneg by lia.
  rewrite wrap_u_id by fits. pose proof (Z.mod_pos_bound h n Hn).
  destruct (Z.ltb_spec (h mod n) 0); [lia|done].
Qed.

Lemma put_buckets_signed n bs : 0 < n -> (forall b, b ∈ bs -> 0 <= mHash b < 2147483648) ->
  forall tbl : list (list (Bucket K V)), put_buckets signed_index tbl n bs = put_buckets index tbl n bs.
Proof.
  intros Hn. induction bs as [|b bs IH]; intros Hb tbl; [done|]. simpl. unfold put_bucket.
  rewrite index_signed by (try apply Hb; by constructor || lia).
  destruct (tbl !! index (mHash b) n); simpl; [|done]. apply IH. intros b' Hb'. apply Hb. by constructor.
Qed.

Lemma rt_slots m : inv m -> forall k, (index (HashF k) (mBucketSize m) < length (mBuckets m))%nat.
Proof.
  intros ([Hl _ _] & Hs & _) k. apply size_pos in Hs. pose proof (rt_index_lt (HashF k) _ Hs). lia.
Qed.

Lemma slot m k : inv m -> exists c, mBuckets m !! index (HashF k) (mBucketSize m) = Some c.
Proof.
  intros Hinv. apply lookup_lt_is_Some_2. by apply rt_slots.
Qed.

Lemma rt_all_buckets_all m : inv m -> all_buckets (mBuckets m) (mBucketSize m) = Some (mjoin (mBuckets m)).
Proof.
  intros ([Hl _ _] & _). unfold all_buckets. rewrite Hl.
  destruct (Z.ltb_spec (mBucketSize m) (mBucketSize m)); [lia|]. by rewrite take_ge by lia.
Qed.

Lemma elem_of_abs m b : inv m -> b ∈ mjoin (mBuckets m) -> is_Some (entries (mBuckets m) !! mKey b).
Proof.
  intros (Hwf & _) Hb. exists (mValue b). apply elem_of_list_to_map.
  - rewrite <- list_fmap_compose. apply Hwf.
  - by apply (list_elem_of_fmap_2 (fun b => (ckey id b, mValue b))).
Qed.

Lemma abs_elem_of m k : is_Some (entries (mBuckets m) !! k) -> exists b, b ∈ mjoin (mBuckets m) /\ mKey b = k.
Proof.
  intros [v Hv]. apply elem_of_list_to_map_2 in Hv. apply list_elem_of_fmap in Hv as (b & [= -> ->] & Hb). eauto.
Qed.

Lemma rt_make_inv n m : never_fails A -> make n = Some m -> inv m /\ entries (mBuckets m) = ∅ /\ mCount m = 0.
Proof.
  intros Hok. unfold make. destruct (get_next_prime n) as [p|] eqn:Hp; [|done].
  cbn -[replicate]. rewrite Hok. intros [= <-]. unfold inv; cbn [mBuckets mBucketSize mCount mThreshold].
  apply rt_prime_size in Hp. pose proof (size_pos p Hp).
  assert (Habs : abs (K := K) (V := V) id (replicate (Z.to_nat p) []) = ∅) by (unfold abs; by rewrite join_empty).
  rewrite Habs, map_size_empty. split_and!; [|done..].
  rewrite <- (Z2Nat.id p) at 2 by lia. apply wf_empty.
Qed.

(** The constructor finds a size whatever it is asked for. *)
Lemma make_total n : exists m, make n = Some m.
Proof.
  unfold make, get_next_prime, get_lower_bound. destruct (Z.leb_spec n 5); [by eexists|].
  rewrite Z.geb_leb. destruct (Z.leb_spec 6151 n); [by eexists|]. simpl.
  repeat (match goal with |- context [(?a <=? n) && (n <? ?b)] =>
    destruct (Z.leb_spec a n); [|lia]; destruct (Z.ltb_spec n b); simpl; [destruct (_ <? _); by eexists|] end).
  lia.
Qed.

Lemma rt_Rehash_spec m : never_fails A -> inv m -> good_keys m -> mThreshold m <= mCount m <= ENTRY_LIMIT ->
  exists m', Rehash m = Some m' /\ inv m' /\ entries (mBuckets m') = entries (mBuckets m) /\ mCount m' = mCount m.
Proof.
  intros Hok Hinv Hgood Hc. unfold Rehash.
  destruct (Z.eqb_spec (mBucketSize m) MAX_BUCKET_SIZE) as [|_]; [by exists m|].
  pose proof Hinv as (Hwf & Hs & Ht & Hd). rewrite Ht in Hc.
  destruct (next_size_spec _ _ Hs Hc) as (n & -> & Hn & Hpos). cbn [mbind option_bind].
  rewrite Hok, rt_all_buckets_all by done. cbn -[replicate].
  rewrite put_buckets_signed; [|lia|].
  2: { intros b Hb. pose proof (Hgood b Hb) as Hk.
       apply elem_of_table in Hb as (i & c & Hi & Hb). destruct (wf_home _ _ _ _ _ Hwf i c b Hi Hb) as [-> _]. exact Hk. }
  destruct (rehash_spec HashF index id (mBuckets m) (mBucketSize m) (Z.to_nat n)) as (tbl & Htbl & Hwf' & Habs & Hlen).
  - done.
  - intros k. rewrite Z2Nat.id by lia. apply rt_index_lt. lia.
  - rewrite Z2Nat.id in Htbl, Hwf' by lia. rewrite Htbl. simpl. eexists. split; [done|].
    unfold inv; simpl. rewrite Habs. done.
Qed.

Lemma good_not_none k : good_key k -> (HashKey k =? -1) = false.
Proof. intros Hk. apply Z.eqb_neq. unfold HashKey, good_key in *. lia. Qed.

Lemma rt_find_spec m k : inv m -> find k m = Some (entries (mBuckets m) !! k).
Proof.
  intros Hinv. unfold find. destruct (slot m k Hinv) as [c Hc]. unfold HashKey. rewrite Hc. simpl. f_equal.
  symmetry. apply (abs_lookup keq HashF index id keq_id hash_id (mBuckets m) (mBucketSize m) k c); [apply Hinv|done].
Qed.

(** The keys of a map which grew out of good keys. *)
Lemma good_keys_of m m' k v : inv m -> inv m' -> good_keys m -> good_key k ->
  entries (mBuckets m') = <[k := v]> (entries (mBuckets m)) -> good_keys m'.
Proof.
  intros Hi Hi' Hg Hk Habs b Hb. pose proof (elem_of_abs m' b Hi' Hb) as Hs. rewrite Habs in Hs.
  destruct (decide (mKey b = k)) as [->|Hne]; [done|]. rewrite lookup_insert_ne in Hs by done.
  apply abs_elem_of in Hs as (b' & Hb' & <-). by apply Hg.
Qed.

Lemma rt_Put_spec m k v : never_fails A -> inv m -> good_keys m -> good_key k -> mCount m <= ENTRY_LIMIT ->
  exists m', Put k v m = Some m' /\ inv m' /\ good_keys m' /\
    entries (mBuckets m') = <[k := v]> (entries (mBuckets m)) /\
    mCount m' = mCount m + (if decide (is_Some (entries (mBuckets m) !! k)) then 0 else 1).
Proof.
  intros Hok Hinv Hg Hk Hl. unfold Put.
  assert (exists m1, (if mCount m >=? mThreshold m then Rehash m else Some m) = Some m1 /\
            inv m1 /\ entries (mBuckets m1) = entries (mBuckets m) /\ mCount m1 = mCount m) as (m1 & -> & Hinv1 & Habs & Hc).
  { rewrite Z.geb_leb. destruct (Z.leb_spec (mThreshold m) (mCount m)); [by apply rt_Rehash_spec|by exists m]. }
  cbn [mbind option_bind]. rewrite good_not_none by done. pose proof (rt_slots m1 Hinv1) as Hslots.
  pose proof Hinv1 as (Hwf & Hs & Ht & Hd).
  destruct (table_put_spec keq HashF index id keq_id (fun _ => eq_refl) hash_id (mBuckets m1) (mBucketSize m1) k v Hslots Hwf)
    as (tbl & new & Htbl & Hwf' & Hput & Hnew & _).
  change HashKey with HashF. rewrite Htbl. cbn [mbind option_bind]. change (id k) with k in Hput, Hnew.
  set (n := if decide (is_Some (entries (mBuckets m) !! k)) then 0 else 1).
  assert ((if new then int_of (mCount m1 + 1) else Some (mCount m1)) = Some (mCount m + n) /\
    Z.of_nat (size (<[k := v]> (entries (mBuckets m1)))) <= mCount m + n) as [-> Hsize].
  { unfold n. rewrite Hc, Habs in *. destruct (decide (is_Some (entries (mBuckets m) !! k))) as [[w Hw]|Hn].
    - rewrite Hnew, bool_decide_eq_false_2 by (by rewrite Hw). split; [f_equal; lia|].
      rewrite map_size_insert, Hw. rewrite Z.add_0_r. exact Hd.
    - apply eq_None_not_Some in Hn. rewrite Hnew, bool_decide_eq_true_2 by done. split.
      + apply int_of_fits. unfold fits_s, ENTRY_LIMIT in *. cbn. lia.
      + rewrite map_size_insert_None by done. lia. }
  cbn [mbind option_bind]. set (m' := {| mThreshold := _ |}).
  assert (Hinv' : inv m') by (unfold inv; simpl; rewrite Hput; done).
  assert (entries (mBuckets m') = <[k := v]> (entries (mBuckets m))) as He by (simpl; by rewrite Hput, Habs).
  exists m'. split_and!; [done|done|by eapply (good_keys_of m m' k v)|done|done].
Qed.

Lemma Remove_spec m k : inv m -> good_keys m -> good_key k ->
  exists m', Remove k m = Some m' /\ inv m' /\ good_keys m' /\
    entries (mBuckets m') = delete k (entries (mBuckets m)) /\ mCount m' = mCount m.
Proof.
  intros Hinv Hg Hk. unfold Remove. rewrite good_not_none by done.
  destruct (slot m k Hinv) as [c Hc]. unfold HashKey. rewrite Hc. simpl.
  pose proof (rt_slots m Hinv) as Hslots. destruct Hinv as (Hwf & Hs & Ht & Hsize).
  destruct (table_remove_spec keq HashF index id keq_id (fun _ => eq_refl) hash_id (mBuckets m) (mBucketSize m) k c Hslots Hwf Hc)
    as [Hwf' Habs]. change (id k) with k in Habs.
  set (m' := {| mThreshold := _ |}). exists m'.
  assert (Hinv' : inv m').
  { unfold inv; simpl. rewrite Habs. split_and!; [done|done|done|].
    pose proof (map_subseteq_size _ _ (delete_subseteq (entries (mBuckets m)) k)). lia. }
  split_and!; [done|done| |done|done].
  intros b Hb. pose proof (elem_of_abs m' b Hinv' Hb) as Hb'. simpl in Hb'. rewrite Habs in Hb'.
  apply lookup_delete_is_Some in Hb' as [_ Hb']. apply abs_elem_of in Hb' as (b' & Hb' & <-). by apply Hg.
Qed.

Lemma GetValues_spec m : inv m -> exists vs, GetValues m = Some vs /\ vs ≡ₚ (map_to_list (entries (mBuckets m))).*2.
Proof.
  intros Hinv. unfold GetValues. rewrite rt_all_buckets_all by done. eexists. split; [done|].
  unfold abs. rewrite map_to_list_to_map.
  - by rewrite <- list_fmap_compose.
  - rewrite <- list_fmap_compose. apply Hinv.
Qed.

(** ** Sequences of operations *)

Inductive op := OPut (k : K) (v : V) | ORemove (k : K).

Definition op_key (o : op) : K := match o with OPut k _ => k | ORemove k => k end.

Definition run1 (o : op) (m : t) : option t :=
  match o with OPut k v => Put k v m | ORemove k => Remove k m end.

Fixpoint run (os : list op) (m : t) : option t :=
  match os with [] => Some m | o :: os => m ← run1 o m; run os m end.

(** What a sequence does to a finite map, and how many entries it creates. *)
Definition apply1 (g : gmap K V) (o : op) : gmap K V :=
  match o with OPut k v => <[k := v]> g | ORemove k => delete k g end.

Fixpoint new_entries (g : gmap K V) (os : list op) : Z :=
  match os with
  | [] => 0
  | o :: os =>
    (match o with OPut k _ => if decide (is_Some (g !! k)) then 0 else 1 | ORemove _ => 0 end)
    + new_entries (apply1 g o) os
  end.

Lemma new_entries_nonneg os g : 0 <= new_entries g os.
Proof.
  revert g. induction os as [|o os IH]; intros g; cbn -[decide]; [done|].
  specialize (IH (apply1 g o)). destruct o; [destruct (decide _)|]; lia.
Qed.

Lemma run_spec os m : never_fails A -> inv m -> good_keys m -> Forall (fun o => good_key (op_key o)) os ->
  mCount m + new_entries (entries (mBuckets m)) os <= ENTRY_LIMIT ->
  exists m', run os m = Some m' /\ inv m' /\ good_keys m' /\ entries (mBuckets m') = fold_left apply1 os (entries (mBuckets m)) /\
    mCount m' = mCount m + new_entries (entries (mBuckets m)) os.
Proof.
  intros Hok. revert m. induction os as [|o os IH]; intros m Hinv Hg Hks Hl; cbn -[decide] in *.
  { exists m. split_and!; [done..|lia]. }
  apply Forall_cons in Hks as [Hk Hks].
  pose proof (new_entries_nonneg os (apply1 (entries (mBuckets m)) o)) as Hn.
  assert (exists m1, run1 o m = Some m1 /\ inv m1 /\ good_keys m1 /\ entries (mBuckets m1) = apply1 (entries (mBuckets m)) o /\
    mCount m1 = mCount m + match o with OPut k _ => if decide (is_Some (entries (mBuckets m) !! k)) then 0 else 1 | ORemove _ => 0 end)
    as (m1 & -> & Hinv1 & Hg1 & Habs & Hc).
  { destruct o as [k v|k]; simpl; [apply rt_Put_spec; try done; destruct (decide _); lia|].
    destruct (Remove_spec m k Hinv Hg Hk) as (m1 & ? & ? & ? & ? & Hc). exists m1. by rewrite Hc, Z.add_0_r. }
  cbn -[decide]. destruct (IH m1 Hinv1 Hg1 Hks) as (m' & ? & ? & ? & Habs' & Hc'); [rewrite Habs; lia|]. exists m'.
  rewrite <- Habs. split_and!; [done..|lia].
Qed.

Lemma empty_good_keys m : inv m -> entries (mBuckets m) = ∅ -> good_keys m.
Proof. intros Hi He b Hb. pose proof (elem_of_abs m b Hi Hb) as [? Hs]. by rewrite He, lookup_empty in Hs. Qed.

(** The slot of a negative hash is outside the array [PutBucket] fills. *)
Lemma put_buckets_outside n bs b : b ∈ bs -> Z.rem (mHash b) n < 0 ->
  forall tbl : list (list (Bucket K V)), length tbl = Z.to_nat n -> put_buckets signed_index tbl n bs = None.
Proof.
  intros Hb Hneg. induction bs as [|b0 bs IH]; [by apply not_elem_of_nil in Hb|]. intros tbl Hlen.
  simpl. unfold put_bucket. apply elem_of_cons in Hb as [->|Hb].
  - rewrite lookup_ge_None_2; [done|]. unfold signed_index. destruct (Z.ltb_spec (Z.rem (mHash b0) n) 0); lia.
  - destruct (tbl !! _) eqn:E; simpl; [|done]. apply IH; [done|]. by rewrite length_insert.
Qed.

End Map.
Arguments t : clear implicits.
Arguments op : clear implicits.
Abbreviation entries := (abs id).

(** The map meets the dictionary contract for the keys that have a good hash. *)
#[export] Instance RtHashMap_Dict {A : Allocator} {K V} `{Countable K} (V0 : V) (keq : K -> K -> bool) (HashF : K -> Z) :
  Dict (t K V) K V.
Proof.
  refine {|
    dict_inv := fun m : t K V =>
      inv HashF m /\ good_keys HashF m /\ never_fails A /\ forall a b, keq a b = true <-> a = b;
    dict_map := fun m => entries (mBuckets m);
    dict_key := good_key HashF;
    dict_canon := id;
    dict_count := mCount;
    dict_none := V0;
    dict_put := Put keq HashF;
    dict_get := Get V0 keq HashF;
    dict_has := ContainsKey keq HashF |}.
  - intros m k v (Hi & Hg & Hok & Hkeq) Hk Hc.
    destruct (rt_Put_spec keq HashF Hkeq m k v Hok Hi Hg Hk Hc) as (m' & ? & ? & ? & ? & Hc'). exists m'.
    split_and!; try done. rewrite Hc'. destruct (decide _); lia.
  - intros m k (Hi & _ & _ & Hkeq) Hk. unfold Get.
    by rewrite (good_not_none HashF k Hk), (rt_find_spec keq HashF Hkeq m k Hi).
  - intros m k (Hi & _ & _ & Hkeq) Hk. unfold ContainsKey.
    rewrite (good_not_none HashF k Hk), (rt_find_spec keq HashF Hkeq m k Hi). simpl. f_equal.
    change (id k) with k. destruct (entries (mBuckets m) !! k); symmetry;
      [by apply bool_decide_eq_true|by apply bool_decide_eq_false; intros [? ?]].
Defined.

(** C33: Whatever sequence of [Put] and [Remove] a fresh map has seen, with all
    its rehashes, [Get], [ContainsKey] and [GetValues] answer like the finite
    map the sequence makes, when the keys' hashes are not negative and at most
    1,200,000,000 entries are made, so that count and size stay in [int]. *)
Theorem RtHashMap_refines_map {A : Allocator} {K V} `{Countable K} (V0 : V) keq (HashF : K -> Z) n m os :
  never_fails A -> (forall a b, keq a b = true <-> a = b) ->
  Forall (fun o : op K V => good_key HashF (op_key o)) os ->
  make n = Some m -> new_entries ∅ os <= ENTRY_LIMIT ->
  let final := fold_left apply1 os ∅ in
  exists m', run keq HashF os m = Some m' /\
    (forall k, good_key HashF k -> Get V0 keq HashF k m' = Some (default V0 (final !! k))) /\
    (forall k, good_key HashF k -> ContainsKey keq HashF k m' = Some (bool_decide (is_Some (final !! k)))) /\
    (exists vs, GetValues m' = Some vs /\ vs ≡ₚ (map_to_list final).*2).
Proof.
  intros Hok Hkeq Hks Hmake Hl final. destruct (rt_make_inv HashF n m Hok Hmake) as (Hinv & He & Hc0).
  destruct (run_spec keq HashF Hkeq os m Hok Hinv (empty_good_keys HashF m Hinv He) Hks) as (m' & Hr & Hinv' & Hg & Habs & _);
    [by rewrite Hc0, He|].
  rewrite He in Habs. change (entries (mBuckets m') = final) in Habs. exists m'. split; [done|].
  pose (D := RtHashMap_Dict (A := A) V0 keq HashF).
  assert (dict_inv (Dict := D) m') as HD by done.
  split_and!; [| |rewrite <- Habs; exact (GetValues_spec HashF m' Hinv')]; intros k Hk; rewrite <- Habs.
  - exact (dict_get_ok (Dict := D) m' k HD Hk).
  - exact (dict_has_ok (Dict := D) m' k HD Hk).
Qed.

(** Keys which are their own hash, like small integers. *)
Lemma RtHashMap_refines_map_witness :
  exists m m', make (A := generous) (K := Z) (V := Z) 1 = Some m /\
    run (A := generous) Z.eqb id [OPut 1 10; OPut 6 20; OPut 2 30; OPut 6 40; ORemove 1; OPut 3 50] m = Some m' /\
    Get 0 Z.eqb id 6 m' = Some 40 /\ ContainsKey Z.eqb id 1 m' = Some false.
Proof.
  destruct (make (A := generous) (K := Z) (V := Z) 1) as [m|] eqn:Hm; [|discriminate].
  destruct (RtHashMap_refines_map (A := generous) 0 Z.eqb id 1 m
    [OPut 1 10; OPut 6 20; OPut 2 30; OPut 6 40; ORemove 1; OPut 3 50])
    as (m' & Hr & Hget & Hhas & _).
  - exact generous_never_fails.
  - apply Z.eqb_eq.
  - repeat (apply Forall_cons_2; [split; [discriminate|reflexivity]|]). apply Forall_nil_2.
  - exact Hm.
  - discriminate.
  - exists m, m'. split; [reflexivity|]. split; [exact Hr|].
    split; [rewrite (Hget 6); [reflexivity|split; reflexivity || discriminate]|
            rewrite (Hhas 1); [reflexivity|split; reflexivity || discriminate]].
Defined.

(** A stored key with a negative hash, as the address of an object is when
    its 32nd bit is set, makes the next [Rehash] write before the new array,
    unless the new size divides the hash. *)
Theorem negative_hash_breaks_Rehash {A : Allocator} {K V} `{Countable K} (HashF : K -> Z) (m : t K V) k n :
  never_fails A -> inv HashF m -> mBucketSize m <> MAX_BUCKET_SIZE ->
  is_Some (entries (mBuckets m) !! k) -> next_size (mBucketSize m) = Some n -> Z.rem (HashF k) n < 0 ->
  Rehash m = None.
Proof.
  intros Hok Hinv Hmax Hk Hn Hneg. unfold Rehash. destruct (Z.eqb_spec (mBucketSize m) MAX_BUCKET_SIZE); [done|].
  rewrite Hn. cbn [mbind option_bind]. rewrite Hok, (rt_all_buckets_all HashF) by done. cbn -[replicate].
  apply abs_elem_of in Hk as (b & Hb & <-). rewrite (put_buckets_outside _ _ b); [done|done| |by rewrite length_replicate].
  destruct Hinv as (Hwf & _). apply elem_of_table in Hb as (i & c & Hi & Hb).
  destruct (wf_home _ _ _ _ _ Hwf i c b Hi Hb) as [-> _]. done.
Qed.

(** An object at an address with bit 31 set, exported to other processes. *)
Lemma negative_hash_breaks_Rehash_witness :
  exists m : t Z Z, (m0 ← make (A := generous) 1; Put (A := generous) Z.eqb i32 2882400018 7 m0) = Some m /\
    Rehash (A := generous) m = None.
Proof.
  eexists. split; [vm_compute; reflexivity|].
  apply (negative_hash_breaks_Rehash (A := generous) i32 _ 2882400018 11).
  - exact generous_never_fails.
  - split; [|split; [apply prime_size; constructor|split; [reflexivity|vm_compute; discriminate]]]. constructor.
    + reflexivity.
    + intros i c b Hi Hb. destruct i as [|[|[|[|[|i]]]]]; cbn in Hi; try discriminate; injection Hi as <-;
        try (apply not_elem_of_nil in Hb; contradiction).
      apply list_elem_of_singleton in Hb as ->. split; reflexivity.
    + apply NoDup_singleton.
  - discriminate.
  - exists 7. reflexivity.
  - reflexivity.
  - reflexivity.
Defined.

(** [mCount] counts every entry ever made: [Remove] leaves it, so a map of
    few entries still grows with each one that comes and goes. *)
Theorem Remove_keeps_the_count {A : Allocator} {K V} `{Countable K} keq (HashF : K -> Z) n m os :
  never_fails A -> (forall a b, keq a b = true <-> a = b) ->
  Forall (fun o : op K V => good_key HashF (op_key o)) os ->
  make n = Some m -> new_entries ∅ os <= ENTRY_LIMIT ->
  exists m', run keq HashF os m = Some m' /\ mCount m' = new_entries ∅ os /\
    Z.of_nat (size (entries (mBuckets m'))) <= mCount m'.
Proof.
  intros Hok Hkeq Hks Hmake Hl. destruct (rt_make_inv HashF n m Hok Hmake) as (Hinv & He & Hc0).
  destruct (run_spec keq HashF Hkeq os m Hok Hinv (empty_good_keys HashF m Hinv He) Hks) as (m' & Hr & Hinv' & _ & _ & Hc);
    [by rewrite Hc0, He|].
  rewrite He, Hc0 in Hc. exists m'. split_and!; [done|done|apply Hinv'].
Qed.

Lemma Remove_keeps_the_count_witness :
  exists m m', make (A := generous) (K := Z) (V := Z) 1 = Some m /\
    run (A := generous) Z.eqb id [OPut 1 10; ORemove 1; OPut 1 10; ORemove 1; OPut 1 10; ORemove 1] m = Some m' /\
    mCount m' = 3.
Proof.
  destruct (make (A := generous) (K := Z) (V := Z) 1) as [m|] eqn:Hm; [|discriminate].
  destruct (Remove_keeps_the_count (A := generous) Z.eqb id 1 m
    [OPut 1 10; ORemove 1; OPut 1 10; ORemove 1; OPut 1 10; ORemove 1]) as (m' & Hr & Hc & _).
  - exact generous_never_fails.
  - apply Z.eqb_eq.
  - repeat (apply Forall_cons_2; [split; [discriminate|reflexivity]|]). apply Forall_nil_2.
  - exact Hm.
  - discriminate.
  - exists m, m'. split; [reflexivity|]. split; [exact Hr|]. rewrite Hc. reflexivity.
Defined.

End RtHashMap.
