(* ===== verification/Utf8.v ===== *)
(** * UTF-8 in the runtime's strings

    The codec of [src/src/runtime/type/ccmstring.cpp]: the length a first byte
    announces, the bytes a [Char] takes, the decoder and the encoder.  A byte is
    a [char] and signed, a [Char] an unsigned 32-bit integer.  [None] is a read
    outside the buffer or a shift by 32 and more. *)
From S2P Require Import Prelude.

Module Utf8.

Definition INVALID_CHAR : Z := 0x110000.
Definition MAX_CODE_POINT : Z := 0x10FFFF.
Definition MIN_HIGH_SURROGATE : Z := 0xD800.
Definition MAX_LOW_SURROGATE : Z := 0xDFFF.

Definition IsASCII (c : Z) : bool := Z.land c 0x80 =? 0.

Definition UTF8SequenceLengthNonASCII (b0 : Z) : Z :=
  if negb (Z.land b0 0xC0 =? 0xC0) then 0
  else if Z.land b0 0xE0 =? 0xC0 then 2
  else if Z.land b0 0xF0 =? 0xE0 then 3
  else if Z.land b0 0xF8 =? 0xF0 then 4
  else 0.

Definition UTF8SequenceLength (b0 : Z) : Z := if IsASCII b0 then 1 else UTF8SequenceLengthNonASCII b0.

Definition GetByteSize (c : Z) : Z :=
  if (c >? MAX_CODE_POINT) || ((MIN_HIGH_SURROGATE <=? c) && (c <=? MAX_LOW_SURROGATE)) then 0
  else if c <? 0x80 then 1
  else if c <? 0x800 then 2
  else if c <? 0x10000 then 3
  else 4.

(** The loop of [GetCharInternal] at [cur]: one continuation byte for every
    bit set below the first byte's top one; [mask] is 0 after seven rounds. *)
Fixpoint decode_loop (rounds : nat) (buf : list Z) (cur : nat) (first_char result mask to_ignore_mask num_to_read : Z)
    : option (Z * Z * Z * Z) :=
  if Z.land first_char mask =? 0 then Some (result, mask, to_ignore_mask, num_to_read)
  else match rounds with
       | O => None
       | S rounds =>
         b ← buf !! cur;
         decode_loop rounds buf (S cur) first_char
           (u32 (u32 (Z.shiftl result 6) + Z.land b 0x3F)) (Z.shiftr mask 1) (Z.lor to_ignore_mask mask)
           (num_to_read + 1)
       end.

(** The character at index [cur] and its size in bytes. *)
Definition GetCharInternal (buf : list Z) (cur : nat) : option (Z * Z) :=
  first_char ← buf !! cur;
  if IsASCII first_char then Some (u32 first_char, 1)
  else
    '(result, mask, to_ignore_mask, num_to_read) ←
       decode_loop 8 buf (S cur) first_char (u32 first_char) 0x40 0xFFFFFF80 1;
    let to_ignore_mask := Z.lor to_ignore_mask mask in
    let shift := 6 * (num_to_read - 1) in
    if 32 <=? shift then None
    else Some (Z.land result (u32 (Z.lnot (u32 (Z.shiftl to_ignore_mask shift)))), num_to_read).

Definition kByteMask : Z := 0xBF.
Definition kByteMark : Z := 0x80.

Definition kFirstByteMark (bytes : Z) : Z :=
  if bytes =? 2 then 0xC0 else if bytes =? 3 then 0xE0 else if bytes =? 4 then 0xF0 else 0.

(** The bytes stored below [dst + bytes]; the cases of the switch fall
    through, each after shifting [c]. *)
Definition WriteUTF8Bytes (c bytes : Z) : list Z :=
  let marked c := i8 (Z.land (Z.lor c kByteMark) kByteMask) in
  let first c := i8 (Z.lor c (kFirstByteMark bytes)) in
  let c1 := Z.shiftr c 6 in let c2 := Z.shiftr c1 6 in let c3 := Z.shiftr c2 6 in
  if bytes =? 4 then [first c3; marked c2; marked c1; marked c]
  else if bytes =? 3 then [first c2; marked c1; marked c]
  else if bytes =? 2 then [first c1; marked c]
  else if bytes =? 1 then [first c]
  else [].

(** The bytes of a character, and of a text. *)
Definition encode1 (c : Z) : list Z := WriteUTF8Bytes c (GetByteSize c).
Definition encode (cs : list Z) : list Z := mjoin (encode1 <$> cs).

(** Unicode scalar values. *)
Definition scalar (c : Z) : Prop := 0 <= c <= MAX_CODE_POINT /\ ~ (MIN_HIGH_SURROGATE <= c <= MAX_LOW_SURROGATE).

#[export] Instance scalar_dec c : Decision (scalar c).
Proof. unfold scalar. apply _. Defined.

Example euro : encode1 0x20AC = [-30; -126; -84] /\ GetCharInternal (encode1 0x20AC ++ [0]) 0 = Some (0x20AC, 3).
Proof. split; reflexivity. Qed.

(** ** The codec *)

(** A finite check of a property of the numbers below [n]. *)
Lemma below_check (P : Z -> bool) n : forallb P (map Z.of_nat (seq 0 (Z.to_nat n))) = true ->
  forall z, 0 <= z < n -> P z = true.
Proof.
  intros H z Hz. rewrite forallb_forall in H. apply H. apply in_map_iff.
  exists (Z.to_nat z). split; [lia|]. apply in_seq. lia.
Qed.

(** A continuation byte carries the low six bits. *)
Lemma continuation_byte c : 0 <= c -> i8 (Z.land (Z.lor c kByteMark) kByteMask) = c mod 64 - 128.
Proof.
  intros Hc.
  assert (Z.land (Z.lor c kByteMark) kByteMask = Z.lor (c mod 64) 0x80) as ->.
  { change 64 with (2 ^ 6). rewrite <- Z.land_ones by lia. apply Z.bits_inj'. intros n Hn.
    rewrite !Z.land_spec, !Z.lor_spec, Z.land_spec. generalize (Z.testbit c n). intros b.
    assert (n < 8 \/ 8 <= n) as [Hlt|Hge] by lia.
    - assert (n = 0 \/ n = 1 \/ n = 2 \/ n = 3 \/ n = 4 \/ n = 5 \/ n = 6 \/ n = 7) as Hcase by lia.
      destruct Hcase as [->|[->|[->|[->|[->|[->|[->| ->]]]]]]]; destruct b; reflexivity.
    - assert (forall m, 0 <= m <= 255 -> Z.testbit m n = false) as Hm.
      { intros m Hm. apply Z.bits_above_log2; [lia|].
        pose proof (Z.log2_le_mono m 255 ltac:(lia)) as Hl. change (Z.log2 255) with 7 in Hl. lia. }
      rewrite (Hm kByteMask), (Hm (Z.ones 6)), (Hm 0x80) by (vm_compute; split; congruence).
      by destruct b, (Z.testbit kByteMark n). }
  pose proof (Z.mod_pos_bound c 64 ltac:(lia)) as Hd. revert Hd. generalize (c mod 64). intros d Hd.
  apply Z.eqb_eq. revert d Hd. apply (below_check (fun d => i8 (Z.lor d 0x80) =? d - 128)). reflexivity.
Qed.

Lemma continuation_bits d : 0 <= d < 64 -> Z.land (d - 128) 0x3F = d.
Proof.
  intros Hd. apply Z.eqb_eq. revert d Hd. apply (below_check (fun d => Z.land (d - 128) 0x3F =? d)). reflexivity.
Qed.

(** The first byte of a sequence of two, three and four carries the rest; the
    decoder sees its flags as [decode_loop] and [UTF8SequenceLength] test them. *)
Definition first_byte_ok (bytes x : Z) : bool :=
  let b := i8 (Z.lor x (kFirstByteMark bytes)) in
  (b =? x + kFirstByteMark bytes - 256) && negb (IsASCII b) && (UTF8SequenceLength b =? bytes) && negb (b =? 0) &&
  negb (Z.land b 0x40 =? 0) && Bool.eqb (Z.land b 0x20 =? 0) (bytes =? 2) &&
  (if bytes =? 2 then true else Bool.eqb (Z.land b 0x10 =? 0) (bytes =? 3)) &&
  (if bytes =? 4 then Z.land b 8 =? 0 else true).

Lemma first_byte2 x : 0 <= x < 32 -> first_byte_ok 2 x = true.
Proof. revert x. apply below_check. reflexivity. Qed.
Lemma first_byte3 x : 0 <= x < 16 -> first_byte_ok 3 x = true.
Proof. revert x. apply below_check. reflexivity. Qed.
Lemma first_byte4 x : 0 <= x < 8 -> first_byte_ok 4 x = true.
Proof. revert x. apply below_check. reflexivity. Qed.

Lemma u32_eq z : exists q, u32 z = z + 4294967296 * q.
Proof. exists (- (z / 4294967296)). unfold wrap_u. change (2 ^ 32) with 4294967296. pose proof (Z.div_mod z 4294967296). lia. Qed.

Lemma first_byte_value bytes x :
  first_byte_ok bytes x = true -> i8 (Z.lor x (kFirstByteMark bytes)) = x + kFirstByteMark bytes - 256.
Proof. unfold first_byte_ok. intros H. bprop. done. Qed.

Lemma first_byte_flags bytes x : first_byte_ok bytes x = true -> let b := x + kFirstByteMark bytes - 256 in
  IsASCII b = false /\ (Z.land b 0x40 =? 0) = false /\ (Z.land b 0x20 =? 0) = (bytes =? 2) /\
  (bytes <> 2 -> (Z.land b 0x10 =? 0) = (bytes =? 3)) /\ (bytes = 4 -> (Z.land b 8 =? 0) = true).
Proof.
  intros H b. pose proof (first_byte_value bytes x H) as Hv. unfold first_byte_ok in H. rewrite Hv in H. fold b in H.
  apply andb_true_iff in H as [H H8]. apply andb_true_iff in H as [H H10]. apply andb_true_iff in H as [H H20].
  apply Bool.eqb_prop in H20. bprop. split_and!; [done|by apply Z.eqb_neq|done| |].
  - intros Hne. rewrite (proj2 (Z.eqb_neq _ _) Hne) in H10. by apply Bool.eqb_prop.
  - intros ->. done.
Qed.

(** The sequence of a character: its first byte, then the continuation bytes
    of the lower digits. *)
Lemma encode_digits c : scalar c -> 0x80 <= c -> exists bytes x ds,
  encode1 c = (x + kFirstByteMark bytes - 256) :: ((fun d => d - 128) <$> ds) /\
  Forall (fun d => 0 <= d < 64) ds /\ first_byte_ok bytes x = true /\ GetByteSize c = bytes /\
  match ds with
  | [d0] => bytes = 2 /\ 0 <= x < 32 /\ c = x * 64 + d0
  | [d1; d0] => bytes = 3 /\ 0 <= x < 16 /\ c = (x * 64 + d1) * 64 + d0
  | [d2; d1; d0] => bytes = 4 /\ 0 <= x < 8 /\ c = ((x * 64 + d2) * 64 + d1) * 64 + d0
  | _ => False
  end.
Proof.
  intros [Hc Hs] Hlow. unfold MAX_CODE_POINT, MIN_HIGH_SURROGATE, MAX_LOW_SURROGATE in *.
  unfold encode1, GetByteSize, MAX_CODE_POINT, MIN_HIGH_SURROGATE, MAX_LOW_SURROGATE.
  destruct (Z.gtb_spec c 0x10FFFF); [lia|].
  assert ((0xD800 <=? c) && (c <=? 0xDFFF) = false) as -> by lia. cbn [orb].
  destruct (Z.ltb_spec c 0x80); [lia|].
  pose proof (Z.div_mod c 64 ltac:(lia)). pose proof (Z.mod_pos_bound c 64 ltac:(lia)).
  pose proof (Z.div_mod (c / 64) 64 ltac:(lia)). pose proof (Z.mod_pos_bound (c / 64) 64 ltac:(lia)).
  pose proof (Z.div_mod (c / 64 / 64) 64 ltac:(lia)). pose proof (Z.mod_pos_bound (c / 64 / 64) 64 ltac:(lia)).
  destruct (Z.ltb_spec c 0x800); [|destruct (Z.ltb_spec c 0x10000)];
    unfold WriteUTF8Bytes; cbn [Z.eqb Pos.eqb]; rewrite ?Z.shiftr_div_pow2 by lia; change (2 ^ 6) with 64; rewrite !continuation_byte by lia.
  - pose proof (first_byte2 (c / 64) ltac:(lia)) as Hf. rewrite (first_byte_value _ _ Hf).
    exists 2, (c / 64), [c mod 64]. split_and!; [done|repeat constructor; lia|done|done|done|lia|lia|lia].
  - pose proof (first_byte3 (c / 64 / 64) ltac:(lia)) as Hf. rewrite (first_byte_value _ _ Hf).
    exists 3, (c / 64 / 64), [c / 64 mod 64; c mod 64].
    split_and!; [done|repeat constructor; lia|done|done|done|lia|lia|lia].
  - pose proof (first_byte4 (c / 64 / 64 / 64) ltac:(lia)) as Hf. rewrite (first_byte_value _ _ Hf).
    exists 4, (c / 64 / 64 / 64), [c / 64 / 64 mod 64; c / 64 mod 64; c mod 64].
    split_and!; [done|repeat constructor; lia|done|done|done|lia|lia|lia].
Qed.

Lemma encode_ascii c : 0 <= c < 0x80 -> encode1 c = [c] /\ GetByteSize c = 1 /\ IsASCII c = true /\ u32 c = c.
Proof.
  intros Hc. assert (GetByteSize c = 1) as Hsz.
  { unfold GetByteSize, MAX_CODE_POINT, MIN_HIGH_SURROGATE. destruct (Z.gtb_spec c 0x10FFFF); [lia|].
    destruct (Z.leb_spec 0xD800 c); [lia|]. cbn [orb andb]. destruct (Z.ltb_spec c 0x80); [done|lia]. }
  unfold encode1. rewrite Hsz. unfold WriteUTF8Bytes. cbn [Z.eqb Pos.eqb kFirstByteMark].
  rewrite Z.lor_0_r, wrap_s_id, wrap_u_id by fits. split_and!; [done|done| |done].
  revert c Hc Hsz. assert (forall c, 0 <= c < 128 -> IsASCII c = true) as H by (apply below_check; reflexivity).
  intros c Hc _. by apply H.
Qed.

Lemma decode_more n buf cur b r mask ignore num d :
  (Z.land b mask =? 0) = false -> buf !! cur = Some (d - 128) -> 0 <= d < 64 ->
  decode_loop (S n) buf cur b r mask ignore num =
  decode_loop n buf (S cur) b (u32 (u32 (Z.shiftl r 6) + d)) (Z.shiftr mask 1) (Z.lor ignore mask) (num + 1).
Proof. intros Hm Hb Hd. cbn [decode_loop]. rewrite Hm, Hb. cbn [mbind option_bind]. by rewrite continuation_bits. Qed.

Lemma decode_end n buf cur b r mask ignore num : (Z.land b mask =? 0) = true ->
  decode_loop n buf cur b r mask ignore num = Some (r, mask, ignore, num).
Proof. intros Hm. destruct n; cbn [decode_loop]; by rewrite Hm. Qed.

(** The low bits of the accumulated sequence are the digits. *)
Ltac digits :=
  change (kFirstByteMark 2) with 0xC0; change (kFirstByteMark 3) with 0xE0; change (kFirstByteMark 4) with 0xF0;
  rewrite !Z.shiftl_mul_pow2 by lia; change (2 ^ 6) with 64;
  change (2 ^ 11) with 2048; change (2 ^ 16) with 65536; change (2 ^ 21) with 2097152;
  repeat match goal with |- context [u32 ?z] => let q := fresh "q" in destruct (u32_eq z) as [q ->] end;
  symmetry; match goal with |- ?c = ?r mod ?m => apply (Z.mod_unique_pos r m ((r - c) / m)) end;
  [lia|]; Z.to_euclidean_division_equations; lia.

(** The mask [GetCharInternal] ends with keeps the bits of the character. *)
Ltac keep_bits n :=
  cbn [mbind option_bind];
  match goal with |- context [32 <=? ?s] => change (32 <=? s) with false end; cbn [mbind option_bind];
  match goal with |- context [u32 (Z.lnot ?t)] => change (u32 (Z.lnot t)) with (Z.ones n) end;
  rewrite Z.land_ones by lia.

(** A Unicode character is decoded where it was encoded. *)
Lemma decode_at buf cur c :
  scalar c -> (forall k b, encode1 c !! k = Some b -> buf !! (cur + k)%nat = Some b) ->
  GetCharInternal buf cur = Some (c, GetByteSize c).
Proof.
  intros Hc Hbuf. unfold GetCharInternal. destruct (Z.ltb_spec c 0x80) as [Hlt|Hge].
  - destruct (encode_ascii c) as (He & Hsz & Ha & Hu); [destruct Hc; lia|]. rewrite He in Hbuf.
    specialize (Hbuf 0%nat c eq_refl). rewrite Nat.add_0_r in Hbuf. rewrite Hbuf. cbn [mbind option_bind].
    by rewrite Ha, Hu, Hsz.
  - destruct (encode_digits c Hc Hge) as (bytes & x & ds & He & Hds & Hf & Hsz & Hcase). rewrite He in Hbuf.
    set (b := x + kFirstByteMark bytes - 256) in *.
    destruct (first_byte_flags bytes x Hf) as (Ha & H40 & H20 & H10 & H8). fold b in Ha, H40, H20, H10, H8.
    assert (forall k d, ds !! k = Some d -> buf !! (S cur + k)%nat = Some (d - 128)) as Hd.
    { intros k d Hk. rewrite <- (Hbuf (S k)); [f_equal; lia|].
      change (((fun d => d - 128) <$> ds) !! k = Some (d - 128)). by rewrite list_lookup_fmap, Hk. }
    pose proof (Hbuf 0%nat b eq_refl) as H0. rewrite Nat.add_0_r in H0. rewrite H0. cbn [mbind option_bind].
    rewrite Ha. change 0x20 with (Z.shiftr 0x40 1) in H20.
    destruct ds as [|d2 [|d1 [|d0 [|]]]]; try contradiction; destruct Hcase as (-> & Hx & Hcv);
      rewrite ?Forall_cons in Hds; cbn in H20, H10, H8.
    + destruct Hds as (Hd2 & _). pose proof (Hd 0%nat d2 eq_refl) as B2. rewrite Nat.add_comm in B2.
      rewrite (decode_more _ _ _ _ _ _ _ _ d2) by done.
      rewrite decode_end by done. keep_bits 11. rewrite Hsz, Hcv. do 2 f_equal. unfold b. digits.
    + destruct Hds as (Hd2 & Hd1 & _). specialize (H10 ltac:(done)).
      pose proof (Hd 0%nat d2 eq_refl) as B2. pose proof (Hd 1%nat d1 eq_refl) as B1. rewrite Nat.add_comm in B2, B1.
      rewrite (decode_more _ _ _ _ _ _ _ _ d2), (decode_more _ _ _ _ _ _ _ _ d1) by done.
      rewrite decode_end by done. keep_bits 16. rewrite Hsz, Hcv. do 2 f_equal. unfold b. digits.
    + destruct Hds as (Hd2 & Hd1 & Hd0 & _). specialize (H10 ltac:(done)). specialize (H8 eq_refl).
      pose proof (Hd 0%nat d2 eq_refl) as B2. pose proof (Hd 1%nat d1 eq_refl) as B1.
      pose proof (Hd 2%nat d0 eq_refl) as B0. rewrite Nat.add_comm in B2, B1, B0.
      rewrite (decode_more _ _ _ _ _ _ _ _ d2), (decode_more _ _ _ _ _ _ _ _ d1), (decode_more _ _ _ _ _ _ _ _ d0) by done.
      rewrite decode_end by done. keep_bits 21. rewrite Hsz, Hcv. do 2 f_equal. unfold b. digits.
Qed.

Lemma first_byte_length bytes x : first_byte_ok bytes x = true -> let b := x + kFirstByteMark bytes - 256 in
  UTF8SequenceLength b = bytes /\ b <> 0.
Proof.
  intros H b. pose proof (first_byte_value bytes x H) as Hv. unfold first_byte_ok in H. rewrite Hv in H. fold b in H.
  bprop. done.
Qed.

(** The bytes of a character: the first announces their number, none is 0. *)
Lemma encode1_shape c : scalar c -> c <> 0 -> exists b bs,
  encode1 c = b :: bs /\ UTF8SequenceLength b = GetByteSize c /\ 1 <= GetByteSize c <= 4 /\
  Z.of_nat (length (b :: bs)) = GetByteSize c /\ Forall (fun x => x <> 0) (b :: bs).
Proof.
  intros Hc Hne. destruct (Z.ltb_spec c 0x80) as [Hlt|Hge].
  - destruct (encode_ascii c) as (He & Hsz & Ha & _); [destruct Hc; lia|]. exists c, [].
    unfold UTF8SequenceLength. rewrite He, Hsz, Ha. split_and!; [done..|lia|lia|done|by repeat constructor].
  - destruct (encode_digits c Hc Hge) as (bytes & x & ds & He & Hds & Hf & Hsz & Hcase).
    destruct (first_byte_length bytes x Hf) as [Hl Hb]. eexists _, _. rewrite Hsz. split_and!; [exact He|done| | | |].
    1-3: destruct ds as [|? [|? [|? [|]]]]; try contradiction; destruct Hcase as [-> _]; cbn; lia.
    constructor; [done|]. apply Forall_fmap. eapply Forall_impl; [exact Hds|]. cbn. intros. lia.
Qed.

(** Text without NUL. *)
Definition text (cs : list Z) : Prop := Forall (fun c => scalar c /\ c <> 0) cs.

Lemma encode_app cs cs' : encode (cs ++ cs') = encode cs ++ encode cs'.
Proof. unfold encode. by rewrite fmap_app, join_app. Qed.

Lemma encode_cons c cs : encode (c :: cs) = encode1 c ++ encode cs.
Proof. done. Qed.

Lemma encode_nonzero cs : text cs -> Forall (fun x => x <> 0) (encode cs).
Proof.
  induction 1 as [|c cs [Hc Hne] _ IH]; [constructor|]. rewrite encode_cons. apply Forall_app. split; [|done].
  destruct (encode1_shape c Hc Hne) as (b & bs & -> & _ & _ & _ & H). done.
Qed.

Lemma encode_length cs : text cs -> (length cs <= length (encode cs))%nat.
Proof.
  induction 1 as [|c cs [Hc Hne] _ IH]; [done|]. rewrite encode_cons, length_app.
  destruct (encode1_shape c Hc Hne) as (b & bs & -> & _). cbn. lia.
Qed.

(** C36: The codec round trip: in any buffer, a Unicode scalar value is decoded
    from the bytes the encoder writes for it, and the encoder's size, the
    decoder's size and the length the first byte announces agree. *)
Theorem Utf8_roundtrip c pre post :
  scalar c ->
  exists b bs, WriteUTF8Bytes c (GetByteSize c) = b :: bs /\
    GetCharInternal (pre ++ (b :: bs) ++ post) (length pre) = Some (c, GetByteSize c) /\
    UTF8SequenceLength b = GetByteSize c /\ Z.of_nat (length (b :: bs)) = GetByteSize c.
Proof.
  intros Hc. assert (exists b bs, encode1 c = b :: bs /\ UTF8SequenceLength b = GetByteSize c /\
    Z.of_nat (length (b :: bs)) = GetByteSize c) as (b & bs & He & Hl & Hlen).
  { destruct (Z.eq_dec c 0) as [->|Hne]; [by exists 0, []|].
    destruct (encode1_shape c Hc Hne) as (b & bs & ? & ? & _ & ? & _). by exists b, bs. }
  exists b, bs. split_and!; [exact He| |done|done]. apply decode_at; [done|]. intros k x Hk.
  rewrite He in Hk. rewrite lookup_app_r, Nat.add_sub_swap, Nat.sub_diag by lia. by apply lookup_app_l_Some.
Qed.

Lemma Utf8_roundtrip_witness :
  scalar 0x10FFFF /\ exists b bs, WriteUTF8Bytes 0x10FFFF (GetByteSize 0x10FFFF) = b :: bs /\
    GetCharInternal ([97] ++ (b :: bs) ++ [0]) (length [97]) = Some (0x10FFFF, GetByteSize 0x10FFFF) /\
    UTF8SequenceLength b = GetByteSize 0x10FFFF /\ Z.of_nat (length (b :: bs)) = GetByteSize 0x10FFFF.
Proof.
  assert (scalar 0x10FFFF) as H by (vm_compute; intuition congruence).
  split; [exact H|]. exact (Utf8_roundtrip 0x10FFFF [97] [0] H).
Defined.

End Utf8.
