(* ===== verification/CcmString.v ===== *)
(** * The runtime's String: reading

    The const member functions of [String],
    [src/src/runtime/type/ccmstring.cpp] and [.h], over the bytes of its shared
    buffer, the terminating NUL included.  They change nothing but the cached
    character count.  [None] is an access through a null pointer or outside the
    buffer.  An array is the list of its elements, [None] when it is null. *)
From S2P Require Import Prelude.
From S2P Require Import Utf8.

Module CcmString.
Import Utf8.

Record t := { mString : option (list Z); mCharCount : Z }.

Definition IsNull (s : t) : bool := match mString s with None => true | Some _ => false end.

(** [mString == nullptr || mString[0] == '\0'] *)
Definition IsNullOrEmpty (s : t) : option bool :=
  match mString s with None => Some true | Some b => c ← b !! 0%nat; Some (c =? 0) end.

Definition GetByteLength (s : t) : option Z :=
  match mString s with
  | None => Some 0
  | Some b => c ← b !! 0%nat; if c =? 0 then Some 0 else Some (i32 (Z.of_nat (length b)) - 1)
  end.

(** *** The cached character count *)

Definition SetCharCount (charCount : Z) (s : t) : t :=
  {| mString := mString s; mCharCount := i32 (Z.lor (Z.land 0x7FFFFFFF charCount) (Z.shiftl 1 31)) |}.
Definition GetCharCount (s : t) : Z := Z.land 0x7FFFFFFF (mCharCount s).
Definition IsCounted (s : t) : bool := negb (Z.land (mCharCount s) (i32 (Z.shiftl 1 31)) =? 0).

(** *** The loop all readers share

    While [p] is before [end] and not at a NUL, takes the next character,
    decoded or only measured; [byteSize == 0 || p + byteSize >= end] ends the
    loop; the rest of the body goes on with a new state, after
    [p += byteSize], or returns. *)
Definition next_char (b : list Z) (end_ : Z) (p : nat) : option (option (Z * Z)) :=
  c ← b !! p;
  if (c =? 0) || negb (Z.of_nat p <? end_) then Some None
  else
    '(unicode, byteSize) ← GetCharInternal b p;
    if (byteSize =? 0) || (Z.of_nat p + byteSize >=? end_) then Some None else Some (Some (unicode, byteSize)).

Definition next_size (b : list Z) (end_ : Z) (p : nat) : option (option (Z * Z)) :=
  c ← b !! p;
  if (c =? 0) || negb (Z.of_nat p <? end_) then Some None
  else
    let byteSize := UTF8SequenceLength c in
    if (byteSize =? 0) || (Z.of_nat p + byteSize >=? end_) then Some None else Some (Some (0, byteSize)).

Section Loop.
Context {S R : Type}.
Variable next : list Z -> Z -> nat -> option (option (Z * Z)).
Variable body : S -> Z -> Z -> nat -> option (S + R).

Fixpoint char_loop (fuel : nat) (b : list Z) (end_ : Z) (p : nat) (s : S) : option (S + R) :=
  match fuel with
  | O => None
  | Datatypes.S fuel =>
    match next b end_ p with
    | None => None
    | Some None => Some (inl s)
    | Some (Some (unicode, byteSize)) =>
      match body s unicode byteSize p with
      | Some (inl s) => char_loop fuel b end_ (p + Z.to_nat byteSize) s
      | r => r
      end
    end
  end.
End Loop.

(** A loop over the whole string from its start. *)
Definition walk {S R} next (body : S -> Z -> Z -> nat -> option (S + R)) (s : S) (x : t) : option (S + R) :=
  match mString x with
  | None => None
  | Some b => n ← GetByteLength x; char_loop next body (Datatypes.S (length b)) b (n + 1) 0 s
  end.

Definition count_body (charCount unicode byteSize : Z) (p : nat) : option (Z + Empty_set) := Some (inl (charCount + 1)).

(** The count and the string with its count cached. *)
Definition GetLength (s : t) : option (Z * t) :=
  e ← IsNullOrEmpty s;
  if e : bool then Some (0, s)
  else if IsCounted s then Some (GetCharCount s, s)
  else
    match walk next_size count_body 0 s with
    | Some (inl charCount) => Some (charCount, SetCharCount charCount s)
    | _ => None
    end.

Definition utf16_units (unicode : Z) : Z := if unicode >? 0xFFFF then 2 else 1.

Definition GetUTF16Length (start : Z) (s : t) : option Z :=
  e ← IsNullOrEmpty s;
  if e : bool then Some 0
  else
    let body st unicode (byteSize : Z) (p : nat) : option (Z * Z + Empty_set) :=
      let '(utf16Count, charCount) := st in
      Some (inl (if charCount >=? start then utf16Count + utf16_units unicode else utf16Count, charCount + 1)) in
    match walk next_char body (0, 0) s with Some (inl (n, _)) => Some n | _ => None end.

Definition GetHashCode (s : t) : Z :=
  match mString s with
  | None => 0
  | Some b => Z.land (fold_left (fun hash c => u32 (hash * 31 + c)) (c_str b) 0) 0x7FFFFFFF
  end.

Definition GetChar (index : Z) (s : t) : option Z :=
  e ← IsNullOrEmpty s;
  if (e : bool) || (index <? 0) then Some INVALID_CHAR
  else
    let body index unicode (byteSize : Z) (p : nat) : option (Z + Z) :=
      Some (if index =? 0 then inr unicode else inl (index - 1)) in
    match walk next_char body index s with Some (inr c) => Some c | Some (inl _) => Some INVALID_CHAR | None => None end.

(** [a[i] = v]. *)
Definition set_at (a : list Z) (i v : Z) : option (list Z) :=
  if (0 <=? i) && (i <? Z.of_nat (length a)) then Some (<[Z.to_nat i := v]> a) else None.

(** [GetChars(start)]; the array starts zeroed. *)
Definition GetChars (start : Z) (s : t) : option (option (list Z) * t) :=
  '(charCount, s) ← GetLength s;
  if start >=? charCount then Some (None, s)
  else
    let body st unicode (byteSize : Z) (p : nat) : option (list Z * Z + Empty_set) :=
      let '(a, i) := st in
      if i >=? start then a ← set_at a (i - start) unicode; Some (inl (a, i + 1)) else Some (inl (a, i + 1)) in
    match walk next_char body (replicate (Z.to_nat (charCount - start)) 0, 0) s with
    | Some (inl (a, _)) => Some (Some a, s)
    | _ => None
    end.

Definition E_ILLEGAL_ARGUMENT_EXCEPTION : Z := i32 (Z.lor (Z.shiftl 1 31) 0x02).
Definition NOERROR : Z := 0.

(** The range check of the copying getters. *)
Definition bad_range (srcBegin srcEnd charCount : Z) (dst : option (list Z)) (dstBegin : Z) : bool :=
  match dst with
  | None => true
  | Some d =>
    (srcBegin <? 0) || (srcEnd >? charCount) || (srcEnd <? srcBegin) || (dstBegin <? 0) ||
    (dstBegin >? Z.of_nat (length d)) || (srcEnd - srcBegin >? Z.of_nat (length d) - dstBegin)
  end.

(** [GetChars(srcBegin, srcEnd, dst, dstBegin)]. *)
Definition GetChars_into (srcBegin srcEnd : Z) (dst : option (list Z)) (dstBegin : Z) (s : t)
    : option (Z * option (list Z) * t) :=
  '(charCount, s) ← GetLength s;
  match dst with
  | Some d =>
    if bad_range srcBegin srcEnd charCount dst dstBegin then Some (E_ILLEGAL_ARGUMENT_EXCEPTION, dst, s)
    else
      let body st unicode (byteSize : Z) (p : nat) : option (list Z * Z + list Z) :=
      let '(d, i) := st in
        if (i >=? srcBegin) && (i <? srcEnd) then
          d ← set_at d (dstBegin + i - srcBegin) unicode;
          Some (if i =? srcEnd - 1 then inr d else inl (d, i + 1))
        else Some (inl (d, i + 1)) in
      match walk next_char body (d, 0) s with
      | Some (inl (d, _)) | Some (inr d) => Some (NOERROR, Some d, s)
      | None => None
      end
  | None => Some (E_ILLEGAL_ARGUMENT_EXCEPTION, dst, s)
  end.

(** The UTF-16 units of a character as [Short]s. *)
Definition utf16 (unicode : Z) : list Z :=
  if unicode <=? 0xFFFF then [wrap_s 16 unicode]
  else
    let u := unicode - 0x10000 in
    [wrap_s 16 (Z.shiftr u 10 + 0xD800); wrap_s 16 (Z.land u 0x3FF + 0xDC00)].

(** [a[i++] = v] for each. *)
Fixpoint set_all (a : list Z) (i : Z) (vs : list Z) : option (list Z * Z) :=
  match vs with [] => Some (a, i) | v :: vs => a ← set_at a i v; set_all a (i + 1) vs end.

Definition GetUTF16Chars (start : Z) (s : t) : option (option (list Z)) :=
  utf16Count ← GetUTF16Length start s;
  if start >? utf16Count then Some None
  else
    let body st unicode (byteSize : Z) (p : nat) : option (list Z * Z * Z + Empty_set) :=
      let '(a, i, count) := st in
      if count >=? start then '(a, i) ← set_all a i (utf16 unicode); Some (inl (a, i, count + 1))
      else Some (inl (a, i, count + 1)) in
    match walk next_char body (replicate (Z.to_nat utf16Count) 0, 0, 0) s with
    | Some (inl (a, _, _)) => Some (Some a)
    | _ => None
    end.

(** [GetUTF16Chars(srcBegin, srcEnd, dst, dstBegin)]: the units go to the
    front of [dst]. *)
Definition GetUTF16Chars_into (srcBegin srcEnd : Z) (dst : option (list Z)) (dstBegin : Z) (s : t)
    : option (Z * option (list Z) * t) :=
  '(charCount, s) ← GetLength s;
  match dst with
  | Some d =>
    if bad_range srcBegin srcEnd charCount dst dstBegin then Some (E_ILLEGAL_ARGUMENT_EXCEPTION, dst, s)
    else
      let body st unicode (byteSize : Z) (p : nat) : option (list Z * Z * Z + list Z) :=
      let '(d, i, count) := st in
        if (count >=? srcBegin) && (count <? srcEnd) then
          '(d, i) ← set_all d i (utf16 unicode);
          Some (if count =? srcEnd - 1 then inr d else inl (d, i, count + 1))
        else Some (inl (d, i, count + 1)) in
      match walk next_char body (d, 0, 0) s with
      | Some (inl (d, _, _)) | Some (inr d) => Some (NOERROR, Some d, s)
      | None => None
      end
  | None => Some (E_ILLEGAL_ARGUMENT_EXCEPTION, dst, s)
  end.

(** [Compare]; two strings on one buffer are equal whatever they hold. *)
Definition Compare (string : option (list Z)) (s : t) : Z :=
  match mString s, string with
  | None, None => 0
  | None, Some _ => -1
  | Some _, None => 1
  | Some a, Some b => strcmp (c_str a) (c_str b)
  end.

Definition Equals (other : t) (s : t) : bool := Compare (mString other) s =? 0.

(** *** Indices *)

(** The byte index and size of a character; -1 when there is none. *)
Definition ToByteIndex (charIndex : Z) (s : t) : option (Z * option Z * t) :=
  if charIndex <? 0 then Some (-1, None, s)
  else
    '(n, s) ← GetLength s;
    if charIndex >=? n then Some (-1, None, s)
    else
      let body charCount (unicode byteSize : Z) (p : nat) : option (Z + Z * Z) :=
        Some (if charCount =? charIndex then inr (Z.of_nat p, byteSize) else inl (charCount + 1)) in
      match walk next_size body 0 s with
      | Some (inr (i, n)) => Some (i, Some n, s)
      | Some (inl _) => Some (-1, None, s)
      | None => None
      end.

Definition ToCharIndex (byteIndex : Z) (s : t) : option Z :=
  n ← GetByteLength s;
  if (byteIndex <? 0) || (byteIndex >? n) then Some (-1)
  else
    let body charIndex (unicode byteSize : Z) (p : nat) : option (Z + Z) :=
      Some (if (byteIndex >=? Z.of_nat p) && (byteIndex <? Z.of_nat p + byteSize) then inr charIndex
            else inl (charIndex + 1)) in
    match walk next_size body 0 s with
    | Some (inr i) => Some i
    | Some (inl _) => Some (-1)
    | None => None
    end.

Definition IndexOf_char (c fromCharIndex : Z) (s : t) : option Z :=
  if fromCharIndex <? 0 then Some (-1)
  else
    let body i unicode (byteSize : Z) (p : nat) : option (Z + Z) :=
      Some (if (i >=? fromCharIndex) && (c =? unicode) then inr i else inl (i + 1)) in
    match walk next_char body 0 s with
    | Some (inr i) => Some i
    | Some (inl _) => Some (-1)
    | None => None
    end.

(** [IndexOf(const char* )]; [psub] is an index into the buffer. *)
Definition IndexOf (string : option (list Z)) (fromCharIndex : Z) (s : t) : option Z :=
  match string with
  | None => Some (-1)
  | Some sub =>
    if bool_decide (c_str sub = []) then Some (-1)
    else
      let b := default [] (mString s) in
      let body st (unicode byteSize : Z) (p : nat) : option (Z * option nat + Z) :=
      let '(i, psub) := st in
        let search := (i >=? fromCharIndex) && match psub with None => true | Some _ => false end in
        let psub := if search then Nat.add p <$> strstr (c_str (drop p b)) (c_str sub) else psub in
        Some (match psub with
              | None => if search then inr (-1) else inl (i + 1, psub)
              | Some q => if (p =? q)%nat then inr i else inl (i + 1, psub)
              end) in
      match walk next_size body (0, None) s with
      | Some (inr i) => Some i
      | Some (inl _) => Some (-1)
      | None => None
      end
  end.

(** *** Pieces: the bytes a new string is made of *)

(** [String(const char* string, Integer byteSize)] at [p] of the buffer: what
    it copies, or no string. *)
Definition slice (b : list Z) (p : nat) (byteSize : Z) : option (list Z) :=
  let s := c_str (drop p b) in
  if (0 <=? byteSize) && (byteSize <=? Z.of_nat (length s)) then Some (take (Z.to_nat byteSize) s) else None.

(** [Substring(charStart, charEnd)]; the result is the bytes of the new string,
    [None] inside when it is null. *)
Definition Substring (charStart charEnd : Z) (s : t) : option (option (list Z) * t) :=
  match mString s with
  | None => Some (None, s)
  | Some b =>
    if (charStart <? 0) || (charEnd <? 0) || (charStart >? charEnd) then Some (Some [], s)
    else
      '(n, s) ← GetLength s;
      if charStart >=? n then Some (Some [], s)
      else
        len ← GetByteLength s;
        let body st (unicode byteSize : Z) (p : nat) : option (Z * nat + nat * nat) :=
      let '(charCount, p1) := st in
          let p1 := if charCount =? charStart then p else p1 in
          let p := (p + Z.to_nat byteSize)%nat in
          Some (if charCount =? charEnd then inr (p1, p) else inl (charCount + 1, p1)) in
        '(p1, p2) ← (match walk next_size body (0, 0%nat) s with
                      | Some (inr r) => Some r
                      | Some (inl (_, p1)) => Some (p1, Z.to_nat (len + 1))
                      | None => None
                      end);
        Some (slice b p1 (Z.of_nat p2 - 1 - Z.of_nat p1), s)
  end.

Definition Substring_from (charStart : Z) (s : t) : option (option (list Z) * t) :=
  '(n, s) ← GetLength s; Substring charStart n s.

End CcmString.
