(* ===== verification/CcmStringProofs.v ===== *)
(** * The runtime's String reads code points

    On a buffer that holds a text in UTF-8 the member functions of [String]
    are the list functions on its characters. *)
From S2P Require Import Prelude.
From S2P Require Import Utf8.
From S2P Require Import CcmString.

Module CcmStringProofs.
Import Utf8.
Import CcmString.

(** [s] holds the text [cs]; a cached count is the right one. *)
Record holds (s : t) (cs : list Z) : Prop := {
  holds_bytes : mString s = Some (encode cs ++ [0]);
  holds_text : text cs;
  holds_size : Z.of_nat (length (encode cs)) < 2147483646;
  holds_count : IsCounted s = true -> GetCharCount s = Z.of_nat (length cs)
}.

(** The loop over a text: one character after the other. *)
Section Loop.
Context {S R : Type}.
Variable body : S -> Z -> Z -> nat -> option (S + R).
Variable seen : Z -> Z.   (* what the body is told of a character *)

Fixpoint text_loop (cs : list Z) (p : nat) (s : S) : option (S + R) :=
  match cs with
  | [] => Some (inl s)
  | c :: cs =>
    match body s (seen c) (GetByteSize c) p with
    | Some (inl s) => text_loop cs (p + Z.to_nat (GetByteSize c)) s
    | r => r
    end
  end.

Variable next : list Z -> Z -> nat -> option (option (Z * Z)).

Definition sees : Prop := forall pre c post, scalar c -> c <> 0 ->
  let b := (encode (pre ++ c :: post) ++ [0]) in
  next b (Z.of_nat (length b)) (length (encode pre)) = Some (Some (seen c, GetByteSize c)) /\
  next (encode pre ++ [0]) (Z.of_nat (length (encode pre ++ [0]))) (length (encode pre)) = Some None.

Lemma loop_text pre post fuel s : sees -> text (pre ++ post) -> (length post < fuel)%nat ->
  let b := encode (pre ++ post) ++ [0] in
  char_loop next body fuel b (Z.of_nat (length b)) (length (encode pre)) s = text_loop post (length (encode pre)) s.
Proof.
  intros Hs. revert pre fuel s. induction post as [|c post IH]; intros pre fuel s Ht Hf b; subst b;
    (destruct fuel as [|fuel]; [lia|]); cbn [char_loop text_loop].
  - rewrite app_nil_r. destruct (Hs pre 1 []) as [_ ->]; [vm_compute; intuition congruence|done|done].
  - apply Forall_app in Ht as Ht'. destruct Ht' as [_ Ht']. apply Forall_cons in Ht' as [[Hc Hne] _].
    destruct (Hs pre c post Hc Hne) as [-> _]. destruct (body s (seen c) (GetByteSize c) (length (encode pre))) as [[s'|r]|]; [|done|done].
    destruct (encode1_shape c Hc Hne) as (x & xs & He & _ & _ & Hlen & _).
    assert (length (encode pre) + Z.to_nat (GetByteSize c) = length (encode (pre ++ [c])))%nat as ->.
    { rewrite encode_app, length_app, encode_cons, app_nil_r, He. cbn [encode fmap list_fmap mjoin list_join] in *. lia. }
    assert (pre ++ c :: post = (pre ++ [c]) ++ post) as Ha by by rewrite <- app_assoc.
    rewrite Ha. apply IH; [by rewrite <- Ha|cbn in Hf; lia].
Qed.
End Loop.

(** The bytes around a character. *)
Lemma text_at pre c post k b : encode1 c !! k = Some b ->
  (encode (pre ++ c :: post) ++ [0]) !! (length (encode pre) + k)%nat = Some b.
Proof.
  intros Hk. rewrite encode_app, encode_cons, <- !app_assoc.
  rewrite lookup_app_r by lia. rewrite Nat.add_sub_swap, Nat.sub_diag by lia. cbn [Nat.add].
  by apply lookup_app_l_Some.
Qed.

Lemma text_end cs : (encode cs ++ [0]) !! length (encode cs) = Some 0.
Proof. by rewrite lookup_app_r, Nat.sub_diag by lia. Qed.

Lemma char_fits pre c post : scalar c -> c <> 0 ->
  Z.of_nat (length (encode pre)) + GetByteSize c < Z.of_nat (length (encode (pre ++ c :: post) ++ [0])).
Proof.
  intros Hc Hne. destruct (encode1_shape c Hc Hne) as (x & xs & He & _ & _ & <- & _).
  rewrite encode_app, encode_cons, He, !length_app. cbn. lia.
Qed.

Lemma sees_char : sees (fun c => c) next_char.
Proof.
  intros pre c post Hc Hne b. unfold next_char. split.
  - destruct (encode1_shape c Hc Hne) as (x & xs & He & _ & Hsz & _ & Hnz).
    assert (b !! length (encode pre) = Some x) as ->.
    { rewrite <- (Nat.add_0_r (length (encode pre))). apply text_at. by rewrite He. }
    pose proof (char_fits pre c post Hc Hne) as Hfit. fold b in Hfit.
    cbn [mbind option_bind]. apply Forall_cons in Hnz as [Hx _]. rewrite (proj2 (Z.eqb_neq x 0) Hx).
    rewrite (proj2 (Z.ltb_lt _ _)) by lia. cbn [orb negb].
    rewrite (decode_at b (length (encode pre)) c Hc (fun k x => text_at pre c post k x)). cbn [mbind option_bind].
    rewrite Z.geb_leb, (proj2 (Z.eqb_neq (GetByteSize c) 0)), (proj2 (Z.leb_gt _ _)) by lia. done.
  - by rewrite text_end.
Qed.

Lemma sees_size : sees (fun _ => 0) next_size.
Proof.
  intros pre c post Hc Hne b. unfold next_size. split.
  - destruct (encode1_shape c Hc Hne) as (x & xs & He & Hl & Hsz & _ & Hnz).
    assert (b !! length (encode pre) = Some x) as ->.
    { rewrite <- (Nat.add_0_r (length (encode pre))). apply text_at. by rewrite He. }
    pose proof (char_fits pre c post Hc Hne) as Hfit. fold b in Hfit.
    cbn [mbind option_bind]. apply Forall_cons in Hnz as [Hx _]. rewrite (proj2 (Z.eqb_neq x 0) Hx).
    rewrite (proj2 (Z.ltb_lt _ _)) by lia. cbn [orb negb]. rewrite Hl.
    rewrite Z.geb_leb, (proj2 (Z.eqb_neq (GetByteSize c) 0)), (proj2 (Z.leb_gt _ _)) by lia. done.
  - by rewrite text_end.
Qed.

(** ** What a string holds *)

Lemma holds_IsNullOrEmpty s cs : holds s cs -> IsNullOrEmpty s = Some (bool_decide (cs = [])).
Proof.
  intros [Hb Ht _ _]. unfold IsNullOrEmpty. rewrite Hb. destruct cs as [|c cs]; [done|].
  apply Forall_cons in Ht as [[Hc Hne] _].
  destruct (encode1_shape c Hc Hne) as (x & xs & He & _ & _ & _ & Hnz). rewrite encode_cons, He. cbn.
  apply Forall_cons in Hnz as [Hx _]. by rewrite (proj2 (Z.eqb_neq x 0) Hx).
Qed.

Lemma holds_GetByteLength s cs : holds s cs -> GetByteLength s = Some (Z.of_nat (length (encode cs))).
Proof.
  intros Hh. pose proof (holds_IsNullOrEmpty s cs Hh) as He. destruct Hh as [Hb Ht Hs _].
  unfold GetByteLength, IsNullOrEmpty in *. rewrite Hb in *. destruct ((encode cs ++ [0]) !! 0%nat) as [x|]; [|done].
  cbn [mbind option_bind] in *. injection He as He. destruct cs as [|c cs]; [by rewrite He|].
  rewrite He, bool_decide_eq_false_2 by done. rewrite length_app. cbn [length]. f_equal.
  rewrite wrap_s_id by (fits || lia). lia.
Qed.

Lemma walk_holds {S R} (body : S -> Z -> Z -> nat -> option (S + R)) next seen s0 s cs :
  sees seen next -> holds s cs -> walk next body s0 s = text_loop body seen cs 0 s0.
Proof.
  intros Hsees Hh. unfold walk. pose proof (holds_GetByteLength s cs Hh) as Hn. destruct Hh as [Hb Ht _ _].
  rewrite Hb, Hn. cbn [mbind option_bind].
  pose proof (loop_text body seen next [] cs (Datatypes.S (length (encode cs ++ [0]))) s0 Hsees Ht) as Hl.
  assert (Z.of_nat (length (encode cs)) + 1 = Z.of_nat (length (encode cs ++ [0]))) as ->
    by (rewrite length_app; cbn; lia).
  apply Hl. pose proof (encode_length cs Ht). rewrite length_app. lia.
Qed.

(** The cache gives back the count it was given. *)
Lemma SetCharCount_count n s : 0 <= n < 2147483648 -> GetCharCount (SetCharCount n s) = n.
Proof.
  intros Hn. unfold GetCharCount, SetCharCount. cbn [mCharCount].
  assert (forall z, Z.land 0x7FFFFFFF z = z mod 2 ^ 31) as Hland.
  { intros z. rewrite Z.land_comm. change 0x7FFFFFFF with (Z.ones 31). by rewrite Z.land_ones by lia. }
  rewrite Hland. set (z := Z.lor _ _).
  assert (i32 z mod 2 ^ 31 = z mod 2 ^ 31) as ->.
  { assert (forall a, a mod 2 ^ 31 = (a mod 2 ^ 32) mod 2 ^ 31) as Hm.
    { intros a. symmetry. apply Z.mod_mod_divide. by exists 2. }
    rewrite Hm, wrap_s_mod, <- Hm by lia. done. }
  unfold z. rewrite <- Hland, Z.land_lor_distr_r. cbn [Z.shiftl]. change (Z.land 0x7FFFFFFF (Z.shiftl 1 31)) with 0.
  rewrite Z.lor_0_r, Z.land_assoc, Z.land_diag, Hland. apply Z.mod_small. lia.
Qed.

(** ** Length and characters *)

Lemma GetLength_holds s cs : holds s cs ->
  exists s', GetLength s = Some (Z.of_nat (length cs), s') /\ holds s' cs.
Proof.
  intros Hh. unfold GetLength. rewrite (holds_IsNullOrEmpty s cs Hh). cbn [mbind option_bind].
  case_bool_decide as He; [subst cs; by exists s|]. destruct (IsCounted s) eqn:Hc.
  { exists s. by rewrite (holds_count s cs Hh Hc). }
  rewrite (walk_holds count_body next_size (fun _ => 0) 0 s cs sees_size Hh).
  assert (forall cs p n, text_loop count_body (fun _ => 0) cs p n = Some (inl (n + Z.of_nat (length cs)))) as Hl.
  { clear. intros cs. induction cs as [|c cs IH]; intros p n; cbn -[Z.of_nat]; [by rewrite Z.add_0_r|].
    rewrite IH. do 2 f_equal. lia. }
  rewrite Hl, Z.add_0_l. eexists. split; [done|]. destruct Hh as [Hb Ht Hs _]. split; [done..|]. intros _.
  apply SetCharCount_count. pose proof (encode_length cs Ht). lia.
Qed.

Lemma GetChar_holds s cs index : holds s cs ->
  GetChar index s = Some (if index <? 0 then INVALID_CHAR else default INVALID_CHAR (cs !! Z.to_nat index)).
Proof.
  intros Hh. unfold GetChar. rewrite (holds_IsNullOrEmpty s cs Hh). cbn [mbind option_bind].
  case_bool_decide as He; [subst cs; rewrite lookup_nil; by destruct (index <? 0)|]. cbn [orb].
  destruct (Z.ltb_spec index 0); [done|]. rewrite (walk_holds _ _ _ _ _ _ sees_char Hh).
  generalize 0%nat. clear He Hh. revert index H. induction cs as [|c cs IH]; intros index Hi p; cbn [text_loop]; [done|].
  destruct (Z.eqb_spec index 0) as [->|Hne]; [done|]. rewrite IH by lia.
  replace (Z.to_nat index) with (S (Z.to_nat (index - 1))) by lia. done.
Qed.

(** The array fills up with the characters from [start] on. *)
Lemma set_at_app l r x v : set_at (l ++ x :: r) (Z.of_nat (length l)) v = Some (l ++ v :: r).
Proof.
  unfold set_at. rewrite length_app. cbn [length]. rewrite (proj2 (Z.leb_le _ _)), (proj2 (Z.ltb_lt _ _)) by lia.
  cbn [andb]. rewrite Nat2Z.id. by rewrite insert_app_r_alt, Nat.sub_diag by lia.
Qed.

(** The array of [GetChars] when the characters [pre] are passed. *)
Definition filled (start total : nat) (pre : list Z) : list Z :=
  drop start pre ++ replicate (total - start - (length pre - start)) 0.

Lemma filled_before start total pre c : (length pre < start)%nat -> filled start total (pre ++ [c]) = filled start total pre.
Proof.
  intros H. unfold filled. rewrite !drop_ge by (rewrite ?length_app; cbn; lia). f_equal. f_equal.
  rewrite length_app. cbn. lia.
Qed.

Lemma filled_set start total pre c : (start <= length pre < total)%nat ->
  set_at (filled start total pre) (Z.of_nat (length pre) - Z.of_nat start) c = Some (filled start total (pre ++ [c])).
Proof.
  intros H. unfold filled. rewrite drop_app_le, <- app_assoc by lia. rewrite length_app. cbn [length].
  replace (total - start - (length pre - start))%nat with (S (total - start - (length pre + 1 - start))) by lia.
  cbn [replicate]. replace (Z.of_nat (length pre) - Z.of_nat start) with (Z.of_nat (length (drop start pre)))
    by (rewrite length_drop; lia).
  by rewrite set_at_app.
Qed.

Lemma GetChars_holds s cs start : holds s cs -> 0 <= start ->
  exists s', GetChars start s =
    Some (if start <? Z.of_nat (length cs) then Some (drop (Z.to_nat start) cs) else None, s') /\ holds s' cs.
Proof.
  intros Hh Hst. unfold GetChars. destruct (GetLength_holds s cs Hh) as (s' & -> & Hh'). cbn [mbind option_bind].
  exists s'. split; [|done]. rewrite Z.geb_leb, Z.leb_antisym.
  destruct (Z.ltb_spec start (Z.of_nat (length cs))) as [Hlt|]; [|done]. cbn [negb].
  rewrite (walk_holds _ _ _ _ _ _ sees_char Hh'). rewrite <- (Z2Nat.id start) in * by lia.
  set (k := Z.to_nat start) in *. clearbody k. clear Hst start.
  set (body := fun st unicode (byteSize : Z) (p : nat) => _).
  assert (forall post pre p, cs = pre ++ post ->
    text_loop body (fun c => c) post p (filled k (length cs) pre, Z.of_nat (length pre))
    = Some (inl (B := Empty_set) (filled k (length cs) cs, Z.of_nat (length cs)))) as Hl.
  { induction post as [|c post IH]; intros pre p ->; cbn [text_loop]; [by rewrite app_nil_r|].
    specialize (IH (pre ++ [c]) (p + Z.to_nat (GetByteSize c))%nat ltac:(by rewrite <- app_assoc)).
    replace (Z.of_nat (length (pre ++ [c]))) with (Z.of_nat (length pre) + 1) in IH by (rewrite length_app; cbn; lia).
    unfold body at 1. rewrite Z.geb_leb.
    destruct (Z.leb_spec (Z.of_nat k) (Z.of_nat (length pre))).
    - rewrite filled_set by (rewrite length_app; cbn; lia). exact IH.
    - rewrite filled_before in IH by lia. exact IH. }
  specialize (Hl cs [] 0%nat eq_refl). unfold filled at 1 in Hl. rewrite drop_nil, Nat.sub_0_l, Nat.sub_0_r in Hl.
  cbn [app length] in Hl. change (Z.of_nat 0) with 0 in Hl. rewrite Z2Nat.inj_sub, !Nat2Z.id by lia. rewrite Hl.
  unfold filled. replace (_ - _ - _)%nat with 0%nat by lia. by rewrite app_nil_r.
Qed.

(** ** Searching *)

(** A loop whose state counts the characters and which leaves at some of them
    stops at the first of these. *)
Section Search.
Context {R : Type}.
Variables (leave : Z -> Z -> Z -> nat -> option R) (seen : Z -> Z) (cs : list Z).
Hypothesis Hcs : text cs.

(** What the loop is told at index [i]. *)
Definition leaves (i : nat) (c : Z) : option R := leave (Z.of_nat i) (seen c) (GetByteSize c) (length (encode (take i cs))).

Definition search_body (i unicode byteSize : Z) (p : nat) : option (Z + R) :=
  Some (match leave i unicode byteSize p with Some r => inr r | None => inl (i + 1) end).

Lemma search_loop post pre :
  cs = pre ++ post ->
  (exists i c r, cs !! i = Some c /\ leaves i c = Some r /\
     (forall j d, (length pre <= j < i)%nat -> cs !! j = Some d -> leaves j d = None) /\
     text_loop search_body seen post (length (encode pre)) (Z.of_nat (length pre)) = Some (inr r)) \/
  ((forall j d, (length pre <= j)%nat -> cs !! j = Some d -> leaves j d = None) /\
     text_loop search_body seen post (length (encode pre)) (Z.of_nat (length pre)) =
       Some (inl (Z.of_nat (length cs)))).
Proof.
  revert pre. induction post as [|c post IH]; intros pre E; cbn [text_loop].
  - right. rewrite E, app_nil_r. split; [|done]. intros j d Hj Hd. apply lookup_lt_Some in Hd. lia.
  - assert (take (length pre) cs = pre) as Htake by (by rewrite E, take_app_length).
    assert (cs !! length pre = Some c) as Hc by (by rewrite E, list_lookup_middle).
    unfold search_body at 1 3.
    destruct (leave (Z.of_nat (length pre)) (seen c) (GetByteSize c) (length (encode pre))) as [r|] eqn:Hl.
    { left. exists (length pre), c, r. unfold leaves. rewrite Htake. split_and!; [done..| |done]. intros. lia. }
    destruct (Forall_lookup_1 _ _ _ _ Hcs Hc) as [Hsc Hne].
    destruct (encode1_shape c Hsc Hne) as (x & xs & He & _ & _ & Hlen & _).
    replace (length (encode pre) + Z.to_nat (GetByteSize c))%nat with (length (encode (pre ++ [c])))
      by (rewrite encode_app, length_app, encode_cons, length_app, He; cbn in *; lia).
    specialize (IH (pre ++ [c]) ltac:(by rewrite E, <- app_assoc)).
    assert (length (pre ++ [c]) = S (length pre)) as Hsucc by (rewrite length_app; cbn; lia). rewrite Hsucc in IH.
    replace (Z.of_nat (length pre) + 1) with (Z.of_nat (S (length pre))) by lia.
    assert (forall j d, (length pre <= j)%nat -> cs !! j = Some d -> j = length pre -> leaves j d = None) as Hhere.
    { intros j d _ Hd ->. rewrite Hc in Hd. injection Hd as <-. unfold leaves. by rewrite Htake. }
    destruct IH as [(i & d & r & Hi & Hr & Hno & ->)|[Hno ->]]; [left; exists i, d, r|right]; split_and!; try done.
    + intros j e Hj He'. destruct (Nat.eq_dec j (length pre)); [apply Hhere; by try lia|apply Hno; by try lia].
    + intros j e Hj He'. destruct (Nat.eq_dec j (length pre)); [apply Hhere; by try lia|apply Hno; by try lia].
Qed.
End Search.

Lemma text_loop_ext {S R} (body body' : S -> Z -> Z -> nat -> option (S + R)) seen cs p s :
  (forall s u n p, body s u n p = body' s u n p) -> text_loop body seen cs p s = text_loop body' seen cs p s.
Proof.
  intros Hb. revert p s. induction cs as [|c cs IH]; intros p s; cbn [text_loop]; [done|].
  rewrite Hb. destruct (body' s (seen c) (GetByteSize c) p) as [[s'|r]|]; [apply IH|done|done].
Qed.

(** A reader that walks the string until it leaves. *)
Lemma walk_search {R} (leave : Z -> Z -> Z -> nat -> option R) body next seen s cs :
  sees seen next -> holds s cs -> (forall i u n p, body i u n p = search_body leave i u n p) ->
  (exists i c r, cs !! i = Some c /\ leaves leave seen cs i c = Some r /\
     (forall j d, (j < i)%nat -> cs !! j = Some d -> leaves leave seen cs j d = None) /\
     walk next body 0 s = Some (inr r)) \/
  ((forall j d, cs !! j = Some d -> leaves leave seen cs j d = None) /\
     walk next body 0 s = Some (inl (Z.of_nat (length cs)))).
Proof.
  intros Hsees Hh Hb. rewrite (walk_holds body next seen 0 s cs Hsees Hh), (text_loop_ext _ _ _ _ _ _ Hb).
  destruct (search_loop leave seen cs (holds_text s cs Hh) cs [] eq_refl)
    as [(i & c & r & Hi & Hr & Hno & Hw)|[Hno Hw]]; cbn [encode fmap list_fmap mjoin list_join length] in Hw;
    change (Z.of_nat 0) with 0 in Hw; [left; exists i, c, r|right]; split_and!; try done.
  - intros j d Hj. apply Hno. cbn. lia.
  - intros j d. apply Hno. cbn. lia.
Qed.

Lemma IndexOf_char_holds s cs c from : holds s cs -> 0 <= from ->
  (exists i, from <= Z.of_nat i /\ cs !! i = Some c /\ IndexOf_char c from s = Some (Z.of_nat i) /\
     forall j, from <= Z.of_nat j -> (j < i)%nat -> cs !! j <> Some c) \/
  (IndexOf_char c from s = Some (-1) /\ forall j, from <= Z.of_nat j -> cs !! j <> Some c).
Proof.
  intros Hh Hf. unfold IndexOf_char. rewrite (proj2 (Z.ltb_ge _ _)) by done.
  set (leave := fun (i u n : Z) (p : nat) => if (i >=? from) && (c =? u) then Some i else None).
  set (body := fun i unicode (byteSize : Z) (p : nat) => _).
  destruct (walk_search leave body next_char (fun c => c) s cs sees_char Hh) as [(i & d & r & Hi & Hr & Hno & ->)|[Hno ->]].
  { intros i u n p. unfold body, search_body, leave. by destruct (_ && _). }
  - left. unfold leaves, leave in Hr. destruct (_ && _) eqn:E; [|done]. injection Hr as <-.
    rewrite Z.geb_leb in E. bprop. subst d. exists i. split_and!; try done.
    intros j Hj Hlt Hc. specialize (Hno j c Hlt Hc). unfold leaves, leave in Hno.
    rewrite Z.geb_leb, (proj2 (Z.leb_le _ _) Hj), Z.eqb_refl in Hno. done.
  - right. split; [done|]. intros j Hj Hc. specialize (Hno j c Hc). unfold leaves, leave in Hno.
    rewrite Z.geb_leb, (proj2 (Z.leb_le _ _) Hj), Z.eqb_refl in Hno. done.
Qed.

(** Where the character at an index starts. *)
Definition byte_offset (cs : list Z) (i : nat) : Z := Z.of_nat (length (encode (take i cs))).

Lemma ToByteIndex_holds s cs i c : holds s cs -> cs !! i = Some c ->
  exists s', ToByteIndex (Z.of_nat i) s = Some (byte_offset cs i, Some (GetByteSize c), s') /\ holds s' cs.
Proof.
  intros Hh Hi. pose proof (lookup_lt_Some _ _ _ Hi). unfold ToByteIndex. rewrite (proj2 (Z.ltb_ge _ _)) by lia.
  destruct (GetLength_holds s cs Hh) as (s' & -> & Hh'). cbn [mbind option_bind].
  rewrite Z.geb_leb, (proj2 (Z.leb_gt _ _)) by lia. exists s'. split; [|done].
  set (leave := fun (j u n : Z) (p : nat) => if j =? Z.of_nat i then Some (Z.of_nat p, n) else None).
  set (body := fun charCount (unicode byteSize : Z) (p : nat) => _).
  destruct (walk_search leave body next_size (fun _ => 0) s' cs sees_size Hh') as [(j & d & r & Hj & Hr & _ & ->)|[Hno _]].
  { intros j u n p. unfold body, search_body, leave. by destruct (_ =? _). }
  - unfold leaves, leave in Hr. destruct (Z.eqb_spec (Z.of_nat j) (Z.of_nat i)) as [E|]; [|done].
    apply Nat2Z.inj in E as ->. rewrite Hi in Hj. injection Hj as <-. by injection Hr as <-.
  - specialize (Hno i c Hi). unfold leaves, leave in Hno. by rewrite Z.eqb_refl in Hno.
Qed.

(** Any byte of a character leads back to it. *)
Lemma ToCharIndex_holds s cs i c k : holds s cs -> cs !! i = Some c -> 0 <= k < GetByteSize c ->
  ToCharIndex (byte_offset cs i + k) s = Some (Z.of_nat i).
Proof.
  intros Hh Hi Hk. unfold ToCharIndex. rewrite (holds_GetByteLength s cs Hh). cbn [mbind option_bind].
  assert (forall j d, cs !! j = Some d ->
    byte_offset cs (S j) = byte_offset cs j + GetByteSize d /\ 1 <= GetByteSize d) as Hnext.
  { intros j d Hd. destruct (Forall_lookup_1 _ _ _ _ (holds_text s cs Hh) Hd) as [Hsc Hne].
    destruct (encode1_shape d Hsc Hne) as (x & xs & He & _ & ? & Hlen & _). unfold byte_offset.
    rewrite (take_S_r _ _ _ Hd), encode_app, length_app, encode_cons, length_app, He. cbn in *. lia. }
  assert (forall j j', (j <= j')%nat -> byte_offset cs j <= byte_offset cs j') as Hmono.
  { intros j j' Hj. assert (exists d, j' = (j + d)%nat) as [d ->] by (exists (j' - j)%nat; lia).
    unfold byte_offset. rewrite <- take_take_drop, encode_app, length_app. lia. }
  assert (byte_offset cs (length cs) = Z.of_nat (length (encode cs))) as Hend by (unfold byte_offset; by rewrite take_ge by lia).
  pose proof (lookup_lt_Some _ _ _ Hi) as Hlt. destruct (Hnext i c Hi) as [Hn _].
  pose proof (Hmono (S i) (length cs) ltac:(lia)). assert (0 <= byte_offset cs i) by (unfold byte_offset; lia).
  rewrite (proj2 (Z.ltb_ge _ _)), Z.gtb_ltb, (proj2 (Z.ltb_ge _ _)) by lia. cbn [orb].
  set (leave := fun (j u n : Z) (p : nat) =>
    if (byte_offset cs i + k >=? Z.of_nat p) && (byte_offset cs i + k <? Z.of_nat p + n) then Some j else None).
  set (body := fun charIndex (unicode byteSize : Z) (p : nat) => _).
  assert (forall j d, cs !! j = Some d -> leaves leave (fun _ => 0) cs j d = if decide (j = i) then Some (Z.of_nat i) else None) as Hat.
  { intros j d Hd. unfold leaves, leave. fold (byte_offset cs j). rewrite Z.geb_leb. destruct (Hnext j d Hd).
    destruct (decide (j = i)) as [->|Hne].
    - rewrite Hi in Hd. injection Hd as <-. rewrite (proj2 (Z.leb_le _ _)), (proj2 (Z.ltb_lt _ _)) by lia. done.
    - destruct (Nat.lt_total j i) as [Hj|[Hj|Hj]]; [|done|].
      + pose proof (Hmono (S j) i ltac:(lia)). rewrite (proj2 (Z.ltb_ge _ _)), andb_false_r by lia. done.
      + pose proof (Hmono (S i) j ltac:(lia)). rewrite (proj2 (Z.leb_gt _ _)) by lia. done. }
  destruct (walk_search leave body next_size (fun _ => 0) s cs sees_size Hh) as [(j & d & r & Hj & Hr & _ & ->)|[Hno _]].
  { intros j u n p. unfold body, search_body, leave. by destruct (_ && _). }
  - rewrite (Hat j d Hj) in Hr. destruct (decide (j = i)); [|done]. by injection Hr as <-.
  - specialize (Hno i c Hi). rewrite (Hat i c Hi), decide_True in Hno by done. done.
Qed.

(** ** Substrings *)

Lemma byte_offset_S s cs i c : holds s cs -> cs !! i = Some c ->
  byte_offset cs (S i) = byte_offset cs i + GetByteSize c /\ 1 <= GetByteSize c /\
  Z.of_nat (length (encode1 c)) = GetByteSize c.
Proof.
  intros Hh Hi. destruct (Forall_lookup_1 _ _ _ _ (holds_text s cs Hh) Hi) as [Hsc Hne].
  destruct (encode1_shape c Hsc Hne) as (x & xs & He & _ & ? & Hlen & _). unfold byte_offset.
  rewrite (take_S_r _ _ _ Hi), encode_app, length_app, encode_cons, length_app, He. cbn in *. lia.
Qed.

Definition offset (cs : list Z) (i : nat) : nat := length (encode (take i cs)).

Lemma substring_loop s cs a b post pre :
  holds s cs -> cs = pre ++ post -> (a < length cs)%nat -> (length pre <= b)%nat ->
  text_loop (fun st (unicode byteSize : Z) p =>
      let '(charCount, p1) := st in
      let p1 := if charCount =? Z.of_nat a then p else p1 in
      let p := (p + Z.to_nat byteSize)%nat in
      Some (if charCount =? Z.of_nat b then inr (p1, p) else inl (charCount + 1, p1)))
    (fun _ => 0) post (offset cs (length pre)) (Z.of_nat (length pre), if (a <? length pre)%nat then offset cs a else 0%nat) =
  Some (if (b <? length cs)%nat then inr (if (a <=? b)%nat then offset cs a else 0%nat, offset cs (S b))
        else inl (Z.of_nat (length cs), offset cs a)).
Proof.
  intros Hh. revert pre. induction post as [|c post IH]; intros pre E Ha Hb; cbn [text_loop].
  - rewrite app_nil_r in E. subst pre. destruct (Nat.ltb_spec b (length cs)); [lia|].
    destruct (Nat.ltb_spec a (length cs)); [done|lia].
  - assert (cs !! length pre = Some c) as Hc by (by rewrite E, list_lookup_middle).
    destruct (byte_offset_S s cs _ c Hh Hc) as (Hoff & Hpos & _). unfold byte_offset in Hoff.
    assert (offset cs (length pre) + Z.to_nat (GetByteSize c) = offset cs (S (length pre)))%nat as Hnext
      by (unfold offset; lia).
    assert (length (pre ++ [c]) = S (length pre)) as Hlen by (rewrite length_app; cbn; lia).
    pose proof (lookup_lt_Some _ _ _ Hc). rewrite Hnext.
    assert ((if Z.of_nat (length pre) =? Z.of_nat a then offset cs (length pre)
             else if (a <? length pre)%nat then offset cs a else 0%nat) =
            if (a <? S (length pre))%nat then offset cs a else 0%nat) as ->.
    { destruct (Z.eqb_spec (Z.of_nat (length pre)) (Z.of_nat a)) as [Ea|];
        destruct (Nat.ltb_spec a (S (length pre))), (Nat.ltb_spec a (length pre)); try lia; try done.
      apply Nat2Z.inj in Ea. by rewrite Ea. }
    destruct (Z.eqb_spec (Z.of_nat (length pre)) (Z.of_nat b)) as [Eb|Nb].
    + apply Nat2Z.inj in Eb. rewrite <- Eb. destruct (Nat.ltb_spec (length pre) (length cs)); [|lia].
      by destruct (Nat.leb_spec a (length pre)), (Nat.ltb_spec a (S (length pre))); try lia.
    + specialize (IH (pre ++ [c]) ltac:(by rewrite E, <- app_assoc) Ha ltac:(lia)). rewrite Hlen in IH.
      replace (Z.of_nat (length pre) + 1) with (Z.of_nat (S (length pre))) by lia. exact IH.
Qed.

Lemma encode_drop cs i : drop (offset cs i) (encode cs) = encode (drop i cs).
Proof. unfold offset. rewrite <- (take_drop i cs) at 2. by rewrite encode_app, drop_app_length. Qed.

Lemma encode_take cs i : take (offset cs i) (encode cs) = encode (take i cs).
Proof. unfold offset. rewrite <- (take_drop i cs) at 2. by rewrite encode_app, take_app_length. Qed.

(** The piece of the buffer from a character on. *)
Lemma slice_text cs i n : text cs -> (i <= length cs)%nat -> 0 <= n <= Z.of_nat (length (encode (drop i cs))) ->
  slice (encode cs ++ [0]) (offset cs i) n = Some (take (Z.to_nat n) (encode (drop i cs))).
Proof.
  intros Ht Hi Hn. unfold slice. rewrite drop_app_le, encode_drop by
    (unfold offset; rewrite <- (take_drop i cs) at 2; rewrite encode_app, length_app; lia).
  rewrite c_str_app_nul by (apply encode_nonzero; by apply Forall_drop).
  rewrite (proj2 (Z.leb_le 0 n)), (proj2 (Z.leb_le n _)) by lia. done.
Qed.

(** [Substring(charStart, charEnd)] gives the characters of the range, and
    after them all bytes but the last of the character at [charEnd]. *)
Lemma Substring_holds s cs a b : holds s cs -> (a <= b)%nat -> (a < length cs)%nat ->
  exists s', Substring (Z.of_nat a) (Z.of_nat b) s =
    Some (Some (encode (take (b - a) (drop a cs)) ++
                match cs !! b with Some c => take (Z.to_nat (GetByteSize c - 1)) (encode1 c) | None => [] end), s')
    /\ holds s' cs.
Proof.
  intros Hh Hab Ha. unfold Substring. rewrite (holds_bytes s cs Hh).
  rewrite (proj2 (Z.ltb_ge _ 0)), (proj2 (Z.ltb_ge _ 0)), Z.gtb_ltb, (proj2 (Z.ltb_ge _ _)) by lia. cbn [orb].
  destruct (GetLength_holds s cs Hh) as (s' & -> & Hh'). cbn [mbind option_bind].
  rewrite Z.geb_leb, (proj2 (Z.leb_gt _ _)) by lia. rewrite (holds_GetByteLength s' cs Hh'). cbn [mbind option_bind].
  exists s'. split; [|done]. rewrite (walk_holds _ _ _ _ _ _ sees_size Hh').
  pose proof (substring_loop s cs a b cs [] Hh eq_refl Ha ltac:(cbn; lia)) as Hl.
  change (offset cs (length [])) with 0%nat in Hl. cbn [length] in Hl. change (a <? 0)%nat with false in Hl.
  change (Z.of_nat 0) with 0 in Hl. rewrite Hl.
  assert (offset cs a + length (encode (drop a cs)) = length (encode cs))%nat as Hsplit.
  { unfold offset. by rewrite <- length_app, <- encode_app, take_drop. }
  destruct (Nat.ltb_spec b (length cs)) as [Hb|Hb].
  - rewrite (proj2 (Nat.leb_le a b)) by lia. destruct (lookup_lt_is_Some_2 cs b Hb) as [c Hc]. rewrite Hc.
    destruct (byte_offset_S s cs b c Hh Hc) as (Hoff & Hsz & Hlen1). unfold byte_offset in Hoff.
    fold (offset cs (S b)) (offset cs b) in Hoff.
    assert (encode (drop a cs) = encode (take (b - a) (drop a cs)) ++ encode1 c ++ encode (drop (S b) cs)) as He.
    { rewrite <- encode_cons, <- encode_app. f_equal. rewrite <- (take_drop (b - a) (drop a cs)) at 1. f_equal.
      rewrite drop_drop. replace (a + (b - a))%nat with b by lia. by apply drop_S. }
    assert (offset cs b = offset cs a + length (encode (take (b - a) (drop a cs))))%nat as Hob.
    { unfold offset. rewrite <- length_app, <- encode_app. f_equal. f_equal.
      rewrite take_take_drop. f_equal. lia. }
    cbn [mbind option_bind]. rewrite slice_text; [|apply (holds_text s cs Hh)|lia|rewrite He, !length_app; lia].
    do 3 f_equal. rewrite He. rewrite take_app. f_equal.
    + apply take_ge. lia.
    + rewrite take_app_le by lia. f_equal. lia.
  - rewrite lookup_ge_None_2 by lia. rewrite app_nil_r.
    cbn [mbind option_bind]. rewrite slice_text; [|apply (holds_text s cs Hh)|lia|lia].
    do 3 f_equal. rewrite (take_ge (drop a cs)) by (rewrite length_drop; lia). apply take_ge. lia.
Qed.

(** ** The properties *)

(** C37: On a string that holds a text in UTF-8 every reader sees the text's
    characters: their number, each of them and no other, all from an index on,
    and the first occurrence of one from an index on. *)
Theorem String_reads_text s cs :
  holds s cs ->
  (exists s', GetLength s = Some (Z.of_nat (length cs), s') /\ holds s' cs) /\
  (forall i, 0 <= i -> GetChar i s = Some (default INVALID_CHAR (cs !! Z.to_nat i))) /\
  (forall start, 0 <= start -> exists s', GetChars start s =
     Some (if start <? Z.of_nat (length cs) then Some (drop (Z.to_nat start) cs) else None, s') /\ holds s' cs) /\
  (forall c from, 0 <= from ->
     (exists i, from <= Z.of_nat i /\ cs !! i = Some c /\ IndexOf_char c from s = Some (Z.of_nat i) /\
        forall j, from <= Z.of_nat j -> (j < i)%nat -> cs !! j <> Some c) \/
     (IndexOf_char c from s = Some (-1) /\ forall j, from <= Z.of_nat j -> cs !! j <> Some c)).
Proof.
  intros Hh. split_and!.
  - by apply GetLength_holds.
  - intros i Hi. rewrite (GetChar_holds s cs i Hh). destruct (Z.ltb_spec i 0); [lia|done].
  - intros start Hst. by apply GetChars_holds.
  - intros c from Hf. by apply IndexOf_char_holds.
Qed.

(** [ToByteIndex] and [ToCharIndex] are inverse: a character's byte index
    is the length of the encoding before it, and every byte of the character
    leads back to its index. *)
Theorem String_indices s cs i c k :
  holds s cs -> cs !! i = Some c -> 0 <= k < GetByteSize c ->
  exists s' b, ToByteIndex (Z.of_nat i) s = Some (b, Some (GetByteSize c), s') /\ holds s' cs /\
    b = Z.of_nat (length (encode (take i cs))) /\ ToCharIndex (b + k) s' = Some (Z.of_nat i).
Proof.
  intros Hh Hi Hk. destruct (ToByteIndex_holds s cs i c Hh Hi) as (s' & Hb & Hh').
  exists s', (byte_offset cs i). split_and!; [done..|]. by apply (ToCharIndex_holds s' cs i c k).
Qed.

(** [Substring] gives the bytes of the characters from [charStart] to
    [charEnd], and after them all bytes but the last of the character at
    [charEnd]: it is the substring just when that character is ASCII or the
    end of the text. *)
Theorem Substring_cuts_characters s cs a b :
  holds s cs -> (a <= b)%nat -> (a < length cs)%nat ->
  exists s' bytes, Substring (Z.of_nat a) (Z.of_nat b) s = Some (Some bytes, s') /\ holds s' cs /\
    bytes = encode (take (b - a) (drop a cs)) ++
            match cs !! b with Some c => take (Z.to_nat (GetByteSize c - 1)) (encode1 c) | None => [] end /\
    (bytes = encode (take (b - a) (drop a cs)) <-> forall c, cs !! b = Some c -> c < 0x80).
Proof.
  intros Hh Hab Ha. destruct (Substring_holds s cs a b Hh Hab Ha) as (s' & Hs & Hh').
  eexists s', _. split_and!; [exact Hs|done|done|]. destruct (cs !! b) as [c|] eqn:Hc.
  2: { rewrite app_nil_r. split; [intros _ c [=]|done]. }
  destruct (byte_offset_S s cs b c Hh Hc) as (_ & Hsz & Hlen).
  destruct (Forall_lookup_1 _ _ _ _ (holds_text s cs Hh) Hc) as [Hsc _].
  split.
  - intros E d [= <-]. rewrite <- (app_nil_r (encode (take (b - a) (drop a cs)))) in E at 2. apply app_inv_head in E.
    apply (f_equal length) in E. rewrite length_take in E. cbn in E.
    destruct (Z.ltb_spec c 0x80) as [|Hge]; [done|].
    destruct (encode_digits c Hsc Hge) as (bytes & x & ds & _ & _ & _ & Hby & Hcase).
    destruct ds as [|? [|? [|? [|]]]]; try contradiction; lia.
  - intros Hasc. destruct (encode_ascii c) as (_ & -> & _); [destruct Hsc; specialize (Hasc c eq_refl); lia|].
    apply app_nil_r.
Qed.

(** [GetUTF16Chars] into an array checks [dstBegin] and then ignores it:
    the units are stored from the front. *)
Theorem GetUTF16Chars_ignores_dstBegin s c cs d ds dstBegin :
  holds s (c :: cs) -> c <= 0xFFFF -> 0 <= dstBegin < Z.of_nat (length (d :: ds)) ->
  exists s', GetUTF16Chars_into 0 1 (Some (d :: ds)) dstBegin s = Some (NOERROR, Some (wrap_s 16 c :: ds), s').
Proof.
  intros Hh Hc Hd. unfold GetUTF16Chars_into. destruct (GetLength_holds s _ Hh) as (s' & -> & Hh').
  cbn [mbind option_bind]. exists s'. unfold bad_range. rewrite !Z.gtb_ltb.
  rewrite (proj2 (Z.ltb_ge _ 1)), (proj2 (Z.ltb_ge dstBegin _)), (proj2 (Z.ltb_ge _ dstBegin)),
    (proj2 (Z.ltb_ge _ (1 - 0))) by (cbn [length] in *; lia).
  cbn [Z.ltb Z.compare orb]. rewrite (walk_holds _ _ _ _ _ _ sees_char Hh'). cbn [text_loop].
  change ((0 >=? 0) && (0 <? 1)) with true. cbn [mbind option_bind]. unfold utf16. rewrite (proj2 (Z.leb_le _ _) Hc).
  cbn [set_all]. rewrite (set_at_app [] ds d). done.
Qed.

(** *** Witnesses *)

(** The text of two letters and the euro sign between them. *)
Definition sample : t := {| mString := Some (encode [0x61; 0x20AC; 0x62] ++ [0]); mCharCount := 0 |}.

Lemma sample_holds : holds sample [0x61; 0x20AC; 0x62].
Proof.
  split; [reflexivity| |reflexivity|discriminate].
  repeat (constructor; [vm_compute; intuition congruence|]). constructor.
Qed.

Lemma String_reads_text_witness : holds sample [0x61; 0x20AC; 0x62] /\ GetChar 1 sample = Some 0x20AC.
Proof.
  split; [exact sample_holds|]. destruct (String_reads_text sample _ sample_holds) as (_ & H & _).
  rewrite (H 1); [reflexivity|discriminate].
Defined.

Lemma String_indices_witness : exists s' b,
  ToByteIndex 2 sample = Some (b, Some 1, s') /\ b = 4 /\ ToCharIndex (b + 0) s' = Some 2.
Proof.
  destruct (String_indices sample _ 2%nat 0x62 0 sample_holds eq_refl) as (s' & b & H1 & _ & H2 & H3);
    [split; reflexivity || discriminate|].
  exists s', b. split; [exact H1|]. split; [rewrite H2; reflexivity|exact H3].
Defined.

Lemma Substring_cuts_characters_witness : exists s' bytes,
  Substring 0 1 sample = Some (Some bytes, s') /\ bytes = [97; -30; -126].
Proof.
  destruct (Substring_cuts_characters sample _ 0%nat 1%nat sample_holds) as (s' & bytes & H1 & _ & H2 & _);
    [repeat constructor|repeat constructor|].
  exists s', bytes. split; [exact H1|]. rewrite H2. reflexivity.
Defined.

Lemma GetUTF16Chars_ignores_dstBegin_witness : exists s',
  GetUTF16Chars_into 0 1 (Some [0; 0; 0]) 2 sample = Some (NOERROR, Some [97; 0; 0], s').
Proof.
  destruct (GetUTF16Chars_ignores_dstBegin sample 0x61 [0x20AC; 0x62] 0 [0; 0] 2 sample_holds) as (s' & H);
    [discriminate|split; reflexivity || discriminate|].
  exists s'. exact H.
Defined.

End CcmStringProofs.
