(* ===== verification/SharedBuffer.v ===== *)
(** * Reference-counted buffers under the runtime's strings and arrays

    [src/src/runtime/type/ccmsharedbuffer.cpp] on a heap: a buffer's address
    is the one of its header; a freed buffer is gone from the heap and touching
    it is undefined.  A fresh buffer holds [garbage]; [realloc] moves its block
    or not ([moves]). *)
From S2P Require Import Prelude.

Module SharedBuffer.

Record buffer := { mRefs : Z; data : list Z }.

Definition mSize (b : buffer) : Z := Z.of_nat (length (data b)).

Abbreviation heap := (gmap positive buffer).

Definition header_size : Z := 24.   (* sizeof(SharedBuffer) *)
Definition SIZE_MAX : Z := 2 ^ 64 - 1.

(** [Logger::E] and a null pointer. *)
Section Buffers.
Context {A : Allocator}.
Variables (garbage : Z) (moves : bool).

Definition deref (a : positive) : SE heap buffer :=
  fun h => match h !! a with Some b => Some (b, h) | None => None end.
Definition store (a : positive) (b : buffer) : SE heap unit := modify (fun h => <[a := b]> h).
Definition free (a : positive) : SE heap unit := modify (fun h => delete a h).

Definition junk (n : nat) : list Z := replicate n garbage.

Definition Alloc (size : Z) : SE heap (option positive) :=
  if (size >=? SIZE_MAX - header_size) || negb (alloc_ok (header_size + size)) then ret None
  else
    a <- gets (fun h => fresh (dom h)) ;;
    store a {| mRefs := 1; data := junk (Z.to_nat size) |} ;;; ret (Some a).

Definition OnlyOwner (a : positive) : SE heap bool := b <- deref a ;; ret (mRefs b =? 1).

Definition AddRef (a : positive) : SE heap Z :=
  b <- deref a ;; store a {| mRefs := i32 (mRefs b + 1); data := data b |} ;;; ret (i32 (mRefs b + 1)).

(** [Release] without [eKeepStorage]. *)
Definition Release (a : positive) : SE heap Z :=
  only <- OnlyOwner a ;;
  if only : bool then free a ;;; ret 0
  else
    b <- deref a ;;
    store a {| mRefs := i32 (mRefs b - 1); data := data b |} ;;;
    (if mRefs b =? 1 then free a else ret tt) ;;; ret (i32 (mRefs b - 1)).

(** [memcpy] of the first [n] bytes of [src] to the start of [dst]. *)
Definition copy (dst src : positive) (n : Z) : SE heap unit :=
  d <- deref dst ;; s <- deref src ;;
  if (mSize d <? n) || (mSize s <? n) then undefined
  else store dst {| mRefs := mRefs d; data := memcpy (data d) 0 (take (Z.to_nat n) (data s)) |}.

Definition Edit (a : positive) : SE heap (option positive) :=
  only <- OnlyOwner a ;;
  if only : bool then ret (Some a)
  else
    b <- deref a ;;
    sb <- Alloc (mSize b) ;;
    match sb with
    | Some sb => copy sb a (mSize b) ;;; Release a ;;; ret (Some sb)
    | None => ret None
    end.

(** [realloc] of a block to [n] bytes of data. *)
Definition realloc (a : positive) (n : Z) : SE heap (option positive) :=
  if negb (alloc_ok (header_size + n)) then ret None
  else
    b <- deref a ;;
    let b' := {| mRefs := mRefs b; data := take (Z.to_nat n) (data b ++ junk (Z.to_nat n)) |} in
    if moves then
      a' <- gets (fun h => fresh (dom h)) ;; free a ;;; store a' b' ;;; ret (Some a')
    else store a b' ;;; ret (Some a).

Definition alloc_copy (a : positive) (newSize : Z) : SE heap (option positive) :=
  sb <- Alloc newSize ;;
  match sb with
  | Some sb =>
    b <- deref a ;;
    copy sb a (if newSize <? mSize b then newSize else mSize b) ;;; Release a ;;; ret (Some sb)
  | None => ret None
  end.

Definition EditResize (a : positive) (newSize : Z) : SE heap (option positive) :=
  only <- OnlyOwner a ;;
  if only : bool then
    b <- deref a ;;
    if mSize b =? newSize then ret (Some a)
    else if newSize >=? SIZE_MAX - header_size then ret None
    else
      buf <- realloc a newSize ;;
      match buf with Some buf => ret (Some buf) | None => alloc_copy a newSize end
  else alloc_copy a newSize.

Definition AttemptEdit (a : positive) : SE heap (option positive) :=
  only <- OnlyOwner a ;; ret (if only : bool then Some a else None).

Definition Reset (a : positive) (new_size : Z) : SE heap (option positive) :=
  sb <- Alloc new_size ;;
  match sb with Some sb => Release a ;;; ret (Some sb) | None => ret None end.

(** ** The contract

    [refs c h]: the buffers of [h] are those with references, each counting
    them right.  [held h a] is what the buffer at [a] holds. *)
Definition refs (c : positive -> Z) (h : heap) : Prop :=
  forall a, match h !! a with Some b => mRefs b = c a /\ 0 < c a < 2147483647 | None => c a = 0 end.

Definition held (h : heap) (a : positive) : option (list Z) := data <$> h !! a.

Definition one (a : positive) : positive -> Z := fun x => if decide (x = a) then 1 else 0.

Lemma one_same a : one a a = 1.
Proof. unfold one. by rewrite decide_True. Qed.
Lemma one_other a x : x <> a -> one a x = 0.
Proof. intros. unfold one. by rewrite decide_False. Qed.

Lemma refs_live c h a : refs c h -> 0 < c a -> exists b, h !! a = Some b /\ mRefs b = c a.
Proof. intros H Hc. specialize (H a). destruct (h !! a) as [b|]; [exists b; intuition|lia]. Qed.

Lemma refs_held c h a d : refs c h -> held h a = Some d -> 0 < c a < 2147483647.
Proof. intros H Hd. specialize (H a). unfold held in Hd. destruct (h !! a); [apply H|done]. Qed.

(** Buffers other than those of [except] hold what they held. *)
Definition keeps (live : positive -> Prop) (h h' : heap) : Prop := forall a, live a -> held h' a = held h a.

Lemma refs_insert c c' h a b : refs c h -> (forall x, x <> a -> c' x = c x) -> mRefs b = c' a ->
  0 < c' a < 2147483647 -> refs c' (<[a := b]> h).
Proof.
  intros H Hc Hb Hlt x. destruct (decide (x = a)) as [->|Hne].
  - rewrite lookup_insert_eq. done.
  - rewrite lookup_insert_ne, Hc by done. apply H.
Qed.

Lemma refs_delete c c' h a : refs c h -> (forall x, x <> a -> c' x = c x) -> c' a = 0 -> refs c' (delete a h).
Proof.
  intros H Hc Ha x. destruct (decide (x = a)) as [->|Hne].
  - by rewrite lookup_delete_eq.
  - rewrite lookup_delete_ne, Hc by done. apply H.
Qed.

Lemma held_insert h a b x : held (<[a := b]> h) x = if decide (x = a) then Some (data b) else held h x.
Proof.
  unfold held. destruct (decide (x = a)) as [->|]; [by rewrite lookup_insert_eq|by rewrite lookup_insert_ne].
Qed.

Lemma held_delete h a x : x <> a -> held (delete a h) x = held h x.
Proof. intros. unfold held. by rewrite lookup_delete_ne. Qed.

Lemma wp_deref a b (Q : buffer -> heap -> Prop) h : h !! a = Some b -> Q b h -> wp (deref a) Q h.
Proof. unfold wp, deref. by intros ->. Qed.

Lemma wp_OnlyOwner a b (Q : bool -> heap -> Prop) h : h !! a = Some b -> Q (mRefs b =? 1) h -> wp (OnlyOwner a) Q h.
Proof. intros Hb HQ. apply wp_bind. eapply wp_deref; [done|]. by apply wp_ret. Qed.

(** [AddRef] counts one more reference and touches nothing else. *)
Lemma AddRef_spec c h a : refs c h -> 0 < c a < 2147483646 ->
  wp (AddRef a) (fun n h' => n = c a + 1 /\ refs (fun x => c x + one a x) h' /\ keeps (fun _ => True) h h') h.
Proof.
  intros H Ha. destruct (refs_live c h a H ltac:(lia)) as (b & Hb & Hr). unfold AddRef.
  apply wp_bind. eapply wp_deref; [done|]. apply wp_bind, wp_modify, wp_ret. rewrite Hr, wrap_s_id by fits. split_and!; [done| |].
  - apply (refs_insert c); [done| | |]; cbn; rewrite ?one_same; [intros x Hx; by rewrite one_other, Z.add_0_r|lia|lia].
  - intros x _. rewrite held_insert. destruct (decide (x = a)) as [->|]; [|done]. unfold held. by rewrite Hb.
Qed.

(** [Release] gives up one reference; the buffer goes with the last. *)
Lemma Release_spec c h a : refs c h -> 0 < c a ->
  wp (Release a) (fun n h' => n = c a - 1 /\ refs (fun x => c x - one a x) h' /\
    keeps (fun x => 0 < c x - one a x) h h') h.
Proof.
  intros H Ha. destruct (refs_live c h a H Ha) as (b & Hb & Hr).
  pose proof (H a) as Hlt. rewrite Hb in Hlt. unfold Release.
  apply wp_bind. eapply wp_OnlyOwner; [done|]. rewrite Hr. destruct (Z.eqb_spec (c a) 1) as [E|Hne].
  - apply wp_bind, wp_modify, wp_ret. split_and!; [lia| |].
    + apply (refs_delete c); [done| |]; cbn; rewrite ?one_same; [intros x Hx; by rewrite one_other, Z.sub_0_r|lia].
    + intros x Hx. apply held_delete. intros ->. rewrite one_same in Hx. lia.
  - apply wp_bind. eapply wp_deref; [done|]. apply wp_bind, wp_modify. rewrite Hr, (proj2 (Z.eqb_neq _ _) Hne).
    rewrite wrap_s_id by fits. apply wp_bind, wp_ret, wp_ret. split_and!; [done| |].
    + apply (refs_insert c); [done| | |]; cbn; rewrite ?one_same; [intros x Hx; by rewrite one_other, Z.sub_0_r|lia|lia].
    + intros x _. rewrite held_insert. destruct (decide (x = a)) as [->|]; [|done]. unfold held. by rewrite Hb.
Qed.

Hypothesis HA : never_fails A.

Lemma Alloc_spec size h : 0 <= size < SIZE_MAX - header_size ->
  wp (Alloc size) (fun r h' => exists a, r = Some a /\ h !! a = None /\
    h' = <[a := {| mRefs := 1; data := junk (Z.to_nat size) |}]> h) h.
Proof.
  intros Hs. unfold Alloc. rewrite HA, Z.geb_leb, (proj2 (Z.leb_gt _ _)) by lia. cbn [orb negb].
  apply wp_bind, wp_gets, wp_bind, wp_modify, wp_ret. eexists. split_and!; [done| |done].
  apply not_elem_of_dom, is_fresh.
Qed.

(** What a resized buffer is: the old bytes as far as they fit, in a buffer
    nobody else refers to. *)
Definition resized (c : positive -> Z) (h : heap) (a : positive) (d : list Z) (n : Z)
    (r : option positive) (h' : heap) : Prop :=
  exists a' d', r = Some a' /\ held h' a' = Some d' /\ Z.of_nat (length d') = n /\
    take (length d) d' = take (Z.to_nat n) d /\
    refs (fun x => c x - one a x + one a' x) h' /\ c a' - one a a' = 0 /\
    keeps (fun x => 0 < c x - one a x) h h'.

Lemma take_fill d n : take (length d) (take n (d ++ junk n)) = take n d.
Proof.
  rewrite take_take, Nat.min_comm, <- take_take, take_app_length. done.
Qed.

Lemma alloc_copy_spec c h a d n : refs c h -> 0 < c a -> held h a = Some d -> 0 <= n < SIZE_MAX - header_size ->
  wp (alloc_copy a n) (resized c h a d n) h.
Proof.
  intros H Ha Hd Hn. unfold alloc_copy. apply wp_bind. eapply wp_mono; [by apply Alloc_spec|].
  intros r h1 (a' & -> & Hfresh & ->). unfold held in Hd. destruct (h !! a) as [b|] eqn:Hb; [|done]. injection Hd as <-.
  assert (a <> a') as Hne by congruence. pose proof (H a') as Hca'. rewrite Hfresh in Hca'.
  apply wp_bind. eapply wp_deref; [by rewrite lookup_insert_ne|].
  set (k := if n <? mSize b then n else mSize b).
  assert (0 <= k <= n /\ k <= mSize b) as [Hk Hk'] by (unfold k, mSize in *; destruct (Z.ltb_spec n (Z.of_nat (length (data b)))); lia).
  unfold mSize in Hk'. apply wp_bind. unfold copy. apply wp_bind. eapply wp_deref; [by rewrite lookup_insert_eq|].
  apply wp_bind. eapply wp_deref; [by rewrite lookup_insert_ne|]. unfold mSize. cbn [data mRefs].
  unfold junk at 1. rewrite length_replicate, Z2Nat.id, !(proj2 (Z.ltb_ge _ _)) by lia. cbn [orb].
  apply wp_modify. rewrite insert_insert_eq.
  set (d' := memcpy (junk (Z.to_nat n)) 0 (take (Z.to_nat k) (data b))).
  assert (length (take (Z.to_nat k) (data b)) = Z.to_nat k) as Hlk by (rewrite length_take; lia).
  assert (length d' = Z.to_nat n) as Hld.
  { unfold d'. rewrite memcpy_length by (unfold junk; rewrite length_replicate; lia). unfold junk. by rewrite length_replicate. }
  set (h2 := <[a' := {| mRefs := 1; data := d' |}]> h).
  assert (refs (fun x => c x + one a' x) h2) as H2.
  { apply (refs_insert c); [done| | |]; cbn; rewrite ?one_same; [intros x Hx; by rewrite one_other, Z.add_0_r|lia|lia]. }
  apply wp_bind. eapply wp_mono; [apply (Release_spec _ h2 a H2); rewrite one_other by done; lia|].
  intros _ h3 (_ & H3 & Hkeep). apply wp_ret. exists a', d'. split_and!; [done| |lia| | | |].
  - rewrite Hkeep by (rewrite one_same, one_other by done; lia). unfold held, h2. by rewrite lookup_insert_eq.
  - unfold d', memcpy. rewrite take_0. cbn [app]. rewrite Hlk, Nat.add_0_l. unfold junk. rewrite drop_replicate.
    unfold k, mSize in *. destruct (Z.ltb_spec n (Z.of_nat (length (data b)))).
    + rewrite Nat.sub_diag, app_nil_r. apply take_ge. rewrite length_take. lia.
    + rewrite !(take_ge (data b)) by lia. apply take_app_length.
  - intros x. specialize (H3 x). destruct (h3 !! x) as [b'|]; lia.
  - rewrite one_other by done. lia.
  - intros x Hx. assert (x <> a') as Hx' by (intros ->; rewrite (one_other a a') in Hx by done; lia).
    rewrite Hkeep by (rewrite (one_other a' x) by done; lia).
    unfold held, h2. by rewrite lookup_insert_ne.
Qed.

(** [EditResize] gives a buffer of the new size that is the caller's alone. *)
Lemma EditResize_spec c h a d n : refs c h -> 0 < c a -> held h a = Some d -> 0 <= n < SIZE_MAX - header_size ->
  wp (EditResize a n) (resized c h a d n) h.
Proof.
  intros H Ha Hd Hn. unfold EditResize. destruct (refs_live c h a H Ha) as (b & Hb & Hr).
  apply wp_bind. eapply wp_OnlyOwner; [done|]. rewrite Hr. destruct (Z.eqb_spec (c a) 1) as [E|]; [|by apply alloc_copy_spec].
  apply wp_bind. eapply wp_deref; [done|]. unfold held in Hd. rewrite Hb in Hd. injection Hd as <-.
  destruct (Z.eqb_spec (mSize b) n) as [<-|Hsize].
  { apply wp_ret. unfold mSize. exists a, (data b). rewrite Nat2Z.id, one_same. split_and!; [done| |done|done| |lia|done].
    - unfold held. by rewrite Hb.
    - intros x. specialize (H x). destruct (h !! x); lia. }
  rewrite Z.geb_leb, (proj2 (Z.leb_gt _ _)) by lia.
  assert (wp (realloc a n) (resized c h a (data b) n) h) as Hre.
  { unfold realloc. rewrite HA. cbn [negb]. apply wp_bind. eapply wp_deref; [done|].
    set (b' := {| mRefs := mRefs b; data := take (Z.to_nat n) (data b ++ junk (Z.to_nat n)) |}).
    assert (Z.of_nat (length (data b')) = n) as Hlen.
    { cbn. rewrite length_take, length_app. unfold junk. rewrite length_replicate. lia. }
    destruct moves.
    - apply wp_bind, wp_gets. set (a' := fresh (dom h)).
      assert (h !! a' = None) as Hfresh by (apply not_elem_of_dom, is_fresh).
      assert (a <> a') as Hne by congruence. pose proof (H a') as Hca'. rewrite Hfresh in Hca'.
      apply wp_bind, wp_modify, wp_bind, wp_modify, wp_ret. exists a', (data b').
      split_and!; [done|by rewrite held_insert, decide_True|done|apply take_fill| |rewrite one_other by done; lia|].
      + apply (refs_insert (fun x => c x - one a x)).
        * apply (refs_delete c); [done| |rewrite one_same; lia]. intros x Hx. by rewrite one_other, Z.sub_0_r.
        * intros x Hx. rewrite (one_other a') by done. lia.
        * cbn. rewrite one_same, one_other by done. lia.
        * rewrite one_same, one_other by done. lia.
      + intros x Hx. assert (x <> a) by (intros ->; rewrite one_same in Hx; lia).
        assert (x <> a') by (intros ->; rewrite one_other in Hx by done; lia).
        rewrite held_insert, decide_False, held_delete by done. done.
    - apply wp_bind, wp_modify, wp_ret. exists a, (data b').
      split_and!; [done|by rewrite held_insert, decide_True|done|apply take_fill| |rewrite one_same; lia|].
      + apply (refs_insert c); [done| | |]; rewrite ?one_same; cbn; lia.
      + intros x Hx. rewrite held_insert, decide_False; [done|]. intros ->. rewrite one_same in Hx. lia. }
  apply wp_bind. eapply wp_mono; [exact Hre|]. intros r h' Hres. destruct Hres as (a' & d' & -> & Hres).
  apply wp_ret. exists a', d'. split; [done|exact Hres].
Qed.

End Buffers.
End SharedBuffer.
