(* ===== verification/StringHeap.v ===== *)
(** * The runtime's String: construction, assignment and mutation

    [String] of [src/src/runtime/type/ccmstring.cpp] as handles on shared
    buffers.  The state has the heap of [SharedBuffer], the String objects of
    the program by name, and the buffer of the empty string.  A C string passed
    in is the list of its characters without the NUL. *)
From S2P Require Import Prelude.
From S2P Require Import SharedBuffer.
From S2P Require Import Utf8.
From S2P Require Import CcmString.

Module StringHeap.
Import SharedBuffer.

(** A String object. *)
Record obj := { mString : option positive; mCharCount : Z }.

Record st := { s_heap : heap; s_vars : gmap nat obj; EMPTY_STRING : positive }.

Definition INT_MAX : Z := 2147483647.
Definition E_ILLEGAL_ARGUMENT_EXCEPTION : Z := i32 (Z.lor (Z.shiftl 1 31) 0x02).
Definition E_OUT_OF_MEMORY_ERROR : Z := i32 (Z.lor (Z.shiftl 1 31) 0x10).

Section Strings.
Context {A : Allocator}.
Variables (garbage : Z) (moves : bool).

Definition on_heap {X} (m : SE heap X) : SE st X :=
  fun s => match m (s_heap s) with
           | Some (x, h) => Some (x, {| s_heap := h; s_vars := s_vars s; EMPTY_STRING := EMPTY_STRING s |})
           | None => None
           end.

Definition get (x : nat) : SE st obj :=
  fun s => match s_vars s !! x with Some o => Some (o, s) | None => None end.
Definition set (x : nat) (o : obj) : SE st unit :=
  modify (fun s => {| s_heap := s_heap s; s_vars := <[x := o]> (s_vars s); EMPTY_STRING := EMPTY_STRING s |}).
Definition unset (x : nat) : SE st unit :=
  modify (fun s => {| s_heap := s_heap s; s_vars := delete x (s_vars s); EMPTY_STRING := EMPTY_STRING s |}).
Definition set_string (x : nat) (p : option positive) : SE st unit :=
  o <- get x ;; set x {| mString := p; mCharCount := mCharCount o |}.

(** [buf[off ...] = bytes] *)
Definition write (a : positive) (off : Z) (bytes : list Z) : SE st unit :=
  b <- on_heap (deref a) ;;
  if (off <? 0) || (mSize b <? off + Z.of_nat (length bytes)) then undefined
  else on_heap (store a {| mRefs := mRefs b; data := memcpy (data b) (Z.to_nat off) bytes |}).

Definition char_at (a : positive) (i : nat) : SE st Z :=
  b <- on_heap (deref a) ;; match data b !! i with Some c => ret c | None => undefined end.

(** [SharedBuffer::GetBufferFromData(p)->Release()] of a pointer not null. *)
Definition release_if (p : option positive) : SE st unit :=
  match p with Some a => on_heap (Release a) ;;; ret tt | None => ret tt end.
Definition addref_if (p : option positive) : SE st unit :=
  match p with Some a => on_heap (AddRef a) ;;; ret tt | None => ret tt end.

(** The library's constructor and destructor functions set up the empty string
    and give it up.  After [Uninit_EMPTY_STRING] the pointer is null and no
    String may be made; the model leaves it alone. *)
Definition Init_EMPTY_STRING : SE st unit :=
  buf <- on_heap (Alloc garbage 1) ;;
  match buf with
  | None => undefined
  | Some buf =>
    modify (fun s => {| s_heap := s_heap s; s_vars := s_vars s; EMPTY_STRING := buf |}) ;;; write buf 0 [0]
  end.

Definition Uninit_EMPTY_STRING : SE st unit := e <- gets EMPTY_STRING ;; on_heap (Release e) ;;; ret tt.

Definition GetEmptyString : SE st positive :=
  e <- gets EMPTY_STRING ;; on_heap (AddRef e) ;;; ret e.

(** [string] is what the pointer passed points to. *)
Definition AllocFromUTF8 (string : list Z) (byteSize : Z) : SE st (option positive) :=
  if byteSize =? 0 then e <- GetEmptyString ;; ret (Some e)
  else if byteSize >? INT_MAX then ret None
  else
    buf <- on_heap (Alloc garbage (byteSize + 1)) ;;
    match buf with
    | None => ret None
    | Some buf =>
      if Z.of_nat (length string) <? byteSize then undefined
      else
        write buf 0 (take (Z.to_nat byteSize) string) ;;; write buf byteSize [0] ;;; ret (Some buf)
    end.

(** [String(const char* string)]: a new object [x]. *)
Definition make (x : nat) (string : option (list Z)) : SE st unit :=
  p <- match string with
       | Some string => AllocFromUTF8 string (Z.of_nat (length string))
       | None => ret None
       end ;;
  set x {| mString := p; mCharCount := 0 |}.

(** [String(const char* string, Integer byteSize)]. *)
Definition make_n (x : nat) (string : option (list Z)) (byteSize : Z) : SE st unit :=
  p <- match string with
       | Some string =>
         if (byteSize >=? 0) && (byteSize <=? Z.of_nat (length string)) then AllocFromUTF8 string byteSize else ret None
       | None => ret None
       end ;;
  set x {| mString := p; mCharCount := 0 |}.

(** [String(const String& other)]. *)
Definition make_copy (x y : nat) : SE st unit :=
  other <- get y ;; set x other ;;; addref_if (mString other).

(** [String(String&& other)]. *)
Definition make_move (x y : nat) : SE st unit :=
  other <- get y ;; set x other ;;; set y {| mString := None; mCharCount := 0 |}.

(** [~String()]: the object is gone. *)
Definition destroy (x : nat) : SE st unit :=
  o <- get x ;; release_if (mString o) ;;; unset x.

(** [operator=(const String& other)]. *)
Definition assign (x y : nat) : SE st unit :=
  o <- get x ;; other <- get y ;;
  if decide (mString o = mString other) then ret tt
  else addref_if (mString other) ;;; release_if (mString o) ;;; set x other.

(** [operator=(String&& other)]: the count of [other] stays. *)
Definition assign_move (x y : nat) : SE st unit :=
  o <- get x ;; release_if (mString o) ;;;
  other <- get y ;; set x other ;;;
  other <- get y ;; set y {| mString := None; mCharCount := mCharCount other |}.

(** [operator=(const char* string)] with a string of somebody else. *)
Definition assign_chars (x : nat) (string : option (list Z)) : SE st unit :=
  o <- get x ;; release_if (mString o) ;;; make x string.

Definition GetByteLength (x : nat) : SE st Z :=
  o <- get x ;;
  match mString o with
  | None => ret 0
  | Some a =>
    c <- char_at a 0 ;;
    if c =? 0 then ret 0 else b <- on_heap (deref a) ;; ret (i32 (mSize b) - 1)
  end.

Definition IsNullOrEmpty (x : nat) : SE st bool :=
  o <- get x ;;
  match mString o with None => ret true | Some a => c <- char_at a 0 ;; ret (c =? 0) end.

(** [a + b] of two ints; overflow is undefined. *)
Definition add_int (a b : Z) : SE st Z := if fits_sb 32 (a + b) then ret (a + b) else undefined.

(** The buffer of [x] resized, or a new one. *)
Definition resize (x : nat) (size : Z) : SE st (option positive) :=
  o <- get x ;;
  match mString o with
  | Some a => on_heap (EditResize garbage moves a size)
  | None => on_heap (Alloc garbage size)
  end.

Definition LockBuffer (x : nat) (byteSize : Z) : SE st (option positive) :=
  if byteSize <? 0 then ret None
  else
    size <- add_int byteSize 1 ;;
    buf <- resize x size ;;
    match buf with None => ret None | Some a => set_string x (Some a) ;;; ret (Some a) end.

Definition UnlockBuffer (x : nat) (byteSize : Z) : SE st Z :=
  if byteSize <? 0 then ret E_ILLEGAL_ARGUMENT_EXCEPTION
  else
    n <- GetByteLength x ;;
    if negb (byteSize =? n) then
      size <- add_int byteSize 1 ;;
      buf <- resize x size ;;
      match buf with
      | None => ret E_OUT_OF_MEMORY_ERROR
      | Some a => set_string x (Some a) ;;; write a byteSize [0] ;;; ret 0
      end
    else ret 0.

Definition ClearCounted (x : nat) : SE st unit :=
  o <- get x ;; set x {| mString := mString o; mCharCount := 0 |}.

(** [memcpy(buf + off, other.string(), n)]: overlapping ranges are undefined. *)
Definition copy_string (buf : positive) (off : Z) (y : nat) (n : Z) : SE st unit :=
  other <- get y ;;
  match mString other with
  | None => undefined
  | Some a =>
    b <- on_heap (deref a) ;;
    if (mSize b <? n) || (bool_decide (a = buf) && (off <? n)) then undefined
    else write buf off (take (Z.to_nat n) (data b))
  end.

(** [operator+=(const String& other)]; [other] may be the object itself. *)
Definition append (x y : nat) : SE st unit :=
  e <- IsNullOrEmpty y ;;
  if e : bool then ret tt
  else
    origByteSize <- GetByteLength x ;;
    n <- GetByteLength y ;;
    newByteSize <- add_int origByteSize n ;;
    buf <- LockBuffer x newByteSize ;;
    match buf with
    | None => ret tt
    | Some buf =>
      n <- GetByteLength y ;;
      copy_string buf origByteSize y n ;;;
      write buf newByteSize [0] ;;; UnlockBuffer x newByteSize ;;; ClearCounted x
    end.

(** [operator+=(const char* string)]. *)
Definition append_chars (x : nat) (string : option (list Z)) : SE st unit :=
  match string with
  | None | Some [] => ret tt
  | Some string =>
    origByteSize <- GetByteLength x ;;
    newByteSize <- add_int origByteSize (Z.of_nat (length string)) ;;
    buf <- LockBuffer x newByteSize ;;
    match buf with
    | None => ret tt
    | Some buf =>
      write buf origByteSize string ;;;
      write buf newByteSize [0] ;;; UnlockBuffer x newByteSize ;;; ClearCounted x
    end
  end.

(** [AppendBytes(string, byteSize)], where [string] is all there is behind the
    pointer. *)
Definition AppendBytes (x : nat) (string : list Z) (byteSize : Z) : SE st unit :=
  oldSize <- GetByteLength x ;;
  newByteSize <- add_int oldSize byteSize ;;
  buf <- LockBuffer x newByteSize ;;
  match buf with
  | None => ret tt
  | Some buf =>
    if (byteSize <? 0) || (Z.of_nat (length string) <? byteSize) then undefined
    else
      write buf oldSize (take (Z.to_nat byteSize) string) ;;;
      UnlockBuffer x newByteSize ;;; write buf newByteSize [0]
  end.

(** [WriteCharArray] of a new object [x]. *)
Definition WriteCharArray (x : nat) (charArray : list Z) (start length : Z) : SE st unit :=
  let n := Z.of_nat (List.length charArray) in
  if (start <? 0) || (start >? n) || (length <? 0) then ret tt
  else
    last <- add_int start length ;;
    let length := if last <=? n then length else i32 (n - start) in
    let chars := take (Z.to_nat length) (drop (Z.to_nat start) charArray) in
    totalByteSize <- add_int 0 (fold_left (fun t c => t + Utf8.GetByteSize c) chars 0) ;;
    buf <- LockBuffer x totalByteSize ;;
    match buf with
    | None => ret tt
    | Some buf =>
      write buf 0 (Utf8.encode chars) ;;;
      UnlockBuffer x totalByteSize ;;;
      o <- get x ;;
      match mString o with Some a => write a totalByteSize [0] | None => undefined end
    end.

(** [String(const Array<Char>& charArray, Integer start, Integer length)]. *)
Definition make_array (x : nat) (charArray : list Z) (start length : Z) : SE st unit :=
  set x {| mString := None; mCharCount := 0 |} ;;; WriteCharArray x charArray start length.

(** [String(const Array<Byte>& bytes, Integer start, Integer length)]. *)
Definition make_bytes (x : nat) (bytes : list Z) (start len : Z) : SE st unit :=
  p <- (if (start >=? 0) && (len >? 0) then
          last <- add_int start len ;;
          if last <? Z.of_nat (length bytes) then AllocFromUTF8 (drop (Z.to_nat start) bytes) len else ret None
        else ret None) ;;
  set x {| mString := p; mCharCount := 0 |}.

(** A String with its buffer's bytes, as its const member functions see it;
    [GetLength] stores the count it finds. *)
Definition view (x : nat) : SE st CcmString.t :=
  o <- get x ;;
  match mString o with
  | None => ret (CcmString.Build_t None (mCharCount o))
  | Some a => b <- on_heap (deref a) ;; ret (CcmString.Build_t (Some (data b)) (mCharCount o))
  end.

Definition GetLength (x : nat) : SE st Z :=
  v <- view x ;;
  match CcmString.GetLength v with
  | Some (n, v) =>
    o <- get x ;; set x {| mString := mString o; mCharCount := CcmString.mCharCount v |} ;;; ret n
  | None => undefined
  end.

End Strings.
End StringHeap.
