(* ===== verification/StringHeapProofs.v ===== *)
(** * Strings are values

    However String objects share buffers, the program sees plain values: an
    operation on one object changes that object alone, references are counted
    right, and a buffer is freed with its last object. *)
From S2P Require Import Prelude.
From S2P Require Import Utf8.
From S2P Require Import CcmString.
From S2P Require Import SharedBuffer.
From S2P Require Import StringHeap.

Module StringHeapProofs.
Import SharedBuffer.
Import StringHeap.

(** ** References held by objects *)

Definition point (o : obj) : positive -> Z := match mString o with Some a => one a | None => fun _ => 0 end.

Definition users (vars : gmap nat obj) (a : positive) : Z :=
  Z.of_nat (size (filter (fun p : nat * obj => mString p.2 = Some a) vars)).

Lemma point_nonneg o a : 0 <= point o a <= 1.
Proof. unfold point, one. destruct (mString o); [|lia]. case_decide; lia. Qed.

Lemma point_spec o a : point o a = if decide (mString o = Some a) then 1 else 0.
Proof.
  unfold point, one. destruct (mString o) as [b|]; [|done].
  destruct (decide (a = b)) as [->|Hne]; [by rewrite decide_True|rewrite decide_False; congruence].
Qed.

Lemma users_insert vars x o a : vars !! x = None -> users (<[x := o]> vars) a = users vars a + point o a.
Proof.
  intros Hx. unfold users. rewrite map_filter_insert, point_spec; cbn. case_decide.
  - rewrite map_size_insert_None by (apply map_lookup_filter_None_2; by left). lia.
  - rewrite delete_id by done. lia.
Qed.

Lemma users_delete vars x o a : vars !! x = Some o -> users (delete x vars) a = users vars a - point o a.
Proof.
  intros Hx. rewrite <- (insert_delete_id vars x o Hx) at 2.
  rewrite users_insert by apply lookup_delete_eq. lia.
Qed.

Lemma users_update vars x o o' a : vars !! x = Some o ->
  users (<[x := o']> vars) a = users vars a - point o a + point o' a.
Proof.
  intros Hx. rewrite <- insert_delete_eq, users_insert by apply lookup_delete_eq. by rewrite (users_delete _ _ o).
Qed.

Lemma users_bound vars a : 0 <= users vars a <= Z.of_nat (size vars).
Proof. unfold users. pose proof (map_size_filter (fun p : nat * obj => mString p.2 = Some a) vars). lia. Qed.

(** ** Values *)

Abbreviation val := (option (list Z)).

(** Strings a C++ program can hold: without NUL, and short of [INT_MAX]. *)
Definition plain (bytes : list Z) : Prop :=
  Forall (fun c => c <> 0) bytes /\ Z.of_nat (length bytes) < INT_MAX - 1.

Definition represents (h : heap) (o : obj) (v : val) : Prop :=
  match mString o, v with
  | Some a, Some bytes => held h a = Some (bytes ++ [0]) /\ plain bytes
  | None, None => True
  | _, _ => False
  end.

(** A cached count of a UTF-8 text is the right one. *)
Definition counted (o : obj) (v : val) : Prop :=
  CcmString.IsCounted (CcmString.Build_t None (mCharCount o)) = true ->
  forall cs, v = Some (Utf8.encode cs) -> Utf8.text cs ->
    CcmString.GetCharCount (CcmString.Build_t None (mCharCount o)) = Z.of_nat (length cs).

Definition stands (h : heap) (o : obj) (v : val) : Prop := represents h o v /\ counted o v.

Lemma uncounted p v : counted {| mString := p; mCharCount := 0 |} v.
Proof. done. Qed.

Lemma counted_null o : counted o None.
Proof. done. Qed.

(** All references there are: the objects' and the one of [EMPTY_STRING]. *)
Definition all_refs (s : st) : positive -> Z := fun a => users (s_vars s) a + one (EMPTY_STRING s) a.

(** The state holds the values [sigma], and the running operation still owes
    the references [owed] to some object. *)
Record Owing (owed : positive -> Z) (sigma : gmap nat val) (s : st) : Prop := {
  inv_refs : refs (fun a => all_refs s a + owed a) (s_heap s);
  inv_owed : forall a, 0 <= owed a;
  inv_empty : held (s_heap s) (EMPTY_STRING s) = Some [0];
  inv_size : size (s_vars s) = size sigma;
  inv_few : Z.of_nat (size sigma) < 2147483640;
  inv_vals : forall x, match s_vars s !! x, sigma !! x with
    | Some o, Some v => stands (s_heap s) o v
    | None, None => True
    | _, _ => False
    end
}.

Definition nothing : positive -> Z := fun _ => 0.
Abbreviation Inv := (Owing nothing).

Lemma inv_stands e sigma s x v : Owing e sigma s -> sigma !! x = Some v ->
  exists o, s_vars s !! x = Some o /\ stands (s_heap s) o v.
Proof. intros I Hx. pose proof (inv_vals _ _ _ I x) as H. rewrite Hx in H. destruct (s_vars s !! x); [eauto|done]. Qed.

Lemma inv_get e sigma s x v : Owing e sigma s -> sigma !! x = Some v ->
  exists o, s_vars s !! x = Some o /\ represents (s_heap s) o v.
Proof. intros I Hx. destruct (inv_stands _ _ _ _ _ I Hx) as (o & Ho & Hv & _). by exists o. Qed.

Lemma inv_fresh e sigma s x : Owing e sigma s -> sigma !! x = None -> s_vars s !! x = None.
Proof. intros I Hx. pose proof (inv_vals _ _ _ I x) as H. rewrite Hx in H. by destruct (s_vars s !! x). Qed.

(** What a value needs of the heap is that its buffer is kept. *)
Lemma represents_keeps h h' o v : (forall a, mString o = Some a -> held h' a = held h a) -> represents h o v -> represents h' o v.
Proof. unfold represents. destruct (mString o) as [a|], v; try done. intros Hk. by rewrite (Hk a eq_refl). Qed.

Lemma stands_keeps h h' o v : (forall a, mString o = Some a -> held h' a = held h a) -> stands h o v -> stands h' o v.
Proof. intros Hk [Hr Hc]. split; [by eapply represents_keeps|done]. Qed.

Lemma refs_ext c c' h : (forall x, c x = c' x) -> refs c h -> refs c' h.
Proof. intros Hc H a. rewrite <- Hc. apply H. Qed.

Lemma inv_all_refs sigma s : Inv sigma s -> refs (all_refs s) (s_heap s).
Proof. intros I. eapply refs_ext; [|apply (inv_refs _ _ _ I)]. intros y. unfold nothing. lia. Qed.

(** ** Rules *)

Section Rules.
Context {A : Allocator}.
Hypothesis HA : never_fails A.
Variables (garbage : Z) (moves : bool).

Definition with_heap (s : st) (h : heap) : st := {| s_heap := h; s_vars := s_vars s; EMPTY_STRING := EMPTY_STRING s |}.
Definition with_vars (s : st) (vars : gmap nat obj) : st :=
  {| s_heap := s_heap s; s_vars := vars; EMPTY_STRING := EMPTY_STRING s |}.

Lemma wp_on_heap {X} (m : SE heap X) (Q : X -> st -> Prop) s :
  wp m (fun x h => Q x (with_heap s h)) (s_heap s) -> wp (on_heap m) Q s.
Proof. unfold wp, on_heap. by destruct (m (s_heap s)) as [[x h]|]. Qed.

Lemma wp_get x o (Q : obj -> st -> Prop) s : s_vars s !! x = Some o -> Q o s -> wp (get x) Q s.
Proof. unfold wp, get. by intros ->. Qed.

Lemma wp_set x o (Q : unit -> st -> Prop) s : Q tt (with_vars s (<[x := o]> (s_vars s))) -> wp (set x o) Q s.
Proof. done. Qed.

Lemma wp_unset x (Q : unit -> st -> Prop) s : Q tt (with_vars s (delete x (s_vars s))) -> wp (unset x) Q s.
Proof. done. Qed.

Lemma wp_set_string x o p (Q : unit -> st -> Prop) s : s_vars s !! x = Some o ->
  Q tt (with_vars s (<[x := {| mString := p; mCharCount := mCharCount o |}]> (s_vars s))) -> wp (set_string x p) Q s.
Proof. intros Hx HQ. apply wp_bind. eapply wp_get; [done|]. by apply wp_set. Qed.

(** Storing bytes inside a live buffer. *)
Lemma wp_write c a off bytes d (Q : unit -> st -> Prop) s :
  refs c (s_heap s) -> held (s_heap s) a = Some d -> 0 <= off -> off + Z.of_nat (length bytes) <= Z.of_nat (length d) ->
  (forall h', refs c h' -> held h' a = Some (memcpy d (Z.to_nat off) bytes) ->
     keeps (fun x => x <> a) (s_heap s) h' -> Q tt (with_heap s h')) ->
  wp (write a off bytes) Q s.
Proof.
  intros Hc Hd Hoff Hlen HQ. pose proof (refs_held _ _ _ _ Hc Hd) as Hca. unfold held in Hd.
  destruct (s_heap s !! a) as [b|] eqn:Hb; [|done]. injection Hd as <-.
  pose proof (Hc a) as Hr. rewrite Hb in Hr.
  unfold write. apply wp_bind, wp_on_heap. eapply wp_deref; [done|]. unfold mSize.
  rewrite !(proj2 (Z.ltb_ge _ _)) by lia. cbn [orb]. apply wp_on_heap, wp_modify. apply HQ; cbn.
  - apply (refs_insert c); [done|done|apply Hr|done].
  - by rewrite held_insert, decide_True.
  - intros x Hx. by rewrite held_insert, decide_False.
Qed.

Lemma wp_char_at a d i c (Q : Z -> st -> Prop) s :
  held (s_heap s) a = Some d -> d !! i = Some c -> Q c s -> wp (char_at a i) Q s.
Proof.
  intros Hd Hi HQ. unfold held in Hd. destruct (s_heap s !! a) as [b|] eqn:Hb; [|done]. injection Hd as <-.
  unfold char_at. apply wp_bind, wp_on_heap. eapply wp_deref; [done|]. rewrite Hi. apply wp_ret. by destruct s.
Qed.

(** The length of a represented string. *)
Lemma wp_GetByteLength x o v (Q : Z -> st -> Prop) s :
  s_vars s !! x = Some o -> represents (s_heap s) o v -> Q (Z.of_nat (length (default [] v))) s -> wp (GetByteLength x) Q s.
Proof.
  intros Hx Hv HQ. unfold GetByteLength. apply wp_bind. eapply wp_get; [done|]. unfold represents in Hv.
  destruct (mString o) as [a|], v as [bytes|]; try done. destruct Hv as [Hd [Hnz Hlen]]. cbn [default] in HQ.
  destruct bytes as [|c bytes].
  { apply wp_bind. eapply wp_char_at; [done|done|]. by apply wp_ret. }
  apply wp_bind. eapply wp_char_at; [done|done|]. apply Forall_cons in Hnz as [Hc _].
  rewrite (proj2 (Z.eqb_neq _ _) Hc). unfold held in Hd. destruct (s_heap s !! a) as [b|] eqn:Hb; [|done]. injection Hd as Hd.
  apply wp_bind, wp_on_heap. eapply wp_deref; [done|]. apply wp_ret. unfold mSize, INT_MAX in *. rewrite Hd.
  assert (i32 (Z.of_nat (length (c :: bytes ++ [0]))) - 1 = Z.of_nat (length (c :: bytes))) as ->.
  { cbn [length] in *. rewrite length_app. cbn [length]. rewrite wrap_s_id; [lia|lia|fits]. }
  by destruct s.
Qed.

Lemma wp_IsNullOrEmpty x o v (Q : bool -> st -> Prop) s :
  s_vars s !! x = Some o -> represents (s_heap s) o v -> Q (bool_decide (default [] v = [])) s -> wp (IsNullOrEmpty x) Q s.
Proof.
  intros Hx Hv HQ. unfold IsNullOrEmpty. apply wp_bind. eapply wp_get; [done|]. unfold represents in Hv.
  destruct (mString o) as [a|], v as [bytes|]; try done. destruct Hv as [Hd [Hnz _]].
  destruct bytes as [|c bytes]; apply wp_bind; (eapply wp_char_at; [done|done|]); apply wp_ret; [done|].
  apply Forall_cons in Hnz as [Hc _]. by rewrite (proj2 (Z.eqb_neq _ _) Hc).
Qed.

Definition pt (p : option positive) : positive -> Z := match p with Some a => one a | None => fun _ => 0 end.

Lemma wp_addref_if c p (Q : unit -> st -> Prop) s :
  refs c (s_heap s) -> (forall a, p = Some a -> 0 < c a < 2147483646) ->
  (forall h', refs (fun x => c x + pt p x) h' -> keeps (fun _ => True) (s_heap s) h' -> Q tt (with_heap s h')) ->
  wp (addref_if p) Q s.
Proof.
  intros Hc Hp HQ. unfold addref_if. destruct p as [a|].
  - apply wp_bind, wp_on_heap. eapply wp_mono; [apply (AddRef_spec c); [done|by apply Hp]|].
    intros n h' (_ & Hr & Hk). apply wp_ret. by apply HQ.
  - apply wp_ret. specialize (HQ (s_heap s)). destruct s. apply HQ; [|done].
    eapply refs_ext; [|done]. intros x. cbn. lia.
Qed.

Lemma wp_release_if c p (Q : unit -> st -> Prop) s :
  refs c (s_heap s) -> (forall a, p = Some a -> 0 < c a) ->
  (forall h', refs (fun x => c x - pt p x) h' -> keeps (fun x => 0 < c x - pt p x) (s_heap s) h' -> Q tt (with_heap s h')) ->
  wp (release_if p) Q s.
Proof.
  intros Hc Hp HQ. unfold release_if. destruct p as [a|].
  - apply wp_bind, wp_on_heap. eapply wp_mono; [apply (Release_spec c); [done|by apply Hp]|].
    intros n h' (_ & Hr & Hk). apply wp_ret. by apply HQ.
  - apply wp_ret. specialize (HQ (s_heap s)). destruct s. apply HQ; [|by intros x _].
    eapply refs_ext; [|done]. intros x. cbn. lia.
Qed.

Lemma memcpy_all {T} (d bytes : list T) : length bytes = length d -> memcpy d 0 bytes = bytes.
Proof. intros H. unfold memcpy. rewrite take_0, drop_ge, app_nil_r by lia. done. Qed.

Lemma memcpy_start {T} (d bytes : list T) : (length bytes <= length d)%nat -> memcpy d 0 bytes = bytes ++ drop (length bytes) d.
Proof. done. Qed.

(** A new buffer, or the empty one, with the first [n] bytes. *)
Lemma wp_AllocFromUTF8 c string n (Q : option positive -> st -> Prop) s :
  refs c (s_heap s) -> held (s_heap s) (EMPTY_STRING s) = Some [0] -> 0 < c (EMPTY_STRING s) < 2147483646 ->
  0 <= n < INT_MAX - 1 -> n <= Z.of_nat (length string) ->
  (forall a h', refs (fun x => c x + one a x) h' -> held h' a = Some (take (Z.to_nat n) string ++ [0]) ->
     keeps (fun x => 0 < c x) (s_heap s) h' -> Q (Some a) (with_heap s h')) ->
  wp (AllocFromUTF8 garbage string n) Q s.
Proof.
  intros Hc He Hce Hn Hlen HQ. unfold AllocFromUTF8. destruct (Z.eqb_spec n 0) as [->|Hn0].
  - apply wp_bind. unfold GetEmptyString. apply wp_bind, wp_gets, wp_bind, wp_on_heap.
    eapply wp_mono; [by apply (AddRef_spec c)|]. intros m h' (_ & Hr & Hk). apply wp_ret, wp_ret. apply HQ; [done| |].
    + rewrite Hk by done. done.
    + intros x _. by apply Hk.
  - unfold INT_MAX in *. rewrite Z.gtb_ltb, (proj2 (Z.ltb_ge _ _)) by lia.
    apply wp_bind, wp_on_heap. eapply wp_mono; [apply Alloc_spec; [done|unfold SIZE_MAX, header_size; lia]|].
    intros r h1 (a & -> & Hfresh & ->). rewrite (proj2 (Z.ltb_ge _ _)) by lia.
    set (h1 := <[a := _]> (s_heap s)). pose proof (Hc a) as Hca. rewrite Hfresh in Hca.
    assert (refs (fun x => c x + one a x) h1) as H1.
    { apply (refs_insert c); [done| | |]; cbn; rewrite ?one_same; [intros x Hx; by rewrite one_other, Z.add_0_r|lia|lia]. }
    assert (held h1 a = Some (junk garbage (Z.to_nat (n + 1)))) as Hd1 by (unfold h1; by rewrite held_insert, decide_True).
    assert (length (junk garbage (Z.to_nat (n + 1))) = Z.to_nat (n + 1)) as Hjunk by apply length_replicate.
    assert (length (take (Z.to_nat n) string) = Z.to_nat n) as Htake by (rewrite length_take; lia).
    apply wp_bind. eapply wp_write; [exact H1|exact Hd1|lia|lia|]. intros h2 H2 Hd2 Hk2.
    change (Z.to_nat 0) with 0%nat in Hd2. rewrite memcpy_start in Hd2 by lia.
    apply wp_bind. eapply wp_write; [exact H2|exact Hd2|lia|rewrite length_app, length_drop; cbn; lia|].
    intros h3 H3 Hd3 Hk3. apply wp_ret. apply HQ; [done| |].
    + rewrite Hd3. f_equal. unfold memcpy. rewrite take_app_le, take_ge by lia. f_equal.
      rewrite drop_ge by (rewrite length_app, length_drop; cbn; lia). done.
    + intros x Hx. assert (x <> a) by (intros ->; lia). rewrite Hk3, Hk2 by done.
      unfold h1. cbn. by rewrite held_insert, decide_False.
Qed.

(** The buffer of [x] resized: [x] gives up its reference for a new one. *)
Lemma wp_resize c x o d n (Q : option positive -> st -> Prop) s :
  s_vars s !! x = Some o -> refs c (s_heap s) ->
  match mString o with Some a => held (s_heap s) a = Some d | None => d = [] end ->
  0 <= n <= INT_MAX ->
  (forall a' d' h', Z.of_nat (length d') = n -> take (length d) d' = take (Z.to_nat n) d -> held h' a' = Some d' ->
     refs (fun y => c y - point o y + one a' y) h' -> c a' - point o a' = 0 ->
     keeps (fun y => 0 < c y - point o y) (s_heap s) h' -> Q (Some a') (with_heap s h')) ->
  wp (resize garbage moves x n) Q s.
Proof.
  intros Hx Hc Hd Hn HQ. unfold resize, INT_MAX in *. apply wp_bind. eapply wp_get; [done|]. unfold point in HQ.
  destruct (mString o) as [a|].
  - apply wp_on_heap. pose proof (refs_held _ _ _ _ Hc Hd) as Hca.
    eapply wp_mono; [apply (EditResize_spec garbage moves HA c _ a d n Hc); [lia|done|unfold SIZE_MAX, header_size; lia]|].
    intros r h' (a' & d' & -> & Hd' & Hl & Ht & Hr & H0 & Hk). by apply (HQ a' d' h').
  - subst d. apply wp_on_heap. eapply wp_mono; [apply Alloc_spec; [done|unfold SIZE_MAX, header_size; lia]|].
    intros r h' (a' & -> & Hfresh & ->). pose proof (Hc a') as Hca. rewrite Hfresh in Hca.
    apply (HQ a' (junk garbage (Z.to_nat n))).
    + unfold junk. rewrite length_replicate. lia.
    + by rewrite take_nil.
    + by rewrite held_insert, decide_True.
    + apply (refs_insert c); [done| | |]; cbn; rewrite ?one_same; [intros y Hy; rewrite one_other by done; lia|lia|lia].
    + lia.
    + intros y Hy. assert (y <> a') by (intros ->; lia). by rewrite held_insert, decide_False.
Qed.

Lemma wp_add_int a b (Q : Z -> st -> Prop) s : -2147483648 <= a + b < 2147483648 -> Q (a + b) s -> wp (add_int a b) Q s.
Proof. intros Hab HQ. unfold add_int. rewrite (proj2 (fits_sb_spec _ _)) by (unfold fits_s; lia). by apply wp_ret. Qed.

Lemma wp_LockBuffer c x o d n (Q : option positive -> st -> Prop) s :
  s_vars s !! x = Some o -> refs c (s_heap s) ->
  match mString o with Some a => held (s_heap s) a = Some d | None => d = [] end ->
  0 <= n < INT_MAX ->
  (forall a' d' h', Z.of_nat (length d') = n + 1 -> take (length d) d' = take (Z.to_nat (n + 1)) d -> held h' a' = Some d' ->
     refs (fun y => c y - point o y + one a' y) h' -> c a' - point o a' = 0 ->
     keeps (fun y => 0 < c y - point o y) (s_heap s) h' ->
     Q (Some a') (with_vars (with_heap s h') (<[x := {| mString := Some a'; mCharCount := mCharCount o |}]> (s_vars s)))) ->
  wp (LockBuffer garbage moves x n) Q s.
Proof.
  intros Hx Hc Hd Hn HQ. unfold LockBuffer. rewrite (proj2 (Z.ltb_ge _ _)) by lia.
  unfold INT_MAX in *. apply wp_bind, wp_add_int; [lia|].
  apply wp_bind. eapply wp_resize; [done|done|done|unfold INT_MAX; lia|]. intros a' d' h' Hl Ht Hd' Hr H0 Hk.
  apply wp_bind. eapply wp_set_string; [done|]. apply wp_ret. by apply (HQ a' d' h').
Qed.

(** Nothing to adjust when the length is the one announced. *)
Lemma wp_UnlockBuffer_same x o v (Q : Z -> st -> Prop) s :
  s_vars s !! x = Some o -> represents (s_heap s) o v -> Q 0 s ->
  wp (UnlockBuffer garbage moves x (Z.of_nat (length (default [] v)))) Q s.
Proof.
  intros Hx Hv HQ. unfold UnlockBuffer. rewrite (proj2 (Z.ltb_ge _ _)) by lia.
  apply wp_bind. eapply wp_GetByteLength; [done|done|]. rewrite Z.eqb_refl. by apply wp_ret.
Qed.

End Rules.

(** ** Updating the invariant *)

Lemma users_two vars x z o oz a : vars !! x = Some o -> vars !! z = Some oz -> x <> z ->
  point o a + point oz a <= users vars a.
Proof.
  intros Hx Hz Hne. pose proof (users_delete vars x o a Hx).
  pose proof (users_delete (delete x vars) z oz a ltac:(by rewrite lookup_delete_ne)).
  pose proof (users_bound (delete z (delete x vars)) a). lia.
Qed.

Lemma users_one vars x o a : vars !! x = Some o -> point o a <= users vars a.
Proof. intros Hx. pose proof (users_delete vars x o a Hx). pose proof (users_bound (delete x vars) a). lia. Qed.

Lemma all_refs_few e sigma s a : Owing e sigma s -> 0 <= all_refs s a < 2147483646.
Proof.
  intros I. unfold all_refs. pose proof (users_bound (s_vars s) a). rewrite (inv_size _ _ _ I) in *.
  pose proof (inv_few _ _ _ I). unfold one. case_decide; lia.
Qed.

Lemma all_refs_pointer s x o a : s_vars s !! x = Some o -> mString o = Some a -> 0 < all_refs s a.
Proof.
  intros Hx Ho. pose proof (users_one (s_vars s) x o a Hx) as H. unfold point in H. rewrite Ho, one_same in H.
  unfold all_refs, one. case_decide; lia.
Qed.

Lemma all_refs_empty s : 0 < all_refs s (EMPTY_STRING s).
Proof. unfold all_refs. rewrite one_same. pose proof (users_bound (s_vars s) (EMPTY_STRING s)). lia. Qed.

(** An object changes its value and its buffer. *)
Lemma owing_update e e' sigma s x o o' v' h' :
  Owing e sigma s -> s_vars s !! x = Some o ->
  (forall y, 0 <= e' y) -> refs (fun y => all_refs s y - point o y + point o' y + e' y) h' -> stands h' o' v' ->
  keeps (fun y => 0 < all_refs s y - point o y) (s_heap s) h' ->
  Owing e' (<[x := v']> sigma) {| s_heap := h'; s_vars := <[x := o']> (s_vars s); EMPTY_STRING := EMPTY_STRING s |}.
Proof.
  intros I Hx He' Hr Hv Hk. pose proof (inv_vals _ _ _ I x) as Hsx. rewrite Hx in Hsx.
  destruct (sigma !! x) as [v|] eqn:Hsigma; [|done]. split; cbn.
  - eapply refs_ext; [|exact Hr]. intros y. unfold all_refs; cbn. rewrite (users_update _ _ o) by done. lia.
  - done.
  - rewrite Hk; [apply I|]. unfold all_refs. rewrite one_same. pose proof (users_one _ _ _ (EMPTY_STRING s) Hx). lia.
  - rewrite !map_size_insert, Hx, Hsigma. apply I.
  - rewrite map_size_insert, Hsigma. apply I.
  - intros z. destruct (decide (z = x)) as [->|Hne]; [by rewrite !lookup_insert_eq|].
    rewrite !lookup_insert_ne by done. pose proof (inv_vals _ _ _ I z) as Hz.
    destruct (s_vars s !! z) as [oz|] eqn:Hoz, (sigma !! z) as [vz|]; try done.
    eapply stands_keeps; [|exact Hz]. intros a Ha. apply Hk.
    pose proof (users_two _ x z o oz a Hx Hoz ltac:(done)) as H2. unfold point in H2 at 2. rewrite Ha, one_same in H2.
    unfold all_refs, one. case_decide; lia.
Qed.

(** A new object. *)
Lemma owing_insert e e' sigma s x o' v' h' :
  Owing e sigma s -> sigma !! x = None -> Z.of_nat (size sigma) + 1 < 2147483640 ->
  (forall y, 0 <= e' y) -> refs (fun y => all_refs s y + point o' y + e' y) h' -> stands h' o' v' ->
  keeps (fun y => 0 < all_refs s y) (s_heap s) h' ->
  Owing e' (<[x := v']> sigma) {| s_heap := h'; s_vars := <[x := o']> (s_vars s); EMPTY_STRING := EMPTY_STRING s |}.
Proof.
  intros I Hsigma Hroom He' Hr Hv Hk. pose proof (inv_fresh _ _ _ _ I Hsigma) as Hx. split; cbn.
  - eapply refs_ext; [|exact Hr]. intros y. unfold all_refs; cbn. rewrite users_insert by done. lia.
  - done.
  - rewrite Hk; [apply I|]. apply all_refs_empty.
  - rewrite !map_size_insert, Hx, Hsigma. f_equal. apply I.
  - rewrite map_size_insert, Hsigma. lia.
  - intros z. destruct (decide (z = x)) as [->|Hne]; [by rewrite !lookup_insert_eq|].
    rewrite !lookup_insert_ne by done. pose proof (inv_vals _ _ _ I z) as Hz.
    destruct (s_vars s !! z) as [oz|] eqn:Hoz, (sigma !! z) as [vz|]; try done.
    eapply stands_keeps; [|exact Hz]. intros a Ha. apply Hk. by eapply all_refs_pointer.
Qed.

(** An object goes. *)
Lemma owing_delete e e' sigma s x o h' :
  Owing e sigma s -> s_vars s !! x = Some o ->
  (forall y, 0 <= e' y) -> refs (fun y => all_refs s y - point o y + e' y) h' -> keeps (fun y => 0 < all_refs s y - point o y) (s_heap s) h' ->
  Owing e' (delete x sigma) {| s_heap := h'; s_vars := delete x (s_vars s); EMPTY_STRING := EMPTY_STRING s |}.
Proof.
  intros I Hx He' Hr Hk. pose proof (inv_vals _ _ _ I x) as Hsx. rewrite Hx in Hsx.
  destruct (sigma !! x) as [v|] eqn:Hsigma; [|done]. split; cbn.
  - eapply refs_ext; [|exact Hr]. intros y. unfold all_refs; cbn. rewrite (users_delete _ _ o) by done. lia.
  - done.
  - rewrite Hk; [apply I|]. unfold all_refs. rewrite one_same. pose proof (users_one _ _ _ (EMPTY_STRING s) Hx). lia.
  - rewrite !map_size_delete, Hx, Hsigma. f_equal. apply I.
  - rewrite map_size_delete, Hsigma. pose proof (inv_few _ _ _ I). lia.
  - intros z. destruct (decide (z = x)) as [->|Hne]; [by rewrite !lookup_delete_eq|].
    rewrite !lookup_delete_ne by done. pose proof (inv_vals _ _ _ I z) as Hz.
    destruct (s_vars s !! z) as [oz|] eqn:Hoz, (sigma !! z) as [vz|]; try done.
    eapply stands_keeps; [|exact Hz]. intros a Ha. apply Hk.
    pose proof (users_two _ x z o oz a Hx Hoz ltac:(done)) as H2. unfold point in H2 at 2. rewrite Ha, one_same in H2.
    unfold all_refs, one. case_decide; lia.
Qed.

(** The same with nothing owed, before or after. *)
Lemma inv_update sigma s x o o' v' h' :
  Inv sigma s -> s_vars s !! x = Some o ->
  refs (fun y => all_refs s y - point o y + point o' y) h' -> stands h' o' v' ->
  keeps (fun y => 0 < all_refs s y - point o y) (s_heap s) h' ->
  Inv (<[x := v']> sigma) {| s_heap := h'; s_vars := <[x := o']> (s_vars s); EMPTY_STRING := EMPTY_STRING s |}.
Proof.
  intros I Hx Hr. apply (owing_update nothing nothing sigma s x o); [done..|].
  eapply refs_ext; [|exact Hr]. intros y. unfold nothing. lia.
Qed.

Lemma inv_insert sigma s x o' v' h' :
  Inv sigma s -> sigma !! x = None -> Z.of_nat (size sigma) + 1 < 2147483640 ->
  refs (fun y => all_refs s y + point o' y) h' -> stands h' o' v' ->
  keeps (fun y => 0 < all_refs s y) (s_heap s) h' ->
  Inv (<[x := v']> sigma) {| s_heap := h'; s_vars := <[x := o']> (s_vars s); EMPTY_STRING := EMPTY_STRING s |}.
Proof.
  intros I Hx Hroom Hr. apply (owing_insert nothing nothing sigma s x o'); [done..|].
  eapply refs_ext; [|exact Hr]. intros y. unfold nothing. lia.
Qed.

Lemma inv_delete sigma s x o h' :
  Inv sigma s -> s_vars s !! x = Some o ->
  refs (fun y => all_refs s y - point o y) h' -> keeps (fun y => 0 < all_refs s y - point o y) (s_heap s) h' ->
  Inv (delete x sigma) {| s_heap := h'; s_vars := delete x (s_vars s); EMPTY_STRING := EMPTY_STRING s |}.
Proof.
  intros I Hx Hr. apply (owing_delete nothing nothing sigma s x o); [done..|].
  eapply refs_ext; [|exact Hr]. intros y. unfold nothing. lia.
Qed.

End StringHeapProofs.
