(* ===== verification/StringHeapOps.v ===== *)
(** * The operations of String keep strings apart

    Each constructor, assignment and append changes the value of its own object
    and keeps the invariant of [StringHeapProofs]: the values of all others,
    the counts of all buffers and the cached character counts. *)
From S2P Require Import Prelude.
From S2P Require Import Utf8.
From S2P Require Import CcmString.
From S2P Require Import CcmStringProofs.
From S2P Require Import SharedBuffer.
From S2P Require Import StringHeap.
From S2P Require Import StringHeapProofs.

Module StringHeapOps.
Import SharedBuffer.
Import StringHeap.
Import StringHeapProofs.

Section Operations.
Context {A : Allocator}.
Hypothesis HA : never_fails A.
Variables (garbage : Z) (moves : bool).

Definition good (v : val) : Prop := match v with Some bytes => plain bytes | None => True end.

Lemma represents_good h o v : represents h o v -> good v.
Proof. unfold represents. destruct (mString o), v; cbn; tauto. Qed.

Lemma stands_null h n : stands h {| mString := None; mCharCount := n |} None.
Proof. done. Qed.

Lemma represents_at h a n bytes : held h a = Some (bytes ++ [0]) -> plain bytes ->
  represents h {| mString := Some a; mCharCount := n |} (Some bytes).
Proof. done. Qed.

Lemma stands_at h a bytes : held h a = Some (bytes ++ [0]) -> plain bytes ->
  stands h {| mString := Some a; mCharCount := 0 |} (Some bytes).
Proof. done. Qed.

(** [AllocFromUTF8] of a whole string, or no buffer. *)
Lemma wp_alloc_value c v (Q : option positive -> st -> Prop) s :
  refs c (s_heap s) -> held (s_heap s) (EMPTY_STRING s) = Some [0] -> 0 < c (EMPTY_STRING s) < 2147483646 -> good v ->
  (forall p h', refs (fun y => c y + pt p y) h' -> stands h' {| mString := p; mCharCount := 0 |} v ->
     keeps (fun y => 0 < c y) (s_heap s) h' -> Q p (with_heap s h')) ->
  wp (match v with Some b => AllocFromUTF8 garbage b (Z.of_nat (length b)) | None => ret None end) Q s.
Proof.
  intros Hr He Hce Hv HQ. destruct v as [b|].
  - eapply wp_AllocFromUTF8; [done|done|done|done|destruct Hv; lia|lia|].
    intros a h' Hr' Hd Hk. apply HQ; [exact Hr'| |exact Hk]. apply stands_at; [|done].
    rewrite take_ge in Hd by lia. exact Hd.
  - apply wp_ret. specialize (HQ None (s_heap s)). destruct s. apply HQ; [|done|by intros y _].
    eapply refs_ext; [|exact Hr]. intros y. cbn. lia.
Qed.

Lemma all_refs_room sigma s : Inv sigma s -> 0 < all_refs s (EMPTY_STRING s) < 2147483646.
Proof. intros I. split; [apply all_refs_empty|eapply all_refs_few; done]. Qed.

Lemma make_spec sigma x v s :
  Inv sigma s -> sigma !! x = None -> Z.of_nat (size sigma) + 1 < 2147483640 -> good v ->
  wp (make garbage x v) (fun _ s' => Inv (<[x := v]> sigma) s') s.
Proof.
  intros I Hx Hroom Hv. unfold make. apply wp_bind.
  apply (wp_alloc_value (all_refs s) v); [by eapply inv_all_refs|apply I|by eapply all_refs_room|done|].
  intros p h' Hr Hrep Hk. apply wp_set. by apply (inv_insert sigma s x _ v h').
Qed.

Lemma make_copy_spec sigma x y v s :
  Inv sigma s -> sigma !! x = None -> Z.of_nat (size sigma) + 1 < 2147483640 -> sigma !! y = Some v ->
  wp (make_copy x y) (fun _ s' => Inv (<[x := v]> sigma) s') s.
Proof.
  intros I Hx Hroom Hy. destruct (inv_stands _ _ _ _ _ I Hy) as (o & Ho & Hrep).
  unfold make_copy. apply wp_bind. eapply wp_get; [done|]. apply wp_bind, wp_set.
  eapply (wp_addref_if (all_refs s)); [exact (inv_all_refs _ _ I)| |].
  - intros a Ha. split; [by eapply all_refs_pointer|eapply all_refs_few; done].
  - intros h' Hr Hk. apply (inv_insert sigma s x o v h'); [done..| |].
    + eapply stands_keeps; [|done]. intros a _. by apply Hk.
    + intros a _. by apply Hk.
Qed.

Lemma destroy_spec sigma x v s :
  Inv sigma s -> sigma !! x = Some v -> wp (destroy x) (fun _ s' => Inv (delete x sigma) s') s.
Proof.
  intros I Hx. destruct (inv_get _ _ _ _ _ I Hx) as (o & Ho & Hrep).
  unfold destroy. apply wp_bind. eapply wp_get; [done|]. apply wp_bind.
  eapply (wp_release_if (all_refs s)); [by eapply inv_all_refs| |].
  - intros a Ha. by eapply all_refs_pointer.
  - intros h' Hr Hk. apply wp_unset. by apply (inv_delete sigma s x o h').
Qed.

Lemma keeps_trans (l l' : positive -> Prop) h1 h2 h3 :
  keeps l h1 h2 -> keeps l' h2 h3 -> (forall a, l' a -> l a) -> keeps l' h1 h3.
Proof. intros H1 H2 Hl a Ha. rewrite H2, H1; auto. Qed.

Lemma assign_spec sigma x y v w s :
  Inv sigma s -> sigma !! x = Some w -> sigma !! y = Some v ->
  wp (assign x y) (fun _ s' => Inv (<[x := v]> sigma) s') s.
Proof.
  intros I Hx Hy. destruct (inv_get _ _ _ _ _ I Hx) as (o & Ho & Hrep). destruct (inv_stands _ _ _ _ _ I Hy) as (o' & Ho' & Hrep').
  unfold assign. apply wp_bind. eapply wp_get; [done|]. apply wp_bind. eapply wp_get; [done|].
  destruct (decide (mString o = mString o')) as [E|Hne].
  - apply wp_ret. assert (w = v) as ->.
    { destruct Hrep' as [Hrep' _]. unfold represents in *. rewrite E in Hrep. destruct (mString o'), w, v; try done.
      destruct Hrep as [H1 _], Hrep' as [H2 _]. rewrite H1 in H2. injection H2 as H2. f_equal. by eapply app_inv_tail. }
    by rewrite insert_id.
  - apply wp_bind. eapply (wp_addref_if (all_refs s)); [by eapply inv_all_refs| |].
    { intros a Ha. split; [by eapply all_refs_pointer|eapply all_refs_few; done]. }
    intros h1 Hr1 Hk1. apply wp_bind. eapply wp_release_if; [exact Hr1| |].
    { intros a Ha. pose proof (all_refs_pointer s x o a Ho Ha). unfold pt. destruct (mString o') as [b|]; [|lia].
      unfold one. case_decide; lia. }
    intros h2 Hr2 Hk2. apply wp_set. cbn in Hk2.
    assert (forall a, point o a = pt (mString o) a /\ point o' a = pt (mString o') a) as Hpt by done.
    assert (forall a, 0 <= pt (mString o') a) as Hpos by (intros a; destruct (Hpt a) as [_ <-]; apply point_nonneg).
    apply (inv_update sigma s x o o' v h2); [done|done| | |].
    + eapply refs_ext; [|exact Hr2]. intros a. cbn. destruct (Hpt a). lia.
    + eapply stands_keeps; [|exact Hrep']. intros a Ha. rewrite Hk2, Hk1; [done|done|].
      pose proof (all_refs_pointer s y o' a Ho' Ha). rewrite Ha. cbn. rewrite one_same.
      destruct (mString o) as [b|]; cbn; [|lia]. rewrite one_other by congruence. lia.
    + intros a Ha. destruct (Hpt a) as [E _]. rewrite Hk2, Hk1; [done|done|]. specialize (Hpos a). lia.
Qed.

Lemma make_n_spec sigma x string n s :
  Inv sigma s -> sigma !! x = None -> Z.of_nat (size sigma) + 1 < 2147483640 -> plain string ->
  wp (make_n garbage x (Some string) n) (fun _ s' =>
    Inv (<[x := if (n >=? 0) && (n <=? Z.of_nat (length string)) then Some (take (Z.to_nat n) string) else None]> sigma) s') s.
Proof.
  intros I Hx Hroom Hv. unfold make_n. destruct (Z.geb_spec n 0), (Z.leb_spec n (Z.of_nat (length string))); cbn [andb].
  2-4: apply wp_bind, wp_ret, wp_set; apply (inv_insert sigma s x _ None (s_heap s)); [done..| |done|done];
    eapply refs_ext; [|by eapply inv_all_refs]; intros y; cbn; lia.
  apply wp_bind. destruct Hv as [Hnz Hlen]. eapply wp_AllocFromUTF8; [done|by eapply inv_all_refs|apply I| |lia|lia|].
  { split; [apply all_refs_empty|eapply all_refs_few; done]. }
  intros a h' Hr Hd Hk. apply wp_set. apply (inv_insert sigma s x _ _ h'); [done..| |done].
  apply stands_at; [done|]. split; [by apply Forall_take|rewrite length_take; lia].
Qed.

(** An object gives its buffer away: the reference is owed. *)
Lemma hand_over sigma s x o n : Inv sigma s -> s_vars s !! x = Some o ->
  Owing (point o) (<[x := None]> sigma) (with_vars s (<[x := {| mString := None; mCharCount := n |}]> (s_vars s))).
Proof.
  intros I Hx. apply (owing_update nothing (point o) sigma s x o _ None (s_heap s)); [done|done| | |done|done].
  - intros y. apply point_nonneg.
  - eapply refs_ext; [|by eapply inv_all_refs]. intros y. cbn. lia.
Qed.

Lemma make_move_spec sigma x y v s :
  Inv sigma s -> sigma !! x = None -> Z.of_nat (size sigma) + 1 < 2147483640 -> sigma !! y = Some v ->
  wp (make_move x y) (fun _ s' => Inv (<[y := None]> (<[x := v]> sigma)) s') s.
Proof.
  intros I Hx Hroom Hy. destruct (inv_stands _ _ _ _ _ I Hy) as (o & Ho & Hrep).
  assert (x <> y) as Hne by congruence.
  unfold make_move. apply wp_bind. eapply wp_get; [done|]. apply wp_bind, wp_set, wp_set. unfold with_vars; cbn.
  rewrite (insert_insert_ne (s_vars s)), (insert_insert_ne sigma) by done.
  pose proof (hand_over sigma s y o 0 I Ho) as I'.
  eapply (owing_insert _ nothing _ _ x o v (s_heap s) I'); [by rewrite lookup_insert_ne| |done| |done|done].
  - rewrite map_size_insert, Hy. unfold id. lia.
  - eapply refs_ext; [|apply (inv_refs _ _ _ I')]. intros z. unfold nothing. lia.
Qed.

Lemma insert_over {V} (m : gmap nat V) x y a b c : x <> y -> <[x := a]> (<[y := b]> (<[x := c]> m)) = <[y := b]> (<[x := a]> m).
Proof. intros Hne. by rewrite (insert_insert_ne _ x y), insert_insert_eq. Qed.

Lemma assign_move_spec sigma x y v w s :
  Inv sigma s -> sigma !! x = Some w -> sigma !! y = Some v -> x <> y ->
  wp (assign_move x y) (fun _ s' => Inv (<[y := None]> (<[x := v]> sigma)) s') s.
Proof.
  intros I Hx Hy Hne. destruct (inv_get _ _ _ _ _ I Hx) as (o & Ho & Hrep). destruct (inv_stands _ _ _ _ _ I Hy) as (o' & Ho' & Hrep').
  unfold assign_move. apply wp_bind. eapply wp_get; [done|]. apply wp_bind.
  eapply (wp_release_if (all_refs s)); [by eapply inv_all_refs| |].
  { intros a Ha. eapply all_refs_pointer; [exact Ho|exact Ha]. }
  intros h1 Hr1 Hk1. apply wp_bind. eapply wp_get; [done|]. apply wp_bind, wp_set. apply wp_bind.
  eapply wp_get; [cbn; by rewrite lookup_insert_ne|]. apply wp_set. unfold with_vars, with_heap; cbn.
  set (null := {| mString := None; mCharCount := 0 |}).
  rewrite <- (insert_over (s_vars s) x y o' _ null Hne), <- (insert_over sigma x y v None None Hne).
  assert (Inv (<[x := None]> sigma) {| s_heap := h1; s_vars := <[x := null]> (s_vars s); EMPTY_STRING := EMPTY_STRING s |}) as I1.
  { apply (inv_update sigma s x o null None h1); [done|done| |done|done].
    eapply refs_ext; [|exact Hr1]. intros a. cbn. unfold pt, point. lia. }
  assert (stands h1 o' v) as Hrep1.
  { eapply stands_keeps; [|exact Hrep']. intros a Ha. apply Hk1.
    pose proof (users_two _ x y o o' a Ho Ho' Hne) as H2. unfold point in H2 at 2. rewrite Ha, one_same in H2.
    unfold all_refs, one, pt, point in *. case_decide; lia. }
  pose proof (hand_over _ _ y o' (mCharCount o') I1 ltac:(cbn; by rewrite lookup_insert_ne)) as I2.
  apply (owing_update _ nothing _ _ x null o' v h1 I2); [| | |exact Hrep1|done].
  - cbn. by rewrite lookup_insert_ne, lookup_insert_eq.
  - done.
  - eapply refs_ext; [|apply (inv_refs _ _ _ I2)]. intros a. unfold nothing. cbn. lia.
Qed.

Lemma assign_chars_spec sigma x v w s :
  Inv sigma s -> sigma !! x = Some w -> good v ->
  wp (assign_chars garbage x v) (fun _ s' => Inv (<[x := v]> sigma) s') s.
Proof.
  intros I Hx Hv. destruct (inv_get _ _ _ _ _ I Hx) as (o & Ho & Hrep).
  unfold assign_chars. apply wp_bind. eapply wp_get; [done|]. apply wp_bind.
  eapply (wp_release_if (all_refs s)); [by eapply inv_all_refs| |].
  { intros a Ha. eapply all_refs_pointer; [exact Ho|exact Ha]. }
  intros h1 Hr1 Hk1. unfold make. apply wp_bind. cbn in *.
  assert (0 < all_refs s (EMPTY_STRING s) - point o (EMPTY_STRING s)) as Hempty.
  { unfold all_refs. rewrite one_same. pose proof (users_one _ _ _ (EMPTY_STRING s) Ho). lia. }
  pose proof (all_refs_room _ _ I) as Hroom. pose proof (point_nonneg o (EMPTY_STRING s)) as Hp.
  apply (wp_alloc_value (fun y => all_refs s y - point o y) v); cbn.
  - exact Hr1.
  - rewrite Hk1; [apply I|exact Hempty].
  - lia.
  - done.
  - intros p h' Hr Hrep' Hk. apply (inv_update sigma s x o _ v h'); [done|done|exact Hr|done|].
    intros y Hy. rewrite Hk, Hk1; [done|exact Hy|exact Hy].
Qed.

(** ** Appending

    What [LockBuffer] leaves: [x] alone on a buffer that starts with its old
    bytes and has room for [n] and the NUL. *)
Record Locked (sigma : gmap nat val) (s : st) (x : nat) (o : obj) (v : val) (n : Z) (a' : positive) (d' : list Z) (s' : st) : Prop := {
  locked_vars : s_vars s' = <[x := {| mString := Some a'; mCharCount := mCharCount o |}]> (s_vars s);
  locked_empty : EMPTY_STRING s' = EMPTY_STRING s;
  locked_size : Z.of_nat (length d') = n + 1;
  locked_start : take (length (default [] v)) d' = default [] v;
  locked_data : held (s_heap s') a' = Some d';
  locked_refs : refs (fun y => all_refs s y - point o y + one a' y) (s_heap s');
  locked_alone : all_refs s a' - point o a' = 0;
  locked_keeps : keeps (fun y => 0 < all_refs s y - point o y) (s_heap s) (s_heap s')
}.

Lemma LockBuffer_spec sigma x o v n (Q : option positive -> st -> Prop) s :
  Inv sigma s -> s_vars s !! x = Some o -> represents (s_heap s) o v -> Z.of_nat (length (default [] v)) <= n < INT_MAX ->
  (forall a' d' s', Locked sigma s x o v n a' d' s' -> Q (Some a') s') ->
  wp (LockBuffer garbage moves x n) Q s.
Proof.
  intros I Hx Hv Hn HQ. set (d := match v with Some b => b ++ [0] | None => [] end).
  assert (take (Z.to_nat (n + 1)) d = d /\ default [] v = take (length (default [] v)) d /\ (length (default [] v) <= length d)%nat) as (Hd & Hv' & Hl).
  { unfold d in *. destruct v as [b|]; cbn in *; [|by rewrite take_nil]. rewrite length_app, take_app_length; cbn.
    rewrite take_ge by (rewrite length_app; cbn; lia). split_and!; [done|done|lia]. }
  eapply (wp_LockBuffer HA garbage moves (all_refs s) x o d n); [done|by eapply inv_all_refs| |lia|].
  { unfold represents in Hv. unfold d. destruct (mString o), v; try done. apply Hv. }
  intros a' d' h' Hlen Ht Hd' Hr H0 Hk. apply (HQ a' d'). split; cbn; try done.
  rewrite Hd in Ht. rewrite Hv' at 2. rewrite <- Ht, take_take. f_equal. lia.
Qed.

Lemma memcpy_middle (d p bytes : list Z) z : length d = (length p + length bytes + 1)%nat -> take (length p) d = p ->
  memcpy (memcpy d (length p) bytes) (length p + length bytes) [z] = p ++ bytes ++ [z].
Proof.
  intros Hl Hp. unfold memcpy. rewrite Hp, (app_assoc p bytes (drop _ _)).
  rewrite take_app_le, take_ge by (rewrite length_app; lia). rewrite (drop_ge (_ ++ drop _ _)).
  - cbn. by rewrite <- app_assoc.
  - rewrite !length_app, length_drop. cbn. lia.
Qed.

(** The rest of an append, once the bytes to write are known. *)
Lemma finish_append sigma s x o v bytes a' d' s' : 
  Inv sigma s -> s_vars s !! x = Some o -> plain (default [] v ++ bytes) ->
  Locked sigma s x o v (Z.of_nat (length (default [] v ++ bytes))) a' d' s' ->
  wp (write a' (Z.of_nat (length (default [] v))) bytes ;;;
      write a' (Z.of_nat (length (default [] v ++ bytes))) [0] ;;;
      UnlockBuffer garbage moves x (Z.of_nat (length (default [] v ++ bytes))) ;;; ClearCounted x)
     (fun _ s'' => Inv (<[x := Some (default [] v ++ bytes)]> sigma) s'') s'.
Proof.
  intros I Hx Hplain [Lvars Lempty Lsize Lstart Ldata Lrefs Lalone Lkeeps]. set (p := default [] v) in *.
  assert (length (p ++ bytes) = length p + length bytes)%nat as Hlen by apply length_app.
  apply wp_bind. eapply wp_write; [exact Lrefs|exact Ldata|lia|lia|]. intros h1 Hr1 Hd1 Hk1.
  rewrite Nat2Z.id in Hd1. apply wp_bind.
  eapply wp_write; [exact Hr1|exact Hd1|lia|rewrite memcpy_length; cbn; lia|]. intros h2 Hr2 Hd2 Hk2.
  rewrite Nat2Z.id, Hlen, memcpy_middle in Hd2 by (done || lia). rewrite app_assoc in Hd2. cbn in Hk1, Hk2, Hr2.
  set (o' := {| mString := Some a'; mCharCount := mCharCount o |}) in *.
  apply wp_bind.
  eapply (wp_UnlockBuffer_same garbage moves x o' (Some (p ++ bytes))); [cbn; rewrite Lvars; apply lookup_insert_eq|by apply represents_at|].
  unfold ClearCounted. apply wp_bind. eapply wp_get; [cbn; rewrite Lvars; apply lookup_insert_eq|]. apply wp_set. cbn.
  unfold with_vars; cbn. rewrite Lvars, Lempty, insert_insert_eq.
  apply (inv_update sigma s x o _ (Some (p ++ bytes)) h2); [done|done|exact Hr2|by apply stands_at|].
  intros y Hy. assert (y <> a') by (intros ->; lia). rewrite Hk2, Hk1 by done. by apply Lkeeps.
Qed.

Lemma append_chars_spec sigma x v w s :
  Inv sigma s -> sigma !! x = Some w -> plain (default [] w ++ default [] v) ->
  wp (append_chars garbage moves x v) (fun _ s' =>
    Inv (if decide (default [] v = []) then sigma else <[x := Some (default [] w ++ default [] v)]> sigma) s') s.
Proof.
  intros I Hx Hplain. destruct (inv_get _ _ _ _ _ I Hx) as (o & Ho & Hrep). unfold append_chars.
  destruct v as [[|c string]|]; cbn [default id] in *; [by apply wp_ret| |by apply wp_ret].
  rewrite decide_False by done. pose proof Hplain as [_ Hlen]. unfold INT_MAX in Hlen.
  pose proof (length_app (default [] w) (c :: string)) as Happ.
  apply wp_bind. eapply wp_GetByteLength; [done|done|].
  apply wp_bind. apply wp_add_int; [lia|]. rewrite <- Nat2Z.inj_add, <- Happ.
  apply wp_bind. eapply LockBuffer_spec; [done|done|done|unfold INT_MAX; lia|].
  intros a' d' s' HL. by eapply finish_append.
Qed.

Lemma append_spec sigma x y v w s :
  Inv sigma s -> x <> y -> sigma !! x = Some w -> sigma !! y = Some v -> plain (default [] w ++ default [] v) ->
  wp (append garbage moves x y) (fun _ s' =>
    Inv (if decide (default [] v = []) then sigma else <[x := Some (default [] w ++ default [] v)]> sigma) s') s.
Proof.
  intros I Hne Hx Hy Hplain. destruct (inv_get _ _ _ _ _ I Hx) as (o & Ho & Hrep).
  destruct (inv_get _ _ _ _ _ I Hy) as (oy & Hoy & Hrepy). unfold append.
  apply wp_bind. eapply wp_IsNullOrEmpty; [exact Hoy|exact Hrepy|]. case_decide as E.
  { rewrite bool_decide_true by done. by apply wp_ret. }
  rewrite bool_decide_false by done. destruct v as [by'|]; [|done]. cbn [default id] in *. clear E.
  pose proof Hplain as [_ Hlen]. unfold INT_MAX in Hlen. pose proof (length_app (default [] w) by') as Happ.
  apply wp_bind. eapply wp_GetByteLength; [exact Ho|exact Hrep|].
  apply wp_bind. eapply wp_GetByteLength; [exact Hoy|exact Hrepy|]. cbn [default id].
  apply wp_bind. apply wp_add_int; [lia|]. rewrite <- Nat2Z.inj_add, <- Happ.
  apply wp_bind. eapply LockBuffer_spec; [done|exact Ho|exact Hrep|unfold INT_MAX; lia|].
  intros a' d' s' HL. assert (s_vars s' !! y = Some oy) as Hoy'.
  { rewrite (locked_vars _ _ _ _ _ _ _ _ _ HL). by rewrite lookup_insert_ne. }
  assert (forall b, mString oy = Some b -> 0 < all_refs s b - point o b) as Hlive.
  { intros b Hb. pose proof (users_two _ x y o oy b Ho Hoy Hne) as H2. unfold point in H2 at 2. rewrite Hb, one_same in H2.
    unfold all_refs, one. case_decide; lia. }
  assert (represents (s_heap s') oy (Some by')) as Hrepy'.
  { eapply represents_keeps; [|exact Hrepy]. intros b Hb. apply (locked_keeps _ _ _ _ _ _ _ _ _ HL). by apply Hlive. }
  apply wp_bind. eapply wp_GetByteLength; [exact Hoy'|exact Hrepy'|]. cbn [default id].
  pose proof (finish_append sigma s x o w by' a' d' s' I Ho Hplain HL) as Hfin.
  unfold represents in Hrepy'. destruct (mString oy) as [b|] eqn:Hb; [|done]. destruct Hrepy' as [Hdb _].
  assert (b <> a') as Hba.
  { intros ->. pose proof (Hlive a' eq_refl). pose proof (locked_alone _ _ _ _ _ _ _ _ _ HL). lia. }
  unfold held in Hdb. destruct (s_heap s' !! b) as [bb|] eqn:Hbb; [|done]. injection Hdb as Hdb.
  apply wp_bind. unfold copy_string. apply wp_bind. eapply wp_get; [exact Hoy'|]. rewrite Hb.
  apply wp_bind, wp_on_heap. eapply wp_deref; [done|]. unfold mSize. rewrite Hdb, length_app. cbn [length].
  rewrite (proj2 (Z.ltb_ge _ _)), bool_decide_false by (done || lia). cbn [orb andb].
  rewrite Nat2Z.id, take_app_length. apply wp_bind_inv in Hfin. destruct s'; exact Hfin.
Qed.

(** ** From characters *)

Lemma total_size chars t : Utf8.text chars ->
  fold_left (fun t c => t + Utf8.GetByteSize c) chars t = t + Z.of_nat (length (Utf8.encode chars)).
Proof.
  intros Ht. revert t. induction Ht as [|c cs [Hc Hne] _ IH]; intros t; [cbn; lia|]. cbn [fold_left].
  destruct (Utf8.encode1_shape c Hc Hne) as (b & bs & He & _ & _ & <- & _).
  rewrite IH, Utf8.encode_cons, He, length_app. lia.
Qed.

Lemma wp_GetByteLength_at x o a d c (Q : Z -> st -> Prop) s :
  s_vars s !! x = Some o -> mString o = Some a -> held (s_heap s) a = Some d -> d !! 0%nat = Some c ->
  Z.of_nat (length d) < 2147483648 ->
  Q (if c =? 0 then 0 else Z.of_nat (length d) - 1) s -> wp (GetByteLength x) Q s.
Proof.
  intros Hx Ha Hd Hc Hlen HQ. unfold GetByteLength. apply wp_bind. eapply wp_get; [done|]. rewrite Ha.
  apply wp_bind. eapply wp_char_at; [done|done|]. destruct (c =? 0); [by apply wp_ret|].
  unfold held in Hd. destruct (s_heap s !! a) as [b|] eqn:Hb; [|done]. injection Hd as <-.
  apply wp_bind, wp_on_heap. eapply wp_deref; [done|]. apply wp_ret. unfold mSize. rewrite wrap_s_id by (fits; lia).
  by destruct s.
Qed.

(** The range of the array that is taken. *)
Definition array_range (start length : Z) (charArray : list Z) : list Z :=
  take (Z.to_nat length) (drop (Z.to_nat start) charArray).

Lemma WriteCharArray_spec sigma x charArray start length s :
  Inv sigma s -> sigma !! x = Some None ->
  s_vars s !! x = Some {| mString := None; mCharCount := 0 |} -> 0 <= start <= Z.of_nat (List.length charArray) -> 0 <= length ->
  start + length < 2147483648 -> Z.of_nat (List.length charArray) < 2147483648 ->
  Utf8.text (array_range start length charArray) -> plain (Utf8.encode (array_range start length charArray)) ->
  wp (WriteCharArray garbage moves x charArray start length) (fun _ s' =>
    Inv (<[x := Some (Utf8.encode (array_range start length charArray))]> sigma) s') s.
Proof.
  intros I Hx Ho Hstart Hl0 Hl Hn Htext Hplain. set (o := {| mString := None; mCharCount := 0 |}) in *.
  assert (represents (s_heap s) o None) as Hrep by done. unfold WriteCharArray.
  rewrite Z.gtb_ltb, !(proj2 (Z.ltb_ge _ _)) by lia. cbn [orb]. apply wp_bind, wp_add_int; [lia|].
  set (chars := array_range start length charArray) in *.
  assert (take (Z.to_nat (if start + length <=? Z.of_nat (List.length charArray) then length
            else i32 (Z.of_nat (List.length charArray) - start))) (drop (Z.to_nat start) charArray) = chars) as ->.
  { unfold chars, array_range. destruct (Z.leb_spec (start + length) (Z.of_nat (List.length charArray))); [done|].
    rewrite wrap_s_id by (fits; lia). rewrite !take_ge by (rewrite length_drop; lia). done. }
  rewrite total_size by done. cbn [Z.add]. set (bytes := Utf8.encode chars) in *.
  pose proof Hplain as [Hnz Hlen]. unfold INT_MAX in Hlen.
  apply wp_bind, wp_add_int; [lia|]. cbn [Z.add]. apply wp_bind.
  eapply (LockBuffer_spec sigma x o None); [done|exact Ho|exact Hrep|cbn; unfold INT_MAX; lia|].
  intros a' d' s' [Lvars Lempty Lsize Lstart Ldata Lrefs Lalone Lkeeps].
  apply wp_bind. eapply wp_write; [exact Lrefs|exact Ldata|lia|lia|]. intros h1 Hr1 Hd1 Hk1.
  change (Z.to_nat 0) with 0%nat in Hd1. rewrite memcpy_start in Hd1 by lia.
  set (o' := {| mString := Some a'; mCharCount := mCharCount o |}) in *.
  assert (exists z, drop (List.length bytes) d' = [z]) as [z Hz].
  { assert (List.length (drop (List.length bytes) d') = 1%nat) as H1 by (rewrite length_drop; lia).
    destruct (drop _ d') as [|z [|]]; [done|by exists z|done]. }
  rewrite Hz in Hd1. assert (s_vars (with_heap s' h1) !! x = Some o') as Hx1 by (cbn; rewrite Lvars; apply lookup_insert_eq).
  assert (exists c, (bytes ++ [z]) !! 0%nat = Some c /\ (if c =? 0 then 0 else Z.of_nat (List.length (bytes ++ [z])) - 1) = Z.of_nat (List.length bytes)) as (c & Hc & Hsize).
  { rewrite length_app; cbn. destruct bytes as [|c bytes]; cbn; eexists; (split; [done|]).
    - destruct (z =? 0); lia.
    - apply Forall_cons in Hnz as [Hc _]. rewrite (proj2 (Z.eqb_neq _ _) Hc). lia. }
  apply wp_bind. unfold UnlockBuffer. rewrite (proj2 (Z.ltb_ge _ _)) by lia. apply wp_bind.
  eapply wp_GetByteLength_at; [exact Hx1|done|exact Hd1|exact Hc|rewrite length_app; cbn; lia|].
  rewrite Hsize, Z.eqb_refl. apply wp_ret. apply wp_bind. eapply wp_get; [exact Hx1|]. cbn [mString o'].
  eapply wp_write; [exact Hr1|exact Hd1|lia|rewrite length_app; cbn; lia|]. intros h2 Hr2 Hd2 Hk2.
  rewrite !Z.add_0_l, Nat2Z.id in Hd2. unfold memcpy in Hd2. rewrite take_app_length, drop_ge, app_nil_r in Hd2 by (rewrite length_app; cbn; lia).
  unfold with_heap; cbn. rewrite Lvars, Lempty.
  apply (inv_update sigma s x o o' (Some bytes) h2); [done|done|exact Hr2|by apply stands_at|].
  intros y Hy. assert (y <> a') by (intros ->; lia). cbn in *. rewrite Hk2, Hk1 by done. by apply Lkeeps.
Qed.

Lemma make_array_spec sigma x charArray start length s :
  Inv sigma s -> sigma !! x = None -> Z.of_nat (size sigma) + 1 < 2147483640 ->
  0 <= start <= Z.of_nat (List.length charArray) -> 0 <= length ->
  start + length < 2147483648 -> Z.of_nat (List.length charArray) < 2147483648 ->
  Utf8.text (array_range start length charArray) -> plain (Utf8.encode (array_range start length charArray)) ->
  wp (make_array garbage moves x charArray start length) (fun _ s' =>
    Inv (<[x := Some (Utf8.encode (array_range start length charArray))]> sigma) s') s.
Proof.
  intros I Hx Hroom. intros. unfold make_array. apply wp_bind, wp_set.
  rewrite <- (insert_insert_eq sigma x (Some (Utf8.encode (array_range start length charArray))) None).
  apply WriteCharArray_spec; [|apply lookup_insert_eq|cbn; apply lookup_insert_eq|done..].
  apply (inv_insert sigma s x _ None (s_heap s)); [done..| |done|done].
  eapply refs_ext; [|by eapply inv_all_refs]. intros y. cbn. lia.
Qed.

(** ** The cached length *)

Lemma size_loop_ends b end_ fuel p n : end_ = Z.of_nat (length b) -> (p < length b)%nat -> (length b - p < fuel)%nat ->
  exists n', CcmString.char_loop CcmString.next_size CcmString.count_body fuel b end_ p n = Some (inl n').
Proof.
  intros ->. revert p n. induction fuel as [|fuel IH]; intros p n Hp Hf; [lia|]. cbn [CcmString.char_loop].
  unfold CcmString.next_size. destruct (lookup_lt_is_Some_2 b p Hp) as [c Hc]. rewrite Hc. cbn [mbind option_bind].
  destruct (_ || _); [by eexists|]. set (k := Utf8.UTF8SequenceLength c).
  destruct ((k =? 0) || _) eqn:E; [by eexists|]. cbn [CcmString.count_body].
  assert (0 <= k) as Hk.
  { unfold k, Utf8.UTF8SequenceLength, Utf8.UTF8SequenceLengthNonASCII. repeat (case_match; [lia|]). lia. }
  apply orb_false_iff in E as [E1 E2]. rewrite Z.geb_leb in E2. apply Z.eqb_neq in E1. apply Z.leb_gt in E2.
  apply IH; lia.
Qed.

Lemma GetLength_reads bytes count : plain bytes -> counted {| mString := None; mCharCount := count |} (Some bytes) ->
  exists n count', CcmString.GetLength (CcmString.Build_t (Some (bytes ++ [0])) count) =
      Some (n, CcmString.Build_t (Some (bytes ++ [0])) count') /\
    counted {| mString := None; mCharCount := count' |} (Some bytes) /\
    (forall cs, bytes = Utf8.encode cs -> Utf8.text cs -> n = Z.of_nat (length cs)).
Proof.
  intros [Hnz Hlen] Hc. unfold INT_MAX in Hlen. set (r := CcmString.Build_t (Some (bytes ++ [0])) count).
  assert (forall cs, bytes = Utf8.encode cs -> Utf8.text cs -> CcmStringProofs.holds r cs) as Hholds.
  { intros cs -> Ht. split; cbn; [done|done|lia|]. intros E. by apply (Hc E cs). }
  assert (exists n count', CcmString.GetLength r = Some (n, CcmString.Build_t (Some (bytes ++ [0])) count')) as (n & count' & Hr).
  { unfold CcmString.GetLength, CcmString.IsNullOrEmpty. cbn [CcmString.mString r mbind option_bind].
    destruct bytes as [|c bytes]; [by eexists _, _|]. cbn [app lookup list_lookup mbind option_bind].
    apply Forall_cons in Hnz as [Hc0 _]. rewrite (proj2 (Z.eqb_neq _ _) Hc0). destruct (CcmString.IsCounted r); [by eexists _, _|].
    unfold CcmString.walk. cbn [CcmString.mString r]. unfold CcmString.GetByteLength.
    cbn [CcmString.mString r app lookup list_lookup mbind option_bind]. rewrite (proj2 (Z.eqb_neq _ _) Hc0).
    cbn [mbind option_bind].
    assert (i32 (Z.of_nat (length (c :: bytes ++ [0]))) - 1 + 1 = Z.of_nat (length (c :: bytes ++ [0]))) as ->.
    { cbn [length] in *. rewrite length_app. cbn [length]. rewrite wrap_s_id by (fits; lia). lia. }
    edestruct (size_loop_ends (c :: bytes ++ [0])) as [n' ->]; [done|cbn; lia|lia|]. by eexists _, _. }
  exists n, count'. rewrite Hr. split_and!; [done| |].
  - intros E cs [= Hcs] Ht. destruct (CcmStringProofs.GetLength_holds r cs (Hholds cs Hcs Ht)) as (s' & Hs' & Hh').
    rewrite Hr in Hs'. injection Hs' as _ <-. by apply (CcmStringProofs.holds_count _ _ Hh').
  - intros cs Hcs Ht. destruct (CcmStringProofs.GetLength_holds r cs (Hholds cs Hcs Ht)) as (s' & Hs' & _).
    rewrite Hr in Hs'. by injection Hs' as ->.
Qed.

Lemma GetLength_spec sigma x v s : Inv sigma s -> sigma !! x = Some v ->
  wp (GetLength x) (fun n s' => Inv sigma s' /\ (forall cs, v = Some (Utf8.encode cs) -> Utf8.text cs -> n = Z.of_nat (length cs)) /\
    (v = None -> n = 0)) s.
Proof.
  intros I Hx. destruct (inv_stands _ _ _ _ _ I Hx) as (o & Ho & Hrep & Hcount). unfold GetLength.
  assert (forall count', counted {| mString := mString o; mCharCount := count' |} v ->
    Inv sigma (with_vars s (<[x := {| mString := mString o; mCharCount := count' |}]> (s_vars s)))) as Hset.
  { intros count' Hc. rewrite <- (insert_id sigma x v Hx) at 1.
    apply (inv_update sigma s x o _ v (s_heap s)); [done|done| |done|done].
    eapply refs_ext; [|by eapply inv_all_refs]. intros y. change (point {| mString := mString o; mCharCount := count' |} y) with (point o y). lia. }
  apply wp_bind. unfold view. apply wp_bind. eapply wp_get; [exact Ho|]. unfold represents in Hrep.
  destruct (mString o) as [a|] eqn:Ha, v as [bytes|]; try done.
  - destruct Hrep as [Hd Hplain]. unfold held in Hd. destruct (s_heap s !! a) as [b|] eqn:Hb; [|done]. injection Hd as Hd.
    apply wp_bind, wp_on_heap. eapply wp_deref; [done|]. apply wp_ret. rewrite Hd.
    destruct (GetLength_reads bytes (mCharCount o) Hplain Hcount) as (n & count' & -> & Hc' & Hn).
    apply wp_bind. eapply wp_get; [cbn; exact Ho|]. rewrite Ha. apply wp_bind, wp_set, wp_ret. split_and!; [|naive_solver|done].
    destruct s. by apply (Hset count').
  - apply wp_ret. cbn. apply wp_bind. eapply wp_get; [exact Ho|]. rewrite Ha. apply wp_bind, wp_set, wp_ret.
    split_and!; [|done|done]. by apply Hset.
Qed.

(** ** A string appended to itself

    [memcpy] reads behind the characters it writes. *)
Lemma append_self sigma x c b s : Inv sigma s -> sigma !! x = Some (Some (c :: b)) -> append garbage moves x x s = None.
Proof.
  intros I Hx. destruct (inv_get _ _ _ _ _ I Hx) as (o & Ho & Hrep). pose proof (represents_good _ _ _ Hrep) as [Hnz Hlen].
  unfold append. apply wp_undefined. eapply wp_IsNullOrEmpty; [exact Ho|exact Hrep|]. rewrite bool_decide_false by done.
  apply wp_undefined. eapply wp_GetByteLength; [exact Ho|exact Hrep|].
  apply wp_undefined. eapply wp_GetByteLength; [exact Ho|exact Hrep|]. cbn [default id]. set (n := Z.of_nat (length (c :: b))) in *.
  unfold add_int. destruct (fits_sb 32 (n + n)) eqn:Hfits; [|done]. apply fits_sb_spec in Hfits.
  apply wp_undefined, wp_ret. unfold fits_s in Hfits.
  apply wp_undefined. eapply LockBuffer_spec; [done|exact Ho|exact Hrep|cbn [default id]; fold n; unfold INT_MAX; fits; lia|].
  intros a' d' s' [Lvars Lempty Lsize Lstart Ldata Lrefs Lalone Lkeeps]. cbn [default id] in Lstart.
  set (o' := {| mString := Some a'; mCharCount := mCharCount o |}) in *.
  assert (s_vars s' !! x = Some o') as Hx' by (rewrite Lvars; apply lookup_insert_eq).
  unfold held in Ldata. destruct (s_heap s' !! a') as [bb|] eqn:Hbb; [|done]. injection Ldata as Ldata.
  assert (mSize bb = n + n + 1) as Hsize by (unfold mSize; by rewrite Ldata).
  apply wp_undefined. unfold GetByteLength. apply wp_bind. eapply wp_get; [exact Hx'|]. cbn [mString o'].
  apply wp_bind. eapply (wp_char_at a' d' 0 c); [unfold held; rewrite Hbb; cbn; by rewrite Ldata| |].
  { destruct d' as [|c' d']; [done|]. cbn in Lstart. by injection Lstart as ->. }
  apply Forall_cons in Hnz as [Hc _]. rewrite (proj2 (Z.eqb_neq _ _) Hc).
  apply wp_bind, wp_on_heap. eapply wp_deref; [exact Hbb|]. apply wp_ret. rewrite Hsize.
  rewrite wrap_s_id by fits. apply bind_undefined. unfold copy_string.
  apply wp_undefined. eapply wp_get; [exact Hx'|]. cbn [mString o'].
  apply wp_undefined, wp_on_heap. eapply wp_deref; [exact Hbb|]. rewrite Hsize.
  rewrite bool_decide_true by done. rewrite (proj2 (Z.ltb_lt n _)) by (unfold n; cbn; lia).
  by rewrite orb_true_r.
Qed.

End Operations.
End StringHeapOps.
