(* ===== verification/StringPrograms.v ===== *)
(** * Programs that use Strings

    A program is a sequence of commands on named String objects between the
    set-up of the empty string and its removal.  Whatever buffers are shared on
    the way, each object reads as the value a program without sharing would
    see, references are counted right and nothing is left behind. *)
From S2P Require Import Prelude.
From S2P Require Import Utf8.
From S2P Require Import CcmString.
From S2P Require Import CcmStringProofs.
From S2P Require Import SharedBuffer.
From S2P Require Import StringHeap.
From S2P Require Import StringHeapProofs.
From S2P Require Import StringHeapOps.

Module StringPrograms.
Import SharedBuffer.
Import StringHeap.
Import StringHeapProofs.
Import StringHeapOps.

Section Programs.
Context {A : Allocator}.
Variables (garbage : Z) (moves : bool).

(** ** Commands *)

Inductive cmd :=
  | Make (x : nat) (v : val)                       (* String x(v) *)
  | MakeN (x : nat) (string : list Z) (n : Z)      (* String x(string, n) *)
  | MakeArray (x : nat) (chars : list Z) (start length : Z)   (* String x(chars, start, length) *)
  | MakeCopy (x y : nat)                           (* String x(y) *)
  | MakeMove (x y : nat)                           (* String x(std::move(y)) *)
  | Destroy (x : nat)
  | Assign (x y : nat)                             (* x = y *)
  | AssignMove (x y : nat)                         (* x = std::move(y) *)
  | AssignChars (x : nat) (v : val)                (* x = v *)
  | Append (x y : nat)                             (* x += y *)
  | AppendChars (x : nat) (v : val)                (* x += v *)
  | Length (x : nat).                              (* x.GetLength() *)

Definition exec (c : cmd) : SE st unit :=
  match c with
  | Make x v => make garbage x v
  | MakeN x string n => make_n garbage x (Some string) n
  | MakeArray x chars start length => make_array garbage moves x chars start length
  | MakeCopy x y => make_copy x y
  | MakeMove x y => make_move x y
  | Destroy x => destroy x
  | Assign x y => assign x y
  | AssignMove x y => assign_move x y
  | AssignChars x v => assign_chars garbage x v
  | Append x y => append garbage moves x y
  | AppendChars x v => append_chars garbage moves x v
  | Length x => GetLength x ;;; ret tt
  end.

Fixpoint exec_all (cs : list cmd) : SE st unit :=
  match cs with [] => ret tt | c :: cs => exec c ;;; exec_all cs end.

#[global] Instance plain_dec bytes : Decision (plain bytes).
Proof. unfold plain. apply _. Defined.

#[global] Instance good_dec v : Decision (good v).
Proof. destruct v; cbn; apply _. Defined.

#[global] Instance text_dec cs : Decision (Utf8.text cs).
Proof. unfold Utf8.text. apply _. Defined.

(** The whole program. *)
Definition before_main (e : positive) : st := {| s_heap := ∅; s_vars := ∅; EMPTY_STRING := e |}.

Definition program (cs : list cmd) : SE st unit := Init_EMPTY_STRING garbage ;;; exec_all cs.

(** What the program reads of an object. *)
Definition value_of (s : st) (x : nat) : option val :=
  o ← s_vars s !! x;
  match mString o with
  | None => Some None
  | Some a => d ← held (s_heap s) a; Some (Some (take (length d - 1) d))
  end.

(** The same commands on plain values: what a program that never looks at
    buffers expects, for distinct objects on both sides of an append or a
    move, and lengths an [int] can hold. *)
Definition declare (x : nat) (v : val) (sigma : gmap nat val) : option (gmap nat val) :=
  if decide (sigma !! x = None /\ Z.of_nat (size sigma) + 1 < 2147483640) then Some (<[x := v]> sigma) else None.

Definition extend (x : nat) (v : val) (sigma : gmap nat val) : option (gmap nat val) :=
  w ← sigma !! x;
  if decide (plain (default [] w ++ default [] v)) then
    Some (if decide (default [] v = []) then sigma else <[x := Some (default [] w ++ default [] v)]> sigma)
  else None.

Definition expect (c : cmd) (sigma : gmap nat val) : option (gmap nat val) :=
  match c with
  | Make x v => if decide (good v) then declare x v sigma else None
  | MakeN x string n =>
    if decide (plain string) then
      declare x (if (n >=? 0) && (n <=? Z.of_nat (length string)) then Some (take (Z.to_nat n) string) else None) sigma
    else None
  | MakeArray x chars start length =>
    let range := array_range start length chars in
    if decide ((0 <= start <= Z.of_nat (List.length chars) /\ 0 <= length) /\
               (start + length < 2147483648 /\ Z.of_nat (List.length chars) < 2147483648) /\
               Utf8.text range /\ plain (Utf8.encode range))
    then declare x (Some (Utf8.encode range)) sigma else None
  | MakeCopy x y => v ← sigma !! y; declare x v sigma
  | MakeMove x y => v ← sigma !! y; sigma' ← declare x v sigma; Some (<[y := None]> sigma')
  | Destroy x => _ ← sigma !! x; Some (delete x sigma)
  | Assign x y => _ ← sigma !! x; v ← sigma !! y; Some (<[x := v]> sigma)
  | AssignMove x y =>
    if decide (x = y) then None else _ ← sigma !! x; v ← sigma !! y; Some (<[y := None]> (<[x := v]> sigma))
  | AssignChars x v => if decide (good v) then _ ← sigma !! x; Some (<[x := v]> sigma) else None
  | Append x y => if decide (x = y) then None else v ← sigma !! y; extend x v sigma
  | AppendChars x v => extend x v sigma
  | Length x => _ ← sigma !! x; Some sigma
  end.

Fixpoint expect_all (cs : list cmd) (sigma : gmap nat val) : option (gmap nat val) :=
  match cs with [] => Some sigma | c :: cs => sigma' ← expect c sigma; expect_all cs sigma' end.

Lemma declare_inv x v sigma sigma' : declare x v sigma = Some sigma' ->
  sigma !! x = None /\ Z.of_nat (size sigma) + 1 < 2147483640 /\ sigma' = <[x := v]> sigma.
Proof. unfold declare. case_decide as H; [|done]. intros [= <-]. destruct H. done. Qed.

Lemma extend_inv x v sigma sigma' : extend x v sigma = Some sigma' ->
  exists w, sigma !! x = Some w /\ plain (default [] w ++ default [] v) /\
    sigma' = if decide (default [] v = []) then sigma else <[x := Some (default [] w ++ default [] v)]> sigma.
Proof. unfold extend. destruct (sigma !! x) as [w|]; [cbn|done]. case_decide; [|done]. intros [= <-]. by exists w. Qed.

Hypothesis HA : never_fails A.

(** One command does what is expected. *)
Lemma exec_spec c sigma sigma' s : Inv sigma s -> expect c sigma = Some sigma' -> wp (exec c) (fun _ s' => Inv sigma' s') s.
Proof.
  intros I H. destruct c as [x v|x string n|x chars start len|x y|x y|x|x y|x y|x v|x y|x v|x]; cbn in H |- *.
  - case_decide; [|done]. apply declare_inv in H as (? & ? & ->). by apply make_spec.
  - case_decide; [|done]. apply declare_inv in H as (? & ? & ->). by apply make_n_spec.
  - case_decide as Hr; [|done]. destruct Hr as ((? & ?) & (? & ?) & ? & ?).
    apply declare_inv in H as (? & ? & ->). by apply make_array_spec.
  - apply option.bind_Some in H as (v & Hy & (? & ? & ->)%declare_inv). by apply make_copy_spec.
  - apply option.bind_Some in H as (v & Hy & (sigma1 & (? & ? & ->)%declare_inv & [= <-])%option.bind_Some). by apply make_move_spec.
  - apply option.bind_Some in H as (v & Hx & [= <-]). by eapply destroy_spec.
  - apply option.bind_Some in H as (w & Hx & (v & Hy & [= <-])%option.bind_Some). by eapply assign_spec.
  - case_decide; [done|]. apply option.bind_Some in H as (w & Hx & (v & Hy & [= <-])%option.bind_Some). by eapply assign_move_spec.
  - case_decide; [|done]. apply option.bind_Some in H as (w & Hx & [= <-]). by eapply assign_chars_spec.
  - case_decide; [done|]. apply option.bind_Some in H as (v & Hy & (w & Hx & Hp & ->)%extend_inv). by eapply append_spec.
  - apply extend_inv in H as (w & Hx & Hp & ->). by eapply append_chars_spec.
  - apply option.bind_Some in H as (v & Hx & [= <-]). apply wp_bind. eapply wp_mono; [by eapply GetLength_spec|].
    intros n s' [I' _]. by apply wp_ret.
Qed.

Lemma exec_all_spec cs sigma sigma' s :
  Inv sigma s -> expect_all cs sigma = Some sigma' -> wp (exec_all cs) (fun _ s' => Inv sigma' s') s.
Proof.
  revert sigma s. induction cs as [|c cs IH]; intros sigma s I H; cbn in H |- *.
  - injection H as <-. by apply wp_ret.
  - apply option.bind_Some in H as (sigma1 & H1 & H2). apply wp_bind. eapply wp_mono; [by eapply exec_spec|].
    intros [] s1 I1. by apply (IH sigma1).
Qed.

(** ** From start to end *)

Lemma Init_spec e : wp (Init_EMPTY_STRING garbage) (fun _ s => Inv ∅ s) (before_main e).
Proof.
  unfold Init_EMPTY_STRING. apply wp_bind, wp_on_heap.
  eapply wp_mono; [apply Alloc_spec; [done|unfold SIZE_MAX, header_size; lia]|].
  intros r h (a & -> & _ & ->). cbn. apply wp_bind, wp_modify.
  assert (refs (one a) (<[a := {| mRefs := 1; data := junk garbage (Z.to_nat 1) |}]> ∅)) as Hr.
  { apply (refs_insert (fun _ => 0)); [intros x; by rewrite lookup_empty| | |]; rewrite ?one_same; [intros x Hx; by rewrite one_other|done|lia]. }
  eapply wp_write; [exact Hr|cbn; by rewrite held_insert, decide_True|lia|done|].
  intros h' Hr' Hd' _. split; cbn.
  - eapply refs_ext; [|exact Hr']. intros y. unfold all_refs, users, nothing; cbn. rewrite map_filter_empty, map_size_empty. lia.
  - intros y. unfold nothing. lia.
  - exact Hd'.
  - by rewrite !map_size_empty.
  - by rewrite map_size_empty.
  - intros x. by rewrite !lookup_empty.
Qed.

Lemma inv_value sigma s x : Inv sigma s -> value_of s x = sigma !! x.
Proof.
  intros I. pose proof (inv_vals _ _ _ I x) as H. unfold value_of.
  destruct (s_vars s !! x) as [o|], (sigma !! x) as [v|]; try done. cbn. destruct H as [H _]. unfold represents in H.
  destruct (mString o) as [a|], v as [b|]; try done. destruct H as [-> _]. cbn.
  rewrite length_app, Nat.add_sub, take_app_length. done.
Qed.



Lemma program_spec e cs sigma : expect_all cs ∅ = Some sigma ->
  wp (program cs) (fun _ s => Inv sigma s) (before_main e).
Proof.
  intros H. unfold program. apply wp_bind. eapply wp_mono; [by apply Init_spec|]. intros [] s I.
  by apply (exec_all_spec cs ∅).
Qed.

End Programs.

(** ** Theorems *)

(** C14: strings are values. For every sequence of constructions from text without
    NUL, copies, moves, assignments, appends, length queries and destructions in
    which no object is appended to itself or moved into itself and lengths stay
    in [int] ([expect_all]), the String objects hold what plain values would,
    and every buffer's count is the number of objects on it. Appending an object
    to itself is undefined ([self_append_is_undefined]). *)
Theorem strings_are_values {A : Allocator} (garbage : Z) (moves : bool) e cs sigma :
  never_fails A -> expect_all cs ∅ = Some sigma ->
  exists s, program garbage moves cs (before_main e) = Some (tt, s) /\
    (forall x, value_of s x = sigma !! x) /\
    (forall a, match s_heap s !! a with
               | Some b => mRefs b = users (s_vars s) a + one (EMPTY_STRING s) a /\ 0 < mRefs b
               | None => users (s_vars s) a = 0
               end).
Proof.
  intros HA H. destruct (wp_run _ _ _ (program_spec garbage moves HA e cs sigma H)) as ([] & s & Hs & I).
  exists s. split_and!; [done|intros x; by apply inv_value|]. intros a. pose proof (inv_all_refs _ _ I a) as Ha.
  unfold all_refs in Ha. pose proof (users_bound (s_vars s) a). destruct (s_heap s !! a) as [b|].
  - lia.
  - revert Ha. unfold one. case_decide; lia.
Qed.

(** Two objects share a buffer, one of them grows, and takes the other's value
    back by a move. *)
Lemma strings_are_values_witness :
  exists s, program (A := generous) 204 true
    [Make 0 (Some [97; 98]); MakeCopy 1 0; AppendChars 1 (Some [99]); Append 0 1; MakeMove 2 0; AssignMove 1 2]
    (before_main 1) = Some (tt, s) /\ value_of s 1 = Some (Some [97; 98; 97; 98; 99]) /\ value_of s 0 = Some None.
Proof.
  destruct (strings_are_values (A := generous) 204 true 1
    [Make 0 (Some [97; 98]); MakeCopy 1 0; AppendChars 1 (Some [99]); Append 0 1; MakeMove 2 0; AssignMove 1 2]
    (<[0%nat := None]> (<[1%nat := Some [97; 98; 97; 98; 99]]> (<[2%nat := None]> ∅))) generous_never_fails) as (s & Hs & Hv & _).
  - vm_compute. reflexivity.
  - exists s. split; [exact Hs|]. rewrite !Hv. split; reflexivity.
Defined.





(** Appending a string to itself. *)
Theorem self_append_is_undefined {A : Allocator} (garbage : Z) (moves : bool) e cs sigma x c b :
  never_fails A -> expect_all cs ∅ = Some sigma -> sigma !! x = Some (Some (c :: b)) ->
  (program garbage moves cs ;;; append garbage moves x x) (before_main e) = None.
Proof.
  intros HA H Hx. apply wp_undefined. eapply wp_mono; [by apply program_spec|]. intros [] s I. by eapply append_self.
Qed.

Lemma self_append_is_undefined_witness :
  (program (A := generous) 204 true [Make 0 (Some [97; 98])] ;;; append (A := generous) 204 true 0 0) (before_main 1) = None.
Proof.
  apply (self_append_is_undefined (A := generous) 204 true 1 [Make 0 (Some [97; 98])] {[ 0%nat := Some [97; 98] ]} 0 97 [98]).
  - exact generous_never_fails.
  - vm_compute. reflexivity.
  - reflexivity.
Defined.

End StringPrograms.
