(* ===== verification/CalendarDate.v ===== *)
(** * Calendar dates

    The mutable date object of [src/src/libcore/src/ccm/util/calendar/]:
    [CalendarDate] with the one-year cache of [BaseCalendar::Date], as the
    Gregorian calendar uses it.  Setters compare before they store and reset the
    normalized flag; two getters write too.  Eras and locales are left out; a
    time zone is what the code asks it: its offset at an instant and its raw
    offset. *)
From S2P Require Import Prelude.

Module CalendarDate.

Record TimeZone := { GetOffset : Z -> Z; GetRawOffset : Z }.

(** The fields, those of the cache last. *)
Record date := {
  mYear : Z;
  mMonth : Z;
  mDayOfMonth : Z;
  mDayOfWeek : Z;
  mLeapYear : bool;
  mHours : Z;
  mMinutes : Z;
  mSeconds : Z;
  mMillis : Z;
  mFraction : Z;
  mNormalized : bool;
  mZoneinfo : option TimeZone;
  mZoneOffset : Z;
  mDaylightSaving : Z;
  mForceStandardTime : bool;
  mCachedYear : Z;
  mCachedFixedDateJan1 : Z;
  mCachedFixedDateNextJan1 : Z
}.

Definition FIELD_UNDEFINED : Z := - 2 ^ 31.   (* IInteger::MIN_VALUE *)
Definition TIME_UNDEFINED : Z := - 2 ^ 63.    (* ILong::MIN_VALUE *)

(** [new Gregorian::Date()] with a zone. *)
Definition new (zone : option TimeZone) : date :=
  Build_date 0 0 0 0 false 0 0 0 0 0 false zone 0 0 false 2004 731581 (731581 + 366).

(** *** Stores *)

Definition put_Year (v : Z) : SE date unit :=
  modify (fun '(Build_date _ mo dom dow leap h mi s ms fr nm z zo ds st cy cj cn) => Build_date v mo dom dow leap h mi s ms fr nm z zo ds st cy cj cn).
Definition put_Month (v : Z) : SE date unit :=
  modify (fun '(Build_date y _ dom dow leap h mi s ms fr nm z zo ds st cy cj cn) => Build_date y v dom dow leap h mi s ms fr nm z zo ds st cy cj cn).
Definition put_DayOfMonth (v : Z) : SE date unit :=
  modify (fun '(Build_date y mo _ dow leap h mi s ms fr nm z zo ds st cy cj cn) => Build_date y mo v dow leap h mi s ms fr nm z zo ds st cy cj cn).
Definition put_DayOfWeek (v : Z) : SE date unit :=
  modify (fun '(Build_date y mo dom _ leap h mi s ms fr nm z zo ds st cy cj cn) => Build_date y mo dom v leap h mi s ms fr nm z zo ds st cy cj cn).
Definition put_LeapYear (v : bool) : SE date unit :=
  modify (fun '(Build_date y mo dom dow _ h mi s ms fr nm z zo ds st cy cj cn) => Build_date y mo dom dow v h mi s ms fr nm z zo ds st cy cj cn).
Definition put_Hours (v : Z) : SE date unit :=
  modify (fun '(Build_date y mo dom dow leap _ mi s ms fr nm z zo ds st cy cj cn) => Build_date y mo dom dow leap v mi s ms fr nm z zo ds st cy cj cn).
Definition put_Minutes (v : Z) : SE date unit :=
  modify (fun '(Build_date y mo dom dow leap h _ s ms fr nm z zo ds st cy cj cn) => Build_date y mo dom dow leap h v s ms fr nm z zo ds st cy cj cn).
Definition put_Seconds (v : Z) : SE date unit :=
  modify (fun '(Build_date y mo dom dow leap h mi _ ms fr nm z zo ds st cy cj cn) => Build_date y mo dom dow leap h mi v ms fr nm z zo ds st cy cj cn).
Definition put_Millis (v : Z) : SE date unit :=
  modify (fun '(Build_date y mo dom dow leap h mi s _ fr nm z zo ds st cy cj cn) => Build_date y mo dom dow leap h mi s v fr nm z zo ds st cy cj cn).
Definition put_Fraction (v : Z) : SE date unit :=
  modify (fun '(Build_date y mo dom dow leap h mi s ms _ nm z zo ds st cy cj cn) => Build_date y mo dom dow leap h mi s ms v nm z zo ds st cy cj cn).
Definition put_Normalized (v : bool) : SE date unit :=
  modify (fun '(Build_date y mo dom dow leap h mi s ms fr _ z zo ds st cy cj cn) => Build_date y mo dom dow leap h mi s ms fr v z zo ds st cy cj cn).
Definition put_Zoneinfo (v : option TimeZone) : SE date unit :=
  modify (fun '(Build_date y mo dom dow leap h mi s ms fr nm _ zo ds st cy cj cn) => Build_date y mo dom dow leap h mi s ms fr nm v zo ds st cy cj cn).
Definition put_ZoneOffset (v : Z) : SE date unit :=
  modify (fun '(Build_date y mo dom dow leap h mi s ms fr nm z _ ds st cy cj cn) => Build_date y mo dom dow leap h mi s ms fr nm z v ds st cy cj cn).
Definition put_DaylightSaving (v : Z) : SE date unit :=
  modify (fun '(Build_date y mo dom dow leap h mi s ms fr nm z zo _ st cy cj cn) => Build_date y mo dom dow leap h mi s ms fr nm z zo v st cy cj cn).
Definition put_ForceStandardTime (v : bool) : SE date unit :=
  modify (fun '(Build_date y mo dom dow leap h mi s ms fr nm z zo ds _ cy cj cn) => Build_date y mo dom dow leap h mi s ms fr nm z zo ds v cy cj cn).

(** *** Member functions *)

(** [if (field != v) { field = v; mNormalized = false; }] *)
Definition change (get : date -> Z) (put : Z -> SE date unit) (v : Z) : SE date unit :=
  old <- gets get ;;
  if negb (old =? v) then put v ;;; put_Normalized false else ret tt.

(** [if (n != 0) { field += n; mNormalized = false; }] *)
Definition increase (get : date -> Z) (put : Z -> SE date unit) (n : Z) : SE date unit :=
  if negb (n =? 0) then old <- gets get ;; v <- int (old + n) ;; put v ;;; put_Normalized false else ret tt.

Definition SetYear : Z -> SE date unit := change mYear put_Year.
Definition AddYear : Z -> SE date unit := increase mYear put_Year.
Definition SetMonth : Z -> SE date unit := change mMonth put_Month.
Definition AddMonth : Z -> SE date unit := increase mMonth put_Month.
Definition SetDayOfMonth : Z -> SE date unit := change mDayOfMonth put_DayOfMonth.
Definition AddDayOfMonth : Z -> SE date unit := increase mDayOfMonth put_DayOfMonth.
Definition SetHours : Z -> SE date unit := change mHours put_Hours.
Definition AddHours : Z -> SE date unit := increase mHours put_Hours.
Definition SetMinutes : Z -> SE date unit := change mMinutes put_Minutes.
Definition AddMinutes : Z -> SE date unit := increase mMinutes put_Minutes.
Definition SetSeconds : Z -> SE date unit := change mSeconds put_Seconds.
Definition AddSeconds : Z -> SE date unit := increase mSeconds put_Seconds.
Definition SetMillis : Z -> SE date unit := change mMillis put_Millis.
Definition AddMillis : Z -> SE date unit := increase mMillis put_Millis.

Definition SetLeapYear : bool -> SE date unit := put_LeapYear.
Definition SetDayOfWeek : Z -> SE date unit := put_DayOfWeek.
Definition SetNormalized : bool -> SE date unit := put_Normalized.
Definition SetStandardTime : bool -> SE date unit := put_ForceStandardTime.
Definition SetZone : option TimeZone -> SE date unit := put_Zoneinfo.
Definition SetZoneOffset : Z -> SE date unit := put_ZoneOffset.
Definition SetDaylightSaving : Z -> SE date unit := put_DaylightSaving.
Definition SetTimeOfDay_fraction : Z -> SE date unit := put_Fraction.

Definition GetDayOfWeek : SE date Z :=
  normalize <- gets mNormalized ;;
  (if negb normalize then put_DayOfWeek FIELD_UNDEFINED else ret tt) ;;;
  gets mDayOfWeek.

Definition GetTimeOfDay : SE date Z :=
  normalize <- gets mNormalized ;;
  (if negb normalize then put_Fraction TIME_UNDEFINED else ret tt) ;;;
  gets mFraction.

Definition IsDaylightTime (d : date) : bool := if mForceStandardTime d then false else negb (mDaylightSaving d =? 0).

Definition SetDate (year month dayOfMonth : Z) : SE date unit := SetYear year ;;; SetMonth month ;;; SetDayOfMonth dayOfMonth.
Definition AddDate (year month dayOfMonth : Z) : SE date unit := AddYear year ;;; AddMonth month ;;; AddDayOfMonth dayOfMonth.
Definition SetTimeOfDay (hours minutes seconds millis : Z) : SE date unit :=
  SetHours hours ;;; SetMinutes minutes ;;; SetSeconds seconds ;;; SetMillis millis.
Definition AddTimeOfDay (hours minutes seconds millis : Z) : SE date unit :=
  AddHours hours ;;; AddMinutes minutes ;;; AddSeconds seconds ;;; AddMillis millis.

(** *** The cache of [BaseCalendar::Date] *)

Definition Hit_year (year : Z) (d : date) : bool := year =? mCachedYear d.
Definition Hit (fixedDate : Z) (d : date) : bool :=
  (fixedDate >=? mCachedFixedDateJan1 d) && (fixedDate <? mCachedFixedDateNextJan1 d).
Definition GetCachedYear : date -> Z := mCachedYear.
Definition GetCachedJan1 : date -> Z := mCachedFixedDateJan1.

Definition SetCache (year jan1 len : Z) : SE date unit :=
  next <- long (jan1 + len) ;;
  modify (fun '(Build_date y mo dom dow leap h mi s ms fr nm z zo ds st _ _ _) =>
            Build_date y mo dom dow leap h mi s ms fr nm z zo ds st year jan1 next).

End CalendarDate.
