(* ===== verification/BaseCalendar.v ===== *)
(** * The Gregorian calendar

    [CalendarUtils], [BaseCalendar], [AbstractCalendar] and [Gregorian] of
    [src/src/libcore/src/ccm/util/calendar/] on the date objects of
    [CalendarDate].  [None] is an overflowing sum, an index outside a table or a
    failed CHECK. *)
From S2P Require Import Prelude.
From S2P Require Import CalendarDate.

Module CalendarUtils.

Definition IsGregorianLeapYear (gregorianYear : Z) : bool :=
  (Z.rem gregorianYear 4 =? 0) && (negb (Z.rem gregorianYear 100 =? 0) || (Z.rem gregorianYear 400 =? 0)).

(** [int] and [long] alike: no step overflows for a divisor above 1. *)
Definition FloorDivide (n d : Z) : Z := if n >=? 0 then Z.quot n d else Z.quot (n + 1) d - 1.
Definition Mod (x y : Z) : Z := x - y * FloorDivide x y.

End CalendarUtils.

Module BaseCalendar.
Import CalendarDate.
Import CalendarUtils.

(** ** BaseCalendar *)

Definition JANUARY : Z := 1.
Definition FEBRUARY : Z := 2.
Definition MARCH : Z := 3.
Definition DECEMBER : Z := 12.
Definition SUNDAY : Z := 1.

Definition DAYS_IN_MONTH : list Z := [31; 31; 28; 31; 30; 31; 30; 31; 31; 30; 31; 30; 31].
Definition ACCUMULATED_DAYS_IN_MONTH : list Z := [-30; 0; 31; 59; 90; 120; 151; 181; 212; 243; 273; 304; 334].
Definition ACCUMULATED_DAYS_IN_MONTH_LEAP : list Z :=
  [-30; 0; 31; 59+1; 90+1; 120+1; 151+1; 181+1; 212+1; 243+1; 273+1; 304+1; 334+1].

Definition BASE_YEAR : Z := 1970.

(** January 1 of 1970 to 2039. *)
Definition FIXED_DATES : list Z :=
  [719163; 719528; 719893; 720259; 720624; 720989; 721354; 721720; 722085; 722450;
   722815; 723181; 723546; 723911; 724276; 724642; 725007; 725372; 725737; 726103;
   726468; 726833; 727198; 727564; 727929; 728294; 728659; 729025; 729390; 729755;
   730120; 730486; 730851; 731216; 731581; 731947; 732312; 732677; 733042; 733408;
   733773; 734138; 734503; 734869; 735234; 735599; 735964; 736330; 736695; 737060;
   737425; 737791; 738156; 738521; 738886; 739252; 739617; 739982; 740347; 740713;
   741078; 741443; 741808; 742174; 742539; 742904; 743269; 743635; 744000; 744365].

(** [table[i]] *)
Definition at_index {S} (table : list Z) (i : Z) : SE S Z :=
  if i <? 0 then undefined else match table !! Z.to_nat i with Some v => ret v | None => undefined end.

Definition IsLeapYear (normalizedYear : Z) : bool := IsGregorianLeapYear normalizedYear.

Definition GetMonthLength_of {S} (year month : Z) : SE S Z :=
  days <- at_index DAYS_IN_MONTH month ;;
  ret (if (month =? FEBRUARY) && IsLeapYear year then days + 1 else days).

Definition GetDayOfYear_of {S} (year month dayOfMonth : Z) : SE S Z :=
  acc <- at_index (if IsLeapYear year then ACCUMULATED_DAYS_IN_MONTH_LEAP else ACCUMULATED_DAYS_IN_MONTH) month ;;
  int (dayOfMonth + acc).

Definition year_length (year : Z) : Z := if IsLeapYear year then 366 else 365.

(** [jan1 + GetDayOfYear(year, month, dayOfMonth) - 1], or [jan1] itself. *)
Definition day_after {S} (jan1 year month dayOfMonth : Z) (isJan1 : bool) : SE S Z :=
  if isJan1 then ret jan1
  else doy <- GetDayOfYear_of year month dayOfMonth ;; a <- long (jan1 + doy) ;; long (a - 1).

(** The formula for years outside the table. *)
Definition fixed_date_formula {S} (year month dayOfMonth : Z) : SE S Z :=
  let prevyear := year - 1 in
  m <- int (367 * month) ;; m <- int (m - 362) ;;
  let days :=
    if prevyear >=? 0 then
      dayOfMonth + (365 * prevyear + Z.quot prevyear 4 - Z.quot prevyear 100 + Z.quot prevyear 400 + Z.quot m 12)
    else
      dayOfMonth + (365 * prevyear + FloorDivide prevyear 4 - FloorDivide prevyear 100 + FloorDivide prevyear 400 +
                    FloorDivide m 12) in
  ret (if month >? FEBRUARY then days - (if IsLeapYear year then 1 else 2) else days).

(** [GetFixedDate(year, month, dayOfMonth, date)]; without [cache] the date
    passed is null. *)
Definition GetFixedDate_of (year month dayOfMonth : Z) (cache : bool) : SE date Z :=
  let isJan1 := (month =? JANUARY) && (dayOfMonth =? 1) in
  hit <- gets (fun d => cache && Hit_year year d) ;;
  if hit : bool then
    jan1 <- gets GetCachedJan1 ;; day_after jan1 year month dayOfMonth isJan1
  else
    n <- int (year - BASE_YEAR) ;;
    match (if n <? 0 then None else FIXED_DATES !! Z.to_nat n) with
    | Some jan1 =>
      (if cache then SetCache year jan1 (year_length year) else ret tt) ;;;
      day_after jan1 year month dayOfMonth isJan1
    | None =>
      days <- fixed_date_formula year month dayOfMonth ;;
      (if cache && isJan1 then SetCache year days (year_length year) else ret tt) ;;;
      ret days
    end.

Definition GetDayOfWeekFromFixedDate (fixedDate : Z) : Z :=
  if fixedDate >=? 0 then i32 (Z.rem fixedDate 7) + SUNDAY else i32 (Mod fixedDate 7) + SUNDAY.

(** The year from the four quotients. *)
Definition year_of {S} (n400 n100 n4 n1 : Z) : SE S Z :=
  a <- int (400 * n400) ;; b <- int (100 * n100) ;; c <- int (4 * n4) ;;
  s <- int (a + b) ;; s <- int (s + c) ;; year <- int (s + n1) ;;
  if negb ((n100 =? 4) || (n1 =? 4)) then int (year + 1) else ret year.

Definition GetGregorianYearFromFixedDate {S} (fixedDate : Z) : SE S Z :=
  d0 <- long (fixedDate - 1) ;;
  if fixedDate >? 0 then
    let n400 := i32 (Z.quot d0 146097) in let d1 := i32 (Z.rem d0 146097) in
    let n100 := Z.quot d1 36524 in let d2 := Z.rem d1 36524 in
    let n4 := Z.quot d2 1461 in let d3 := Z.rem d2 1461 in
    year_of n400 n100 n4 (Z.quot d3 365)
  else
    let n400 := i32 (FloorDivide d0 146097) in let d1 := i32 (Mod d0 146097) in
    let n100 := FloorDivide d1 36524 in let d2 := Mod d1 36524 in
    let n4 := FloorDivide d2 1461 in let d3 := Mod d2 1461 in
    year_of n400 n100 n4 (FloorDivide d3 365).

(** The month of a day of a year that starts with [jan1]. *)
Definition month_of {S} (fixedDate jan1 : Z) (isLeap : bool) : SE S Z :=
  let priorDays := i32 (fixedDate - jan1) in
  let mar1 := jan1 + 31 + 28 + (if isLeap then 1 else 0) in
  priorDays <- int (if fixedDate >=? mar1 then priorDays + (if isLeap then 1 else 2) else priorDays) ;;
  month <- int (12 * priorDays) ;; month <- int (month + 373) ;;
  ret (if month >? 0 then Z.quot month 367 else FloorDivide month 367).

Definition GetCalendarDateFromFixedDate (fixedDate : Z) : SE date unit :=
  hit <- gets (Hit fixedDate) ;;
  yj <- (if hit : bool then year <- gets GetCachedYear ;; jan1 <- gets GetCachedJan1 ;; ret (year, jan1)
         else
           year <- GetGregorianYearFromFixedDate fixedDate ;;
           jan1 <- GetFixedDate_of year JANUARY 1 false ;;
           SetCache year jan1 (year_length year) ;;; ret (year, jan1)) ;;
  let '(year, jan1) := yj in
  let isLeap := IsLeapYear year in
  month <- month_of fixedDate jan1 isLeap ;;
  acc <- at_index ACCUMULATED_DAYS_IN_MONTH month ;;
  let month1 := jan1 + acc + (if isLeap && (month >=? MARCH) then 1 else 0) in
  dayOfMonth <- int (i32 (fixedDate - month1) + 1) ;;
  let dayOfWeek := GetDayOfWeekFromFixedDate fixedDate in
  if dayOfWeek >? 0 then
    SetYear year ;;; SetMonth month ;;; SetDayOfMonth dayOfMonth ;;; SetDayOfWeek dayOfWeek ;;;
    SetLeapYear isLeap ;;; SetNormalized true
  else undefined.

Definition NormalizeMonth : SE date unit :=
  year <- gets mYear ;; month <- gets mMonth ;;
  if month <=? 0 then
    let xm := 1 - month in
    year <- int (year - i32 (Z.quot xm 12 + 1)) ;;
    SetYear year ;;; SetMonth (13 - i32 (Z.rem xm 12))
  else if month >? DECEMBER then
    year <- int (year + Z.quot (month - 1) 12) ;;
    SetYear year ;;; SetMonth (Z.rem (month - 1) 12 + 1)
  else ret tt.

Definition GetFixedDate : SE date Z :=
  normalized <- gets mNormalized ;;
  (if negb normalized then NormalizeMonth else ret tt) ;;;
  y <- gets mYear ;; m <- gets mMonth ;; dom <- gets mDayOfMonth ;; GetFixedDate_of y m dom true.

Definition GetDayOfWeek : SE date Z := fixedDate <- GetFixedDate ;; ret (GetDayOfWeekFromFixedDate fixedDate).

Definition GetYearLength (d : date) : Z := year_length (mYear d).

Definition E_ILLEGAL_ARGUMENT_EXCEPTION : Z := i32 (Z.lor (Z.shiftl 1 31) 0x02).

(** The month's length, or the error code. *)
Definition GetMonthLength : SE date (Z + Z) :=
  month <- gets mMonth ;;
  if (month <? JANUARY) || (month >? DECEMBER) then ret (inr E_ILLEGAL_ARGUMENT_EXCEPTION)
  else year <- gets mYear ;; days <- GetMonthLength_of year month ;; ret (inl days).

Definition GetDayOfYear : SE date Z :=
  y <- gets mYear ;; m <- gets mMonth ;; dom <- gets mDayOfMonth ;; GetDayOfYear_of y m dom.

(** ** AbstractCalendar *)

Definition SECOND_IN_MILLIS : Z := 1000.
Definition MINUTE_IN_MILLIS : Z := SECOND_IN_MILLIS * 60.
Definition HOUR_IN_MILLIS : Z := MINUTE_IN_MILLIS * 60.
Definition DAY_IN_MILLIS : Z := HOUR_IN_MILLIS * 24.
Definition EPOCH_OFFSET : Z := 719163.

(** [SetTimeOfDay(date, timeOfDay)]; an error code or 0. *)
Definition SetTimeOfDay (timeOfDay : Z) : SE date Z :=
  if timeOfDay <? 0 then ret E_ILLEGAL_ARGUMENT_EXCEPTION
  else
    normalizedState <- gets mNormalized ;;
    let hours := Z.quot timeOfDay HOUR_IN_MILLIS in let time := Z.rem timeOfDay HOUR_IN_MILLIS in
    let minutes := Z.quot time MINUTE_IN_MILLIS in let time := Z.rem time MINUTE_IN_MILLIS in
    let seconds := Z.quot time SECOND_IN_MILLIS in let time := Z.rem time SECOND_IN_MILLIS in
    SetHours hours ;;; SetMinutes minutes ;;; SetSeconds seconds ;;; SetMillis time ;;;
    SetTimeOfDay_fraction timeOfDay ;;;
    (if (hours <? 24) && normalizedState then SetNormalized normalizedState else ret tt) ;;;
    ret 0.

(** [while (ms < 0) { ms += DAY_IN_MILLIS; --days; }]; twice at most. *)
Fixpoint borrow_days (fuel : nat) (days ms : Z) : option (Z * Z) :=
  if ms <? 0 then
    match fuel with O => None | S fuel => borrow_days fuel (days - 1) (ms + DAY_IN_MILLIS) end
  else Some (days, ms).

(** [GetCalendarDate(millis, date)] *)
Definition GetCalendarDate (millis : Z) : SE date unit :=
  zi <- gets mZoneinfo ;;
  let zoneOffset := match zi with Some zi => GetOffset zi millis | None => 0 end in
  saving <- (match zi with Some zi => int (zoneOffset - GetRawOffset zi) | None => ret 0 end) ;;
  let days := Z.quot zoneOffset DAY_IN_MILLIS in
  let ms := Z.rem zoneOffset DAY_IN_MILLIS in
  SetZoneOffset zoneOffset ;;; SetDaylightSaving saving ;;;
  let days := days + Z.quot millis DAY_IN_MILLIS in
  let ms := ms + Z.rem millis DAY_IN_MILLIS in
  dm <- (if ms >=? DAY_IN_MILLIS then ret (days + 1, ms - DAY_IN_MILLIS)
         else match borrow_days 3 days ms with Some dm => ret dm | None => undefined end) ;;
  let '(days, ms) := dm in
  GetCalendarDateFromFixedDate (days + EPOCH_OFFSET) ;;;
  SetTimeOfDay ms ;;;
  year <- gets mYear ;;
  SetLeapYear (IsLeapYear year) ;;; SetNormalized true.

Definition GetTimeOfDayValue : SE date Z :=
  h <- gets mHours ;; fraction <- int (h * 60) ;;
  m <- gets mMinutes ;; a <- long (fraction + m) ;; fraction <- long (a * 60) ;;
  s <- gets mSeconds ;; a <- long (fraction + s) ;; fraction <- long (a * 1000) ;;
  ms <- gets mMillis ;; long (fraction + ms).

Definition GetTimeOfDay : SE date Z :=
  fraction <- CalendarDate.GetTimeOfDay ;;
  if negb (fraction =? TIME_UNDEFINED) then ret fraction
  else fraction <- GetTimeOfDayValue ;; SetTimeOfDay_fraction fraction ;;; ret fraction.

(** The milliseconds since the epoch; normalizes the date. *)
Definition GetTime : SE date Z :=
  gd <- GetFixedDate ;;
  days <- long (gd - EPOCH_OFFSET) ;; ms <- long (days * DAY_IN_MILLIS) ;;
  tod <- GetTimeOfDay ;; ms <- long (ms + tod) ;;
  zi <- gets mZoneinfo ;;
  match zi with
  | None => GetCalendarDate ms ;;; ret ms
  | Some zi =>
    normalized <- gets mNormalized ;;
    if normalized : bool then zoneOffset <- gets mZoneOffset ;; long (ms - zoneOffset)
    else
      at_ <- long (ms - GetRawOffset zi) ;;
      ms <- long (ms - GetOffset zi at_) ;;
      GetCalendarDate ms ;;; ret ms
  end.

Definition ValidateTime (d : date) : bool :=
  let inside t n := negb ((t <? 0) || (t >=? n)) in
  inside (mHours d) 24 && inside (mMinutes d) 60 && inside (mSeconds d) 60 && inside (mMillis d) 1000.

(** The days the time of day carries over. *)
Definition NormalizeTime : SE date Z :=
  fraction <- GetTimeOfDay ;;
  let days :=
    if fraction >=? DAY_IN_MILLIS then Z.quot fraction DAY_IN_MILLIS
    else if fraction <? 0 then FloorDivide fraction DAY_IN_MILLIS else 0 in
  let fraction :=
    if fraction >=? DAY_IN_MILLIS then Z.rem fraction DAY_IN_MILLIS
    else if negb (days =? 0) then fraction - DAY_IN_MILLIS * days else fraction in
  (if negb (days =? 0) then SetTimeOfDay_fraction fraction else ret tt) ;;;
  SetMillis (i32 (Z.rem fraction 1000)) ;;;
  let fraction := Z.quot fraction 1000 in
  SetSeconds (i32 (Z.rem fraction 60)) ;;;
  let fraction := Z.quot fraction 60 in
  SetMinutes (i32 (Z.rem fraction 60)) ;;;
  SetHours (i32 (Z.quot fraction 60)) ;;;
  ret (i32 days).

Definition GetDayOfWeekDateOnOrBefore {S} (fixedDate dayOfWeek : Z) : SE S Z :=
  n <- int (dayOfWeek - 1) ;; fd <- long (fixedDate - n) ;;
  if fd >=? 0 then long (fixedDate - Z.rem fd 7) else long (fixedDate - Mod fd 7).

Definition GetDayOfWeekDateBefore {S} (fixedDate dayOfWeek : Z) : SE S Z :=
  f <- long (fixedDate - 1) ;; GetDayOfWeekDateOnOrBefore f dayOfWeek.
Definition GetDayOfWeekDateAfter {S} (fixedDate dayOfWeek : Z) : SE S Z :=
  f <- long (fixedDate + 7) ;; GetDayOfWeekDateOnOrBefore f dayOfWeek.

(** ** Validation and normalization *)

Definition Validate : SE date bool :=
  normalized <- gets mNormalized ;;
  if normalized : bool then ret true
  else
    month <- gets mMonth ;;
    if (month <? JANUARY) || (month >? DECEMBER) then ret false
    else
      d <- gets mDayOfMonth ;;
      if d <=? 0 then ret false
      else
        normalizedYear <- gets mYear ;;
        len <- GetMonthLength_of normalizedYear month ;;
        if d >? len then ret false
        else
          bdow <- CalendarDate.GetDayOfWeek ;;
          wrong <- (if negb (bdow =? FIELD_UNDEFINED) then dow <- GetDayOfWeek ;; ret (negb (bdow =? dow)) else ret false) ;;
          if wrong : bool then ret false
          else
            valid <- gets ValidateTime ;;
            if negb valid then ret false else SetNormalized true ;;; ret true.

(** The day [d] of month [m] of year [y], which [d] need not be in. *)
Definition carry_days (y m d ml : Z) : SE date unit :=
  if (d <=? 0) && (d >? -28) then
    let m := m - 1 in
    ml <- GetMonthLength_of y m ;;
    SetDayOfMonth (i32 (d + ml)) ;;;
    (if m =? 0 then y' <- int (y - 1) ;; SetYear y' else ret tt) ;;;
    SetMonth (if m =? 0 then DECEMBER else m)
  else if (d >? ml) && (d <? ml + 28) then
    let m := m + 1 in
    SetDayOfMonth (i32 (d - ml)) ;;;
    (if m >? DECEMBER then y' <- int (y + 1) ;; SetYear y' else ret tt) ;;;
    SetMonth (if m >? DECEMBER then JANUARY else m)
  else
    fixedDate <- GetFixedDate_of y m 1 true ;;
    fixedDate <- long (d + fixedDate - 1) ;;
    GetCalendarDateFromFixedDate fixedDate.

Definition Normalize : SE date bool :=
  normalized <- gets mNormalized ;;
  if normalized : bool then ret true
  else
    zi <- gets mZoneinfo ;;
    match zi with
    | Some _ => GetTime ;;; ret true
    | None =>
      days <- NormalizeTime ;;
      NormalizeMonth ;;;
      dom <- gets mDayOfMonth ;; d <- int (dom + days) ;;
      m <- gets mMonth ;; y <- gets mYear ;;
      ml <- GetMonthLength_of y m ;;
      (if negb ((d >? 0) && (d <=? ml)) then carry_days y m d ml
       else dow <- GetDayOfWeek ;; SetDayOfWeek dow) ;;;
      y <- gets mYear ;;
      SetLeapYear (IsLeapYear y) ;;; SetZoneOffset 0 ;;; SetDaylightSaving 0 ;;; SetNormalized true ;;; ret true
    end.

(** [GetNthDayOfWeek]: what becomes of the clone of [inDate]. *)
Definition GetNthDayOfWeek (nth dayOfWeek : Z) : SE date unit :=
  Normalize ;;;
  fd <- GetFixedDate ;;
  n <- int (7 * nth) ;;
  f <- (if nth >? 0 then GetDayOfWeekDateBefore fd dayOfWeek else GetDayOfWeekDateAfter fd dayOfWeek) ;;
  nfd <- long (n + f) ;;
  GetCalendarDateFromFixedDate nfd.

End BaseCalendar.
