(* ===== verification/CalendarProofs.v ===== *)
(** * Dates are counted right

    The Gregorian calendar against the plain rule of what day follows another:
    fixed dates count days, dates and instants come back from them, whatever the
    one-year cache holds; and what normalization gets wrong. *)
From S2P Require Import Prelude.
From S2P Require Import CalendarDate.
From S2P Require Import BaseCalendar.

Module CalendarProofs.
Import CalendarDate.
Import CalendarUtils.
Import BaseCalendar.

(** ** Arithmetic *)

Lemma FloorDivide_div n d : 0 < d -> FloorDivide n d = n / d.
Proof.
  intros Hd. unfold FloorDivide. rewrite Z.geb_leb. destruct (Z.leb_spec 0 n).
  - by apply Z.quot_div_nonneg.
  - pose proof (Z.quot_div_nonneg (- (n + 1)) d ltac:(lia) Hd) as Hq.
    rewrite Z.quot_opp_l in Hq by lia. pose proof (Z.div_mod (- (n + 1)) d ltac:(lia)).
    pose proof (Z.mod_pos_bound (- (n + 1)) d Hd).
    apply (Z.div_unique_pos n d _ (d - 1 - (- (n + 1)) mod d)); lia.
Qed.

Lemma Mod_mod n d : 0 < d -> Mod n d = n mod d.
Proof. intros Hd. unfold Mod. rewrite FloorDivide_div by done. pose proof (Z.div_mod n d). lia. Qed.

Lemma rem_zero a b : 0 < b -> (Z.rem a b =? 0) = (a mod b =? 0).
Proof.
  intros Hb. apply eq_true_iff_eq. rewrite !Z.eqb_eq, Z.rem_divide, Z.mod_divide by lia. done.
Qed.

Definition leap (y : Z) : bool := (y mod 4 =? 0) && (negb (y mod 100 =? 0) || (y mod 400 =? 0)).

Lemma IsLeapYear_leap y : IsLeapYear y = leap y.
Proof. unfold IsLeapYear, IsGregorianLeapYear, leap. by rewrite !rem_zero by lia. Qed.

Lemma year_length_leap y : year_length y = if leap y then 366 else 365.
Proof. unfold year_length. by rewrite IsLeapYear_leap. Qed.

(** ** The calendar itself *)

Definition month_length (y m : Z) : Z :=
  if m =? 2 then (if leap y then 29 else 28)
  else if (m =? 4) || (m =? 6) || (m =? 9) || (m =? 11) then 30 else 31.

Definition valid (y m d : Z) : Prop := 1 <= m <= 12 /\ 1 <= d <= month_length y m.

(** The day after. *)
Definition next_day (y m d : Z) : Z * Z * Z :=
  if d <? month_length y m then (y, m, d + 1)
  else if m <? 12 then (y, m + 1, 1)
  else (y + 1, 1, 1).

(** Years [int] arithmetic can go through. *)
Definition year_ok (y : Z) : Prop := -2147000000 <= y <= 2147000000.

(** *** The number of a day, in closed form *)
Definition jan1_of (y : Z) : Z := 365 * (y - 1) + (y - 1) / 4 - (y - 1) / 100 + (y - 1) / 400 + 1.

Definition before_month (y m : Z) : Z :=
  (367 * m - 362) / 12 - (if m >? 2 then (if leap y then 1 else 2) else 0).

Definition day_number (y m d : Z) : Z := jan1_of y + before_month y m + d - 1.

(** A case for each month. *)
Ltac months m :=
  let H := fresh in
  assert (m = 1 \/ m = 2 \/ m = 3 \/ m = 4 \/ m = 5 \/ m = 6 \/ m = 7 \/ m = 8 \/ m = 9 \/ m = 10 \/ m = 11 \/ m = 12) as H by lia;
  destruct H as [->|[->|[->|[->|[->|[->|[->|[->|[->|[->|[->| ->]]]]]]]]]]].

(** The quotients of a year before. *)
Lemma leap_split y : exists a b c e, y - 1 = 400 * a + 100 * b + 4 * c + e /\
  0 <= b < 4 /\ 0 <= c < 25 /\ 0 <= e < 4 /\
  leap y = (e =? 3) && (negb (c =? 24) || (b =? 3)).
Proof.
  set (p := y - 1). exists (p / 400), (p mod 400 / 100), (p mod 100 / 4), (p mod 4).
  assert (p mod 400 = 100 * (p mod 400 / 100) + p mod 100) as H400.
  { pose proof (Z.div_mod (p mod 400) 100 ltac:(lia)) as H.
    rewrite <- (Z.mod_mod_divide p 400 100) by (by exists 4). lia. }
  assert (p mod 100 = 4 * (p mod 100 / 4) + p mod 4) as H100.
  { pose proof (Z.div_mod (p mod 100) 4 ltac:(lia)) as H.
    rewrite <- (Z.mod_mod_divide p 100 4) by (by exists 25). lia. }
  pose proof (Z.div_mod p 400 ltac:(lia)) as Hp.
  pose proof (Z.mod_pos_bound p 400 ltac:(lia)). pose proof (Z.mod_pos_bound p 100 ltac:(lia)).
  pose proof (Z.mod_pos_bound p 4 ltac:(lia)).
  set (a := p / 400) in *. set (b := p mod 400 / 100) in *. set (c := p mod 100 / 4) in *. set (e := p mod 4) in *.
  split_and!; [lia..|].
  assert (y = (100 * a + 25 * b + c) * 4 + (e + 1)) as Hy4 by lia.
  assert (y = (4 * a + b) * 100 + (4 * c + e + 1)) as Hy100 by lia.
  assert (y = a * 400 + (100 * b + 4 * c + e + 1)) as Hy400 by lia.
  unfold leap.
  assert ((y mod 4 =? 0) = (e =? 3)) as ->.
  { rewrite Hy4, Z.add_comm, Z_mod_plus_full. apply eq_true_iff_eq. rewrite !Z.eqb_eq.
    assert (e = 0 \/ e = 1 \/ e = 2 \/ e = 3) as [->|[->|[->| ->]]] by lia; vm_compute; intuition congruence. }
  destruct (Z.eqb_spec e 3) as [->|]; [|done]. cbn [andb].
  assert ((y mod 100 =? 0) = (c =? 24)) as ->.
  { rewrite Hy100, Z.add_comm, Z_mod_plus_full. apply eq_true_iff_eq. rewrite !Z.eqb_eq.
    destruct (decide (c = 24)) as [->|Hne]; [done|]. rewrite Z.mod_small by lia. lia. }
  destruct (Z.eqb_spec c 24) as [->|]; [|done]. cbn [negb orb].
  rewrite Hy400, Z.add_comm, Z_mod_plus_full. apply eq_true_iff_eq. rewrite !Z.eqb_eq.
  destruct (decide (b = 3)) as [->|Hne]; [done|]. rewrite Z.mod_small by lia. lia.
Qed.

Lemma div_split a b c e : 0 <= b < 4 -> 0 <= c < 25 -> 0 <= e < 4 -> let p := 400 * a + 100 * b + 4 * c + e in
  p / 4 = 100 * a + 25 * b + c /\ p / 100 = 4 * a + b /\ p / 400 = a.
Proof.
  intros Hb Hc He p. split_and!.
  - symmetry. apply (Z.div_unique_pos p 4 _ e); lia.
  - symmetry. apply (Z.div_unique_pos p 100 _ (4 * c + e)); lia.
  - symmetry. apply (Z.div_unique_pos p 400 _ (100 * b + 4 * c + e)); lia.
Qed.

(** January 1 in days of 400, 100, 4 and 1 years. *)
Lemma jan1_split y a b c e : y - 1 = 400 * a + 100 * b + 4 * c + e -> 0 <= b < 4 -> 0 <= c < 25 -> 0 <= e < 4 ->
  jan1_of y = 146097 * a + 36524 * b + 1461 * c + 365 * e + 1.
Proof.
  intros Hy Hb Hc He. unfold jan1_of. rewrite Hy. destruct (div_split a b c e Hb Hc He) as (-> & -> & ->). lia.
Qed.

Lemma jan1_next y : jan1_of (y + 1) = jan1_of y + (if leap y then 366 else 365).
Proof.
  destruct (leap_split y) as (a & b & c & e & Hy & Hb & Hc & He & ->). rewrite (jan1_split y a b c e) by done.
  destruct (decide (e = 3)) as [->|He3].
  - destruct (decide (c = 24)) as [->|Hc24].
    + destruct (decide (b = 3)) as [->|Hb3].
      * rewrite (jan1_split (y + 1) (a + 1) 0 0 0) by lia. cbn. lia.
      * rewrite (jan1_split (y + 1) a (b + 1) 0 0) by lia. rewrite (proj2 (Z.eqb_neq b 3) Hb3). cbn. lia.
    + rewrite (jan1_split (y + 1) a b (c + 1) 0) by lia. rewrite (proj2 (Z.eqb_neq c 24) Hc24). cbn. lia.
  - rewrite (jan1_split (y + 1) a b c (e + 1)) by lia. rewrite (proj2 (Z.eqb_neq e 3) He3). cbn. lia.
Qed.

Lemma before_month_bound y m : 1 <= m <= 12 ->
  0 <= before_month y m /\ before_month y m + month_length y m <= (if leap y then 366 else 365).
Proof. intros Hm. unfold before_month, month_length. months m; destruct (leap y); vm_compute; split; discriminate. Qed.

Lemma before_month_next y m : 1 <= m < 12 -> before_month y (m + 1) = before_month y m + month_length y m.
Proof.
  intros Hm. unfold before_month, month_length.
  assert (m = 1 \/ m = 2 \/ m = 3 \/ m = 4 \/ m = 5 \/ m = 6 \/ m = 7 \/ m = 8 \/ m = 9 \/ m = 10 \/ m = 11) as Hc by lia.
  destruct Hc as [->|[->|[->|[->|[->|[->|[->|[->|[->|[->| ->]]]]]]]]]]; destruct (leap y); reflexivity.
Qed.

Lemma before_month_first y : before_month y 1 = 0.
Proof. reflexivity. Qed.

Lemma before_month_last y : before_month y 12 + month_length y 12 = if leap y then 366 else 365.
Proof. unfold before_month, month_length. by destruct (leap y). Qed.

(** A valid day lies in its year. *)
Lemma day_in_year y m d : valid y m d -> jan1_of y <= day_number y m d < jan1_of (y + 1).
Proof.
  intros [Hm Hd]. rewrite jan1_next. unfold day_number. pose proof (before_month_bound y m Hm). lia.
Qed.

(** The next day has the next number. *)
Lemma day_number_next y m d : valid y m d ->
  let '(y', m', d') := next_day y m d in valid y' m' d' /\ day_number y' m' d' = day_number y m d + 1.
Proof.
  intros [Hm Hd]. unfold next_day. destruct (Z.ltb_spec d (month_length y m)).
  - split; [split; lia|]. unfold day_number. lia.
  - assert (d = month_length y m) as -> by lia. destruct (Z.ltb_spec m 12).
    + split; [split; [lia|]|].
      * split; [lia|]. unfold month_length. repeat case_match; lia.
      * unfold day_number. rewrite before_month_next by lia. lia.
    + assert (m = 12) as -> by lia. split; [split; [lia|unfold month_length; cbn; lia]|].
      unfold day_number. rewrite jan1_next, before_month_first. pose proof (before_month_last y). lia.
Qed.


(** ** The code's numbers *)

Lemma GetMonthLength_of_spec {S} y m (Q : Z -> S -> Prop) s : 1 <= m <= 12 -> Q (month_length y m) s -> wp (GetMonthLength_of y m) Q s.
Proof.
  intros Hm HQ. unfold GetMonthLength_of, month_length in *. rewrite IsLeapYear_leap.
  months m; cbn in HQ |- *; destruct (leap y); exact HQ.
Qed.

Lemma month_length_bound y m : 28 <= month_length y m <= 31.
Proof. unfold month_length. repeat case_match; lia. Qed.

(** The tables of days before a month. *)
Lemma accumulated_days {S} y m (Q : Z -> S -> Prop) s : 1 <= m <= 12 -> Q (before_month y m) s ->
  wp (at_index (if leap y then ACCUMULATED_DAYS_IN_MONTH_LEAP else ACCUMULATED_DAYS_IN_MONTH) m) Q s.
Proof. intros Hm HQ. unfold before_month in HQ. months m; destruct (leap y); exact HQ. Qed.

Lemma GetDayOfYear_of_spec {S} y m d (Q : Z -> S -> Prop) s : valid y m d ->
  Q (before_month y m + d) s -> wp (GetDayOfYear_of y m d) Q s.
Proof.
  intros [Hm Hd] HQ. unfold GetDayOfYear_of. rewrite IsLeapYear_leap. apply wp_bind, accumulated_days; [done|].
  pose proof (before_month_bound y m Hm). pose proof (month_length_bound y m).
  rewrite Z.add_comm. apply wp_int; [destruct (leap y); lia|done].
Qed.

Lemma jan1_range y : year_ok y -> -785000000000 <= jan1_of y <= 785000000000.
Proof.
  intros Hy. unfold year_ok in Hy. unfold jan1_of.
  pose proof (Z.div_mod (y - 1) 4 ltac:(lia)). pose proof (Z.mod_pos_bound (y - 1) 4 ltac:(lia)).
  pose proof (Z.div_mod (y - 1) 100 ltac:(lia)). pose proof (Z.mod_pos_bound (y - 1) 100 ltac:(lia)).
  pose proof (Z.div_mod (y - 1) 400 ltac:(lia)). pose proof (Z.mod_pos_bound (y - 1) 400 ltac:(lia)). lia.
Qed.

Lemma day_after_spec {S} y m d isJan1 (Q : Z -> S -> Prop) s : valid y m d -> year_ok y ->
  isJan1 = (m =? 1) && (d =? 1) -> Q (day_number y m d) s -> wp (day_after (jan1_of y) y m d isJan1) Q s.
Proof.
  intros Hv Hy -> HQ. pose proof (jan1_range y Hy) as Hj. pose proof (day_in_year y m d Hv) as Hday. rewrite jan1_next in Hday.
  unfold day_after. destruct ((m =? 1) && (d =? 1)) eqn:E.
  - apply andb_true_iff in E as [Em Ed]. apply Z.eqb_eq in Em, Ed. subst. apply wp_ret.
    unfold day_number in HQ. rewrite before_month_first in HQ. by replace (jan1_of y + 0 + 1 - 1) with (jan1_of y) in HQ by lia.
  - apply wp_bind, GetDayOfYear_of_spec; [done|]. unfold day_number in *. rewrite Z.add_assoc.
    apply wp_bind, wp_long; [destruct (leap y); lia|]. apply wp_long; [destruct (leap y); lia|]. exact HQ.
Qed.

(** The table has January 1 of each of its years. *)
Lemma table_jan1 n j : 0 <= n -> FIXED_DATES !! Z.to_nat n = Some j -> j = jan1_of (BASE_YEAR + n).
Proof.
  intros Hn Hj.
  assert (FIXED_DATES = (fun i => jan1_of (BASE_YEAR + Z.of_nat i)) <$> seq 0 70) as Ht by (vm_compute; reflexivity).
  rewrite Ht, list_lookup_fmap in Hj. destruct (seq 0 70 !! Z.to_nat n) as [i|] eqn:E; [|done].
  apply lookup_seq in E as [-> _]. cbn in Hj. injection Hj as <-. f_equal. lia.
Qed.

Lemma fixed_date_formula_spec {S} y m d (Q : Z -> S -> Prop) s : valid y m d ->
  Q (day_number y m d) s -> wp (fixed_date_formula y m d) Q s.
Proof.
  intros [Hm Hd] HQ. unfold fixed_date_formula. apply wp_bind, wp_int; [lia|]. apply wp_bind, wp_int; [lia|]. apply wp_ret.
  set (k := 367 * m - 362). rewrite !FloorDivide_div by lia. rewrite Z.geb_leb.
  assert (Z.quot k 12 = k / 12) as -> by (apply Z.quot_div_nonneg; unfold k; lia).
  set (days := if _ <=? _ then _ else _).
  assert (days = d + (365 * (y - 1) + (y - 1) / 4 - (y - 1) / 100 + (y - 1) / 400 + k / 12)) as ->.
  { unfold days. destruct (Z.leb_spec 0 (y - 1)); [|done]. by rewrite !Z.quot_div_nonneg by lia. }
  unfold day_number, before_month, jan1_of in HQ. fold k in HQ. rewrite IsLeapYear_leap, Z.gtb_ltb in *. unfold FEBRUARY.
  match goal with |- Q ?a s => match type of HQ with Q ?b s => replace a with b; [exact HQ|] end end.
  destruct (2 <? m), (leap y); lia.
Qed.

(** ** The cache *)

Definition coherent (s : date) : Prop :=
  year_ok (mCachedYear s) /\ mCachedFixedDateJan1 s = jan1_of (mCachedYear s) /\
  mCachedFixedDateNextJan1 s = jan1_of (mCachedYear s + 1).

Lemma new_coherent zone : coherent (new zone).
Proof. by vm_compute. Qed.

(** The fields other than the cache. *)
Definition same_fields (s s' : date) : Prop :=
  s' = Build_date (mYear s) (mMonth s) (mDayOfMonth s) (mDayOfWeek s) (mLeapYear s) (mHours s) (mMinutes s) (mSeconds s)
    (mMillis s) (mFraction s) (mNormalized s) (mZoneinfo s) (mZoneOffset s) (mDaylightSaving s) (mForceStandardTime s)
    (mCachedYear s') (mCachedFixedDateJan1 s') (mCachedFixedDateNextJan1 s').

Lemma same_fields_refl s : same_fields s s.
Proof. by destruct s. Qed.

Lemma SetCache_spec y (Q : unit -> date -> Prop) s : year_ok y ->
  (forall s', coherent s' -> same_fields s s' -> Q tt s') -> wp (SetCache y (jan1_of y) (year_length y)) Q s.
Proof.
  intros Hy HQ. pose proof (jan1_range y Hy). unfold SetCache. rewrite year_length_leap.
  apply wp_bind, wp_long; [destruct (leap y); lia|]. apply wp_modify. destruct s. apply HQ; [|done].
  split_and!; [exact Hy|done|]. cbn. by rewrite jan1_next.
Qed.

(** [GetFixedDate] gives the number of the day and keeps the cache right. *)
Lemma GetFixedDate_of_spec y m d cache (Q : Z -> date -> Prop) s :
  coherent s -> year_ok y -> valid y m d ->
  (forall s', coherent s' -> same_fields s s' -> Q (day_number y m d) s') -> wp (GetFixedDate_of y m d cache) Q s.
Proof.
  intros Hc Hy Hv HQ. pose proof Hc as (Hcy & Hcj & Hcn). unfold GetFixedDate_of. apply wp_bind, wp_gets.
  unfold Hit_year, GetCachedJan1. destruct (cache && (y =? mCachedYear s)) eqn:E.
  - apply andb_true_iff in E as [_ E]. apply Z.eqb_eq in E. apply wp_bind, wp_gets. rewrite Hcj, <- E.
    apply day_after_spec; [done|done|done|]. apply HQ; [done|apply same_fields_refl].
  - apply wp_bind, wp_int; [unfold year_ok, BASE_YEAR in *; lia|].
    destruct (if _ <? 0 then _ else _) as [j|] eqn:Ej.
    + destruct (Z.ltb_spec (y - BASE_YEAR) 0); [done|]. apply table_jan1 in Ej; [|lia].
      replace (BASE_YEAR + (y - BASE_YEAR)) with y in Ej by lia. subst j. apply wp_bind. destruct cache.
      * apply SetCache_spec; [done|]. intros s' Hc' Hs'. apply day_after_spec; [done..|]. by apply HQ.
      * apply wp_ret, day_after_spec; [done..|]. apply HQ; [done|apply same_fields_refl].
    + apply wp_bind, fixed_date_formula_spec; [done|]. apply wp_bind. unfold JANUARY.
      destruct (cache && ((m =? 1) && (d =? 1))) eqn:E1.
      * apply andb_true_iff in E1 as [_ E1]. apply andb_true_iff in E1 as [Em Ed]. apply Z.eqb_eq in Em, Ed. subst m d.
        assert (day_number y 1 1 = jan1_of y) as Hj by (unfold day_number; rewrite before_month_first; lia). rewrite Hj in *.
        apply SetCache_spec; [done|]. intros s' Hc' Hs'. apply wp_ret. by apply HQ.
      * apply wp_ret, wp_ret. apply HQ; [done|apply same_fields_refl].
Qed.


(** ** From numbers to dates *)

Lemma div_mod_is n d q r : n = d * q + r -> 0 <= r < d -> n / d = q /\ n mod d = r.
Proof.
  intros H Hr. split; [symmetry; by apply (Z.div_unique_pos n d q r)|symmetry; by apply (Z.mod_unique_pos n d q r)].
Qed.

(** The four quotients lead back to the year. *)
Lemma year_quotients y f : jan1_of y <= f < jan1_of (y + 1) ->
  let d1 := (f - 1) mod 146097 in let d2 := d1 mod 36524 in let d3 := d2 mod 1461 in
  let n400 := (f - 1) / 146097 in let n100 := d1 / 36524 in let n4 := d2 / 1461 in let n1 := d3 / 365 in
  400 * n400 + 100 * n100 + 4 * n4 + n1 + (if (n100 =? 4) || (n1 =? 4) then 0 else 1) = y /\
  0 <= n100 <= 4 /\ 0 <= n4 <= 24 /\ 0 <= n1 <= 4 /\ y - 400 <= 400 * n400 <= y.
Proof.
  rewrite jan1_next. destruct (leap_split y) as (a & b & c & e & Hy & Hb & Hc & He & Hleap).
  rewrite (jan1_split y a b c e) by done. intros Hf. cbv zeta.
  set (k := f - (146097 * a + 36524 * b + 1461 * c + 365 * e + 1)) in *.
  assert (0 <= k <= 365 /\ (k = 365 -> e = 3 /\ (c = 24 -> b = 3))) as [Hk Hk365].
  { destruct (leap y); [|lia]. symmetry in Hleap. bprop. lia. }
  clear Hf Hleap. assert (f - 1 = 146097 * a + (36524 * b + 1461 * c + 365 * e + k)) as Hf by lia.
  destruct (div_mod_is (f - 1) 146097 a (36524 * b + 1461 * c + 365 * e + k) Hf ltac:(lia)) as [-> ->].
  destruct (decide (36524 * b + 1461 * c + 365 * e + k = 146096)) as [Hend|Hne]; [rewrite Hend|].
  { change (146096 / 36524) with 4. change (146096 mod 36524) with 0. change (0 / 1461) with 0. change (0 mod 1461) with 0.
    change (0 / 365) with 0. cbn [Z.eqb Pos.eqb orb]. lia. }
  destruct (div_mod_is (36524 * b + 1461 * c + 365 * e + k) 36524 b (1461 * c + 365 * e + k) ltac:(lia) ltac:(lia)) as [-> ->].
  destruct (div_mod_is (1461 * c + 365 * e + k) 1461 c (365 * e + k) ltac:(lia) ltac:(lia)) as [-> ->].
  rewrite (proj2 (Z.eqb_neq b 4)) by lia. cbn [orb]. destruct (decide (k = 365)) as [->|Hk'].
  - destruct (Hk365 eq_refl) as [-> _]. change ((365 * 3 + 365) / 365) with 4. cbn [Z.eqb Pos.eqb]. lia.
  - destruct (div_mod_is (365 * e + k) 365 e k ltac:(lia) ltac:(lia)) as [-> _].
    rewrite (proj2 (Z.eqb_neq e 4)) by lia. lia.
Qed.

Lemma GetGregorianYear_spec {S} y f (Q : Z -> S -> Prop) s : year_ok y -> jan1_of y <= f < jan1_of (y + 1) ->
  Q y s -> wp (GetGregorianYearFromFixedDate f) Q s.
Proof.
  intros Hy Hf HQ. pose proof (jan1_range y Hy) as Hj. pose proof Hf as Hf'. rewrite jan1_next in Hf'.
  assert (-785000000000 <= f <= 785000000366) as Hrange by (destruct (leap y); lia). clear Hj Hf'.
  unfold GetGregorianYearFromFixedDate. apply wp_bind, wp_long; [lia|].
  pose proof (year_quotients y f Hf) as Hq. cbv zeta in Hq.
  set (d1 := (f - 1) mod 146097) in *. set (d2 := d1 mod 36524) in *. set (d3 := d2 mod 1461) in *.
  assert (0 <= d1 < 146097 /\ 0 <= d2 < 36524 /\ 0 <= d3 < 1461) as (Hd1 & Hd2 & Hd3).
  { split_and!; apply Z.mod_pos_bound; lia. }
  assert (i32 ((f - 1) / 146097) = (f - 1) / 146097 /\ i32 d1 = d1) as [Hi1 Hi2].
  { unfold year_ok in Hy. split; apply wrap_s_id; fits; lia. }
  assert (wp (year_of ((f - 1) / 146097) (d1 / 36524) (d2 / 1461) (d3 / 365)) Q s) as Hyear.
  { destruct Hq as (Hsum & H100 & H4 & H1 & H400). unfold year_ok in Hy. unfold year_of.
    do 6 (apply wp_bind, wp_int; [lia|]). destruct (_ || _); cbn [negb].
    - apply wp_ret. rewrite Z.add_0_r in Hsum. by rewrite Hsum.
    - apply wp_int; [lia|]. by rewrite Hsum. }
  rewrite Z.gtb_ltb. destruct (Z.ltb_spec 0 f).
  - rewrite Z.quot_div_nonneg, Z.rem_mod_nonneg by lia. fold d1. rewrite Hi1, Hi2.
    rewrite (Z.quot_div_nonneg d1), (Z.rem_mod_nonneg d1) by lia. fold d2.
    rewrite (Z.quot_div_nonneg d2), (Z.rem_mod_nonneg d2) by lia. fold d3.
    rewrite (Z.quot_div_nonneg d3) by lia. exact Hyear.
  - rewrite FloorDivide_div, Mod_mod by lia. fold d1. rewrite Hi1, Hi2.
    rewrite !FloorDivide_div, !Mod_mod by lia. exact Hyear.
Qed.

(** The months of a year with [lp] leap days. *)
Lemma month_table y m : 1 <= m <= 12 -> exists lp, leap y = (lp =? 1) /\ 0 <= lp <= 1 /\
  ((m = 1 /\ before_month y m = 0 /\ month_length y m = 31) \/
   (m = 2 /\ before_month y m = 31 /\ month_length y m = 28 + lp) \/
   (m = 3 /\ before_month y m = 59 + lp /\ month_length y m = 31) \/
   (m = 4 /\ before_month y m = 90 + lp /\ month_length y m = 30) \/
   (m = 5 /\ before_month y m = 120 + lp /\ month_length y m = 31) \/
   (m = 6 /\ before_month y m = 151 + lp /\ month_length y m = 30) \/
   (m = 7 /\ before_month y m = 181 + lp /\ month_length y m = 31) \/
   (m = 8 /\ before_month y m = 212 + lp /\ month_length y m = 31) \/
   (m = 9 /\ before_month y m = 243 + lp /\ month_length y m = 30) \/
   (m = 10 /\ before_month y m = 273 + lp /\ month_length y m = 31) \/
   (m = 11 /\ before_month y m = 304 + lp /\ month_length y m = 30) \/
   (m = 12 /\ before_month y m = 334 + lp /\ month_length y m = 31)).
Proof.
  intros Hm. exists (if leap y then 1 else 0). unfold before_month, month_length.
  destruct (leap y); (split; [done|]); (split; [lia|]); months m; vm_compute; intuition discriminate.
Qed.

(** The month of a day. *)
Lemma month_of_spec {S} y m d (Q : Z -> S -> Prop) s : valid y m d ->
  Q m s -> wp (month_of (day_number y m d) (jan1_of y) (leap y)) Q s.
Proof.
  intros [Hm Hd] HQ. unfold month_of, day_number. generalize (jan1_of y). intros j.
  destruct (month_table y m Hm) as (lp & -> & Hlp & Htable).
  set (p := before_month y m + d - 1).
  assert (0 <= p <= 365) as Hp by (unfold p; lia).
  assert (j + before_month y m + d - 1 - j = p) as -> by (unfold p; lia). rewrite wrap_s_id by (fits; lia).
  assert ((if lp =? 1 then 1 else 0) = lp /\ (if lp =? 1 then 1 else 2) = 2 - lp) as [-> ->] by (destruct (Z.eqb_spec lp 1); lia).
  assert ((j + before_month y m + d - 1 >=? j + 31 + 28 + lp) = (2 <? m)) as ->.
  { rewrite Z.geb_leb. apply eq_true_iff_eq. rewrite Z.leb_le, Z.ltb_lt. lia. }
  set (q := if 2 <? m then p + (2 - lp) else p).
  assert (367 * m <= 12 * q + 373 < 367 * m + 367 /\ 0 <= q <= 370) as [Hq Hq'].
  { unfold q, p in *. destruct (Z.ltb_spec 2 m); lia. }
  apply wp_bind, wp_int; [lia|]. apply wp_bind, wp_int; [lia|]. apply wp_bind, wp_int; [lia|]. apply wp_ret.
  rewrite Z.gtb_ltb, (proj2 (Z.ltb_lt _ _)), Z.quot_div_nonneg by lia.
  by rewrite (proj1 (div_mod_is (12 * q + 373) 367 m (12 * q + 373 - 367 * m) ltac:(lia) ltac:(lia))).
Qed.

Lemma jan1_mono y z : y <= z -> jan1_of y <= jan1_of z.
Proof.
  intros Hyz. replace z with (y + (z - y)) by lia. generalize (z - y), (Z.le_0_sub y z). intros k Hk.
  apply Hk in Hyz. clear Hk. revert k Hyz. apply natlike_ind; [rewrite Z.add_0_r; lia|].
  intros k Hk IH. unfold Z.succ. rewrite Z.add_assoc, jan1_next. destruct (leap (y + k)); lia.
Qed.

(** A day lies in one year only. *)
Lemma year_unique y z f : jan1_of y <= f < jan1_of (y + 1) -> jan1_of z <= f < jan1_of (z + 1) -> y = z.
Proof.
  intros Hy Hz. destruct (Z.lt_trichotomy y z) as [Hlt|[->|Hlt]]; [|done|].
  - pose proof (jan1_mono (y + 1) z ltac:(lia)). lia.
  - pose proof (jan1_mono (z + 1) y ltac:(lia)). lia.
Qed.

(** ** Stores *)

Definition at_day (y m d : Z) (nm : bool) (s : date) : date :=
  Build_date y m d (mDayOfWeek s) (mLeapYear s) (mHours s) (mMinutes s) (mSeconds s) (mMillis s) (mFraction s) nm
    (mZoneinfo s) (mZoneOffset s) (mDaylightSaving s) (mForceStandardTime s)
    (mCachedYear s) (mCachedFixedDateJan1 s) (mCachedFixedDateNextJan1 s).

Definition at_time (h mi se ms : Z) (nm : bool) (s : date) : date :=
  Build_date (mYear s) (mMonth s) (mDayOfMonth s) (mDayOfWeek s) (mLeapYear s) h mi se ms (mFraction s) nm
    (mZoneinfo s) (mZoneOffset s) (mDaylightSaving s) (mForceStandardTime s)
    (mCachedYear s) (mCachedFixedDateJan1 s) (mCachedFixedDateNextJan1 s).

(** A setter stores its value; the flag becomes what it may. *)
Lemma wp_change get put v (Q : unit -> date -> Prop) s upd :
  (forall nm, put v s = Some (tt, upd (mNormalized s)) /\ put_Normalized nm (upd (mNormalized s)) = Some (tt, upd nm)) ->
  (get s = v -> upd (mNormalized s) = s) ->
  (forall nm, Q tt (upd nm)) -> wp (change get put v) Q s.
Proof.
  intros Hput Hsame HQ. unfold wp, change, bind, gets. destruct (Z.eqb_spec (get s) v) as [E|E]; cbn [negb].
  - unfold ret. rewrite <- (Hsame E). apply HQ.
  - destruct (Hput false) as [-> ->]. apply HQ.
Qed.

Ltac store := intros HQ; eapply wp_change; [| |exact HQ]; [intros nm; match goal with s : date |- _ => by destruct s end|
  match goal with s : date |- _ => destruct s; cbn; by intros -> end].

Lemma wp_SetYear v (Q : unit -> date -> Prop) s : (forall nm, Q tt (at_day v (mMonth s) (mDayOfMonth s) nm s)) -> wp (SetYear v) Q s.
Proof. store. Qed.
Lemma wp_SetMonth v (Q : unit -> date -> Prop) s : (forall nm, Q tt (at_day (mYear s) v (mDayOfMonth s) nm s)) -> wp (SetMonth v) Q s.
Proof. store. Qed.
Lemma wp_SetDayOfMonth v (Q : unit -> date -> Prop) s : (forall nm, Q tt (at_day (mYear s) (mMonth s) v nm s)) -> wp (SetDayOfMonth v) Q s.
Proof. store. Qed.
Lemma wp_SetHours v (Q : unit -> date -> Prop) s : (forall nm, Q tt (at_time v (mMinutes s) (mSeconds s) (mMillis s) nm s)) -> wp (SetHours v) Q s.
Proof. store. Qed.
Lemma wp_SetMinutes v (Q : unit -> date -> Prop) s : (forall nm, Q tt (at_time (mHours s) v (mSeconds s) (mMillis s) nm s)) -> wp (SetMinutes v) Q s.
Proof. store. Qed.
Lemma wp_SetSeconds v (Q : unit -> date -> Prop) s : (forall nm, Q tt (at_time (mHours s) (mMinutes s) v (mMillis s) nm s)) -> wp (SetSeconds v) Q s.
Proof. store. Qed.
Lemma wp_SetMillis v (Q : unit -> date -> Prop) s : (forall nm, Q tt (at_time (mHours s) (mMinutes s) (mSeconds s) v nm s)) -> wp (SetMillis v) Q s.
Proof. store. Qed.

(** The day of the week of a number: 1 is a Monday. *)
Lemma day_of_week f : GetDayOfWeekFromFixedDate f = 1 + f mod 7.
Proof.
  unfold GetDayOfWeekFromFixedDate, SUNDAY. rewrite Z.geb_leb. pose proof (Z.mod_pos_bound f 7 ltac:(lia)).
  destruct (Z.leb_spec 0 f).
  - rewrite Z.rem_mod_nonneg by lia. rewrite wrap_s_id by (fits; lia). lia.
  - rewrite Mod_mod by lia. rewrite wrap_s_id by (fits; lia). lia.
Qed.

(** The fields that say what day it is; the others but the cache are kept. *)
Definition dated (y m d : Z) (s s' : date) : Prop :=
  s' = Build_date y m d (1 + day_number y m d mod 7) (leap y) (mHours s) (mMinutes s) (mSeconds s) (mMillis s)
    (mFraction s) true (mZoneinfo s) (mZoneOffset s) (mDaylightSaving s) (mForceStandardTime s)
    (mCachedYear s') (mCachedFixedDateJan1 s') (mCachedFixedDateNextJan1 s').

Lemma dated_fields y m d s s' : dated y m d s s' ->
  mYear s' = y /\ mMonth s' = m /\ mDayOfMonth s' = d /\ mDayOfWeek s' = 1 + day_number y m d mod 7 /\
  mLeapYear s' = leap y /\ mNormalized s' = true.
Proof. unfold dated. intros Hd. split_and!; by rewrite Hd. Qed.

Lemma store_day y m d (Q : unit -> date -> Prop) s s0 : coherent s -> same_fields s0 s ->
  (forall s', coherent s' -> dated y m d s0 s' -> Q tt s') ->
  wp (SetYear y ;;; SetMonth m ;;; SetDayOfMonth d ;;; SetDayOfWeek (1 + day_number y m d mod 7) ;;;
      SetLeapYear (leap y) ;;; SetNormalized true) Q s.
Proof.
  intros Hc Hs HQ. apply wp_bind, wp_SetYear. intros n1. apply wp_bind, wp_SetMonth. intros n2.
  apply wp_bind, wp_SetDayOfMonth. intros n3. apply wp_bind, wp_modify, wp_bind, wp_modify, wp_modify. cbn.
  apply HQ; [done|]. unfold dated. rewrite Hs. done.
Qed.

(** The plain table with the leap day added by hand. *)
Lemma accumulated_plain y m : 1 <= m <= 12 -> exists acc,
  (forall (Q : Z -> date -> Prop) s, Q acc s -> wp (at_index ACCUMULATED_DAYS_IN_MONTH m) Q s) /\
  acc + (if leap y && (m >=? MARCH) then 1 else 0) = before_month y m.
Proof. intros Hm. unfold before_month. months m; (eexists; split; [intros Q s HQ; exact HQ|]); by destruct (leap y). Qed.

Lemma GetCalendarDateFromFixedDate_spec y m d (Q : unit -> date -> Prop) s :
  coherent s -> year_ok y -> valid y m d ->
  (forall s', coherent s' -> dated y m d s s' -> Q tt s') ->
  wp (GetCalendarDateFromFixedDate (day_number y m d)) Q s.
Proof.
  intros Hc Hy Hv HQ. pose proof (day_in_year y m d Hv) as Hday. pose proof Hc as (Hcy & Hcj & Hcn).
  unfold GetCalendarDateFromFixedDate. apply wp_bind, wp_gets. apply wp_bind.
  match goal with |- wp ?first _ s => assert (wp first (fun yj s' => yj = (y, jan1_of y) /\ coherent s' /\ same_fields s s') s) as Hfirst end.
  { destruct (Hit (day_number y m d) s) eqn:E.
    - unfold Hit in E. rewrite Z.geb_leb in E. apply andb_true_iff in E as [E1 E2]. apply Z.leb_le in E1. apply Z.ltb_lt in E2.
      rewrite Hcj in E1. rewrite Hcn in E2. pose proof (year_unique y (mCachedYear s) _ Hday (conj E1 E2)) as ->.
      apply wp_bind, wp_gets, wp_bind, wp_gets, wp_ret. unfold GetCachedYear, GetCachedJan1. rewrite Hcj.
      split_and!; [done|done|apply same_fields_refl].
    - apply wp_bind. apply (GetGregorianYear_spec y); [done|done|]. apply wp_bind.
      apply GetFixedDate_of_spec; [done|done|split; [done|unfold month_length; cbn; lia]|]. intros s1 Hc1 Hs1.
      unfold JANUARY, day_number. rewrite before_month_first. replace (jan1_of y + 0 + 1 - 1) with (jan1_of y) by lia.
      apply wp_bind, SetCache_spec; [done|]. intros s2 Hc2 Hs2. apply wp_ret. split_and!; [done|done|].
      unfold same_fields in *. rewrite Hs2, Hs1. by destruct s2. }
  eapply wp_mono; [exact Hfirst|]. intros yj s1 (-> & Hc1 & Hs1). rewrite IsLeapYear_leap.
  apply wp_bind, month_of_spec; [done|]. pose proof Hv as [Hm Hd].
  destruct (accumulated_plain y m Hm) as (acc & Hacc & Hbm). apply wp_bind, Hacc.
  rewrite <- Z.add_assoc, Hbm.
  assert (day_number y m d - (jan1_of y + before_month y m) = d - 1) as -> by (unfold day_number; lia).
  pose proof (month_length_bound y m). rewrite wrap_s_id by (fits; lia). apply wp_bind, wp_int; [lia|].
  rewrite Z.sub_add, day_of_week. pose proof (Z.mod_pos_bound (day_number y m d) 7 ltac:(lia)).
  rewrite Z.gtb_ltb, (proj2 (Z.ltb_lt _ _)) by lia. by apply (store_day y m d Q s1 s).
Qed.

(** ** Instants *)

Lemma next_day_year y m d : let '(y', _, _) := next_day y m d in y <= y'.
Proof. unfold next_day. repeat case_match; simplify_eq; lia. Qed.

(** Every number is the number of a day. *)
Lemma every_day f : -700000000000 <= f <= 700000000000 ->
  exists y m d, year_ok y /\ valid y m d /\ day_number y m d = f.
Proof.
  intros Hf. set (y0 := -2147000000). assert (jan1_of y0 = -784175647865) as Hj0 by reflexivity.
  assert (forall k, 0 <= k -> exists y m d, y0 <= y /\ valid y m d /\ day_number y m d = jan1_of y0 + k) as Hall.
  { apply natlike_ind.
    - exists y0, 1, 1. split; [lia|]. split; [split; [lia|by vm_compute]|]. unfold day_number. rewrite before_month_first. lia.
    - intros k Hk (y & m & d & Hy & Hv & Hn). pose proof (day_number_next y m d Hv) as Hnext. pose proof (next_day_year y m d) as Hyear.
      destruct (next_day y m d) as [[y' m'] d']. destruct Hnext as [Hv' Hn']. exists y', m', d'. split_and!; [lia|done|lia]. }
  destruct (Hall (f - jan1_of y0) ltac:(lia)) as (y & m & d & Hy & Hv & Hn). exists y, m, d. split_and!; [|done|lia].
  split; [done|]. destruct (Z.le_gt_cases y 2147000000); [done|exfalso].
  pose proof (jan1_mono 2147000000 y ltac:(lia)) as Hmono. change (jan1_of 2147000000) with 784175647135 in Hmono.
  pose proof (day_in_year y m d Hv). lia.
Qed.

(** The fields of an instant without a zone: the day and the time of day [t]. *)
Definition timed (y m d t : Z) (s s' : date) : Prop :=
  s' = Build_date y m d (1 + day_number y m d mod 7) (leap y)
    (t / 3600000) (t mod 3600000 / 60000) (t mod 60000 / 1000) (t mod 1000) t true
    (mZoneinfo s) 0 0 (mForceStandardTime s)
    (mCachedYear s') (mCachedFixedDateJan1 s') (mCachedFixedDateNextJan1 s').

(** The days and the time of day of an instant. *)
Lemma split_millis n : n = Z.rem n DAY_IN_MILLIS + DAY_IN_MILLIS * Z.quot n DAY_IN_MILLIS /\
  (Z.rem n DAY_IN_MILLIS >=? DAY_IN_MILLIS) = false /\
  borrow_days 3 (Z.quot n DAY_IN_MILLIS) (Z.rem n DAY_IN_MILLIS) = Some (n / DAY_IN_MILLIS, n mod DAY_IN_MILLIS).
Proof.
  change DAY_IN_MILLIS with 86400000. pose proof (Z.quot_rem n 86400000 ltac:(lia)) as Hqr.
  pose proof (Z.rem_bound_abs n 86400000 ltac:(lia)) as Hr.
  set (q := Z.quot n 86400000) in *. set (r := Z.rem n 86400000) in *.
  split_and!; [lia|rewrite Z.geb_leb; apply Z.leb_gt; lia|].
  cbn [borrow_days]. change DAY_IN_MILLIS with 86400000. destruct (Z.ltb_spec r 0).
  - rewrite (proj2 (Z.ltb_ge (r + 86400000) 0)) by lia.
    destruct (div_mod_is n 86400000 (q - 1) (r + 86400000) ltac:(lia) ltac:(lia)) as [-> ->]. done.
  - destruct (div_mod_is n 86400000 q r ltac:(lia) ltac:(lia)) as [-> ->]. done.
Qed.

Lemma clock t : 0 <= t < 86400000 ->
  Z.quot t HOUR_IN_MILLIS = t / 3600000 /\ Z.rem t HOUR_IN_MILLIS = t mod 3600000 /\
  Z.quot (t mod 3600000) MINUTE_IN_MILLIS = t mod 3600000 / 60000 /\ Z.rem (t mod 3600000) MINUTE_IN_MILLIS = t mod 60000 /\
  Z.quot (t mod 60000) SECOND_IN_MILLIS = t mod 60000 / 1000 /\ Z.rem (t mod 60000) SECOND_IN_MILLIS = t mod 1000.
Proof.
  intros Ht. change HOUR_IN_MILLIS with 3600000. change MINUTE_IN_MILLIS with 60000. change SECOND_IN_MILLIS with 1000.
  pose proof (Z.mod_pos_bound t 3600000 ltac:(lia)). pose proof (Z.mod_pos_bound t 60000 ltac:(lia)).
  rewrite !Z.quot_div_nonneg, !Z.rem_mod_nonneg by lia.
  rewrite (Z.mod_mod_divide t 3600000 60000) by (by exists 60). rewrite (Z.mod_mod_divide t 60000 1000) by (by exists 60). done.
Qed.

Lemma GetCalendarDate_spec millis y m d (Q : unit -> date -> Prop) s :
  coherent s -> mZoneinfo s = None -> year_ok y -> valid y m d -> day_number y m d = millis / DAY_IN_MILLIS + EPOCH_OFFSET ->
  (forall s', coherent s' -> timed y m d (millis mod DAY_IN_MILLIS) s s' -> Q tt s') ->
  wp (GetCalendarDate millis) Q s.
Proof.
  intros Hc Hz Hy Hv Hn HQ. unfold GetCalendarDate. apply wp_bind, wp_gets. rewrite Hz. apply wp_bind, wp_ret.
  apply wp_bind, wp_modify, wp_bind, wp_modify. change (Z.quot 0 DAY_IN_MILLIS) with 0. change (Z.rem 0 DAY_IN_MILLIS) with 0.
  rewrite !Z.add_0_l. destruct (split_millis millis) as (_ & -> & ->). apply wp_bind, wp_ret.
  set (t := millis mod DAY_IN_MILLIS) in *. assert (0 <= t < 86400000) as Ht by (apply Z.mod_pos_bound; done).
  rewrite <- Hn. apply wp_bind.
  match goal with |- wp _ _ ?s0 => set (s0' := s0) end.
  assert (coherent s0') as Hc0 by (by destruct s).
  apply (GetCalendarDateFromFixedDate_spec y m d); [done..|]. intros s1 Hc1 Hs1. apply wp_bind.
  unfold SetTimeOfDay. rewrite (proj2 (Z.ltb_ge t 0)) by lia. apply wp_bind, wp_gets. cbv zeta.
  destruct (clock t Ht) as (-> & -> & -> & -> & -> & ->).
  apply wp_bind, wp_SetHours. intros n1. apply wp_bind, wp_SetMinutes. intros n2. apply wp_bind, wp_SetSeconds. intros n3.
  apply wp_bind, wp_SetMillis. intros n4. apply wp_bind, wp_modify.
  assert (mNormalized s1 = true) as -> by (by rewrite Hs1).
  assert (t / 3600000 < 24) as Hh by (apply Z.div_lt_upper_bound; lia). rewrite (proj2 (Z.ltb_lt _ _)) by lia.
  apply wp_bind, wp_modify, wp_ret, wp_bind, wp_gets, wp_bind, wp_modify, wp_modify. cbn. apply HQ; [by destruct s1|].
  unfold timed. rewrite IsLeapYear_leap. rewrite Hs1. cbn. by destruct s.
Qed.

Lemma GetTime_spec t (Q : Z -> date -> Prop) s : coherent s -> mZoneinfo s = None -> mNormalized s = true ->
  year_ok (mYear s) -> valid (mYear s) (mMonth s) (mDayOfMonth s) -> mFraction s = t -> 0 <= t < DAY_IN_MILLIS ->
  let ms := (day_number (mYear s) (mMonth s) (mDayOfMonth s) - EPOCH_OFFSET) * DAY_IN_MILLIS + t in
  -9223372036854775808 <= ms - t -> ms < 9223372036854775808 ->
  (forall s', coherent s' -> timed (mYear s) (mMonth s) (mDayOfMonth s) t s s' -> Q ms s') -> wp GetTime Q s.
Proof.
  intros Hc Hz Hnm Hy Hv Hf Ht ms Hlo Hhi HQ. unfold GetTime, GetFixedDate.
  apply wp_bind, wp_bind, wp_gets. rewrite Hnm. apply wp_bind, wp_ret, wp_bind, wp_gets, wp_bind, wp_gets, wp_bind, wp_gets.
  apply GetFixedDate_of_spec; [done..|]. intros s1 Hc1 Hs1.
  set (f := day_number (mYear s) (mMonth s) (mDayOfMonth s)) in *. change DAY_IN_MILLIS with 86400000 in *.
  change EPOCH_OFFSET with 719163 in *. unfold TIME_UNDEFINED in *.
  apply wp_bind, wp_long; [lia|]. apply wp_bind, wp_long; [lia|]. apply wp_bind.
  unfold GetTimeOfDay, CalendarDate.GetTimeOfDay. apply wp_bind, wp_bind, wp_gets.
  assert (mNormalized s1 = true /\ mFraction s1 = t /\ mZoneinfo s1 = None /\ mForceStandardTime s1 = mForceStandardTime s)
    as (-> & E1 & E2 & E3) by (rewrite Hs1; cbn; by rewrite Hz).
  apply wp_bind, wp_ret, wp_gets. rewrite E1. unfold TIME_UNDEFINED.
  rewrite (proj2 (Z.eqb_neq _ _)) by (change (2 ^ 63) with 9223372036854775808; lia). apply wp_ret, wp_bind, wp_long; [lia|].
  apply wp_bind, wp_gets. rewrite E2. apply wp_bind. fold ms.
  destruct (div_mod_is ms 86400000 (f - 719163) t ltac:(unfold ms; lia) ltac:(lia)) as [Hdiv Hmod].
  apply (GetCalendarDate_spec ms (mYear s) (mMonth s) (mDayOfMonth s)); [done..|fold f; change DAY_IN_MILLIS with 86400000; change EPOCH_OFFSET with 719163; lia|].
  intros s2 Hc2 Hs2. change DAY_IN_MILLIS with 86400000 in Hs2. rewrite Hmod in Hs2. apply wp_ret. apply HQ; [done|].
  unfold timed in *. rewrite Hs2 at 1. by rewrite E3, E2, Hz.
Qed.

(** ** Normalization *)

Lemma GetDayOfWeek_spec (Q : Z -> date -> Prop) s : coherent s -> year_ok (mYear s) ->
  valid (mYear s) (mMonth s) (mDayOfMonth s) ->
  (forall s', coherent s' -> same_fields s s' -> Q (1 + day_number (mYear s) (mMonth s) (mDayOfMonth s) mod 7) s') ->
  wp GetDayOfWeek Q s.
Proof.
  intros Hc Hy Hv HQ. unfold GetDayOfWeek, GetFixedDate, NormalizeMonth, DECEMBER. pose proof Hv as [Hm _].
  apply wp_bind, wp_bind, wp_gets, wp_bind.
  assert (wp (if negb (mNormalized s) then year <- gets mYear ;; month <- gets mMonth ;;
      (if month <=? 0 then year <- int (year - i32 (Z.quot (1 - month) 12 + 1)) ;; SetYear year ;;; SetMonth (13 - i32 (Z.rem (1 - month) 12))
       else if month >? 12 then year <- int (year + Z.quot (month - 1) 12) ;; SetYear year ;;; SetMonth (Z.rem (month - 1) 12 + 1)
       else ret tt) else ret tt) (fun _ s' => s' = s) s) as Hnothing.
  { destruct (mNormalized s); [by apply wp_ret|]. apply wp_bind, wp_gets, wp_bind, wp_gets.
    rewrite Z.gtb_ltb, (proj2 (Z.leb_gt _ _)), (proj2 (Z.ltb_ge _ _)) by lia. by apply wp_ret. }
  eapply wp_mono; [exact Hnothing|]. intros [] s' ->.
  apply wp_bind, wp_gets, wp_bind, wp_gets, wp_bind, wp_gets. apply GetFixedDate_of_spec; [done..|].
  intros s' Hc' Hs'. apply wp_ret. rewrite day_of_week. by apply HQ.
Qed.

(** A date whose time of day is [k] days. *)
Definition whole_days (k : Z) (s : date) : Prop :=
  mNormalized s = false /\ mHours s = 24 * k /\ mMinutes s = 0 /\ mSeconds s = 0 /\ mMillis s = 0.

Lemma NormalizeTime_whole_days k (Q : Z -> date -> Prop) s : whole_days k s -> 1 <= k <= 1000000 ->
  (forall nm, Q k (at_time 0 0 0 0 nm (Build_date (mYear s) (mMonth s) (mDayOfMonth s) (mDayOfWeek s) (mLeapYear s)
     (mHours s) (mMinutes s) (mSeconds s) (mMillis s) 0 (mNormalized s) (mZoneinfo s) (mZoneOffset s) (mDaylightSaving s)
     (mForceStandardTime s) (mCachedYear s) (mCachedFixedDateJan1 s) (mCachedFixedDateNextJan1 s)))) ->
  wp NormalizeTime Q s.
Proof.
  intros (Hn & Hh & Hmi & Hse & Hms) Hk HQ. unfold NormalizeTime, GetTimeOfDay, CalendarDate.GetTimeOfDay, GetTimeOfDayValue.
  destruct s as [y mo dom dow lp h mi se ms fr nm z zo ds st cy cj cn]; cbn in *. subst.
  do 3 apply wp_bind. apply wp_gets. cbn [negb]. apply wp_bind, wp_modify, wp_gets. cbn [mFraction]. rewrite Z.eqb_refl. cbn [negb].
  apply wp_bind, wp_bind, wp_gets. cbn [mHours]. apply wp_bind, wp_int; [lia|].
  apply wp_bind, wp_gets, wp_bind, wp_long; [cbn; lia|]. apply wp_bind, wp_long; [cbn; lia|].
  apply wp_bind, wp_gets, wp_bind, wp_long; [cbn; lia|]. apply wp_bind, wp_long; [cbn; lia|].
  apply wp_bind, wp_gets, wp_long; [cbn; lia|]. cbn [mMinutes mSeconds mMillis].
  replace (((24 * k * 60 + 0) * 60 + 0) * 1000 + 0) with (k * 86400000) by lia.
  apply wp_bind, wp_modify, wp_ret. change DAY_IN_MILLIS with 86400000.
  rewrite Z.geb_leb, (proj2 (Z.leb_le _ _)), Z.quot_mul, Z.rem_mul by lia. rewrite (proj2 (Z.eqb_neq k 0)) by lia. cbn [negb].
  apply wp_bind, wp_modify. change (i32 (Z.rem 0 1000)) with 0. change (i32 (Z.rem (Z.quot 0 1000) 60)) with 0.
  change (i32 (Z.rem (Z.quot (Z.quot 0 1000) 60) 60)) with 0. change (i32 (Z.quot (Z.quot (Z.quot 0 1000) 60) 60)) with 0.
  apply wp_bind, wp_SetMillis. intros n1. apply wp_bind, wp_SetSeconds. intros n2. apply wp_bind, wp_SetMinutes. intros n3.
  apply wp_bind, wp_SetHours. intros n4. apply wp_ret. rewrite wrap_s_id by (fits; lia). apply HQ.
Qed.

(** ** The properties *)

(** C24: Fixed dates count the days.  January 1 of year 1 is day 1; the day after
    a day, by the plain rule of months and leap years, has the next number; and
    the one-year cache, right to begin with, stays right and changes no
    answer. *)
Theorem fixed_dates_count_days s y m d cache :
  coherent s -> -2146999999 <= y <= 2146999999 -> valid y m d ->
  exists f s1, GetFixedDate_of y m d cache s = Some (f, s1) /\ coherent s1 /\
    ((y, m, d) = (1, 1, 1) -> f = 1) /\
    (let '(y', m', d') := next_day y m d in
     forall cache', exists s2, GetFixedDate_of y' m' d' cache' s1 = Some (f + 1, s2) /\ coherent s2) /\
    (forall cache' s', coherent s' -> exists s2, GetFixedDate_of y m d cache' s' = Some (f, s2)).
Proof.
  intros Hc Hy Hv.
  assert (forall y m d cache s, coherent s -> year_ok y -> valid y m d ->
    exists s', GetFixedDate_of y m d cache s = Some (day_number y m d, s') /\ coherent s') as Hspec.
  { clear. intros y m d cache s Hc Hy Hv.
    destruct (wp_run (GetFixedDate_of y m d cache) (fun f s' => f = day_number y m d /\ coherent s') s) as (f & s' & Hs' & -> & Hc').
    - by apply GetFixedDate_of_spec.
    - by exists s'. }
  destruct (Hspec y m d cache s Hc ltac:(unfold year_ok; lia) Hv) as (s1 & Hs1 & Hc1).
  exists (day_number y m d), s1. split_and!; [done|done|intros [= -> -> ->]; reflexivity| |].
  - pose proof (day_number_next y m d Hv) as Hnext. pose proof (next_day_year y m d) as Hle.
    assert (let '(y', _, _) := next_day y m d in y' <= y + 1) as Hge by (unfold next_day; repeat case_match; simplify_eq; lia).
    destruct (next_day y m d) as [[y' m'] d']. destruct Hnext as [Hv' <-]. intros cache'.
    apply Hspec; [done|unfold year_ok; lia|done].
  - intros cache' s' Hc'. destruct (Hspec y m d cache' s' Hc' ltac:(unfold year_ok; lia) Hv) as (s2 & Hs2 & _). by exists s2.
Qed.

Lemma fixed_dates_count_days_witness :
  exists f s1, GetFixedDate_of 1900 2 28 true (new None) = Some (f, s1) /\
    exists s2, GetFixedDate_of 1900 3 1 true s1 = Some (f + 1, s2).
Proof.
  destruct (fixed_dates_count_days (new None) 1900 2 28 true) as (f & s1 & Hs1 & _ & _ & Hnext & _).
  - split; [split; intros [=]|split; reflexivity].
  - lia.
  - split; [lia|]. vm_compute. split; intros [=].
  - exists f, s1. split; [exact Hs1|]. destruct (Hnext true) as (s2 & Hs2 & _). exists s2. exact Hs2.
Defined.

(** C25: Fixed dates and calendar dates determine each other: from the number of
    a day the calendar recovers the year, month and day, the day of the week
    and whether the year is a leap year, whatever is in the cache. *)
Theorem calendar_date_round_trip s s' y m d cache :
  coherent s -> coherent s' -> year_ok y -> valid y m d ->
  exists f s1 s2, GetFixedDate_of y m d cache s = Some (f, s1) /\
    GetCalendarDateFromFixedDate f s' = Some (tt, s2) /\ coherent s2 /\
    mYear s2 = y /\ mMonth s2 = m /\ mDayOfMonth s2 = d /\ mDayOfWeek s2 = 1 + f mod 7 /\
    mLeapYear s2 = (month_length y 2 =? 29) /\ mNormalized s2 = true.
Proof.
  intros Hc Hc' Hy Hv.
  destruct (wp_run (GetFixedDate_of y m d cache) (fun f s1 => f = day_number y m d) s) as (f & s1 & Hs1 & ->).
  { by apply GetFixedDate_of_spec. }
  destruct (wp_run (GetCalendarDateFromFixedDate (day_number y m d)) (fun _ s2 => coherent s2 /\ dated y m d s' s2) s') as ([] & s2 & Hs2 & Hc2 & Hd).
  { by apply GetCalendarDateFromFixedDate_spec. }
  exists (day_number y m d), s1, s2. destruct (dated_fields _ _ _ _ _ Hd) as (-> & -> & -> & -> & -> & ->).
  split_and!; try done. unfold month_length. cbn. by destruct (leap y).
Qed.

Lemma calendar_date_round_trip_witness :
  exists f s1 s2, GetFixedDate_of (-400) 2 29 false (new None) = Some (f, s1) /\
    GetCalendarDateFromFixedDate f (new None) = Some (tt, s2) /\ mYear s2 = -400 /\ mDayOfMonth s2 = 29.
Proof.
  destruct (calendar_date_round_trip (new None) (new None) (-400) 2 29 false) as (f & s1 & s2 & H1 & H2 & _ & Hy & _ & Hd & _).
  - exact (new_coherent None).
  - exact (new_coherent None).
  - unfold year_ok. lia.
  - split; [lia|]. vm_compute. split; intros [=].
  - exists f, s1, s2. split; [exact H1|]. split; [exact H2|]. split; [exact Hy|exact Hd].
Defined.

(** C26: instants and dates determine each other: without a time zone every instant a
    [Long] can hold, but for the first day of them, is made into a valid
    normalized date, its fixed date counts the days from the epoch, and
    [GetTime] gives the instant back and leaves the date as it is. On the first
    day the product of days and milliseconds overflows
    ([first_instant_overflows]). *)
Theorem time_round_trip s millis :
  coherent s -> mZoneinfo s = None -> -9223372036854775808 + 86400000 <= millis < 9223372036854775808 ->
  exists s1 s2 s3, GetCalendarDate millis s = Some (tt, s1) /\ coherent s1 /\
    valid (mYear s1) (mMonth s1) (mDayOfMonth s1) /\ ValidateTime s1 = true /\ mNormalized s1 = true /\
    GetFixedDate s1 = Some (719163 + millis / 86400000, s2) /\
    GetTime s1 = Some (millis, s3) /\ same_fields s1 s3.
Proof.
  intros Hc Hz Hm. change EPOCH_OFFSET with 719163 in *.
  pose proof (Z.div_mod millis 86400000 ltac:(lia)) as Hdm. pose proof (Z.mod_pos_bound millis 86400000 ltac:(lia)) as Ht.
  destruct (every_day (millis / 86400000 + 719163)) as (y & m & d & Hy & Hv & Hn); [lia|].
  destruct (wp_run (GetCalendarDate millis) (fun _ s1 => coherent s1 /\ timed y m d (millis mod 86400000) s s1) s) as ([] & s1 & Hs1 & Hc1 & Hd1).
  { by apply (GetCalendarDate_spec millis y m d). }
  set (t := millis mod 86400000) in *.
  assert (mYear s1 = y /\ mMonth s1 = m /\ mDayOfMonth s1 = d /\ mNormalized s1 = true /\ mZoneinfo s1 = None /\ mFraction s1 = t)
    as (E1 & E2 & E3 & E4 & E5 & E6) by (rewrite Hd1; cbn; by rewrite Hz).
  destruct (wp_run GetTime (fun ms s3 => ms = millis /\ same_fields s1 s3) s1) as (ms & s3 & Hs3 & -> & Hsame).
  { apply (GetTime_spec t); rewrite ?E1, ?E2, ?E3, ?Hn; try done; change DAY_IN_MILLIS with 86400000; change EPOCH_OFFSET with 719163; try lia.
    intros s3 _ Hd3. split; [lia|]. unfold same_fields. unfold timed in *. rewrite Hd3 at 1. by rewrite Hd1. }
  destruct (wp_run GetFixedDate (fun f _ => f = 719163 + millis / 86400000) s1) as (f & s2 & Hs2 & ->).
  { unfold GetFixedDate. apply wp_bind, wp_gets. rewrite E4. apply wp_bind, wp_ret, wp_bind, wp_gets, wp_bind, wp_gets, wp_bind, wp_gets.
    rewrite E1, E2, E3. apply GetFixedDate_of_spec; [done..|]. intros. lia. }
  exists s1, s2, s3. rewrite E1, E2, E3. split_and!; try done.
  unfold ValidateTime. rewrite Hd1. cbn.
  assert (0 <= t / 3600000 < 24) by (split; [apply Z.div_pos; lia|apply Z.div_lt_upper_bound; lia]).
  pose proof (Z.mod_pos_bound t 3600000 ltac:(lia)). pose proof (Z.mod_pos_bound t 60000 ltac:(lia)).
  assert (0 <= t mod 3600000 / 60000 < 60) by (split; [apply Z.div_pos; lia|apply Z.div_lt_upper_bound; lia]).
  assert (0 <= t mod 60000 / 1000 < 60) by (split; [apply Z.div_pos; lia|apply Z.div_lt_upper_bound; lia]).
  pose proof (Z.mod_pos_bound t 1000 ltac:(lia)).
  rewrite !Z.geb_leb, !(proj2 (Z.ltb_ge _ _)), !(proj2 (Z.leb_gt _ _)) by lia. done.
Qed.

Lemma time_round_trip_witness :
  exists s1 s3, GetCalendarDate (-1) (new None) = Some (tt, s1) /\ GetTime s1 = Some (-1, s3).
Proof.
  destruct (time_round_trip (new None) (-1) (new_coherent None) eq_refl) as (s1 & _ & s3 & H1 & _ & _ & _ & _ & _ & H3 & _).
  - lia.
  - exists s1, s3. split; [exact H1|exact H3].
Defined.

(** The least instant becomes a date, but its time is undefined: the first day
    of a [Long] of milliseconds begins before the range. *)
Theorem first_instant_overflows :
  match GetCalendarDate (-9223372036854775808) (new None) with
  | Some (_, s) => mYear s = -292275055 /\ mMonth s = 5 /\ mDayOfMonth s = 16 /\ GetTime s = None
  | None => False
  end.
Proof. vm_compute. repeat split. Qed.

(** [NormalizeMonth] keeps the number of months, but it does not always
    bring the month into the year: from January of an earlier year, given as
    month -11, -23 and so on, it makes month 13, for which the tables of days
    have no entry. *)
Theorem NormalizeMonth_thirteenth s :
  -1000000000 <= mYear s <= 1000000000 -> -1000000000 <= mMonth s <= 1000000000 ->
  exists s', NormalizeMonth s = Some (tt, s') /\ 12 * mYear s' + mMonth s' = 12 * mYear s + mMonth s /\
    (if (mMonth s <=? 0) && ((mMonth s - 1) mod 12 =? 0)
     then mMonth s' = 13 /\ forall d, GetDayOfYear_of (mYear s') 13 d s' = None
     else 1 <= mMonth s' <= 12).
Proof.
  intros Hy Hm. 
  destruct (wp_run NormalizeMonth (fun _ s' => 12 * mYear s' + mMonth s' = 12 * mYear s + mMonth s /\
    if (mMonth s <=? 0) && ((mMonth s - 1) mod 12 =? 0) then mMonth s' = 13 else 1 <= mMonth s' <= 12) s) as ([] & s' & Hs' & Hcount & Hcase).
  - unfold NormalizeMonth, DECEMBER. apply wp_bind, wp_gets, wp_bind, wp_gets. destruct (Z.leb_spec (mMonth s) 0) as [Hle|Hgt]; cbn [andb].
    + rewrite Z.quot_div_nonneg, Z.rem_mod_nonneg by lia.
      pose proof (Z.div_mod (1 - mMonth s) 12 ltac:(lia)) as Hdm. pose proof (Z.mod_pos_bound (1 - mMonth s) 12 ltac:(lia)) as Hb.
      rewrite !wrap_s_id by (fits; lia). apply wp_bind, wp_int; [lia|]. apply wp_bind, wp_SetYear. intros n1.
      apply wp_SetMonth. intros n2. cbn. split; [lia|].
      assert (((mMonth s - 1) mod 12 =? 0) = ((1 - mMonth s) mod 12 =? 0)) as ->.
      { apply eq_true_iff_eq. rewrite !Z.eqb_eq, !Z.mod_divide by lia. split; intros [k Hk]; exists (- k); lia. }
      destruct (Z.eqb_spec ((1 - mMonth s) mod 12) 0); lia.
    + rewrite Z.gtb_ltb. destruct (Z.ltb_spec 12 (mMonth s)).
      * rewrite Z.quot_div_nonneg, Z.rem_mod_nonneg by lia.
        pose proof (Z.div_mod (mMonth s - 1) 12 ltac:(lia)). pose proof (Z.mod_pos_bound (mMonth s - 1) 12 ltac:(lia)).
        apply wp_bind, wp_int; [lia|]. apply wp_bind, wp_SetYear. intros n1. apply wp_SetMonth. intros n2. cbn. lia.
      * apply wp_ret. lia.
  - exists s'. split; [done|]. split; [done|]. destruct (_ && _); [|done]. split; [done|]. intros d.
    unfold GetDayOfYear_of. by destruct (IsLeapYear _).
Qed.

Lemma NormalizeMonth_thirteenth_witness :
  exists s', NormalizeMonth (at_day 2004 (-11) 5 false (new None)) = Some (tt, s') /\ mYear s' = 2002 /\ mMonth s' = 13.
Proof.
  destruct (NormalizeMonth_thirteenth (at_day 2004 (-11) 5 false (new None))) as (s' & H1 & H2 & H3).
  - cbn. lia.
  - cbn. lia.
  - cbn in H2, H3. exists s'. split; [exact H1|]. destruct H3 as [H3 _]. split; [lia|exact H3].
Defined.

(** [Normalize] loses days: when the time of day carries [k] days over and
    they fit into the month, the time is cut to the day, the date is declared
    normalized, and the day of the month stays what it was. *)
Theorem Normalize_drops_days s k :
  coherent s -> mZoneinfo s = None -> year_ok (mYear s) -> valid (mYear s) (mMonth s) (mDayOfMonth s) ->
  whole_days k s -> 1 <= k -> mDayOfMonth s + k <= month_length (mYear s) (mMonth s) ->
  exists s', Normalize s = Some (true, s') /\ mNormalized s' = true /\
    mYear s' = mYear s /\ mMonth s' = mMonth s /\ mDayOfMonth s' = mDayOfMonth s /\ mHours s' = 0.
Proof.
  intros Hc Hz Hy Hv Hw Hk Hfit. pose proof (month_length_bound (mYear s) (mMonth s)). pose proof Hv as [Hm Hd].
  pose proof Hw as (Hn & _).
  destruct (wp_run Normalize (fun r s' => r = true /\ mNormalized s' = true /\
    mYear s' = mYear s /\ mMonth s' = mMonth s /\ mDayOfMonth s' = mDayOfMonth s /\ mHours s' = 0) s) as (r & s' & Hs' & -> & Hs).
  - unfold Normalize. apply wp_bind, wp_gets. rewrite Hn. apply wp_bind, wp_gets. rewrite Hz. apply wp_bind.
    apply (NormalizeTime_whole_days k); [done|lia|]. intros nm. set (s1 := at_time _ _ _ _ _ _).
    apply wp_bind. unfold NormalizeMonth, DECEMBER. apply wp_bind, wp_gets, wp_bind, wp_gets.
    assert (mYear s1 = mYear s /\ mMonth s1 = mMonth s /\ mDayOfMonth s1 = mDayOfMonth s) as (E1 & E2 & E3) by done.
    rewrite E1, E2, Z.gtb_ltb, (proj2 (Z.leb_gt _ _)), (proj2 (Z.ltb_ge _ _)) by lia. apply wp_ret.
    apply wp_bind, wp_gets. rewrite E3. apply wp_bind, wp_int; [lia|]. apply wp_bind, wp_gets, wp_bind, wp_gets. rewrite E1, E2.
    apply wp_bind, GetMonthLength_of_spec; [done|]. rewrite Z.gtb_ltb, (proj2 (Z.ltb_lt _ _)), (proj2 (Z.leb_le _ _)) by lia. cbn [andb negb].
    apply wp_bind, wp_bind. apply GetDayOfWeek_spec; [done|by rewrite E1|by rewrite E1, E2, E3|].
    intros s2 Hc2 Hs2. apply wp_modify. do 5 (apply wp_bind; (apply wp_gets || apply wp_modify)). apply wp_ret.
    assert (mYear s2 = mYear s /\ mMonth s2 = mMonth s /\ mDayOfMonth s2 = mDayOfMonth s /\ mHours s2 = 0) as (F1 & F2 & F3 & F4).
    { unfold same_fields in Hs2. rewrite Hs2. done. }
    destruct s2; cbn in *. done.
  - by exists s'.
Qed.

Lemma Normalize_drops_days_witness :
  exists s', Normalize (at_time 24 0 0 0 false (at_day 2019 1 10 false (new None))) = Some (true, s') /\ mDayOfMonth s' = 10 /\ mHours s' = 0.
Proof.
  destruct (Normalize_drops_days (at_time 24 0 0 0 false (at_day 2019 1 10 false (new None))) 1) as (s' & H1 & _ & _ & _ & H2 & H3).
  - split; [split; intros [=]|split; reflexivity].
  - reflexivity.
  - split; intros [=].
  - split; [split; intros [=]|vm_compute; split; intros [=]].
  - repeat split.
  - lia.
  - vm_compute. intros [=].
  - exists s'. split; [exact H1|split; [exact H2|exact H3]].
Defined.

End CalendarProofs.
