(* ===== verification/Mutex.v ===== *)
(** * The runtime's mutex

    [Mutex] of [src/src/runtime/util/mutex.cpp]: a futex word, the owner, a
    count of contenders and a recursion count.  Threads run [Lock] and [Unlock]
    in atomic steps, interleaved in any order; the kernel's futex puts a thread
    to sleep if the word still is 1, wakes one sleeper on request, and may wake
    any sleeper for no reason (EINTR).  The weak compare-and-exchange may fail
    for no reason too. *)
From S2P Require Import Prelude.

Module Mutex.

(** The fields. *)
Record mem := {
  mState : Z;
  mExclusiveOwner : Z;
  mNumContenders : Z;
  mRecursive : bool;
  mRecursionCount : Z
}.

(** [Mutex(recursive)], with the two atomics zero, as they are in static
    storage; the constructor does not set them. *)
Definition new (recursive : bool) : mem :=
  {| mState := 0; mExclusiveOwner := 0; mNumContenders := 0; mRecursive := recursive; mRecursionCount := 0 |}.

Definition set_state (v : Z) (m : mem) : mem :=
  {| mState := v; mExclusiveOwner := mExclusiveOwner m; mNumContenders := mNumContenders m;
     mRecursive := mRecursive m; mRecursionCount := mRecursionCount m |}.
Definition set_owner (v : Z) (m : mem) : mem :=
  {| mState := mState m; mExclusiveOwner := v; mNumContenders := mNumContenders m;
     mRecursive := mRecursive m; mRecursionCount := mRecursionCount m |}.
Definition add_contenders (n : Z) (m : mem) : mem :=
  {| mState := mState m; mExclusiveOwner := mExclusiveOwner m; mNumContenders := i32 (mNumContenders m + n);
     mRecursive := mRecursive m; mRecursionCount := mRecursionCount m |}.
Definition add_recursion (n : Z) (m : mem) : mem :=
  {| mState := mState m; mExclusiveOwner := mExclusiveOwner m; mNumContenders := mNumContenders m;
     mRecursive := mRecursive m; mRecursionCount := u32 (mRecursionCount m + n) |}.

(** Where a thread is: the step it takes next. *)
Inductive pc :=
  | Idle
  | Lock_owner        (* !mRecursive || mExclusiveOwner != GetTid() *)
  | Lock_load         (* curState = mState *)
  | Lock_cas          (* done = compare_exchange_weak(0, 1) *)
  | Lock_contend      (* mNumContenders++ *)
  | Lock_wait         (* futex(FUTEX_WAIT, 1) *)
  | Lock_asleep
  | Lock_uncontend    (* mNumContenders-- *)
  | Lock_own          (* mExclusiveOwner = GetTid() *)
  | Lock_count        (* mRecursionCount++ *)
  | Unlock_count      (* mRecursionCount--, !mRecursive || mRecursionCount == 0 *)
  | Unlock_load       (* curState = mState *)
  | Unlock_disown     (* mExclusiveOwner = 0 *)
  | Unlock_cas        (* done = compare_exchange_weak(1, 0) *)
  | Unlock_look       (* mNumContenders > 0 *)
  | Unlock_wake.      (* futex(FUTEX_WAKE, 1) *)

#[export] Instance pc_eq_dec : EqDecision pc.
Proof. solve_decision. Defined.

(** [Lock] of the thread [tid]; [spurious] lets the exchange fail. *)
Definition Lock (tid : Z) (spurious : bool) (p : pc) (m : mem) : option (mem * pc) :=
  match p with
  | Lock_owner =>
    Some (m, if negb (mRecursive m) || negb (mExclusiveOwner m =? tid) then Lock_load else Lock_count)
  | Lock_load => Some (m, if mState m =? 0 then Lock_cas else Lock_contend)
  | Lock_cas => Some (if (mState m =? 0) && negb spurious then (set_state 1 m, Lock_own) else (m, Lock_load))
  | Lock_contend => Some (add_contenders 1 m, Lock_wait)
  | Lock_wait => Some (m, if mState m =? 1 then Lock_asleep else Lock_uncontend)
  | Lock_uncontend => Some (add_contenders (-1) m, Lock_load)
  | Lock_own => Some (set_owner tid m, Lock_count)
  | Lock_count => Some (add_recursion 1 m, Idle)
  | _ => None
  end.

(** [Unlock], but for the wake-up at its end. *)
Definition Unlock (spurious : bool) (p : pc) (m : mem) : option (mem * pc) :=
  match p with
  | Unlock_count =>
    let m := add_recursion (-1) m in
    Some (m, if negb (mRecursive m) || (mRecursionCount m =? 0) then Unlock_load else Idle)
  | Unlock_load => Some (m, if mState m =? 1 then Unlock_disown else Unlock_load)
  | Unlock_disown => Some (set_owner 0 m, Unlock_cas)
  | Unlock_cas => Some (if (mState m =? 1) && negb spurious then (set_state 0 m, Unlock_look) else (m, Unlock_load))
  | Unlock_look => Some (m, if mNumContenders m >? 0 then Unlock_wake else Idle)
  | _ => None
  end.

(** A thread, with the number of [Lock]s it has yet to undo. *)
Record thread := { at_pc : pc; depth : Z }.

Record config := { shared : mem; threads : gmap nat thread }.

Definition tid (i : nat) : Z := Z.of_nat i + 1.

Definition becomes (i : nat) (t : thread) (m : mem) (c : config) : config :=
  {| shared := m; threads := <[i := t]> (threads c) |}.

(** A thread may lock when it is idle, again if the mutex is recursive, and
    unlock what it has locked.  [Lock_count] ends a lock. *)
Inductive step : config -> config -> Prop :=
  | begin_lock c i d :
      threads c !! i = Some {| at_pc := Idle; depth := d |} ->
      (d = 0 \/ mRecursive (shared c) = true) -> d < 4294967295 ->
      step c (becomes i {| at_pc := Lock_owner; depth := d |} (shared c) c)
  | begin_unlock c i d :
      threads c !! i = Some {| at_pc := Idle; depth := d |} -> 0 < d ->
      step c (becomes i {| at_pc := Unlock_count; depth := d - 1 |} (shared c) c)
  | run_lock c i p d spurious m p' :
      threads c !! i = Some {| at_pc := p; depth := d |} -> Lock (tid i) spurious p (shared c) = Some (m, p') ->
      step c (becomes i {| at_pc := p'; depth := if decide (p = Lock_count) then d + 1 else d |} m c)
  | run_unlock c i p d spurious m p' :
      threads c !! i = Some {| at_pc := p; depth := d |} -> Unlock spurious p (shared c) = Some (m, p') ->
      step c (becomes i {| at_pc := p'; depth := d |} m c)
  | interrupted c i d :
      threads c !! i = Some {| at_pc := Lock_asleep; depth := d |} ->
      step c (becomes i {| at_pc := Lock_uncontend; depth := d |} (shared c) c)
  | wake_one c i d j d' :
      threads c !! i = Some {| at_pc := Unlock_wake; depth := d |} ->
      threads c !! j = Some {| at_pc := Lock_asleep; depth := d' |} ->
      step c (becomes i {| at_pc := Idle; depth := d |} (shared c)
                (becomes j {| at_pc := Lock_uncontend; depth := d' |} (shared c) c))
  | wake_none c i d :
      threads c !! i = Some {| at_pc := Unlock_wake; depth := d |} ->
      (forall j d', threads c !! j <> Some {| at_pc := Lock_asleep; depth := d' |}) ->
      step c (becomes i {| at_pc := Idle; depth := d |} (shared c) c).

(** [n] idle threads and a new mutex. *)
Definition start (recursive : bool) (n : nat) : config :=
  {| shared := new recursive; threads := list_to_map ((fun i => (i, {| at_pc := Idle; depth := 0 |})) <$> seq 0 n) |}.

Definition reachable (recursive : bool) (n : nat) (c : config) : Prop := rtc step (start recursive n) c.

(** ** What the mutex promises *)

(** Between the exchange that takes the lock and the one that gives it up. *)
Definition inside (t : thread) : Prop :=
  0 < depth t \/
  match at_pc t with
  | Lock_own | Lock_count | Unlock_count | Unlock_load | Unlock_disown | Unlock_cas => True
  | _ => False
  end.

(** On the way into [Lock], and awake. *)
Definition trying (t : thread) : Prop :=
  match at_pc t with
  | Lock_owner | Lock_load | Lock_cas | Lock_contend | Lock_wait | Lock_uncontend => True
  | _ => False
  end.

Definition asleep (t : thread) : Prop := at_pc t = Lock_asleep.

(** About to wake a sleeper. *)
Definition waking (t : thread) : Prop := match at_pc t with Unlock_look | Unlock_wake => True | _ => False end.

#[export] Instance inside_dec t : Decision (inside t).
Proof. unfold inside. destruct (at_pc t); apply _. Defined.

End Mutex.
