(* ===== verification/MutexProofs.v ===== *)
(** * The mutex excludes and wakes

    An invariant of all interleavings of [Lock] and [Unlock]: at most one thread
    is inside, the owner and the recursion count are its own, and a sleeper is
    never left behind on a free mutex. *)
From S2P Require Import Prelude.
From S2P Require Import Mutex.

Module MutexProofs.
Import Mutex.

(** ** What holds of each thread *)

(** Counted in [mNumContenders]. *)
Definition contending (t : thread) : bool :=
  match at_pc t with Lock_wait | Lock_asleep | Lock_uncontend => true | _ => false end.

(** The owner field while thread [i] is inside, at [p]: the thread's, until it
    starts to give the lock up. *)
Definition owning (p : pc) (i : nat) (owner : Z) : Prop :=
  match p with
  | Idle | Lock_owner | Lock_count | Unlock_count => owner = tid i
  | Unlock_cas => owner = 0
  | _ => True
  end.

(** The depths a thread may have where it is. *)
Definition depth_ok (recursive : bool) (t : thread) : Prop :=
  0 <= depth t <= 4294967295 /\
  match at_pc t with
  | Idle => recursive = true \/ depth t <= 1
  | Lock_owner | Lock_count => (depth t = 0 \/ recursive = true) /\ depth t < 4294967295
  | Unlock_count => (depth t = 0 \/ recursive = true) /\ depth t < 4294967295
  | _ => depth t = 0
  end.

Definition recursion (t : thread) : Z := depth t + (if decide (at_pc t = Unlock_count) then 1 else 0).

Record local (m : mem) (i : nat) (t : thread) : Prop := {
  local_depth : depth_ok (mRecursive m) t;
  local_inside : inside t -> mState m = 1 /\ mRecursionCount m = recursion t /\
    owning (at_pc t) i (mExclusiveOwner m);
  local_outside : ~ inside t -> mExclusiveOwner m <> tid i
}.

Definition contenders (ts : gmap nat thread) : Z := Z.of_nat (size (filter (fun p : nat * thread => contending p.2 = true) ts)).

(** A sleeper on a free mutex has company. *)
Definition awake (c : config) : Prop :=
  mState (shared c) = 0 -> (exists i t, threads c !! i = Some t /\ asleep t) ->
  exists i t, threads c !! i = Some t /\ (trying t \/ waking t).

Record Inv (c : config) : Prop := {
  inv_local : forall i t, threads c !! i = Some t -> local (shared c) i t;
  inv_excl : forall i j t t', threads c !! i = Some t -> threads c !! j = Some t' -> inside t -> inside t' -> i = j;
  inv_free : (forall i t, threads c !! i = Some t -> ~ inside t) -> mState (shared c) = 0 /\ mRecursionCount (shared c) = 0;
  inv_contenders : mNumContenders (shared c) = contenders (threads c);
  inv_few : Z.of_nat (size (threads c)) < 2147483647;
  inv_awake : awake c
}.

Lemma contenders_update ts i t t' : ts !! i = Some t ->
  contenders (<[i := t']> ts) = contenders ts - (if contending t then 1 else 0) + (if contending t' then 1 else 0).
Proof.
  intros Hi. unfold contenders. rewrite <- (insert_delete_id ts i t Hi) at 2. rewrite <- insert_delete_eq.
  assert (forall t, Z.of_nat (size (filter (fun p : nat * thread => contending p.2 = true) (<[i := t]> (delete i ts)))) =
    Z.of_nat (size (filter (fun p : nat * thread => contending p.2 = true) (delete i ts))) + (if contending t then 1 else 0)) as Hone.
  { intros u. rewrite map_filter_insert; cbn. case_decide as E.
    - rewrite E, map_size_insert_None by (apply map_lookup_filter_None_2; left; apply lookup_delete_eq). lia.
    - apply not_true_is_false in E. rewrite E, delete_id by apply lookup_delete_eq. lia. }
  rewrite !Hone. lia.
Qed.

Lemma contenders_bound ts : 0 <= contenders ts <= Z.of_nat (size ts).
Proof.
  unfold contenders. pose proof (map_size_filter (fun p : nat * thread => contending p.2 = true) ts). lia.
Qed.

Lemma contenders_pos ts i t : ts !! i = Some t -> contending t = true -> 0 < contenders ts.
Proof.
  intros Hi Ht. pose proof (contenders_update ts i t {| at_pc := Idle; depth := 0 |} Hi) as H. rewrite Ht in H. cbn in H.
  pose proof (contenders_bound (<[i := {| at_pc := Idle; depth := 0 |}]> ts)). lia.
Qed.

Lemma tid_inj i j : tid i = tid j -> i = j.
Proof. unfold tid. lia. Qed.

Lemma tid_pos i : 0 < tid i.
Proof. unfold tid. lia. Qed.

(** ** One thread moves *)

Definition agree (m m' : mem) : Prop :=
  mState m' = mState m /\ mExclusiveOwner m' = mExclusiveOwner m /\ mRecursionCount m' = mRecursionCount m.

Lemma step_keeps c i t t' m' : Inv c -> threads c !! i = Some t ->
  mRecursive m' = mRecursive (shared c) ->
  local m' i t' ->
  (agree (shared c) m' \/ ((inside t \/ mState (shared c) = 0) /\
     (mExclusiveOwner m' = mExclusiveOwner (shared c) \/ mExclusiveOwner m' = 0 \/ mExclusiveOwner m' = tid i))) ->
  (inside t' -> inside t \/ mState (shared c) = 0) ->
  (~ inside t' -> if decide (inside t) then mState m' = 0 /\ mRecursionCount m' = 0 else agree (shared c) m') ->
  mNumContenders m' = mNumContenders (shared c) - (if contending t then 1 else 0) + (if contending t' then 1 else 0) ->
  awake (becomes i t' m' c) -> Inv (becomes i t' m' c).
Proof.
  intros I Hi Hrec Hlocal Hmem Hin Hout Hcont Hawake. split; cbn.
  - intros j u Hj. destruct (decide (j = i)) as [->|Hne].
    { rewrite lookup_insert_eq in Hj. by injection Hj as <-. }
    rewrite lookup_insert_ne in Hj by done. destruct (inv_local c I j u Hj) as [Hd Hu Hnu]. split; rewrite ?Hrec; [done| |].
    + intros Hju. destruct Hmem as [(-> & -> & ->)|[[Ht|Hfree] _]]; [by apply Hu| |].
      * by pose proof (inv_excl c I j i u t Hj Hi Hju Ht).
      * destruct (Hu Hju) as [Hone _]. lia.
    + intros Hju. specialize (Hnu Hju). destruct Hmem as [(_ & -> & _)|[_ [->|[->| ->]]]]; [done|done|pose proof (tid_pos j); lia|].
      intros E. apply tid_inj in E. congruence.
  - assert (forall j u, j <> i -> threads c !! j = Some u -> inside u -> inside t' -> False) as Hother.
    { intros j u Hne Hj Hju Ht'. destruct (Hin Ht') as [Ht|Hfree].
      - by pose proof (inv_excl c I j i u t Hj Hi Hju Ht).
      - destruct (local_inside _ _ _ (inv_local c I j u Hj) Hju) as [Hone _]. lia. }
    intros j k u v Hj Hk Hju Hkv.
    destruct (decide (j = i)) as [->|Hjne], (decide (k = i)) as [->|Hkne]; rewrite ?lookup_insert_eq, ?lookup_insert_ne in * by done; [done| | |].
    + injection Hj as <-. by destruct (Hother k v).
    + injection Hk as <-. by destruct (Hother j u).
    + by apply (inv_excl c I j k u v).
  - intros Hnone. assert (~ inside t') as Ht' by (apply (Hnone i); apply lookup_insert_eq). specialize (Hout Ht').
    case_decide as Ht; [done|]. destruct Hout as (-> & _ & ->). apply (inv_free c I). intros j u Hj.
    destruct (decide (j = i)) as [->|Hne]; [rewrite Hi in Hj; by injection Hj as <-|]. apply (Hnone j). by rewrite lookup_insert_ne.
  - rewrite Hcont, (inv_contenders c I). by rewrite (contenders_update _ _ t).
  - rewrite map_size_insert, Hi. apply (inv_few c I).
  - exact Hawake.
Qed.

(** [awake] when the thread that moved is trying or waking afterwards. *)
Lemma awake_self c i t' m' : trying t' \/ waking t' -> awake (becomes i t' m' c).
Proof. intros Ht _ _. exists i, t'. split; [apply lookup_insert_eq|done]. Qed.

Lemma awake_held c i t' m' : mState m' = 1 -> awake (becomes i t' m' c).
Proof. intros Hm Hz. cbn in Hz. lia. Qed.

(** When it was neither before, and does not fall asleep. *)
Lemma awake_frame c i t t' m' : Inv c -> threads c !! i = Some t -> ~ (trying t \/ waking t) -> ~ asleep t' ->
  mState m' = mState (shared c) -> awake (becomes i t' m' c).
Proof.
  intros I Hi Ht Ht' Hm Hz (j & u & Hj & Hju). cbn in *. rewrite Hm in Hz.
  destruct (inv_awake c I Hz) as (k & v & Hk & Hkv).
  - destruct (decide (j = i)) as [->|Hne]; [rewrite lookup_insert_eq in Hj; by injection Hj as <-|].
    rewrite lookup_insert_ne in Hj by done. by exists j, u.
  - exists k, v. split; [|done]. rewrite lookup_insert_ne; [done|]. intros ->. rewrite Hi in Hk. by injection Hk as <-.
Qed.

(** When nobody sleeps. *)
Lemma awake_nobody c i t' m' : (forall j u, threads c !! j = Some u -> ~ asleep u) -> ~ asleep t' -> awake (becomes i t' m' c).
Proof.
  intros Hno Ht' _ (j & u & Hj & Hju). exfalso. cbn in Hj. destruct (decide (j = i)) as [->|Hne].
  - rewrite lookup_insert_eq in Hj. by injection Hj as <-.
  - rewrite lookup_insert_ne in Hj by done. by apply (Hno j u).
Qed.

(** ** Every step keeps the invariant *)

(** What is known of the thread that moves. *)
Ltac known I Hi Hd Hpc Hin Hout :=
  let H := fresh in pose proof (inv_local _ I _ _ Hi) as H;
  destruct H as [[Hd Hpc] Hin Hout]; unfold inside, recursion in Hin, Hout; cbn in Hd, Hpc, Hin, Hout.

(** The side conditions of [step_keeps] on concrete threads. *)
Ltac settle :=
  unfold inside, recursion, depth_ok, agree, contending, owning in *; cbn in *;
  repeat (case_decide; cbn in *); try done; intuition (try done; try congruence; try lia).

Lemma same_memory c i t t' : Inv c -> threads c !! i = Some t -> depth_ok (mRecursive (shared c)) t' ->
  (inside t' <-> inside t) -> (inside t' -> recursion t' = recursion t /\ (forall o, owning (at_pc t) i o -> owning (at_pc t') i o)) ->
  contending t' = contending t -> awake (becomes i t' (shared c) c) -> Inv (becomes i t' (shared c) c).
Proof.
  intros I Hi Hd Hin Hsame Hcont Hawake. pose proof (inv_local _ I _ _ Hi) as [_ Hi1 Hi2].
  apply (step_keeps c i t); [done|done|done| | | | | |done].
  - split; [done| |intros Ho; apply Hi2; tauto]. intros Ht'. destruct (Hsame Ht') as [-> Hown].
    destruct (Hi1 (proj1 Hin Ht')) as (? & ? & ?). split_and!; auto.
  - by left.
  - tauto.
  - intros Ht'. rewrite decide_False by tauto. done.
  - rewrite Hcont. lia.
Qed.

Lemma inv_begin_lock c i d : Inv c -> threads c !! i = Some {| at_pc := Idle; depth := d |} ->
  (d = 0 \/ mRecursive (shared c) = true) -> d < 4294967295 ->
  Inv (becomes i {| at_pc := Lock_owner; depth := d |} (shared c) c).
Proof.
  intros I Hi Hd Hlt. known I Hi Hd0 Hpc Hin Hout.
  eapply same_memory; [done|exact Hi|settle|settle|settle|done|apply awake_self; by left].
Qed.

Lemma inv_begin_unlock c i d : Inv c -> threads c !! i = Some {| at_pc := Idle; depth := d |} -> 0 < d ->
  Inv (becomes i {| at_pc := Unlock_count; depth := d - 1 |} (shared c) c).
Proof.
  intros I Hi Hd. known I Hi Hd0 Hpc Hin Hout.
  eapply same_memory; [done|exact Hi| | | |done|].
  - split; cbn; [lia|]. split; [|lia]. destruct Hpc; [by right|left; lia].
  - settle.
  - unfold recursion; cbn. rewrite decide_True, decide_False by done. split; [lia|done].
  - apply awake_held. apply Hin. by left.
Qed.

Lemma inv_interrupted c i d : Inv c -> threads c !! i = Some {| at_pc := Lock_asleep; depth := d |} ->
  Inv (becomes i {| at_pc := Lock_uncontend; depth := d |} (shared c) c).
Proof.
  intros I Hi. known I Hi Hd0 Hpc Hin Hout.
  eapply same_memory; [done|exact Hi|settle|settle|settle|done|apply awake_self; by left].
Qed.

Lemma inv_lock_owner c i d : Inv c -> threads c !! i = Some {| at_pc := Lock_owner; depth := d |} ->
  Inv (becomes i {| at_pc := if negb (mRecursive (shared c)) || negb (mExclusiveOwner (shared c) =? tid i) then Lock_load else Lock_count;
                    depth := d |} (shared c) c).
Proof.
  intros I Hi. known I Hi Hd Hpc Hin Hout.
  destruct (mRecursive (shared c)) eqn:Hr; cbn [negb orb].
  - destruct (Z.eqb_spec (mExclusiveOwner (shared c)) (tid i)) as [E|E]; cbn [negb].
    + assert (0 < d) by (destruct (decide (0 < d)); [done|exfalso; apply Hout; [lia|done]]).
      eapply same_memory; [done|exact Hi|rewrite Hr; settle|settle|settle|done|apply awake_held; apply Hin; by left].
    + assert (d = 0) by (destruct (decide (0 < d)); [exfalso; apply E; apply Hin; by left|lia]).
      eapply same_memory; [done|exact Hi|rewrite Hr; settle|settle|settle|done|apply awake_self; by left].
  - eapply same_memory; [done|exact Hi|rewrite Hr; settle|settle|settle|done|apply awake_self; by left].
Qed.

(** Nobody is inside a free mutex. *)
Lemma free_outside c : Inv c -> mState (shared c) = 0 ->
  (forall j u, threads c !! j = Some u -> ~ inside u) /\ mRecursionCount (shared c) = 0.
Proof.
  intros I Hz.
  assert (forall j u, threads c !! j = Some u -> ~ inside u) as Hnone.
  { intros j u Hj Hu. destruct (local_inside _ _ _ (inv_local c I j u Hj) Hu). lia. }
  split; [done|]. by apply (inv_free c I).
Qed.

Lemma inv_lock_cas c i d (spurious : bool) m p' : Inv c -> threads c !! i = Some {| at_pc := Lock_cas; depth := d |} ->
  (if (mState (shared c) =? 0) && negb spurious then (set_state 1 (shared c), Lock_own) else (shared c, Lock_load)) = (m, p') ->
  Inv (becomes i {| at_pc := p'; depth := d |} m c).
Proof.
  intros I Hi. known I Hi Hd Hpc Hin Hout.
  destruct (Z.eqb_spec (mState (shared c)) 0) as [E|E]; cbn [andb]; [destruct spurious; cbn [negb]|]; intros [= <- <-].
  1, 3: eapply same_memory; [done|exact Hi|settle|settle|settle|done|apply awake_self; by left].
  destruct (free_outside c I E) as [_ Hcount].
  apply (step_keeps c i {| at_pc := Lock_cas; depth := d |}); [done|done|done| | | | |cbn; lia|by apply awake_held].
  - split; settle.
  - right. split; [by right|by left].
  - by right.
  - settle.
Qed.

(** Counting a contender in or out. *)
Lemma inv_contend c i p p' d n : Inv c -> threads c !! i = Some {| at_pc := p; depth := d |} ->
  (p = Lock_contend /\ p' = Lock_wait /\ n = 1) \/ (p = Lock_uncontend /\ p' = Lock_load /\ n = -1) ->
  Inv (becomes i {| at_pc := p'; depth := d |} (add_contenders n (shared c)) c).
Proof.
  intros I Hi Hp. known I Hi Hd Hpc Hin Hout.
  pose proof (contenders_bound (threads c)) as Hb. pose proof (inv_few c I) as Hf. pose proof (inv_contenders c I) as Hc.
  assert (mNumContenders (add_contenders n (shared c)) = mNumContenders (shared c) + n) as Hn.
  { apply wrap_s_id; [done|]. unfold fits_s. cbn. change (2 ^ 31) with 2147483648. lia. }
  apply (step_keeps c i {| at_pc := p; depth := d |}); [done|done|done| | | | | |].
  - destruct Hp as [(-> & -> & _)|(-> & -> & _)]; split; settle.
  - by left.
  - destruct Hp as [(-> & -> & _)|(-> & -> & _)]; settle.
  - destruct Hp as [(-> & -> & _)|(-> & -> & _)]; settle.
  - rewrite Hn. destruct Hp as [(-> & -> & ->)|(-> & -> & ->)]; cbn; lia.
  - apply awake_self. left. by destruct Hp as [(_ & -> & _)|(_ & -> & _)].
Qed.

Lemma inv_lock_own c i d : Inv c -> threads c !! i = Some {| at_pc := Lock_own; depth := d |} ->
  Inv (becomes i {| at_pc := Lock_count; depth := d |} (set_owner (tid i) (shared c)) c).
Proof.
  intros I Hi. known I Hi Hd Hpc Hin Hout. destruct Hin as (H1 & H2 & _); [by right|].
  apply (step_keeps c i {| at_pc := Lock_own; depth := d |}); [done|done|done| | | | |cbn; lia|by apply awake_held].
  - split; settle.
  - right. split; [left; by right|by right; right].
  - intros _. left. by right.
  - settle.
Qed.

Lemma inv_lock_count c i d : Inv c -> threads c !! i = Some {| at_pc := Lock_count; depth := d |} ->
  Inv (becomes i {| at_pc := Idle; depth := d + 1 |} (add_recursion 1 (shared c)) c).
Proof.
  intros I Hi. known I Hi Hd Hpc Hin Hout. destruct Hin as (H1 & H2 & H3); [by right|]. rewrite decide_False in H2 by done.
  assert (mRecursionCount (add_recursion 1 (shared c)) = d + 1) as Hn.
  { cbn. rewrite H2. replace (d + 0 + 1) with (d + 1) by lia. apply wrap_u_id. unfold fits_u. change (2 ^ 32) with 4294967296. lia. }
  apply (step_keeps c i {| at_pc := Lock_count; depth := d |}); [done|done|done| | | | |cbn; lia|by apply awake_held].
  - split; [settle| |].
    + intros _. rewrite Hn. unfold recursion. cbn. rewrite decide_False by done. split_and!; [done|lia|done].
    + intros Hno. exfalso. apply Hno. left. cbn. lia.
  - right. split; [left; by right|by left].
  - intros _. left. by right.
  - intros Hno. exfalso. apply Hno. left. cbn. lia.
Qed.

Lemma inv_run_lock c i p d spurious m p' : Inv c -> threads c !! i = Some {| at_pc := p; depth := d |} ->
  Lock (tid i) spurious p (shared c) = Some (m, p') ->
  Inv (becomes i {| at_pc := p'; depth := if decide (p = Lock_count) then d + 1 else d |} m c).
Proof.
  intros I Hi HL. destruct p; try discriminate HL; cbn in HL; rewrite ?decide_False by done.
  - injection HL as <- <-. by apply inv_lock_owner.
  - injection HL as <- <-. known I Hi Hd Hpc Hin Hout. destruct (_ =? 0);
      (eapply same_memory; [done|exact Hi|settle|settle|settle|done|apply awake_self; by left]).
  - injection HL as HL. by eapply inv_lock_cas.
  - injection HL as <- <-. eapply inv_contend; [done|exact Hi|by left].
  - injection HL as <- <-. known I Hi Hd Hpc Hin Hout. destruct (Z.eqb_spec (mState (shared c)) 1).
    + eapply same_memory; [done|exact Hi|settle|settle|settle|done|by apply awake_held].
    + eapply same_memory; [done|exact Hi|settle|settle|settle|done|apply awake_self; by left].
  - injection HL as <- <-. eapply inv_contend; [done|exact Hi|by right].
  - injection HL as <- <-. by apply inv_lock_own.
  - rewrite decide_True by done. injection HL as <- <-. by apply inv_lock_count.
Qed.

Lemma inv_unlock_count c i d : Inv c -> threads c !! i = Some {| at_pc := Unlock_count; depth := d |} ->
  Inv (becomes i {| at_pc := if negb (mRecursive (shared c)) || (mRecursionCount (add_recursion (-1) (shared c)) =? 0)
                             then Unlock_load else Idle; depth := d |} (add_recursion (-1) (shared c)) c).
Proof.
  intros I Hi. known I Hi Hd Hpc Hin Hout. destruct Hin as (H1 & H2 & H3); [by right|]. rewrite decide_True in H2 by done.
  assert (mRecursionCount (add_recursion (-1) (shared c)) = d) as Hn.
  { cbn. rewrite H2. replace (d + 1 + -1) with d by lia. apply wrap_u_id. unfold fits_u. change (2 ^ 32) with 4294967296. lia. }
  apply (step_keeps c i {| at_pc := Unlock_count; depth := d |}); [done|done|done| | | | | |by apply awake_held];
    rewrite ?Hn; destruct (mRecursive (shared c)) eqn:Hr, (Z.eqb_spec d 0) as [Hz|Hz]; cbn [negb orb];
    first [solve [split; [|rewrite Hn|]; cbn [mRecursive add_recursion]; rewrite ?Hr; settle]
          |solve [right; split; [left; by right|by left]]
          |solve [intros _; left; by right]
          |solve [settle]].
Qed.

Lemma inv_unlock_disown c i d : Inv c -> threads c !! i = Some {| at_pc := Unlock_disown; depth := d |} ->
  Inv (becomes i {| at_pc := Unlock_cas; depth := d |} (set_owner 0 (shared c)) c).
Proof.
  intros I Hi. known I Hi Hd Hpc Hin Hout. destruct Hin as (H1 & H2 & _); [by right|].
  apply (step_keeps c i {| at_pc := Unlock_disown; depth := d |}); [done|done|done| | | | |cbn; lia|by apply awake_held].
  - split; settle.
  - right. split; [left; by right|by right; left].
  - intros _. left. by right.
  - settle.
Qed.

Lemma inv_unlock_cas c i d (spurious : bool) m p' : Inv c -> threads c !! i = Some {| at_pc := Unlock_cas; depth := d |} ->
  (if (mState (shared c) =? 1) && negb spurious then (set_state 0 (shared c), Unlock_look) else (shared c, Unlock_load)) = (m, p') ->
  Inv (becomes i {| at_pc := p'; depth := d |} m c).
Proof.
  intros I Hi. known I Hi Hd Hpc Hin Hout. destruct Hin as (H1 & H2 & H3); [by right|]. rewrite decide_False in H2 by done.
  rewrite H1. cbn [Z.eqb Pos.eqb andb]. destruct spurious; cbn [negb]; intros [= <- <-].
  - eapply same_memory; [done|exact Hi|settle|settle|settle|done|by apply awake_held].
  - apply (step_keeps c i {| at_pc := Unlock_cas; depth := d |}); [done|done|done| | | | |cbn; lia|apply awake_self; by right].
    + pose proof (tid_pos i). split; settle.
    + right. split; [left; by right|by left].
    + intros _. left. by right.
    + intros _. rewrite decide_True by (by right). cbn. lia.
Qed.

(** A thread that sees no contender has no sleeper to wake. *)
Lemma no_sleeper c : Inv c -> mNumContenders (shared c) <= 0 -> forall j u, threads c !! j = Some u -> ~ asleep u.
Proof.
  intros I Hn j u Hj Hu. rewrite (inv_contenders c I) in Hn.
  pose proof (contenders_pos _ _ _ Hj) as Hpos. unfold contending in Hpos. rewrite Hu in Hpos. specialize (Hpos eq_refl). lia.
Qed.

Lemma inv_run_unlock c i p d spurious m p' : Inv c -> threads c !! i = Some {| at_pc := p; depth := d |} ->
  Unlock spurious p (shared c) = Some (m, p') -> Inv (becomes i {| at_pc := p'; depth := d |} m c).
Proof.
  intros I Hi HL. destruct p; try discriminate HL; cbn in HL.
  - injection HL as <- <-. by apply inv_unlock_count.
  - injection HL as <- <-. known I Hi Hd Hpc Hin Hout. destruct Hin as (H1 & H2 & _); [by right|]. rewrite H1. cbn [Z.eqb Pos.eqb].
    eapply same_memory; [done|exact Hi|settle|settle|settle|done|by apply awake_held].
  - injection HL as <- <-. by apply inv_unlock_disown.
  - injection HL as HL. by eapply inv_unlock_cas.
  - injection HL as <- <-. known I Hi Hd Hpc Hin Hout. destruct (Z.gtb_spec (mNumContenders (shared c)) 0).
    + eapply same_memory; [done|exact Hi|settle|settle|settle|done|apply awake_self; by right].
    + eapply same_memory; [done|exact Hi|settle|settle|settle|done|].
      apply awake_nobody; [by apply no_sleeper|done].
Qed.

Lemma inv_wake_none c i d : Inv c -> threads c !! i = Some {| at_pc := Unlock_wake; depth := d |} ->
  (forall j d', threads c !! j <> Some {| at_pc := Lock_asleep; depth := d' |}) ->
  Inv (becomes i {| at_pc := Idle; depth := d |} (shared c) c).
Proof.
  intros I Hi Hno. known I Hi Hd Hpc Hin Hout. eapply same_memory; [done|exact Hi|settle|settle|settle|done|].
  apply awake_nobody; [|done]. intros j [q d'] Hj Hu. unfold asleep in Hu. cbn in Hu. subst. by apply (Hno j d').
Qed.

Lemma inv_wake_one c i d j d' : Inv c -> threads c !! i = Some {| at_pc := Unlock_wake; depth := d |} ->
  threads c !! j = Some {| at_pc := Lock_asleep; depth := d' |} ->
  Inv (becomes i {| at_pc := Idle; depth := d |} (shared c)
         (becomes j {| at_pc := Lock_uncontend; depth := d' |} (shared c) c)).
Proof.
  intros I Hi Hj. assert (j <> i) as Hne by congruence. pose proof (inv_interrupted c j d' I Hj) as I'.
  assert (threads (becomes j {| at_pc := Lock_uncontend; depth := d' |} (shared c) c) !! i = Some {| at_pc := Unlock_wake; depth := d |}) as Hi'
    by (cbn; by rewrite lookup_insert_ne).
  known I' Hi' Hd Hpc Hin Hout.
  change (shared c) with (shared (becomes j {| at_pc := Lock_uncontend; depth := d' |} (shared c) c)) at 1.
  eapply same_memory; [done|exact Hi'|settle|settle|settle|done|].
  intros _ _. exists j, {| at_pc := Lock_uncontend; depth := d' |}. split; [|by left]. cbn.
  rewrite lookup_insert_ne by done. apply lookup_insert_eq.
Qed.

Lemma inv_step c c' : Inv c -> step c c' -> Inv c'.
Proof.
  intros I Hs. destruct Hs.
  - by apply inv_begin_lock.
  - by apply inv_begin_unlock.
  - by eapply inv_run_lock.
  - by eapply inv_run_unlock.
  - by apply inv_interrupted.
  - by apply inv_wake_one.
  - by apply inv_wake_none.
Qed.

(** ** From the start *)

Lemma start_thread r n i t : threads (start r n) !! i = Some t -> t = {| at_pc := Idle; depth := 0 |}.
Proof.
  intros H. apply elem_of_list_to_map_2 in H. apply list_elem_of_fmap in H as (j & [= _ ->] & _). done.
Qed.

Lemma start_size r n : (size (threads (start r n)) <= n)%nat.
Proof.
  cbn. rewrite map_size_list_to_map.
  - by rewrite length_fmap, length_seq.
  - rewrite <- list_fmap_compose, list_fmap_id. apply NoDup_seq.
Qed.

Lemma start_inv r n : Z.of_nat n < 2147483647 -> Inv (start r n).
Proof.
  intros Hn. split.
  - intros i t Ht. apply start_thread in Ht as ->. split.
    + split; cbn; [lia|]. right. lia.
    + intros [H|[]]. cbn in H. lia.
    + intros _. cbn. pose proof (tid_pos i). lia.
  - intros i j t u Hi Hj Ht Hu. apply start_thread in Hi as ->. destruct Ht as [H|[]]. cbn in H. lia.
  - done.
  - unfold contenders. rewrite (map_empty_filter_2 _ (threads (start r n))); [done|].
    intros i t Ht. apply start_thread in Ht as ->. done.
  - pose proof (start_size r n). lia.
  - intros _ (i & t & Ht & Hasleep). apply start_thread in Ht as ->. done.
Qed.

Lemma inv_reachable r n c : Z.of_nat n < 2147483647 -> reachable r n c -> Inv c.
Proof.
  intros Hn. unfold reachable. pose proof (start_inv r n Hn) as I. generalize dependent (start r n). intros c0 I H.
  induction H as [|c0 c1 c2 Hs _ IH]; [done|]. apply IH. by eapply inv_step.
Qed.

(** ** Schedules *)

(** Thread [i] takes its next step; an idle one unlocks if told to, and locks
    otherwise. *)
Definition play1 (c : config) (who : nat * bool) : option config :=
  let '(i, unlock) := who in
  t ← threads c !! i;
  let '{| at_pc := p; depth := d |} := t in
  match p with
  | Idle =>
    if unlock
    then guard (0 < d);; Some (becomes i {| at_pc := Unlock_count; depth := d - 1 |} (shared c) c)
    else guard (d = 0 \/ mRecursive (shared c) = true);; guard (d < 4294967295);;
         Some (becomes i {| at_pc := Lock_owner; depth := d |} (shared c) c)
  | _ =>
    match Lock (tid i) false p (shared c) with
    | Some (m, p') => Some (becomes i {| at_pc := p'; depth := if decide (p = Lock_count) then d + 1 else d |} m c)
    | None =>
      '(m, p') ← Unlock false p (shared c);
      Some (becomes i {| at_pc := p'; depth := d |} m c)
    end
  end.

Fixpoint play (c : config) (schedule : list (nat * bool)) : option config :=
  match schedule with
  | [] => Some c
  | who :: rest => c' ← play1 c who; play c' rest
  end.

Lemma play1_step c who c' : play1 c who = Some c' -> step c c'.
Proof.
  destruct who as [i unlock]. unfold play1. intros ([p d] & Hi & H)%option.bind_Some.
  destruct (decide (p = Idle)) as [->|Hp].
  - destruct unlock; repeat case_guard; try discriminate H; injection H as <-; by constructor.
  - destruct (Lock (tid i) false p (shared c)) as [[m p']|] eqn:EL.
    + assert (Some (becomes i {| at_pc := p'; depth := if decide (p = Lock_count) then d + 1 else d |} m c) = Some c') as [= <-]
        by (by destruct p). by eapply run_lock.
    + destruct (Unlock false p (shared c)) as [[m p']|] eqn:EU; [|by destruct p].
      assert (Some (becomes i {| at_pc := p'; depth := d |} m c) = Some c') as [= <-] by (by destruct p).
      by eapply run_unlock.
Qed.

Lemma schedule_reachable r n schedule c : play (start r n) schedule = Some c -> reachable r n c.
Proof.
  unfold reachable. generalize (start r n). induction schedule as [|who rest IH]; intros c0; cbn; [by intros [= ->]|].
  intros (c1 & H1 & H2)%option.bind_Some. eapply rtc_l; [by eapply play1_step|by apply IH].
Qed.

Definition played (r : bool) (n : nat) (schedule : list (nat * bool)) : config :=
  default (start r n) (play (start r n) schedule).

(** The first thread locks; the second tries to and falls asleep. *)
Definition contended : list (nat * bool) := replicate 6 (0%nat, false) ++ replicate 5 (1%nat, false).

Lemma played_reachable r n schedule : is_Some (play (start r n) schedule) -> reachable r n (played r n schedule).
Proof. intros [c Hc]. apply schedule_reachable with schedule. unfold played. by rewrite Hc. Qed.

(** ** The theorems *)

(** C15: in every interleaving of any number of threads, the mutex excludes:
    two threads between taking and giving up the lock are one thread, the word
    then is 1, and while that thread runs its own code the owner field is its
    and the recursion count is the number of its unmatched [Lock]s. *)
Theorem mutual_exclusion (r : bool) (n : nat) (c : config) (i j : nat) (t u : thread)
  (Hn : Z.of_nat n < 2147483647) (Hr : reachable r n c)
  (Hi : threads c !! i = Some t) (Hj : threads c !! j = Some u) (Ht : inside t) (Hu : inside u) :
  i = j /\ mState (shared c) = 1 /\
  (at_pc t = Idle -> mExclusiveOwner (shared c) = tid i /\ mRecursionCount (shared c) = depth t).
Proof.
  pose proof (inv_reachable r n c Hn Hr) as I. destruct (local_inside _ _ _ (inv_local c I i t Hi) Ht) as (H1 & H2 & H3).
  split; [by apply (inv_excl c I i j t u)|]. split; [done|]. intros E. rewrite E in H3. split; [done|].
  rewrite H2. unfold recursion. rewrite E, decide_False by done. lia.
Qed.

Lemma mutual_exclusion_witness : exists c t, reachable true 2 c /\ threads c !! 0%nat = Some t /\ inside t /\
  mExclusiveOwner (shared c) = 1 /\ mRecursionCount (shared c) = 1.
Proof.
  exists (played true 2 contended), {| at_pc := Idle; depth := 1 |}.
  assert (reachable true 2 (played true 2 contended)) as Hr by (apply played_reachable; vm_compute; by eexists).
  split_and!; [done|done|by left| |];
    apply (mutual_exclusion true 2 (played true 2 contended) 0 0 {| at_pc := Idle; depth := 1 |} {| at_pc := Idle; depth := 1 |});
    first [done|lia|by left].
Defined.

(** C16: no wake-up is lost: whenever a thread sleeps in [Lock], a thread holds
    the mutex, or is awake on its way to take it, or is about to wake a sleeper.
    So the threads never all rest with one of them asleep on a free mutex. *)
Theorem no_lost_wakeup (r : bool) (n : nat) (c : config) (j : nat) (u : thread)
  (Hn : Z.of_nat n < 2147483647) (Hr : reachable r n c) (Hj : threads c !! j = Some u) (Hu : asleep u) :
  exists i t, threads c !! i = Some t /\ (inside t \/ trying t \/ waking t).
Proof.
  pose proof (inv_reachable r n c Hn Hr) as I.
  destruct (decide (map_Exists (fun _ t => inside t) (threads c))) as [(i & t & Hi & Ht)|Hno]; [exists i, t; auto|].
  destruct (inv_awake c I) as (i & t & Hi & Ht).
  - apply (inv_free c I). intros i t Hi Ht. apply Hno. by exists i, t.
  - by exists j, u.
  - exists i, t. auto.
Qed.

Lemma no_lost_wakeup_witness : exists c, threads c !! 1%nat = Some {| at_pc := Lock_asleep; depth := 0 |} /\
  exists i t, threads c !! i = Some t /\ (inside t \/ trying t \/ waking t).
Proof.
  exists (played false 2 contended). split; [done|].
  apply (no_lost_wakeup false 2 (played false 2 contended) 1 {| at_pc := Lock_asleep; depth := 0 |});
    [lia|apply played_reachable; vm_compute; by eexists|done|done].
Defined.

(** a thread that locks a recursive mutex it holds goes straight on; one
    that locks a mutex it does not hold, or any mutex that is not recursive,
    has to win the word first. *)
Theorem reentry (r : bool) (n : nat) (c : config) (i : nat) (d : Z) (spurious : bool)
  (Hn : Z.of_nat n < 2147483647) (Hr : reachable r n c) (Hi : threads c !! i = Some {| at_pc := Lock_owner; depth := d |}) :
  Lock (tid i) spurious Lock_owner (shared c) = Some (shared c, if decide (0 < d) then Lock_count else Lock_load).
Proof.
  pose proof (inv_reachable r n c Hn Hr) as I. known I Hi Hd Hpc Hin Hout. cbn [Lock].
  destruct (decide (0 < d)).
  - destruct Hin as (_ & _ & ->); [by left|]. rewrite Z.eqb_refl. destruct Hpc as [[|Hrec] _]; [lia|]. by rewrite Hrec.
  - destruct (Z.eqb_spec (mExclusiveOwner (shared c)) (tid i)) as [E|E]; [exfalso; apply Hout; [lia|done]|].
    by destruct (mRecursive (shared c)).
Qed.

Lemma reentry_witness : exists c, threads c !! 0%nat = Some {| at_pc := Lock_owner; depth := 1 |} /\
  Lock 1 false Lock_owner (shared c) = Some (shared c, Lock_count).
Proof.
  exists (played true 2 (contended ++ [(0%nat, false)])). split; [done|].
  apply (reentry true 2 (played true 2 (contended ++ [(0%nat, false)])) 0 1 false);
    [lia|apply played_reachable; vm_compute; by eexists|done].
Defined.

End MutexProofs.
