(* ===== verification/StringPool.v ===== *)
(** * The string pool of the metadata builder

    [src/src/ccdl/util/StringPool.cpp]: the strings of a module one after
    another in a growing buffer, each with its NUL, and the [StringMap] from a
    string to its offset.  [None] is a store outside the buffer. *)
From S2P Require Import Prelude.
From S2P Require Import CcdlString.
From S2P Require Import Buckets.
From S2P Require Import StringMap.

Module StringPool.
Section Pool.
Context {A : Allocator}.

Record t := {
  mData : list Z;             (* empty when it is null *)
  mDataCapacity : Z;
  mDataOffset : Z;
  mOffsets : StringMap.t Z
}.

(** [strcpy(target, string)]. *)
Definition store (p : t) (s : list Z) : option (list Z) :=
  guard (Z.to_nat (mDataOffset p) + length (c_str s) < length (mData p))%nat;;
  Some (memcpy (mData p) (Z.to_nat (mDataOffset p)) (c_str s ++ [0])).

(** [int newSize] meets the [size_t] of the capacity: a negative one is huge. *)
Definition EnsureCapacity (expand : Z) (p : t) : bool * t :=
  let newSize := i32 (mDataOffset p + expand) in
  if u64 newSize <? mDataCapacity p then (true, p)
  else
    let newSize :=
      i32 (if u64 (10 * mDataCapacity p) >? u64 newSize then 10 * mDataCapacity p
           else 10 * mDataCapacity p + newSize) in
    if negb (alloc_ok (u64 newSize)) then (false, p)
    else (true, {| mData := memcpy (replicate (Z.to_nat (u64 newSize)) 0) 0 (take (Z.to_nat (mDataOffset p)) (mData p));
                   mDataCapacity := u64 newSize; mDataOffset := mDataOffset p; mOffsets := mOffsets p |}).

Definition AddInternal (s : list Z) (p : t) : option (Z * t) :=
  let '(room, p) := EnsureCapacity (Str.GetLength (Some s) + 1) p in
  if negb room then Some (-1, p)
  else
    data ← store p s;
    Some (mDataOffset p,
      {| mData := data; mDataCapacity := mDataCapacity p;
         mDataOffset := mDataOffset p + (Str.GetLength (Some s) + 1); mOffsets := mOffsets p |}).

Definition Add (string : String) (p : t) : option t :=
  match string with
  | None => Some p
  | Some s =>
    known ← StringMap.ContainsKey (Some s) (mOffsets p);
    if known : bool then Some p
    else
      '(offset, p) ← AddInternal s p;
      if offset =? -1 then Some p
      else
        m ← StringMap.Put (Some s) offset (mOffsets p);
        Some {| mData := mData p; mDataCapacity := mDataCapacity p; mDataOffset := mDataOffset p; mOffsets := m |}
  end.

Definition FindOffset (string : String) (p : t) : option Z := StringMap.Get 0 string (mOffsets p).

Definition FindAddress (string : String) (base : Z) (p : t) : option (option Z) :=
  known ← StringMap.ContainsKey string (mOffsets p);
  if known : bool then offset ← FindOffset string p; Some (Some (base + offset)) else Some None.

Definition GetSize (p : t) : Z := mDataOffset p.

Definition GetData (p : t) : list Z := mData p.

(** [StringPool()]: 256 bytes, 3000 buckets, and the empty string first. *)
Definition make : option t :=
  offsets ← StringMap.make 3000;
  Add (Some []) {| mData := if alloc_ok 256 then replicate 256 0 else []; mDataCapacity := 256;
                   mDataOffset := 0; mOffsets := offsets |}.

(** ** Strings in the pool *)

(** The pool's strings may have this many bytes, so that no size leaves
    [int] when the buffer grows. *)
Definition POOL_LIMIT : Z := 195000000.

(** The C string at an offset. *)
Definition string_at (data : list Z) (offset : Z) : list Z := c_str (drop (Z.to_nat offset) data).

Definition offsets (p : t) : gmap (list Z) Z := StringMap.entries (mOffsets p).

(** The offset of a string, taken as the map's comparison sees it. *)
Definition offset_of (p : t) (s : list Z) : option Z := offsets p !! StringMap.canon s.

Definition placed (data : list Z) (size : Z) (s : list Z) (offset : Z) : Prop :=
  0 <= offset /\ offset + Z.of_nat (length s) < size /\
  take (S (length (c_str s))) (drop (Z.to_nat offset) data) = c_str s ++ [0].

Record inv (p : t) : Prop := {
  inv_map : StringMap.inv (mOffsets p);
  inv_size : 0 <= mDataOffset p <= mDataCapacity p;
  inv_capacity : 256 <= mDataCapacity p;
  inv_data : Z.of_nat (length (mData p)) = mDataCapacity p;
  inv_count : Z.of_nat (size (offsets p)) <= mDataOffset p;
  inv_entries : forall s o, offsets p !! s = Some o -> placed (mData p) (mDataOffset p) s o
}.

(** Strings the map does not tell apart are stored alike. *)
Lemma placed_canon data size s o : placed data size (StringMap.canon s) o <-> placed data size s o.
Proof. unfold placed. by rewrite StringMap.canon_length, StringMap.canon_c_str. Qed.

Lemma inv_placed p : inv p -> forall s o, offset_of p s = Some o -> placed (mData p) (mDataOffset p) s o.
Proof. intros I s o Ho. apply placed_canon. by apply (inv_entries p I). Qed.

Lemma placed_string data size s o : placed data size s o -> string_at data o = c_str s.
Proof.
  intros (_ & _ & H). unfold string_at. rewrite <- (take_drop (S (length (c_str s))) (drop _ data)), H, <- app_assoc.
  apply c_str_app_nul, c_str_Forall.
Qed.

(** What lies before [size] keeps its strings. *)
Lemma placed_prefix data data' size size' s o : placed data size s o -> size <= size' ->
  take (Z.to_nat size) data' = take (Z.to_nat size) data -> placed data' size' s o.
Proof.
  intros (Ho & Hs & H) Hle Heq. split_and!; [done|lia|]. pose proof (c_str_length s) as Hc.
  rewrite take_drop_commute in *.
  assert (forall l : list Z, take (Z.to_nat o + S (length (c_str s))) l = take (Z.to_nat o + S (length (c_str s))) (take (Z.to_nat size) l)) as Ht.
  { intros l. rewrite take_take. f_equal. lia. }
  by rewrite Ht, Heq, <- Ht.
Qed.

Lemma memcpy_prefix (data src : list Z) off : (off <= length data)%nat -> take off (memcpy data off src) = take off data.
Proof. intros H. unfold memcpy. apply take_app_length'. rewrite length_take. lia. Qed.

Hypothesis Hok : never_fails A.

Lemma EnsureCapacity_spec n p : inv p -> 0 <= n -> mDataOffset p + n <= POOL_LIMIT ->
  exists p', EnsureCapacity n p = (true, p') /\ inv p' /\ offsets p' = offsets p /\
    mDataOffset p' = mDataOffset p /\ mDataOffset p + n < mDataCapacity p'.
Proof.
  intros [Hm Hs Hc Hd Hk Hp] Hn Hl. unfold EnsureCapacity, POOL_LIMIT in *.
  assert (forall z, 0 <= z < 2147483648 -> i32 z = z) as Hi.
  { intros z Hz. apply wrap_s_id; [done|]. unfold fits_s. cbn. lia. }
  assert (forall z, 0 <= z < 2147483648 -> u64 z = z) as Hu.
  { intros z Hz. apply wrap_u_id. unfold fits_u. change (2 ^ 64) with 18446744073709551616. lia. }
  rewrite Hi, Hu by lia. destruct (Z.ltb_spec (mDataOffset p + n) (mDataCapacity p)); [by exists p|].
  set (cap := if u64 (10 * mDataCapacity p) >? mDataOffset p + n then 10 * mDataCapacity p
              else 10 * mDataCapacity p + (mDataOffset p + n)).
  assert (mDataOffset p + n < cap < 2147483648) as [Hc1 Hc2].
  { unfold cap. rewrite Hu by lia. destruct (Z.gtb_spec (10 * mDataCapacity p) (mDataOffset p + n)); lia. }
  rewrite (Hi cap), (Hu cap), Hok by lia. cbn [negb]. eexists. split; [done|]. split_and!; [|done|done|done].
  assert (Z.to_nat (mDataOffset p) <= length (mData p))%nat by lia.
  split; cbn -[memcpy]; [done|lia|lia| |done|].
  - rewrite memcpy_length by (rewrite length_take, length_replicate; lia). rewrite length_replicate. lia.
  - intros s o Hso. apply (placed_prefix (mData p) _ (mDataOffset p)); [by apply Hp|lia|].
    unfold memcpy. rewrite take_0, app_nil_l. apply take_app_length'. rewrite length_take. lia.
Qed.

(** One string more. *)
Definition with_string (string : String) (m : gmap (list Z) Z) (size : Z) : gmap (list Z) Z * Z :=
  match string with
  | None => (m, size)
  | Some s =>
    let s := StringMap.canon s in
    if decide (is_Some (m !! s)) then (m, size) else (<[s := size]> m, size + Z.of_nat (length s) + 1)
  end.

Lemma Add_spec string p : inv p -> mDataOffset p + Str.GetLength string + 1 <= POOL_LIMIT ->
  exists p', Add string p = Some p' /\ inv p' /\
    (offsets p', mDataOffset p') = with_string string (offsets p) (mDataOffset p).
Proof.
  intros I Hl. destruct string as [s|]; [|by exists p]. cbn [Add with_string Str.GetLength] in *. cbn zeta.
  assert (StringMap.ContainsKey (Some s) (mOffsets p) = Some (bool_decide (is_Some (offsets p !! StringMap.canon s)))) as ->
    by exact (dict_has_ok (Dict := StringMap.StringMap_Dict A Z 0) (mOffsets p) s (conj (inv_map p I) Hok) Logic.I).
  cbn [mbind option_bind]. case_bool_decide as Hin; [rewrite decide_True by done; by exists p|]. rewrite decide_False by done.
  unfold AddInternal. cbn [Str.GetLength].
  destruct (EnsureCapacity_spec (Z.of_nat (length s) + 1) p I ltac:(lia) ltac:(lia)) as (p1 & -> & I1 & Hoff & Hpos & Hroom).
  pose proof (c_str_length s) as Hc. pose proof (inv_data p1 I1). pose proof (inv_size p1 I1). pose proof (inv_count p1 I1) as Hn.
  unfold store. rewrite option_guard_True by lia. cbn [negb mbind option_bind].
  destruct (Z.eqb_spec (mDataOffset p1) (-1)) as [|_]; [lia|]. cbn [mOffsets].
  assert (StringMap.mDataSize (mOffsets p1) = Z.of_nat (size (offsets p1))) as Hd by apply (inv_map p1 I1).
  destruct (StringMap.Put_spec (mOffsets p1) s (mDataOffset p1) Hok (inv_map p1 I1)) as (m & -> & Hm & Habs & _).
  { unfold ENTRY_LIMIT, POOL_LIMIT in *. lia. }
  cbn [mbind option_bind]. eexists. split; [done|].
  set (p' := {| mData := _ |}). assert (offsets p' = <[StringMap.canon s := mDataOffset p1]> (offsets p1)) as Hp' by exact Habs.
  rewrite Hp'. split; [|rewrite Hoff; subst p'; cbn; rewrite Hpos, StringMap.canon_length; f_equal; lia].
  assert (Z.to_nat (mDataOffset p1) + length (c_str s ++ [0%Z]) <= length (mData p1))%nat as Hfit
    by (rewrite length_app; cbn; lia).
  split; [done|subst p'; cbn; lia|exact (inv_capacity p1 I1)|subst p'; cbn -[memcpy]; by rewrite memcpy_length by exact Hfit| |].
  - rewrite Hp', map_size_insert. subst p'. cbn. destruct (offsets p1 !! StringMap.canon s); unfold id; lia.
  - intros s' o. rewrite Hp', lookup_insert_Some. subst p'. cbn -[memcpy]. intros [[<- <-]|[_ Hso]].
    + apply placed_canon. split_and!; [lia|lia|]. unfold memcpy. rewrite drop_app_length' by (rewrite length_take; lia).
      apply take_app_length'. rewrite length_app. cbn. lia.
    + apply (placed_prefix (mData p1) _ (mDataOffset p1)); [by apply (inv_entries p1 I1)|lia|]. apply memcpy_prefix. lia.
Qed.

(** A new pool has the empty string at 0. *)
Lemma new_pool_spec : exists p, make = Some p /\ inv p /\ offsets p = {[ [] := 0 ]} /\ mDataOffset p = 1.
Proof.
  destruct (StringMap.make (V := Z) 3000) as [m|] eqn:Hm; [|done]. destruct (StringMap.make_inv 3000 m Hok Hm) as [I Ha].
  unfold make. rewrite Hm, Hok. cbn [mbind option_bind].
  set (p := {| mData := replicate 256 0; mDataCapacity := 256; mDataOffset := 0; mOffsets := m |}).
  assert (offsets p = ∅) as Ho by exact Ha.
  assert (inv p) as Ip.
  { split; [done|cbn; lia|cbn; lia|done|by rewrite Ho, map_size_empty|]. intros s o. by rewrite Ho, lookup_empty. }
  destruct (Add_spec (Some []) p Ip ltac:(done)) as (p' & Hp & I' & Heq). exists p'. split; [exact Hp|]. split; [done|].
  unfold with_string in Heq. rewrite Ho, decide_False in Heq by (rewrite lookup_empty; by intros [? ?]).
  by injection Heq as -> ->.
Qed.

End Pool.
End StringPool.
