(* ===== verification/Metadata.v ===== *)
(** * Binary metadata

    The structs of [src/src/runtime/metadata/Component.h] and an image of them
    in memory.  The image maps an address to the object that starts there: a
    struct, one element of an array of pointers or ints, or a character of the
    string pool.  Sizes and alignments are those of the x86-64 ABI.  An object is
    placed inside the block [calloc] gave, where nothing else is; it is read and
    changed as what it was placed as.  Anything else is undefined. *)
From S2P Require Import Prelude.
From S2P Require Import CNum.

Module Metadata.

Definition CCM_MAGIC : Z := 0x12E20FD.

(** [CcmTypeKind]. *)
Inductive CcmTypeKind :=
  | Unknown | KChar | KByte | KShort | KInteger | KLong | KFloat | KDouble | KBoolean | KString
  | KCoclassID | KComponentID | KInterfaceID | KHANDLE | KECode | KEnum | KArray | KInterface | KCoclass | KTriple.

#[export] Instance CcmTypeKind_eq_dec : EqDecision CcmTypeKind.
Proof. solve_decision. Defined.

Record Uuid := { mData1 : Z; mData2 : Z; mData3 : Z; mData4 : Z; mData5 : list Z }.

Definition RADIX_MASK : Z := 0x0f.
Definition SCIENTIFIC_NOTATION_MASK : Z := 0x10.
Definition POSITIVE_INFINITY_MASK : Z := 0x20.
Definition NEGATIVE_INFINITY_MASK : Z := 0x40.
Definition NAN_MASK : Z := 0x80.

(** The union, by the member that was stored last; [VZero] is as [calloc] left it. *)
Inductive variant :=
  | VZero
  | VBoolean (b : bool) | VInteger (z : Z) | VLong (z : Z)
  | VFloat (f : spec_float) | VDouble (d : spec_float) | VString (p : Z).

Record MetaValue := { v_union : variant; mAttributes : Z }.

(** A pointer is an address. *)
Record MetaComponent := {
  mMagic : Z; mSize : Z; mc_mUuid : Uuid; mc_mName : Z; mUrl : Z;
  mNamespaceNumber : Z; mc_mConstantNumber : Z; mc_mCoclassNumber : Z; mc_mEnumerationNumber : Z;
  mc_mExternalEnumerationNumber : Z; mc_mInterfaceNumber : Z; mc_mExternalInterfaceNumber : Z; mTypeNumber : Z;
  mNamespaces : Z; mc_mConstants : Z; mCoclasses : Z; mEnumerations : Z; mInterfaces : Z; mTypes : Z; mStringPool : Z
}.

Record MetaNamespace := {
  mn_mName : Z; mInterfaceWrappedIndex : Z;
  mn_mConstantNumber : Z; mn_mCoclassNumber : Z; mn_mEnumerationNumber : Z;
  mn_mExternalEnumerationNumber : Z; mn_mInterfaceNumber : Z; mn_mExternalInterfaceNumber : Z;
  mConstantIndexes : Z; mCoclassIndexes : Z; mEnumerationIndexes : Z; mn_mInterfaceIndexes : Z
}.

Record MetaCoclass := {
  mk_mUuid : Uuid; mk_mName : Z; mk_mNamespace : Z; mk_mInterfaceNumber : Z; mk_mInterfaceIndexes : Z;
  mConstructorDefault : bool; mConstructorDeleted : bool
}.

Record MetaEnumeration := {
  me_mName : Z; me_mNamespace : Z; mEnumeratorNumber : Z; mEnumerators : Z; me_mExternal : bool
}.

Record MetaEnumerator := { mr_mName : Z; mr_mValue : Z }.

Record MetaInterface := {
  mi_mUuid : Uuid; mi_mName : Z; mi_mNamespace : Z; mBaseInterfaceIndex : Z; mOuterInterfaceIndex : Z;
  mNestedInterfaceNumber : Z; mi_mConstantNumber : Z; mMethodNumber : Z;
  mNestedInterfaceIndexes : Z; mi_mConstants : Z; mMethods : Z; mi_mExternal : bool
}.

Record MetaConstant := { mt_mName : Z; mt_mTypeIndex : Z; mt_mValue : MetaValue }.

Record MetaMethod := {
  mm_mName : Z; mSignature : Z; mReturnTypeIndex : Z; mParameterNumber : Z; mParameters : Z;
  mDeleted : bool; mm_mReference : bool
}.

Record MetaParameter := {
  mp_mName : Z; mAttribute : Z; mp_mTypeIndex : Z; mHasDefaultValue : bool; mDefaultValue : MetaValue
}.

Record MetaType := {
  mKind : CcmTypeKind; mIndex : Z; mNestedTypeIndex : Z; mPointerNumber : Z; mReference : bool
}.

Inductive object :=
  | OComponent (c : MetaComponent)
  | ONamespace (n : MetaNamespace)
  | OCoclass (k : MetaCoclass)
  | OEnumeration (e : MetaEnumeration)
  | OEnumerator (r : MetaEnumerator)
  | OInterface (i : MetaInterface)
  | OConstant (t : MetaConstant)
  | OMethod (m : MetaMethod)
  | OParameter (p : MetaParameter)
  | OType (t : MetaType)
  | OPointer (p : Z)
  | OInt (z : Z)
  | OChar (c : Z).

Definition sizeof (o : object) : Z :=
  match o with
  | OComponent _ => 136
  | ONamespace _ => 72
  | OCoclass _ => 64
  | OEnumeration _ => 40
  | OEnumerator _ => 16
  | OInterface _ => 96
  | OConstant _ => 32
  | OMethod _ => 40
  | OParameter _ => 40
  | OType _ => 16
  | OPointer _ => 8
  | OInt _ => 4
  | OChar _ => 1
  end.

Definition alignof (o : object) : Z :=
  match o with OType _ | OInt _ => 4 | OChar _ => 1 | _ => 8 end.

(** What a pointer to a [T] reads and writes. *)
Class Stored (T : Type) := { inj : T -> object; proj : object -> option T; proj_inj : forall x, proj (inj x) = Some x }.

#[export] Instance Stored_component : Stored MetaComponent :=
  {| inj := OComponent; proj := fun o => match o with OComponent x => Some x | _ => None end; proj_inj := fun _ => eq_refl |}.
#[export] Instance Stored_namespace : Stored MetaNamespace :=
  {| inj := ONamespace; proj := fun o => match o with ONamespace x => Some x | _ => None end; proj_inj := fun _ => eq_refl |}.
#[export] Instance Stored_coclass : Stored MetaCoclass :=
  {| inj := OCoclass; proj := fun o => match o with OCoclass x => Some x | _ => None end; proj_inj := fun _ => eq_refl |}.
#[export] Instance Stored_enumeration : Stored MetaEnumeration :=
  {| inj := OEnumeration; proj := fun o => match o with OEnumeration x => Some x | _ => None end; proj_inj := fun _ => eq_refl |}.
#[export] Instance Stored_enumerator : Stored MetaEnumerator :=
  {| inj := OEnumerator; proj := fun o => match o with OEnumerator x => Some x | _ => None end; proj_inj := fun _ => eq_refl |}.
#[export] Instance Stored_interface : Stored MetaInterface :=
  {| inj := OInterface; proj := fun o => match o with OInterface x => Some x | _ => None end; proj_inj := fun _ => eq_refl |}.
#[export] Instance Stored_constant : Stored MetaConstant :=
  {| inj := OConstant; proj := fun o => match o with OConstant x => Some x | _ => None end; proj_inj := fun _ => eq_refl |}.
#[export] Instance Stored_method : Stored MetaMethod :=
  {| inj := OMethod; proj := fun o => match o with OMethod x => Some x | _ => None end; proj_inj := fun _ => eq_refl |}.
#[export] Instance Stored_parameter : Stored MetaParameter :=
  {| inj := OParameter; proj := fun o => match o with OParameter x => Some x | _ => None end; proj_inj := fun _ => eq_refl |}.
#[export] Instance Stored_type : Stored MetaType :=
  {| inj := OType; proj := fun o => match o with OType x => Some x | _ => None end; proj_inj := fun _ => eq_refl |}.
(** An element of an array of pointers, and one of an array of ints. *)
#[export] Instance Stored_pointer : Stored Z :=
  {| inj := OPointer; proj := fun o => match o with OPointer x => Some x | _ => None end; proj_inj := fun _ => eq_refl |}.

(** ** Images *)

Abbreviation image := (gmap Z object).

Definition overlaps (a : Z) (o : object) (b : Z) (p : object) : bool := (a <? b + sizeof p) && (b <? a + sizeof o).

(** A new object at [a], in the block from [lo] to [hi]. *)
Definition place (lo hi a : Z) (o : object) (m : image) : option image :=
  guard (lo <= a /\ a + sizeof o <= hi /\ a mod alignof o = 0);;
  guard (Forall (fun bp => overlaps a o bp.1 bp.2 = false) (map_to_list m));;
  Some (<[a := o]> m).

Definition load {T} `{Stored T} (a : Z) (m : image) : option T := m !! a ≫= proj.

(** Changes the object at [a]. *)
Definition update {T} `{Stored T} (a : Z) (f : T -> T) (m : image) : option image :=
  x ← load a m; Some (<[a := inj (f x)]> m).

(** The image where its bytes are copied elsewhere. *)
Definition move (d : Z) (m : image) : image := kmap (fun a => a + d) m.

(** The C string at [p]: characters up to the NUL, from a pool of [n]. *)
Fixpoint read_string (n : nat) (p : Z) (m : image) : option (list Z) :=
  match n with
  | O => None
  | S n =>
    match m !! p with
    | Some (OChar c) => if c =? 0 then Some [] else l ← read_string n (p + 1) m; Some (c :: l)
    | _ => None
    end
  end.

End Metadata.
