(* ===== verification/Ast.v ===== *)
(** * The syntax tree of a module

    The nodes of [src/src/ccdl/ast/] that the metadata is made from.  Types,
    constants and namespaces are shared by pointers, so a [Module] holds them by
    address; methods, parameters and enumerators have one owner and are part of
    it.  [None] is a dangling pointer or a null one that is dereferenced. *)
From S2P Require Import Prelude.
From S2P Require Import CcdlString.
From S2P Require Import Expr.
From S2P Require Import Metadata.

Module Ast.

Abbreviation addr := Z.

(** ** Nodes *)

Module Enumerator.
Record t := { mName : String; mValue : Z }.
End Enumerator.

Module Param.
Record t := { mName : String; mType : addr; mDefaultValue : option Expr.Expression; mAttribute : Z }.
Definition HasDefaultValue (p : t) : bool := match mDefaultValue p with Some _ => true | None => false end.
End Param.

Module Method.
Record t := {
  mName : String; mSignature : String; mReturnType : addr;
  mParameters : list Param.t; mDeleted : bool; mReference : bool
}.
End Method.

Module Constant.
Record t := { mName : String; mType : addr; mValue : option Expr.Expression }.
End Constant.

(** The fields a subclass has from [Type]. *)
Record header := { mName : String; mNamespace : addr; mIsPredecl : bool; mExternal : bool }.

Module Enumeration.
Record t := { base : header; mEnumerators : list Enumerator.t }.
End Enumeration.

Module Interface.
Record t := {
  base : header; mUuid : Metadata.Uuid;
  mBaseInterface : option addr; mOuterInterface : option addr;
  mInterfaces : list addr; mConstants : list addr; mMethods : list Method.t
}.
End Interface.

Module Coclass.
Record t := {
  base : header; mUuid : Metadata.Uuid; mConstructorDefault : bool; mConstructorDeleted : bool; mInterfaces : list addr
}.
End Coclass.

(** The subclasses of [Type] without members of interest here. *)
Inductive simple :=
  | BooleanType | CharType | ByteType | ShortType | IntegerType | LongType | FloatType | DoubleType
  | StringType | CoclassIDType | ComponentIDType | InterfaceIDType | HANDLEType | ECodeType | TripleType.

#[export] Instance simple_eq_dec : EqDecision simple.
Proof. solve_decision. Defined.

Inductive Ty :=
  | Simple (s : simple)
  | ArrayType (mElementType : addr)
  | PointerType (mBaseType : addr) (mPointerNumber : Z)
  | ReferenceType (mBaseType : addr)
  | EnumerationTy (e : Enumeration.t)
  | InterfaceTy (i : Interface.t)
  | CoclassTy (k : Coclass.t).

Definition is_simple (s : simple) (t : Ty) : bool := match t with Simple s' => bool_decide (s = s') | _ => false end.

Definition IsByteType := is_simple ByteType.
Definition IsShortType := is_simple ShortType.
Definition IsIntegerType := is_simple IntegerType.
Definition IsLongType := is_simple LongType.
Definition IsCharType := is_simple CharType.
Definition IsFloatType := is_simple FloatType.
Definition IsDoubleType := is_simple DoubleType.
Definition IsBooleanType := is_simple BooleanType.
Definition IsStringType := is_simple StringType.
Definition IsIntegralType (t : Ty) : bool :=
  IsByteType t || IsShortType t || IsIntegerType t || IsLongType t || IsCharType t.
Definition IsEnumerationType (t : Ty) : bool := match t with EnumerationTy _ => true | _ => false end.
Definition IsInterfaceType (t : Ty) : bool := match t with InterfaceTy _ => true | _ => false end.
Definition IsCoclassType (t : Ty) : bool := match t with CoclassTy _ => true | _ => false end.
Definition IsPointerType (t : Ty) : bool := match t with PointerType _ _ => true | _ => false end.

Module Namespace.
Record t := {
  mName : String; mOuterNamespace : option addr; mInterfaceWrapped : option addr;
  mCoclasses : list addr; mConstants : list addr; mEnumerations : list addr; mInterfaces : list addr
}.
End Namespace.

(** ** The module

    [Module] with its [Pool]: the objects by address, and the lists of pointers
    to them.  [mTypes] is what [GetTypes] answers, the pairs of the type map. *)
Record Module_ := {
  m_mName : String; m_mUuid : Metadata.Uuid; mUrl : String;
  types : gmap addr Ty;
  constants : gmap addr Constant.t;
  namespaces : gmap addr Namespace.t;
  mCoclasses : list addr;
  mConstants : list addr;
  mEnumerations : list addr;
  mInterfaces : list addr;
  mNamespaces : list addr;
  mTypes : list (list Z * addr)
}.

Section Queries.
Context {A : Allocator}.
Variable module : Module_.

Definition type_at (a : addr) : option Ty := types module !! a.
Definition interface_at (a : addr) : option Interface.t :=
  t ← type_at a; match t with InterfaceTy i => Some i | _ => None end.
Definition enumeration_at (a : addr) : option Enumeration.t :=
  t ← type_at a; match t with EnumerationTy e => Some e | _ => None end.
Definition coclass_at (a : addr) : option Coclass.t :=
  t ← type_at a; match t with CoclassTy k => Some k | _ => None end.
Definition constant_at (a : addr) : option Constant.t := constants module !! a.
Definition namespace_at (a : addr) : option Namespace.t := namespaces module !! a.

(** [ArrayList::IndexOf]. *)
Fixpoint index_from (i : Z) (l : list addr) (a : addr) : Z :=
  match l with
  | [] => -1
  | b :: l => if b =? a then i else index_from (i + 1) l a
  end.
Definition IndexOf (l : list addr) (a : addr) : Z := index_from 0 l a.

(** [Pool::IndexOf], one for each kind of node. *)
Definition IndexOf_enumeration (a : addr) : Z := IndexOf (mEnumerations module) a.
Definition IndexOf_interface (a : addr) : Z := IndexOf (mInterfaces module) a.
Definition IndexOf_coclass (a : addr) : Z := IndexOf (mCoclasses module) a.
Definition IndexOf_constant (a : addr) : Z := IndexOf (mConstants module) a.
Definition IndexOf_type (a : addr) : Z := IndexOf (snd <$> mTypes module) a.

Definition GetType (i : nat) : option addr := snd <$> mTypes module !! i.

(** [Namespace::ToString]: the names outwards to the global namespace.  The
    fuel is the number of namespaces; a longer way out is a circle. *)
Fixpoint ns_ToString (fuel : nat) (a : addr) (nsString : String) : option String :=
  match fuel with
  | O => None
  | S fuel =>
    ns ← namespace_at a;
    global ← Str.Equals (Namespace.mName ns) (Some (str "__global__"));
    if global : bool then Some nsString
    else
      let nsString := Str.append (Str.append (Namespace.mName ns) (Some (str "::"))) nsString in
      match Namespace.mOuterNamespace ns with
      | None => Some nsString
      | Some outer => ns_ToString fuel outer nsString
      end
  end.
Definition Namespace_ToString (a : addr) : option String := ns_ToString (S (size (namespaces module))) a (Some []).

Fixpoint count_external (f : Ty -> option header) (l : list addr) : option Z :=
  match l with
  | [] => Some 0
  | a :: l =>
    t ← type_at a; h ← f t; n ← count_external f l;
    Some (if mExternal h then 1 + n else n)
  end.
Definition enumeration_header (t : Ty) : option header := match t with EnumerationTy e => Some (Enumeration.base e) | _ => None end.
Definition interface_header (t : Ty) : option header := match t with InterfaceTy i => Some (Interface.base i) | _ => None end.
Definition GetExternalEnumerationNumber (ns : Namespace.t) : option Z := count_external enumeration_header (Namespace.mEnumerations ns).
Definition GetExternalInterfaceNumber (ns : Namespace.t) : option Z := count_external interface_header (Namespace.mInterfaces ns).

End Queries.

End Ast.
