(* ===== verification/MetaBuilder.v ===== *)
(** * The metadata builder of the ccdl compiler

    [src/src/ccdl/metadata/MetaBuilder.cpp].  One pass over the module adds up
    the size of the metadata and collects its strings; a second one, with the
    same walk of [mBasePtr], writes the structs into the block of that size.  A
    struct is placed whole, with the fields the code stores; the component, which
    later steps go on storing into, is updated.  Pointers do not wrap around. *)
From S2P Require Import Prelude.
From S2P Require Import CcdlString.
From S2P Require Import CNum.
From S2P Require Import Expr.
From S2P Require Import StringPool.
From S2P Require Import Metadata.
From S2P Require Import Ast.

Module MetaBuilder.
Import Metadata.

Definition ALIGN4 (v : Z) : Z := Z.land (v + 3) (Z.lnot 3).
Definition ALIGN8 (v : Z) : Z := Z.land (v + 7) (Z.lnot 7).
Abbreviation ALIGN := ALIGN8.   (* on x86-64 *)

(** The builder, with the block it writes into and what it has written. *)
Record t := {
  mBasePtr : Z;
  mSize : Z;
  mStringPool : StringPool.t;
  mMetaComponet : Z;
  block : Z * Z;
  written : image
}.

Section Building.
Context {A : Allocator}.
Variable mModule : Ast.Module_.

Abbreviation M := (SE t).

(** A query of the tree; [None] is an invalid pointer. *)
Definition query {X} (q : option X) : M X := fun s => match q with Some x => Some (x, s) | None => None end.

Definition base : M Z := gets mBasePtr.
Definition set_base (p : Z) : M unit :=
  modify (fun s => {| mBasePtr := p; mSize := mSize s; mStringPool := mStringPool s;
                      mMetaComponet := mMetaComponet s; block := block s; written := written s |}).

Definition set_pool (p : StringPool.t) : M unit :=
  modify (fun s => {| mBasePtr := mBasePtr s; mSize := mSize s; mStringPool := p;
                      mMetaComponet := mMetaComponet s; block := block s; written := written s |}).

(** [mBasePtr = ALIGN(mBasePtr + n)]. *)
Definition advance (align : Z -> Z) (n : Z) : M unit := p <- base ;; set_base (align (p + n)).
Abbreviation plain := (fun p : Z => p).

Definition Add (string : String) : M unit :=
  pool <- gets mStringPool ;; pool <- query (StringPool.Add string pool) ;; set_pool pool.

(** A loop over the elements of a list. *)
Fixpoint each {X} (f : X -> M unit) (l : list X) : M unit :=
  match l with [] => ret tt | x :: l => f x ;;; each f l end.

Abbreviation count l := (Z.of_nat (length l)).

(** ** Sizes *)

Definition CalculateMetaCoclass (a : Ast.addr) : M unit :=
  klass <- query (Ast.coclass_at mModule a) ;;
  advance ALIGN 0 ;;;
  Add (Ast.mName (Ast.Coclass.base klass)) ;;;
  ns <- query (Ast.Namespace_ToString mModule (Ast.mNamespace (Ast.Coclass.base klass))) ;;
  Add ns ;;;
  advance ALIGN4 64 ;;;
  advance plain (4 * count (Ast.Coclass.mInterfaces klass)).

Definition CalculateMetaEnumerator (enumr : Ast.Enumerator.t) : M unit :=
  advance ALIGN 0 ;;;
  Add (Ast.Enumerator.mName enumr) ;;;
  advance plain 16.

Definition CalculateMetaEnumeration (a : Ast.addr) : M unit :=
  enumn <- query (Ast.enumeration_at mModule a) ;;
  advance ALIGN 0 ;;;
  Add (Ast.mName (Ast.Enumeration.base enumn)) ;;;
  ns <- query (Ast.Namespace_ToString mModule (Ast.mNamespace (Ast.Enumeration.base enumn))) ;;
  Add ns ;;;
  advance ALIGN 40 ;;;
  advance plain (8 * count (Ast.Enumeration.mEnumerators enumn)) ;;;
  each CalculateMetaEnumerator (Ast.Enumeration.mEnumerators enumn).

Definition value_of (e : option Expr.Expression) : M Expr.object := query (Expr.dispatch <$> e).

Definition CalculateMetaConstant (a : Ast.addr) : M unit :=
  constant <- query (Ast.constant_at mModule a) ;;
  advance ALIGN 0 ;;;
  Add (Ast.Constant.mName constant) ;;;
  type <- query (Ast.type_at mModule (Ast.Constant.mType constant)) ;;
  (if Ast.IsStringType type then
     value <- value_of (Ast.Constant.mValue constant) ;; s <- query (Expr.StringValue value) ;; Add s
   else if Ast.IsEnumerationType type then
     value <- value_of (Ast.Constant.mValue constant) ;; s <- query (Expr.EnumeratorValue value) ;; Add s
   else ret tt) ;;;
  advance plain 32.

Definition CalculateMetaParameter (param : Ast.Param.t) : M unit :=
  advance ALIGN 0 ;;;
  Add (Ast.Param.mName param) ;;;
  advance plain 40.

Definition CalculateMetaMethod (method : Ast.Method.t) : M unit :=
  advance ALIGN 0 ;;;
  Add (Ast.Method.mName method) ;;;
  Add (Ast.Method.mSignature method) ;;;
  advance ALIGN 40 ;;;
  advance plain (8 * count (Ast.Method.mParameters method)) ;;;
  each CalculateMetaParameter (Ast.Method.mParameters method).

Definition CalculateMetaInterface (a : Ast.addr) : M unit :=
  itf <- query (Ast.interface_at mModule a) ;;
  advance ALIGN 0 ;;;
  Add (Ast.mName (Ast.Interface.base itf)) ;;;
  ns <- query (Ast.Namespace_ToString mModule (Ast.mNamespace (Ast.Interface.base itf))) ;;
  Add ns ;;;
  advance ALIGN 96 ;;;
  advance ALIGN (4 * count (Ast.Interface.mInterfaces itf)) ;;;
  advance ALIGN (8 * count (Ast.Interface.mConstants itf)) ;;;
  advance plain (8 * count (Ast.Interface.mMethods itf)) ;;;
  each CalculateMetaConstant (Ast.Interface.mConstants itf) ;;;
  each CalculateMetaMethod (Ast.Interface.mMethods itf).

Definition CalculateMetaNamespace (a : Ast.addr) : M unit :=
  ns <- query (Ast.namespace_at mModule a) ;;
  advance ALIGN 0 ;;;
  name <- query (Ast.Namespace_ToString mModule a) ;;
  Add name ;;;
  advance ALIGN4 72 ;;;
  advance ALIGN4 (4 * count (Ast.Namespace.mConstants ns)) ;;;
  advance ALIGN4 (4 * count (Ast.Namespace.mCoclasses ns)) ;;;
  advance ALIGN4 (4 * count (Ast.Namespace.mEnumerations ns)) ;;;
  advance plain (4 * count (Ast.Namespace.mInterfaces ns)).

Definition CalculateMetaType (a : Ast.addr) : M unit :=
  advance ALIGN 0 ;;;
  advance plain 16.

Definition CalculateStringPool : M unit :=
  pool <- gets mStringPool ;; advance ALIGN (StringPool.GetSize pool).

Definition CalculateMetaComponent : M unit :=
  (advance ALIGN 0 ;;;
  Add (Ast.m_mName mModule) ;;;
  Add (Ast.mUrl mModule) ;;;
  advance ALIGN 136 ;;;
  advance ALIGN (8 * count (Ast.mNamespaces mModule)) ;;;
  advance ALIGN (8 * count (Ast.mConstants mModule)) ;;;
  advance ALIGN (8 * count (Ast.mCoclasses mModule)) ;;;
  advance ALIGN (8 * count (Ast.mEnumerations mModule)) ;;;
  advance ALIGN (8 * count (Ast.mInterfaces mModule)) ;;;
  advance plain (8 * count (Ast.mTypes mModule)) ;;;
  each CalculateMetaNamespace (Ast.mNamespaces mModule) ;;;
  each CalculateMetaConstant (Ast.mConstants mModule) ;;;
  each CalculateMetaCoclass (Ast.mCoclasses mModule) ;;;
  each CalculateMetaEnumeration (Ast.mEnumerations mModule) ;;;
  each CalculateMetaInterface (Ast.mInterfaces mModule) ;;;
  each CalculateMetaType (snd <$> Ast.mTypes mModule)) ;;;
  CalculateStringPool.

Definition CalculateMetadataSize : M Z := set_base 0 ;;; CalculateMetaComponent ;;; base.

(** ** Writing *)

Definition on_image (f : image -> option image) : M unit :=
  m <- gets written ;; m <- query (f m) ;;
  modify (fun s => {| mBasePtr := mBasePtr s; mSize := mSize s; mStringPool := mStringPool s;
                      mMetaComponet := mMetaComponet s; block := block s; written := m |}).

Definition put (a : Z) (o : object) : M unit :=
  b <- gets block ;; on_image (place b.1 b.2 a o).

(** [array[i] = f(l[i])] for all [i], an array of pointers at [a]. *)
Fixpoint fill {X} (a : Z) (f : X -> M Z) (l : list X) : M unit :=
  match l with [] => ret tt | x :: l => p <- f x ;; put a (OPointer p) ;;; fill (a + 8) f l end.

(** The same for an array of ints. *)
Fixpoint fill_ints (a : Z) (l : list Z) : M unit :=
  match l with [] => ret tt | x :: l => put a (OInt x) ;;; fill_ints (a + 4) l end.

(** [memcpy] of characters. *)
Fixpoint fill_chars (a : Z) (l : list Z) : M unit :=
  match l with [] => ret tt | c :: l => put a (OChar c) ;;; fill_chars (a + 1) l end.

Definition WriteString (string : String) : M Z :=
  mc <- gets mMetaComponet ;;
  m <- gets written ;;
  c <- query (load (T := MetaComponent) mc m) ;;
  pool <- gets mStringPool ;;
  offset <- query (StringPool.FindOffset string pool) ;;
  ret (Metadata.mStringPool c + offset).

Definition WriteMetaCoclass (a : Ast.addr) : M Z :=
  klass <- query (Ast.coclass_at mModule a) ;;
  advance ALIGN 0 ;;;
  mc <- base ;;
  name <- WriteString (Ast.mName (Ast.Coclass.base klass)) ;;
  ns <- query (Ast.Namespace_ToString mModule (Ast.mNamespace (Ast.Coclass.base klass))) ;;
  ns <- WriteString ns ;;
  advance ALIGN4 64 ;;;
  indexes <- base ;;
  put mc (OCoclass {|
    mk_mUuid := Ast.Coclass.mUuid klass; mk_mName := name; mk_mNamespace := ns;
    mk_mInterfaceNumber := count (Ast.Coclass.mInterfaces klass); mk_mInterfaceIndexes := indexes;
    mConstructorDefault := Ast.Coclass.mConstructorDefault klass;
    mConstructorDeleted := Ast.Coclass.mConstructorDeleted klass |}) ;;;
  advance plain (4 * count (Ast.Coclass.mInterfaces klass)) ;;;
  fill_ints indexes (Ast.IndexOf_interface mModule <$> Ast.Coclass.mInterfaces klass) ;;;
  ret mc.

(** The masks both floating-point branches set. *)
Definition fp_attributes (value : Expr.object) : option Z :=
  pos ← Expr.IsPositiveInfinity value;
  neg ← Expr.IsNegativeInfinity value;
  nan ← Expr.IsNaN value;
  Some (Z.lor (Z.lor (Z.lor (if pos : bool then POSITIVE_INFINITY_MASK else 0)
                            (if neg : bool then NEGATIVE_INFINITY_MASK else 0))
                     (if nan : bool then NAN_MASK else 0))
              (if Expr.mScientificNotation value then SCIENTIFIC_NOTATION_MASK else 0)).

(** The branches [WriteMetaConstant] and [WriteMetaParameter] share, over an
    [mAttributes] of zero; the last case leaves the union as it is. *)
Definition scalar_value (type : Ast.Ty) (value : option Expr.object) : option MetaValue :=
  if Ast.IsByteType type || Ast.IsShortType type || Ast.IsIntegerType type then
    value ← value; z ← Expr.IntegerValue value; Some {| v_union := VInteger z; mAttributes := 0 |}
  else if Ast.IsLongType type then
    value ← value; z ← Expr.LongValue value; Some {| v_union := VLong z; mAttributes := 0 |}
  else if Ast.IsCharType type then
    value ← value; z ← Expr.CharacterValue value; Some {| v_union := VInteger z; mAttributes := 0 |}
  else if Ast.IsFloatType type then
    value ← value; f ← Expr.FloatValue value; attr ← fp_attributes value;
    Some {| v_union := VFloat f; mAttributes := attr |}
  else if Ast.IsDoubleType type then
    value ← value; d ← Expr.DoubleValue value; attr ← fp_attributes value;
    Some {| v_union := VDouble d; mAttributes := attr |}
  else if Ast.IsBooleanType type then
    value ← value; b ← Expr.BooleanValue value; Some {| v_union := VBoolean b; mAttributes := 0 |}
  else Some {| v_union := VZero; mAttributes := 0 |}.

(** The attributes of a constant whose type is integral get its radix. *)
Definition with_radix (type : Ast.Ty) (value : option Expr.object) (v : MetaValue) : option MetaValue :=
  if Ast.IsIntegralType type then
    value ← value;
    Some {| v_union := v_union v; mAttributes := Z.lor (mAttributes v) (Z.land (Expr.mRadix value) RADIX_MASK) |}
  else Some v.

Definition constant_value (type : Ast.Ty) (value : option Expr.object) : M MetaValue :=
  if Ast.IsStringType type then
    value <- query value ;; s <- query (Expr.StringValue value) ;; p <- WriteString s ;;
    ret {| v_union := VString p; mAttributes := 0 |}
  else if Ast.IsEnumerationType type then
    value <- query value ;; s <- query (Expr.EnumeratorValue value) ;; p <- WriteString s ;;
    ret {| v_union := VString p; mAttributes := 0 |}
  else
    v <- query (scalar_value type value) ;; query (with_radix type value v).

Definition WriteMetaConstant (a : Ast.addr) : M Z :=
  constant <- query (Ast.constant_at mModule a) ;;
  advance ALIGN 0 ;;;
  mc <- base ;;
  name <- WriteString (Ast.Constant.mName constant) ;;
  type <- query (Ast.type_at mModule (Ast.Constant.mType constant)) ;;
  v <- constant_value type (Expr.dispatch <$> Ast.Constant.mValue constant) ;;
  put mc (OConstant {|
    mt_mName := name; mt_mTypeIndex := Ast.IndexOf_type mModule (Ast.Constant.mType constant); mt_mValue := v |}) ;;;
  advance plain 32 ;;;
  ret mc.

Definition WriteMetaEnumerator (enumr : Ast.Enumerator.t) : M Z :=
  advance ALIGN 0 ;;;
  me <- base ;;
  name <- WriteString (Ast.Enumerator.mName enumr) ;;
  put me (OEnumerator {| mr_mName := name; mr_mValue := Ast.Enumerator.mValue enumr |}) ;;;
  advance plain 16 ;;;
  ret me.

Definition WriteMetaEnumeration (a : Ast.addr) : M Z :=
  enumn <- query (Ast.enumeration_at mModule a) ;;
  advance ALIGN 0 ;;;
  me <- base ;;
  name <- WriteString (Ast.mName (Ast.Enumeration.base enumn)) ;;
  ns <- query (Ast.Namespace_ToString mModule (Ast.mNamespace (Ast.Enumeration.base enumn))) ;;
  ns <- WriteString ns ;;
  advance ALIGN 40 ;;;
  enumerators <- base ;;
  put me (OEnumeration {|
    me_mName := name; me_mNamespace := ns; mEnumeratorNumber := count (Ast.Enumeration.mEnumerators enumn);
    mEnumerators := enumerators; me_mExternal := Ast.mExternal (Ast.Enumeration.base enumn) |}) ;;;
  advance plain (8 * count (Ast.Enumeration.mEnumerators enumn)) ;;;
  fill enumerators WriteMetaEnumerator (Ast.Enumeration.mEnumerators enumn) ;;;
  ret me.

(** The fields of a parameter's default value, over zeros. *)
Definition default_value (type : Ast.Ty) (value : option Expr.object) : option MetaValue :=
  if Ast.IsPointerType type then
    value ← value; z ← Expr.LongValue value; Some {| v_union := VLong z; mAttributes := 0 |}
  else scalar_value type value.

Definition no_value : MetaValue := {| v_union := VZero; mAttributes := 0 |}.

Definition WriteMetaParameter (param : Ast.Param.t) : M Z :=
  advance ALIGN 0 ;;;
  mp <- base ;;
  name <- WriteString (Ast.Param.mName param) ;;
  type <- query (Ast.type_at mModule (Ast.Param.mType param)) ;;
  v <- query (match Ast.Param.mDefaultValue param with
              | Some e => default_value type (Some (Expr.dispatch e))
              | None => Some no_value
              end) ;;
  put mp (OParameter {|
    mp_mName := name; mAttribute := Ast.Param.mAttribute param;
    mp_mTypeIndex := Ast.IndexOf_type mModule (Ast.Param.mType param);
    mHasDefaultValue := Ast.Param.HasDefaultValue param; mDefaultValue := v |}) ;;;
  advance plain 40 ;;;
  ret mp.

Definition WriteMetaMethod (method : Ast.Method.t) : M Z :=
  advance ALIGN 0 ;;;
  mm <- base ;;
  name <- WriteString (Ast.Method.mName method) ;;
  signature <- WriteString (Ast.Method.mSignature method) ;;
  advance ALIGN 40 ;;;
  parameters <- base ;;
  put mm (OMethod {|
    mm_mName := name; mSignature := signature;
    mReturnTypeIndex := Ast.IndexOf_type mModule (Ast.Method.mReturnType method);
    mParameterNumber := count (Ast.Method.mParameters method); mParameters := parameters;
    mDeleted := Ast.Method.mDeleted method; mm_mReference := Ast.Method.mReference method |}) ;;;
  advance plain (8 * count (Ast.Method.mParameters method)) ;;;
  fill parameters WriteMetaParameter (Ast.Method.mParameters method) ;;;
  ret mm.

Definition index_or_none (a : option Ast.addr) : Z :=
  match a with Some a => Ast.IndexOf_interface mModule a | None => -1 end.

Definition WriteMetaInterface (a : Ast.addr) : M Z :=
  itf <- query (Ast.interface_at mModule a) ;;
  advance ALIGN 0 ;;;
  mi <- base ;;
  name <- WriteString (Ast.mName (Ast.Interface.base itf)) ;;
  ns <- query (Ast.Namespace_ToString mModule (Ast.mNamespace (Ast.Interface.base itf))) ;;
  ns <- WriteString ns ;;
  advance ALIGN 96 ;;;
  nested <- base ;;
  advance ALIGN (4 * count (Ast.Interface.mInterfaces itf)) ;;;
  constants <- base ;;
  advance ALIGN (8 * count (Ast.Interface.mConstants itf)) ;;;
  methods <- base ;;
  put mi (OInterface {|
    mi_mUuid := Ast.Interface.mUuid itf; mi_mName := name; mi_mNamespace := ns;
    mBaseInterfaceIndex := index_or_none (Ast.Interface.mBaseInterface itf);
    mOuterInterfaceIndex := index_or_none (Ast.Interface.mOuterInterface itf);
    mNestedInterfaceNumber := count (Ast.Interface.mInterfaces itf);
    mi_mConstantNumber := count (Ast.Interface.mConstants itf);
    mMethodNumber := count (Ast.Interface.mMethods itf);
    mNestedInterfaceIndexes := nested; mi_mConstants := constants; mMethods := methods;
    mi_mExternal := Ast.mExternal (Ast.Interface.base itf) |}) ;;;
  advance plain (8 * count (Ast.Interface.mMethods itf)) ;;;
  fill_ints nested (Ast.IndexOf_interface mModule <$> Ast.Interface.mInterfaces itf) ;;;
  fill constants WriteMetaConstant (Ast.Interface.mConstants itf) ;;;
  fill methods WriteMetaMethod (Ast.Interface.mMethods itf) ;;;
  ret mi.

Definition WriteMetaNamespace (a : Ast.addr) : M Z :=
  ns <- query (Ast.namespace_at mModule a) ;;
  advance ALIGN 0 ;;;
  mn <- base ;;
  name <- query (Ast.Namespace_ToString mModule a) ;;
  name <- WriteString name ;;
  external_enumerations <- query (Ast.GetExternalEnumerationNumber mModule ns) ;;
  external_interfaces <- query (Ast.GetExternalInterfaceNumber mModule ns) ;;
  advance ALIGN4 72 ;;;
  constants <- base ;;
  advance ALIGN4 (4 * count (Ast.Namespace.mConstants ns)) ;;;
  coclasses <- base ;;
  advance ALIGN4 (4 * count (Ast.Namespace.mCoclasses ns)) ;;;
  enumerations <- base ;;
  advance ALIGN4 (4 * count (Ast.Namespace.mEnumerations ns)) ;;;
  interfaces <- base ;;
  put mn (ONamespace {|
    mn_mName := name; mInterfaceWrappedIndex := index_or_none (Ast.Namespace.mInterfaceWrapped ns);
    mn_mConstantNumber := count (Ast.Namespace.mConstants ns);
    mn_mCoclassNumber := count (Ast.Namespace.mCoclasses ns);
    mn_mEnumerationNumber := count (Ast.Namespace.mEnumerations ns);
    mn_mExternalEnumerationNumber := external_enumerations;
    mn_mInterfaceNumber := count (Ast.Namespace.mInterfaces ns);
    mn_mExternalInterfaceNumber := external_interfaces;
    mConstantIndexes := constants; mCoclassIndexes := coclasses;
    mEnumerationIndexes := enumerations; mn_mInterfaceIndexes := interfaces |}) ;;;
  advance plain (4 * count (Ast.Namespace.mInterfaces ns)) ;;;
  fill_ints constants (Ast.IndexOf_constant mModule <$> Ast.Namespace.mConstants ns) ;;;
  fill_ints coclasses (Ast.IndexOf_coclass mModule <$> Ast.Namespace.mCoclasses ns) ;;;
  fill_ints enumerations (Ast.IndexOf_enumeration mModule <$> Ast.Namespace.mEnumerations ns) ;;;
  fill_ints interfaces (Ast.IndexOf_interface mModule <$> Ast.Namespace.mInterfaces ns) ;;;
  ret mn.

Definition Type2CcdlType (type : Ast.Ty) : CcmTypeKind :=
  match type with
  | Ast.Simple Ast.BooleanType => KBoolean
  | Ast.Simple Ast.CharType => KChar
  | Ast.Simple Ast.ByteType => KByte
  | Ast.Simple Ast.ShortType => KShort
  | Ast.Simple Ast.IntegerType => KInteger
  | Ast.Simple Ast.LongType => KLong
  | Ast.Simple Ast.FloatType => KFloat
  | Ast.Simple Ast.DoubleType => KDouble
  | Ast.Simple Ast.StringType => KString
  | Ast.Simple Ast.CoclassIDType => KCoclassID
  | Ast.Simple Ast.ComponentIDType => KComponentID
  | Ast.Simple Ast.InterfaceIDType => KInterfaceID
  | Ast.Simple Ast.HANDLEType => KHANDLE
  | Ast.Simple Ast.ECodeType => KECode
  | Ast.EnumerationTy _ => KEnum
  | Ast.ArrayType _ => KArray
  | Ast.InterfaceTy _ => KInterface
  | Ast.CoclassTy _ => KCoclass
  | Ast.Simple Ast.TripleType => KTriple
  | Ast.PointerType _ _ | Ast.ReferenceType _ => Unknown
  end.

(** The struct [WriteMetaType] fills: [type] is unwrapped from a reference,
    then from a pointer. *)
Definition meta_type (a : Ast.addr) : option MetaType :=
  type ← Ast.type_at mModule a;
  '(reference, a, type) ←
    match type with
    | Ast.ReferenceType b => type ← Ast.type_at mModule b; Some (true, b, type)
    | _ => Some (false, a, type)
    end;
  '(pointers, a, type) ←
    match type with
    | Ast.PointerType b n => type ← Ast.type_at mModule b; Some (u8 n, b, type)
    | _ => Some (0, a, type)
    end;
  Some {| mKind := Type2CcdlType type;
          mIndex :=
            match type with
            | Ast.EnumerationTy _ => Ast.IndexOf_enumeration mModule a
            | Ast.InterfaceTy _ => Ast.IndexOf_interface mModule a
            | Ast.CoclassTy _ => Ast.IndexOf_coclass mModule a
            | _ => Ast.IndexOf_type mModule a
            end;
          mNestedTypeIndex := match type with Ast.ArrayType e => Ast.IndexOf_type mModule e | _ => -1 end;
          mPointerNumber := pointers; mReference := reference |}.

Definition WriteMetaType (a : Ast.addr) : M Z :=
  advance ALIGN 0 ;;;
  mt <- base ;;
  ty <- query (meta_type a) ;;
  put mt (OType ty) ;;;
  advance plain 16 ;;;
  ret mt.

(** [mc->...] of the component under construction. *)
Definition set_component (mc : Z) (f : MetaComponent -> MetaComponent) : M unit := on_image (update mc f).

Definition set_name (p : Z) (c : MetaComponent) : MetaComponent :=
  {| mMagic := mMagic c; Metadata.mSize := Metadata.mSize c; mc_mUuid := mc_mUuid c; mc_mName := p; mUrl := mUrl c;
     mNamespaceNumber := mNamespaceNumber c; mc_mConstantNumber := mc_mConstantNumber c;
     mc_mCoclassNumber := mc_mCoclassNumber c; mc_mEnumerationNumber := mc_mEnumerationNumber c;
     mc_mExternalEnumerationNumber := mc_mExternalEnumerationNumber c; mc_mInterfaceNumber := mc_mInterfaceNumber c;
     mc_mExternalInterfaceNumber := mc_mExternalInterfaceNumber c; mTypeNumber := mTypeNumber c;
     mNamespaces := mNamespaces c; mc_mConstants := mc_mConstants c; mCoclasses := mCoclasses c;
     mEnumerations := mEnumerations c; mInterfaces := mInterfaces c; mTypes := mTypes c;
     Metadata.mStringPool := Metadata.mStringPool c |}.

Definition set_url (p : Z) (c : MetaComponent) : MetaComponent :=
  {| mMagic := mMagic c; Metadata.mSize := Metadata.mSize c; mc_mUuid := mc_mUuid c; mc_mName := mc_mName c; mUrl := p;
     mNamespaceNumber := mNamespaceNumber c; mc_mConstantNumber := mc_mConstantNumber c;
     mc_mCoclassNumber := mc_mCoclassNumber c; mc_mEnumerationNumber := mc_mEnumerationNumber c;
     mc_mExternalEnumerationNumber := mc_mExternalEnumerationNumber c; mc_mInterfaceNumber := mc_mInterfaceNumber c;
     mc_mExternalInterfaceNumber := mc_mExternalInterfaceNumber c; mTypeNumber := mTypeNumber c;
     mNamespaces := mNamespaces c; mc_mConstants := mc_mConstants c; mCoclasses := mCoclasses c;
     mEnumerations := mEnumerations c; mInterfaces := mInterfaces c; mTypes := mTypes c;
     Metadata.mStringPool := Metadata.mStringPool c |}.

Definition add_external (interfaces enumerations : Z) (c : MetaComponent) : MetaComponent :=
  {| mMagic := mMagic c; Metadata.mSize := Metadata.mSize c; mc_mUuid := mc_mUuid c; mc_mName := mc_mName c; mUrl := mUrl c;
     mNamespaceNumber := mNamespaceNumber c; mc_mConstantNumber := mc_mConstantNumber c;
     mc_mCoclassNumber := mc_mCoclassNumber c; mc_mEnumerationNumber := mc_mEnumerationNumber c;
     mc_mExternalEnumerationNumber := mc_mExternalEnumerationNumber c + enumerations;
     mc_mInterfaceNumber := mc_mInterfaceNumber c;
     mc_mExternalInterfaceNumber := mc_mExternalInterfaceNumber c + interfaces; mTypeNumber := mTypeNumber c;
     mNamespaces := mNamespaces c; mc_mConstants := mc_mConstants c; mCoclasses := mCoclasses c;
     mEnumerations := mEnumerations c; mInterfaces := mInterfaces c; mTypes := mTypes c;
     Metadata.mStringPool := Metadata.mStringPool c |}.

(** The body of the loop over the namespaces. *)
Fixpoint write_namespaces (mc a : Z) (l : list Ast.addr) : M unit :=
  match l with
  | [] => ret tt
  | n :: l =>
    p <- WriteMetaNamespace n ;;
    put a (OPointer p) ;;;
    ns <- query (Ast.namespace_at mModule n) ;;
    interfaces <- query (Ast.GetExternalInterfaceNumber mModule ns) ;;
    enumerations <- query (Ast.GetExternalEnumerationNumber mModule ns) ;;
    set_component mc (add_external interfaces enumerations) ;;;
    write_namespaces mc (a + 8) l
  end.

Definition WriteMetaComponent : M unit :=
  advance ALIGN 0 ;;;
  mc <- base ;;
  size <- gets mSize ;;
  advance ALIGN 136 ;;;
  namespaces <- base ;;
  advance ALIGN (8 * count (Ast.mNamespaces mModule)) ;;;
  constants <- base ;;
  advance ALIGN (8 * count (Ast.mConstants mModule)) ;;;
  coclasses <- base ;;
  advance ALIGN (8 * count (Ast.mCoclasses mModule)) ;;;
  enumerations <- base ;;
  advance ALIGN (8 * count (Ast.mEnumerations mModule)) ;;;
  interfaces <- base ;;
  advance ALIGN (8 * count (Ast.mInterfaces mModule)) ;;;
  types <- base ;;
  advance plain (8 * count (Ast.mTypes mModule)) ;;;
  strings <- base ;;
  put mc (OComponent {|
    mMagic := CCM_MAGIC; Metadata.mSize := size; mc_mUuid := Ast.m_mUuid mModule; mc_mName := 0; mUrl := 0;
    mNamespaceNumber := count (Ast.mNamespaces mModule); mc_mConstantNumber := count (Ast.mConstants mModule);
    mc_mCoclassNumber := count (Ast.mCoclasses mModule); mc_mEnumerationNumber := count (Ast.mEnumerations mModule);
    mc_mExternalEnumerationNumber := 0; mc_mInterfaceNumber := count (Ast.mInterfaces mModule);
    mc_mExternalInterfaceNumber := 0; mTypeNumber := count (Ast.mTypes mModule);
    mNamespaces := namespaces; mc_mConstants := constants; mCoclasses := coclasses;
    mEnumerations := enumerations; mInterfaces := interfaces; mTypes := types;
    Metadata.mStringPool := strings |}) ;;;
  pool <- gets mStringPool ;;
  advance plain (StringPool.GetSize pool) ;;;
  fill_chars strings (take (Z.to_nat (StringPool.GetSize pool)) (StringPool.GetData pool)) ;;;
  name <- WriteString (Ast.m_mName mModule) ;;
  set_component mc (set_name name) ;;;
  url <- WriteString (Ast.mUrl mModule) ;;
  set_component mc (set_url url) ;;;
  write_namespaces mc namespaces (Ast.mNamespaces mModule) ;;;
  fill constants WriteMetaConstant (Ast.mConstants mModule) ;;;
  fill coclasses WriteMetaCoclass (Ast.mCoclasses mModule) ;;;
  fill enumerations WriteMetaEnumeration (Ast.mEnumerations mModule) ;;;
  fill interfaces WriteMetaInterface (Ast.mInterfaces mModule) ;;;
  fill types WriteMetaType (snd <$> Ast.mTypes mModule).

(** ** Building *)

Definition IsValid : option bool :=
  itfs ← mapM (Ast.interface_at mModule) (Ast.mInterfaces mModule);
  enumns ← mapM (Ast.enumeration_at mModule) (Ast.mEnumerations mModule);
  Some (forallb (fun i => negb (Ast.mIsPredecl (Ast.Interface.base i))) itfs &&
        forallb (fun e => negb (Ast.mIsPredecl (Ast.Enumeration.base e))) enumns).

Definition new : option t :=
  pool ← StringPool.make;
  Some {| mBasePtr := 0; mSize := 0; mStringPool := pool; mMetaComponet := 0; block := (0, 0); written := ∅ |}.

(** [Build] on a fresh builder, when [calloc] gives the block at [metadata];
    the answer is the address of the component, or null. *)
Definition Build (metadata : Z) : M (option Z) :=
  valid <- query IsValid ;;
  if negb valid then ret None
  else
    size <- CalculateMetadataSize ;;
    let size := i32 size in
    if negb (alloc_ok (u64 size)) then ret None
    else
      modify (fun s => {| mBasePtr := metadata; mSize := size; mStringPool := mStringPool s; mMetaComponet := metadata;
                          block := (metadata, metadata + u64 size); written := ∅ |}) ;;;
      WriteMetaComponent ;;;
      ret (Some metadata).

End Building.
End MetaBuilder.
