(* ===== verification/MetaSerializer.v ===== *)
(** * The metadata serializer of the runtime

    [src/src/runtime/metadata/MetaSerializer.cpp]: [Serialize] turns every
    pointer of an image into its distance from the image's beginning,
    [Deserialize] turns distances back into pointers, where the image has come to
    lie.  A struct is loaded, its pointer fields adjusted, and stored. *)
From S2P Require Import Prelude.
From S2P Require Import Metadata.

Module MetaSerializer.
Import Metadata.

Record t := { mMetaComponent : Z; mBasePtr : Z; mDataSize : Z; memory : image }.

Abbreviation M := (SE t).

Definition query {X} (q : option X) : M X := fun s => match q with Some x => Some (x, s) | None => None end.

Definition get {T} `{Stored T} (a : Z) : M T := m <- gets memory ;; query (load a m).

Definition set {T} `{Stored T} (a : Z) (x : T) : M unit :=
  m <- gets memory ;; m <- query (update a (fun _ => x) m) ;;
  modify (fun s => {| mMetaComponent := mMetaComponent s; mBasePtr := mBasePtr s; mDataSize := mDataSize s; memory := m |}).

(** [for (int i = 0; i < n; i++)] over an array of pointers at [a]. *)
Fixpoint each (n : nat) (a : Z) (f : Z -> M unit) : M unit :=
  match n with O => ret tt | S n => f a ;;; each n (a + 8) f end.

Abbreviation loop n a f := (each (Z.to_nat n) a f).

Definition SerializeAdjust (p : Z) : M Z := b <- gets mBasePtr ;; ret (u64 (p - b)).

Definition DeserializeAdjust (p : Z) : M Z := b <- gets mBasePtr ;; ret (u64 (p + b)).

(** ** The pointer fields of each struct

    [adjust] is applied to them in the order the code does. *)
Section Adjusting.
Variable adjust : Z -> M Z.

Definition AdjustCoclass (mc : Z) : M unit :=
  k <- get (T := MetaCoclass) mc ;;
  name <- adjust (mk_mName k) ;;
  ns <- adjust (mk_mNamespace k) ;;
  indexes <- adjust (mk_mInterfaceIndexes k) ;;
  set mc {| mk_mUuid := mk_mUuid k; mk_mName := name; mk_mNamespace := ns;
            mk_mInterfaceNumber := mk_mInterfaceNumber k; mk_mInterfaceIndexes := indexes;
            mConstructorDefault := mConstructorDefault k; mConstructorDeleted := mConstructorDeleted k |}.

(** The constant's name, and its value if its type is String. *)
Definition AdjustConstant (mc : Z) : M unit :=
  k <- get (T := MetaConstant) mc ;;
  name <- adjust (mt_mName k) ;;
  set mc {| mt_mName := name; mt_mTypeIndex := mt_mTypeIndex k; mt_mValue := mt_mValue k |} ;;;
  component <- gets mMetaComponent ;;
  c <- get (T := MetaComponent) component ;;
  p <- get (T := Z) (mTypes c + 8 * mt_mTypeIndex k) ;;
  type <- get (T := MetaType) p ;;
  if bool_decide (mKind type = KString) then
    match v_union (mt_mValue k) with
    | VString p =>
      p <- adjust p ;;
      set mc {| mt_mName := name; mt_mTypeIndex := mt_mTypeIndex k;
                mt_mValue := {| v_union := VString p; mAttributes := mAttributes (mt_mValue k) |} |}
    | _ => undefined
    end
  else ret tt.

Definition AdjustEnumerator (me : Z) : M unit :=
  r <- get (T := MetaEnumerator) me ;;
  name <- adjust (mr_mName r) ;;
  set me {| mr_mName := name; mr_mValue := mr_mValue r |}.

Definition AdjustNamespace (mn : Z) : M unit :=
  n <- get (T := MetaNamespace) mn ;;
  name <- adjust (mn_mName n) ;;
  constants <- adjust (mConstantIndexes n) ;;
  coclasses <- adjust (mCoclassIndexes n) ;;
  enumerations <- adjust (mEnumerationIndexes n) ;;
  interfaces <- adjust (mn_mInterfaceIndexes n) ;;
  set mn {| mn_mName := name; mInterfaceWrappedIndex := mInterfaceWrappedIndex n;
            mn_mConstantNumber := mn_mConstantNumber n; mn_mCoclassNumber := mn_mCoclassNumber n;
            mn_mEnumerationNumber := mn_mEnumerationNumber n;
            mn_mExternalEnumerationNumber := mn_mExternalEnumerationNumber n;
            mn_mInterfaceNumber := mn_mInterfaceNumber n;
            mn_mExternalInterfaceNumber := mn_mExternalInterfaceNumber n;
            mConstantIndexes := constants; mCoclassIndexes := coclasses;
            mEnumerationIndexes := enumerations; mn_mInterfaceIndexes := interfaces |}.

Definition AdjustParameter (mp : Z) : M unit :=
  p <- get (T := MetaParameter) mp ;;
  name <- adjust (mp_mName p) ;;
  set mp {| mp_mName := name; mAttribute := mAttribute p; mp_mTypeIndex := mp_mTypeIndex p;
            mHasDefaultValue := mHasDefaultValue p; mDefaultValue := mDefaultValue p |}.

(** One element of an array of pointers. *)
Definition adjust_cell (a : Z) : M unit := p <- get (T := Z) a ;; p <- adjust p ;; set a p.

End Adjusting.

(** ** Serializing *)

Definition SerializeMetaCoclass := AdjustCoclass SerializeAdjust.
Definition SerializeMetaConstant := AdjustConstant SerializeAdjust.
Definition SerializeMetaEnumerator := AdjustEnumerator SerializeAdjust.
Definition SerializeMetaNamespace := AdjustNamespace SerializeAdjust.
Definition SerializeMetaParameter := AdjustParameter SerializeAdjust.
Definition SerializeMetaType (mt : Z) : M unit := ret tt.

(** The objects [a[i]] are serialized, then [a[i]] itself. *)
Definition serialize_cell (f : Z -> M unit) (a : Z) : M unit :=
  p <- get (T := Z) a ;; f p ;;; p' <- SerializeAdjust p ;; set a p'.

Definition SerializeMetaEnumeration (me : Z) : M unit :=
  e <- get (T := MetaEnumeration) me ;;
  name <- SerializeAdjust (me_mName e) ;;
  ns <- SerializeAdjust (me_mNamespace e) ;;
  loop (mEnumeratorNumber e) (mEnumerators e) (serialize_cell SerializeMetaEnumerator) ;;;
  enumerators <- SerializeAdjust (mEnumerators e) ;;
  set me {| me_mName := name; me_mNamespace := ns; mEnumeratorNumber := mEnumeratorNumber e;
            mEnumerators := enumerators; me_mExternal := me_mExternal e |}.

Definition SerializeMetaMethod (mm : Z) : M unit :=
  m <- get (T := MetaMethod) mm ;;
  name <- SerializeAdjust (mm_mName m) ;;
  signature <- SerializeAdjust (mSignature m) ;;
  loop (mParameterNumber m) (mParameters m) (serialize_cell SerializeMetaParameter) ;;;
  parameters <- SerializeAdjust (mParameters m) ;;
  set mm {| mm_mName := name; mSignature := signature; mReturnTypeIndex := mReturnTypeIndex m;
            mParameterNumber := mParameterNumber m; mParameters := parameters;
            mDeleted := mDeleted m; mm_mReference := mm_mReference m |}.

Definition set_interface (i : MetaInterface) (name ns nested constants methods : Z) : MetaInterface :=
  {| mi_mUuid := mi_mUuid i; mi_mName := name; mi_mNamespace := ns;
     mBaseInterfaceIndex := mBaseInterfaceIndex i; mOuterInterfaceIndex := mOuterInterfaceIndex i;
     mNestedInterfaceNumber := mNestedInterfaceNumber i; mi_mConstantNumber := mi_mConstantNumber i;
     mMethodNumber := mMethodNumber i; mNestedInterfaceIndexes := nested;
     mi_mConstants := constants; mMethods := methods; mi_mExternal := mi_mExternal i |}.

Definition SerializeMetaInterface (mi : Z) : M unit :=
  i <- get (T := MetaInterface) mi ;;
  name <- SerializeAdjust (mi_mName i) ;;
  ns <- SerializeAdjust (mi_mNamespace i) ;;
  nested <- SerializeAdjust (mNestedInterfaceIndexes i) ;;
  loop (mi_mConstantNumber i) (mi_mConstants i) (serialize_cell SerializeMetaConstant) ;;;
  constants <- SerializeAdjust (mi_mConstants i) ;;
  loop (mMethodNumber i) (mMethods i) (serialize_cell SerializeMetaMethod) ;;;
  methods <- SerializeAdjust (mMethods i) ;;
  set mi (set_interface i name ns nested constants methods).

Definition set_pointers (c : MetaComponent)
    (name url namespaces constants coclasses enumerations interfaces types strings : Z) : MetaComponent :=
  {| mMagic := mMagic c; mSize := mSize c; mc_mUuid := mc_mUuid c; mc_mName := name; mUrl := url;
     mNamespaceNumber := mNamespaceNumber c; mc_mConstantNumber := mc_mConstantNumber c;
     mc_mCoclassNumber := mc_mCoclassNumber c; mc_mEnumerationNumber := mc_mEnumerationNumber c;
     mc_mExternalEnumerationNumber := mc_mExternalEnumerationNumber c; mc_mInterfaceNumber := mc_mInterfaceNumber c;
     mc_mExternalInterfaceNumber := mc_mExternalInterfaceNumber c; mTypeNumber := mTypeNumber c;
     mNamespaces := namespaces; mc_mConstants := constants; mCoclasses := coclasses;
     mEnumerations := enumerations; mInterfaces := interfaces; mTypes := types; mStringPool := strings |}.

(** The component's own fields change after the arrays they point to; until
    then only [mTypes] is looked at again. *)
Definition Serialize : M unit :=
  mc <- gets mMetaComponent ;;
  c <- get (T := MetaComponent) mc ;;
  name <- SerializeAdjust (mc_mName c) ;;
  url <- SerializeAdjust (mUrl c) ;;
  loop (mNamespaceNumber c) (mNamespaces c) (serialize_cell SerializeMetaNamespace) ;;;
  namespaces <- SerializeAdjust (mNamespaces c) ;;
  loop (mc_mConstantNumber c) (mc_mConstants c) (serialize_cell SerializeMetaConstant) ;;;
  constants <- SerializeAdjust (mc_mConstants c) ;;
  loop (mc_mCoclassNumber c) (mCoclasses c) (serialize_cell SerializeMetaCoclass) ;;;
  coclasses <- SerializeAdjust (mCoclasses c) ;;
  loop (mc_mEnumerationNumber c) (mEnumerations c) (serialize_cell SerializeMetaEnumeration) ;;;
  enumerations <- SerializeAdjust (mEnumerations c) ;;
  loop (mc_mInterfaceNumber c) (mInterfaces c) (serialize_cell SerializeMetaInterface) ;;;
  interfaces <- SerializeAdjust (mInterfaces c) ;;
  loop (mTypeNumber c) (mTypes c) (serialize_cell SerializeMetaType) ;;;
  types <- SerializeAdjust (mTypes c) ;;
  strings <- SerializeAdjust (mStringPool c) ;;
  set mc (set_pointers c name url namespaces constants coclasses enumerations interfaces types strings).

(** [MetaSerializer(mc)], then [Serialize]. *)
Definition serialize (mc : Z) (m : image) : option (Z * image) :=
  c ← load (T := MetaComponent) mc m;
  '(_, s) ← Serialize {| mMetaComponent := mc; mBasePtr := mc; mDataSize := mSize c; memory := m |};
  Some (mDataSize s, memory s).

(** ** Deserializing *)

Definition DeserializeMetaCoclass := AdjustCoclass DeserializeAdjust.
Definition DeserializeMetaConstant := AdjustConstant DeserializeAdjust.
Definition DeserializeMetaEnumerator := AdjustEnumerator DeserializeAdjust.
Definition DeserializeMetaNamespace := AdjustNamespace DeserializeAdjust.
Definition DeserializeMetaParameter := AdjustParameter DeserializeAdjust.
Definition DeserializeMetaType (mt : Z) : M unit := ret tt.

(** [a[i]] is made a pointer, then the object there is deserialized. *)
Definition deserialize_cell (f : Z -> M unit) (a : Z) : M unit :=
  p <- get (T := Z) a ;; p <- DeserializeAdjust p ;; set a p ;;; f p.

Definition DeserializeMetaEnumeration (me : Z) : M unit :=
  e <- get (T := MetaEnumeration) me ;;
  name <- DeserializeAdjust (me_mName e) ;;
  ns <- DeserializeAdjust (me_mNamespace e) ;;
  enumerators <- DeserializeAdjust (mEnumerators e) ;;
  set me {| me_mName := name; me_mNamespace := ns; mEnumeratorNumber := mEnumeratorNumber e;
            mEnumerators := enumerators; me_mExternal := me_mExternal e |} ;;;
  loop (mEnumeratorNumber e) enumerators (deserialize_cell DeserializeMetaEnumerator).

Definition DeserializeMetaMethod (mm : Z) : M unit :=
  m <- get (T := MetaMethod) mm ;;
  name <- DeserializeAdjust (mm_mName m) ;;
  signature <- DeserializeAdjust (mSignature m) ;;
  parameters <- DeserializeAdjust (mParameters m) ;;
  set mm {| mm_mName := name; mSignature := signature; mReturnTypeIndex := mReturnTypeIndex m;
            mParameterNumber := mParameterNumber m; mParameters := parameters;
            mDeleted := mDeleted m; mm_mReference := mm_mReference m |} ;;;
  loop (mParameterNumber m) parameters (deserialize_cell DeserializeMetaParameter).

Definition DeserializeMetaInterface (mi : Z) : M unit :=
  i <- get (T := MetaInterface) mi ;;
  name <- DeserializeAdjust (mi_mName i) ;;
  ns <- DeserializeAdjust (mi_mNamespace i) ;;
  nested <- DeserializeAdjust (mNestedInterfaceIndexes i) ;;
  constants <- DeserializeAdjust (mi_mConstants i) ;;
  set mi (set_interface i name ns nested constants (mMethods i)) ;;;
  loop (mi_mConstantNumber i) constants (deserialize_cell DeserializeMetaConstant) ;;;
  methods <- DeserializeAdjust (mMethods i) ;;
  set mi (set_interface i name ns nested constants methods) ;;;
  loop (mMethodNumber i) methods (deserialize_cell DeserializeMetaMethod).

(** [mTypes] comes first: the constants are read through it.  [mStringPool]
    is left as it is. *)
Definition Deserialize (basePtr : Z) : M unit :=
  modify (fun s => {| mMetaComponent := basePtr; mBasePtr := basePtr; mDataSize := mDataSize s; memory := memory s |}) ;;;
  c <- get (T := MetaComponent) basePtr ;;
  name <- DeserializeAdjust (mc_mName c) ;;
  url <- DeserializeAdjust (mUrl c) ;;
  types <- DeserializeAdjust (mTypes c) ;;
  set basePtr (set_pointers c name url (mNamespaces c) (mc_mConstants c) (mCoclasses c) (mEnumerations c)
                 (mInterfaces c) types (mStringPool c)) ;;;
  loop (mTypeNumber c) types (deserialize_cell DeserializeMetaType) ;;;
  namespaces <- DeserializeAdjust (mNamespaces c) ;;
  loop (mNamespaceNumber c) namespaces (deserialize_cell DeserializeMetaNamespace) ;;;
  constants <- DeserializeAdjust (mc_mConstants c) ;;
  loop (mc_mConstantNumber c) constants (deserialize_cell DeserializeMetaConstant) ;;;
  coclasses <- DeserializeAdjust (mCoclasses c) ;;
  loop (mc_mCoclassNumber c) coclasses (deserialize_cell DeserializeMetaCoclass) ;;;
  enumerations <- DeserializeAdjust (mEnumerations c) ;;
  loop (mc_mEnumerationNumber c) enumerations (deserialize_cell DeserializeMetaEnumeration) ;;;
  interfaces <- DeserializeAdjust (mInterfaces c) ;;
  loop (mc_mInterfaceNumber c) interfaces (deserialize_cell DeserializeMetaInterface) ;;;
  set basePtr (set_pointers c name url namespaces constants coclasses enumerations interfaces types (mStringPool c)).

(** [MetaSerializer()], then [Deserialize(basePtr)]. *)
Definition deserialize (basePtr : Z) (m : image) : option image :=
  '(_, s) ← Deserialize basePtr {| mMetaComponent := 0; mBasePtr := 0; mDataSize := 0; memory := m |};
  Some (memory s).

End MetaSerializer.
