(* ===== verification/MetaLayout.v ===== *)
(** * What the metadata of a module says, and where it lies

    The reference for [MetaBuilder] and [MetaSerializer].  A [component]
    describes a module without a pointer: names, numbers and lists.  [describe]
    reads it off the syntax tree, [view] off an image in memory, and [lay_*] says
    which object lies at which offset of the image, with its pointers as a
    function of the offsets they lead to. *)
From S2P Require Import Prelude.
From S2P Require Import CcdlString.
From S2P Require Import Expr.
From S2P Require Import Metadata.
From S2P Require Import Ast.
From S2P Require Import MetaBuilder.

Module MetaLayout.
Import Metadata.

Abbreviation text := (list Z).
Abbreviation ALIGN := MetaBuilder.ALIGN8.
Abbreviation ALIGN4 := MetaBuilder.ALIGN4.
Abbreviation count l := (Z.of_nat (length l)).

(** ** Descriptions *)

Inductive value := Scalar (v : MetaValue) | Text (s : text) | EnumeratorName (s : text).

Record constant := { c_name : text; c_type : Z; c_value : value }.
Record enumerator := { r_name : text; r_value : Z }.
Record enumeration := { e_name : text; e_namespace : text; e_enumerators : list enumerator; e_external : bool }.
Record coclass := {
  k_uuid : Uuid; k_name : text; k_namespace : text; k_interfaces : list Z; k_default : bool; k_deleted : bool
}.
Record parameter := { p_name : text; p_attribute : Z; p_type : Z; p_has_default : bool; p_default : MetaValue }.
Record method := {
  m_name : text; m_signature : text; m_return : Z; m_parameters : list parameter; m_deleted : bool; m_reference : bool
}.
Record interface := {
  i_uuid : Uuid; i_name : text; i_namespace : text; i_base : Z; i_outer : Z; i_nested : list Z;
  i_constants : list constant; i_methods : list method; i_external : bool
}.
Record namespace := {
  n_name : text; n_wrapped : Z; n_constants : list Z; n_coclasses : list Z; n_enumerations : list Z;
  n_interfaces : list Z; n_external_enumerations : Z; n_external_interfaces : Z
}.
Record component := {
  d_uuid : Uuid; d_name : text; d_url : text; d_namespaces : list namespace; d_constants : list constant;
  d_coclasses : list coclass; d_enumerations : list enumeration; d_interfaces : list interface; d_types : list MetaType
}.

(** ** The description of a module *)
Section Describe.
Context {A : Allocator}.
Variable module : Ast.Module_.

(** A null string is written as the empty one. *)
Definition text_of (s : String) : text := default [] s.

(** What a value of each type is stored as, type by type: the member of the
    union, and the attributes a number has. *)
Definition flag (mask : Z) (b : bool) : Z := if b then mask else 0.

Definition number_flags (v : Expr.object) : option Z :=
  nan ← Expr.IsNaN v; neg ← Expr.IsNegativeInfinity v; pos ← Expr.IsPositiveInfinity v;
  Some (flag 0x80 nan + flag 0x40 neg + flag 0x20 pos + flag 0x10 (Expr.mScientificNotation v)).

Definition stored (u : variant) (attributes : Z) : MetaValue := {| v_union := u; mAttributes := attributes |}.

Definition describe_scalar (type : Ast.Ty) (v : option Expr.object) : option MetaValue :=
  match type with
  | Ast.Simple Ast.BooleanType => v ← v; b ← Expr.BooleanValue v; Some (stored (VBoolean b) 0)
  | Ast.Simple Ast.CharType => v ← v; z ← Expr.CharacterValue v; Some (stored (VInteger z) 0)
  | Ast.Simple (Ast.ByteType | Ast.ShortType | Ast.IntegerType) => v ← v; z ← Expr.IntegerValue v; Some (stored (VInteger z) 0)
  | Ast.Simple Ast.LongType => v ← v; z ← Expr.LongValue v; Some (stored (VLong z) 0)
  | Ast.Simple Ast.FloatType => v ← v; f ← Expr.FloatValue v; a ← number_flags v; Some (stored (VFloat f) a)
  | Ast.Simple Ast.DoubleType => v ← v; f ← Expr.DoubleValue v; a ← number_flags v; Some (stored (VDouble f) a)
  | _ => Some (stored VZero 0)
  end.

(** A constant of a type of whole numbers has its radix in the low four bits. *)
Definition radix_of (type : Ast.Ty) (v : option Expr.object) : Z :=
  match type, v with
  | Ast.Simple (Ast.CharType | Ast.ByteType | Ast.ShortType | Ast.IntegerType | Ast.LongType), Some v => Expr.mRadix v mod 16
  | _, _ => 0
  end.

Definition describe_value (type : Ast.Ty) (v : option Expr.object) : option value :=
  match type with
  | Ast.Simple Ast.StringType => v ← v; s ← Expr.StringValue v; Some (Text (text_of s))
  | Ast.EnumerationTy _ => v ← v; s ← Expr.EnumeratorValue v; Some (EnumeratorName (text_of s))
  | _ => x ← describe_scalar type v; Some (Scalar (stored (v_union x) (mAttributes x + radix_of type v)))
  end.

(** The default value of a parameter; that of a pointer is a Long. *)
Definition describe_default (type : Ast.Ty) (v : option Expr.Expression) : option MetaValue :=
  match v, type with
  | None, _ => Some (stored VZero 0)
  | Some e, Ast.PointerType _ _ => z ← Expr.LongValue (Expr.dispatch e); Some (stored (VLong z) 0)
  | Some e, _ => describe_scalar type (Some (Expr.dispatch e))
  end.

(** The kind a type has in the metadata. *)
Definition kind (type : Ast.Ty) : CcmTypeKind :=
  match type with
  | Ast.CoclassTy _ => KCoclass
  | Ast.InterfaceTy _ => KInterface
  | Ast.EnumerationTy _ => KEnum
  | Ast.ArrayType _ => KArray
  | Ast.PointerType _ _ | Ast.ReferenceType _ => Unknown
  | Ast.Simple s =>
    match s with
    | Ast.ByteType => KByte | Ast.ShortType => KShort | Ast.IntegerType => KInteger | Ast.LongType => KLong
    | Ast.FloatType => KFloat | Ast.DoubleType => KDouble | Ast.CharType => KChar | Ast.BooleanType => KBoolean
    | Ast.StringType => KString | Ast.HANDLEType => KHANDLE | Ast.ECodeType => KECode | Ast.TripleType => KTriple
    | Ast.CoclassIDType => KCoclassID | Ast.ComponentIDType => KComponentID | Ast.InterfaceIDType => KInterfaceID
    end
  end.

(** A type behind at most one reference, behind at most one pointer. *)
Definition describe_plain (a : Ast.addr) (pointers : Z) (reference : bool) : option MetaType :=
  type ← Ast.type_at module a;
  let '(index, nested) :=
    match type with
    | Ast.CoclassTy _ => (Ast.IndexOf_coclass module a, -1)
    | Ast.InterfaceTy _ => (Ast.IndexOf_interface module a, -1)
    | Ast.EnumerationTy _ => (Ast.IndexOf_enumeration module a, -1)
    | Ast.ArrayType e => (Ast.IndexOf_type module a, Ast.IndexOf_type module e)
    | _ => (Ast.IndexOf_type module a, -1)
    end in
  Some {| mKind := kind type; mIndex := index; mNestedTypeIndex := nested;
          mPointerNumber := pointers; mReference := reference |}.

Definition describe_pointer (a : Ast.addr) (reference : bool) : option MetaType :=
  type ← Ast.type_at module a;
  match type with
  | Ast.PointerType b n => describe_plain b (n mod 256) reference
  | _ => describe_plain a 0 reference
  end.

Definition describe_type (a : Ast.addr) : option MetaType :=
  type ← Ast.type_at module a;
  match type with Ast.ReferenceType b => describe_pointer b true | _ => describe_pointer a false end.

(** The index of an interface; -1 for none. *)
Definition describe_index (a : option Ast.addr) : Z :=
  match a with Some a => Ast.IndexOf_interface module a | None => -1 end.

Definition describe_constant (a : Ast.addr) : option constant :=
  c ← Ast.constant_at module a;
  type ← Ast.type_at module (Ast.Constant.mType c);
  v ← describe_value type (Expr.dispatch <$> Ast.Constant.mValue c);
  Some {| c_name := text_of (Ast.Constant.mName c); c_type := Ast.IndexOf_type module (Ast.Constant.mType c); c_value := v |}.

Definition describe_enumerator (r : Ast.Enumerator.t) : enumerator :=
  {| r_name := text_of (Ast.Enumerator.mName r); r_value := Ast.Enumerator.mValue r |}.

Definition describe_enumeration (a : Ast.addr) : option enumeration :=
  e ← Ast.enumeration_at module a;
  ns ← Ast.Namespace_ToString module (Ast.mNamespace (Ast.Enumeration.base e));
  Some {| e_name := text_of (Ast.mName (Ast.Enumeration.base e)); e_namespace := text_of ns;
          e_enumerators := describe_enumerator <$> Ast.Enumeration.mEnumerators e;
          e_external := Ast.mExternal (Ast.Enumeration.base e) |}.

Definition describe_coclass (a : Ast.addr) : option coclass :=
  k ← Ast.coclass_at module a;
  ns ← Ast.Namespace_ToString module (Ast.mNamespace (Ast.Coclass.base k));
  Some {| k_uuid := Ast.Coclass.mUuid k; k_name := text_of (Ast.mName (Ast.Coclass.base k)); k_namespace := text_of ns;
          k_interfaces := Ast.IndexOf_interface module <$> Ast.Coclass.mInterfaces k;
          k_default := Ast.Coclass.mConstructorDefault k; k_deleted := Ast.Coclass.mConstructorDeleted k |}.

Definition describe_parameter (p : Ast.Param.t) : option parameter :=
  type ← Ast.type_at module (Ast.Param.mType p);
  v ← describe_default type (Ast.Param.mDefaultValue p);
  Some {| p_name := text_of (Ast.Param.mName p); p_attribute := Ast.Param.mAttribute p;
          p_type := Ast.IndexOf_type module (Ast.Param.mType p);
          p_has_default := Ast.Param.HasDefaultValue p; p_default := v |}.

Definition describe_method (m : Ast.Method.t) : option method :=
  ps ← mapM describe_parameter (Ast.Method.mParameters m);
  Some {| m_name := text_of (Ast.Method.mName m); m_signature := text_of (Ast.Method.mSignature m);
          m_return := Ast.IndexOf_type module (Ast.Method.mReturnType m); m_parameters := ps;
          m_deleted := Ast.Method.mDeleted m; m_reference := Ast.Method.mReference m |}.

Definition describe_interface (a : Ast.addr) : option interface :=
  i ← Ast.interface_at module a;
  ns ← Ast.Namespace_ToString module (Ast.mNamespace (Ast.Interface.base i));
  cs ← mapM describe_constant (Ast.Interface.mConstants i);
  ms ← mapM describe_method (Ast.Interface.mMethods i);
  Some {| i_uuid := Ast.Interface.mUuid i; i_name := text_of (Ast.mName (Ast.Interface.base i)); i_namespace := text_of ns;
          i_base := describe_index (Ast.Interface.mBaseInterface i);
          i_outer := describe_index (Ast.Interface.mOuterInterface i);
          i_nested := Ast.IndexOf_interface module <$> Ast.Interface.mInterfaces i;
          i_constants := cs; i_methods := ms; i_external := Ast.mExternal (Ast.Interface.base i) |}.

Definition describe_namespace (a : Ast.addr) : option namespace :=
  n ← Ast.namespace_at module a;
  name ← Ast.Namespace_ToString module a;
  enumerations ← Ast.GetExternalEnumerationNumber module n;
  interfaces ← Ast.GetExternalInterfaceNumber module n;
  Some {| n_name := text_of name; n_wrapped := describe_index (Ast.Namespace.mInterfaceWrapped n);
          n_constants := Ast.IndexOf_constant module <$> Ast.Namespace.mConstants n;
          n_coclasses := Ast.IndexOf_coclass module <$> Ast.Namespace.mCoclasses n;
          n_enumerations := Ast.IndexOf_enumeration module <$> Ast.Namespace.mEnumerations n;
          n_interfaces := Ast.IndexOf_interface module <$> Ast.Namespace.mInterfaces n;
          n_external_enumerations := enumerations; n_external_interfaces := interfaces |}.

Definition describe : option component :=
  namespaces ← mapM describe_namespace (Ast.mNamespaces module);
  constants ← mapM describe_constant (Ast.mConstants module);
  coclasses ← mapM describe_coclass (Ast.mCoclasses module);
  enumerations ← mapM describe_enumeration (Ast.mEnumerations module);
  interfaces ← mapM describe_interface (Ast.mInterfaces module);
  types ← mapM describe_type (snd <$> Ast.mTypes module);
  Some {| d_uuid := Ast.m_mUuid module; d_name := text_of (Ast.m_mName module); d_url := text_of (Ast.mUrl module);
          d_namespaces := namespaces; d_constants := constants; d_coclasses := coclasses;
          d_enumerations := enumerations; d_interfaces := interfaces; d_types := types |}.

(** The description agrees with what the builder computes. *)

Lemma number_flags_builder v : number_flags v = MetaBuilder.fp_attributes v.
Proof.
  unfold number_flags, MetaBuilder.fp_attributes.
  destruct (Expr.IsNaN v) as [[]|], (Expr.IsNegativeInfinity v) as [[]|], (Expr.IsPositiveInfinity v) as [[]|]; try done;
    by destruct (Expr.mScientificNotation v).
Qed.

Lemma describe_scalar_builder type v : describe_scalar type v = MetaBuilder.scalar_value type v.
Proof.
  destruct type as [s| | | | | |]; [|done..].
  destruct s, v as [v|]; try done; cbn; by rewrite number_flags_builder.
Qed.

Lemma describe_value_builder type v : describe_value type v =
  if Ast.IsStringType type then v ← v; s ← Expr.StringValue v; Some (Text (text_of s))
  else if Ast.IsEnumerationType type then v ← v; s ← Expr.EnumeratorValue v; Some (EnumeratorName (text_of s))
  else x ← MetaBuilder.scalar_value type v; x ← MetaBuilder.with_radix type v x; Some (Scalar x).
Proof.
  assert (forall r, Z.land r RADIX_MASK = r mod 16) as Hland by (intros r; exact (Z.land_ones r 4 ltac:(lia))).
  unfold describe_value. destruct type as [s| | | | | |]; try done.
  destruct s; try done; rewrite describe_scalar_builder; (destruct v as [v|]; [|done]);
    unfold MetaBuilder.scalar_value, MetaBuilder.with_radix;
    repeat match goal with |- context [if ?c then _ else _] =>
      let b := eval vm_compute in c in change c with b; cbv iota end; cbn -[Z.land Z.modulo RADIX_MASK MetaBuilder.fp_attributes];
    repeat match goal with |- context [?f v ≫= _] =>
      destruct (f v); [|done]; cbn -[Z.land Z.modulo RADIX_MASK MetaBuilder.fp_attributes] end;
    rewrite ?Hland, ?Z.lor_0_l, ?Z.add_0_r; done.
Qed.

Lemma describe_default_builder type v : describe_default type v =
  match v with Some e => MetaBuilder.default_value type (Some (Expr.dispatch e)) | None => Some MetaBuilder.no_value end.
Proof.
  destruct v as [e|]; [|done]. unfold describe_default, MetaBuilder.default_value.
  destruct type; try done; apply describe_scalar_builder.
Qed.

Lemma kind_builder type : kind type = MetaBuilder.Type2CcdlType type.
Proof. destruct type as [[]| | | | | |]; done. Qed.

Lemma describe_type_builder a : describe_type a = MetaBuilder.meta_type module a.
Proof.
  assert (forall b ps r, describe_plain b ps r =
    type ← Ast.type_at module b;
    Some {| mKind := MetaBuilder.Type2CcdlType type;
            mIndex := match type with
                      | Ast.EnumerationTy _ => Ast.IndexOf_enumeration module b
                      | Ast.InterfaceTy _ => Ast.IndexOf_interface module b
                      | Ast.CoclassTy _ => Ast.IndexOf_coclass module b
                      | _ => Ast.IndexOf_type module b
                      end;
            mNestedTypeIndex := match type with Ast.ArrayType e => Ast.IndexOf_type module e | _ => -1 end;
            mPointerNumber := ps; mReference := r |}) as Hplain.
  { intros b ps r. unfold describe_plain. destruct (Ast.type_at module b) as [ty|]; [|done].
    cbn [mbind option_bind]. rewrite kind_builder. by destruct ty. }
  unfold describe_type, describe_pointer, MetaBuilder.meta_type.
  destruct (Ast.type_at module a) as [ty|] eqn:Ha; [|done]. cbn [mbind option_bind].
  destruct ty as [s|e|b n|b|e|i|k]; cbn [mbind option_bind]; try (rewrite Hplain, ?Ha; done).
  - rewrite Hplain. by destruct (Ast.type_at module b).
  - destruct (Ast.type_at module b) as [ty|] eqn:Hb; [|done]. cbn [mbind option_bind].
    destruct ty as [s|e|b' n|b'|e|i|k]; try (rewrite Hplain, ?Hb; done). rewrite Hplain. by destruct (Ast.type_at module b').
Qed.

End Describe.

(** ** Sizes: the end of a node that begins after [o] *)

Definition end_constant (o : Z) (c : constant) : Z := ALIGN o + 32.
Definition end_enumerator (o : Z) (r : enumerator) : Z := ALIGN o + 16.
Definition end_parameter (o : Z) (p : parameter) : Z := ALIGN o + 40.
Definition end_type (o : Z) (t : MetaType) : Z := ALIGN o + 16.

Definition ends {X} (f : Z -> X -> Z) (o : Z) (l : list X) : Z := fold_left f l o.

Definition end_enumeration (o : Z) (e : enumeration) : Z :=
  ends end_enumerator (ALIGN (ALIGN o + 40) + 8 * count (e_enumerators e)) (e_enumerators e).
Definition end_coclass (o : Z) (k : coclass) : Z := ALIGN4 (ALIGN o + 64) + 4 * count (k_interfaces k).
Definition end_method (o : Z) (m : method) : Z :=
  ends end_parameter (ALIGN (ALIGN o + 40) + 8 * count (m_parameters m)) (m_parameters m).
Definition interface_constants (o : Z) (i : interface) : Z := ALIGN (ALIGN (ALIGN o + 96) + 4 * count (i_nested i)).
Definition interface_methods (o : Z) (i : interface) : Z := ALIGN (interface_constants o i + 8 * count (i_constants i)).
Definition end_interface (o : Z) (i : interface) : Z :=
  ends end_method (ends end_constant (interface_methods o i + 8 * count (i_methods i)) (i_constants i)) (i_methods i).
Definition namespace_coclasses (o : Z) (n : namespace) : Z := ALIGN4 (ALIGN4 (ALIGN o + 72) + 4 * count (n_constants n)).
Definition namespace_enumerations (o : Z) (n : namespace) : Z := ALIGN4 (namespace_coclasses o n + 4 * count (n_coclasses n)).
Definition namespace_interfaces (o : Z) (n : namespace) : Z := ALIGN4 (namespace_enumerations o n + 4 * count (n_enumerations n)).
Definition end_namespace (o : Z) (n : namespace) : Z := namespace_interfaces o n + 4 * count (n_interfaces n).

(** The arrays behind the component. *)
Definition at_namespaces : Z := ALIGN (ALIGN 0 + 136).
Section Arrays.
Variable d : component.
Definition at_constants : Z := ALIGN (at_namespaces + 8 * count (d_namespaces d)).
Definition at_coclasses : Z := ALIGN (at_constants + 8 * count (d_constants d)).
Definition at_enumerations : Z := ALIGN (at_coclasses + 8 * count (d_coclasses d)).
Definition at_interfaces : Z := ALIGN (at_enumerations + 8 * count (d_enumerations d)).
Definition at_types : Z := ALIGN (at_interfaces + 8 * count (d_interfaces d)).
Definition at_strings : Z := at_types + 8 * count (d_types d).

(** The nodes of each kind begin where those of the kind before end. *)
Variable first : Z.
Definition from_constants : Z := ends end_namespace first (d_namespaces d).
Definition from_coclasses : Z := ends end_constant from_constants (d_constants d).
Definition from_enumerations : Z := ends end_coclass from_coclasses (d_coclasses d).
Definition from_interfaces : Z := ends end_enumeration from_enumerations (d_enumerations d).
Definition from_types : Z := ends end_interface from_interfaces (d_interfaces d).
Definition end_nodes : Z := ends end_type from_types (d_types d).
End Arrays.

(** ** The objects *)
Section Lay.
Variable ptr : Z -> Z.            (* the pointer to an offset *)
Variable enum_ptr : Z -> Z.       (* the same in the value of an enumeration constant *)
Variable string : text -> Z.      (* the offset of a string *)

Abbreviation layout := (list (Z * object)).

Fixpoint lay_ints (a : Z) (l : list Z) : layout :=
  match l with [] => [] | x :: l => (a, OInt x) :: lay_ints (a + 4) l end.
Fixpoint lay_chars (a : Z) (l : list Z) : layout :=
  match l with [] => [] | c :: l => (a, OChar c) :: lay_chars (a + 1) l end.

(** Nodes from [o] on, and the array at [a] that points to them. *)
Fixpoint lay_list {X} (lay : Z -> X -> layout) (end_ : Z -> X -> Z) (o a : Z) (l : list X) : layout :=
  match l with
  | [] => []
  | x :: l => lay o x ++ (a, OPointer (ptr (ALIGN o))) :: lay_list lay end_ (end_ o x) (a + 8) l
  end.

Definition lay_value (v : value) : MetaValue :=
  match v with
  | Scalar v => v
  | Text s => {| v_union := VString (ptr (string s)); mAttributes := 0 |}
  | EnumeratorName s => {| v_union := VString (enum_ptr (string s)); mAttributes := 0 |}
  end.

Definition lay_constant (o : Z) (c : constant) : layout :=
  [(ALIGN o, OConstant {| mt_mName := ptr (string (c_name c)); mt_mTypeIndex := c_type c; mt_mValue := lay_value (c_value c) |})].

Definition lay_enumerator (o : Z) (r : enumerator) : layout :=
  [(ALIGN o, OEnumerator {| mr_mName := ptr (string (r_name r)); mr_mValue := r_value r |})].

Definition meta_enumeration (o : Z) (e : enumeration) : MetaEnumeration :=
  {| me_mName := ptr (string (e_name e)); me_mNamespace := ptr (string (e_namespace e));
     mEnumeratorNumber := count (e_enumerators e); mEnumerators := ptr (ALIGN (ALIGN o + 40)); me_mExternal := e_external e |}.
Definition lay_enumeration (o : Z) (e : enumeration) : layout :=
  (ALIGN o, OEnumeration (meta_enumeration o e)) ::
  lay_list lay_enumerator end_enumerator (ALIGN (ALIGN o + 40) + 8 * count (e_enumerators e)) (ALIGN (ALIGN o + 40))
    (e_enumerators e).

Definition meta_coclass (o : Z) (k : coclass) : MetaCoclass :=
  {| mk_mUuid := k_uuid k; mk_mName := ptr (string (k_name k)); mk_mNamespace := ptr (string (k_namespace k));
     mk_mInterfaceNumber := count (k_interfaces k); mk_mInterfaceIndexes := ptr (ALIGN4 (ALIGN o + 64));
     mConstructorDefault := k_default k; mConstructorDeleted := k_deleted k |}.
Definition lay_coclass (o : Z) (k : coclass) : layout :=
  (ALIGN o, OCoclass (meta_coclass o k)) :: lay_ints (ALIGN4 (ALIGN o + 64)) (k_interfaces k).

Definition lay_parameter (o : Z) (p : parameter) : layout :=
  [(ALIGN o, OParameter {| mp_mName := ptr (string (p_name p)); mAttribute := p_attribute p; mp_mTypeIndex := p_type p;
                           mHasDefaultValue := p_has_default p; mDefaultValue := p_default p |})].

Definition meta_method (o : Z) (m : method) : MetaMethod :=
  {| mm_mName := ptr (string (m_name m)); mSignature := ptr (string (m_signature m)); mReturnTypeIndex := m_return m;
     mParameterNumber := count (m_parameters m); mParameters := ptr (ALIGN (ALIGN o + 40));
     mDeleted := m_deleted m; mm_mReference := m_reference m |}.
Definition lay_method (o : Z) (m : method) : layout :=
  (ALIGN o, OMethod (meta_method o m)) ::
  lay_list lay_parameter end_parameter (ALIGN (ALIGN o + 40) + 8 * count (m_parameters m)) (ALIGN (ALIGN o + 40)) (m_parameters m).

Definition meta_interface (o : Z) (i : interface) : MetaInterface :=
  {| mi_mUuid := i_uuid i; mi_mName := ptr (string (i_name i)); mi_mNamespace := ptr (string (i_namespace i));
     mBaseInterfaceIndex := i_base i; mOuterInterfaceIndex := i_outer i; mNestedInterfaceNumber := count (i_nested i);
     mi_mConstantNumber := count (i_constants i); mMethodNumber := count (i_methods i);
     mNestedInterfaceIndexes := ptr (ALIGN (ALIGN o + 96)); mi_mConstants := ptr (interface_constants o i);
     mMethods := ptr (interface_methods o i); mi_mExternal := i_external i |}.
Definition lay_interface (o : Z) (i : interface) : layout :=
  let nodes := interface_methods o i + 8 * count (i_methods i) in
  (ALIGN o, OInterface (meta_interface o i)) ::
  lay_ints (ALIGN (ALIGN o + 96)) (i_nested i) ++
  lay_list lay_constant end_constant nodes (interface_constants o i) (i_constants i) ++
  lay_list lay_method end_method (ends end_constant nodes (i_constants i)) (interface_methods o i) (i_methods i).

Definition meta_namespace (o : Z) (n : namespace) : MetaNamespace :=
  {| mn_mName := ptr (string (n_name n)); mInterfaceWrappedIndex := n_wrapped n;
     mn_mConstantNumber := count (n_constants n); mn_mCoclassNumber := count (n_coclasses n);
     mn_mEnumerationNumber := count (n_enumerations n); mn_mExternalEnumerationNumber := n_external_enumerations n;
     mn_mInterfaceNumber := count (n_interfaces n); mn_mExternalInterfaceNumber := n_external_interfaces n;
     mConstantIndexes := ptr (ALIGN4 (ALIGN o + 72)); mCoclassIndexes := ptr (namespace_coclasses o n);
     mEnumerationIndexes := ptr (namespace_enumerations o n); mn_mInterfaceIndexes := ptr (namespace_interfaces o n) |}.
Definition lay_namespace (o : Z) (n : namespace) : layout :=
  (ALIGN o, ONamespace (meta_namespace o n)) ::
  lay_ints (ALIGN4 (ALIGN o + 72)) (n_constants n) ++
  lay_ints (namespace_coclasses o n) (n_coclasses n) ++
  lay_ints (namespace_enumerations o n) (n_enumerations n) ++
  lay_ints (namespace_interfaces o n) (n_interfaces n).

Definition lay_type (o : Z) (t : MetaType) : layout := [(ALIGN o, OType t)].

(** The component at offset 0; [strings_ptr] is its [mStringPool]. *)
Definition sum (f : namespace -> Z) (l : list namespace) : Z := foldr (fun n s => f n + s) 0 l.
Definition meta_component (d : component) (size strings_ptr : Z) : MetaComponent :=
  {| mMagic := CCM_MAGIC; mSize := size; mc_mUuid := d_uuid d;
     mc_mName := ptr (string (d_name d)); mUrl := ptr (string (d_url d));
     mNamespaceNumber := count (d_namespaces d); mc_mConstantNumber := count (d_constants d);
     mc_mCoclassNumber := count (d_coclasses d); mc_mEnumerationNumber := count (d_enumerations d);
     mc_mExternalEnumerationNumber := sum n_external_enumerations (d_namespaces d);
     mc_mInterfaceNumber := count (d_interfaces d);
     mc_mExternalInterfaceNumber := sum n_external_interfaces (d_namespaces d); mTypeNumber := count (d_types d);
     mNamespaces := ptr at_namespaces; mc_mConstants := ptr (at_constants d); mCoclasses := ptr (at_coclasses d);
     mEnumerations := ptr (at_enumerations d); mInterfaces := ptr (at_interfaces d); mTypes := ptr (at_types d);
     mStringPool := strings_ptr |}.

(** Everything behind the component, when the nodes begin at [first]. *)
Definition lay_types (d : component) (first : Z) : layout := lay_list lay_type end_type (from_types d first) (at_types d) (d_types d).
Definition lay_nodes (d : component) (first : Z) : layout :=
  lay_list lay_namespace end_namespace first at_namespaces (d_namespaces d) ++
  lay_list lay_constant end_constant (from_constants d first) (at_constants d) (d_constants d) ++
  lay_list lay_coclass end_coclass (from_coclasses d first) (at_coclasses d) (d_coclasses d) ++
  lay_list lay_enumeration end_enumeration (from_enumerations d first) (at_enumerations d) (d_enumerations d) ++
  lay_list lay_interface end_interface (from_interfaces d first) (at_interfaces d) (d_interfaces d).

End Lay.

(** ** Reading an image *)
Section View.
Variable n : nat.        (* more than the longest string *)
Variable m : image.

Definition view_text (p : Z) : option text := read_string n p m.

Fixpoint view_ints (k : nat) (a : Z) : option (list Z) :=
  match k with
  | O => Some []
  | S k => match m !! a with Some (OInt z) => l ← view_ints k (a + 4); Some (z :: l) | _ => None end
  end.

Fixpoint view_list {X} (view : Z -> option X) (k : nat) (a : Z) : option (list X) :=
  match k with
  | O => Some []
  | S k => p ← load (T := Z) a m; x ← view p; l ← view_list view k (a + 8); Some (x :: l)
  end.

Definition view_type (p : Z) : option MetaType := load p m.

(** The kind of the type at an index says how to read a constant's value. *)
Definition view_constant (types : Z) (p : Z) : option constant :=
  c ← load (T := MetaConstant) p m;
  name ← view_text (mt_mName c);
  q ← load (T := Z) (types + 8 * mt_mTypeIndex c) m;
  type ← view_type q;
  v ← match mKind type, v_union (mt_mValue c) with
      | KString, VString p => Text <$> view_text p
      | KEnum, VString p => EnumeratorName <$> view_text p
      | KString, _ | KEnum, _ => None
      | _, _ => Some (Scalar (mt_mValue c))
      end;
  Some {| c_name := name; c_type := mt_mTypeIndex c; c_value := v |}.

Definition view_enumerator (p : Z) : option enumerator :=
  r ← load (T := MetaEnumerator) p m; name ← view_text (mr_mName r); Some {| r_name := name; r_value := mr_mValue r |}.

Definition view_enumeration (p : Z) : option enumeration :=
  e ← load (T := MetaEnumeration) p m;
  name ← view_text (me_mName e);
  ns ← view_text (me_mNamespace e);
  rs ← view_list view_enumerator (Z.to_nat (mEnumeratorNumber e)) (mEnumerators e);
  Some {| e_name := name; e_namespace := ns; e_enumerators := rs; e_external := me_mExternal e |}.

Definition view_coclass (p : Z) : option coclass :=
  k ← load (T := MetaCoclass) p m;
  name ← view_text (mk_mName k);
  ns ← view_text (mk_mNamespace k);
  itfs ← view_ints (Z.to_nat (mk_mInterfaceNumber k)) (mk_mInterfaceIndexes k);
  Some {| k_uuid := mk_mUuid k; k_name := name; k_namespace := ns; k_interfaces := itfs;
          k_default := mConstructorDefault k; k_deleted := mConstructorDeleted k |}.

Definition view_parameter (p : Z) : option parameter :=
  q ← load (T := MetaParameter) p m;
  name ← view_text (mp_mName q);
  Some {| p_name := name; p_attribute := mAttribute q; p_type := mp_mTypeIndex q;
          p_has_default := mHasDefaultValue q; p_default := mDefaultValue q |}.

Definition view_method (p : Z) : option method :=
  q ← load (T := MetaMethod) p m;
  name ← view_text (mm_mName q);
  signature ← view_text (mSignature q);
  ps ← view_list view_parameter (Z.to_nat (mParameterNumber q)) (mParameters q);
  Some {| m_name := name; m_signature := signature; m_return := mReturnTypeIndex q; m_parameters := ps;
          m_deleted := mDeleted q; m_reference := mm_mReference q |}.

Definition view_interface (types : Z) (p : Z) : option interface :=
  i ← load (T := MetaInterface) p m;
  name ← view_text (mi_mName i);
  ns ← view_text (mi_mNamespace i);
  nested ← view_ints (Z.to_nat (mNestedInterfaceNumber i)) (mNestedInterfaceIndexes i);
  cs ← view_list (view_constant types) (Z.to_nat (mi_mConstantNumber i)) (mi_mConstants i);
  ms ← view_list view_method (Z.to_nat (mMethodNumber i)) (mMethods i);
  Some {| i_uuid := mi_mUuid i; i_name := name; i_namespace := ns; i_base := mBaseInterfaceIndex i;
          i_outer := mOuterInterfaceIndex i; i_nested := nested; i_constants := cs; i_methods := ms;
          i_external := mi_mExternal i |}.

Definition view_namespace (p : Z) : option namespace :=
  q ← load (T := MetaNamespace) p m;
  name ← view_text (mn_mName q);
  cs ← view_ints (Z.to_nat (mn_mConstantNumber q)) (mConstantIndexes q);
  ks ← view_ints (Z.to_nat (mn_mCoclassNumber q)) (mCoclassIndexes q);
  es ← view_ints (Z.to_nat (mn_mEnumerationNumber q)) (mEnumerationIndexes q);
  itfs ← view_ints (Z.to_nat (mn_mInterfaceNumber q)) (mn_mInterfaceIndexes q);
  Some {| n_name := name; n_wrapped := mInterfaceWrappedIndex q; n_constants := cs; n_coclasses := ks;
          n_enumerations := es; n_interfaces := itfs;
          n_external_enumerations := mn_mExternalEnumerationNumber q;
          n_external_interfaces := mn_mExternalInterfaceNumber q |}.

(** The component at [p], and all it points to. *)
Definition view (p : Z) : option component :=
  c ← load (T := MetaComponent) p m;
  guard (mMagic c = CCM_MAGIC);;
  name ← view_text (mc_mName c);
  url ← view_text (mUrl c);
  namespaces ← view_list view_namespace (Z.to_nat (mNamespaceNumber c)) (mNamespaces c);
  constants ← view_list (view_constant (mTypes c)) (Z.to_nat (mc_mConstantNumber c)) (mc_mConstants c);
  coclasses ← view_list view_coclass (Z.to_nat (mc_mCoclassNumber c)) (mCoclasses c);
  enumerations ← view_list view_enumeration (Z.to_nat (mc_mEnumerationNumber c)) (mEnumerations c);
  interfaces ← view_list (view_interface (mTypes c)) (Z.to_nat (mc_mInterfaceNumber c)) (mInterfaces c);
  types ← view_list view_type (Z.to_nat (mTypeNumber c)) (mTypes c);
  Some {| d_uuid := mc_mUuid c; d_name := name; d_url := url; d_namespaces := namespaces; d_constants := constants;
          d_coclasses := coclasses; d_enumerations := enumerations; d_interfaces := interfaces; d_types := types |}.

End View.

End MetaLayout.
