(* ===== verification/MetaCalculate.v ===== *)
(** * The first pass of the metadata builder

    [Calculate*] walks [mBasePtr] to the ends [MetaLayout] gives and puts every
    string of the module into the pool. *)
From S2P Require Import Prelude.
From S2P Require Import CcdlString.
From S2P Require Import Expr.
From S2P Require Import StringPool.
From S2P Require Import Metadata.
From S2P Require Import Ast.
From S2P Require Import MetaBuilder.
From S2P Require Import MetaLayout.

Module MetaCalculate.
Import Metadata MetaBuilder MetaLayout.

(** ** Alignment *)

Lemma ALIGN8_div v : ALIGN8 v = 8 * ((v + 7) / 8).
Proof.
  unfold ALIGN8. change (Z.lnot 7) with (Z.lnot (Z.ones 3)). rewrite <- Z.ldiff_land, Z.ldiff_ones_r by lia.
  rewrite Z.shiftl_mul_pow2, Z.shiftr_div_pow2 by lia. change (2 ^ 3) with 8. lia.
Qed.

Lemma ALIGN4_div v : ALIGN4 v = 4 * ((v + 3) / 4).
Proof.
  unfold ALIGN4. change (Z.lnot 3) with (Z.lnot (Z.ones 2)). rewrite <- Z.ldiff_land, Z.ldiff_ones_r by lia.
  rewrite Z.shiftl_mul_pow2, Z.shiftr_div_pow2 by lia. change (2 ^ 2) with 4. lia.
Qed.

(** Linear arithmetic with quotients and remainders by constants. *)
Ltac euclid := Z.to_euclidean_division_equations; lia.

Lemma ALIGN8_bounds v : v <= ALIGN8 v <= v + 7 /\ ALIGN8 v mod 8 = 0.
Proof. rewrite ALIGN8_div. euclid. Qed.

Lemma ALIGN4_bounds v : v <= ALIGN4 v <= v + 3 /\ ALIGN4 v mod 4 = 0.
Proof. rewrite ALIGN4_div. euclid. Qed.

Lemma ALIGN8_shift b v : b mod 8 = 0 -> ALIGN8 (b + v) = b + ALIGN8 v.
Proof. rewrite !ALIGN8_div. euclid. Qed.

Lemma ALIGN4_shift b v : b mod 8 = 0 -> ALIGN4 (b + v) = b + ALIGN4 v.
Proof. rewrite !ALIGN4_div. euclid. Qed.

Lemma ALIGN8_id v : v mod 8 = 0 -> ALIGN8 v = v.
Proof. rewrite ALIGN8_div. euclid. Qed.

(** Bounds of every alignment in sight. *)
Ltac aligns :=
  repeat match goal with
  | |- context [ALIGN8 ?v] => lazymatch goal with H : v <= ALIGN8 v <= _ /\ _ |- _ => fail | _ => pose proof (ALIGN8_bounds v) end
  | |- context [ALIGN4 ?v] => lazymatch goal with H : v <= ALIGN4 v <= _ /\ _ |- _ => fail | _ => pose proof (ALIGN4_bounds v) end
  | _ : context [ALIGN8 ?v] |- _ => lazymatch goal with H : v <= ALIGN8 v <= _ /\ _ |- _ => fail | _ => pose proof (ALIGN8_bounds v) end
  | _ : context [ALIGN4 ?v] |- _ => lazymatch goal with H : v <= ALIGN4 v <= _ /\ _ |- _ => fail | _ => pose proof (ALIGN4_bounds v) end
  end.

(** ** Strings *)

Definition strings_constant (c : constant) : list text :=
  c_name c :: match c_value c with Text s | EnumeratorName s => [s] | Scalar _ => [] end.
Definition strings_enumerator (r : enumerator) : list text := [r_name r].
Definition strings_enumeration (e : enumeration) : list text :=
  e_name e :: e_namespace e :: mjoin (strings_enumerator <$> e_enumerators e).
Definition strings_coclass (k : coclass) : list text := [k_name k; k_namespace k].
Definition strings_parameter (p : parameter) : list text := [p_name p].
Definition strings_method (m : method) : list text :=
  m_name m :: m_signature m :: mjoin (strings_parameter <$> m_parameters m).
Definition strings_interface (i : interface) : list text :=
  i_name i :: i_namespace i :: mjoin (strings_constant <$> i_constants i) ++ mjoin (strings_method <$> i_methods i).
Definition strings_namespace (n : namespace) : list text := [n_name n].
Definition strings_type (t : MetaType) : list text := [].

(** All strings of a component. *)
Definition strings (d : component) : list text :=
  d_name d :: d_url d :: mjoin (strings_namespace <$> d_namespaces d) ++ mjoin (strings_constant <$> d_constants d) ++
  mjoin (strings_coclass <$> d_coclasses d) ++ mjoin (strings_enumeration <$> d_enumerations d) ++
  mjoin (strings_interface <$> d_interfaces d).

(** The bytes they take, at most. *)
Definition bytes (ss : list text) : Z := foldr (fun s n => count s + 1 + n) 0 ss.

Lemma bytes_nonneg ss : 0 <= bytes ss.
Proof. unfold bytes. induction ss as [|s ss IH]; cbn; lia. Qed.

Lemma bytes_app l r : bytes (l ++ r) = bytes l + bytes r.
Proof. unfold bytes. induction l as [|s l IH]; cbn; lia. Qed.

Section Pass.
Context {A : Allocator}.
Hypothesis Hok : never_fails A.
Variable module : Ast.Module_.

Abbreviation M := (SE MetaBuilder.t).

(** [pool'] has grown from [pool] by [ss]. *)
Record grown (ss : list text) (pool pool' : StringPool.t) : Prop := {
  grown_inv : StringPool.inv pool';
  grown_old : StringPool.offsets pool ⊆ StringPool.offsets pool';
  grown_new : Forall (fun s => is_Some (StringPool.offset_of pool' s)) ss;
  grown_size : StringPool.mDataOffset pool <= StringPool.mDataOffset pool' <= StringPool.mDataOffset pool + bytes ss
}.

Lemma grown_app ss ss' p p' p'' : grown ss p p' -> grown ss' p' p'' -> grown (ss ++ ss') p p''.
Proof.
  intros [_ O1 N1 S1] [I2 O2 N2 S2]. split; [done|by transitivity (StringPool.offsets p')| |rewrite bytes_app; lia].
  apply Forall_app_2; [|done]. eapply Forall_impl; [exact N1|]. intros s [o Ho]. exists o. by eapply lookup_weaken.
Qed.

(** The pool is ready for [ss]. *)
Definition room (ss : list text) (p : StringPool.t) : Prop :=
  StringPool.inv p /\ StringPool.offset_of p [] = Some 0 /\ StringPool.mDataOffset p + bytes ss <= StringPool.POOL_LIMIT.

Lemma room_app ss ss' p : room (ss ++ ss') p -> room ss p.
Proof. unfold room. rewrite bytes_app. pose proof (bytes_nonneg ss'). intuition lia. Qed.

Lemma room_next ss ss' p p' : room (ss ++ ss') p -> grown ss p p' -> room ss' p'.
Proof.
  unfold room. rewrite bytes_app. intros (_ & He & Hs) [I O _ S]. split_and!; [done|by eapply lookup_weaken|lia].
Qed.

(** ** Rules *)

Lemma wp_query {X} (q : option X) x Q s : q = Some x -> Q x s -> wp (query q) Q s.
Proof. intros ->. done. Qed.

Lemma wp_base Q s : Q (mBasePtr s) s -> wp base Q s.
Proof. done. Qed.

(** What a step of this pass leaves as it is: the answer is a state with a new
    [mBasePtr] and a grown pool. *)
Definition passed (e : Z) (ss : list text) (s s' : t) : Prop :=
  mBasePtr s' = e /\ grown ss (mStringPool s) (mStringPool s').

Definition calculates (f : M unit) (o e : Z) (ss : list text) : Prop :=
  forall s, mBasePtr s = o -> room ss (mStringPool s) -> wp f (fun _ => passed e ss s) s.

Lemma grown_refl p : StringPool.inv p -> grown [] p p.
Proof. intros I. split; [done|done|constructor|cbn; lia]. Qed.

Lemma calculates_seq f g o e e' ss ss' : calculates f o e ss -> calculates g e e' ss' ->
  calculates (f ;;; g) o e' (ss ++ ss').
Proof.
  intros Hf Hg s Hs Hroom. apply wp_bind. eapply wp_mono; [apply Hf; [done|by eapply room_app]|].
  intros [] s1 [H1 G1]. eapply wp_mono; [apply Hg; [done|by eapply room_next]|].
  intros [] s2 [H2 G2]. split; [done|by eapply grown_app].
Qed.

Lemma calculates_advance align n o : calculates (advance align n) o (align (o + n)) [].
Proof. intros s <- [I _]. unfold advance. repeat wp_step. cbn. split; [done|by apply grown_refl]. Qed.

Lemma calculates_Add string o : calculates (Add string) o o [text_of string].
Proof.
  intros s <- (I & He & Hs). unfold Add. repeat wp_step.
  assert (bytes [text_of string] = Str.GetLength string + 1) as Hb by (destruct string; cbn; lia). rewrite Hb in Hs.
  destruct (StringPool.Add_spec Hok string (mStringPool s) I ltac:(lia)) as (p' & Hp & I' & Heq).
  eapply wp_query; [exact Hp|]. cbn. split; [done|]. cbn.
  unfold StringPool.with_string in Heq. destruct string as [l|]; cbn [text_of default] in *.
  - cbn zeta in Heq. case_decide as Hin; injection Heq as Ho Hsz.
    + split; [done|by rewrite Ho|constructor; [|done]; unfold StringPool.offset_of; by rewrite Ho|].
      rewrite Hsz, Hb. cbn. lia.
    + split; [done| | |].
      * rewrite Ho. apply insert_subseteq. by apply eq_None_not_Some.
      * constructor; [|done]. unfold StringPool.offset_of. rewrite Ho, lookup_insert_eq. by eexists.
      * rewrite Hsz, Hb. cbn. rewrite StringMap.StringMap.canon_length. lia.
  - injection Heq as Ho Hsz. split; [done|by rewrite Ho|constructor; [|done]|].
    + unfold StringPool.offset_of. rewrite Ho. by eexists.
    + rewrite Hsz, Hb. cbn. lia.
Qed.

Lemma calculates_query {X} (q : option X) x (k : X -> M unit) o e ss : q = Some x -> calculates (k x) o e ss ->
  calculates (y <- query q ;; k y) o e ss.
Proof. intros -> H s Hs Hroom. apply wp_bind, (wp_query _ x); [done|]. by apply H. Qed.

Lemma calculates_each {X D} (f : X -> M unit) (end_ : Z -> D -> Z) (ss : D -> list text) l ds o :
  Forall2 (fun x d => forall o, calculates (f x) o (end_ o d) (ss d)) l ds ->
  calculates (each f l) o (ends end_ o ds) (mjoin (ss <$> ds)).
Proof.
  intros H. revert o. induction H as [|x d l ds Hx _ IH]; intros o.
  - intros s <- [I _]. by split; [|apply grown_refl].
  - cbn [each]. by eapply calculates_seq.
Qed.

(** Strings that are asked for in another shape. *)
Lemma calculates_eq f o e e' ss ss' : e = e' -> ss = ss' -> calculates f o e ss -> calculates f o e' ss'.
Proof. by intros -> ->. Qed.

Lemma calculates_begin o : calculates (advance ALIGN8 0) o (ALIGN8 o) [].
Proof. eapply calculates_eq; [| |apply calculates_advance]; [by rewrite Z.add_0_r|done]. Qed.

Lemma calculates_ret o : calculates (ret tt) o o [].
Proof. intros s <- [I _]. split; [done|by apply grown_refl]. Qed.

(** ** Every node *)

Ltac pass_step :=
  first [ eapply calculates_query;
            [first [eassumption|match goal with H : ?q = Some _ |- context [?q] => rewrite H; reflexivity end]|]
        | match goal with H : ?b = _ |- calculates (if ?b then _ else _) _ _ _ => rewrite H end
        | apply calculates_begin | apply calculates_Add | apply calculates_ret
        | eapply calculates_each; eassumption
        | apply calculates_advance
        | eapply calculates_seq ].
Ltac pass := eapply calculates_eq; [| |repeat pass_step].

Lemma calculates_coclass a k o : describe_coclass module a = Some k ->
  calculates (CalculateMetaCoclass module a) o (end_coclass o k) (strings_coclass k).
Proof.
  unfold describe_coclass, CalculateMetaCoclass. intros H. simplify_option_eq. pass; [|done].
  unfold end_coclass. cbn. by rewrite length_fmap.
Qed.

Lemma calculates_enumerator r o :
  calculates (CalculateMetaEnumerator r) o (end_enumerator o (describe_enumerator r)) (strings_enumerator (describe_enumerator r)).
Proof. unfold CalculateMetaEnumerator. pass; done. Qed.

Lemma calculates_enumeration a e o : describe_enumeration module a = Some e ->
  calculates (CalculateMetaEnumeration module a) o (end_enumeration o e) (strings_enumeration e).
Proof.
  unfold describe_enumeration, CalculateMetaEnumeration. intros H. simplify_option_eq.
  match goal with |- context [describe_enumerator <$> ?l] =>
    assert (Forall2 (fun r d => forall o, calculates (CalculateMetaEnumerator r) o (end_enumerator o d) (strings_enumerator d))
              l (describe_enumerator <$> l)) by (apply Forall2_fmap_r, Forall_Forall2_diag, Forall_true; intros ?; cbn; intros; apply calculates_enumerator)
  end.
  pass; [|done]. unfold end_enumeration. cbn. by rewrite length_fmap.
Qed.

Lemma calculates_constant a c o : describe_constant module a = Some c ->
  calculates (CalculateMetaConstant module a) o (end_constant o c) (strings_constant c).
Proof.
  unfold describe_constant, CalculateMetaConstant, value_of. intros H. simplify_option_eq.
  match goal with H : describe_value _ _ = _ |- _ => rewrite describe_value_builder in H end.
  repeat case_match; simplify_option_eq; pass; done.
Qed.

Lemma calculates_parameter p d o : describe_parameter module p = Some d ->
  calculates (CalculateMetaParameter p) o (end_parameter o d) (strings_parameter d).
Proof. unfold describe_parameter, CalculateMetaParameter. intros H. simplify_option_eq. pass; done. Qed.

(** The nodes of a list, one after another. *)
Lemma described_each {X D} (describe : X -> option D) (P : X -> D -> Prop) l ds :
  (forall x d, describe x = Some d -> P x d) -> mapM describe l = Some ds -> Forall2 P l ds.
Proof. intros HP H. apply mapM_Some in H. eapply Forall2_impl; [exact H|]. exact HP. Qed.

Lemma calculates_method m d o : describe_method module m = Some d ->
  calculates (CalculateMetaMethod m) o (end_method o d) (strings_method d).
Proof.
  unfold describe_method, CalculateMetaMethod. intros H. simplify_option_eq.
  pose proof (described_each _ _ _ _ (fun p d Hp o => calculates_parameter p d o Hp) ltac:(eassumption)) as Hps.
  pass; [|done]. unfold end_method. cbn. by rewrite (Forall2_length _ _ _ Hps).
Qed.

Lemma calculates_interface a i o : describe_interface module a = Some i ->
  calculates (CalculateMetaInterface module a) o (end_interface o i) (strings_interface i).
Proof.
  unfold describe_interface, CalculateMetaInterface. intros H. simplify_option_eq.
  pose proof (described_each _ _ _ _ (fun p d Hp o => calculates_constant p d o Hp) ltac:(eassumption)) as Hcs.
  pose proof (described_each _ _ _ _ (fun p d Hp o => calculates_method p d o Hp) ltac:(eassumption)) as Hms.
  pass; [|done]. unfold end_interface, interface_methods, interface_constants. cbn.
  by rewrite length_fmap, (Forall2_length _ _ _ Hcs), (Forall2_length _ _ _ Hms).
Qed.

Lemma calculates_namespace a n o : describe_namespace module a = Some n ->
  calculates (CalculateMetaNamespace module a) o (end_namespace o n) (strings_namespace n).
Proof.
  unfold describe_namespace, CalculateMetaNamespace. intros H. simplify_option_eq. pass; [|done].
  unfold end_namespace, namespace_interfaces, namespace_enumerations, namespace_coclasses. cbn. by rewrite !length_fmap.
Qed.

Lemma calculates_type a (t : MetaType) o : calculates (CalculateMetaType a) o (end_type o t) (strings_type t).
Proof. unfold CalculateMetaType. pass; done. Qed.

(** ** The module *)

Lemma strings_types (ts : list MetaType) : mjoin (strings_type <$> ts) = [].
Proof. induction ts; done. Qed.

Lemma CalculateMetadataSize_spec d s : describe module = Some d -> room (strings d) (mStringPool s) ->
  wp (CalculateMetadataSize module) (fun n s' => grown (strings d) (mStringPool s) (mStringPool s') /\
    n = ALIGN8 (end_nodes d (at_strings d) + StringPool.mDataOffset (mStringPool s'))) s.
Proof.
  intros H Hroom. unfold describe in H. simplify_option_eq.
  pose proof (described_each _ _ _ _ (fun p d Hp o => calculates_namespace p d o Hp) ltac:(eassumption)) as Hns.
  pose proof (described_each _ _ _ _ (fun p d Hp o => calculates_constant p d o Hp) ltac:(eassumption)) as Hcs.
  pose proof (described_each _ _ _ _ (fun p d Hp o => calculates_coclass p d o Hp) ltac:(eassumption)) as Hks.
  pose proof (described_each _ _ _ _ (fun p d Hp o => calculates_enumeration p d o Hp) ltac:(eassumption)) as Hes.
  pose proof (described_each _ _ _ _ (fun p d Hp o => calculates_interface p d o Hp) ltac:(eassumption)) as His.
  pose proof (described_each _ _ _ _ (fun p d _ o => calculates_type p d o) ltac:(eassumption)) as Hts.
  unfold CalculateMetadataSize, CalculateMetaComponent. apply wp_bind, wp_modify, wp_bind, wp_bind.
  eapply wp_mono; [eapply calculates_eq; [reflexivity| |repeat pass_step|reflexivity|exact Hroom]|].
  - unfold strings. cbn. by rewrite strings_types, app_nil_r.
  - intros [] s1 [Hb G1]. unfold CalculateStringPool. repeat wp_step. unfold advance. repeat wp_step. cbn. split; [exact G1|].
    rewrite Hb. f_equal. f_equal.
    unfold end_nodes, from_types, from_interfaces, from_enumerations, from_coclasses, from_constants, at_strings, at_types,
      at_interfaces, at_enumerations, at_coclasses, at_constants, at_namespaces. cbn [d_namespaces d_constants d_coclasses
      d_enumerations d_interfaces d_types].
    rewrite <- (Forall2_length _ _ _ Hns), <- (Forall2_length _ _ _ Hcs), <- (Forall2_length _ _ _ Hks),
      <- (Forall2_length _ _ _ Hes), <- (Forall2_length _ _ _ His), <- (Forall2_length _ _ _ Hts), length_fmap. done.
Qed.

End Pass.
End MetaCalculate.
