(* ===== verification/MetaWrite.v ===== *)
(** * The second pass of the metadata builder

    [Write*] stays inside the block the first pass measured, never writes over
    what is there, and leaves the objects [MetaLayout] describes. *)
From S2P Require Import Prelude.
From S2P Require Import CcdlString.
From S2P Require Import Expr.
From S2P Require Import Buckets.
From S2P Require Import StringMap.
From S2P Require Import StringPool.
From S2P Require Import Metadata.
From S2P Require Import Ast.
From S2P Require Import MetaBuilder.
From S2P Require Import MetaLayout.
From S2P Require Import MetaCalculate.

Module MetaWrite.
Import Metadata MetaBuilder MetaLayout MetaCalculate.

Abbreviation layout := (list (Z * object)).

Lemma sizeof_pos x : 0 < sizeof x.
Proof. destruct x; cbn; lia. Qed.

(** ** Where the objects of a layout lie *)

Definition shift (b : Z) (F : layout) : layout := (fun p => (b + p.1, p.2)) <$> F.

Lemma shift_app b F G : shift b (F ++ G) = shift b F ++ shift b G.
Proof. apply fmap_app. Qed.

Lemma elem_of_shift b F a x : (a, x) ∈ shift b F <-> (a - b, x) ∈ F.
Proof.
  unfold shift. rewrite list_elem_of_fmap. split.
  - intros ([c y] & [= -> ->] & H). cbn. by replace (b + c - b) with c by lia.
  - intros H. exists (a - b, x). split; [|done]. cbn. f_equal. lia.
Qed.

(** All of [F] lies between [lo] and [hi]. *)
Definition inside (lo hi : Z) (F : layout) : Prop := forall a x, (a, x) ∈ F -> lo <= a /\ a + sizeof x <= hi.

Lemma inside_ints a l : inside a (a + 4 * count l) (lay_ints a l).
Proof.
  revert a. induction l as [|z l IH]; intros a c x; cbn [lay_ints]; [by intros ?%elem_of_nil|].
  rewrite elem_of_cons. intros [[= -> ->]|H]; cbn; [lia|]. apply IH in H. cbn. lia.
Qed.

Lemma inside_chars a l : inside a (a + count l) (lay_chars a l).
Proof.
  revert a. induction l as [|z l IH]; intros a c x; cbn [lay_chars]; [by intros ?%elem_of_nil|].
  rewrite elem_of_cons. intros [[= -> ->]|H]; cbn; [lia|]. apply IH in H. cbn. lia.
Qed.

(** A kind of node: it ends after it begins, and its objects are between. *)
Record kind {D} (end_ : Z -> D -> Z) (lay : Z -> D -> layout) : Prop := {
  kind_end : forall o d, o <= end_ o d;
  kind_inside : forall o d, inside o (end_ o d) (lay o d)
}.

Lemma ends_le {D} (end_ : Z -> D -> Z) o l : (forall o d, o <= end_ o d) -> o <= ends end_ o l.
Proof.
  intros Hk. unfold ends. revert o. induction l as [|d l IH]; intros o; cbn; [lia|].
  specialize (Hk o d). specialize (IH (end_ o d)). lia.
Qed.

Section Shapes.
Variable ptr enum_ptr : Z -> Z.
Variable string : text -> Z.

Lemma inside_list {D} end_ (lay : Z -> D -> layout) o a l c x : kind end_ lay -> (c, x) ∈ lay_list ptr lay end_ o a l ->
  (o <= c /\ c + sizeof x <= ends end_ o l) \/ (a <= c /\ c + sizeof x <= a + 8 * count l).
Proof.
  intros Hk. revert o a. induction l as [|d l IH]; intros o a; cbn [lay_list]; [by intros ?%elem_of_nil|].
  change (ends end_ o (d :: l)) with (ends end_ (end_ o d) l).
  pose proof (kind_end _ _ Hk o d) as He. pose proof (ends_le end_ (end_ o d) l (kind_end _ _ Hk)).
  rewrite elem_of_app, elem_of_cons. intros [H1|[[= -> ->]|H1]]; cbn [length].
  - apply (kind_inside _ _ Hk) in H1. lia.
  - cbn [sizeof]. lia.
  - apply IH in H1. lia.
Qed.

Ltac one_object := intros ? ? ? ? [= -> ->]%list_elem_of_singleton; cbn [sizeof];
  unfold end_constant, end_enumerator, end_parameter, end_type; aligns; lia.
Ltac end_plain := intros; unfold end_constant, end_enumerator, end_parameter, end_type; aligns; lia.

Lemma kind_constant : kind end_constant (lay_constant ptr enum_ptr string).
Proof. split; [end_plain|one_object]. Qed.
Lemma kind_enumerator : kind end_enumerator (lay_enumerator ptr string).
Proof. split; [end_plain|one_object]. Qed.
Lemma kind_parameter : kind end_parameter (lay_parameter ptr string).
Proof. split; [end_plain|one_object]. Qed.
Lemma kind_type : kind end_type lay_type.
Proof. split; [end_plain|one_object]. Qed.

(** Splits membership in the layout of a node. *)
Ltac split_node :=
  repeat match goal with
  | H : _ ∈ _ :: _ |- _ => apply elem_of_cons in H as [H|H]; [injection H as -> ->; cbn [sizeof]|]
  | H : _ ∈ _ ++ _ |- _ => apply elem_of_app in H as [H|H]
  | H : _ ∈ lay_ints _ _ |- _ => apply inside_ints in H; rewrite ?length_fmap in H
  end.

Lemma kind_coclass : kind end_coclass (lay_coclass ptr string).
Proof.
  split; intros o d; [unfold end_coclass; aligns; lia|]. intros a x H. unfold lay_coclass, end_coclass in *.
  split_node; aligns; lia.
Qed.

Lemma kind_enumeration : kind end_enumeration (lay_enumeration ptr string).
Proof.
  split; intros o d; unfold end_enumeration.
  - pose proof (ends_le end_enumerator (ALIGN8 (ALIGN8 o + 40) + 8 * count (e_enumerators d)) (e_enumerators d) (kind_end _ _ kind_enumerator)).
    aligns; lia.
  - intros a x H. pose proof (ends_le end_enumerator (ALIGN8 (ALIGN8 o + 40) + 8 * count (e_enumerators d)) (e_enumerators d) (kind_end _ _ kind_enumerator)).
    unfold lay_enumeration in H. split_node; [aligns; lia|]. apply (inside_list _ _ _ _ _ _ _ kind_enumerator) in H. aligns; lia.
Qed.

Lemma kind_method : kind end_method (lay_method ptr string).
Proof.
  split; intros o d; unfold end_method;
    pose proof (ends_le end_parameter (ALIGN8 (ALIGN8 o + 40) + 8 * count (m_parameters d)) (m_parameters d) (kind_end _ _ kind_parameter)).
  - aligns; lia.
  - intros a x Hin. unfold lay_method in Hin. split_node; [aligns; lia|].
    apply (inside_list _ _ _ _ _ _ _ kind_parameter) in Hin. aligns; lia.
Qed.

Lemma kind_interface : kind end_interface (lay_interface ptr enum_ptr string).
Proof.
  split; intros o d; unfold end_interface;
    pose proof (ends_le end_constant (interface_methods o d + 8 * count (i_methods d)) (i_constants d) (kind_end _ _ kind_constant));
    pose proof (ends_le end_method (ends end_constant (interface_methods o d + 8 * count (i_methods d)) (i_constants d))
      (i_methods d) (kind_end _ _ kind_method)).
  - unfold interface_methods, interface_constants in *. aligns; lia.
  - intros a x Hin. unfold lay_interface in Hin. split_node;
      [| |apply (inside_list _ _ _ _ _ _ _ kind_constant) in Hin|apply (inside_list _ _ _ _ _ _ _ kind_method) in Hin];
      unfold interface_methods, interface_constants in *; aligns; lia.
Qed.

Lemma kind_namespace : kind end_namespace (lay_namespace ptr string).
Proof.
  split; intros o d; unfold end_namespace.
  - unfold namespace_interfaces, namespace_enumerations, namespace_coclasses. aligns; lia.
  - intros a x Hin. unfold lay_namespace in Hin.
    unfold namespace_interfaces, namespace_enumerations, namespace_coclasses in *. split_node; aligns; lia.
Qed.

End Shapes.

(** ** What writing does to the image *)

(** [m'] is [m] with the new objects [F]. *)
Record writes (m : image) (F : layout) (m' : image) : Prop := {
  writes_fresh : forall a, a ∈ F.*1 -> m !! a = None;
  writes_nodup : NoDup F.*1;
  writes_has : forall a x, (a, x) ∈ F -> m' !! a = Some x;
  writes_rest : forall a, a ∉ F.*1 -> m' !! a = m !! a
}.

Lemma writes_nil m : writes m [] m.
Proof. split; [by intros ? ?%elem_of_nil|constructor|by intros ? ? ?%elem_of_nil|done]. Qed.

Lemma writes_old m F m' a x : writes m F m' -> m !! a = Some x -> m' !! a = Some x.
Proof. intros W Ha. rewrite (writes_rest _ _ _ W); [done|]. intros Hin. by rewrite (writes_fresh _ _ _ W a Hin) in Ha. Qed.

Lemma elem_of_keys (F : layout) a x : (a, x) ∈ F -> a ∈ F.*1.
Proof. intros H. apply list_elem_of_fmap. by exists (a, x). Qed.

Lemma writes_app m F m1 G m2 : writes m F m1 -> writes m1 G m2 -> writes m (F ++ G) m2.
Proof.
  intros W1 W2. assert (forall a, a ∈ G.*1 -> a ∉ F.*1) as Hd.
  { intros a HG HF. apply list_elem_of_fmap in HF as ([c x] & -> & HF).
    cbn in HG. pose proof (writes_has _ _ _ W1 c x HF) as H1. by rewrite (writes_fresh _ _ _ W2 _ HG) in H1. }
  split.
  - intros a. rewrite fmap_app, elem_of_app. intros [HF|HG]; [by apply (writes_fresh _ _ _ W1)|].
    rewrite <- (writes_rest _ _ _ W1) by (by apply Hd). by apply (writes_fresh _ _ _ W2).
  - rewrite fmap_app. apply NoDup_app. split_and!; [apply W1|intros a HF HG; by apply (Hd a)|apply W2].
  - intros a x. rewrite elem_of_app. intros [HF|HG]; [|by apply (writes_has _ _ _ W2)].
    rewrite (writes_rest _ _ _ W2); [by apply (writes_has _ _ _ W1)|]. intros HG. apply (Hd a HG). by eapply elem_of_keys.
  - intros a. rewrite fmap_app, elem_of_app. intros Ha.
    rewrite (writes_rest _ _ _ W2) by tauto. apply (writes_rest _ _ _ W1). tauto.
Qed.

(** Nothing lies between [lo] and [hi]. *)
Definition clear (lo hi : Z) (m : image) : Prop := forall a x, m !! a = Some x -> hi <= a \/ a + sizeof x <= lo.

Lemma clear_sub lo hi lo' hi' m : clear lo hi m -> lo <= lo' -> hi' <= hi -> clear lo' hi' m.
Proof. intros H ? ? a x Ha. apply H in Ha. lia. Qed.

Lemma clear_writes lo hi m F m' : clear lo hi m -> writes m F m' ->
  (forall a x, (a, x) ∈ F -> hi <= a \/ a + sizeof x <= lo) -> clear lo hi m'.
Proof.
  intros H W HF a x Ha. destruct (decide (a ∈ F.*1)) as [Hin|Hin].
  - apply list_elem_of_fmap in Hin as ([c y] & -> & Hin). cbn in *. rewrite (writes_has _ _ _ W c y Hin) in Ha. injection Ha as <-. by apply HF.
  - rewrite (writes_rest _ _ _ W a Hin) in Ha. by apply H.
Qed.

Lemma place_writes lo hi a x m : clear a (a + sizeof x) m -> lo <= a -> a + sizeof x <= hi -> a mod alignof x = 0 ->
  exists m', place lo hi a x m = Some m' /\ writes m [(a, x)] m'.
Proof.
  intros Hc Hlo Hhi Hal. unfold place. pose proof (sizeof_pos x).
  assert (m !! a = None) as Hfresh.
  { destruct (m !! a) as [y|] eqn:Ha; [|done]. apply Hc in Ha. pose proof (sizeof_pos y). lia. }
  rewrite option_guard_True by done. rewrite option_guard_True.
  - eexists. split; [done|]. split.
    + intros c Hin. apply list_elem_of_singleton in Hin as ->. done.
    + apply NoDup_singleton.
    + intros c y [= -> ->]%list_elem_of_singleton. apply lookup_insert_eq.
    + intros c Hin. apply lookup_insert_ne. intros <-. by apply Hin, list_elem_of_singleton.
  - apply Forall_forall. intros [c y] Hin%elem_of_map_to_list. apply Hc in Hin. unfold overlaps. cbn. lia.
Qed.

(** ** Rules *)
Section Pass.
Context {A : Allocator}.
Hypothesis Hok : never_fails A.
Variable module : Ast.Module_.
Variables (b size P : Z) (pool : StringPool.t).
Hypothesis Hb : b mod 8 = 0.
Hypothesis Hpool : StringPool.inv pool.
Hypothesis Hempty : StringPool.offset_of pool [] = Some 0.

Abbreviation M := (SE MetaBuilder.t).
Abbreviation ptr := (fun x => b + x).

Definition string (s : text) : Z := P + default 0 (StringPool.offset_of pool s).

(** The builder inside its block, at the offset [o]. *)
Record ready (o : Z) (s : MetaBuilder.t) : Prop := {
  ready_base : mBasePtr s = b + o;
  ready_mc : mMetaComponet s = b;
  ready_block : block s = (b, b + size);
  ready_pool : MetaBuilder.mStringPool s = pool;
  ready_comp : exists c, written s !! b = Some (OComponent c) /\ Metadata.mStringPool c = b + P
}.

(** From [s] to [s'] the builder has moved to [e] and written [F]. *)
Definition wrote (e : Z) (F : layout) (s s' : MetaBuilder.t) : Prop :=
  ready e s' /\ writes (written s) (shift b F) (written s').

Lemma wrote_app e e' F G s s1 s2 : wrote e F s s1 -> wrote e' G s1 s2 -> wrote e' (F ++ G) s s2.
Proof. intros [_ W1] [R2 W2]. split; [done|]. rewrite shift_app. by eapply writes_app. Qed.

(** The part of the block between two offsets is still free. *)
Definition free (lo hi : Z) (s : MetaBuilder.t) : Prop := clear (b + lo) (b + hi) (written s).

Lemma free_sub lo hi lo' hi' s : free lo hi s -> lo <= lo' -> hi' <= hi -> free lo' hi' s.
Proof. intros H ? ?. eapply clear_sub; [exact H|lia|lia]. Qed.

Lemma free_wrote lo hi e F s s' : free lo hi s -> wrote e F s s' ->
  (forall a x, (a, x) ∈ F -> hi <= a \/ a + sizeof x <= lo) -> free lo hi s'.
Proof. intros H [_ W] HF. eapply clear_writes; [exact H|exact W|]. intros a x Hin%elem_of_shift. apply HF in Hin. lia. Qed.

Lemma wp_advance al n o s Q : ready o s -> (forall x, al (b + x) = b + al x) ->
  (forall s', wrote (al (o + n)) [] s s' -> Q tt s') -> wp (advance al n) Q s.
Proof.
  intros [H1 H2 H3 H4 H5] Hal HQ. unfold advance. repeat wp_step. apply HQ. split; [|apply writes_nil].
  split; cbn; [|done..]. rewrite H1, <- Hal. f_equal. lia.
Qed.

Lemma wp_at o s Q : ready o s -> Q (b + o) s -> wp base Q s.
Proof. intros [<- _ _ _ _] H. exact H. Qed.

Lemma wp_put a x o s Q : ready o s -> free a (a + sizeof x) s -> 0 <= a -> a + sizeof x <= size -> a mod alignof x = 0 ->
  (forall s', wrote o [(a, x)] s s' -> Q tt s') -> wp (put (b + a) x) Q s.
Proof.
  intros [H1 H2 H3 H4 (c & H5 & H6)] Hf Ha Hs Hal HQ. unfold put, on_image. repeat wp_step. rewrite H3. cbn.
  assert ((b + a) mod alignof x = 0) as Hal' by (destruct x; cbn in *; euclid).
  unfold free in Hf. rewrite Z.add_assoc in Hf.
  destruct (place_writes b (b + size) (b + a) x (written s)) as (m' & Hm & W); [done|lia|lia|done|].
  eapply wp_query; [exact Hm|]. apply wp_modify, HQ. split; [|exact W].
  split; cbn; [done..|]. exists c. split; [|done]. by eapply writes_old.
Qed.

Lemma FindOffset_text str : StringPool.FindOffset str pool = Some (default 0 (StringPool.offset_of pool (text_of str))).
Proof.
  unfold StringPool.FindOffset. destruct str as [l|]; cbn [text_of default].
  - exact (dict_get_ok (Dict := StringMap.StringMap_Dict A Z 0) (StringPool.mOffsets pool) l
             (conj (StringPool.inv_map pool Hpool) Hok) Logic.I).
  - cbn. by rewrite Hempty.
Qed.

Lemma wp_WriteString str o s Q : ready o s -> Q (b + string (text_of str)) s -> wp (WriteString str) Q s.
Proof.
  intros [H1 H2 H3 H4 (c & H5 & H6)] HQ. unfold WriteString. repeat wp_step. rewrite H2.
  eapply wp_query; [unfold load; rewrite H5; reflexivity|]. repeat wp_step. rewrite H4.
  eapply wp_query; [apply FindOffset_text|]. apply wp_ret. rewrite H6. unfold string in HQ. by rewrite <- Z.add_assoc.
Qed.

Lemma wp_fill_ints a l o s Q : ready o s -> free a (a + 4 * count l) s -> 0 <= a -> a + 4 * count l <= size -> a mod 4 = 0 ->
  (forall s', wrote o (lay_ints a l) s s' -> Q tt s') -> wp (fill_ints (b + a) l) Q s.
Proof.
  revert a s Q. induction l as [|z l IH]; intros a s Q Hr Hf Ha Hs Hal HQ; cbn [fill_ints lay_ints length] in *.
  - apply wp_ret, HQ. split; [done|apply writes_nil].
  - apply wp_bind. eapply (wp_put a); [exact Hr|eapply free_sub; [exact Hf|lia|cbn; lia]|done|cbn; lia|done|].
    intros s1 W1. rewrite <- Z.add_assoc. apply IH; [apply W1| |lia|lia|euclid|].
    + eapply free_wrote; [|exact W1|].
      * eapply free_sub; [exact Hf|lia|lia].
      * intros c x [= -> ->]%list_elem_of_singleton. cbn. lia.
    + intros s2 W2. apply HQ. exact (wrote_app _ _ [_] _ _ _ _ W1 W2).
Qed.

Lemma wp_fill_chars a l o s Q : ready o s -> free a (a + count l) s -> 0 <= a -> a + count l <= size ->
  (forall s', wrote o (lay_chars a l) s s' -> Q tt s') -> wp (fill_chars (b + a) l) Q s.
Proof.
  revert a s Q. induction l as [|z l IH]; intros a s Q Hr Hf Ha Hs HQ; cbn [fill_chars lay_chars length] in *.
  - apply wp_ret, HQ. split; [done|apply writes_nil].
  - apply wp_bind. eapply (wp_put a); [exact Hr|eapply free_sub; [exact Hf|lia|cbn; lia]|done|cbn; lia|cbn; apply Z.mod_1_r|].
    intros s1 W1. rewrite <- Z.add_assoc. apply IH; [apply W1| |lia|lia|].
    + eapply free_wrote; [|exact W1|].
      * eapply free_sub; [exact Hf|lia|lia].
      * intros c x [= -> ->]%list_elem_of_singleton. cbn. lia.
    + intros s2 W2. apply HQ. exact (wrote_app _ _ [_] _ _ _ _ W1 W2).
Qed.

(** ** Nodes *)

(** [f] writes a node from [o] to [e] with the objects [F]. *)
Definition node (f : M Z) (o e : Z) (F : layout) : Prop :=
  forall s Q, ready o s -> 0 <= o -> e <= size -> free o e s ->
    (forall s', wrote e F s s' -> Q (b + ALIGN8 o) s') -> wp f Q s.

(** Nodes from [o] on, and the pointers to them from [a] on; the array comes first. *)
Lemma wp_fill {X D} (f : X -> M Z) end_ (lay : Z -> D -> layout) l ds a o s Q : kind end_ lay ->
  Forall2 (fun x d => forall o, node (f x) o (end_ o d) (lay o d)) l ds ->
  ready o s -> 0 <= a -> a mod 8 = 0 -> a + 8 * count ds <= o -> ends end_ o ds <= size ->
  free a (a + 8 * count ds) s -> free o (ends end_ o ds) s ->
  (forall s', wrote (ends end_ o ds) (lay_list ptr lay end_ o a ds) s s' -> Q tt s') ->
  wp (fill (b + a) f l) Q s.
Proof.
  intros Hk H. revert a o s Q. induction H as [|x d l ds Hx Hl IH]; intros a o s Q Hr Ha Hal Hao Hs Hfa Hfo HQ.
  - apply wp_ret, HQ. split; [done|apply writes_nil].
  - change (ends end_ o (d :: ds)) with (ends end_ (end_ o d) ds) in *. cbn [fill lay_list length] in *.
    pose proof (kind_end _ _ Hk o d) as He. pose proof (ends_le end_ (end_ o d) ds (kind_end _ _ Hk)) as Hle.
    apply wp_bind. eapply (Hx o s); [done|lia|lia|eapply free_sub; [exact Hfo|lia|lia]|]. intros s1 W1. apply wp_bind.
    assert (forall lo hi, hi <= o \/ end_ o d <= lo -> free lo hi s -> free lo hi s1) as Hf1.
    { intros lo hi Hd Hf. eapply free_wrote; [exact Hf|exact W1|]. intros c y Hin. apply (kind_inside _ _ Hk) in Hin. lia. }
    eapply (wp_put a); [apply W1| |done|cbn; lia|cbn; euclid|].
    { apply Hf1; [cbn; lia|]. eapply free_sub; [exact Hfa|lia|cbn; lia]. }
    intros s2 W2. rewrite <- Z.add_assoc.
    assert (forall lo hi, hi <= a \/ a + 8 <= lo -> free lo hi s1 -> free lo hi s2) as Hf2.
    { intros lo hi Hd Hf. eapply free_wrote; [exact Hf|exact W2|]. intros c y [= -> ->]%list_elem_of_singleton. cbn. lia. }
    apply (IH (a + 8) (end_ o d)); [apply W2|lia|euclid|lia|done| | |].
    + apply Hf2; [lia|]. apply Hf1; [lia|]. eapply free_sub; [exact Hfa|lia|lia].
    + apply Hf2; [lia|]. apply Hf1; [lia|]. eapply free_sub; [exact Hfo|lia|lia].
    + intros s3 W3. apply HQ. eapply wrote_app; [exact W1|]. exact (wrote_app _ _ [_] _ _ _ _ W2 W3).
Qed.

(** ** The steps of a node, counted from its beginning *)

Definition beside (lo hi : Z) (F : layout) : Prop := forall c y, (c, y) ∈ F -> hi <= c \/ c + sizeof y <= lo.

Lemma free_beside lo hi e F s0 s : free lo hi s0 -> wrote e F s0 s -> beside lo hi F -> free lo hi s.
Proof. intros Hf W HF. by eapply free_wrote. Qed.

Lemma begin_node o s : ready o s -> wrote o [] s s.
Proof. intros R. split; [done|apply writes_nil]. Qed.

Lemma then_advance al n o F s0 s Q : wrote o F s0 s -> (forall x, al (b + x) = b + al x) ->
  (forall s', wrote (al (o + n)) F s0 s' -> Q tt s') -> wp (advance al n) Q s.
Proof.
  intros W Hal HQ. eapply wp_advance; [apply W|done|]. intros s' W'. apply HQ.
  rewrite <- (app_nil_r F). by eapply wrote_app.
Qed.

Lemma then_align o F s0 s Q : wrote o F s0 s -> (forall s', wrote (ALIGN8 o) F s0 s' -> Q tt s') -> wp (advance ALIGN8 0) Q s.
Proof.
  intros W HQ. eapply then_advance; [exact W|intros; by apply ALIGN8_shift|]. rewrite Z.add_0_r. exact HQ.
Qed.

Lemma then_put a x o F s0 s Q : wrote o F s0 s -> free a (a + sizeof x) s0 -> beside a (a + sizeof x) F ->
  0 <= a -> a + sizeof x <= size -> a mod alignof x = 0 ->
  (forall s', wrote o (F ++ [(a, x)]) s0 s' -> Q tt s') -> wp (put (b + a) x) Q s.
Proof.
  intros W Hf HF Ha Hs Hal HQ. eapply wp_put; [apply W|by eapply free_beside|done|done|done|].
  intros s' W'. apply HQ. by eapply wrote_app.
Qed.

Lemma then_ints a l o F s0 s Q : wrote o F s0 s -> free a (a + 4 * count l) s0 -> beside a (a + 4 * count l) F ->
  0 <= a -> a + 4 * count l <= size -> a mod 4 = 0 ->
  (forall s', wrote o (F ++ lay_ints a l) s0 s' -> Q tt s') -> wp (fill_ints (b + a) l) Q s.
Proof.
  intros W Hf HF Ha Hs Hal HQ. eapply wp_fill_ints; [apply W|by eapply free_beside|done|done|done|].
  intros s' W'. apply HQ. by eapply wrote_app.
Qed.

Lemma then_fill {X D} (f : X -> M Z) end_ (lay : Z -> D -> layout) l ds a o F s0 s Q : kind end_ lay ->
  Forall2 (fun x d => forall o, node (f x) o (end_ o d) (lay o d)) l ds -> wrote o F s0 s ->
  0 <= a -> a mod 8 = 0 -> a + 8 * count ds <= o -> ends end_ o ds <= size ->
  free a (a + 8 * count ds) s0 -> free o (ends end_ o ds) s0 ->
  beside a (a + 8 * count ds) F -> beside o (ends end_ o ds) F ->
  (forall s', wrote (ends end_ o ds) (F ++ lay_list ptr lay end_ o a ds) s0 s' -> Q tt s') ->
  wp (fill (b + a) f l) Q s.
Proof.
  intros Hk Hds W Ha Hal Hao Hs Hfa Hfo HFa HFo HQ.
  eapply wp_fill; [exact Hk|exact Hds|apply W|done|done|done|done|by eapply free_beside|by eapply free_beside|].
  intros s' W'. apply HQ. by eapply wrote_app.
Qed.

(** Walks through a node. *)
Ltac beside_tac :=
  intros ? ? ?Hin;
  repeat match goal with
  | H : _ ∈ [] |- _ => by apply elem_of_nil in H
  | H : _ ∈ _ ++ _ |- _ => apply elem_of_app in H as [H|H]
  | H : _ ∈ [_] |- _ => apply list_elem_of_singleton in H; injection H as -> ->; cbn [sizeof]
  | H : _ ∈ lay_ints _ _ |- _ => apply inside_ints in H; rewrite ?length_fmap in H
  | H : _ ∈ lay_chars _ _ |- _ => apply inside_chars in H
  | H : _ ∈ lay_list _ _ end_constant _ _ _ |- _ => apply (inside_list _ _ _ _ _ _ _ _ (kind_constant _ _ _)) in H
  | H : _ ∈ lay_list _ _ end_namespace _ _ _ |- _ => apply (inside_list _ _ _ _ _ _ _ _ (kind_namespace _ _)) in H
  | H : _ ∈ lay_list _ _ end_coclass _ _ _ |- _ => apply (inside_list _ _ _ _ _ _ _ _ (kind_coclass _ _)) in H
  | H : _ ∈ lay_list _ _ end_enumeration _ _ _ |- _ => apply (inside_list _ _ _ _ _ _ _ _ (kind_enumeration _ _)) in H
  | H : _ ∈ lay_list _ _ end_interface _ _ _ |- _ => apply (inside_list _ _ _ _ _ _ _ _ (kind_interface _ _ _)) in H
  end.
Ltac write_step :=
  lazymatch goal with
  | |- wp (bind _ _) _ _ => apply wp_bind
  | |- wp (query _) _ _ => eapply wp_query;
      [first [eassumption|reflexivity|match goal with H : ?q = Some _ |- context [?q] => rewrite H; reflexivity end]|]
  | W : wrote _ _ _ ?s |- wp (advance ALIGN8 0) _ ?s => eapply then_align; [exact W|clear W; intros ? W]
  | W : wrote _ _ _ ?s |- wp (advance ALIGN8 _) _ ?s => eapply then_advance; [exact W|intros; by apply ALIGN8_shift|clear W; intros ? W]
  | W : wrote _ _ _ ?s |- wp (advance ALIGN4 _) _ ?s => eapply then_advance; [exact W|intros; by apply ALIGN4_shift|clear W; intros ? W]
  | W : wrote _ _ _ ?s |- wp (advance _ _) _ ?s => eapply then_advance; [exact W|intros; reflexivity|clear W; intros ? W]
  | W : wrote _ _ _ ?s |- wp base _ ?s => eapply wp_at; [apply W|]
  | W : wrote _ _ _ ?s |- wp (WriteString _) _ ?s => eapply wp_WriteString; [apply W|]
  | |- wp (ret _) _ _ => apply wp_ret
  end.

Ltac write_object :=
  lazymatch goal with
  | W : wrote _ _ _ ?s, Hf : free _ _ _ |- wp (put _ _) _ ?s =>
    eapply then_put; [exact W|eapply free_sub; [exact Hf|..]|beside_tac| | | |clear W; intros ? W]; cbn [sizeof alignof]
  | W : wrote _ _ _ ?s, Hf : free _ _ _ |- wp (fill_ints _ _) _ ?s =>
    eapply then_ints; [exact W|eapply free_sub; [exact Hf|..]|beside_tac| | | |clear W; intros ? W]; rewrite ?length_fmap
  | W : wrote _ _ _ ?s, Hf : free _ _ _ |- wp (fill _ _ _) _ ?s =>
    eapply then_fill; [| |exact W| | | | |eapply free_sub; [exact Hf|..]|eapply free_sub; [exact Hf|..]|beside_tac|beside_tac|clear W; intros ? W]
  end.

Lemma node_enumerator r o : node (WriteMetaEnumerator r) o (end_enumerator o (describe_enumerator r))
  (lay_enumerator ptr string o (describe_enumerator r)).
Proof.
  intros s Q R Ho He Hf HQ. apply begin_node in R as W. unfold WriteMetaEnumerator, end_enumerator in *. repeat write_step.
  write_object; try (aligns; lia). repeat write_step. by apply HQ.
Qed.

Lemma wp_constant_value type v x o s Q : ready o s -> describe_value type v = Some x ->
  Q (lay_value ptr ptr string x) s -> wp (constant_value type v) Q s.
Proof.
  intros R Hx HQ. rewrite describe_value_builder in Hx. unfold constant_value in *.
  destruct (Ast.IsStringType type); [|destruct (Ast.IsEnumerationType type)];
    simplify_option_eq; repeat (write_step || (eapply wp_WriteString; [exact R|])); exact HQ.
Qed.

Lemma node_constant a c o : describe_constant module a = Some c ->
  node (WriteMetaConstant module a) o (end_constant o c) (lay_constant ptr ptr string o c).
Proof.
  unfold describe_constant. intros H. simplify_option_eq.
  intros s Q R Ho He Hf HQ. apply begin_node in R as W. unfold WriteMetaConstant, end_constant in *. repeat write_step.
  eapply wp_constant_value; [apply W|eassumption|]. write_step.
  write_object; try (aligns; lia). repeat write_step. by apply HQ.
Qed.

Lemma node_parameter p d o : describe_parameter module p = Some d ->
  node (WriteMetaParameter module p) o (end_parameter o d) (lay_parameter ptr string o d).
Proof.
  unfold describe_parameter. intros H. simplify_option_eq.
  match goal with H : describe_default _ _ = _ |- _ => rewrite describe_default_builder in H end.
  intros s Q R Ho He Hf HQ. apply begin_node in R as W. unfold WriteMetaParameter, end_parameter in *. repeat write_step.
  write_object; try (aligns; lia). repeat write_step. by apply HQ.
Qed.

Lemma node_type a t o : meta_type module a = Some t -> node (WriteMetaType module a) o (end_type o t) (lay_type o t).
Proof.
  intros Ht s Q R Ho He Hf HQ. apply begin_node in R as W. unfold WriteMetaType, end_type in *. repeat write_step.
  write_object; try (aligns; euclid). repeat write_step. by apply HQ.
Qed.

Lemma node_coclass a k o : describe_coclass module a = Some k ->
  node (WriteMetaCoclass module a) o (end_coclass o k) (lay_coclass ptr string o k).
Proof.
  unfold describe_coclass. intros H. simplify_option_eq.
  intros s Q R Ho He Hf HQ. apply begin_node in R as W. unfold WriteMetaCoclass, end_coclass in *. cbn [k_interfaces] in *.
  rewrite length_fmap in *. repeat write_step. write_object; try (aligns; lia). repeat write_step.
  write_object; try (aligns; lia). write_step. apply HQ. unfold lay_coclass, meta_coclass. cbn. by rewrite length_fmap.
Qed.

Lemma node_namespace a n o : describe_namespace module a = Some n ->
  node (WriteMetaNamespace module a) o (end_namespace o n) (lay_namespace ptr string o n).
Proof.
  unfold describe_namespace. intros H. simplify_option_eq.
  intros s Q R Ho He Hf HQ. apply begin_node in R as W.
  unfold WriteMetaNamespace, end_namespace, namespace_interfaces, namespace_enumerations, namespace_coclasses in *.
  cbn [n_constants n_coclasses n_enumerations n_interfaces] in *. rewrite !length_fmap in *.
  repeat write_step. write_object; try (aligns; lia). repeat write_step.
  do 4 (write_object; try (aligns; lia); repeat write_step).
  apply HQ. unfold lay_namespace, meta_namespace, namespace_interfaces, namespace_enumerations, namespace_coclasses. cbn.
  rewrite !length_fmap. by rewrite <- !app_assoc in W.
Qed.

Lemma nodes_enumerators l : Forall2 (fun r d => forall o, node (WriteMetaEnumerator r) o (end_enumerator o d) (lay_enumerator ptr string o d))
  l (describe_enumerator <$> l).
Proof. apply Forall2_fmap_r, Forall_Forall2_diag, Forall_true. intros ?; cbn; intros. apply node_enumerator. Qed.

Lemma node_enumeration a e o : describe_enumeration module a = Some e ->
  node (WriteMetaEnumeration module a) o (end_enumeration o e) (lay_enumeration ptr string o e).
Proof.
  unfold describe_enumeration. intros H. simplify_option_eq.
  intros s Q R Ho He Hf HQ. apply begin_node in R as W. unfold WriteMetaEnumeration, end_enumeration in *.
  cbn [e_enumerators] in *. rewrite length_fmap in *. match type of He with ends _ ?n ?l <= _ =>
    pose proof (ends_le end_enumerator n l (kind_end _ _ (kind_enumerator ptr string))) end.
  repeat write_step. write_object; try (aligns; lia). repeat write_step.
  write_object; [apply kind_enumerator|apply nodes_enumerators|rewrite ?length_fmap..|]; try (aligns; lia).
  write_step. apply HQ. unfold lay_enumeration, meta_enumeration. cbn. rewrite length_fmap. exact W.
Qed.

Lemma node_method m d o : describe_method module m = Some d ->
  node (WriteMetaMethod module m) o (end_method o d) (lay_method ptr string o d).
Proof.
  unfold describe_method. intros H. simplify_option_eq.
  pose proof (described_each _ _ _ _ (fun p d Hp o => node_parameter p d o Hp) ltac:(eassumption)) as Hps.
  intros s Q R Ho He Hf HQ. apply begin_node in R as W. unfold WriteMetaMethod, end_method in *.
  cbn [m_parameters] in *. match type of He with ends _ ?n ?l <= _ =>
    pose proof (ends_le end_parameter n l (kind_end _ _ (kind_parameter ptr string))) end.
  rewrite (Forall2_length _ _ _ Hps) in *.
  repeat write_step. write_object; try (aligns; lia). repeat write_step.
  write_object; [apply kind_parameter|exact Hps|..]; try (aligns; lia).
  write_step. apply HQ. exact W.
Qed.

Lemma node_interface a i o : describe_interface module a = Some i ->
  node (WriteMetaInterface module a) o (end_interface o i) (lay_interface ptr ptr string o i).
Proof.
  unfold describe_interface. intros H. simplify_option_eq.
  pose proof (described_each _ _ _ _ (fun p d Hp o => node_constant p d o Hp) ltac:(eassumption)) as Hcs.
  pose proof (described_each _ _ _ _ (fun p d Hp o => node_method p d o Hp) ltac:(eassumption)) as Hms.
  intros s Q R Ho He Hf HQ. apply begin_node in R as W. unfold lay_interface, meta_interface in HQ.
  unfold WriteMetaInterface, end_interface, interface_methods, interface_constants in *.
  cbn [i_nested i_constants i_methods] in *. rewrite length_fmap in *.
  do 2 write_step. rewrite (Forall2_length _ _ _ Hcs), (Forall2_length _ _ _ Hms).
  match type of He with ends _ (ends _ ?n ?l) ?k <= _ =>
    pose proof (ends_le end_constant n l (kind_end _ _ (kind_constant ptr ptr string)));
    pose proof (ends_le end_method (ends end_constant n l) k (kind_end _ _ (kind_method ptr string))) end.
  repeat write_step. write_object; try (aligns; lia). repeat write_step.
  write_object; [aligns; lia|aligns; lia|aligns; lia|aligns; lia|aligns; lia|aligns; euclid|]. repeat write_step.
  write_object; [apply kind_constant|exact Hcs|..]; try (aligns; lia). repeat write_step.
  write_object; [apply kind_method|exact Hms|..]; try (aligns; lia). write_step. apply HQ. by rewrite <- !app_assoc in W.
Qed.

(** ** The component *)

(** The image with the component alone. *)
Definition alone (c : MetaComponent) : MetaBuilder.t :=
  {| mBasePtr := b; mSize := 0; MetaBuilder.mStringPool := pool; mMetaComponet := b; block := (b, b + size);
     written := {[b := OComponent c]} |}.

Lemma free_alone c lo hi : 136 <= lo -> free lo hi (alone c).
Proof. intros H a x. cbn. rewrite lookup_singleton_Some. intros [<- <-]. cbn. lia. Qed.

Lemma then_component f c e F s Q : wrote e F (alone c) s -> (forall a x, (a, x) ∈ F -> 136 <= a) ->
  Metadata.mStringPool (f c) = Metadata.mStringPool c ->
  (forall s', wrote e F (alone (f c)) s' -> Q tt s') -> wp (set_component b f) Q s.
Proof.
  intros [[H1 H2 H3 H4 (c' & H5 & H6)] W] HF Hf HQ.
  assert (b ∉ (shift b F).*1) as Hnot.
  { intros Hin. apply list_elem_of_fmap in Hin as ([a x] & Ha & Hin). cbn in Ha. subst. apply elem_of_shift, HF in Hin. lia. }
  pose proof (writes_rest _ _ _ W b Hnot) as Hc. cbn in Hc. rewrite lookup_singleton_eq, H5 in Hc. injection Hc as ->.
  unfold set_component, on_image. repeat wp_step. eapply wp_query; [unfold update, load; rewrite H5; reflexivity|].
  apply wp_modify, HQ. split.
  - split; cbn; [done..|]. exists (f c). split; [apply lookup_insert_eq|congruence].
  - destruct W as [Wf Wn Wh Wr]. split; cbn in *.
    + intros a Ha. specialize (Wf a Ha). rewrite lookup_singleton_None in *. done.
    + done.
    + intros a x Hin. rewrite lookup_insert_ne; [by apply Wh|]. intros <-. by apply elem_of_keys in Hin.
    + intros a Ha. destruct (decide (a = b)) as [->|Hne]; [by rewrite lookup_insert_eq, lookup_singleton_eq|].
      rewrite lookup_insert_ne, Wr, !lookup_singleton_ne by done. done.
Qed.

Lemma add_external_twice i e i' e' c : add_external i e (add_external i' e' c) = add_external (i' + i) (e' + e) c.
Proof. unfold add_external. cbn. f_equal; lia. Qed.

Lemma add_external_none c : add_external 0 0 c = c.
Proof. destruct c. unfold add_external. cbn. by rewrite !Z.add_0_r. Qed.

Lemma wp_namespaces l ds a o F c s Q : Forall2 (fun x d => describe_namespace module x = Some d) l ds ->
  wrote o F (alone c) s -> 136 <= a -> a mod 8 = 0 -> a + 8 * count ds <= o -> ends end_namespace o ds <= size ->
  beside a (a + 8 * count ds) F -> beside o (ends end_namespace o ds) F -> (forall a x, (a, x) ∈ F -> 136 <= a) ->
  (forall s', wrote (ends end_namespace o ds) (F ++ lay_list ptr (lay_namespace ptr string) end_namespace o a ds)
     (alone (add_external (sum n_external_interfaces ds) (sum n_external_enumerations ds) c)) s' -> Q tt s') ->
  wp (write_namespaces module b (b + a) l) Q s.
Proof.
  intros H. revert a o F c s Q. induction H as [|x d l ds Hx Hl IH]; intros a o F c s Q W Ha Hal Hao Hs HFa HFo HF HQ.
  - apply wp_ret, HQ. cbn. by rewrite add_external_none, app_nil_r.
  - change (ends end_namespace o (d :: ds)) with (ends end_namespace (end_namespace o d) ds) in *.
    cbn [write_namespaces lay_list length sum foldr] in *. pose proof (kind_namespace ptr string) as Hk.
    pose proof (kind_end _ _ Hk o d) as He. pose proof (ends_le end_namespace (end_namespace o d) ds (kind_end _ _ Hk)) as Hle.
    apply wp_bind. eapply (node_namespace x d o Hx s); [apply W|lia|lia| |].
    { eapply free_beside; [apply free_alone|exact W|]; [lia|]. intros c' y Hin. apply HFo in Hin. lia. }
    intros s1 W1. pose proof (wrote_app _ _ _ _ _ _ _ W W1) as W2. apply wp_bind.
    eapply then_put; [exact W2|apply free_alone; lia| |lia|cbn; lia|cbn; euclid|].
    { intros c' y [Hin|Hin]%elem_of_app; [apply HFa in Hin; cbn; lia|apply (kind_inside _ _ Hk) in Hin; cbn; lia]. }
    clear W1 W2. intros s2 W2. unfold describe_namespace in Hx. simplify_option_eq. repeat write_step.
    eapply then_component; [exact W2| |done|].
    { intros c' y Hin. apply elem_of_app in Hin as [Hin|Hin%list_elem_of_singleton]; [apply elem_of_app in Hin as [Hin|Hin]|].
      - by apply HF in Hin.
      - apply (kind_inside _ _ Hk) in Hin. lia.
      - injection Hin as -> ->. lia. }
    clear W2. intros s3 W3. rewrite <- Z.add_assoc. eapply IH; [exact W3|lia|euclid|lia|done| | | |].
    + intros c' y Hin. apply elem_of_app in Hin as [Hin|Hin%list_elem_of_singleton]; [apply elem_of_app in Hin as [Hin|Hin]|].
      * apply HFa in Hin. lia.
      * apply (kind_inside _ _ Hk) in Hin. lia.
      * injection Hin as -> ->. cbn. lia.
    + intros c' y Hin. apply elem_of_app in Hin as [Hin|Hin%list_elem_of_singleton]; [apply elem_of_app in Hin as [Hin|Hin]|].
      * apply HFo in Hin. lia.
      * apply (kind_inside _ _ Hk) in Hin. lia.
      * injection Hin as -> ->. cbn. lia.
    + intros c' y Hin. apply elem_of_app in Hin as [Hin|Hin%list_elem_of_singleton]; [apply elem_of_app in Hin as [Hin|Hin]|].
      * by apply HF in Hin.
      * apply (kind_inside _ _ Hk) in Hin. lia.
      * injection Hin as -> ->. lia.
    + intros s4 W4. apply HQ. rewrite add_external_twice, <- !app_assoc in W4. exact W4.
Qed.

End Pass.
End MetaWrite.
