(* ===== verification/MetaBuild.v ===== *)
(** * Building the metadata of a module

    The second pass over a whole component, and [Build]: what it calculates is
    enough for what it writes. *)
From S2P Require Import Prelude.
From S2P Require Import CcdlString.
From S2P Require Import Expr.
From S2P Require Import Buckets.
From S2P Require Import StringMap.
From S2P Require Import StringPool.
From S2P Require Import Metadata.
From S2P Require Import Ast.
From S2P Require Import MetaBuilder.
From S2P Require Import MetaLayout.
From S2P Require Import MetaCalculate.
From S2P Require Import MetaWrite.

Module MetaBuild.
Import Metadata MetaBuilder MetaLayout MetaCalculate MetaWrite.

(** ** The order of the arrays and of the nodes *)

Record arrays_order (d : component) : Prop := {
  order_namespaces : at_namespaces = 136;
  order_constants : at_namespaces + 8 * count (d_namespaces d) = at_constants d;
  order_coclasses : at_constants d + 8 * count (d_constants d) = at_coclasses d;
  order_enumerations : at_coclasses d + 8 * count (d_coclasses d) = at_enumerations d;
  order_interfaces : at_enumerations d + 8 * count (d_enumerations d) = at_interfaces d;
  order_types : at_interfaces d + 8 * count (d_interfaces d) = at_types d;
  order_strings : at_types d + 8 * count (d_types d) = at_strings d
}.

Lemma arrays_ordered d : arrays_order d.
Proof.
  assert (at_namespaces = 136) as H0 by done.
  assert (at_namespaces + 8 * count (d_namespaces d) = at_constants d) as H1 by (symmetry; apply ALIGN8_id; rewrite H0; euclid).
  assert (at_constants d + 8 * count (d_constants d) = at_coclasses d) as H2 by (symmetry; apply ALIGN8_id; rewrite <- H1, H0; euclid).
  assert (at_coclasses d + 8 * count (d_coclasses d) = at_enumerations d) as H3
    by (symmetry; apply ALIGN8_id; rewrite <- H2, <- H1, H0; euclid).
  assert (at_enumerations d + 8 * count (d_enumerations d) = at_interfaces d) as H4
    by (symmetry; apply ALIGN8_id; rewrite <- H3, <- H2, <- H1, H0; euclid).
  assert (at_interfaces d + 8 * count (d_interfaces d) = at_types d) as H5
    by (symmetry; apply ALIGN8_id; rewrite <- H4, <- H3, <- H2, <- H1, H0; euclid).
  split; done.
Qed.

Record nodes_order (d : component) (first : Z) : Prop := {
  order_from_constants : first <= from_constants d first;
  order_from_coclasses : from_constants d first <= from_coclasses d first;
  order_from_enumerations : from_coclasses d first <= from_enumerations d first;
  order_from_interfaces : from_enumerations d first <= from_interfaces d first;
  order_from_types : from_interfaces d first <= from_types d first;
  order_end : from_types d first <= end_nodes d first
}.

Lemma nodes_ordered d first : nodes_order d first.
Proof.
  set (p := fun x : Z => x). set (s := fun _ : text => 0).
  split; apply ends_le; eapply kind_end;
    [apply (kind_namespace p s)|apply (kind_constant p p s)|apply (kind_coclass p s)|apply (kind_enumeration p s)|apply (kind_interface p p s)|apply kind_type].
Qed.

(** Membership in parts of a layout, as bounds of the offset. *)
Ltac bounds :=
  repeat match goal with
  | H : _ ∈ _ ++ _ |- _ => apply elem_of_app in H as [H|H]
  | H : _ ∈ lay_chars _ _ |- _ => apply inside_chars in H
  | H : _ ∈ lay_list _ _ end_namespace _ _ _ |- _ => apply (inside_list _ _ _ _ _ _ _ _ (kind_namespace _ _)) in H
  | H : _ ∈ lay_list _ _ end_constant _ _ _ |- _ => apply (inside_list _ _ _ _ _ _ _ _ (kind_constant _ _ _)) in H
  | H : _ ∈ lay_list _ _ end_coclass _ _ _ |- _ => apply (inside_list _ _ _ _ _ _ _ _ (kind_coclass _ _)) in H
  | H : _ ∈ lay_list _ _ end_enumeration _ _ _ |- _ => apply (inside_list _ _ _ _ _ _ _ _ (kind_enumeration _ _)) in H
  | H : _ ∈ lay_list _ _ end_interface _ _ _ |- _ => apply (inside_list _ _ _ _ _ _ _ _ (kind_interface _ _ _)) in H
  | H : _ ∈ lay_list _ _ end_type _ _ _ |- _ => apply (inside_list _ _ _ _ _ _ _ _ kind_type) in H
  end.

(** Everything behind the component lies between it and the end. *)
Lemma nodes_inside ptr enum_ptr string d first a x : at_strings d <= first ->
  (a, x) ∈ lay_nodes ptr enum_ptr string d first ++ lay_types ptr d first -> 136 <= a /\ a + sizeof x <= end_nodes d first.
Proof.
  intros Hf Hin. destruct (arrays_ordered d) as [O1 O2 O3 O4 O5 O6 O7]. destruct (nodes_ordered d first) as [N1 N2 N3 N4 N5 N6].
  unfold lay_nodes, lay_types in Hin.
  unfold end_nodes, from_types, from_interfaces, from_enumerations, from_coclasses, from_constants in N1, N2, N3, N4, N5, N6.
  bounds; unfold end_nodes, from_types, from_interfaces, from_enumerations, from_coclasses, from_constants in *; lia.
Qed.

(** ** Nodes that begin elsewhere *)

(** A node takes the same room wherever it begins; up to an alignment it begins
    at the same place. *)
Record shifts {D} (end_ : Z -> D -> Z) : Prop := {
  shifts_align : forall o o' d, ALIGN8 o = ALIGN8 o' -> end_ o d = end_ o' d;
  shifts_by : forall k o d, k mod 8 = 0 -> end_ (o + k) d = end_ o d + k
}.

Lemma ALIGN8_add v k : k mod 8 = 0 -> ALIGN8 (v + k) = ALIGN8 v + k.
Proof. intros H. rewrite !(Z.add_comm _ k). by apply ALIGN8_shift. Qed.

Lemma ALIGN4_add v k : k mod 8 = 0 -> ALIGN4 (v + k) = ALIGN4 v + k.
Proof. intros H. rewrite !(Z.add_comm _ k). by apply ALIGN4_shift. Qed.

Lemma ends_by {D} (end_ : Z -> D -> Z) k o l : shifts end_ -> k mod 8 = 0 -> ends end_ (o + k) l = ends end_ o l + k.
Proof.
  intros S Hk. unfold ends. revert o. induction l as [|d l IH]; intros o; [done|]. cbn [fold_left].
  by rewrite (shifts_by _ S), IH.
Qed.

Lemma ends_align {D} (end_ : Z -> D -> Z) o o' l : shifts end_ -> ALIGN8 o = ALIGN8 o' ->
  ALIGN8 (ends end_ o l) = ALIGN8 (ends end_ o' l) /\ (l <> [] -> ends end_ o l = ends end_ o' l).
Proof. intros S Ho. unfold ends. destruct l as [|d l]; [done|]. cbn [fold_left]. by rewrite (shifts_align _ S o o'). Qed.

(** Takes [k] out of every alignment. *)
Ltac shift_by k :=
  repeat first [rewrite (Z.add_shuffle0 _ k)|rewrite (ALIGN8_add _ k) by done|rewrite (ALIGN4_add _ k) by done
               |rewrite (ends_by _ k) by done].
Ltac shift_node := split; [intros o o' d Ho; by rewrite ?Ho|intros k o d Hk; shift_by k; lia].

Lemma shifts_constant : shifts end_constant.
Proof. unfold end_constant. shift_node. Qed.
Lemma shifts_enumerator : shifts end_enumerator.
Proof. unfold end_enumerator. shift_node. Qed.
Lemma shifts_parameter : shifts end_parameter.
Proof. unfold end_parameter. shift_node. Qed.
Lemma shifts_type : shifts end_type.
Proof. unfold end_type. shift_node. Qed.
Lemma shifts_coclass : shifts end_coclass.
Proof. unfold end_coclass. shift_node. Qed.
Lemma shifts_namespace : shifts end_namespace.
Proof. unfold end_namespace, namespace_interfaces, namespace_enumerations, namespace_coclasses. shift_node. Qed.
Lemma shifts_enumeration : shifts end_enumeration.
Proof. pose proof shifts_enumerator. unfold end_enumeration. shift_node. Qed.
Lemma shifts_method : shifts end_method.
Proof. pose proof shifts_parameter. unfold end_method. shift_node. Qed.
Lemma shifts_interface : shifts end_interface.
Proof.
  pose proof shifts_constant. pose proof shifts_method. unfold end_interface, interface_methods, interface_constants. shift_node.
Qed.
#[local] Hint Resolve shifts_constant shifts_type shifts_coclass shifts_namespace shifts_enumeration shifts_interface : core.

Lemma end_nodes_by d k o : k mod 8 = 0 -> end_nodes d (o + k) = end_nodes d o + k.
Proof.
  intros Hk. unfold end_nodes, from_types, from_interfaces, from_enumerations, from_coclasses, from_constants. by rewrite !ends_by.
Qed.

Lemma end_nodes_align d o : d_types d <> [] -> end_nodes d o = end_nodes d (ALIGN8 o).
Proof.
  intros Ht. unfold end_nodes, from_types, from_interfaces, from_enumerations, from_coclasses, from_constants.
  apply ends_align; [done| |done]. do 5 (apply ends_align; [done|]). symmetry. apply ALIGN8_id, ALIGN8_bounds.
Qed.

(** The last node is a type. *)
Lemma end_nodes_aligned d o : d_types d <> [] -> end_nodes d o mod 8 = 0.
Proof.
  intros Ht. unfold end_nodes, ends. generalize (from_types d o).
  destruct (d_types d) as [|t l _] using rev_ind; [done|]. intros x. rewrite fold_left_app. cbn [fold_left]. unfold end_type at 1.
  destruct (ALIGN8_bounds (fold_left end_type l x)) as [_ H]. revert H. generalize (ALIGN8 (fold_left end_type l x)). clear.
  intros y H. euclid.
Qed.

(** The first pass puts the strings last and the second one first. *)
Lemma end_nodes_strings d n : d_types d <> [] -> end_nodes d (at_strings d + n) = ALIGN8 (end_nodes d (at_strings d) + n).
Proof.
  intros Ht. rewrite end_nodes_align by done.
  assert (at_strings d mod 8 = 0) as H8 by (destruct (arrays_ordered d); euclid).
  rewrite ALIGN8_shift, end_nodes_by by (done || apply ALIGN8_bounds). rewrite ALIGN8_shift; [done|by apply end_nodes_aligned].
Qed.

(** ** The component *)
Section Component.
Context {A : Allocator}.
Hypothesis Hok : never_fails A.
Variable module : Ast.Module_.
Variables (b size : Z) (pool : StringPool.t).
Hypothesis Hb : b mod 8 = 0.
Hypothesis Hpool : StringPool.inv pool.
Hypothesis Hempty : StringPool.offset_of pool [] = Some 0.
Variable d : component.
Hypothesis Hd : describe module = Some d.

Abbreviation M := (SE MetaBuilder.t).
Abbreviation ptr := (fun x => b + x).
Abbreviation P := (at_strings d).
Abbreviation first := (P + StringPool.mDataOffset pool).
Abbreviation string := (MetaWrite.string P pool).
Abbreviation wrote := (MetaWrite.wrote b size P pool).
Abbreviation alone := (MetaWrite.alone b size pool).

(** What lies behind the component. *)
Definition chars : list Z := take (Z.to_nat (StringPool.mDataOffset pool)) (StringPool.mData pool).
Definition behind : layout :=
  lay_chars P chars ++ lay_nodes ptr ptr string d first ++ lay_types ptr d first.

(** Before the component is placed. *)
Record early (sz o : Z) (s : MetaBuilder.t) : Prop := {
  early_base : mBasePtr s = b + o;
  early_mc : mMetaComponet s = b;
  early_block : block s = (b, b + size);
  early_pool : MetaBuilder.mStringPool s = pool;
  early_size : MetaBuilder.mSize s = sz;
  early_written : written s = ∅
}.

Lemma early_advance sz al n o s Q : early sz o s -> (forall x, al (b + x) = b + al x) ->
  (forall s', early sz (al (o + n)) s' -> Q tt s') -> wp (advance al n) Q s.
Proof.
  intros [H1 H2 H3 H4 H5 H6] Hal HQ. unfold advance. repeat wp_step. apply HQ. split; cbn; [|done..].
  rewrite H1, <- Hal. f_equal. lia.
Qed.

Lemma early_at sz o s Q : early sz o s -> Q (b + o) s -> wp base Q s.
Proof. intros [<- _ _ _ _ _] H. exact H. Qed.

(** Placing the component. *)
Lemma early_put sz o c s Q : early sz o s -> 136 <= size -> Metadata.mStringPool c = b + P ->
  (forall s', wrote o [] (alone c) s' -> Q tt s') -> wp (put b (OComponent c)) Q s.
Proof.
  intros [H1 H2 H3 H4 H5 H6] Hs Hc HQ. unfold put, on_image. repeat wp_step. rewrite H3, H6. cbn [fst snd].
  destruct (place_writes b (b + size) b (OComponent c) ∅) as (m & Hm & W); cbn; [done|lia|lia|euclid|].
  eapply wp_query; [exact Hm|]. apply wp_modify, HQ.
  unfold place in Hm. simplify_option_eq. split; [|apply writes_nil].
  split; cbn; [done..|]. exists c. split; [apply lookup_insert_eq|done].
Qed.

Lemma chars_length : count chars = StringPool.mDataOffset pool.
Proof.
  pose proof (StringPool.inv_size pool Hpool). pose proof (StringPool.inv_data pool Hpool).
  unfold chars. rewrite length_take. lia.
Qed.

Ltac early_step :=
  lazymatch goal with
  | |- wp (bind _ _) _ _ => apply wp_bind
  | E : early _ _ ?s |- wp (gets MetaBuilder.mSize) _ ?s => apply wp_gets; rewrite (early_size _ _ _ E)
  | E : early _ _ ?s |- wp (advance ALIGN8 _) _ ?s => eapply early_advance; [exact E|intros; by apply ALIGN8_shift|clear E; intros ? E]
  | E : early _ _ ?s |- wp (advance _ _) _ ?s => eapply early_advance; [exact E|intros; reflexivity|clear E; intros ? E]
  | E : early _ _ ?s |- wp base _ ?s => eapply early_at; [exact E|]
  end.

(** The counts of a module are those of its description. *)
Lemma describe_counts :
  length (Ast.mNamespaces module) = length (d_namespaces d) /\ length (Ast.mConstants module) = length (d_constants d) /\
  length (Ast.mCoclasses module) = length (d_coclasses d) /\ length (Ast.mEnumerations module) = length (d_enumerations d) /\
  length (Ast.mInterfaces module) = length (d_interfaces d) /\ length (Ast.mTypes module) = length (d_types d).
Proof.
  unfold describe in Hd. simplify_option_eq. repeat match goal with H : mapM _ _ = Some _ |- _ => apply length_mapM in H end.
  rewrite length_fmap in *. done.
Qed.

Lemma described_namespaces : Forall2 (fun x k => describe_namespace module x = Some k) (Ast.mNamespaces module) (d_namespaces d).
Proof. clear -Hd. unfold describe in Hd. simplify_option_eq. by apply mapM_Some. Qed.
Lemma described_constants : Forall2 (fun x k => describe_constant module x = Some k) (Ast.mConstants module) (d_constants d).
Proof. clear -Hd. unfold describe in Hd. simplify_option_eq. by apply mapM_Some. Qed.
Lemma described_coclasses : Forall2 (fun x k => describe_coclass module x = Some k) (Ast.mCoclasses module) (d_coclasses d).
Proof. clear -Hd. unfold describe in Hd. simplify_option_eq. by apply mapM_Some. Qed.
Lemma described_enumerations : Forall2 (fun x k => describe_enumeration module x = Some k) (Ast.mEnumerations module) (d_enumerations d).
Proof. clear -Hd. unfold describe in Hd. simplify_option_eq. by apply mapM_Some. Qed.
Lemma described_interfaces : Forall2 (fun x k => describe_interface module x = Some k) (Ast.mInterfaces module) (d_interfaces d).
Proof. clear -Hd. unfold describe in Hd. simplify_option_eq. by apply mapM_Some. Qed.
Lemma described_types : Forall2 (fun x k => meta_type module x = Some k) (snd <$> Ast.mTypes module) (d_types d).
Proof.
  clear -Hd. unfold describe in Hd. simplify_option_eq. eapply Forall2_impl; [by apply mapM_Some|].
  intros x k Hk. by rewrite <- describe_type_builder.
Qed.

(** One array of nodes, and the nodes. *)
Ltac write_array node k described :=
  try apply wp_bind;
  lazymatch goal with
  | W : MetaWrite.wrote _ _ _ _ _ _ _ ?s |- wp _ _ ?s =>
    eapply (then_fill b size P pool Hb);
      [apply k|eapply Forall2_impl; [exact described|]; intros; by apply node|exact W|..|clear W; intros ? W]
  end;
  [try (apply free_alone); try (intros ? ? Hin); bounds; first [lia|euclid]..|].

(** The arrays of nodes, after the strings. *)
Lemma write_nodes_spec c s : wrote first (lay_chars P chars) (alone c) s -> end_nodes d first <= size ->
  wp (write_namespaces module b (b + at_namespaces) (Ast.mNamespaces module) ;;;
      fill (b + at_constants d) (WriteMetaConstant module) (Ast.mConstants module) ;;;
      fill (b + at_coclasses d) (WriteMetaCoclass module) (Ast.mCoclasses module) ;;;
      fill (b + at_enumerations d) (WriteMetaEnumeration module) (Ast.mEnumerations module) ;;;
      fill (b + at_interfaces d) (WriteMetaInterface module) (Ast.mInterfaces module) ;;;
      fill (b + at_types d) (WriteMetaType module) (snd <$> Ast.mTypes module))
    (fun _ => wrote (end_nodes d first) behind
      (alone (add_external (sum n_external_interfaces (d_namespaces d)) (sum n_external_enumerations (d_namespaces d)) c))) s.
Proof.
  intros W Hs. destruct (arrays_ordered d) as [O1 O2 O3 O4 O5 O6 O7].
  destruct (nodes_ordered d first) as [N1 N2 N3 N4 N5 N6]. pose proof (StringPool.inv_size pool Hpool) as Hsz.
  pose proof chars_length as Hch.
  unfold end_nodes, from_types, from_interfaces, from_enumerations, from_coclasses, from_constants in N1, N2, N3, N4, N5, N6, Hs.
  apply wp_bind. eapply (wp_namespaces Hok module b size P pool); [done..|exact described_namespaces|exact W| | | | | | | |clear W; intros ? W].
  1-7: try (intros ? ? Hin); bounds; first [lia|euclid].
  write_array node_constant (kind_constant ptr ptr string) described_constants.
  write_array node_coclass (kind_coclass ptr string) described_coclasses.
  write_array node_enumeration (kind_enumeration ptr string) described_enumerations.
  write_array node_interface (kind_interface ptr ptr string) described_interfaces.
  write_array node_type kind_type described_types.
  rewrite <- !app_assoc in W. unfold behind, lay_nodes. rewrite <- !app_assoc. exact W.
Qed.

(** The component before its strings and its sums are known. *)
Definition blank (sz : Z) : MetaComponent :=
  {| mMagic := CCM_MAGIC; Metadata.mSize := sz; mc_mUuid := d_uuid d; mc_mName := 0; mUrl := 0;
     mNamespaceNumber := count (d_namespaces d); mc_mConstantNumber := count (d_constants d);
     mc_mCoclassNumber := count (d_coclasses d); mc_mEnumerationNumber := count (d_enumerations d);
     mc_mExternalEnumerationNumber := 0; mc_mInterfaceNumber := count (d_interfaces d);
     mc_mExternalInterfaceNumber := 0; mTypeNumber := count (d_types d);
     mNamespaces := b + at_namespaces; mc_mConstants := b + at_constants d; mCoclasses := b + at_coclasses d;
     mEnumerations := b + at_enumerations d; mInterfaces := b + at_interfaces d; mTypes := b + at_types d;
     Metadata.mStringPool := b + P |}.

Lemma described_names : Ast.m_mUuid module = d_uuid d /\ text_of (Ast.m_mName module) = d_name d /\ text_of (Ast.mUrl module) = d_url d.
Proof. clear -Hd. unfold describe in Hd. by simplify_option_eq. Qed.

(** Folds the offsets of the arrays. *)
Ltac fold_arrays :=
  change (ALIGN8 (0 + 0)) with 0;
  change (ALIGN8 (0 + 136)) with at_namespaces;
  change (ALIGN8 (at_namespaces + 8 * count (d_namespaces d))) with (at_constants d);
  change (ALIGN8 (at_constants d + 8 * count (d_constants d))) with (at_coclasses d);
  change (ALIGN8 (at_coclasses d + 8 * count (d_coclasses d))) with (at_enumerations d);
  change (ALIGN8 (at_enumerations d + 8 * count (d_enumerations d))) with (at_interfaces d);
  change (ALIGN8 (at_interfaces d + 8 * count (d_interfaces d))) with (at_types d);
  change (at_types d + 8 * count (d_types d)) with P.

Lemma WriteMetaComponent_spec sz s : early sz 0 s -> end_nodes d first <= size ->
  wp (WriteMetaComponent module)
    (fun _ => wrote (end_nodes d first) behind (alone (meta_component ptr string d sz (b + P)))) s.
Proof.
  intros E Hs. pose proof (arrays_ordered d) as [O1 O2 O3 O4 O5 O6 O7].
  pose proof (nodes_ordered d first) as [N1 N2 N3 N4 N5 N6]. pose proof (StringPool.inv_size pool Hpool) as Hsz.
  destruct describe_counts as (C1 & C2 & C3 & C4 & C5 & C6). destruct described_names as (D1 & D2 & D3).
  unfold WriteMetaComponent. rewrite C1, C2, C3, C4, C5, C6. repeat early_step.
  fold_arrays. rewrite Z.add_0_r.
  rewrite D1.
  change (OComponent _) with (OComponent (blank sz)).
  eapply early_put; [exact E|lia|done|]. clear E. intros s1 W. apply wp_bind, wp_gets.
  change (MetaWrite.wrote b size P pool P [] (alone (blank sz)) s1) in W. pose proof chars_length as Hch.
  rewrite (ready_pool _ _ _ _ _ _ (proj1 W)). apply wp_bind.
  eapply (then_advance b size P pool); [exact W|done|clear W; intros s2 W].
  change (take _ _) with chars. apply wp_bind.
  eapply (wp_fill_chars b size P pool Hb); [apply W| |lia|lia|].
  { eapply free_beside; [apply free_alone; lia|exact W|]. by intros ? ? ?%elem_of_nil. }
  intros s3 W3. pose proof (wrote_app b size P pool _ _ _ _ _ _ _ W W3) as W4. cbn [app] in W4. clear W W3.
  apply wp_bind. eapply (wp_WriteString Hok b size P pool); [done..|apply W4|]. apply wp_bind. rewrite D2.
  eapply (then_component b size P pool); [exact W4|intros ? ? Hin; bounds; lia|done|clear W4; intros s4 W].
  apply wp_bind. eapply (wp_WriteString Hok b size P pool); [done..|apply W|]. apply wp_bind. rewrite D3.
  eapply (then_component b size P pool); [exact W|intros ? ? Hin; bounds; lia|done|clear W; intros s5 W].
  eapply wp_mono; [apply write_nodes_spec; [exact W|done]|]. done.
Qed.

End Component.

(** ** Build *)

(** What a module has to be for its metadata to be built; the last two keep
    the sizes in [int]. *)
Record buildable {A : Allocator} (module : Ast.Module_) (d : component) : Prop := {
  buildable_describe : describe module = Some d;
  buildable_valid : IsValid module = Some true;
  buildable_types : d_types d <> [];
  buildable_pool : 1 + bytes (strings d) <= StringPool.POOL_LIMIT;
  buildable_size : end_nodes d (at_strings d) + bytes (strings d) < 2 ^ 31 - 8
}.

(** The size of the metadata. *)
Definition total (d : component) (pool : StringPool.t) : Z := end_nodes d (at_strings d + StringPool.mDataOffset pool).

(** The state after [Build]: [pool] has all strings, the block is filled
    with the component and what [behind] lays out, and no byte is left. *)
Record built {A : Allocator} (b : Z) (d : component) (pool : StringPool.t) (s : MetaBuilder.t) : Prop := {
  built_inv : StringPool.inv pool;
  built_empty : StringPool.offset_of pool [] = Some 0;
  built_strings : Forall (fun t => is_Some (StringPool.offset_of pool t)) (strings d);
  built_total : 0 <= total d pool < 2 ^ 31;
  built_base : mBasePtr s = b + total d pool;
  built_block : block s = (b, b + total d pool);
  built_writes : writes {[b := OComponent (meta_component (fun x => b + x) (MetaWrite.string (at_strings d) pool) d (total d pool) (b + at_strings d))]}
                   (shift b (behind b pool d)) (written s)
}.

Lemma at_strings_lower d : 136 <= at_strings d.
Proof. destruct (arrays_ordered d). lia. Qed.

Lemma end_nodes_lower d o : o <= end_nodes d o.
Proof. destruct (nodes_ordered d o). lia. Qed.

Lemma wrote_mSize {A : Allocator} b size P pool e F s s' : MetaWrite.wrote b size P pool e F s s' ->
  mBasePtr s' = b + e /\ block s' = (b, b + size).
Proof. intros [[H1 _ H3 _ _] _]. done. Qed.

Lemma Build_spec {A : Allocator} module d b : never_fails A -> buildable module d -> b mod 8 = 0 ->
  exists s0 s1 pool s, new = Some s0 /\ CalculateMetadataSize module s0 = Some (total d pool, s1) /\
    Build module b s0 = Some (Some b, s) /\ built b d pool s.
Proof.
  intros Hok [Hd Hv Ht Hp Hs] Hb. destruct (StringPool.new_pool_spec Hok) as (p & Hp0 & I0 & O0 & S0).
  unfold new. rewrite Hp0. cbn [mbind option_bind]. eexists.
  assert (room (strings d) p) as Hroom by (split; [done|split; [unfold StringPool.offset_of; by rewrite O0|lia]]).
  destruct (wp_run _ _ _ (CalculateMetadataSize_spec Hok module d
    {| mBasePtr := 0; MetaBuilder.mSize := 0; MetaBuilder.mStringPool := p; mMetaComponet := 0; block := (0, 0); written := ∅ |}
    Hd Hroom)) as (n & s1 & Hc & [I1 O1 N1 S1] & ->). cbn [MetaBuilder.mStringPool] in *. set (pool := MetaBuilder.mStringPool s1) in *.
  rewrite <- end_nodes_strings in Hc by done. change (end_nodes _ _) with (total d pool) in Hc.
  exists s1, pool. enough (wp (Build module b) (fun r s => r = Some b /\ built b d pool s)
    {| mBasePtr := 0; MetaBuilder.mSize := 0; MetaBuilder.mStringPool := p; mMetaComponet := 0; block := (0, 0); written := ∅ |}) as H.
  { apply wp_run in H as (? & s & Hr & -> & H). by exists s. }
  unfold Build. apply wp_bind. eapply wp_query; [exact Hv|]. cbn [negb]. apply wp_bind. unfold wp at 1. rewrite Hc.
  assert (0 <= total d pool < 2 ^ 31) as Hsize.
  { pose proof (end_nodes_lower d (at_strings d + StringPool.mDataOffset pool)). pose proof (at_strings_lower d).
    unfold total. split; [lia|]. rewrite end_nodes_strings by done. aligns. lia. }
  assert (i32 (total d pool) = total d pool) as -> by (apply wrap_s_id; [done|unfold fits_s; lia]).
  assert (u64 (total d pool) = total d pool) as -> by (apply wrap_u_id; unfold fits_u; lia).
  rewrite Hok. cbn [negb]. apply wp_bind, wp_modify, wp_bind.
  eapply wp_mono; [eapply (WriteMetaComponent_spec Hok module b (total d pool) pool Hb I1); [|exact Hd| |reflexivity]|].
  { eapply lookup_weaken; [|exact O1]. by rewrite O0. }
  { split; cbn; [lia|done..]. }
  intros [] s [[H1 _ H3 H4 _] W]. apply wp_ret. split; [done|]. split; try done.
  eapply lookup_weaken; [|exact O1]. by rewrite O0.
Qed.
End MetaBuild.
