(* ===== verification/MetaView.v ===== *)
(** * Reading laid out metadata

    An image that holds a layout is read as the description it was laid out
    from. *)
From S2P Require Import Prelude.
From S2P Require Import CcdlString.
From S2P Require Import StringPool.
From S2P Require Import Metadata.
From S2P Require Import Ast.
From S2P Require Import MetaBuilder.
From S2P Require Import MetaLayout.
From S2P Require Import MetaCalculate.

Module MetaView.
Import Metadata MetaBuilder MetaLayout MetaCalculate.

Abbreviation layout := (list (Z * object)).

(** The constants of a component, and those of its interfaces. *)
Definition all_constants (d : component) : list constant := d_constants d ++ mjoin (i_constants <$> d_interfaces d).

(** The member of the union that a value of a kind is in. *)
Definition holds_member (k : CcmTypeKind) (u : variant) : bool :=
  match k, u with
  | (KByte | KShort | KInteger | KChar), VInteger _ | KLong, VLong _ | KFloat, VFloat _ | KDouble, VDouble _
  | KBoolean, VBoolean _ | (KString | KEnum), VString _ => true
  | (KCoclassID | KComponentID | KInterfaceID | KHANDLE | KECode | KArray | KInterface | KCoclass | KTriple), VZero => true
  | _, _ => false
  end.

(** The type a constant names is what its value needs. *)
Definition typed (types : list MetaType) (c : constant) : Prop :=
  0 <= c_type c /\
  exists t, types !! Z.to_nat (c_type c) = Some t /\
    match c_value c with
    | Text _ => mKind t = KString
    | EnumeratorName _ => mKind t = KEnum
    | Scalar v => holds_member (mKind t) (v_union v) = true /\ mKind t <> KString /\ mKind t <> KEnum
    end.

Definition scalar_or_text (c : constant) : Prop := match c_value c with EnumeratorName _ => False | _ => True end.

Section View.
Variable n : nat.
Variable m : image.
Variables (b : Z) (enum_ptr : Z -> Z) (string : text -> Z).
Abbreviation ptr := (fun x => b + x).

Definition holds (F : layout) : Prop := forall a x, (a, x) ∈ F -> m !! (b + a) = Some x.

Lemma holds_cons a x F : holds ((a, x) :: F) <-> m !! (b + a) = Some x /\ holds F.
Proof.
  unfold holds. split.
  - intros H. split; [apply H; by left|]. intros c y Hin. apply H. by right.
  - intros [H1 H2] c y [[= -> ->]|Hin]%elem_of_cons; [done|by apply H2].
Qed.

Lemma holds_app F G : holds (F ++ G) <-> holds F /\ holds G.
Proof.
  unfold holds. split.
  - intros H. split; intros a x Hin; apply H, elem_of_app; [by left|by right].
  - intros [H1 H2] a x [Hin|Hin]%elem_of_app; [by apply H1|by apply H2].
Qed.

Lemma load_holds {T} `{Stored T} a (x : T) y : m !! a = Some y -> proj y = Some x -> load a m = Some x.
Proof. unfold load. by intros ->. Qed.

(** The strings can be read. *)
Definition readable (s : text) : Prop := read_string n (b + string s) m = Some s.
Definition readable_value (c : constant) : Prop :=
  match c_value c with EnumeratorName s => read_string n (enum_ptr (string s)) m = Some s | _ => True end.

Lemma view_ints_holds a l : holds (lay_ints a l) -> view_ints m (length l) (b + a) = Some l.
Proof.
  revert a. induction l as [|z l IH]; intros a; [done|]. cbn [lay_ints length view_ints]. intros [-> H]%holds_cons.
  by rewrite <- Z.add_assoc, IH.
Qed.

Lemma view_list_holds {D} (view : Z -> option D) lay end_ o a l :
  Forall (fun d => forall o, holds (lay o d) -> view (b + ALIGN8 o) = Some d) l ->
  holds (lay_list ptr lay end_ o a l) -> view_list m view (length l) (b + a) = Some l.
Proof.
  intros H. revert o a. induction H as [|d l Hd _ IH]; intros o a; [done|]. cbn [lay_list length view_list].
  rewrite holds_app, holds_cons. intros (H1 & H2 & H3). erewrite (load_holds (T := Z)); [|exact H2|reflexivity]. cbn [mbind option_bind].
  rewrite (Hd _ H1). cbn [mbind option_bind]. by rewrite <- Z.add_assoc, (IH _ _ H3).
Qed.

(** One step of a view. *)
Ltac view_step :=
  rewrite ?Nat2Z.id;
  first [ match goal with |- context [load (T := ?T) ?a m] => erewrite (load_holds (T := T) a); [|eassumption|reflexivity] end
        | match goal with H : readable ?s |- context [view_text n m (b + string ?s)] =>
            change (view_text n m (b + string s)) with (read_string n (b + string s) m); rewrite H end
        | erewrite view_ints_holds by eassumption
        | erewrite view_list_holds; [|eassumption|eassumption] ];
  cbn [mbind option_bind].

Lemma Forall_strings {D X} (P : X -> Prop) (f : D -> list X) l : Forall P (mjoin (f <$> l)) -> Forall (fun d => Forall P (f d)) l.
Proof. induction l as [|d l IH]; cbn; [constructor|]. intros [H1 H2]%Forall_app. constructor; auto. Qed.

(** ** Where constants are in a layout *)
Section Constants_laid.
Variable P : constant -> Prop.

(** Only the constants of [P] are laid out in [F]. *)
Definition lays_constants (F : layout) : Prop :=
  Forall (fun ax => match ax.2 with
    | OConstant x => exists c, P c /\ mt_mTypeIndex x = c_type c /\ mt_mValue x = lay_value ptr enum_ptr string (c_value c)
    | _ => True
    end) F.

Lemma lays_list {D} (lay : Z -> D -> layout) end_ o a l :
  Forall (fun d => forall o, lays_constants (lay o d)) l -> lays_constants (lay_list ptr lay end_ o a l).
Proof.
  intros H. revert o a. induction H as [|d l Hd _ IH]; intros o a; [constructor|]. cbn [lay_list].
  apply Forall_app_2; [apply Hd|]. constructor; [done|apply IH].
Qed.

Lemma lays_ints a l : lays_constants (lay_ints a l).
Proof. revert a. induction l as [|z l IH]; intros a; constructor; [done|apply IH]. Qed.

Lemma lays_chars a l : lays_constants (lay_chars a l).
Proof. revert a. induction l as [|c l IH]; intros a; constructor; [done|apply IH]. Qed.

Lemma lays_constant_list o a l : Forall P l -> lays_constants (lay_list ptr (lay_constant ptr enum_ptr string) end_constant o a l).
Proof. intros H. apply lays_list. eapply Forall_impl; [exact H|]. intros c Hc o'. constructor; [by exists c|done]. Qed.

(** Lists of nodes of the other kinds. *)
Ltac lays :=
  repeat first
    [ apply Forall_app_2 | apply lays_ints | apply Forall_nil_2 | (apply Forall_cons_2; [done|])
    | (apply lays_list, Forall_true; intros ? ?) ].

Lemma lays_interface o i : Forall P (i_constants i) -> lays_constants (lay_interface ptr enum_ptr string o i).
Proof.
  intros H. unfold lay_interface. cbv zeta. apply Forall_cons_2; [done|]. apply Forall_app_2; [apply lays_ints|].
  apply Forall_app_2; [by apply lays_constant_list|]. unfold lay_method. lays.
Qed.

Lemma lays_nodes d first : Forall P (all_constants d) -> lays_constants (lay_nodes ptr enum_ptr string d first).
Proof.
  unfold all_constants, lay_nodes. intros [Hc Hi%Forall_strings]%Forall_app.
  apply Forall_app_2; [unfold lay_namespace; lays|].
  apply Forall_app_2; [by apply lays_constant_list|].
  apply Forall_app_2; [unfold lay_coclass; lays|].
  apply Forall_app_2; [unfold lay_enumeration; lays|].
  apply lays_list. eapply Forall_impl; [exact Hi|]. intros i H o. by apply lays_interface.
Qed.

Lemma lays_types d first : lays_constants (lay_types ptr d first).
Proof. unfold lay_types. lays. Qed.

End Constants_laid.

(** Splits the strings of a node, and its layout. *)
Ltac open_node :=
  repeat match goal with
  | H : Forall readable (_ :: _) |- _ => apply Forall_cons in H as [? H]
  | H : Forall readable (_ ++ _) |- _ => apply Forall_app in H as [? H]
  | H : Forall readable (mjoin _) |- _ => apply Forall_strings in H
  | H : holds (_ :: _) |- _ => apply holds_cons in H as [? H]
  | H : holds (_ ++ _) |- _ => apply holds_app in H as [? H]
  end.
Ltac view_node := repeat (view_step || cbn).

Lemma view_enumerator_holds o r : Forall readable (strings_enumerator r) -> holds (lay_enumerator ptr string o r) ->
  view_enumerator n m (b + ALIGN8 o) = Some r.
Proof. unfold strings_enumerator, lay_enumerator, view_enumerator. intros Hr H. open_node. view_node. by destruct r. Qed.

Lemma view_parameter_holds o p : Forall readable (strings_parameter p) -> holds (lay_parameter ptr string o p) ->
  view_parameter n m (b + ALIGN8 o) = Some p.
Proof. unfold strings_parameter, lay_parameter, view_parameter. intros Hr H. open_node. view_node. by destruct p. Qed.

Lemma view_type_holds o t : holds (lay_type o t) -> view_type m (b + ALIGN8 o) = Some t.
Proof. unfold lay_type, view_type. intros H. open_node. view_node. done. Qed.

Lemma view_coclass_holds o k : Forall readable (strings_coclass k) -> holds (lay_coclass ptr string o k) ->
  view_coclass n m (b + ALIGN8 o) = Some k.
Proof. unfold strings_coclass, lay_coclass, view_coclass. intros Hr H. open_node. view_node. by destruct k. Qed.

Lemma view_namespace_holds o d : Forall readable (strings_namespace d) -> holds (lay_namespace ptr string o d) ->
  view_namespace n m (b + ALIGN8 o) = Some d.
Proof. unfold strings_namespace, lay_namespace, view_namespace. intros Hr H. open_node. view_node. by destruct d. Qed.

Lemma view_enumeration_holds o e : Forall readable (strings_enumeration e) -> holds (lay_enumeration ptr string o e) ->
  view_enumeration n m (b + ALIGN8 o) = Some e.
Proof.
  unfold strings_enumeration, lay_enumeration, view_enumeration. intros Hr H. open_node.
  assert (Forall (fun d => forall o, holds (lay_enumerator ptr string o d) -> view_enumerator n m (b + ALIGN8 o) = Some d) (e_enumerators e)).
  { eapply Forall_impl; [exact Hr|]. intros r Hs o' Ho. by apply view_enumerator_holds. }
  view_node. by destruct e.
Qed.

Lemma view_method_holds o d : Forall readable (strings_method d) -> holds (lay_method ptr string o d) ->
  view_method n m (b + ALIGN8 o) = Some d.
Proof.
  unfold strings_method, lay_method, view_method. intros Hr H. open_node.
  assert (Forall (fun d => forall o, holds (lay_parameter ptr string o d) -> view_parameter n m (b + ALIGN8 o) = Some d) (m_parameters d)).
  { eapply Forall_impl; [exact Hr|]. intros r Hs o' Ho. by apply view_parameter_holds. }
  view_node. by destruct d.
Qed.

(** Constants are read with the types. *)
Section Constants.
Variable types_at : Z.
Variable types : list MetaType.
Hypothesis Htypes : forall i t, types !! i = Some t ->
  exists p, load (T := Z) (types_at + 8 * Z.of_nat i) m = Some p /\ load p m = Some t.

Lemma view_constant_holds o c : typed types c -> readable_value c -> Forall readable (strings_constant c) ->
  holds (lay_constant ptr enum_ptr string o c) -> view_constant n m types_at (b + ALIGN8 o) = Some c.
Proof.
  intros (H0 & t & Ht & Hk) Hv Hr H. unfold strings_constant, lay_constant, view_constant in *. open_node. view_node.
  destruct (Htypes _ _ Ht) as (p & Hp & Hl). rewrite Z2Nat.id in Hp by done. rewrite Hp. cbn [mbind option_bind].
  unfold view_type. rewrite Hl. cbn [mbind option_bind]. unfold readable_value in Hv. destruct c as [name ty v]. cbn in *.
  destruct v as [v|s|s]; cbn in *.
  - by destruct (mKind t); try tauto.
  - open_node. rewrite Hk. unfold view_text. match goal with H : readable s |- _ => rewrite H end. done.
  - rewrite Hk. unfold view_text. by rewrite Hv.
Qed.

Definition constant_ok (c : constant) : Prop := typed types c /\ readable_value c.

Lemma view_constants_holds o a l : Forall constant_ok l -> Forall (fun c => Forall readable (strings_constant c)) l ->
  holds (lay_list ptr (lay_constant ptr enum_ptr string) end_constant o a l) ->
  view_list m (view_constant n m types_at) (length l) (b + a) = Some l.
Proof.
  intros Hok Hr. eapply view_list_holds, Forall_impl; [apply Forall_and; split; [exact Hok|exact Hr]|].
  intros c [[Ht Hv] Hs] o' Ho. by apply view_constant_holds.
Qed.

Lemma view_interface_holds o i : Forall constant_ok (i_constants i) -> Forall readable (strings_interface i) ->
  holds (lay_interface ptr enum_ptr string o i) -> view_interface n m types_at (b + ALIGN8 o) = Some i.
Proof.
  unfold strings_interface, lay_interface, view_interface. intros Hok Hr H. cbv zeta in H. 
  apply Forall_cons in Hr as [? Hr]. apply Forall_cons in Hr as [? Hr]. apply Forall_app in Hr as [Hc%Forall_strings Hm%Forall_strings].
  open_node.
  assert (Forall (fun d => forall o, holds (lay_method ptr string o d) -> view_method n m (b + ALIGN8 o) = Some d) (i_methods i)).
  { eapply Forall_impl; [exact Hm|]. intros r Hs o' Ho. by apply view_method_holds. }
  repeat (view_step || (erewrite view_constants_holds by eassumption) || cbn). by destruct i.
Qed.

End Constants.

(** The array of types. *)
Lemma types_hold o a l i t : holds (lay_list ptr lay_type end_type o a l) -> l !! i = Some t ->
  exists p, load (T := Z) (b + a + 8 * Z.of_nat i) m = Some p /\ load p m = Some t.
Proof.
  revert o a i. induction l as [|t' l IH]; intros o a i; [done|]. cbn [lay_list]. rewrite holds_app, holds_cons.
  intros (H1 & H2 & H3). destruct i as [|i]; cbn [lookup list_lookup].
  - intros [= ->]. exists (b + ALIGN8 o). rewrite Z.mul_0_r, Z.add_0_r. apply holds_cons in H1 as [H1 _].
    split; eapply load_holds; done.
  - intros Hi. destruct (IH _ _ i H3 Hi) as (p & Hp & Ht). exists p. split; [|done]. rewrite <- Hp. f_equal. lia.
Qed.

Lemma view_holds d size strings_ptr first :
  Forall (typed (d_types d)) (all_constants d) -> Forall readable_value (all_constants d) -> Forall readable (strings d) ->
  m !! b = Some (OComponent (meta_component ptr string d size strings_ptr)) ->
  holds (lay_nodes ptr enum_ptr string d first) -> holds (lay_types ptr d first) -> view n m b = Some d.
Proof.
  intros Ht Hv Hr Hc Hn Hts.
  assert (forall i t, d_types d !! i = Some t ->
    exists p, load (T := Z) (b + at_types d + 8 * Z.of_nat i) m = Some p /\ load p m = Some t) as Htypes
    by (intros i t; eapply types_hold, Hts).
  unfold all_constants in *. apply Forall_app in Ht as [Ht Hti%Forall_strings], Hv as [Hv Hvi%Forall_strings].
  assert (Forall (constant_ok (d_types d)) (d_constants d)) by (apply Forall_and; done).
  assert (Forall (fun i => Forall (constant_ok (d_types d)) (i_constants i)) (d_interfaces d)) as Hci.
  { apply Forall_forall. intros i Hi. rewrite Forall_forall in Hti, Hvi. apply Forall_and; auto. }
  unfold strings, lay_nodes in *.
  apply Forall_cons in Hr as [? Hr]. apply Forall_cons in Hr as [? Hr]. rewrite !Forall_app in Hr.
  destruct Hr as (Hns%Forall_strings & Hcs%Forall_strings & Hks%Forall_strings & Hes%Forall_strings & His%Forall_strings).
  rewrite !holds_app in Hn. destruct Hn as (Ln & Lc & Lk & Le & Li).
  unfold view. erewrite load_holds; [|exact Hc|reflexivity]. cbn -[view_list]. unfold view_text. rewrite !Nat2Z.id.
  repeat match goal with H : readable ?s |- context [read_string n (b + string ?s) m] => rewrite H; cbn [mbind option_bind] end.
  erewrite (view_list_holds (view_namespace n m)); [|eapply Forall_impl; [exact Hns|]; intros; by apply view_namespace_holds|exact Ln].
  cbn [mbind option_bind]. erewrite view_constants_holds by eassumption. cbn [mbind option_bind].
  erewrite (view_list_holds (view_coclass n m)); [|eapply Forall_impl; [exact Hks|]; intros; by apply view_coclass_holds|exact Lk].
  cbn [mbind option_bind].
  erewrite (view_list_holds (view_enumeration n m)); [|eapply Forall_impl; [exact Hes|]; intros; by apply view_enumeration_holds|exact Le].
  cbn [mbind option_bind].
  erewrite (view_list_holds (view_interface n m (b + at_types d))); [|eapply Forall_impl; [apply Forall_and; split; [exact Hci|exact His]|];
    intros i [Hi1 Hi2] ? ?; by eapply view_interface_holds|exact Li].
  cbn [mbind option_bind].
  erewrite (view_list_holds (view_type m)); [|apply Forall_true; intros; by apply view_type_holds|exact Hts].
  cbn. by destruct d.
Qed.

(** ** What cannot be read *)

Lemma bind_nothing {X Y} (q : option X) (k : X -> option Y) : (forall x, k x = None) -> q ≫= k = None.
Proof. intros H. by destruct q; cbn. Qed.

Lemma view_list_fails {D} (view : Z -> option D) (lay : Z -> D -> layout) end_ o a (l : list D) :
  Exists (fun d => forall o, holds (lay o d) -> view (b + ALIGN8 o) = None) l ->
  holds (lay_list ptr lay end_ o a l) -> view_list m view (length l) (b + a) = None.
Proof.
  intros H. revert o a. induction H as [d l Hd|d l _ IH]; intros o a; cbn [lay_list length view_list];
    rewrite holds_app, holds_cons; intros (H1 & H2 & H3); (erewrite (load_holds (T := Z)); [|exact H2|reflexivity]); cbn [mbind option_bind].
  - by rewrite (Hd _ H1).
  - apply bind_nothing. intros x. by rewrite <- Z.add_assoc, (IH _ _ H3).
Qed.

(** The constants whose names of enumerators cannot be read. *)
Definition unreadable (types : list MetaType) (c : constant) : Prop :=
  typed types c /\ exists s, c_value c = EnumeratorName s /\ read_string n (enum_ptr (string s)) m = None.

Section Unreadable.
Variable types_at : Z.
Variable types : list MetaType.
Hypothesis Htypes : forall i t, types !! i = Some t ->
  exists p, load (T := Z) (types_at + 8 * Z.of_nat i) m = Some p /\ load p m = Some t.

Lemma view_constant_fails o c : unreadable types c -> holds (lay_constant ptr enum_ptr string o c) ->
  view_constant n m types_at (b + ALIGN8 o) = None.
Proof.
  intros [(H0 & t & Ht & Hk) (s & Hs & Hr)] H. unfold lay_constant, view_constant in *. open_node.
  erewrite (load_holds (T := MetaConstant)); [|eassumption|reflexivity]. cbn [mbind option_bind mt_mTypeIndex mt_mValue].
  apply bind_nothing. intros name. destruct (Htypes _ _ Ht) as (p & Hp & Hl). rewrite Z2Nat.id in Hp by done. rewrite Hp.
  cbn [mbind option_bind]. unfold view_type. rewrite Hl. cbn [mbind option_bind]. rewrite Hs in *. cbn. rewrite Hk.
  unfold view_text. by rewrite Hr.
Qed.

Lemma view_interface_fails o i : Exists (unreadable types) (i_constants i) -> holds (lay_interface ptr enum_ptr string o i) ->
  view_interface n m types_at (b + ALIGN8 o) = None.
Proof.
  intros Hf H. unfold lay_interface, view_interface in *. cbv zeta in H. open_node.
  erewrite (load_holds (T := MetaInterface)); [|eassumption|reflexivity]. cbn [mbind option_bind].
  do 3 (apply bind_nothing; intros ?). cbn [mi_mConstantNumber mi_mConstants meta_interface]. rewrite Nat2Z.id.
  erewrite view_list_fails; [done| |eassumption]. eapply Exists_impl; [exact Hf|]. intros c Hc o' Ho. by eapply view_constant_fails.
Qed.

End Unreadable.

Lemma view_fails d size strings_ptr first :
  Exists (unreadable (d_types d)) (d_constants d) \/ Exists (fun i => Exists (unreadable (d_types d)) (i_constants i)) (d_interfaces d) ->
  m !! b = Some (OComponent (meta_component ptr string d size strings_ptr)) ->
  holds (lay_nodes ptr enum_ptr string d first) -> holds (lay_types ptr d first) -> view n m b = None.
Proof.
  intros Hf Hc Hn Hts.
  assert (forall i t, d_types d !! i = Some t ->
    exists p, load (T := Z) (b + at_types d + 8 * Z.of_nat i) m = Some p /\ load p m = Some t) as Htypes
    by (intros i t; eapply types_hold, Hts).
  unfold lay_nodes in Hn. rewrite !holds_app in Hn. destruct Hn as (_ & Lc & _ & _ & Li).
  unfold view. erewrite load_holds; [|exact Hc|reflexivity]. cbn -[view_list view_text]. rewrite !Nat2Z.id.
  do 4 (apply bind_nothing; intros ?). destruct Hf as [Hf|Hf].
  - erewrite (view_list_fails (view_constant n m (b + at_types d))); [done| |exact Lc]. eapply Exists_impl; [exact Hf|]. intros c Hx o' Ho. by eapply view_constant_fails.
  - do 3 (apply bind_nothing; intros ?). erewrite (view_list_fails (view_interface n m (b + at_types d))); [done| |exact Li].
    eapply Exists_impl; [exact Hf|]. intros i Hx o' Ho. eapply view_interface_fails; [exact Htypes|exact Hx|exact Ho].
Qed.

End View.
End MetaView.
