(* ===== verification/MetaTyping.v ===== *)
(** * The types of constants in metadata

    A constant names its type by an index, and its value is a member of a union.
    In a module whose constants have listed types the index leads to a type
    whose kind is that of the member. *)
From S2P Require Import Prelude.
From S2P Require Import CcdlString.
From S2P Require Import Expr.
From S2P Require Import Metadata.
From S2P Require Import Ast.
From S2P Require Import MetaBuilder.
From S2P Require Import MetaLayout.
From S2P Require Import MetaView.

Module MetaTyping.
Import Metadata MetaLayout MetaView.

Section Typing.
Context {A : Allocator}.
Variable module : Ast.Module_.

(** A type that [WriteMetaType] does not unwrap. *)
Definition unwrapped (t : Ast.Ty) : bool := match t with Ast.ReferenceType _ | Ast.PointerType _ _ => false | _ => true end.

Definition constant_typed (a : Ast.addr) : bool :=
  match Ast.constant_at module a with
  | Some c =>
    bool_decide (Ast.Constant.mType c ∈ snd <$> Ast.mTypes module) &&
    match Ast.type_at module (Ast.Constant.mType c) with Some t => unwrapped t | None => false end
  | None => false
  end.

(** Every constant of the module and of its interfaces. *)
Definition well_typed : bool :=
  forallb constant_typed (Ast.mConstants module) &&
  forallb (fun a => match Ast.interface_at module a with
                    | Some i => forallb constant_typed (Ast.Interface.mConstants i)
                    | None => false
                    end) (Ast.mInterfaces module).

Lemma index_from_In i l a : a ∈ l -> exists k, Ast.index_from i l a = i + Z.of_nat k /\ l !! k = Some a.
Proof.
  revert i. induction l as [|x l IH]; intros i Hin; [by apply elem_of_nil in Hin|]. cbn [Ast.index_from].
  destruct (Z.eqb_spec x a) as [->|Hne].
  - exists 0%nat. split; [lia|done].
  - apply elem_of_cons in Hin as [->|Hin]; [done|]. destruct (IH (i + 1) Hin) as (k & -> & Hk). exists (S k). split; [lia|done].
Qed.

Lemma describe_value_kind ty v x : unwrapped ty = true -> describe_value ty v = Some x ->
  match x with
  | Text _ => kind ty = KString
  | EnumeratorName _ => kind ty = KEnum
  | Scalar v => holds_member (kind ty) (v_union v) = true /\ kind ty <> KString /\ kind ty <> KEnum
  end.
Proof.
  intros Hu. unfold describe_value. destruct ty as [s| | | | | |]; try discriminate; [destruct s|..]; cbn; intros H;
    simplify_option_eq; done.
Qed.

Lemma meta_type_kind a ty t : Ast.type_at module a = Some ty -> unwrapped ty = true -> describe_type module a = Some t ->
  mKind t = kind ty.
Proof.
  intros Ha Hu. unfold describe_type, describe_pointer, describe_plain. rewrite Ha. cbn [mbind option_bind].
  destruct ty; try discriminate; cbn; by intros [= <-].
Qed.

Lemma describe_constant_typed types a c : mapM (describe_type module) (snd <$> Ast.mTypes module) = Some types ->
  constant_typed a = true -> describe_constant module a = Some c -> typed types c.
Proof.
  intros Hts Ht H. unfold describe_constant, constant_typed in *. simplify_option_eq.
  destruct (index_from_In 0 _ _ H) as (k & Hk & Hl). unfold typed, Ast.IndexOf_type, Ast.IndexOf. cbn [c_type c_value]. rewrite Hk.
  split; [lia|]. apply mapM_Some in Hts. destruct (Forall2_lookup_l _ _ _ _ _ Hts Hl) as (t & Hkt & Hm).
  exists t. split; [by replace (Z.to_nat (0 + Z.of_nat k)) with k by lia|].
  erewrite meta_type_kind by eassumption. by eapply describe_value_kind.
Qed.

Lemma describe_constants_typed types l cs : mapM (describe_type module) (snd <$> Ast.mTypes module) = Some types ->
  forallb constant_typed l = true -> mapM (describe_constant module) l = Some cs -> Forall (typed types) cs.
Proof.
  intros Hts Hl Hcs. apply mapM_Some in Hcs. rewrite forallb_forall in Hl. apply Forall_forall. intros c Hc.
  apply list_elem_of_lookup in Hc as [k Hk]. destruct (Forall2_lookup_r _ _ _ _ _ Hcs Hk) as (a & Ha & Hd).
  eapply describe_constant_typed; [done| |exact Hd]. apply Hl. apply list_elem_of_In. by eapply list_elem_of_lookup_2.
Qed.

Lemma describe_all_typed d : describe module = Some d -> well_typed = true -> Forall (typed (d_types d)) (all_constants d).
Proof.
  unfold describe, well_typed. intros H [Hc Hi]%andb_true_iff. simplify_option_eq. unfold all_constants. cbn [d_types d_constants d_interfaces].
  apply Forall_app. split; [by eapply describe_constants_typed|].
  apply Forall_forall. intros c (cs & Hin & (i & -> & Hii)%list_elem_of_fmap)%list_elem_of_join.
  match goal with H : mapM (describe_interface _) _ = Some _ |- _ => apply mapM_Some in H; rename H into His end.
  apply list_elem_of_lookup in Hii as [k Hk]. destruct (Forall2_lookup_r _ _ _ _ _ His Hk) as (a & Ha & Hd).
  rewrite forallb_forall in Hi. specialize (Hi a ltac:(apply list_elem_of_In; by eapply list_elem_of_lookup_2)).
  unfold describe_interface in Hd. simplify_option_eq.
  match goal with H : mapM (describe_constant _) (Ast.Interface.mConstants _) = Some _ |- _ =>
    eapply describe_constants_typed in H; [|eassumption|exact Hi]; eapply Forall_forall in H; [exact H|exact Hin] end.
Qed.

End Typing.
End MetaTyping.
