(* ===== verification/MetaImage.v ===== *)
(** * The image the builder leaves

    The strings of its pool can be read, and the whole image is read as the
    description of the module. *)
From S2P Require Import Prelude.
From S2P Require Import CcdlString.
From S2P Require Import StringPool.
From S2P Require Import Metadata.
From S2P Require Import Ast.
From S2P Require Import MetaBuilder.
From S2P Require Import MetaLayout.
From S2P Require Import MetaCalculate.
From S2P Require Import MetaWrite.
From S2P Require Import MetaBuild.
From S2P Require Import MetaView.

Module MetaImage.
Import Metadata MetaBuilder MetaLayout MetaCalculate MetaWrite MetaBuild MetaView.

Section Strings.
Variable m : image.
Variable b : Z.
Abbreviation holds := (MetaView.holds m b).

Lemma chars_drop a l k : holds (lay_chars a l) -> holds (lay_chars (a + Z.of_nat k) (drop k l)).
Proof.
  revert a l. induction k as [|k IH]; intros a l H; [by rewrite Z.add_0_r|]. destruct l as [|c l]; [exact H|].
  apply holds_cons in H as [_ H]. cbn [drop]. replace (a + Z.of_nat (S k)) with (a + 1 + Z.of_nat k) by lia. by apply IH.
Qed.

Lemma read_string_holds n a l s : holds (lay_chars a l) -> take (S (length s)) l = s ++ [0] ->
  Forall (fun c => c <> 0) s -> (length s < n)%nat -> read_string n (b + a) m = Some s.
Proof.
  revert n a l. induction s as [|c s IH]; intros n a l H Hl Hs Hn; (destruct n as [|n]; [cbn in Hn; lia|]);
    destruct l as [|c' l]; try discriminate; apply holds_cons in H as [H1 H2]; cbn [read_string]; rewrite H1.
  - cbn in Hl. by injection Hl as ->.
  - cbn in Hl. injection Hl as -> Hl. apply Forall_cons in Hs as [Hc Hs].
    destruct (Z.eqb_spec c 0) as [|_]; [done|]. rewrite <- Z.add_assoc, (IH n _ l); [done|done|exact Hl|done|cbn in Hn; lia].
Qed.

Lemma pool_readable n pool P s : StringPool.inv pool -> is_Some (StringPool.offset_of pool s) ->
  Forall (fun c => c <> 0) s -> (length s < n)%nat -> holds (lay_chars P (chars pool)) ->
  readable n m b (MetaWrite.string P pool) s.
Proof.
  intros I [o Ho] Hs Hn H. destruct (StringPool.inv_placed pool I s o Ho) as (H0 & Hle & Hp). rewrite c_str_no_nul in Hp by done.
  unfold readable, MetaWrite.string. rewrite Ho. cbn [default].
  apply (read_string_holds n _ (drop (Z.to_nat o) (chars pool))); [|..|done|done].
  - rewrite <- (Z2Nat.id o H0) at 1. by apply chars_drop.
  - unfold chars. rewrite <- Hp, !take_drop_commute, take_take. do 2 f_equal. lia.
Qed.

End Strings.

(** Every string ends at its NUL, and is shorter than [n]. *)
Definition clean (n : nat) (d : component) : Prop :=
  Forall (fun s => Forall (fun c => c <> 0) s /\ (length s < n)%nat) (strings d).

(** The string of an enumeration constant is one of the component's. *)
Lemma enumerator_string d c s : c ∈ all_constants d -> c_value c = EnumeratorName s -> s ∈ strings d.
Proof.
  intros Hc Hs. assert (forall l : list constant, c ∈ l -> s ∈ mjoin (strings_constant <$> l)) as Hl.
  { intros l Hl. apply list_elem_of_join. exists (strings_constant c). split; [|by apply list_elem_of_fmap_2].
    unfold strings_constant. rewrite Hs. right. by left. }
  unfold all_constants in Hc. apply elem_of_app in Hc as [Hc|Hc].
  - unfold strings. do 2 right. rewrite !elem_of_app. right. left. by apply Hl.
  - apply list_elem_of_join in Hc as (cs & Hc & (i & -> & Hi)%list_elem_of_fmap).
    unfold strings. do 2 right. rewrite !elem_of_app. do 4 right. apply list_elem_of_join. exists (strings_interface i).
    split; [|by apply list_elem_of_fmap_2]. unfold strings_interface. do 2 right. apply elem_of_app. left. by apply Hl.
Qed.

(** What a built image holds. *)
Lemma built_holds {A : Allocator} b d pool s : built b d pool s ->
  written s !! b = Some (OComponent (meta_component (fun x => b + x) (MetaWrite.string (at_strings d) pool) d (total d pool) (b + at_strings d))) /\
  MetaView.holds (written s) b (behind b pool d).
Proof.
  intros [_ _ _ _ _ _ W]. split.
  - eapply writes_old; [exact W|apply lookup_singleton_eq].
  - intros a x Hin. apply (writes_has _ _ _ W), elem_of_shift. by replace (b + a - b) with a by lia.
Qed.

Lemma built_view {A : Allocator} n b d pool s : built b d pool s -> clean n d ->
  Forall (typed (d_types d)) (all_constants d) -> view n (written s) b = Some d.
Proof.
  intros B Hc Ht. destruct (built_holds b d pool s B) as [H0 H]. unfold behind in H. apply holds_app in H as [Hs H].
  apply holds_app in H as [Hn Hts].
  assert (Forall (readable n (written s) b (MetaWrite.string (at_strings d) pool)) (strings d)) as Hr.
  { pose proof (built_strings _ _ _ _ B) as Hin. apply Forall_forall. intros t Hin'. rewrite Forall_forall in Hin. unfold clean in Hc.
    rewrite Forall_forall in Hc. destruct (Hc t Hin'). by apply pool_readable; [apply B|apply Hin|..]. }
  eapply (view_holds n _ b (fun x => b + x) (MetaWrite.string (at_strings d) pool)); [done| |done|done|exact Hn|exact Hts].
  apply Forall_forall. intros c Hin. unfold readable_value. destruct (c_value c) as [| |t] eqn:Hv; [done..|].
  rewrite Forall_forall in Hr. apply Hr. by eapply enumerator_string.
Qed.

End MetaImage.
