(* ===== verification/MetaAdjust.v ===== *)
(** * Relocating metadata

    Rules for the serializer over memory that is exactly a layout, in the style
    of separation logic: what a function turns into what, next to any other
    objects.  Serializing goes from live pointers to offsets, deserializing the
    other way; what both do to a struct is proved once. *)
From S2P Require Import Prelude.
From S2P Require Import StringPool.
From S2P Require Import Metadata.
From S2P Require Import MetaBuilder.
From S2P Require Import MetaSerializer.
From S2P Require Import MetaLayout.
From S2P Require Import MetaCalculate.
From S2P Require Import MetaWrite.
From S2P Require Import MetaView.

Module MetaAdjust.
Import Metadata MetaSerializer MetaLayout MetaCalculate MetaWrite MetaView.

Abbreviation layout := (list (Z * object)).
Abbreviation M := (SE MetaSerializer.t).

(** What is among [R] is among more. *)
Ltac framed HE := intros ? ?%HE; rewrite ?elem_of_cons, ?elem_of_app; tauto.

Section Memory.
Variables (b n : Z).

(** The image at [b] with the objects [F]. *)
Definition image_of (F : layout) : image := list_to_map (shift b F).

Record state (F : layout) (s : MetaSerializer.t) : Prop := {
  state_base : mBasePtr s = b;
  state_mc : mMetaComponent s = b;
  state_size : mDataSize s = n;
  state_nodup : NoDup F.*1;
  state_memory : memory s = image_of F
}.

Lemma shift_keys F : (shift b F).*1 = (fun a => b + a) <$> F.*1.
Proof. unfold shift. rewrite <- !list_fmap_compose. done. Qed.

Lemma shift_nodup F : NoDup F.*1 -> NoDup (shift b F).*1.
Proof. intros H. rewrite shift_keys. apply NoDup_fmap_2; [|done]. intros x y Hxy. lia. Qed.

Lemma image_lookup F a x : NoDup F.*1 -> image_of F !! (b + a) = Some x <-> (a, x) ∈ F.
Proof.
  intros H. unfold image_of. rewrite <- elem_of_list_to_map by (by apply shift_nodup).
  rewrite elem_of_shift. by replace (b + a - b) with a by lia.
Qed.

Lemma image_perm F G : F ≡ₚ G -> NoDup F.*1 -> image_of F = image_of G.
Proof. intros H HF. apply list_to_map_proper; [by apply shift_nodup|]. by apply fmap_Permutation. Qed.

Lemma state_perm F G s : F ≡ₚ G -> state F s -> state G s.
Proof.
  intros H [H1 H2 H3 H4 H5]. split; try done; [by rewrite <- H|]. rewrite H5. by apply image_perm.
Qed.

#[export] Instance state_proper : Proper (Permutation ==> eq ==> iff) state.
Proof. intros F G H s _ <-. split; by apply state_perm. Qed.

Lemma wp_ask {X} (q : option X) x Q s : q = Some x -> Q x s -> wp (query q) Q s.
Proof. by intros ->. Qed.

Lemma wp_load {T} `{Stored T} F a y (x : T) s Q : state F s -> (a, y) ∈ F -> proj y = Some x -> Q x s -> wp (get (T := T) (b + a)) Q s.
Proof.
  intros [H1 H2 H3 H4 H5] Hin Hy HQ. unfold get. repeat wp_step. eapply wp_ask; [|exact HQ].
  unfold load. rewrite H5. by rewrite (proj2 (image_lookup F a y H4) Hin).
Qed.

Lemma wp_store {T} `{Stored T} R a y (x0 x : T) s Q : state ((a, y) :: R) s -> proj y = Some x0 ->
  (forall s', state ((a, inj x) :: R) s' -> Q tt s') -> wp (set (b + a) x) Q s.
Proof.
  intros [H1 H2 H3 H4 H5] Hy HQ. unfold set. repeat wp_step. eapply wp_ask.
  - unfold update, load. rewrite H5, (proj2 (image_lookup _ a y H4)) by (by left). cbn [mbind option_bind]. rewrite Hy. reflexivity.
  - apply wp_modify, HQ. split; cbn; [done..|]. unfold image_of. cbn. by rewrite insert_insert_eq.
Qed.

(** [f] turns [F] into [G], next to any objects [E] is among. *)
Definition turns (E : layout) (f : M unit) (F G : layout) : Prop :=
  forall R s Q, E ⊆ R -> state (F ++ R) s -> (forall s', state (G ++ R) s' -> Q tt s') -> wp f Q s.

Lemma turns_ret E F : turns E (ret tt) F F.
Proof. intros R s Q _ Hs HQ. apply wp_ret. by apply HQ. Qed.

Lemma turns_seq E f g F1 G1 F2 G2 : turns E f F1 G1 -> turns E g F2 G2 -> turns E (f ;;; g) (F1 ++ F2) (G1 ++ G2).
Proof.
  intros Hf Hg R s Q HE Hs HQ. apply wp_bind. apply (Hf (F2 ++ R)); [framed HE|by rewrite app_assoc|].
  intros s1 H1. apply (Hg (G1 ++ R)); [framed HE| |].
  - eapply state_perm; [|exact H1]. solve_Permutation.
  - intros s2 H2. apply HQ. eapply state_perm; [|exact H2]. solve_Permutation.
Qed.

(** Using a triple inside another one. *)
Lemma wp_turns E f F G R H s Q : turns E f F G -> state H s -> H ≡ₚ F ++ R -> E ⊆ R ->
  (forall s', state (G ++ R) s' -> Q tt s') -> wp f Q s.
Proof. intros Hf Hs Hp HE HQ. eapply Hf; [exact HE|by eapply state_perm|exact HQ]. Qed.

End Memory.

(** A node begins before it ends. *)
Lemma node_begins {D} (end_ : Z -> D -> Z) lay o d x : kind end_ lay -> (ALIGN o, x) ∈ lay o d -> ALIGN o <= end_ o d.
Proof. intros Hk Hin. apply (kind_inside _ _ Hk) in Hin. pose proof (sizeof_pos x). lia. Qed.

Lemma begins_constant o d : ALIGN o <= end_constant o d.
Proof. unfold end_constant. lia. Qed.
Lemma begins_enumerator o d : ALIGN o <= end_enumerator o d.
Proof. unfold end_enumerator. lia. Qed.
Lemma begins_parameter o d : ALIGN o <= end_parameter o d.
Proof. unfold end_parameter. lia. Qed.
Lemma begins_type o d : ALIGN o <= end_type o d.
Proof. unfold end_type. lia. Qed.
Lemma begins_namespace o d : ALIGN o <= end_namespace o d.
Proof. eapply node_begins; [apply (kind_namespace (fun x => x) (fun _ => 0))|by left]. Qed.
Lemma begins_coclass o d : ALIGN o <= end_coclass o d.
Proof. eapply node_begins; [apply (kind_coclass (fun x => x) (fun _ => 0))|by left]. Qed.
Lemma begins_enumeration o d : ALIGN o <= end_enumeration o d.
Proof. eapply node_begins; [apply (kind_enumeration (fun x => x) (fun _ => 0))|by left]. Qed.
Lemma begins_method o d : ALIGN o <= end_method o d.
Proof. eapply node_begins; [apply (kind_method (fun x => x) (fun _ => 0))|by left]. Qed.
Lemma begins_interface o d : ALIGN o <= end_interface o d.
Proof. eapply node_begins; [apply (kind_interface (fun x => x) (fun x => x) (fun _ => 0))|by left]. Qed.

(** The array of enumerators, and of parameters, after the node. *)
Lemma enumeration_arrays o e : ALIGN (ALIGN o + 40) + 8 * count (e_enumerators e) <= end_enumeration o e.
Proof. apply ends_le. intros o' d. pose proof (begins_enumerator o' d). aligns; lia. Qed.
Lemma method_arrays o d : ALIGN (ALIGN o + 40) + 8 * count (m_parameters d) <= end_method o d.
Proof. apply ends_le. intros o' p. pose proof (begins_parameter o' p). aligns; lia. Qed.
Record interface_order (o : Z) (i : interface) : Prop := {
  order_nested : o <= ALIGN (ALIGN o + 96) <= interface_constants o i;
  order_methods : interface_constants o i <= interface_methods o i;
  order_nodes : interface_methods o i + 8 * count (i_methods i) <=
    ends end_constant (interface_methods o i + 8 * count (i_methods i)) (i_constants i);
  order_interface : ends end_constant (interface_methods o i + 8 * count (i_methods i)) (i_constants i) <= end_interface o i
}.

Lemma interface_ordered o i : interface_order o i.
Proof.
  split; [unfold interface_constants; aligns; lia|unfold interface_methods; aligns; lia|..];
    apply ends_le; intros o' d; [pose proof (begins_constant o' d)|pose proof (begins_method o' d)]; aligns; lia.
Qed.

(** ** Structs without arrays of pointers *)
Section Adjust.
Variables (b n size : Z) (ptr1 ptr2 enum_ptr : Z -> Z) (string : text -> Z) (adjust : Z -> M Z).
Hypothesis Hadjust : forall F x s Q, state b n F s -> 0 <= x <= size -> Q (ptr2 x) s -> wp (adjust (ptr1 x)) Q s.
Hypothesis Hstring : forall t, 0 <= string t <= size.

Abbreviation turns := (MetaAdjust.turns b n).

(** Finds an object among the first of a layout. *)
Ltac among := repeat first [apply list_elem_of_here|apply list_elem_of_further].

Ltac adjust_step :=
  lazymatch goal with
  | |- wp (bind _ _) _ _ => apply wp_bind
  | |- wp (ret _) _ _ => apply wp_ret
  | S : state _ _ _ ?s |- wp (get _) _ ?s => eapply (wp_load b n); [exact S|among|reflexivity|cbn]
  | S : state _ _ _ ?s |- wp (adjust _) _ ?s => eapply Hadjust; [exact S|try apply Hstring|]
  | S : state _ _ _ ?s |- wp (set _ _) _ ?s => eapply (wp_store b n); [exact S|reflexivity|clear S; intros ? S]
  end.

Lemma turns_coclass E o k : 0 <= o -> end_coclass o k <= size ->
  turns E (AdjustCoclass adjust (b + ALIGN o)) (lay_coclass ptr1 string o k) (lay_coclass ptr2 string o k).
Proof.
  intros Ho He R s Q HE S HQ. unfold AdjustCoclass, lay_coclass, end_coclass in *. cbn [app] in *. repeat adjust_step; [aligns; lia|].
  by apply HQ.
Qed.

Lemma turns_namespace E o d : 0 <= o -> end_namespace o d <= size ->
  turns E (AdjustNamespace adjust (b + ALIGN o)) (lay_namespace ptr1 string o d) (lay_namespace ptr2 string o d).
Proof.
  intros Ho He R s Q HE S HQ. unfold AdjustNamespace, lay_namespace, end_namespace in *. cbn [app] in *. 
  repeat adjust_step; try (unfold namespace_interfaces, namespace_enumerations, namespace_coclasses in *; aligns; lia).
  by apply HQ.
Qed.

Lemma turns_enumerator E o r : turns E (AdjustEnumerator adjust (b + ALIGN o)) (lay_enumerator ptr1 string o r) (lay_enumerator ptr2 string o r).
Proof. intros R s Q HE S HQ. unfold AdjustEnumerator, lay_enumerator in *. cbn [app] in *. repeat adjust_step. by apply HQ. Qed.

Lemma turns_parameter E o p : turns E (AdjustParameter adjust (b + ALIGN o)) (lay_parameter ptr1 string o p) (lay_parameter ptr2 string o p).
Proof. intros R s Q HE S HQ. unfold AdjustParameter, lay_parameter in *. cbn [app] in *. repeat adjust_step. by apply HQ. Qed.

(** Constants are adjusted next to the component and its types. *)
Definition types_among (types : list MetaType) (E : layout) : Prop :=
  exists c ta, (0, OComponent c) ∈ E /\ mTypes c = b + ta /\
    forall i t, types !! i = Some t -> exists p, (ta + 8 * Z.of_nat i, OPointer (b + p)) ∈ E /\ (p, OType t) ∈ E.

Lemma turns_constant types E o c : types_among types E -> typed types c ->
  turns E (AdjustConstant adjust (b + ALIGN o)) (lay_constant ptr1 enum_ptr string o c) (lay_constant ptr2 enum_ptr string o c).
Proof.
  intros (d & ta & Hd & Hta & Htypes) (H0 & t & Ht & Hk) R s Q HE S HQ. destruct (Htypes _ _ Ht) as (p & Hp & Hpt).
  rewrite Z2Nat.id in Hp by done. unfold AdjustConstant, lay_constant in *. cbn [app] in *. repeat adjust_step.
  apply wp_gets. rewrite (state_mc _ _ _ _ S), <- (Z.add_0_r b) at 1. apply wp_bind.
  eapply (wp_load b n); [exact S|right; apply HE, Hd|reflexivity|]. apply wp_bind. rewrite Hta, <- Z.add_assoc.
  eapply (wp_load b n); [exact S|right; apply HE, Hp|reflexivity|]. apply wp_bind.
  eapply (wp_load b n); [exact S|right; apply HE, Hpt|reflexivity|]. cbn [mt_mTypeIndex mt_mValue].
  destruct c as [name ty [v|str|str]]; cbn [c_value c_name c_type lay_value v_union mAttributes] in *.
  - rewrite bool_decide_eq_false_2 by tauto. apply wp_ret. by apply HQ.
  - rewrite bool_decide_eq_true_2 by done. repeat adjust_step. by apply HQ.
  - rewrite bool_decide_eq_false_2 by (by rewrite Hk). apply wp_ret. by apply HQ.
Qed.

(** The functions for types do nothing. *)
Lemma turns_type E o t : turns E (ret tt) (lay_type o t) (lay_type o t).
Proof. apply turns_ret. Qed.

(** An array of pointers, and the nodes they lead to. *)
Lemma turns_each {D} E cell (end_ : Z -> D -> Z) lay1 lay2 (ok : D -> Prop) o a l :
  (forall a o d, ok d -> 0 <= o -> end_ o d <= size ->
    turns E (cell (b + a)) (lay1 o d ++ [(a, OPointer (ptr1 (ALIGN o)))]) (lay2 o d ++ [(a, OPointer (ptr2 (ALIGN o)))])) ->
  (forall o d, o <= end_ o d) -> Forall ok l -> 0 <= o -> ends end_ o l <= size ->
  turns E (each (length l) (b + a) cell) (lay_list ptr1 lay1 end_ o a l) (lay_list ptr2 lay2 end_ o a l).
Proof.
  intros Hc Hend H. revert o a. induction H as [|d l Hd _ IH]; intros o a Ho Hs; [apply turns_ret|].
  change (ends end_ o (d :: l)) with (ends end_ (end_ o d) l) in Hs. cbn [length each lay_list].
  pose proof (Hend o d). pose proof (ends_le end_ (end_ o d) l Hend).
  rewrite !(cons_middle _ (lay1 o d)), !(cons_middle _ (lay2 o d)), !app_assoc, <- Z.add_assoc. apply turns_seq.
  - by apply Hc; [|lia|lia].
  - apply IH; lia.
Qed.

End Adjust.

(** ** Serializing *)
Section Serialize.
Variables (b n size : Z) (enum_ptr : Z -> Z) (string : text -> Z).
Hypothesis Hsize : size < 2 ^ 64.
Hypothesis Hstring : forall t, 0 <= string t <= size.

Abbreviation ptr1 := (fun x => b + x).
Abbreviation ptr2 := (fun x : Z => x).
Abbreviation turns := (MetaAdjust.turns b n).

Lemma wp_SerializeAdjust F x s Q : state b n F s -> 0 <= x <= size -> Q x s -> wp (SerializeAdjust (b + x)) Q s.
Proof.
  intros S Hx HQ. unfold SerializeAdjust. repeat wp_step. rewrite (state_base _ _ _ _ S).
  replace (b + x - b) with x by lia. assert (u64 x = x) as -> by (apply wrap_u_id; unfold fits_u; lia). done.
Qed.

Lemma turns_serialize_cell E f F G a o :
  turns E (f (b + ALIGN o)) F G -> 0 <= ALIGN o <= size ->
  turns E (serialize_cell f (b + a)) (F ++ [(a, OPointer (b + ALIGN o))]) (G ++ [(a, OPointer (ALIGN o))]).
Proof.
  intros Hf Ho R s Q HE S HQ. unfold serialize_cell. apply wp_bind.
  eapply (wp_load b n _ _ (OPointer (b + ALIGN o))); [exact S|rewrite !elem_of_app, list_elem_of_singleton; tauto|reflexivity|]. apply wp_bind.
  eapply (wp_turns b n _ _ _ _ ((a, OPointer (b + ALIGN o)) :: R)); [exact Hf|exact S|by rewrite <- app_assoc|framed HE|].
  clear S. intros s1 S. apply wp_bind. eapply wp_SerializeAdjust; [exact S|done|].
  apply (state_perm b n _ ((a, OPointer (b + ALIGN o)) :: G ++ R)) in S; [|by rewrite Permutation_middle].
  eapply (wp_store b n); [exact S|reflexivity|]. intros s2 S2. apply HQ. eapply state_perm; [|exact S2]. rewrite <- app_assoc. by apply Permutation_middle.
Qed.

(** Arrays of nodes that [f] serializes. *)
Lemma turns_serialize_each {D} E f (end_ : Z -> D -> Z) lay1 lay2 (ok : D -> Prop) o a l :
  (forall o d, ok d -> 0 <= o -> end_ o d <= size -> turns E (f (b + ALIGN o)) (lay1 o d) (lay2 o d)) ->
  (forall o d, ALIGN o <= end_ o d) -> Forall ok l -> 0 <= o -> ends end_ o l <= size ->
  turns E (each (length l) (b + a) (serialize_cell f)) (lay_list ptr1 lay1 end_ o a l) (lay_list ptr2 lay2 end_ o a l).
Proof.
  intros Hf Hend Hl Ho Hs. eapply (turns_each b n size ptr1 ptr2); [|..|exact Hl|done|exact Hs].
  - intros a' o' d Hd Ho' He. specialize (Hend o' d). apply turns_serialize_cell; [by apply Hf|aligns; lia].
  - intros o' d. specialize (Hend o' d). aligns; lia.
Qed.

Ltac serialize_step :=
  lazymatch goal with
  | |- wp (bind _ _) _ _ => apply wp_bind
  | |- wp (ret _) _ _ => apply wp_ret
  | S : state _ _ _ ?s |- wp (get _) _ ?s => eapply (wp_load b n); [exact S|by left|reflexivity|cbn]
  | S : state _ _ _ ?s |- wp (SerializeAdjust _) _ ?s => eapply wp_SerializeAdjust; [exact S|try apply Hstring|]
  | S : state _ _ _ ?s |- wp (set _ _) _ ?s => eapply (wp_store b n); [exact S|reflexivity|clear S; intros ? S]
  end.

Lemma turns_enumerators E o a l : 0 <= o -> ends end_enumerator o l <= size ->
  turns E (each (length l) (b + a) (serialize_cell SerializeMetaEnumerator))
    (lay_list ptr1 (lay_enumerator ptr1 string) end_enumerator o a l) (lay_list ptr2 (lay_enumerator ptr2 string) end_enumerator o a l).
Proof.
  intros Ho He. apply turns_serialize_each with (ok := fun _ => True); [|apply begins_enumerator|by apply Forall_true|done|done].
  intros o' d _ _ _. apply (turns_enumerator b n size); [intros; by eapply wp_SerializeAdjust|done].
Qed.

(** Runs a loop inside a node whose struct is [x]. *)
Ltac serialize_loop a x loop :=
  lazymatch goal with
  | S : state _ _ (_ :: _ ++ ?R) ?s, HE : _ ⊆ ?R |- wp _ _ ?s =>
    eapply (wp_turns b n _ _ _ _ ((a, x) :: R) _ _ _ loop S); [by rewrite <- Permutation_middle|framed HE|];
    clear S; intros ? S; rewrite <- Permutation_middle in S
  end.

Lemma turns_SerializeMetaEnumeration E o e : 0 <= o -> end_enumeration o e <= size ->
  turns E (SerializeMetaEnumeration (b + ALIGN o)) (lay_enumeration ptr1 string o e) (lay_enumeration ptr2 string o e).
Proof.
  intros Ho He R s Q HE S HQ. pose proof (enumeration_arrays o e). unfold SerializeMetaEnumeration, lay_enumeration in *.
  cbn [app] in *. repeat serialize_step. rewrite Nat2Z.id.
  unshelve epose proof (turns_enumerators E _ (ALIGN (ALIGN o + 40)) (e_enumerators e) _ He) as Hloop; [aligns; lia|].
  serialize_loop (ALIGN o) (OEnumeration (meta_enumeration ptr1 string o e)) Hloop.
  repeat serialize_step. { aligns; lia. } by apply HQ.
Qed.

Lemma turns_parameters E o a l : 0 <= o -> ends end_parameter o l <= size ->
  turns E (each (length l) (b + a) (serialize_cell SerializeMetaParameter))
    (lay_list ptr1 (lay_parameter ptr1 string) end_parameter o a l) (lay_list ptr2 (lay_parameter ptr2 string) end_parameter o a l).
Proof.
  intros Ho He. apply turns_serialize_each with (ok := fun _ => True); [|apply begins_parameter|by apply Forall_true|done|done].
  intros o' d _ _ _. apply (turns_parameter b n size); [intros; by eapply wp_SerializeAdjust|done].
Qed.

Lemma turns_SerializeMetaMethod E o d : 0 <= o -> end_method o d <= size ->
  turns E (SerializeMetaMethod (b + ALIGN o)) (lay_method ptr1 string o d) (lay_method ptr2 string o d).
Proof.
  intros Ho He R s Q HE S HQ. pose proof (method_arrays o d). unfold SerializeMetaMethod, lay_method in *.
  cbn [app] in *. repeat serialize_step. rewrite Nat2Z.id.
  unshelve epose proof (turns_parameters E _ (ALIGN (ALIGN o + 40)) (m_parameters d) _ He) as Hloop; [aligns; lia|].
  serialize_loop (ALIGN o) (OMethod (meta_method ptr1 string o d)) Hloop.
  repeat serialize_step. { aligns; lia. } by apply HQ.
Qed.

Lemma turns_constants types E o a l : types_among b types E -> Forall (typed types) l -> 0 <= o -> ends end_constant o l <= size ->
  turns E (each (length l) (b + a) (serialize_cell SerializeMetaConstant))
    (lay_list ptr1 (lay_constant ptr1 enum_ptr string) end_constant o a l)
    (lay_list ptr2 (lay_constant ptr2 enum_ptr string) end_constant o a l).
Proof.
  intros HT Hl Ho He. eapply turns_serialize_each; [|apply begins_constant|exact Hl|done|done].
  intros o' c Hc _ _. eapply (turns_constant b n size); [intros; by eapply wp_SerializeAdjust|done..].
Qed.

Lemma turns_methods E o a l : 0 <= o -> ends end_method o l <= size ->
  turns E (each (length l) (b + a) (serialize_cell SerializeMetaMethod))
    (lay_list ptr1 (lay_method ptr1 string) end_method o a l) (lay_list ptr2 (lay_method ptr2 string) end_method o a l).
Proof.
  intros Ho He. apply turns_serialize_each with (ok := fun _ => True); [|apply begins_method|by apply Forall_true|done|done].
  intros o' d _ ? ?. by apply turns_SerializeMetaMethod.
Qed.

Lemma turns_SerializeMetaInterface types E o i : types_among b types E -> Forall (typed types) (i_constants i) ->
  0 <= o -> end_interface o i <= size ->
  turns E (SerializeMetaInterface (b + ALIGN o)) (lay_interface ptr1 enum_ptr string o i) (lay_interface ptr2 enum_ptr string o i).
Proof.
  intros HT Hi Ho He R s Q HE S HQ. destruct (interface_ordered o i) as [A1 A2 A3 A4]. unfold SerializeMetaInterface, lay_interface in *.
  cbv zeta in *. cbn [app] in *. set (x := OInterface (meta_interface ptr1 string o i)) in *.
  set (ints := lay_ints _ _) in *.
  unshelve epose proof (turns_constants types E _ (interface_constants o i) _ HT Hi _ (Z.le_trans _ _ _ A4 He)) as Hcs; [lia|].
  unshelve epose proof (turns_methods E _ (interface_methods o i) (i_methods i) _ He) as Hms; [lia|].
  set (C1 := lay_list ptr1 (lay_constant ptr1 enum_ptr string) _ _ _ _) in *. set (M1 := lay_list ptr1 (lay_method ptr1 string) _ _ _ _) in *.
  set (C2 := lay_list ptr2 (lay_constant ptr2 enum_ptr string) _ _ _ _) in *. set (M2 := lay_list ptr2 (lay_method ptr2 string) _ _ _ _) in *.
  repeat serialize_step; [lia|]. rewrite Nat2Z.id.
  eapply (wp_turns b n _ _ _ _ ((ALIGN o, x) :: ints ++ M1 ++ R) _ _ _ Hcs S); [solve_Permutation|framed HE|]. clear S. intros s1 S.
  repeat serialize_step; [lia|]. rewrite Nat2Z.id.
  eapply (wp_turns b n _ _ _ _ ((ALIGN o, x) :: ints ++ C2 ++ R) _ _ _ Hms S); [solve_Permutation|framed HE|]. clear S. intros s2 S.
  apply (state_perm b n _ ((ALIGN o, x) :: (ints ++ C2 ++ M2) ++ R)) in S; [|solve_Permutation].
  repeat serialize_step; [lia|]. by apply HQ.
Qed.

Lemma turns_namespaces E o a l : 0 <= o -> ends end_namespace o l <= size ->
  turns E (each (length l) (b + a) (serialize_cell SerializeMetaNamespace))
    (lay_list ptr1 (lay_namespace ptr1 string) end_namespace o a l) (lay_list ptr2 (lay_namespace ptr2 string) end_namespace o a l).
Proof.
  intros Ho He. apply turns_serialize_each with (ok := fun _ => True); [|apply begins_namespace|by apply Forall_true|done|done].
  intros o' d _ ? ?. apply (turns_namespace b n size); [intros; by eapply wp_SerializeAdjust|done..].
Qed.

Lemma turns_coclasses E o a l : 0 <= o -> ends end_coclass o l <= size ->
  turns E (each (length l) (b + a) (serialize_cell SerializeMetaCoclass))
    (lay_list ptr1 (lay_coclass ptr1 string) end_coclass o a l) (lay_list ptr2 (lay_coclass ptr2 string) end_coclass o a l).
Proof.
  intros Ho He. apply turns_serialize_each with (ok := fun _ => True); [|apply begins_coclass|by apply Forall_true|done|done].
  intros o' d _ ? ?. apply (turns_coclass b n size); [intros; by eapply wp_SerializeAdjust|done..].
Qed.

Lemma turns_enumerations E o a l : 0 <= o -> ends end_enumeration o l <= size ->
  turns E (each (length l) (b + a) (serialize_cell SerializeMetaEnumeration))
    (lay_list ptr1 (lay_enumeration ptr1 string) end_enumeration o a l) (lay_list ptr2 (lay_enumeration ptr2 string) end_enumeration o a l).
Proof.
  intros Ho He. apply turns_serialize_each with (ok := fun _ => True); [|apply begins_enumeration|by apply Forall_true|done|done].
  intros o' d _ ? ?. by apply turns_SerializeMetaEnumeration.
Qed.

Lemma turns_interfaces types E o a l : types_among b types E -> Forall (fun i => Forall (typed types) (i_constants i)) l ->
  0 <= o -> ends end_interface o l <= size ->
  turns E (each (length l) (b + a) (serialize_cell SerializeMetaInterface))
    (lay_list ptr1 (lay_interface ptr1 enum_ptr string) end_interface o a l)
    (lay_list ptr2 (lay_interface ptr2 enum_ptr string) end_interface o a l).
Proof.
  intros HT Hl Ho He. eapply turns_serialize_each; [|apply begins_interface|exact Hl|done|done].
  intros o' i Hi ? ?. by eapply turns_SerializeMetaInterface.
Qed.

Lemma turns_types E o a l : 0 <= o -> ends end_type o l <= size ->
  turns E (each (length l) (b + a) (serialize_cell SerializeMetaType))
    (lay_list ptr1 lay_type end_type o a l) (lay_list ptr2 lay_type end_type o a l).
Proof.
  intros Ho He. apply turns_serialize_each with (ok := fun _ => True); [|apply begins_type|by apply Forall_true|done|done].
  intros o' d _ _ _. apply turns_type.
Qed.

End Serialize.

(** The types of a layout can be found. *)
Lemma types_laid b (o a : Z) l i t : l !! i = Some t ->
  exists p, (a + 8 * Z.of_nat i, OPointer (b + p)) ∈ lay_list (fun x => b + x) lay_type end_type o a l /\
    (p, OType t) ∈ lay_list (fun x => b + x) lay_type end_type o a l.
Proof.
  revert o a i. induction l as [|t' l IH]; intros o a i; [done|]. cbn [lay_list]. destruct i as [|i]; cbn [lookup list_lookup].
  - intros [= ->]. exists (ALIGN o). rewrite Z.mul_0_r, Z.add_0_r. unfold lay_type. cbn [app]. split; [right|]; by left.
  - intros Hi. destruct (IH (end_type o t') (a + 8) i Hi) as (p & H1 & H2). exists p. rewrite !elem_of_app, !elem_of_cons.
    replace (a + 8 * Z.of_nat (S i)) with (a + 8 + 8 * Z.of_nat i) by lia. tauto.
Qed.

End MetaAdjust.
