(* ===== verification/MetaRelocate.v ===== *)
(** * Serializing and deserializing a whole component

    [MetaRestore] has every node, [MetaRelocate] the component. *)

From S2P Require Import Prelude.
From S2P Require Import Metadata.
From S2P Require Import MetaBuilder.
From S2P Require Import MetaSerializer.
From S2P Require Import MetaLayout.
From S2P Require Import MetaCalculate.
From S2P Require Import MetaWrite.
From S2P Require Import MetaView.
From S2P Require Import MetaAdjust.
From S2P Require Import StringPool.
From S2P Require Import MetaBuild.

(** ** Deserializing every node

    [Deserialize*] turns the layout with offsets into the one with pointers,
    each array before the nodes it leads to. *)

Module MetaRestore.
Import Metadata MetaSerializer MetaLayout MetaCalculate MetaWrite MetaView MetaAdjust.

Section Deserialize.
Variables (b n size : Z) (enum_ptr : Z -> Z) (string : text -> Z).
Hypothesis Hb : 0 <= b.
Hypothesis Hsize : b + size < 2 ^ 64.
Hypothesis Hstring : forall t, 0 <= string t <= size.

Abbreviation ptr1 := (fun x : Z => x).
Abbreviation ptr2 := (fun x => b + x).
Abbreviation turns := (MetaAdjust.turns b n).

Lemma wp_DeserializeAdjust F x s Q : state b n F s -> 0 <= x <= size -> Q (b + x) s -> wp (DeserializeAdjust x) Q s.
Proof.
  intros S Hx HQ. unfold DeserializeAdjust. repeat wp_step. rewrite (state_base _ _ _ _ S), Z.add_comm.
  assert (u64 (b + x) = b + x) as -> by (apply wrap_u_id; unfold fits_u; lia). done.
Qed.

Ltac deserialize_step :=
  lazymatch goal with
  | |- wp (bind _ _) _ _ => apply wp_bind
  | S : state _ _ _ ?s |- wp (get _) _ ?s => eapply (wp_load b n); [exact S|by left|reflexivity|cbn]
  | S : state _ _ _ ?s |- wp (DeserializeAdjust _) _ ?s => eapply wp_DeserializeAdjust; [exact S|first [apply Hstring|lia|aligns; lia]|]
  | S : state _ _ _ ?s |- wp (set _ _) _ ?s => eapply (wp_store b n); [exact S|reflexivity|clear S; intros ? S]
  end.

(** Runs the loop [H] next to [R]. *)
Ltac loop_step H R HE :=
  lazymatch goal with
  | S : state _ _ _ ?s |- wp _ _ ?s =>
    rewrite ?Nat2Z.id; eapply (wp_turns b n _ _ _ _ R _ _ _ H S); [solve_Permutation|framed HE|clear S; intros ? S]
  end.

Lemma turns_deserialize_cell E f F G a o :
  turns E (f (b + ALIGN o)) F G -> 0 <= ALIGN o <= size ->
  turns E (deserialize_cell f (b + a)) (F ++ [(a, OPointer (ALIGN o))]) (G ++ [(a, OPointer (b + ALIGN o))]).
Proof.
  intros Hf Ho R s Q HE S HQ. unfold deserialize_cell.
  apply (state_perm b n _ ((a, OPointer (ALIGN o)) :: F ++ R)) in S; [|rewrite <- app_assoc; by rewrite Permutation_middle].
  repeat deserialize_step.
  eapply (wp_turns b n _ _ _ _ ((a, OPointer (b + ALIGN o)) :: R)); [exact Hf|exact S|by rewrite <- Permutation_middle|framed HE|].
  clear S. intros s1 S. apply HQ. eapply state_perm; [|exact S]. by rewrite <- app_assoc.
Qed.

(** Arrays of nodes that [f] deserializes. *)
Lemma turns_deserialize_each {D} E f (end_ : Z -> D -> Z) lay1 lay2 (ok : D -> Prop) o a l :
  (forall o d, ok d -> 0 <= o -> end_ o d <= size -> turns E (f (b + ALIGN o)) (lay1 o d) (lay2 o d)) ->
  (forall o d, ALIGN o <= end_ o d) -> Forall ok l -> 0 <= o -> ends end_ o l <= size ->
  turns E (each (length l) (b + a) (deserialize_cell f)) (lay_list ptr1 lay1 end_ o a l) (lay_list ptr2 lay2 end_ o a l).
Proof.
  intros Hf Hend Hl Ho Hs. eapply (turns_each b n size ptr1 ptr2); [|..|exact Hl|done|exact Hs].
  - intros a' o' d Hd Ho' He. specialize (Hend o' d). apply turns_deserialize_cell; [by apply Hf|aligns; lia].
  - intros o' d. specialize (Hend o' d). aligns; lia.
Qed.

(** A list of nodes without a condition. *)
Ltac plain_list begins := apply turns_deserialize_each with (ok := fun _ => True); [|apply begins|by apply Forall_true|done|done]; intros ? ? _ ? ?.

Lemma restores_enumerators E o a l : 0 <= o -> ends end_enumerator o l <= size ->
  turns E (each (length l) (b + a) (deserialize_cell DeserializeMetaEnumerator))
    (lay_list ptr1 (lay_enumerator ptr1 string) end_enumerator o a l) (lay_list ptr2 (lay_enumerator ptr2 string) end_enumerator o a l).
Proof. intros Ho He. plain_list begins_enumerator. apply (turns_enumerator b n size); [intros; by eapply wp_DeserializeAdjust|done]. Qed.

Lemma restores_enumeration E o e : 0 <= o -> end_enumeration o e <= size ->
  turns E (DeserializeMetaEnumeration (b + ALIGN o)) (lay_enumeration ptr1 string o e) (lay_enumeration ptr2 string o e).
Proof.
  intros Ho He R s Q HE S HQ. pose proof (enumeration_arrays o e). unfold DeserializeMetaEnumeration, lay_enumeration in *.
  cbn [app] in *. unshelve epose proof (restores_enumerators E _ (ALIGN (ALIGN o + 40)) (e_enumerators e) _ He) as Hloop; [aligns; lia|].
  repeat deserialize_step. loop_step Hloop ((ALIGN o, OEnumeration (meta_enumeration ptr2 string o e)) :: R) HE.
  apply HQ. by rewrite <- Permutation_middle in S.
Qed.

Lemma restores_parameters E o a l : 0 <= o -> ends end_parameter o l <= size ->
  turns E (each (length l) (b + a) (deserialize_cell DeserializeMetaParameter))
    (lay_list ptr1 (lay_parameter ptr1 string) end_parameter o a l) (lay_list ptr2 (lay_parameter ptr2 string) end_parameter o a l).
Proof. intros Ho He. plain_list begins_parameter. apply (turns_parameter b n size); [intros; by eapply wp_DeserializeAdjust|done]. Qed.

Lemma restores_method E o d : 0 <= o -> end_method o d <= size ->
  turns E (DeserializeMetaMethod (b + ALIGN o)) (lay_method ptr1 string o d) (lay_method ptr2 string o d).
Proof.
  intros Ho He R s Q HE S HQ. pose proof (method_arrays o d). unfold DeserializeMetaMethod, lay_method in *.
  cbn [app] in *. unshelve epose proof (restores_parameters E _ (ALIGN (ALIGN o + 40)) (m_parameters d) _ He) as Hloop; [aligns; lia|].
  repeat deserialize_step. loop_step Hloop ((ALIGN o, OMethod (meta_method ptr2 string o d)) :: R) HE.
  apply HQ. by rewrite <- Permutation_middle in S.
Qed.

Lemma restores_methods E o a l : 0 <= o -> ends end_method o l <= size ->
  turns E (each (length l) (b + a) (deserialize_cell DeserializeMetaMethod))
    (lay_list ptr1 (lay_method ptr1 string) end_method o a l) (lay_list ptr2 (lay_method ptr2 string) end_method o a l).
Proof. intros Ho He. plain_list begins_method. by apply restores_method. Qed.

Lemma restores_constants types E o a l : types_among b types E -> Forall (typed types) l -> 0 <= o -> ends end_constant o l <= size ->
  turns E (each (length l) (b + a) (deserialize_cell DeserializeMetaConstant))
    (lay_list ptr1 (lay_constant ptr1 enum_ptr string) end_constant o a l)
    (lay_list ptr2 (lay_constant ptr2 enum_ptr string) end_constant o a l).
Proof.
  intros HT Hl Ho He. eapply turns_deserialize_each; [|apply begins_constant|exact Hl|done|done].
  intros o' c Hc _ _. eapply (turns_constant b n size); [intros; by eapply wp_DeserializeAdjust|done..].
Qed.

Lemma restores_interface types E o i : types_among b types E -> Forall (typed types) (i_constants i) ->
  0 <= o -> end_interface o i <= size ->
  turns E (DeserializeMetaInterface (b + ALIGN o)) (lay_interface ptr1 enum_ptr string o i) (lay_interface ptr2 enum_ptr string o i).
Proof.
  intros HT Hi Ho He R s Q HE S HQ. destruct (interface_ordered o i) as [A1 A2 A3 A4]. unfold DeserializeMetaInterface, lay_interface in *.
  cbv zeta in *. cbn [app] in *. set (ints := lay_ints _ _) in *.
  unshelve epose proof (restores_constants types E _ (interface_constants o i) _ HT Hi _ (Z.le_trans _ _ _ A4 He)) as Hcs; [lia|].
  unshelve epose proof (restores_methods E _ (interface_methods o i) (i_methods i) _ He) as Hms; [lia|].
  set (C1 := lay_list ptr1 (lay_constant ptr1 enum_ptr string) _ _ _ _) in *. set (M1 := lay_list ptr1 (lay_method ptr1 string) _ _ _ _) in *.
  set (C2 := lay_list ptr2 (lay_constant ptr2 enum_ptr string) _ _ _ _) in *. set (M2 := lay_list ptr2 (lay_method ptr2 string) _ _ _ _) in *.
  repeat deserialize_step. lazymatch type of S with state _ _ ((?a, ?x) :: _) _ => loop_step Hcs ((a, x) :: ints ++ M1 ++ R) HE;
    apply (state_perm b n _ ((a, x) :: ints ++ C2 ++ M1 ++ R)) in S; [|solve_Permutation] end.
  repeat deserialize_step. loop_step Hms ((ALIGN o, OInterface (meta_interface ptr2 string o i)) :: ints ++ C2 ++ R) HE.
  apply HQ. eapply state_perm; [|exact S]. solve_Permutation.
Qed.

Lemma restores_interfaces types E o a l : types_among b types E -> Forall (fun i => Forall (typed types) (i_constants i)) l ->
  0 <= o -> ends end_interface o l <= size ->
  turns E (each (length l) (b + a) (deserialize_cell DeserializeMetaInterface))
    (lay_list ptr1 (lay_interface ptr1 enum_ptr string) end_interface o a l)
    (lay_list ptr2 (lay_interface ptr2 enum_ptr string) end_interface o a l).
Proof.
  intros HT Hl Ho He. eapply turns_deserialize_each; [|apply begins_interface|exact Hl|done|done].
  intros o' i Hi ? ?. by eapply restores_interface.
Qed.

Lemma restores_namespaces E o a l : 0 <= o -> ends end_namespace o l <= size ->
  turns E (each (length l) (b + a) (deserialize_cell DeserializeMetaNamespace))
    (lay_list ptr1 (lay_namespace ptr1 string) end_namespace o a l) (lay_list ptr2 (lay_namespace ptr2 string) end_namespace o a l).
Proof. intros Ho He. plain_list begins_namespace. apply (turns_namespace b n size); [intros; by eapply wp_DeserializeAdjust|done..]. Qed.

Lemma restores_coclasses E o a l : 0 <= o -> ends end_coclass o l <= size ->
  turns E (each (length l) (b + a) (deserialize_cell DeserializeMetaCoclass))
    (lay_list ptr1 (lay_coclass ptr1 string) end_coclass o a l) (lay_list ptr2 (lay_coclass ptr2 string) end_coclass o a l).
Proof. intros Ho He. plain_list begins_coclass. apply (turns_coclass b n size); [intros; by eapply wp_DeserializeAdjust|done..]. Qed.

Lemma restores_enumerations E o a l : 0 <= o -> ends end_enumeration o l <= size ->
  turns E (each (length l) (b + a) (deserialize_cell DeserializeMetaEnumeration))
    (lay_list ptr1 (lay_enumeration ptr1 string) end_enumeration o a l) (lay_list ptr2 (lay_enumeration ptr2 string) end_enumeration o a l).
Proof. intros Ho He. plain_list begins_enumeration. by apply restores_enumeration. Qed.

Lemma restores_types E o a l : 0 <= o -> ends end_type o l <= size ->
  turns E (each (length l) (b + a) (deserialize_cell DeserializeMetaType))
    (lay_list ptr1 lay_type end_type o a l) (lay_list ptr2 lay_type end_type o a l).
Proof. intros Ho He. plain_list begins_type. apply turns_type. Qed.

End Deserialize.
End MetaRestore.

(** ** Serializing and deserializing a whole component *)

Module MetaRelocate.
Import Metadata MetaSerializer MetaLayout MetaCalculate MetaWrite MetaBuild MetaView MetaAdjust MetaRestore.

Section Component.
Variables (n size : Z) (enum_ptr : Z -> Z) (string : text -> Z).
Hypothesis Hsize : size < 2 ^ 64.
Hypothesis Hstring : forall t, 0 <= string t <= size.
Variable d : component.
Variable first : Z.
Hypothesis Htyped : Forall (typed (d_types d)) (all_constants d).
Hypothesis Hfirst : at_strings d <= first.
Hypothesis Hend : end_nodes d first <= size.

(** The component with the pointers of [ptr], its string pool at [strings],
    and all behind it; [C] are the characters. *)
Definition whole (ptr : Z -> Z) (sz strings : Z) (C : layout) : layout :=
  (0, OComponent (meta_component ptr string d sz strings)) ::
  C ++ lay_nodes ptr enum_ptr string d first ++ lay_types ptr d first.

Lemma typed_constants : Forall (typed (d_types d)) (d_constants d).
Proof. unfold all_constants in Htyped. by apply Forall_app in Htyped as [H _]. Qed.

Lemma typed_interfaces : Forall (fun i => Forall (typed (d_types d)) (i_constants i)) (d_interfaces d).
Proof. unfold all_constants in Htyped. apply Forall_app in Htyped as [_ H]. by apply Forall_strings in H. Qed.

(** Runs the loop [H] next to [R]. *)
Ltac loop_step H R :=
  lazymatch goal with
  | S : state ?b _ _ ?s |- wp _ _ ?s =>
    rewrite ?Nat2Z.id; eapply (wp_turns b n _ _ _ _ R _ _ _ H S); [solve_Permutation|intros ? Hin; first [by apply elem_of_nil in Hin|rewrite !elem_of_cons in *; rewrite !elem_of_app; tauto]|clear S; intros ? S]
  end.

(** Names what a loop turns into what. *)
Ltac name_lists H F G :=
  lazymatch type of H with MetaAdjust.turns _ _ _ _ ?f ?g => set (F := f) in *; set (G := g) in * end.

Section Serialize.
Variable b : Z.
Abbreviation ptr1 := (fun x => b + x).
Abbreviation ptr2 := (fun x : Z => x).

(** What the constants are serialized next to. *)
Definition beside_constants (c : MetaComponent) : layout := (0, OComponent c) :: lay_types ptr1 d first.

Lemma types_beside c : mTypes c = b + at_types d -> types_among b (d_types d) (beside_constants c).
Proof.
  intros Hc. exists c, (at_types d). split; [by left|]. split; [done|]. intros i t Hi.
  destruct (types_laid b (from_types d first) (at_types d) _ i t Hi) as (p & H1 & H2). exists p. split; by right.
Qed.

Ltac serialize_step :=
  lazymatch goal with
  | |- wp (bind _ _) _ _ => apply wp_bind
  | S : state _ _ _ ?s |- wp (get _) _ ?s => eapply (wp_load b n); [exact S|by left|reflexivity|cbn]
  | S : state _ _ _ ?s |- wp (SerializeAdjust _) _ ?s =>
    eapply (wp_SerializeAdjust b n size Hsize); [exact S|first [apply Hstring|lia]|]
  | S : state _ _ _ ?s |- wp (set _ _) _ ?s => eapply (wp_store b n); [exact S|reflexivity|clear S; intros ? S]
  end.

Lemma wp_Serialize C sz s : state b n (whole ptr1 sz (b + at_strings d) C) s ->
  wp Serialize (fun _ => state b n (whole ptr2 sz (at_strings d) C)) s.
Proof.
  intros S. destruct (arrays_ordered d) as [O1 O2 O3 O4 O5 O6 O7]. destruct (nodes_ordered d first) as [N1 N2 N3 N4 N5 N6].
  set (c := meta_component ptr1 string d sz (b + at_strings d)).
  pose proof (types_beside c eq_refl) as HT. unfold beside_constants, lay_types in HT. pose proof typed_constants as Hc. pose proof typed_interfaces as Hi.
  unshelve epose proof (turns_namespaces b n size enum_ptr string Hsize Hstring [] first at_namespaces (d_namespaces d) _ _) as Ln; [lia|unfold from_constants in *; lia|].
  unshelve epose proof (turns_constants b n size enum_ptr string Hsize Hstring _ _ (from_constants d first) (at_constants d) _ HT Hc _ _) as Lc;
    [lia|unfold from_coclasses in *; lia|].
  unshelve epose proof (turns_coclasses b n size enum_ptr string Hsize Hstring [] (from_coclasses d first) (at_coclasses d) (d_coclasses d) _ _) as Lk; [lia|unfold from_enumerations in *; lia|].
  unshelve epose proof (turns_enumerations b n size enum_ptr string Hsize Hstring [] (from_enumerations d first) (at_enumerations d) (d_enumerations d) _ _) as Le; [lia|unfold from_interfaces in *; lia|].
  unshelve epose proof (turns_interfaces b n size enum_ptr string Hsize Hstring _ _ (from_interfaces d first) (at_interfaces d) _ HT Hi _ _) as Li; [lia|unfold from_types in *; lia|].
  unshelve epose proof (turns_types b n size enum_ptr Hsize [] (from_types d first) (at_types d) (d_types d) _ _) as Lt; [lia|unfold end_nodes in *; lia|].
  unfold whole, lay_nodes, lay_types in *. fold c in S.
  unfold Serialize. apply wp_bind, wp_gets. replace (mMetaComponent s) with (b + 0) by (rewrite (state_mc _ _ _ _ S); lia).
  name_lists Ln NS1 NS2. name_lists Lc K1 K2. name_lists Lk CK1 CK2. name_lists Le E1 E2. name_lists Li I1 I2. name_lists Lt T1 T2.
  repeat serialize_step. loop_step Ln ((0, OComponent c) :: C ++ K1 ++ CK1 ++ E1 ++ I1 ++ T1).
  repeat serialize_step. loop_step Lc ((0, OComponent c) :: C ++ NS2 ++ CK1 ++ E1 ++ I1 ++ T1).
  repeat serialize_step. loop_step Lk ((0, OComponent c) :: C ++ NS2 ++ K2 ++ E1 ++ I1 ++ T1).
  repeat serialize_step. loop_step Le ((0, OComponent c) :: C ++ NS2 ++ K2 ++ CK2 ++ I1 ++ T1).
  repeat serialize_step. loop_step Li ((0, OComponent c) :: C ++ NS2 ++ K2 ++ CK2 ++ E2 ++ T1).
  repeat serialize_step. loop_step Lt ((0, OComponent c) :: C ++ NS2 ++ K2 ++ CK2 ++ E2 ++ I2).
  apply (state_perm b n _ ((0, OComponent c) :: C ++ (NS2 ++ K2 ++ CK2 ++ E2 ++ I2) ++ T2)) in S; [|solve_Permutation].
  repeat serialize_step. exact S.
Qed.

End Serialize.

(** ** Deserializing *)
Section Deserialize.
Variable b : Z.
Hypothesis Hb : 0 <= b.
Hypothesis Hbs : b + size < 2 ^ 64.
Abbreviation ptr1 := (fun x : Z => x).
Abbreviation ptr2 := (fun x => b + x).

Ltac deserialize_step :=
  lazymatch goal with
  | |- wp (bind _ _) _ _ => apply wp_bind
  | S : state _ _ _ ?s |- wp (get _) _ ?s => eapply (wp_load b n); [exact S|by left|reflexivity|cbn]
  | S : state _ _ _ ?s |- wp (DeserializeAdjust _) _ ?s =>
    eapply (wp_DeserializeAdjust b n size Hb Hbs); [exact S|first [apply Hstring|lia]|]
  | S : state _ _ _ ?s |- wp (set _ _) _ ?s => eapply (wp_store b n); [exact S|reflexivity|clear S; intros ? S]
  end.

Lemma wp_Deserialize C sz strings_ptr s : mDataSize s = n -> NoDup (whole ptr1 sz strings_ptr C).*1 ->
  memory s = image_of b (whole ptr1 sz strings_ptr C) ->
  wp (Deserialize b) (fun _ => state b n (whole ptr2 sz strings_ptr C)) s.
Proof.
  intros Hn Hnd Hm. destruct (arrays_ordered d) as [O1 O2 O3 O4 O5 O6 O7]. destruct (nodes_ordered d first) as [N1 N2 N3 N4 N5 N6].
  set (c0 := meta_component ptr1 string d sz strings_ptr).
  set (c := set_pointers c0 (b + string (d_name d)) (b + string (d_url d)) (mNamespaces c0) (mc_mConstants c0) (mCoclasses c0)
     (mEnumerations c0) (mInterfaces c0) (b + at_types d) strings_ptr).
  pose proof (types_beside b c eq_refl) as HT. unfold beside_constants, lay_types in HT. pose proof typed_constants as Hc. pose proof typed_interfaces as Hi.
  unshelve epose proof (restores_namespaces b n size enum_ptr string Hb Hbs Hstring [] first at_namespaces (d_namespaces d) _ _) as Ln; [lia|unfold from_constants in *; lia|].
  unshelve epose proof (restores_constants b n size enum_ptr string Hb Hbs Hstring _ _ (from_constants d first) (at_constants d) _ HT Hc _ _) as Lc;
    [lia|unfold from_coclasses in *; lia|].
  unshelve epose proof (restores_coclasses b n size enum_ptr string Hb Hbs Hstring [] (from_coclasses d first) (at_coclasses d) (d_coclasses d) _ _) as Lk; [lia|unfold from_enumerations in *; lia|].
  unshelve epose proof (restores_enumerations b n size enum_ptr string Hb Hbs Hstring [] (from_enumerations d first) (at_enumerations d) (d_enumerations d) _ _) as Le; [lia|unfold from_interfaces in *; lia|].
  unshelve epose proof (restores_interfaces b n size enum_ptr string Hb Hbs Hstring _ _ (from_interfaces d first) (at_interfaces d) _ HT Hi _ _) as Li; [lia|unfold from_types in *; lia|].
  unshelve epose proof (restores_types b n size enum_ptr Hb Hbs [] (from_types d first) (at_types d) (d_types d) _ _) as Lt; [lia|unfold end_nodes in *; lia|].
  unfold whole, lay_nodes, lay_types in *. fold c0 in Hm, Hnd.
  name_lists Ln NS1 NS2. name_lists Lc K1 K2. name_lists Lk CK1 CK2. name_lists Le E1 E2. name_lists Li I1 I2. name_lists Lt T1 T2.
  rewrite <- (Z.add_0_r b) at 1. unfold Deserialize. apply wp_bind, wp_modify.
  match goal with |- wp _ _ ?s => assert (state b n ((0, OComponent c0) :: C ++ (NS1 ++ K1 ++ CK1 ++ E1 ++ I1) ++ T1) s) as S
    by (split; cbn; [lia|lia|done|exact Hnd|exact Hm]) end.
  repeat deserialize_step. change (inj _) with (OComponent c) in S.
  loop_step Lt ((0, OComponent c) :: C ++ NS1 ++ K1 ++ CK1 ++ E1 ++ I1).
  repeat deserialize_step. loop_step Ln ((0, OComponent c) :: C ++ K1 ++ CK1 ++ E1 ++ I1 ++ T2).
  repeat deserialize_step. loop_step Lc ((0, OComponent c) :: C ++ NS2 ++ CK1 ++ E1 ++ I1 ++ T2).
  repeat deserialize_step. loop_step Lk ((0, OComponent c) :: C ++ NS2 ++ K2 ++ E1 ++ I1 ++ T2).
  repeat deserialize_step. loop_step Le ((0, OComponent c) :: C ++ NS2 ++ K2 ++ CK2 ++ I1 ++ T2).
  repeat deserialize_step. loop_step Li ((0, OComponent c) :: C ++ NS2 ++ K2 ++ CK2 ++ E2 ++ T2).
  apply (state_perm b n _ ((0, OComponent c) :: C ++ (NS2 ++ K2 ++ CK2 ++ E2 ++ I2) ++ T2)) in S; [|solve_Permutation].
  repeat deserialize_step. exact S.
Qed.

End Deserialize.
End Component.
End MetaRelocate.
