(* ===== verification/MetaRoundTrip.v ===== *)
(** * Metadata from the compiler to the runtime

    What [Build] leaves is serialized, copied to another address and
    deserialized there: what can be read of it then. *)
From S2P Require Import Prelude.
From S2P Require Import CcdlString.
From S2P Require Import StringPool.
From S2P Require Import Metadata.
From S2P Require Import Ast.
From S2P Require Import MetaBuilder.
From S2P Require Import MetaSerializer.
From S2P Require Import MetaLayout.
From S2P Require Import MetaCalculate.
From S2P Require Import MetaWrite.
From S2P Require Import MetaBuild.
From S2P Require Import MetaView.
From S2P Require Import MetaImage.
From S2P Require Import MetaAdjust.
From S2P Require Import MetaRelocate.

Module MetaRoundTrip.
Import Metadata MetaLayout MetaCalculate MetaWrite MetaBuild MetaView MetaImage MetaAdjust MetaRelocate.

(** What was written is a whole image. *)
Lemma writes_image b x F m : writes {[b := x]} (shift b F) m -> m = image_of b ((0, x) :: F) /\ NoDup ((0, x) :: F).*1.
Proof.
  intros [Wf Wn Wh Wr].
  assert (b ∉ (shift b F).*1) as Hb by (intros Hin%Wf; by rewrite lookup_singleton_eq in Hin).
  assert (NoDup ((0, x) :: F).*1) as Hnd.
  { cbn. constructor.
    - intros Hin. apply Hb. rewrite shift_keys. apply list_elem_of_fmap. exists 0. split; [lia|done].
    - rewrite shift_keys in Wn. by apply NoDup_fmap_1 in Wn. }
  split; [|done]. apply map_eq. intros a. apply option_eq. intros y.
  replace a with (b + (a - b)) by lia. rewrite image_lookup by done. rewrite elem_of_cons.
  destruct (decide (b + (a - b) ∈ (shift b F).*1)) as [Hin|Hin].
  - apply list_elem_of_fmap in Hin as ([c z] & Ha & Hin). cbn in Ha. rewrite Ha, (Wh _ _ Hin). split.
    + intros [= <-]. right. apply elem_of_shift in Hin. by replace (a - b) with (c - b) by lia.
    + intros [[= H0 ->]|H].
      * exfalso. apply Hb. assert (c = b) as -> by lia. by eapply elem_of_keys.
      * assert ((c, y) ∈ shift b F) as H1 by (apply elem_of_shift; by replace (c - b) with (a - b) by lia).
        by rewrite <- (Wh _ _ Hin), (Wh _ _ H1).
  - rewrite (Wr _ Hin). rewrite lookup_singleton_Some. split.
    + intros [H0 ->]. left. f_equal. lia.
    + intros [[= H0 ->]|H]; [split; [lia|done]|]. exfalso. apply Hin. eapply elem_of_keys, elem_of_shift.
      by replace (b + (a - b) - b) with (a - b) by lia.
Qed.

(** Copying an image copies its layout. *)
Lemma move_image d b F : move d (image_of b F) = image_of (b + d) F.
Proof.
  unfold move, image_of. assert (Inj (=) (=) (fun a : Z => a + d)) by (intros x y; lia).
  induction F as [|[a x] F IH]; [apply kmap_empty|]. change (shift b ((a, x) :: F)) with ((b + a, x) :: shift b F).
  change (shift (b + d) ((a, x) :: F)) with ((b + d + a, x) :: shift (b + d) F). rewrite !list_to_map_cons, kmap_insert, IH by done.
  f_equal. lia.
Qed.

Lemma image_head b x F : NoDup ((0, x) :: F).*1 -> image_of b ((0, x) :: F) !! b = Some x.
Proof. intros H. pose proof (proj2 (image_lookup b _ 0 x H) ltac:(by left)) as Hx. by rewrite Z.add_0_r in Hx. Qed.

Section RoundTrip.
Context {A : Allocator}.
Variables (b : Z) (d : component) (pool : StringPool.t) (s : MetaBuilder.t).
Hypothesis B : built b d pool s.
Hypothesis Htyped : Forall (typed (d_types d)) (all_constants d).

Abbreviation string := (MetaWrite.string (at_strings d) pool).
Abbreviation first := (at_strings d + StringPool.mDataOffset pool).
Abbreviation image ptr strings_ptr :=
  (whole (fun x => b + x) string d first ptr (total d pool) strings_ptr (lay_chars (at_strings d) (chars pool))).

Lemma string_below t : 0 <= string t < total d pool.
Proof.
  pose proof (StringPool.inv_size pool (built_inv _ _ _ _ B)) as Hs. pose proof (end_nodes_lower d first) as He.
  pose proof (at_strings_lower d). destruct (StringPool.inv_placed pool (built_inv _ _ _ _ B) _ _ (built_empty _ _ _ _ B)) as (_ & Hpos & _).
  cbn in Hpos. unfold MetaWrite.string, total in *. destruct (StringPool.offset_of pool t) as [o|] eqn:Ho; cbn [default]; [|lia].
  destruct (StringPool.inv_placed pool (built_inv _ _ _ _ B) t o Ho) as (? & ? & _). unfold id. lia.
Qed.

Lemma string_bounds t : 0 <= string t <= total d pool.
Proof. pose proof (string_below t). lia. Qed.

Lemma built_image : MetaBuilder.written s = image_of b (image (fun x => b + x) (b + at_strings d)) /\
  NoDup (image (fun x => b + x) (b + at_strings d)).*1.
Proof. exact (writes_image _ _ _ _ (built_writes _ _ _ _ B)). Qed.

(** After [serialize] the image has offsets for pointers. *)
Lemma serialize_image : exists m, MetaSerializer.serialize b (MetaBuilder.written s) = Some (total d pool, m) /\
  m = image_of b (image (fun x => x) (at_strings d)) /\ NoDup (image (fun x => x) (at_strings d)).*1.
Proof.
  destruct built_image as [-> Hnd]. pose proof (built_total _ _ _ _ B) as Ht.
  pose proof (image_head b _ _ Hnd : image_of b (image (fun x => b + x) (b + at_strings d)) !! b = _) as Hc.
  unfold MetaSerializer.serialize, load. rewrite Hc.
  cbn [mbind option_bind proj Stored_component].
  pose proof (wp_Serialize (total d pool) (total d pool) (fun x => b + x) string ltac:(lia) string_bounds d first Htyped
    ltac:(pose proof (StringPool.inv_size pool (built_inv _ _ _ _ B)); lia) ltac:(reflexivity) b (lay_chars (at_strings d) (chars pool))
    (total d pool)) as H.
  match goal with |- context [MetaSerializer.Serialize ?s0] => specialize (H s0 ltac:(by split)) end.
  apply wp_run in H as ([] & s' & -> & [_ _ Hn Hnd' Hm]). cbn [mbind option_bind]. exists (MetaSerializer.memory s').
  split; [by rewrite Hn|done].
Qed.

(** After [deserialize] it has pointers again, and the offset of the pool. *)
Lemma deserialize_image b' m : 0 <= b' -> b' + total d pool < 2 ^ 64 ->
  m = image_of b' (image (fun x => x) (at_strings d)) -> NoDup (image (fun x => x) (at_strings d)).*1 ->
  exists m', MetaSerializer.deserialize b' m = Some m' /\
    m' = image_of b' (image (fun x => b' + x) (at_strings d)) /\ NoDup (image (fun x => b' + x) (at_strings d)).*1.
Proof.
  intros Hb Hbs -> Hnd. unfold MetaSerializer.deserialize.
  pose proof (wp_Deserialize 0 (total d pool) (fun x => b + x) string string_bounds d first Htyped
    ltac:(pose proof (StringPool.inv_size pool (built_inv _ _ _ _ B)); lia) ltac:(reflexivity) b' Hb Hbs (lay_chars (at_strings d) (chars pool))
    (total d pool) (at_strings d)) as H.
  match goal with |- context [MetaSerializer.Deserialize b' ?s0] => specialize (H s0 eq_refl Hnd eq_refl) end.
  apply wp_run in H as ([] & s' & -> & [_ _ _ Hnd' Hm]). by exists (MetaSerializer.memory s').
Qed.

(** The whole way. *)
Lemma relocated b' : 0 <= b' -> b' + total d pool < 2 ^ 64 ->
  exists m m', MetaSerializer.serialize b (MetaBuilder.written s) = Some (total d pool, m) /\
    MetaSerializer.deserialize b' (move (b' - b) m) = Some m' /\
    m' = image_of b' (image (fun x => b' + x) (at_strings d)) /\ NoDup (image (fun x => b' + x) (at_strings d)).*1.
Proof.
  intros Hb Hbs. destruct serialize_image as (m & Hm & -> & Hnd).
  rewrite <- (Zplus_minus b b') in Hb, Hbs. 
  destruct (deserialize_image (b + (b' - b)) _ Hb Hbs eq_refl Hnd) as (m' & Hm' & H). eexists _, m'. split; [exact Hm|].
  rewrite move_image. rewrite !Zplus_minus in *. done.
Qed.

Lemma image_inside ptr strings_ptr a x : (a, x) ∈ image ptr strings_ptr -> 0 <= a /\ a + sizeof x <= total d pool.
Proof.
  pose proof (StringPool.inv_size pool (built_inv _ _ _ _ B)) as Hs. pose proof (at_strings_lower d). pose proof (end_nodes_lower d first).
  unfold whole. rewrite elem_of_cons, elem_of_app. intros [[= -> ->]|[Hin|Hin]].
  - cbn. unfold total. lia.
  - apply inside_chars in Hin. rewrite (chars_length _ (built_inv _ _ _ _ B)) in Hin. unfold total. lia.
  - apply nodes_inside in Hin; [|lia]. unfold total. lia.
Qed.

(** What an image holds. *)
Lemma image_holds b' ptr strings_ptr : NoDup (image ptr strings_ptr).*1 ->
  let m := image_of b' (image ptr strings_ptr) in
  m !! b' = Some (OComponent (meta_component ptr string d (total d pool) strings_ptr)) /\
  holds m b' (lay_chars (at_strings d) (chars pool)) /\ holds m b' (lay_nodes ptr (fun x => b + x) string d first) /\
  holds m b' (lay_types ptr d first).
Proof.
  intros Hnd m. assert (holds m b' (image ptr strings_ptr)) as H by (intros a x Hin; by apply image_lookup).
  unfold whole in H. apply holds_cons in H as [H0 H]. rewrite Z.add_0_r in H0. apply holds_app in H as [Hc H].
  apply holds_app in H as [Hn Ht]. done.
Qed.

(** Every constant of an image names a type of the image, and its value is in
    the member for the kind of that type. *)
Lemma image_constants strings_ptr a x b' : let F := image (fun x => b' + x) strings_ptr in
  NoDup F.*1 -> (a, OConstant x) ∈ F -> let m := image_of b' F in
  0 <= mt_mTypeIndex x < count (d_types d) /\
  exists p t, load (T := Z) (b' + at_types d + 8 * mt_mTypeIndex x) m = Some p /\ load p m = Some t /\
    holds_member (mKind t) (v_union (mt_mValue x)) = true.
Proof.
  intros F Hnd Hin m. destruct (image_holds b' _ strings_ptr Hnd) as (_ & _ & _ & Ht).
  assert (lays_constants b' (fun x => b + x) string (typed (d_types d)) F) as H.
  { unfold F, whole. apply Forall_cons_2; [done|]. apply Forall_app_2; [apply lays_chars|].
    apply Forall_app_2; [by apply lays_nodes|apply lays_types]. }
  unfold lays_constants in H. rewrite Forall_forall in H. destruct (H _ Hin) as (c & (H0 & t & Hk & Hv) & Hi & Hx).
  pose proof (lookup_lt_Some _ _ _ Hk). rewrite Hi. split; [lia|].
  destruct (types_hold m b' _ _ _ _ _ Ht Hk) as (p & Hp & Hl). rewrite Z2Nat.id in Hp by done.
  exists p, t. split_and!; [exact Hp|exact Hl|]. rewrite Hx. destruct (c_value c) as [v|z|z]; [apply Hv|cbn [lay_value v_union]; by rewrite Hv..].
Qed.

(** Without enumeration constants all can be read. *)
Lemma relocated_view n b' : clean n d -> Forall scalar_or_text (all_constants d) ->
  NoDup (image (fun x => b' + x) (at_strings d)).*1 -> view n (image_of b' (image (fun x => b' + x) (at_strings d))) b' = Some d.
Proof.
  intros Hc Hs Hnd. destruct (image_holds b' _ _ Hnd) as (H0 & H1 & H2 & H3).
  eapply (view_holds n _ b' (fun x => b + x) string); [done| | |exact H0|exact H2|exact H3].
  - eapply Forall_impl; [exact Hs|]. intros c. unfold scalar_or_text, readable_value. by destruct (c_value c).
  - pose proof (built_strings _ _ _ _ B) as Hin. apply Forall_forall. intros t Hin'. rewrite Forall_forall in Hin. unfold clean in Hc.
    rewrite Forall_forall in Hc. destruct (Hc t Hin'). by apply pool_readable; [apply B|apply Hin|..].
Qed.

Lemma no_string n m p : m !! p = None -> read_string n p m = None.
Proof. destruct n; cbn; [done|]. by intros ->. Qed.

Definition is_enumerator (c : constant) : Prop := exists t, c_value c = EnumeratorName t.

(** With one they cannot, when the old image is gone. *)
Lemma relocated_lost n b' : Exists is_enumerator (all_constants d) -> b' + total d pool <= b \/ b + total d pool <= b' ->
  NoDup (image (fun x => b' + x) (at_strings d)).*1 -> view n (image_of b' (image (fun x => b' + x) (at_strings d))) b' = None.
Proof.
  intros Hf Hb Hnd. destruct (image_holds b' _ _ Hnd) as (H0 & H1 & H2 & H3). set (m := image_of b' _) in *.
  assert (forall c, c ∈ all_constants d -> is_enumerator c -> unreadable n m (fun x => b + x) string (d_types d) c) as Hu.
  { intros c Hin [t Ht]. split; [by eapply Forall_forall in Htyped|]. exists t. split; [done|]. apply no_string.
    destruct (m !! (b + string t)) as [x|] eqn:Hx; [|done]. exfalso. replace (b + string t) with (b' + (b + string t - b')) in Hx by lia.
    apply image_lookup, image_inside in Hx; [|done]. pose proof (sizeof_pos x). pose proof (string_below t). lia. }
  eapply view_fails; [|exact H0|exact H2|exact H3]. unfold all_constants in *. rewrite Exists_app in Hf. destruct Hf as [Hf|Hf].
  - left. rewrite Exists_exists in *. destruct Hf as (c & Hin & Hc). exists c. split; [done|]. apply Hu; [|done]. apply elem_of_app. by left.
  - right. apply Exists_exists in Hf as (c & (cs & Hin & (i & -> & Hi)%list_elem_of_fmap)%list_elem_of_join & Hc).
    apply Exists_exists. exists i. split; [done|]. apply Exists_exists. exists c. split; [done|]. apply Hu; [|done]. apply elem_of_app. right.
    apply list_elem_of_join. exists (i_constants i). split; [done|]. by apply list_elem_of_fmap_2.
Qed.

End RoundTrip.
End MetaRoundTrip.
