(* ===== verification/MetadataTheorems.v ===== *)
(** * The metadata pipeline

    What the compiler's metadata builder and the runtime's metadata serializer
    promise together. *)
From S2P Require Import Prelude.
From S2P Require Import CcdlString.
From S2P Require Import Expr.
From S2P Require Import Metadata.
From S2P Require Import Ast.
From S2P Require Import MetaBuilder.
From S2P Require Import MetaSerializer.
From S2P Require Import MetaLayout.
From S2P Require Import MetaCalculate.
From S2P Require Import MetaWrite.
From S2P Require Import MetaBuild.
From S2P Require Import MetaView.
From S2P Require Import MetaTyping.
From S2P Require Import MetaImage.
From S2P Require Import MetaRoundTrip.

Module MetadataTheorems.
Import Metadata MetaLayout MetaView MetaTyping MetaBuild MetaImage MetaRoundTrip.

(** ** A module

    [component demo { namespace ns { ... } }] with an interface that has two
    constants and a method, an enumeration and a coclass; [constants] are those
    of the namespace. *)
Section Demo.
Definition name (s : String.string) : String := Some (str s).
Definition header_of (s : String.string) : Ast.header :=
  {| Ast.mName := name s; Ast.mNamespace := 2; Ast.mIsPredecl := false; Ast.mExternal := false |}.
Definition uuid : Uuid := {| mData1 := 1; mData2 := 2; mData3 := 3; mData4 := 4; mData5 := replicate 12 0 |}.
Definition literal (n : Z) (s e : String) : Expr.Expression :=
  Expr.Postfix Expr.new_header
    {| Expr.PostfixExpression.mBooleanValue := false; Expr.PostfixExpression.mIntegralValue := n;
       Expr.PostfixExpression.mFloatingPointValue := Expr.fp_zero; Expr.PostfixExpression.mStringValue := s;
       Expr.PostfixExpression.mEnumeratorName := e |} None.

Definition IFoo : Ast.Interface.t :=
  {| Ast.Interface.base := header_of "IFoo"; Ast.Interface.mUuid := uuid;
     Ast.Interface.mBaseInterface := None; Ast.Interface.mOuterInterface := None; Ast.Interface.mInterfaces := [];
     Ast.Interface.mConstants := [201; 202];
     Ast.Interface.mMethods :=
       [{| Ast.Method.mName := name "Bar"; Ast.Method.mSignature := name "(I)E"; Ast.Method.mReturnType := 0;
           Ast.Method.mParameters :=
             [{| Ast.Param.mName := name "a"; Ast.Param.mType := 101;
                 Ast.Param.mDefaultValue := Some (literal 3 None None); Ast.Param.mAttribute := 1 |}];
           Ast.Method.mDeleted := false; Ast.Method.mReference := false |}] |}.

Definition E : Ast.Enumeration.t :=
  {| Ast.Enumeration.base := header_of "E";
     Ast.Enumeration.mEnumerators := [{| Ast.Enumerator.mName := name "A"; Ast.Enumerator.mValue := 0 |}] |}.

Definition CFoo : Ast.Coclass.t :=
  {| Ast.Coclass.base := header_of "CFoo"; Ast.Coclass.mUuid := uuid; Ast.Coclass.mConstructorDefault := true;
     Ast.Coclass.mConstructorDeleted := false; Ast.Coclass.mInterfaces := [103] |}.

Definition constant_of (s : String.string) (type : Ast.addr) (v : Expr.Expression) : Ast.Constant.t :=
  {| Ast.Constant.mName := name s; Ast.Constant.mType := type; Ast.Constant.mValue := Some v |}.

Definition namespace_of (s : String.string) (outer : option Ast.addr) (coclasses constants enumerations interfaces : list Ast.addr) :=
  {| Ast.Namespace.mName := name s; Ast.Namespace.mOuterNamespace := outer; Ast.Namespace.mInterfaceWrapped := None;
     Ast.Namespace.mCoclasses := coclasses; Ast.Namespace.mConstants := constants;
     Ast.Namespace.mEnumerations := enumerations; Ast.Namespace.mInterfaces := interfaces |}.

Definition demo (constants : list Ast.addr) : Ast.Module_ :=
  {| Ast.m_mName := name "demo"; Ast.m_mUuid := uuid; Ast.mUrl := None;
     Ast.types := list_to_map [(101, Ast.Simple Ast.IntegerType); (102, Ast.Simple Ast.StringType); (103, Ast.InterfaceTy IFoo);
       (104, Ast.EnumerationTy E); (105, Ast.CoclassTy CFoo)];
     Ast.constants := list_to_map [(201, constant_of "N" 101 (literal 5 None None));
       (202, constant_of "T" 102 (literal 0 (name "text") None)); (203, constant_of "D" 104 (literal 0 None (name "A")))];
     Ast.namespaces := list_to_map [(1, namespace_of "__global__" None [] [] [] []);
       (2, namespace_of "ns" (Some 1) [105] constants [104] [103])];
     Ast.mCoclasses := [105]; Ast.mConstants := constants; Ast.mEnumerations := [104]; Ast.mInterfaces := [103];
     Ast.mNamespaces := [1; 2];
     Ast.mTypes := [(str "ccm::Integer", 101); (str "ccm::String", 102); (str "ns::IFoo", 103); (str "ns::E", 104); (str "ns::CFoo", 105)] |}.

(** Its description. *)
Definition described (constants : list Ast.addr) : component :=
  match describe (A := generous) (demo constants) with
  | Some d => d
  | None =>
    {| d_uuid := uuid; d_name := []; d_url := []; d_namespaces := []; d_constants := []; d_coclasses := [];
       d_enumerations := []; d_interfaces := []; d_types := [] |}
  end.
End Demo.

(** [buildable], by computation. *)
Ltac buildable_demo := split; [vm_compute; reflexivity|vm_compute; reflexivity|vm_compute; discriminate|vm_compute; discriminate|vm_compute; reflexivity].

(** ** Theorems *)

(** C5: the two passes of [Build] agree.  For a valid module whose metadata is
    within the range of [int], [Build] answers the block it was given, the block
    has the size [CalculateMetadataSize] returns, everything written lies in it,
    and the writing pass ends exactly at its end. *)
Theorem Build_fills_block {A : Allocator} module d b : never_fails A -> buildable module d -> b mod 8 = 0 ->
  exists s0 n s1 s, MetaBuilder.new = Some s0 /\ MetaBuilder.CalculateMetadataSize module s0 = Some (n, s1) /\
    MetaBuilder.Build module b s0 = Some (Some b, s) /\ MetaBuilder.block s = (b, b + n) /\ MetaBuilder.mBasePtr s = b + n /\
    forall a x, MetaBuilder.written s !! a = Some x -> b <= a /\ a + sizeof x <= b + n.
Proof.
  intros Hok Hm Hb. destruct (Build_spec module d b Hok Hm Hb) as (s0 & s1 & pool & s & H0 & H1 & H2 & B).
  exists s0, (total d pool), s1, s. split_and!; [done..|apply B|apply B|]. intros a x Ha.
  destruct (built_image b d pool s B) as [Hi Hnd]. rewrite Hi in Ha. replace a with (b + (a - b)) in Ha by lia.
  apply MetaAdjust.MetaAdjust.image_lookup, (image_inside b d pool s B) in Ha; [|done]. lia.
Qed.

Lemma Build_fills_block_witness : exists s0 n s1 s, MetaBuilder.new (A := generous) = Some s0 /\
  MetaBuilder.CalculateMetadataSize (A := generous) (demo [203]) s0 = Some (n, s1) /\
  MetaBuilder.Build (A := generous) (demo [203]) 65536 s0 = Some (Some 65536, s) /\ MetaBuilder.mBasePtr s = 65536 + n.
Proof.
  destruct (Build_fills_block (A := generous) (demo [203]) (described [203]) 65536 generous_never_fails ltac:(buildable_demo) eq_refl)
    as (s0 & n & s1 & s & H0 & H1 & H2 & _ & H4 & _).
  exists s0, n, s1, s. done.
Defined.

(** C39: the constants in the image [Build] writes are typed.  In a module whose
    constants have listed types, whatever [MetaConstant] is in the image, of the
    module or of an interface, its type index is below the number of types, the
    array of types leads from it to a [MetaType] in the image, and the member of
    the union its value was stored in is the one for that type's kind: [mInteger]
    for Byte, Short, Integer and Char, [mLong] for Long, [mFloat], [mDouble],
    [mBoolean], [mString] for String and enumerations, and none for the others. *)
Theorem constants_have_their_types {A : Allocator} module d b : never_fails A -> buildable module d -> b mod 8 = 0 ->
  well_typed module = true ->
  exists s0 s mc, MetaBuilder.new = Some s0 /\ MetaBuilder.Build module b s0 = Some (Some b, s) /\
    load b (MetaBuilder.written s) = Some mc /\
    forall a c, load (T := MetaConstant) a (MetaBuilder.written s) = Some c ->
      0 <= mt_mTypeIndex c < mTypeNumber mc /\
      exists p t, load (T := Z) (mTypes mc + 8 * mt_mTypeIndex c) (MetaBuilder.written s) = Some p /\
        load p (MetaBuilder.written s) = Some t /\ holds_member (mKind t) (v_union (mt_mValue c)) = true.
Proof.
  intros Hok Hm Hb Hw. destruct (Build_spec module d b Hok Hm Hb) as (s0 & s1 & pool & s & H0 & _ & H2 & B).
  pose proof (describe_all_typed module d (buildable_describe _ _ Hm) Hw) as Ht.
  destruct (built_image b d pool s B) as [Hi Hnd]. destruct (built_holds b d pool s B) as [Hc _].
  eexists s0, s, _. split_and!; [done|done|eapply load_holds; [exact Hc|done]|]. intros a c Ha.
  unfold load in Ha. destruct (MetaBuilder.written s !! a) as [x|] eqn:Hx; [|done]. destruct x; try done. injection Ha as ->.
  rewrite Hi in Hx |- *. replace a with (b + (a - b)) in Hx by lia.
  apply MetaAdjust.MetaAdjust.image_lookup in Hx; [|done].
  exact (image_constants b d pool Ht _ (a - b) c b Hnd Hx).
Qed.

Lemma constants_have_their_types_witness : exists s0 s mc, MetaBuilder.new (A := generous) = Some s0 /\
  MetaBuilder.Build (A := generous) (demo [203]) 65536 s0 = Some (Some 65536, s) /\
  load 65536 (MetaBuilder.written s) = Some mc /\
  forall a c, load (T := MetaConstant) a (MetaBuilder.written s) = Some c -> 0 <= mt_mTypeIndex c < mTypeNumber mc.
Proof.
  destruct (constants_have_their_types (A := generous) (demo [203]) (described [203]) 65536 generous_never_fails
    ltac:(buildable_demo) eq_refl ltac:(vm_compute; reflexivity)) as (s0 & s & mc & H0 & H1 & H2 & H3).
  exists s0, s, mc. split_and!; [done..|]. intros a c Ha. apply (H3 a c Ha).
Defined.

(** C4: metadata survives its way from the compiler to the runtime.  What
    [Build] writes is read back as the module's description; [serialize] makes
    it independent of its address, and after the bytes are copied to [b'],
    [deserialize] leaves an image that is read back as the same description,
    when no constant has an enumeration type. *)
Theorem metadata_round_trip {A : Allocator} module d b n : never_fails A -> buildable module d -> b mod 8 = 0 ->
  well_typed module = true -> clean n d -> Forall scalar_or_text (all_constants d) ->
  exists s0 s size m, MetaBuilder.new = Some s0 /\ MetaBuilder.Build module b s0 = Some (Some b, s) /\
    view n (MetaBuilder.written s) b = Some d /\ MetaSerializer.serialize b (MetaBuilder.written s) = Some (size, m) /\
    0 <= size < 2 ^ 31 /\ forall b', 0 <= b' -> b' + size < 2 ^ 64 ->
      exists m', MetaSerializer.deserialize b' (move (b' - b) m) = Some m' /\ view n m' b' = Some d.
Proof.
  intros Hok Hm Hb Hw Hc Hs. destruct (Build_spec module d b Hok Hm Hb) as (s0 & s1 & pool & s & H0 & _ & H2 & B).
  pose proof (describe_all_typed module d (buildable_describe _ _ Hm) Hw) as Ht.
  destruct (serialize_image b d pool s B Ht) as (m & Hm' & Hi & _).
  exists s0, s, (total d pool), m. split_and!; [done|done|by eapply built_view|done|apply B|apply B|]. intros b' Hb0 Hb'.
  destruct (relocated b d pool s B Ht b' Hb0 Hb') as (m1 & m' & H3 & H4 & -> & Hnd). rewrite Hm' in H3. injection H3 as <-.
  eexists. split; [exact H4|]. by apply (relocated_view b d pool s B Ht).
Qed.

Lemma metadata_round_trip_witness : exists s0 s size m m', MetaBuilder.new (A := generous) = Some s0 /\
  MetaBuilder.Build (A := generous) (demo []) 65536 s0 = Some (Some 65536, s) /\
  view 100 (MetaBuilder.written s) 65536 = Some (described []) /\
  MetaSerializer.serialize 65536 (MetaBuilder.written s) = Some (size, m) /\
  MetaSerializer.deserialize 4294967296 (move 4294901760 m) = Some m' /\ view 100 m' 4294967296 = Some (described []).
Proof.
  destruct (metadata_round_trip (A := generous) (demo []) (described []) 65536 100 generous_never_fails ltac:(buildable_demo) eq_refl
    ltac:(vm_compute; reflexivity) ltac:(refine (bool_decide_unpack _ _); vm_compute; exact Logic.I)
    ltac:(vm_compute; repeat constructor)) as (s0 & s & size & m & H0 & H1 & H2 & H3 & Hs & H4).
  destruct (H4 4294967296 ltac:(lia) ltac:(lia)) as (m' & H5 & H6). by exists s0, s, size, m, m'.
Defined.

(** C40: the serializer does not relocate the names of enumerators: it adjusts
    a constant's value only when its type is [String].  Once a module has a
    constant of an enumeration type, the metadata deserialized away from the old
    block can no longer be read; the constant's value still points there. *)
Theorem enumeration_constants_lost {A : Allocator} module d b n : never_fails A -> buildable module d -> b mod 8 = 0 ->
  well_typed module = true -> Exists is_enumerator (all_constants d) ->
  exists s0 s size m, MetaBuilder.new = Some s0 /\ MetaBuilder.Build module b s0 = Some (Some b, s) /\
    MetaSerializer.serialize b (MetaBuilder.written s) = Some (size, m) /\
    0 <= size < 2 ^ 31 /\ forall b', 0 <= b' -> b' + size < 2 ^ 64 -> b' + size <= b \/ b + size <= b' ->
      exists m', MetaSerializer.deserialize b' (move (b' - b) m) = Some m' /\ view n m' b' = None.
Proof.
  intros Hok Hm Hb Hw Hf. destruct (Build_spec module d b Hok Hm Hb) as (s0 & s1 & pool & s & H0 & _ & H2 & B).
  pose proof (describe_all_typed module d (buildable_describe _ _ Hm) Hw) as Ht.
  destruct (serialize_image b d pool s B Ht) as (m & Hm' & Hi & _).
  exists s0, s, (total d pool), m. split_and!; [done|done|done|apply B|apply B|]. intros b' Hb0 Hb' Hdis.
  destruct (relocated b d pool s B Ht b' Hb0 Hb') as (m1 & m' & H3 & H4 & -> & Hnd). rewrite Hm' in H3. injection H3 as <-.
  eexists. split; [exact H4|]. by apply (relocated_lost b d pool s B Ht).
Qed.

Lemma enumeration_constants_lost_witness : exists s0 s size m m', MetaBuilder.new (A := generous) = Some s0 /\
  MetaBuilder.Build (A := generous) (demo [203]) 65536 s0 = Some (Some 65536, s) /\
  MetaSerializer.serialize 65536 (MetaBuilder.written s) = Some (size, m) /\
  MetaSerializer.deserialize 4294967296 (move 4294901760 m) = Some m' /\ view 100 m' 4294967296 = None.
Proof.
  destruct (enumeration_constants_lost (A := generous) (demo [203]) (described [203]) 65536 100 generous_never_fails
    ltac:(buildable_demo) eq_refl ltac:(vm_compute; reflexivity)
    ltac:(vm_compute; left; eexists; reflexivity)) as (s0 & s & size & m & H0 & H1 & H3 & Hs & H4).
  destruct (H4 4294967296 ltac:(lia) ltac:(lia) ltac:(lia)) as (m' & H5 & H6). by exists s0, s, size, m, m'.
Defined.

End MetadataTheorems.
