(* ===== verification/RtArray.v ===== *)
(** * The runtime's arrays

    [Array<T>] of [src/src/runtime/type/ccmarray.h] for the primitive types: a
    pointer to a shared block and a length.  Arrays copied from one another
    share the block, so the blocks live in a store of their own; they are
    reference counted by the shared buffers of [SharedBuffer], and here a block
    lives as long as some array names it.  Every access is checked against the
    block: outside it the code is undefined. *)
From S2P Require Import Prelude.

Module RtArray.

Record Array := { mData : option positive; mSize : Z }.

#[export] Instance Array_eq_dec : EqDecision Array.
Proof. solve_decision. Defined.

(** [for (i = from; n rounds; i++)] and [i--]. *)
Fixpoint for_up {S} (n : nat) (i : Z) (body : Z -> SE S unit) : SE S unit :=
  match n with O => ret tt | Datatypes.S n => body i ;;; for_up n (i + 1) body end.

Fixpoint for_down {S} (n : nat) (i : Z) (body : Z -> SE S unit) : SE S unit :=
  match n with O => ret tt | Datatypes.S n => body i ;;; for_down n (i - 1) body end.

Section Operations.
Context {A : Allocator} {T : Type}.
Variables (zero : T) (sizeof : Z).

Abbreviation store := (gmap positive (list T)).

Definition header_size : Z := 24.   (* sizeof(SharedBuffer) *)
Definition SIZE_MAX : Z := 2 ^ 64 - 1.
Definition MIN (a b : Z) : Z := if a <? b then a else b.

Definition Null : Array := {| mData := None; mSize := 0 |}.
Definition IsNull (a : Array) : bool := match mData a with None => true | _ => false end.
Definition IsEmpty (a : Array) : bool := mSize a =? 0.
Definition GetLength (a : Array) : Z := mSize a.

(** [mData[index]], read and written. *)
Definition load (p : option positive) (index : Z) : SE store T := fun s =>
  match p ≫= (s !!.) with
  | Some l =>
    if index <? 0 then None
    else match l !! Z.to_nat index with Some x => Some (x, s) | None => None end
  | None => None
  end.

Definition assign (p : option positive) (index : Z) (x : T) : SE store unit := fun s =>
  match p, p ≫= (s !!.) with
  | Some p, Some l =>
    if (0 <=? index) && (index <? Z.of_nat (length l))
    then Some (tt, <[p := <[Z.to_nat index := x]> l]> s) else None
  | _, _ => None
  end.

Definition get (a : Array) (index : Z) : SE store T := load (mData a) index.
Definition Set_ (a : Array) (index : Z) (value : T) : SE store unit := assign (mData a) index value.

(** [Array(size)]: a block of zeros, or the null array. *)
Definition Alloc (size : Z) : SE store Array :=
  if size <? 0 then ret Null
  else
    let byteSize := u64 (sizeof * size) in
    if (byteSize >=? SIZE_MAX - header_size) || negb (alloc_ok (header_size + byteSize)) then ret Null
    else
      p <- gets (fun s => fresh (dom s : gset positive)) ;;
      modify (fun s => <[p := replicate (Z.to_nat (byteSize / sizeof)) zero]> s) ;;;
      ret {| mData := Some p; mSize := size |}.

(** The loops all the copies share: [N] elements from [q] on [srcPos] to [p]
    on [thisPos], from the first or from the last. *)
Definition copy_element (p : option positive) (thisPos : Z) (q : option positive) (srcPos i : Z) : SE store unit :=
  x <- load q (srcPos + i) ;; assign p (thisPos + i) x.

Definition move (up : bool) (p : option positive) (thisPos : Z) (q : option positive) (srcPos N : Z) :
    SE store unit :=
  if up then for_up (Z.to_nat N) 0 (copy_element p thisPos q srcPos)
  else for_down (Z.to_nat N) (N - 1) (copy_element p thisPos q srcPos).

Definition same (p q : option positive) : bool := bool_decide (p = q).

(** [Copy(srcArray)]. *)
Definition Copy (a src : Array) : SE store Z :=
  if IsNull src || IsEmpty src then ret 0
  else
    let N := MIN (mSize a) (mSize src) in
    if same (mData a) (mData src) then ret N
    else move true (mData a) 0 (mData src) 0 N ;;; ret N.

(** [Copy(srcArray, length)]. *)
Definition Copy_length (a src : Array) (length : Z) : SE store Z :=
  if IsNull src || IsEmpty src then ret 0
  else
    let N := MIN (mSize a) (MIN (mSize src) length) in
    if same (mData a) (mData src) then ret N
    else move true (mData a) 0 (mData src) 0 N ;;; ret N.

(** [Copy(srcArray, srcPos, length)]. *)
Definition Copy_from (a src : Array) (srcPos length : Z) : SE store Z :=
  if IsNull src || IsEmpty src then ret 0
  else
    let N := MIN (mSize a) (MIN (mSize src - srcPos) length) in
    if same (mData a) (mData src) && (srcPos =? 0) then ret N
    else move true (mData a) 0 (mData src) srcPos N ;;; ret N.

(** [Copy(thisPos, srcArray)]. *)
Definition Copy_to (a : Array) (thisPos : Z) (src : Array) : SE store Z :=
  if IsNull src || IsEmpty src then ret 0
  else
    let N := MIN (mSize a - thisPos) (mSize src) in
    if same (mData a) (mData src) && (thisPos =? 0) then ret N
    else move (negb (same (mData a) (mData src))) (mData a) thisPos (mData src) 0 N ;;; ret N.

(** [Copy(thisPos, srcArray, length)]. *)
Definition Copy_to_length (a : Array) (thisPos : Z) (src : Array) (length : Z) : SE store Z :=
  if IsNull src || IsEmpty src then ret 0
  else
    let N := MIN (mSize a - thisPos) (MIN (mSize src) length) in
    if same (mData a) (mData src) && (thisPos =? 0) then ret N
    else move (negb (same (mData a) (mData src))) (mData a) thisPos (mData src) 0 N ;;; ret N.

(** [Copy(thisPos, srcArray, srcPos, length)]. *)
Definition Copy_range (a : Array) (thisPos : Z) (src : Array) (srcPos length : Z) : SE store Z :=
  if IsNull src || IsEmpty src then ret 0
  else
    let N := MIN (mSize a - thisPos) (MIN (mSize src - srcPos) length) in
    if same (mData a) (mData src) && (thisPos =? srcPos) then ret N
    else
      move (negb (same (mData a) (mData src)) || (thisPos <? srcPos)) (mData a) thisPos (mData src) srcPos N ;;;
      ret N.

(** The copies from a pointer, here into the block [src] at [off].  A pointer
    equals [mData] if it is at the start of the same block. *)
Definition points_to (p : option positive) (src : positive) (off : Z) : bool :=
  same p (Some src) && (off =? 0).

(** [Copy(srcData, length)]. *)
Definition Copy_data (a : Array) (src : positive) (off length : Z) : SE store Z :=
  let N := MIN (mSize a) length in
  if points_to (mData a) src off then ret N
  else move true (mData a) 0 (Some src) off N ;;; ret N.

(** [Copy(thisPos, srcData, length)]. *)
Definition Copy_data_to (a : Array) (thisPos : Z) (src : positive) (off length : Z) : SE store Z :=
  let N := MIN (mSize a - thisPos) length in
  if points_to (mData a) src off && (thisPos =? 0) then ret N
  else move (negb (points_to (mData a) src off)) (mData a) thisPos (Some src) off N ;;; ret N.

(** [Copy(thisPos, srcData, srcPos, length)]. *)
Definition Copy_data_range (a : Array) (thisPos : Z) (src : positive) (off srcPos length : Z) : SE store Z :=
  let N := MIN (mSize a - thisPos) length in
  if points_to (mData a) src off && (thisPos =? srcPos) then ret N
  else
    let off := off + srcPos in   (* srcData += srcPos *)
    move (negb (points_to (mData a) src off) || (thisPos <? srcPos)) (mData a) thisPos (Some src) off N ;;; ret N.

Definition Equals (a b : Array) : bool := same (mData a) (mData b) && (mSize a =? mSize b).

(** [Clone()]. *)
Definition Clone (a : Array) : SE store Array :=
  newArray <- Alloc (mSize a) ;;
  if IsNull newArray then ret newArray
  else move true (mData newArray) 0 (mData a) 0 (mSize a) ;;; ret newArray.

End Operations.

End RtArray.
