(* ===== verification/RtArrayProofs.v ===== *)
(** * The runtime's arrays: copying

    Whatever the ranges, also overlapping ones of one block, [Copy] moves the
    elements as [memmove] does; only the copy from a pointer with an offset
    loses elements, because it compares the pointer after moving it. *)
From S2P Require Import Prelude.
From S2P Require Import RtArray.

Module RtArrayProofs.
Import RtArray.

Section Proofs.
Context {A : Allocator} {T : Type}.
Implicit Types (s : gmap positive (list T)) (l : list T).

Lemma load_at s p l (i : nat) x : s !! p = Some l -> l !! i = Some x ->
  load (Some p) (Z.of_nat i) s = Some (x, s).
Proof.
  intros Hp Hi. unfold load. cbn. rewrite Hp.
  destruct (Z.ltb_spec (Z.of_nat i) 0); [lia|]. by rewrite Nat2Z.id, Hi.
Qed.

Lemma assign_at s p l (i : nat) x : s !! p = Some l -> (i < length l)%nat ->
  assign (Some p) (Z.of_nat i) x s = Some (tt, <[p := <[i := x]> l]> s).
Proof.
  intros Hp Hi. unfold assign. cbn. rewrite Hp.
  rewrite (proj2 (Z.leb_le _ _)), (proj2 (Z.ltb_lt _ _)) by lia. by rewrite Nat2Z.id.
Qed.

(** What a copy loop has to move: [n] elements of [lq] from [b] into [lp] at
    [a]; in one block the loop must not overwrite what it still has to read. *)
Section Move.
Context (s : gmap positive (list T)) (p q : positive) (lp lq : list T) (a b n : nat).
Context (Hp : s !! p = Some lp) (Hq : s !! q = Some lq).
Context (Ha : (a + n <= length lp)%nat) (Hb : (b + n <= length lq)%nat).

Definition part (i j : nat) : list T := take j (drop (b + i) lq).
Definition copied (i j : nat) : gmap positive (list T) := <[p := memcpy lp (a + i) (part i j)]> s.

Lemma part_length i j : (i + j <= n)%nat -> length (part i j) = j.
Proof. intros. unfold part. rewrite length_take, length_drop. lia. Qed.

Lemma part_lookup i j : (i + j < n)%nat -> exists x, lq !! (b + (i + j))%nat = Some x /\
  part i (S j) = part i j ++ [x].
Proof.
  intros. destruct (lookup_lt_is_Some_2 lq (b + (i + j))) as [x Hx]; [lia|]. exists x. split; [done|].
  unfold part. apply take_S_r. rewrite lookup_drop. by rewrite <-Nat.add_assoc.
Qed.

Lemma part_cons i j x : lq !! (b + i)%nat = Some x -> part i (S j) = x :: part (S i) j.
Proof.
  intros Hx. unfold part. rewrite (drop_S _ _ _ Hx). cbn. do 2 f_equal. f_equal. lia.
Qed.

Lemma copied_start i : copied i 0 = s.
Proof.
  unfold copied, part, memcpy. rewrite take_0. cbn [length app]. rewrite Nat.add_0_r, take_drop. by apply insert_id.
Qed.

(** The source element [b + k] is unharmed while [lp] is rewritten elsewhere. *)
Lemma copied_source i j k : (i + j <= n)%nat -> (k < n)%nat ->
  (p = q -> (b + k < a + i \/ a + i + j <= b + k)%nat) ->
  exists l, copied i j !! q = Some l /\ l !! (b + k)%nat = lq !! (b + k)%nat.
Proof.
  intros Hij Hk Hsafe. unfold copied. destruct (decide (p = q)) as [E|Hne].
  - rewrite <-E, lookup_insert_eq. eexists. split; [done|].
    assert (lq !! (b + k)%nat = lp !! (b + k)%nat) as -> by (rewrite <-E, Hp in Hq; by injection Hq as ->).
    apply memcpy_out; rewrite part_length by lia; [lia|specialize (Hsafe E); lia].
  - rewrite lookup_insert_ne by done. eauto.
Qed.

Lemma copied_target i j : (i + j <= n)%nat ->
  copied i j !! p = Some (memcpy lp (a + i) (part i j)) /\ length (memcpy lp (a + i) (part i j)) = length lp.
Proof.
  intros. split; [apply lookup_insert_eq|]. apply memcpy_length. rewrite part_length; lia.
Qed.

Let body := copy_element (Some p) (Z.of_nat a) (Some q) (Z.of_nat b) : Z -> SE (gmap positive (list T)) unit.

Lemma body_step i j k s' : (i + j <= n)%nat -> (k < n)%nat ->
  (p = q -> (b + k < a + i \/ a + i + j <= b + k)%nat) ->
  (forall x, lq !! (b + k)%nat = Some x ->
     <[p := <[(a + k)%nat := x]> (memcpy lp (a + i) (part i j))]> (copied i j) = s') ->
  body (Z.of_nat k) (copied i j) = Some (tt, s').
Proof.
  intros Hij Hk Hsafe Hs. destruct (copied_source i j k) as (l & Hl & Hx); [done..|].
  destruct (lookup_lt_is_Some_2 lq (b + k)) as [x Hxx]; [lia|]. rewrite Hxx in Hx.
  destruct (copied_target i j Hij) as [Ht Hlen].
  unfold body, copy_element. rewrite <-!Nat2Z.inj_add. rewrite (bind_Some _ _ _ _ _ (load_at _ _ _ _ _ Hl Hx)).
  rewrite (assign_at _ _ _ _ _ Ht) by lia. f_equal. f_equal. by apply Hs.
Qed.

Lemma for_up_copies : (p = q -> (a <= b)%nat) ->
  for_up n 0 body s = Some (tt, copied 0 n).
Proof.
  intros Hdir. cut (forall m k, (k + m)%nat = n -> for_up m (Z.of_nat k) body (copied 0 k) = Some (tt, copied 0 n)).
  { intros H. rewrite <-(copied_start 0) at 1. by apply (H n 0%nat). }
  induction m as [|m IH]; intros k Hk; cbn [for_up].
  { replace k with n by lia. done. }
  erewrite bind_Some; [|apply (body_step 0 k k (copied 0 (S k))); [lia|lia|intros E; specialize (Hdir E); lia|]].
  - replace (Z.of_nat k + 1) with (Z.of_nat (S k)) by lia. apply IH. lia.
  - intros x Hx. destruct (part_lookup 0 k) as (y & Hy & Hpart); [lia|]. cbn in Hy. rewrite Hx in Hy. injection Hy as <-.
    unfold copied. rewrite insert_insert_eq, Hpart, <-memcpy_extend by (rewrite part_length; lia).
    by rewrite part_length, Nat.add_0_r by lia.
Qed.

Lemma for_down_copies : (p = q -> (b <= a)%nat) ->
  for_down n (Z.of_nat n - 1) body s = Some (tt, copied 0 n).
Proof.
  intros Hdir.
  cut (forall m, (m <= n)%nat -> for_down m (Z.of_nat m - 1) body (copied m (n - m)) = Some (tt, copied 0 n)).
  { intros H. specialize (H n ltac:(lia)). by rewrite Nat.sub_diag, copied_start in H. }
  induction m as [|m IH]; intros Hm; cbn [for_down].
  { by rewrite Nat.sub_0_r. }
  replace (Z.of_nat (S m) - 1) with (Z.of_nat m) by lia.
  erewrite bind_Some; [|apply (body_step _ _ m (copied m (n - m))); [lia|lia|intros E; specialize (Hdir E); lia|]].
  - apply IH. lia.
  - intros x Hx. unfold copied. rewrite insert_insert_eq.
    replace (n - m)%nat with (S (n - S m)) by lia.
    rewrite (part_cons _ _ _ Hx), <-memcpy_extend_front by (rewrite part_length; lia).
    by rewrite Nat.add_succ_r.
Qed.

End Move.

Lemma move_copies s p q lp lq (a b : Z) n up :
  s !! p = Some lp -> s !! q = Some lq ->
  0 <= a <= Z.of_nat (length lp) - Z.of_nat n -> 0 <= b <= Z.of_nat (length lq) - Z.of_nat n ->
  (p = q -> if up : bool then a <= b else b <= a) ->
  move up (Some p) a (Some q) b (Z.of_nat n) s =
    Some (tt, <[p := memcpy lp (Z.to_nat a) (take n (drop (Z.to_nat b) lq))]> s).
Proof.
  intros Hp Hq Ha Hb Hdir. unfold move. rewrite Nat2Z.id.
  replace (<[p := memcpy _ _ _]> s) with (copied s p lp lq (Z.to_nat a) (Z.to_nat b) 0 n)
    by (unfold copied, part; by rewrite !Nat.add_0_r).
  remember (Z.to_nat a) as a' eqn:Ea. remember (Z.to_nat b) as b' eqn:Eb.
  assert (a = Z.of_nat a') as -> by lia. assert (b = Z.of_nat b') as -> by lia.
  destruct up; [apply for_up_copies|apply for_down_copies]; try done; try lia; intros E; specialize (Hdir E); lia.
Qed.

(** An array names a block of the length it says. *)
Definition backs s (x : Array) p l : Prop :=
  mData x = Some p /\ s !! p = Some l /\ mSize x = Z.of_nat (length l).

Lemma MIN_min a b : MIN a b = Z.min a b.
Proof. unfold MIN. destruct (Z.ltb_spec a b); lia. Qed.

Lemma memcpy_self l a n : (a + n <= length l)%nat -> memcpy l a (take n (drop a l)) = l.
Proof.
  intros H. unfold memcpy. rewrite length_take, length_drop, Nat.min_l by lia.
  rewrite <-drop_drop, (take_drop n), (take_drop a). done.
Qed.

Lemma memcpy_nil l a : memcpy l a [] = l.
Proof. unfold memcpy. cbn. by rewrite Nat.add_0_r, take_drop. Qed.

Lemma backs_not_null s x p l : backs s x p l -> IsNull x = false.
Proof. intros (H & _). unfold IsNull. by rewrite H. Qed.

(** *** Copying between arrays *)

Definition copy_count (lp lq : list T) (thisPos srcPos length : Z) : nat :=
  Z.to_nat (Z.min (Z.of_nat (List.length lp) - thisPos) (Z.min (Z.of_nat (List.length lq) - srcPos) length)).

(** [Copy(thisPos, srcArray, srcPos, length)] as a lemma for the clients. *)
Lemma Copy_range_spec s x p lp src q lq thisPos srcPos length :
  backs s x p lp -> backs s src q lq ->
  0 <= thisPos <= Z.of_nat (List.length lp) -> 0 <= srcPos <= Z.of_nat (List.length lq) -> 0 <= length ->
  let n := copy_count lp lq thisPos srcPos length in
  Copy_range x thisPos src srcPos length s =
    Some (Z.of_nat n, <[p := memcpy lp (Z.to_nat thisPos) (take n (drop (Z.to_nat srcPos) lq))]> s).
Proof.
  intros Hx Hsrc Ht Hs Hl n. unfold Copy_range, IsEmpty. rewrite (backs_not_null _ _ _ _ Hsrc).
  destruct Hx as (Hxp & Hp & Hxs), Hsrc as (Hsq & Hq & Hss). rewrite Hxs, Hss, Hxp, Hsq, !MIN_min.
  assert (HN : Z.of_nat n = Z.min (Z.of_nat (List.length lp) - thisPos) (Z.min (Z.of_nat (List.length lq) - srcPos) length))
    by (unfold n, copy_count; lia).
  cbn [orb]. destruct (Z.eqb_spec (Z.of_nat (List.length lq)) 0) as [E|Hne].
  { replace n with 0%nat by lia. rewrite take_0, memcpy_nil, insert_id by done. done. }
  rewrite <-HN.
  assert (Hsame : same (Some p) (Some q) = bool_decide (p = q))
    by (unfold same; apply bool_decide_ext; split; congruence).
  rewrite Hsame.
  case_bool_decide as Epq; cbn [andb orb negb].
  - subst q. rewrite Hp in Hq. injection Hq as <-.
    destruct (Z.eqb_spec thisPos srcPos) as [->|Hpos].
    { rewrite memcpy_self, insert_id by (done || lia). done. }
    erewrite bind_Some; [reflexivity|].
    apply move_copies; try done; try lia. intros _. destruct (Z.ltb_spec thisPos srcPos); lia.
  - erewrite bind_Some; [reflexivity|]. apply move_copies; try done; try lia.
Qed.

(** C28: [Copy(thisPos, srcArray, srcPos, length)] is [memmove]: the elements
    the two arrays and [length] leave room for arrive as they were before the
    copy, also when source and target overlap in one block, and nothing else
    changes. *)
Theorem arrays_move s x p lp src q lq thisPos srcPos length :
  backs s x p lp -> backs s src q lq ->
  0 <= thisPos <= Z.of_nat (List.length lp) -> 0 <= srcPos <= Z.of_nat (List.length lq) -> 0 <= length ->
  exists s', Copy_range x thisPos src srcPos length s = Some (Z.of_nat (copy_count lp lq thisPos srcPos length), s')
    /\ (forall r, r <> p -> s' !! r = s !! r)
    /\ exists l', s' !! p = Some l' /\ List.length l' = List.length lp
    /\ forall i : nat, l' !! i =
         let from := Z.of_nat i - thisPos in
         if (0 <=? from) && (from <? Z.of_nat (copy_count lp lq thisPos srcPos length))
         then lq !! Z.to_nat (srcPos + from) else lp !! i.
Proof.
  intros Hx Hsrc Ht Hs Hl. eexists. split; [by eapply Copy_range_spec|].
  set (n := copy_count _ _ _ _ _). assert (Hn1 : Z.of_nat n <= Z.of_nat (List.length lp) - thisPos) by (unfold n, copy_count; lia).
  assert (Hn2 : Z.of_nat n <= Z.of_nat (List.length lq) - srcPos) by (unfold n, copy_count; lia).
  assert (Hlen : List.length (take n (drop (Z.to_nat srcPos) lq)) = n) by (rewrite length_take, length_drop; lia).
  split; [intros r Hr; by apply lookup_insert_ne|].
  eexists. split; [apply lookup_insert_eq|]. split; [apply memcpy_length; rewrite Hlen; lia|].
  intros i. cbn zeta. destruct (_ && _) eqn:E; bprop.
  - rewrite memcpy_in by (rewrite Hlen; lia). rewrite lookup_take_lt, lookup_drop by lia. f_equal. lia.
  - apply memcpy_out; rewrite Hlen; [lia|].
    apply andb_false_iff in E. destruct E; bprop; lia.
Qed.

(** *** Copying from a pointer into the array itself *)

Lemma smear s p l b n x k m :
  s !! p = Some (memcpy l (S b) (replicate k x)) -> l !! b = Some x -> (S b + n <= length l)%nat ->
  (k + m = n)%nat ->
  for_up m (Z.of_nat k) (copy_element (Some p) (Z.of_nat (S b)) (Some p) (Z.of_nat b)) s =
    Some (tt, <[p := memcpy l (S b) (replicate n x)]> s).
Proof.
  revert s k. induction m as [|m IH]; intros s k Hp Hx Hb Hn; cbn [for_up].
  { assert (k = n) as -> by lia. by rewrite insert_id. }
  assert (Hread : memcpy l (S b) (replicate k x) !! (b + k)%nat = Some x).
  { destruct k as [|k].
    - rewrite Nat.add_0_r, memcpy_out by (cbn; lia). done.
    - rewrite memcpy_in by (rewrite length_replicate; lia). apply lookup_replicate_2. lia. }
  assert (Hlen : length (memcpy l (S b) (replicate k x)) = length l)
    by (apply memcpy_length; rewrite length_replicate; lia).
  unfold copy_element at 1. rewrite <-!Nat2Z.inj_add.
  erewrite bind_Some; [|erewrite bind_Some; [apply (assign_at _ _ _ _ _ Hp); lia|by apply (load_at _ _ _ _ _ Hp)]].
  replace (Z.of_nat k + 1) with (Z.of_nat (S k)) by lia.
  pose proof (memcpy_extend l (S b) (replicate k x) x) as Hext. rewrite length_replicate in Hext.
  rewrite Hext, <-replicate_cons_app by lia. change (x :: replicate k x) with (replicate (S k) x).
  rewrite (IH _ (S k)); [by rewrite insert_insert_eq|apply lookup_insert_eq|done|done|lia].
Qed.

(** The copy from a pointer compares the pointer with the array's data only
    after advancing it, takes overlapping ranges for separate ones and runs
    forward: moving an array's own elements up by one from an offset fills the
    range with the first of them. *)
Theorem pointer_copy_smears s a p l (b : nat) (n : nat) x :
  backs s a p l -> (0 < b)%nat -> l !! b = Some x -> (S b + n <= length l)%nat ->
  Copy_data_range a (Z.of_nat b + 1) p 0 (Z.of_nat b) (Z.of_nat n) s =
    Some (Z.of_nat n, <[p := memcpy l (S b) (replicate n x)]> s).
Proof.
  intros (Ha & Hp & Hs) Hb Hx Hn. unfold Copy_data_range, points_to, same. rewrite Ha, Hs, MIN_min.
  rewrite bool_decide_eq_true_2 by done. cbn [andb Z.eqb].
  destruct (Z.eqb_spec (Z.of_nat b + 1) (Z.of_nat b)); [lia|].
  rewrite Z.add_0_l. destruct (Z.eqb_spec (Z.of_nat b) 0); [lia|]. cbn [negb orb].
  rewrite Z.min_r by lia. replace (Z.of_nat b + 1) with (Z.of_nat (S b)) by lia.
  erewrite bind_Some; [reflexivity|]. unfold move. rewrite Nat2Z.id.
  apply (smear _ _ _ _ n x 0); [cbn; by rewrite memcpy_nil|done|done|lia].
Qed.

End Proofs.

(** *** Witnesses *)

Definition demo_store : gmap positive (list Z) := {[ 1%positive := [1; 2; 3; 4; 5] ]}.
Definition demo_array : Array := {| mData := Some 1%positive; mSize := 5 |}.

Lemma arrays_move_witness :
  exists s', Copy_range demo_array 1 demo_array 0 3 demo_store = Some (3, s') /\ s' !! 1%positive = Some [1; 1; 2; 3; 5].
Proof.
  destruct (arrays_move demo_store demo_array 1 [1; 2; 3; 4; 5] demo_array 1 [1; 2; 3; 4; 5] 1 0 3) as (s' & Hs & _ & l & Hl & _);
    try (split_and!; reflexivity); cbn; try lia.
  exists s'. split; [exact Hs|]. vm_compute in Hs. injection Hs as <-. reflexivity.
Defined.

Lemma pointer_copy_smears_witness :
  Copy_data_range demo_array 2 1 0 1 3 demo_store = Some (3, {[ 1%positive := [1; 2; 2; 2; 2] ]}).
Proof.
  apply (pointer_copy_smears demo_store demo_array 1 [1; 2; 3; 4; 5] 1 3 2);
    [split_and!; reflexivity|lia|reflexivity|cbn; lia].
Defined.

End RtArrayProofs.
