(* ===== verification/ECode.v ===== *)
(** * Error codes of the class library

    The codes the modelled classes return and the macro that passes them on.  A
    function with an out parameter returns its code and what it stored there,
    [None] if it left the variable as it was. *)
From S2P Require Import Prelude.

Inductive ECode :=
  | NOERROR
  | E_ILLEGAL_ARGUMENT_EXCEPTION
  | E_ILLEGAL_STATE_EXCEPTION
  | E_INDEX_OUT_OF_BOUNDS_EXCEPTION
  | E_UNSUPPORTED_OPERATION_EXCEPTION
  | E_INVALID_MARK_EXCEPTION
  | E_BUFFER_UNDERFLOW_EXCEPTION
  | E_BUFFER_OVERFLOW_EXCEPTION
  | E_READ_ONLY_BUFFER_EXCEPTION
  | E_NULL_POINTER_EXCEPTION
  | E_CLASS_CAST_EXCEPTION
  | E_NO_SUCH_ELEMENT_EXCEPTION
  | E_CONCURRENT_MODIFICATION_EXCEPTION.

#[export] Instance ECode_eq_dec : EqDecision ECode.
Proof. solve_decision. Defined.

Definition FAILED (ec : ECode) : bool := match ec with NOERROR => false | _ => true end.

(** [FAIL_RETURN(m)], before [k], in a function that returns just a code. *)
Definition FAIL_RETURN {S} (m : SE S ECode) (k : SE S ECode) : SE S ECode :=
  ec <- m ;; if FAILED ec then ret ec else k.

(** The same in a function with an out parameter. *)
Definition FAIL_RETURN_out {S X} (m : SE S ECode) (k : SE S (ECode * option X)) : SE S (ECode * option X) :=
  ec <- m ;; if FAILED ec then ret (ec, None) else k.

(** A value of a local variable; reading one that was never set is undefined. *)
Definition known {S X} (x : option X) : SE S X :=
  match x with Some x => ret x | None => undefined end.

(** A result that is taken apart. *)
Notation "' p <- m ;; k" := (bind m (fun x => match x with p => k end))
  (at level 100, p pattern, m at next level, right associativity, only parsing).
