(* ===== verification/BigInteger.v ===== *)
(** * Big integers

    The representation of [ccm/math/BigInteger]: a sign and the digits of its
    magnitude, 32-bit words as [int]s, the least significant first, or a number of
    BoringSSL's, or both.  BoringSSL is the class [BN].  A function that computes digits
    makes one array, [resDigits], which is its state. *)
From stdpp Require Import list.
From S2P Require Import Prelude.
From S2P Require Import ECode.

Module BigInteger.

(** The functions of BoringSSL that are called here, on its numbers. *)
Class BN (N : Type) := {
  BN_cmp : N -> N -> Z;
  BN_set_u64 : Z -> N;
  BN_set_negative : N -> bool -> N;
  BN_is_zero : N -> bool;
  BN_is_negative : N -> bool;
  BN_num_bytes : N -> Z;
  BN_le2bn : list Z -> N;
  BN_bn2le_padded : Z -> N -> option (list Z)
}.

Record BigInteger {N : Type} := {
  mDigits : list Z;
  mNumberLength : Z;
  mSign : Z;
  mBigInt : option N;
  mIsValid : bool;
  mFirstNonzeroDigit : Z
}.
#[global] Arguments BigInteger : clear implicits.

(** ** One array *)

Notation M := (SE (list Z)).

Definition alloc (n : Z) : M unit := if n <? 0 then undefined else modify (fun _ => replicate (Z.to_nat n) 0).
Definition at_index (l : list Z) (i : Z) : M Z := if i <? 0 then undefined else known (l !! Z.to_nat i).
Definition res (i : Z) : M Z := l <- gets (fun l => l) ;; at_index l i.
Definition store (i x : Z) : M unit := res i ;;; modify (<[Z.to_nat i := x]>).

(** [for (; i < limit; i++) resDigits[i] = f(i);], with the value [i] ends with. *)
Fixpoint fill_n (n : nat) (i : Z) (f : Z -> M Z) : M Z :=
  match n with
  | O => ret i
  | S n => x <- f i ;; store i x ;;; fill_n n (i + 1) f
  end.
Definition fill (i limit : Z) (f : Z -> M Z) : M Z := fill_n (Z.to_nat (limit - i)) i f.

(** [for (; i < limit && (digit = f(i)) == 0; i++);], with the values of [i] and [digit]. *)
Fixpoint skip_n (n : nat) (i digit : Z) (f : Z -> M Z) : M (Z * Z) :=
  match n with
  | O => ret (i, digit)
  | S n => digit <- f i ;; if digit =? 0 then skip_n n (i + 1) digit f else ret (i, digit)
  end.
Definition skip (i limit digit : Z) (f : Z -> M Z) : M (Z * Z) := skip_n (Z.to_nat (limit - i)) i digit f.

Section BigInteger.
Context {N : Type} `{!BN N}.
Notation BigInteger := (BigInteger N).
Implicit Types (v value : BigInteger).

(** ** Representations *)

Definition BigInt_Sign (a : N) : Z := if BN_is_zero a then 0 else if BN_is_negative a then -1 else 1.

(** The digits, as the bytes of the array. *)
Definition bytes_of (d : Z) : list Z := [d mod 256; (d / 256) mod 256; (d / 65536) mod 256; (d / 16777216) mod 256].
Definition PutLittleEndianIntegers (a : list Z) (neg : bool) : N := BN_set_negative (BN_le2bn (a ≫= bytes_of)) neg.

Fixpoint integers_of (bytes : list Z) : list Z :=
  match bytes with
  | b0 :: b1 :: b2 :: b3 :: bytes => wrap_s 32 (b0 + 256 * b1 + 65536 * b2 + 16777216 * b3) :: integers_of bytes
  | _ => []
  end.
Definition LittleEndianIntegersMagnitude (a : N) : option (list Z) :=
  let intLen := (BN_num_bytes a + 3) / 4 in
  integers_of <$> BN_bn2le_padded (intLen * 4) a.

Definition new_BigInteger : BigInteger :=
  {| mDigits := []; mNumberLength := 0; mSign := 0; mBigInt := None; mIsValid := false; mFirstNonzeroDigit := 0 |}.

Definition SetBigInt (bigInt : N) v : BigInteger :=
  {| mDigits := mDigits v; mNumberLength := mNumberLength v; mSign := mSign v; mBigInt := Some bigInt;
     mIsValid := mIsValid v; mFirstNonzeroDigit := mFirstNonzeroDigit v |}.

(** [while (numberLength > 0 && digits[--numberLength] == 0);] *)
Fixpoint drop_zeros (n : nat) (digits : list Z) : option nat :=
  match n with
  | O => Some O
  | S n => d ← digits !! n; if d =? 0 then drop_zeros n digits else Some n
  end.

Definition SetRepresentation (sign numberLength : Z) (digits : list Z) v : option BigInteger :=
  n ← drop_zeros (Z.to_nat numberLength) digits;
  d ← digits !! n;
  Some {| mDigits := digits; mNumberLength := Z.of_nat n + 1; mSign := if d =? 0 then 0 else sign;
          mBigInt := mBigInt v; mIsValid := true; mFirstNonzeroDigit := mFirstNonzeroDigit v |}.

Definition PrepareRepresentation v : option BigInteger :=
  if mIsValid v then Some v
  else
    n ← mBigInt v;
    let sign := BigInt_Sign n in
    digits ← (if negb (sign =? 0) then LittleEndianIntegersMagnitude n else Some [0]);
    SetRepresentation sign (Z.of_nat (length digits)) digits v.

(** It keeps what it makes, which it would make again. *)
Definition GetBigInt v : N :=
  match mBigInt v with Some n => n | None => PutLittleEndianIntegers (mDigits v) (mSign v <? 0) end.

(** [CBigInteger::New(sign, value)] and [CBigInteger::New(sign, numberLength, resDigits)]. *)
Definition CreateBigInteger (sign value : Z) : BigInteger :=
  SetBigInt (BN_set_negative (BN_set_u64 (value mod 2 ^ 64)) (sign <? 0)) new_BigInteger.
Definition ZERO : BigInteger := CreateBigInteger 0 0.
Definition MINUS_ONE : BigInteger := CreateBigInteger (-1) 1.
Definition New (sign numberLength : Z) : M BigInteger :=
  digits <- gets (fun l => l) ;; known (SetRepresentation sign numberLength digits new_BigInteger).

(** [CompareTo] and [Equals], of two objects. *)
Definition CompareTo v value : Z := BN_cmp (GetBigInt v) (GetBigInt value).
Definition Equals v value : bool := CompareTo v value =? 0.

(** [for (i = 0; digits[i] == x; i++);] *)
Fixpoint first_not (x : Z) (digits : list Z) : option Z :=
  match digits with
  | [] => None
  | d :: digits => if d =? x then Z.succ <$> first_not x digits else Some 0
  end.

(** It keeps what it finds, which it would find again. *)
Definition GetFirstNonzeroDigit v : M Z :=
  if mFirstNonzeroDigit v =? -2 then
    if mSign v =? 0 then ret (-1) else known (first_not 0 (mDigits v))
  else ret (mFirstNonzeroDigit v).

Definition digit v (i : Z) : M Z := at_index (mDigits v) i.

(** Negation and decrement of an [int]. *)
Definition minus (x : Z) : M Z := int (- x).
Definition less_one (x : Z) : M Z := int (x - 1).

End BigInteger.

End BigInteger.
