(* ===== verification/Logical.v ===== *)
(** * Bitwise operations on big integers

    [ccm/math/Logical]: a function for every pair of signs, on the digits of the
    magnitudes.  A negative number is the two's complement of its magnitude, which
    leaves the digits before the first that is not zero, negates that one and
    inverts those after it. *)
From stdpp Require Import list.
From S2P Require Import Prelude.
From S2P Require Import ECode.
From S2P Require Import BigInteger.

Module Logical.

Import BigInteger.

Section Logical.
Context {N : Type} `{!BN N}.
Notation BigInteger := (BigInteger N).
Notation M := (SE (list Z)).
Implicit Types (value that positive negative longer shorter : BigInteger).

(** ** Not *)

Definition Not value : M BigInteger :=
  if mSign value =? 0 then ret MINUS_ONE
  else if Equals value MINUS_ONE then ret ZERO
  else
    let n := mNumberLength value in
    let finish (i : Z) : M BigInteger :=
      d <- digit value i ;; x <- int (d + mSign value) ;; store i x ;;;
      i <- fill (i + 1) n (digit value) ;;
      New (- mSign value) i in
    alloc (n + 1) ;;;
    if mSign value >? 0 then
      top <- digit value (n - 1) ;;
      if negb (top =? -1) then i <- known (first_not (-1) (mDigits value)) ;; finish i
      else
        '(i, _) <- skip 0 n 0 (fun i => d <- digit value i ;; ret (d + 1)) ;;
        if i =? n then store i 1 ;;; New (- mSign value) (i + 1) else finish i
    else
      i <- known (first_not 0 (mDigits value)) ;;
      fill 0 i (fun _ => ret (-1)) ;;;
      finish i.

(** ** And *)

Definition AddPositive value that : M BigInteger :=
  let resLength := Z.min (mNumberLength value) (mNumberLength that) in
  i <- GetFirstNonzeroDigit value ;; j <- GetFirstNonzeroDigit that ;;
  let i := Z.max i j in
  if i >=? resLength then ret ZERO
  else
    alloc resLength ;;;
    fill i resLength (fun i => a <- digit value i ;; b <- digit that i ;; ret (Z.land a b)) ;;;
    New 1 resLength.

Definition AddDiffSigns positive negative : M BigInteger :=
  iPos <- GetFirstNonzeroDigit positive ;;
  iNeg <- GetFirstNonzeroDigit negative ;;
  if iNeg >=? mNumberLength positive then ret ZERO
  else
    let resLength := mNumberLength positive in
    alloc resLength ;;;
    let i := Z.max iPos iNeg in
    i <- (if i =? iNeg then
            a <- digit negative i ;; a <- minus a ;; b <- digit positive i ;;
            store i (Z.land a b) ;;; ret (i + 1)
          else ret i) ;;
    let limit := Z.min (mNumberLength negative) (mNumberLength positive) in
    i <- fill i limit (fun i => a <- digit negative i ;; b <- digit positive i ;; ret (Z.land (Z.lnot a) b)) ;;
    (if i >=? mNumberLength negative then fill i (mNumberLength positive) (digit positive) else ret i) ;;;
    New 1 resLength.

Definition AddNegative longer shorter : M BigInteger :=
  iLonger <- GetFirstNonzeroDigit longer ;;
  iShorter <- GetFirstNonzeroDigit shorter ;;
  if iLonger >=? mNumberLength shorter then ret longer
  else
    let i := Z.max iShorter iLonger in
    s <- digit shorter i ;; l <- digit longer i ;;
    d <- (if iShorter >? iLonger then s <- minus s ;; ret (Z.land s (Z.lnot l))
          else if iShorter <? iLonger then l <- minus l ;; ret (Z.land (Z.lnot s) l)
          else s <- minus s ;; l <- minus l ;; ret (Z.land s l)) ;;
    '(i, d) <- (if d =? 0 then
                  '(i, d) <- skip (i + 1) (mNumberLength shorter) d
                    (fun i => l <- digit longer i ;; s <- digit shorter i ;; ret (Z.lnot (Z.lor l s))) ;;
                  if d =? 0 then skip i (mNumberLength longer) d (fun i => l <- digit longer i ;; ret (Z.lnot l))
                  else ret (i, d)
                else ret (i, d)) ;;
    if d =? 0 then
      let resLength := mNumberLength longer + 1 in
      alloc resLength ;;; store (resLength - 1) 1 ;;; New (-1) resLength
    else
      let resLength := mNumberLength longer in
      alloc resLength ;;;
      x <- minus d ;; store i x ;;;
      i <- fill (i + 1) (mNumberLength shorter)
             (fun i => l <- digit longer i ;; s <- digit shorter i ;; ret (Z.lor l s)) ;;
      fill i (mNumberLength longer) (digit longer) ;;;
      New (-1) resLength.

Definition And value that : M BigInteger :=
  if (mSign that =? 0) || (mSign value =? 0) then ret ZERO
  else if Equals that MINUS_ONE then ret value
  else if Equals value MINUS_ONE then ret that
  else if mSign value >? 0 then
    if mSign that >? 0 then AddPositive value that else AddDiffSigns value that
  else if mSign that >? 0 then AddDiffSigns that value
  else if mNumberLength value >? mNumberLength that then AddNegative value that
  else AddNegative that value.

(** ** AndNot *)

Definition AddNotPositive value that : M BigInteger :=
  alloc (mNumberLength value) ;;;
  let limit := Z.min (mNumberLength value) (mNumberLength that) in
  i <- GetFirstNonzeroDigit value ;;
  i <- fill i limit (fun i => a <- digit value i ;; b <- digit that i ;; ret (Z.land a (Z.lnot b))) ;;
  fill i (mNumberLength value) (digit value) ;;;
  New 1 (mNumberLength value).

Definition AddNotPositiveNegative positive negative : M BigInteger :=
  iNeg <- GetFirstNonzeroDigit negative ;;
  iPos <- GetFirstNonzeroDigit positive ;;
  if iNeg >=? mNumberLength positive then ret positive
  else
    let resLength := Z.min (mNumberLength positive) (mNumberLength negative) in
    alloc resLength ;;;
    i <- fill iPos iNeg (digit positive) ;;
    i <- (if i =? iNeg then
            a <- digit positive i ;; b <- digit negative i ;; b <- less_one b ;;
            store i (Z.land a b) ;;; ret (i + 1)
          else ret i) ;;
    fill i resLength (fun i => a <- digit positive i ;; b <- digit negative i ;; ret (Z.land a b)) ;;;
    New 1 resLength.

Definition AddNotNegativePositive negative positive : M BigInteger :=
  iNeg <- GetFirstNonzeroDigit negative ;;
  iPos <- GetFirstNonzeroDigit positive ;;
  if iNeg >=? mNumberLength positive then ret negative
  else
    let resLength := Z.max (mNumberLength negative) (mNumberLength positive) in
    let limit := Z.min (mNumberLength positive) (mNumberLength negative) in
    let rest (i : Z) : M BigInteger :=
      i <- fill i limit (fun i => a <- digit negative i ;; b <- digit positive i ;; ret (Z.lor a b)) ;;
      i <- fill i (mNumberLength negative) (digit negative) ;;
      fill i (mNumberLength positive) (digit positive) ;;;
      New (-1) resLength in
    if iPos >? iNeg then
      alloc resLength ;;;
      i <- fill iNeg (Z.min (mNumberLength negative) iPos) (digit negative) ;;
      i <- (if i =? mNumberLength negative then fill iPos (mNumberLength positive) (digit positive) else ret i) ;;
      rest i
    else
      a <- digit negative iNeg ;; a <- minus a ;; b <- digit positive iNeg ;;
      let d := Z.land a (Z.lnot b) in
      '(i, d) <- (if d =? 0 then
                    '(i, d) <- skip (iNeg + 1) limit d
                      (fun i => a <- digit negative i ;; b <- digit positive i ;; ret (Z.lnot (Z.lor a b))) ;;
                    if d =? 0 then
                      '(i, d) <- skip i (mNumberLength positive) d (fun i => b <- digit positive i ;; ret (Z.lnot b)) ;;
                      skip i (mNumberLength negative) d (fun i => a <- digit negative i ;; ret (Z.lnot a))
                    else ret (i, d)
                  else ret (iNeg, d)) ;;
      if d =? 0 then
        alloc (resLength + 1) ;;; store resLength 1 ;;; New (-1) (resLength + 1)
      else
        alloc resLength ;;; x <- minus d ;; store i x ;;; rest (i + 1).

Definition AddNotNegative value that : M BigInteger :=
  iValue <- GetFirstNonzeroDigit value ;;
  iThat <- GetFirstNonzeroDigit that ;;
  if iValue >=? mNumberLength that then ret ZERO
  else
    let resLength := mNumberLength that in
    alloc resLength ;;;
    i <- (if iValue <? iThat then
            a <- digit value iValue ;; a <- minus a ;; store iValue a ;;;
            i <- fill (iValue + 1) (Z.min (mNumberLength value) iThat) (fun i => a <- digit value i ;; ret (Z.lnot a)) ;;
            if i =? mNumberLength value then
              i <- fill i iThat (fun _ => ret (-1)) ;;
              b <- digit that i ;; b <- less_one b ;; store i b ;;; ret i
            else
              a <- digit value i ;; b <- digit that i ;; b <- less_one b ;;
              store i (Z.land (Z.lnot a) b) ;;; ret i
          else if iThat <? iValue then
            a <- digit value iValue ;; a <- minus a ;; b <- digit that iValue ;;
            store iValue (Z.land a b) ;;; ret iValue
          else
            a <- digit value iValue ;; a <- minus a ;; b <- digit that iValue ;; b <- less_one b ;;
            store iValue (Z.land a b) ;;; ret iValue) ;;
    let limit := Z.min (mNumberLength value) (mNumberLength that) in
    i <- fill (i + 1) limit (fun i => a <- digit value i ;; b <- digit that i ;; ret (Z.land (Z.lnot a) b)) ;;
    fill i (mNumberLength that) (digit that) ;;;
    New 1 resLength.

Definition AndNot value that : M BigInteger :=
  if mSign that =? 0 then ret value
  else if mSign value =? 0 then ret ZERO
  else if Equals value MINUS_ONE then Not that
  else if Equals that MINUS_ONE then ret ZERO
  else if mSign value >? 0 then
    if mSign that >? 0 then AddNotPositive value that else AddNotPositiveNegative value that
  else if mSign that >? 0 then AddNotNegativePositive value that
  else AddNotNegative value that.

(** ** Or *)

Definition OrPositive longer shorter : M BigInteger :=
  let resLength := mNumberLength longer in
  alloc resLength ;;;
  i <- fill 0 (mNumberLength shorter) (fun i => a <- digit longer i ;; b <- digit shorter i ;; ret (Z.lor a b)) ;;
  fill i resLength (digit longer) ;;;
  New 1 resLength.

Definition OrNegative value that : M BigInteger :=
  iThat <- GetFirstNonzeroDigit that ;;
  iValue <- GetFirstNonzeroDigit value ;;
  if iValue >=? mNumberLength that then ret that
  else if iThat >=? mNumberLength value then ret value
  else
    let resLength := Z.min (mNumberLength value) (mNumberLength that) in
    alloc resLength ;;;
    i <- (if iThat =? iValue then
            a <- digit value iValue ;; a <- minus a ;; b <- digit that iValue ;; b <- minus b ;;
            x <- minus (Z.lor a b) ;; store iValue x ;;; ret iValue
          else
            i <- fill iThat iValue (digit that) ;;
            b <- digit that i ;; a <- digit value i ;; a <- less_one a ;;
            store i (Z.land b a) ;;; ret i) ;;
    fill (i + 1) resLength (fun i => a <- digit value i ;; b <- digit that i ;; ret (Z.land a b)) ;;;
    New (-1) resLength.

Definition OrDiffSigns positive negative : M BigInteger :=
  iNeg <- GetFirstNonzeroDigit negative ;;
  iPos <- GetFirstNonzeroDigit positive ;;
  if iPos >=? mNumberLength negative then ret negative
  else
    let resLength := mNumberLength negative in
    alloc resLength ;;;
    i <- (if iNeg <? iPos then fill iNeg iPos (digit negative)
          else if iPos <? iNeg then
            a <- digit positive iPos ;; a <- minus a ;; store iPos a ;;;
            i <- fill (iPos + 1) (Z.min (mNumberLength positive) iNeg) (fun i => a <- digit positive i ;; ret (Z.lnot a)) ;;
            if negb (i =? mNumberLength positive) then
              b <- digit negative i ;; b <- minus b ;; a <- digit positive i ;;
              store i (Z.lnot (Z.lor b a)) ;;; ret (i + 1)
            else
              i <- fill i iNeg (fun _ => ret (-1)) ;;
              b <- digit negative i ;; b <- less_one b ;; store i b ;;; ret (i + 1)
          else
            b <- digit negative iPos ;; b <- minus b ;; a <- digit positive iPos ;;
            x <- minus (Z.lor b a) ;; store iPos x ;;; ret (iPos + 1)) ;;
    let limit := Z.min (mNumberLength negative) (mNumberLength positive) in
    i <- fill i limit (fun i => b <- digit negative i ;; a <- digit positive i ;; ret (Z.land b (Z.lnot a))) ;;
    fill i (mNumberLength negative) (digit negative) ;;;
    New (-1) resLength.

Definition Or value that : M BigInteger :=
  if Equals that MINUS_ONE || Equals value MINUS_ONE then ret MINUS_ONE
  else if mSign that =? 0 then ret value
  else if mSign value =? 0 then ret that
  else if mSign value >? 0 then
    if mSign that >? 0 then
      if mNumberLength value >? mNumberLength that then OrPositive value that else OrPositive that value
    else OrDiffSigns value that
  else if mSign that >? 0 then OrDiffSigns that value
  else
    j <- GetFirstNonzeroDigit that ;; i <- GetFirstNonzeroDigit value ;;
    if j >? i then OrNegative that value else OrNegative value that.

(** ** Xor *)

Definition XorPositive longer shorter : M BigInteger :=
  let resLength := mNumberLength longer in
  alloc resLength ;;;
  i <- GetFirstNonzeroDigit longer ;; j <- GetFirstNonzeroDigit shorter ;;
  i <- fill (Z.min i j) (mNumberLength shorter) (fun i => a <- digit longer i ;; b <- digit shorter i ;; ret (Z.lxor a b)) ;;
  fill i (mNumberLength longer) (digit longer) ;;;
  New 1 resLength.

Definition XorNegative value that : M BigInteger :=
  let resLength := Z.max (mNumberLength value) (mNumberLength that) in
  alloc resLength ;;;
  iValue <- GetFirstNonzeroDigit value ;;
  iThat <- GetFirstNonzeroDigit that ;;
  i <- (if iValue =? iThat then
          a <- digit value iThat ;; a <- minus a ;; b <- digit that iThat ;; b <- minus b ;;
          store iThat (Z.lxor a b) ;;; ret iThat
        else
          b <- digit that iThat ;; b <- minus b ;; store iThat b ;;;
          i <- fill (iThat + 1) (Z.min (mNumberLength that) iValue) (fun i => b <- digit that i ;; ret (Z.lnot b)) ;;
          if i =? mNumberLength that then
            i <- fill i iValue (fun _ => ret (-1)) ;;
            a <- digit value i ;; a <- less_one a ;; store i a ;;; ret i
          else
            a <- digit value i ;; a <- minus a ;; b <- digit that i ;;
            store i (Z.lxor a (Z.lnot b)) ;;; ret i) ;;
  let limit := Z.min (mNumberLength value) (mNumberLength that) in
  i <- fill (i + 1) limit (fun i => a <- digit value i ;; b <- digit that i ;; ret (Z.lxor a b)) ;;
  i <- fill i (mNumberLength value) (digit value) ;;
  fill i (mNumberLength that) (digit that) ;;;
  New 1 resLength.

Definition XorDiffSigns positive negative : M BigInteger :=
  let resLength := Z.max (mNumberLength negative) (mNumberLength positive) in
  let rest (i : Z) : M BigInteger :=
    let limit := Z.min (mNumberLength negative) (mNumberLength positive) in
    i <- fill i limit (fun i => b <- digit negative i ;; a <- digit positive i ;; ret (Z.lnot (Z.lxor (Z.lnot b) a))) ;;
    i <- fill i (mNumberLength positive) (digit positive) ;;
    fill i (mNumberLength negative) (digit negative) ;;;
    New (-1) resLength in
  iNeg <- GetFirstNonzeroDigit negative ;;
  iPos <- GetFirstNonzeroDigit positive ;;
  if iNeg <? iPos then
    alloc resLength ;;;
    b <- digit negative iNeg ;; store iNeg b ;;;
    i <- fill (iNeg + 1) (Z.min (mNumberLength negative) iPos) (digit negative) ;;
    i <- (if i =? mNumberLength negative then fill i (mNumberLength positive) (digit positive) else ret i) ;;
    rest i
  else if iPos <? iNeg then
    alloc resLength ;;;
    a <- digit positive iPos ;; a <- minus a ;; store iPos a ;;;
    i <- fill (iPos + 1) (Z.min (mNumberLength positive) iNeg) (fun i => a <- digit positive i ;; ret (Z.lnot a)) ;;
    i <- (if i =? iNeg then
            a <- digit positive i ;; b <- digit negative i ;; b <- minus b ;;
            store i (Z.lnot (Z.lxor a b)) ;;; ret (i + 1)
          else
            i <- fill i iNeg (fun _ => ret (-1)) ;;
            fill i (mNumberLength negative) (digit negative)) ;;
    rest i
  else
    a <- digit positive iNeg ;; b <- digit negative iNeg ;; b <- minus b ;;
    let d := Z.lxor a b in
    '(i, d) <- (if d =? 0 then
                  '(i, d) <- skip (iNeg + 1) (Z.min (mNumberLength positive) (mNumberLength negative)) d
                    (fun i => a <- digit positive i ;; b <- digit negative i ;; ret (Z.lxor a (Z.lnot b))) ;;
                  if d =? 0 then
                    '(i, d) <- skip i (mNumberLength positive) d (fun i => a <- digit positive i ;; ret (Z.lnot a)) ;;
                    skip i (mNumberLength negative) d (fun i => b <- digit negative i ;; ret (Z.lnot b))
                  else ret (i, d)
                else ret (iNeg, d)) ;;
    if d =? 0 then
      alloc (resLength + 1) ;;; store resLength 1 ;;; New (-1) (resLength + 1)
    else
      alloc resLength ;;; x <- minus d ;; store i x ;;; rest (i + 1).

Definition Xor value that : M BigInteger :=
  if mSign that =? 0 then ret value
  else if mSign value =? 0 then ret that
  else if Equals that MINUS_ONE then Not value
  else if Equals value MINUS_ONE then Not that
  else if mSign value >? 0 then
    if mSign that >? 0 then
      if mNumberLength value >? mNumberLength that then XorPositive value that else XorPositive that value
    else XorDiffSigns value that
  else if mSign that >? 0 then XorDiffSigns that value
  else
    j <- GetFirstNonzeroDigit that ;; i <- GetFirstNonzeroDigit value ;;
    if j >? i then XorNegative that value else XorNegative value that.

(** ** The functions of [BigInteger], which prepare their operands *)

Definition prepared value : M BigInteger := known (PrepareRepresentation value).

Definition CallNot value : M BigInteger := value <- prepared value ;; Not value.

Inductive operation := AND | OR | XOR | AND_NOT.

Definition CallOf (o : operation) value that : M BigInteger :=
  value <- prepared value ;; that <- prepared that ;;
  match o with AND => And value that | OR => Or value that | XOR => Xor value that | AND_NOT => AndNot value that end.

End Logical.

End Logical.
