(* ===== verification/LogicalProofs.v ===== *)
(** * The bitwise operations are those of the integers

    [BigIntegerProofs]: what integer the digits of a big integer are, in magnitude
    and in two's complement, rules for the loops on [resDigits], and what is asked
    of BoringSSL.  [LogicalProofs]: every function of [Logical] computes the words of
    its result, and the operations are those on [Z]. *)
From stdpp Require Import list.
From S2P Require Import Prelude.
From S2P Require Import ECode.
From S2P Require Import BigInteger.
From S2P Require Import Logical.

Module BigIntegerProofs.

Import BigInteger.

(** ** Words

    [words x w]: the 32-bit words of [x], in two's complement, are those of [w],
    the bits of which above the thirty-second do not matter. *)

Definition words (x : Z) (w : Z -> Z) : Prop := forall n, 0 <= n -> Z.testbit x n = Z.testbit (w (n / 32)) (n mod 32).

Lemma words_land x y w w' : words x w -> words y w' -> words (Z.land x y) (fun i => Z.land (w i) (w' i)).
Proof. intros Hx Hy n Hn. by rewrite !Z.land_spec, Hx, Hy. Qed.

Lemma words_lor x y w w' : words x w -> words y w' -> words (Z.lor x y) (fun i => Z.lor (w i) (w' i)).
Proof. intros Hx Hy n Hn. by rewrite !Z.lor_spec, Hx, Hy. Qed.

Lemma words_lxor x y w w' : words x w -> words y w' -> words (Z.lxor x y) (fun i => Z.lxor (w i) (w' i)).
Proof. intros Hx Hy n Hn. by rewrite !Z.lxor_spec, Hx, Hy. Qed.

Lemma words_lnot x w : words x w -> words (Z.lnot x) (fun i => Z.lnot (w i)).
Proof.
  intros Hx n Hn. rewrite !Z.lnot_spec, Hx; [done|done| |done]. apply Z.mod_pos_bound. lia.
Qed.

Lemma words_ext x w w' : (forall i, 0 <= i -> w i = w' i) -> words x w -> words x w'.
Proof. intros E Hx n Hn. rewrite <-E; [by apply Hx|]. apply Z.div_pos; lia. Qed.

Lemma words_eq x y w : words x w -> words y w -> x = y.
Proof. intros Hx Hy. apply Z.bits_inj'. intros n Hn. by rewrite Hx, Hy. Qed.

(** An integer by its first word and the others. *)
Lemma words_cons d x w : 0 <= d < 2 ^ 32 -> words x w ->
  words (d + 2 ^ 32 * x) (fun i => if i =? 0 then d else w (i - 1)).
Proof.
  intros Hd Hx n Hn. destruct (Z.lt_ge_cases n 32) as [H|H].
  - rewrite (Z.div_small n 32), (Z.mod_small n 32) by lia. cbn [Z.eqb].
    rewrite <-(Z.mod_pow2_bits_low _ 32 n) by lia. f_equal. rewrite (Z.mul_comm (2 ^ 32)), Z_mod_plus_full. apply Z.mod_small. lia.
  - assert (n / 32 = (n - 32) / 32 + 1 /\ n mod 32 = (n - 32) mod 32) as [E1 E2].
    { pose proof (Z_div_plus_full (n - 32) 1 32). pose proof (Z_mod_plus_full (n - 32) 1 32).
      replace (n - 32 + 1 * 32) with n in * by lia. lia. }
    assert (0 <= (n - 32) / 32) by (apply Z.div_pos; lia).
    rewrite E1, E2. destruct (Z.eqb_spec ((n - 32) / 32 + 1) 0); [lia|]. rewrite Z.add_simpl_r, <-Hx by lia.
    replace x with ((d + 2 ^ 32 * x) / 2 ^ 32) at 2.
    + rewrite Z.div_pow2_bits by lia. f_equal. lia.
    + rewrite (Z.mul_comm (2 ^ 32)), Z_div_plus_full by lia. rewrite Z.div_small; lia.
Qed.

Lemma words_mod x w w' : (forall i, 0 <= i -> w i mod 2 ^ 32 = w' i mod 2 ^ 32) -> words x w -> words x w'.
Proof.
  intros E Hx n Hn. rewrite (Hx n Hn). pose proof (Z.mod_pos_bound n 32).
  rewrite <-(Z.mod_pow2_bits_low (w _) 32), <-(Z.mod_pow2_bits_low (w' _) 32) by lia. rewrite E; [done|]. apply Z.div_pos; lia.
Qed.

(** ** Digits *)

Fixpoint magnitude (l : list Z) : Z :=
  match l with [] => 0 | d :: l => d mod 2 ^ 32 + 2 ^ 32 * magnitude l end.

Definition at_ (l : list Z) (i : Z) : Z := default 0 (l !! Z.to_nat i).

Lemma at_cons d l i : 0 <= i -> at_ (d :: l) i = if i =? 0 then d else at_ l (i - 1).
Proof.
  intros H. unfold at_. destruct (Z.eqb_spec i 0) as [->|Hi]; [done|].
  replace (Z.to_nat i) with (S (Z.to_nat (i - 1))) by lia. done.
Qed.

Lemma at_beyond l i : Z.of_nat (length l) <= i -> at_ l i = 0.
Proof. intros H. unfold at_. by rewrite lookup_ge_None_2 by lia. Qed.

Lemma at_some l i : 0 <= i < Z.of_nat (length l) -> l !! Z.to_nat i = Some (at_ l i).
Proof. intros H. destruct (lookup_lt_is_Some_2 l (Z.to_nat i)) as [d Hd]; [lia|]. unfold at_. by rewrite Hd. Qed.

Lemma at_insert l i x k : 0 <= i < Z.of_nat (length l) -> 0 <= k ->
  at_ (<[Z.to_nat i := x]> l) k = if k =? i then x else at_ l k.
Proof.
  intros Hi Hk. unfold at_. destruct (Z.eqb_spec k i) as [->|Hne].
  - by rewrite list_lookup_insert_eq by lia.
  - by rewrite list_lookup_insert_ne by lia.
Qed.

Lemma at_replicate n k : at_ (replicate n 0) k = 0.
Proof. unfold at_. destruct (replicate n 0 !! Z.to_nat k) eqn:E; [|done]. by apply lookup_replicate in E as [-> _]. Qed.

Lemma magnitude_nonneg l : 0 <= magnitude l.
Proof. induction l as [|d l IH]; cbn [magnitude]; [lia|]. pose proof (Z.mod_pos_bound d (2 ^ 32)). lia. Qed.

Lemma words_magnitude l : words (magnitude l) (at_ l).
Proof.
  induction l as [|d l IH].
  - intros n Hn. cbn [magnitude]. unfold at_. by rewrite lookup_nil, !Z.bits_0.
  - cbn [magnitude]. eapply words_mod; [|apply words_cons; [apply Z.mod_pos_bound; lia|exact IH]].
    intros i Hi. cbn beta. rewrite at_cons by done. destruct (i =? 0); [by rewrite Z.mod_mod|done].
Qed.

(** The digit at [i] is the first that is not zero. *)
Definition first_at (l : list Z) (i : Z) : Prop :=
  0 <= i < Z.of_nat (length l) /\ (forall k, 0 <= k < i -> at_ l k = 0) /\ at_ l i mod 2 ^ 32 <> 0.

(** Of the magnitude less one. *)
Lemma words_less_one l i : first_at l i ->
  words (magnitude l - 1) (fun k => if k <? i then -1 else if k =? i then at_ l k - 1 else at_ l k).
Proof.
  revert i. induction l as [|d l IH]; intros i (Hi & Hz & Hd); cbn [length] in Hi; [lia|]. cbn [magnitude].
  destruct (Z.eq_dec i 0) as [->|Hne].
  - rewrite at_cons in Hd by lia. cbn in Hd. replace (d mod 2 ^ 32 + 2 ^ 32 * magnitude l - 1) with ((d mod 2 ^ 32 - 1) + 2 ^ 32 * magnitude l) by lia.
    pose proof (Z.mod_pos_bound d (2 ^ 32)).
    eapply words_mod; [|apply words_cons; [lia|apply words_magnitude]]. intros k Hk. cbn beta. rewrite at_cons by done.
    destruct (Z.ltb_spec k 0); [lia|]. destruct (k =? 0); [|done]. by rewrite Zminus_mod_idemp_l.
  - pose proof (Hz 0 ltac:(lia)) as H0. rewrite at_cons in H0 by lia. cbn in H0. subst d.
    replace (0 mod 2 ^ 32 + 2 ^ 32 * magnitude l - 1) with ((2 ^ 32 - 1) + 2 ^ 32 * (magnitude l - 1)) by (change (0 mod 2 ^ 32) with 0; lia).
    eapply words_mod; [|apply words_cons; [lia|apply (IH (i - 1))]].
    + intros k Hk. cbn beta. rewrite at_cons by done. destruct (Z.eqb_spec k 0) as [->|Hk0].
      * destruct (Z.ltb_spec 0 i); [done|lia].
      * replace (k - 1 <? i - 1) with (k <? i) by lia. replace (k - 1 =? i - 1) with (k =? i) by lia. done.
    + split; [lia|]. split.
      * intros k Hk. specialize (Hz (k + 1) ltac:(lia)). rewrite at_cons in Hz by lia.
        destruct (Z.eqb_spec (k + 1) 0); [lia|]. by rewrite Z.add_simpl_r in Hz.
      * rewrite at_cons in Hd by lia. by destruct (Z.eqb_spec i 0); [lia|].
Qed.

(** Two's complement. *)
Definition complement (l : list Z) (i k : Z) : Z :=
  if k <? i then 0 else if k =? i then - at_ l k else Z.lnot (at_ l k).

Lemma words_opposite l i : first_at l i -> words (- magnitude l) (complement l i).
Proof.
  intros H. apply words_less_one, words_lnot in H. replace (Z.lnot (magnitude l - 1)) with (- magnitude l) in H by (unfold Z.lnot; lia).
  eapply words_ext; [|exact H]. intros k Hk. cbn beta. unfold complement.
  destruct (k <? i); [done|]. destruct (k =? i); [|done]. unfold Z.lnot. lia.
Qed.

(** ** Words that have an opposite

    The opposite of the first word that is not zero is an [int], that is, the
    number of zeros at the end is not 31 in the last word that has any. *)
Definition tame (x : Z) : Prop :=
  forall n, 0 <= n -> Z.testbit x n = true -> (forall m, 0 <= m < n -> Z.testbit x m = false) -> n mod 32 <> 31.

Lemma tame_word x w i : words x w -> 0 <= i -> (forall k, 0 <= k < i -> w k = 0) -> tame x -> w i mod 2 ^ 32 <> 2 ^ 31.
Proof.
  intros Hx Hi Hz Ht E.
  assert (forall m, 0 <= m < 32 -> Z.testbit (w i) m = (m =? 31)) as Hb.
  { intros m Hm. rewrite <-(Z.mod_pow2_bits_low _ 32) by lia. rewrite E. destruct (Z.eqb_spec m 31) as [->|].
    - by apply Z.pow2_bits_true.
    - by apply Z.pow2_bits_false. }
  assert (forall m, 0 <= m < 32 -> (32 * i + m) / 32 = i /\ (32 * i + m) mod 32 = m) as Hdm.
  { intros m Hm. rewrite (Z.mul_comm 32), Z.div_add_l, (Z.add_comm (i * 32)), Z_mod_plus_full, Z.mod_small, Z.div_small by lia. lia. }
  apply (Ht (32 * i + 31)); [lia| | |].
  - rewrite Hx by lia. destruct (Hdm 31) as [-> ->]; [lia|]. by apply Hb.
  - intros m Hm. rewrite Hx by lia. pose proof (Z.mod_pos_bound m 32 ltac:(lia)). pose proof (Z_div_mod_eq_full m 32).
    assert (0 <= m / 32) by (apply Z.div_pos; lia).
    destruct (Z.eq_dec (m / 32) i) as [Em|Hne].
    + rewrite Em, Hb by lia. apply Z.eqb_neq. lia.
    + rewrite Hz by lia. apply Z.bits_0.
  - by destruct (Hdm 31) as [_ ->]; [lia|].
Qed.

(** ** Loops *)

Notation M := (SE (list Z)).

(** It reads digits and computes. *)
Definition computes {X} (m : M X) (x : X) : Prop := forall s, m s = Some (x, s).

Lemma wp_computes {X} (m : M X) x (Q : X -> list Z -> Prop) s : computes m x -> Q x s -> wp m Q s.
Proof. intros Hm H. unfold wp. by rewrite Hm. Qed.

Lemma computes_bind {X Y} (m : M X) (f : X -> M Y) x y : computes m x -> computes (f x) y -> computes (bind m f) y.
Proof. intros Hm Hf s. unfold bind. rewrite Hm. apply Hf. Qed.

Lemma computes_at l i : 0 <= i < Z.of_nat (length l) -> computes (at_index l i) (at_ l i).
Proof.
  intros H s. unfold at_index. destruct (Z.ltb_spec i 0); [lia|]. by rewrite at_some.
Qed.

Lemma computes_int z : fits_s 32 z -> computes (int z) z.
Proof. intros H s. by apply int_fits. Qed.

Lemma wp_alloc n (Q : unit -> list Z -> Prop) s : 0 <= n -> Q tt (replicate (Z.to_nat n) 0) -> wp (alloc n) Q s.
Proof. intros Hn H. unfold alloc. destruct (Z.ltb_spec n 0); [lia|]. exact H. Qed.

Lemma wp_store_digit i x (Q : unit -> list Z -> Prop) s : 0 <= i < Z.of_nat (length s) ->
  (forall s', length s' = length s -> (forall k, 0 <= k -> at_ s' k = if k =? i then x else at_ s k) -> Q tt s') ->
  wp (store i x) Q s.
Proof.
  intros Hi H. unfold store, res, wp, bind, gets. rewrite (computes_at s i Hi). cbn.
  apply H; [apply length_insert|]. intros k Hk. by apply at_insert.
Qed.

Lemma wp_fill_digits i limit f g (Q : Z -> list Z -> Prop) s : 0 <= i -> limit <= Z.of_nat (length s) ->
  (forall k, i <= k < limit -> computes (f k) (g k)) ->
  (forall s', length s' = length s ->
     (forall k, 0 <= k -> at_ s' k = if (i <=? k) && (k <? limit) then g k else at_ s k) -> Q (Z.max i limit) s') ->
  wp (fill i limit f) Q s.
Proof.
  unfold fill. remember (Z.to_nat (limit - i)) as n eqn:En. revert i s En. induction n as [|n IH]; intros i s En Hi Hl Hf HQ; cbn [fill_n].
  - replace i with (Z.max i limit) by lia. apply HQ; [done|]. intros k Hk.
    destruct (Z.leb_spec i k), (Z.ltb_spec k limit); try lia; done.
  - apply wp_bind. apply (wp_computes _ (g i)); [apply Hf; lia|]. apply wp_bind, wp_store_digit; [lia|]. intros s1 E1 H1.
    apply IH; [lia|lia|lia|intros k Hk; apply Hf; lia|]. intros s2 E2 H2. replace (Z.max (i + 1) limit) with (Z.max i limit) by lia.
    apply HQ; [congruence|]. intros k Hk. rewrite H2, H1 by done.
    destruct (Z.leb_spec (i + 1) k), (Z.leb_spec i k), (Z.ltb_spec k limit), (Z.eqb_spec k i); cbn [andb]; try lia; congruence.
Qed.

(** The loop stops at a digit that is not zero or at the limit. *)
Lemma wp_skip i limit f g (Q : Z * Z -> list Z -> Prop) s : 0 <= i ->
  (forall k, i <= k < limit -> computes (f k) (g k)) ->
  (forall j d, i <= j <= Z.max i limit -> (forall k, i <= k < j -> g k = 0) ->
     (d = 0 /\ j = Z.max i limit \/ j < limit /\ d = g j /\ d <> 0) -> Q (j, d) s) ->
  wp (skip i limit 0 f) Q s.
Proof.
  unfold skip. remember (Z.to_nat (limit - i)) as n eqn:En. revert i En. induction n as [|n IH]; intros i En Hi Hf HQ; cbn [skip_n].
  - apply HQ; [lia|lia|left; lia].
  - apply wp_bind. apply (wp_computes _ (g i)); [apply Hf; lia|]. destruct (Z.eqb_spec (g i) 0) as [E|E].
    + rewrite E. apply IH; [lia|lia|intros k Hk; apply Hf; lia|]. intros j d Hj Hz Hd. apply HQ; [lia| |].
      * intros k Hk. destruct (Z.eq_dec k i) as [->|]; [done|]. apply Hz. lia.
      * destruct Hd as [[? ?]|?]; [left; lia|by right].
    + apply HQ; [lia|lia|]. right. split; [lia|done].
Qed.

Lemma computes_first_not x l i : 0 <= i < Z.of_nat (length l) -> (forall k, 0 <= k < i -> at_ l k = x) -> at_ l i <> x ->
  computes (known (first_not x l)) i.
Proof.
  intros Hi Hz Hx s. enough (first_not x l = Some i) as -> by done. revert i Hi Hz Hx.
  induction l as [|d l IH]; intros i Hi Hz Hx; cbn [length first_not] in *; [lia|].
  rewrite at_cons in Hx by lia. destruct (Z.eqb_spec i 0) as [->|Hne].
  - by destruct (Z.eqb_spec d x).
  - pose proof (Hz 0 ltac:(lia)) as H0. rewrite at_cons in H0 by lia. cbn in H0. rewrite H0, Z.eqb_refl.
    rewrite (IH (i - 1)); [cbn; f_equal; lia|lia| |done].
    intros k Hk. specialize (Hz (k + 1) ltac:(lia)). rewrite at_cons in Hz by lia.
    destruct (Z.eqb_spec (k + 1) 0); [lia|]. by rewrite Z.add_simpl_r in Hz.
Qed.

(** ** Objects and their integers *)

(** What BoringSSL documents of its functions. *)
Fixpoint little_endian (bytes : list Z) : Z := match bytes with [] => 0 | b :: bytes => b + 256 * little_endian bytes end.
Definition is_byte (b : Z) : Prop := 0 <= b < 256.

Class BNLaws (N : Type) `{!BN N} := {
  bn : N -> Z;
  bn_cmp a b : BN_cmp a b = 0 <-> bn a = bn b;
  bn_set_u64 z : 0 <= z < 2 ^ 64 -> bn (BN_set_u64 z) = z;
  bn_set_negative a neg : bn (BN_set_negative a neg) = if neg then - Z.abs (bn a) else Z.abs (bn a);
  bn_is_zero a : BN_is_zero a = (bn a =? 0);
  bn_is_negative a : BN_is_negative a = (bn a <? 0);
  bn_num_bytes a : 0 <= BN_num_bytes a /\ Z.abs (bn a) < 256 ^ BN_num_bytes a;
  bn_le2bn bytes : Forall is_byte bytes -> bn (BN_le2bn bytes) = little_endian bytes;
  bn_bn2le n a : 0 <= n -> Z.abs (bn a) < 256 ^ n ->
    exists bytes, BN_bn2le_padded n a = Some bytes /\ Z.of_nat (length bytes) = n /\ Forall is_byte bytes /\
                  little_endian bytes = Z.abs (bn a)
}.

(** Arrays of [int]s. *)
Definition ints (l : list Z) : Prop := forall k, 0 <= k -> fits_s 32 (at_ l k).

Lemma fits_zero : fits_s 32 0.
Proof. unfold fits_s. lia. Qed.

Lemma fits_land a b : fits_s 32 a -> fits_s 32 b -> fits_s 32 (Z.land a b).
Proof. apply (fits_s_bitwise 32 Z.land); [lia|tauto]. Qed.
Lemma fits_lor a b : fits_s 32 a -> fits_s 32 b -> fits_s 32 (Z.lor a b).
Proof. apply (fits_s_bitwise 32 Z.lor); [lia|tauto]. Qed.
Lemma fits_lxor a b : fits_s 32 a -> fits_s 32 b -> fits_s 32 (Z.lxor a b).
Proof. apply (fits_s_bitwise 32 Z.lxor); [lia|tauto]. Qed.
Lemma fits_lnot a : fits_s 32 a -> fits_s 32 (Z.lnot a).
Proof. unfold fits_s, Z.lnot. lia. Qed.

Lemma fits_mod_zero d : fits_s 32 d -> d mod 2 ^ 32 = 0 -> d = 0.
Proof. unfold fits_s. intros H E. apply Z.mod_divide in E as [q ->]; [|done]. lia. Qed.

Section Objects.
Context {N : Type} `{!BN N} `{!BNLaws N}.
Notation BigInteger := (BigInteger N).
Implicit Types (v r : BigInteger) (x z i j : Z) (l s : list Z) (T : Z -> Z).

(** The digits of the object are those of [x], without leading zeros. *)
Record canonical v x : Prop := {
  c_valid : mIsValid v = true;
  c_length : 0 < mNumberLength v <= Z.of_nat (length (mDigits v));
  c_ints : ints (mDigits v);
  c_tail : forall k, mNumberLength v <= k -> at_ (mDigits v) k = 0;
  c_top : x <> 0 -> at_ (mDigits v) (mNumberLength v - 1) <> 0;
  c_sign : mSign v = Z.sgn x;
  c_magnitude : magnitude (mDigits v) = Z.abs x;
  c_native : forall n, mBigInt v = Some n -> bn n = x
}.

(** The object stands for [x], by digits or as a number of BoringSSL's. *)
Definition stands v x : Prop :=
  if mIsValid v then canonical v x
  else exists n, mBigInt v = Some n /\ bn n = x.

Lemma drop_zeros_spec l n : (n <= length l)%nat -> (0 < n)%nat ->
  exists k, drop_zeros n l = Some k /\ (k < n)%nat /\ (forall i, Z.of_nat k < i < Z.of_nat n -> at_ l i = 0) /\
            (at_ l (Z.of_nat k) <> 0 \/ k = O).
Proof.
  induction n as [|n IH]; intros Hl Hn; [lia|]. cbn [drop_zeros].
  pose proof (at_some l (Z.of_nat n) ltac:(lia)) as E. rewrite Nat2Z.id in E. rewrite E. cbn [mbind option_bind].
  destruct (Z.eqb_spec (at_ l (Z.of_nat n)) 0) as [E0|Hne].
  - destruct n as [|n].
    + exists O. split; [done|]. split; [lia|]. split; [lia|by right].
    + destruct IH as (k & Ek & Hk & Hz & Ht); [lia|lia|]. exists k. split; [done|]. split; [lia|]. split; [|done].
      intros i Hi. destruct (Z.eq_dec i (Z.of_nat (S n))) as [->|]; [done|]. apply Hz. lia.
  - exists n. split; [done|]. split; [lia|]. split; [lia|by left].
Qed.

Lemma magnitude_zero l : ints l -> (forall k, 0 <= k -> at_ l k = 0) <-> magnitude l = 0.
Proof.
  intros Hi. split; intros H.
  - apply (words_eq _ _ (at_ l)); [apply words_magnitude|]. intros n Hn. rewrite H by (apply Z.div_pos; lia). by rewrite !Z.bits_0.
  - intros k Hk. apply fits_mod_zero; [by apply Hi|]. apply Z.bits_inj'. intros n Hn. rewrite Z.bits_0.
    destruct (Z.lt_ge_cases n 32) as [Hlt|Hge]; [|by rewrite Z.mod_pow2_bits_high by lia].
    rewrite Z.mod_pow2_bits_low by lia. pose proof (words_magnitude l (32 * k + n) ltac:(lia)) as Hw. rewrite H, Z.bits_0 in Hw.
    rewrite (Z.mul_comm 32), Z.div_add_l, (Z.add_comm (k * 32)), Z_mod_plus_full, Z.mod_small, Z.div_small, Z.add_0_r in Hw by lia. done.
Qed.

(** A sign and digits with zeros in front, cut off. *)
Lemma SetRepresentation_spec sign n l v : (sign = 1 \/ sign = -1) -> 0 < n <= Z.of_nat (length l) -> ints l ->
  (forall k, n <= k -> at_ l k = 0) -> (forall a, mBigInt v = Some a -> bn a = sign * magnitude l) ->
  exists r, SetRepresentation sign n l v = Some r /\ canonical r (sign * magnitude l) /\
            mFirstNonzeroDigit r = mFirstNonzeroDigit v.
Proof.
  intros Hs Hn Hi Ht Hv. destruct (drop_zeros_spec l (Z.to_nat n)) as (k & Ek & Hk & Hz & Htop); [lia|lia|].
  unfold SetRepresentation. rewrite Ek. cbn [mbind option_bind].
  pose proof (at_some l (Z.of_nat k) ltac:(lia)) as E. rewrite Nat2Z.id in E. rewrite E.
  eexists. split; [done|]. split; [|done]. pose proof (magnitude_nonneg l).
  assert (forall i, Z.of_nat k < i -> at_ l i = 0) as Hz'.
  { intros i Hi'. destruct (Z.lt_ge_cases i n); [apply Hz; lia|by apply Ht]. }
  assert (at_ l (Z.of_nat k) = 0 <-> magnitude l = 0) as H0.
  { rewrite <-magnitude_zero by done. split; [|intros H'; apply H'; lia]. intros Hk0. destruct Htop as [Hne| ->]; [done|].
    intros i Hi'. destruct (Z.eq_dec i 0) as [->|]; [done|]. apply Hz'. lia. }
  constructor; cbn [mIsValid mDigits mNumberLength mSign mBigInt mFirstNonzeroDigit]; try done.
  - lia.
  - intros i Hi'. apply Hz'. lia.
  - intros Hne. replace (Z.of_nat k + 1 - 1) with (Z.of_nat k) by lia. intros E0. apply H0 in E0. lia.
  - destruct (Z.eqb_spec (at_ l (Z.of_nat k)) 0) as [E0|E0].
    + apply H0 in E0. rewrite E0, Z.mul_0_r. done.
    + assert (magnitude l <> 0) by tauto. destruct Hs as [->| ->]; lia.
  - destruct Hs as [->| ->]; lia.
Qed.

(** *** From and to BoringSSL's numbers *)

Lemma little_endian_app a b : little_endian (a ++ b) = little_endian a + 256 ^ Z.of_nat (length a) * little_endian b.
Proof.
  induction a as [|x a IH]; [cbn; lia|]. cbn [little_endian app length]. rewrite IH, Nat2Z.inj_succ, Z.pow_succ_r by lia. lia.
Qed.

Lemma bytes_of_spec d : Forall is_byte (bytes_of d) /\ little_endian (bytes_of d) = d mod 2 ^ 32.
Proof.
  split; [unfold bytes_of, is_byte; repeat constructor; apply Z.mod_pos_bound; lia|].
  unfold bytes_of. cbn [little_endian]. change (2 ^ 32) with 4294967296. Z.div_mod_to_equations. lia.
Qed.

Lemma bytes_of_digits l : Forall is_byte (l ≫= bytes_of) /\ little_endian (l ≫= bytes_of) = magnitude l.
Proof.
  induction l as [|d l [IH1 IH2]]; [done|]. rewrite bind_cons. destruct (bytes_of_spec d) as [H1 H2].
  split; [by apply Forall_app|]. rewrite little_endian_app, H2, IH2. done.
Qed.

Lemma integers_of_spec n bytes : length bytes = (4 * n)%nat -> Forall is_byte bytes ->
  length (integers_of bytes) = n /\ ints (integers_of bytes) /\ magnitude (integers_of bytes) = little_endian bytes.
Proof.
  revert bytes. induction n as [|n IH]; intros bytes Hl Hb.
  - destruct bytes; [|done]. split; [done|]. split; [|done]. intros k _. apply fits_zero.
  - destruct bytes as [|b0 [|b1 [|b2 [|b3 bytes]]]]; cbn [length] in Hl; try lia.
    apply Forall_cons in Hb as [H0 [H1 [H2 [H3 Hb]%Forall_cons]%Forall_cons]%Forall_cons].
    destruct (IH bytes) as (E1 & E2 & E3); [lia|done|]. cbn [integers_of]. split; [cbn; by rewrite E1|]. split.
    + intros k Hk. rewrite at_cons by done. destruct (Z.eqb_spec k 0); [by apply wrap_s_fits|apply E2; lia].
    + cbn [magnitude little_endian]. rewrite wrap_s_mod, E3 by lia. unfold is_byte in *. rewrite Z.mod_small by lia. lia.
Qed.

Lemma GetBigInt_spec v x : stands v x -> bn (GetBigInt v) = x.
Proof.
  unfold stands, GetBigInt. destruct (mIsValid v); intros Hv.
  - destruct (mBigInt v) as [n|] eqn:E; [by apply (c_native v x Hv)|]. unfold PutLittleEndianIntegers.
    destruct (bytes_of_digits (mDigits v)) as [H1 H2]. rewrite bn_set_negative, bn_le2bn, H2, (c_magnitude v x Hv), (c_sign v x Hv) by done.
    destruct (Z.ltb_spec (Z.sgn x) 0); lia.
  - destruct Hv as (n & -> & <-). done.
Qed.

Lemma Equals_stands v w x y : stands v x -> stands w y -> Equals v w = (x =? y).
Proof.
  intros Hv Hw. unfold Equals, CompareTo. apply eq_true_iff_eq. rewrite !Z.eqb_eq, bn_cmp.
  by rewrite (GetBigInt_spec v x Hv), (GetBigInt_spec w y Hw).
Qed.

Lemma canonical_stands v x : canonical v x -> stands v x.
Proof. intros Hv. unfold stands. by rewrite (c_valid v x Hv). Qed.

Lemma CreateBigInteger_spec sign value : 0 <= value < 2 ^ 64 ->
  stands (CreateBigInteger sign value) (if sign <? 0 then - value else value).
Proof.
  intros Hv. unfold stands, CreateBigInteger. cbn. eexists. split; [done|].
  rewrite bn_set_negative. change 18446744073709551616 with (2 ^ 64). rewrite Z.mod_small, bn_set_u64 by done. destruct (sign <? 0); lia.
Qed.

Lemma ZERO_spec : stands ZERO 0.
Proof. apply (CreateBigInteger_spec 0 0). lia. Qed.

Lemma MINUS_ONE_spec : stands MINUS_ONE (-1).
Proof. apply (CreateBigInteger_spec (-1) 1). lia. Qed.

Lemma PrepareRepresentation_spec v x : stands v x ->
  exists v', PrepareRepresentation v = Some v' /\ canonical v' x /\ mFirstNonzeroDigit v' = mFirstNonzeroDigit v.
Proof.
  unfold stands, PrepareRepresentation. destruct (mIsValid v) eqn:Ev; [by exists v|]. intros (n & En & Ex). rewrite En. cbn [mbind option_bind].
  assert (BigInt_Sign n = Z.sgn x) as ->.
  { unfold BigInt_Sign. rewrite bn_is_zero, bn_is_negative, Ex. destruct (Z.eqb_spec x 0), (Z.ltb_spec x 0); lia. }
  destruct (Z.eqb_spec (Z.sgn x) 0) as [E0|E0]; cbn [negb mbind option_bind].
  - assert (x = 0) as -> by lia. destruct (SetRepresentation_spec 1 1 [0] v) as (r & Er & Hr & Hf).
    + by left.
    + cbn. lia.
    + intros k Hk. rewrite at_cons by done. destruct (k =? 0); apply fits_zero.
    + intros k Hk. apply at_beyond. done.
    + intros a Ea. change (1 * magnitude [0]) with 0. congruence.
    + eexists. split; [|by split; [exact Hr|]]. unfold SetRepresentation in *. cbn in Er |- *. exact Er.
  - destruct (bn_num_bytes n) as [Hn Hlt]. unfold LittleEndianIntegersMagnitude. set (intLen := (BN_num_bytes n + 3) / 4).
    assert (BN_num_bytes n <= intLen * 4 < BN_num_bytes n + 4) as Hlen.
    { unfold intLen. pose proof (Z_div_mod_eq_full (BN_num_bytes n + 3) 4). pose proof (Z.mod_pos_bound (BN_num_bytes n + 3) 4 ltac:(lia)). lia. }
    destruct (bn_bn2le (intLen * 4) n) as (bytes & Eb & Hl & Hb & Hv); [lia| |].
    { eapply Z.lt_le_trans; [exact Hlt|]. apply Z.pow_le_mono_r; lia. }
    rewrite Eb. cbn [fmap option_fmap option_map mbind option_bind].
    destruct (integers_of_spec (Z.to_nat intLen) bytes) as (E1 & E2 & E3); [lia|done|].
    assert (0 < intLen) as Hpos.
    { destruct (Z.lt_ge_cases 0 intLen); [done|]. assert (BN_num_bytes n = 0) as Ez by lia. rewrite Ez in Hlt. cbn in Hlt. lia. }
    destruct (SetRepresentation_spec (Z.sgn x) (Z.of_nat (length (integers_of bytes))) (integers_of bytes) v) as (r & Er & Hr & Hf).
    + lia.
    + lia.
    + done.
    + intros k Hk. by apply at_beyond.
    + intros a Ea. assert (a = n) as -> by congruence. rewrite E3, Hv, Ex. lia.
    + exists r. split; [done|]. split; [|done]. rewrite E3, Hv, Ex in Hr. by replace (Z.sgn x * Z.abs x) with x in Hr by lia.
Qed.

End Objects.

End BigIntegerProofs.

Module LogicalProofs.

Import BigInteger Logical BigIntegerProofs.

(** Equal bit by bit. *)
Ltac bits :=
  repeat match goal with |- context [?b - 1] => replace (b - 1) with (Z.lnot (- b)) by (unfold Z.lnot; lia) end;
  apply Z.bits_inj'; let m := fresh "m" in let Hm := fresh "Hm" in intros m Hm;
  repeat first [rewrite Z.land_spec|rewrite Z.lor_spec|rewrite Z.lxor_spec|rewrite Z.lnot_spec by lia|rewrite Z.bits_0|rewrite Z.bits_m1 by lia];
  repeat match goal with |- context [Z.testbit ?a m] => destruct (Z.testbit a m) end; reflexivity.

(** Cases by where an index is. *)
Ltac cases :=
  repeat (match goal with
          | |- context [?a <? ?b] => destruct (Z.ltb_spec a b)
          | |- context [?a <=? ?b] => destruct (Z.leb_spec a b)
          | |- context [?a =? ?b] => destruct (Z.eqb_spec a b)
          end; cbn [andb]; try lia).

Section Proofs.
Context {N : Type} `{!BN N} `{!BNLaws N}.
Notation BigInteger := (BigInteger N).
Notation M := (SE (list Z)).
Implicit Types (v r : BigInteger) (x y z : Z) (s : list Z) (T : Z -> Z).

(** [m] returns an object that stands for [z]; [F] is what holds of its cache. *)
Definition yields (F : Z -> Prop) (m : M BigInteger) z : Prop :=
  forall s, wp m (fun r _ => stands r z /\ F (mFirstNonzeroDigit r)) s.

Section Results.
Variable F : Z -> Prop.
Hypothesis F0 : F 0.
Notation returned z := (fun (r : BigInteger) (_ : list Z) => stands r z /\ F (mFirstNonzeroDigit r)).

Lemma SetRepresentation_result sign n s z : (sign = 1 \/ sign = -1) -> 0 < n <= Z.of_nat (length s) -> ints s ->
  (forall k, n <= k -> at_ s k = 0) -> sign * magnitude s = z -> wp (New sign n) (returned z) s.
Proof using F0.
  intros Hs Hn Hi Ht <-. destruct (SetRepresentation_spec sign n s new_BigInteger) as (r & Er & Hr & Hf); try done.
  unfold wp, New, bind, gets. rewrite Er. cbn. split; [by apply canonical_stands|by rewrite Hf].
Qed.

Lemma New_positive n s z T : 0 < n <= Z.of_nat (length s) -> (forall k, n <= k -> at_ s k = 0) -> words z T ->
  (forall k, 0 <= k -> fits_s 32 (T k)) -> (forall k, 0 <= k -> at_ s k = T k) -> wp (New 1 n) (returned z) s.
Proof using F0.
  intros Hn Ht Hz Hf HT. apply SetRepresentation_result; [by left|done| |done|].
  - intros k Hk. rewrite HT by done. by apply Hf.
  - rewrite Z.mul_1_l. apply (words_eq _ _ T); [|done]. apply (words_ext _ (at_ s)); [done|apply words_magnitude].
Qed.

(** The words are zeros, the opposite of a digit, and inverses of digits. *)
Lemma New_negative n s z T j : 0 <= j < n -> n <= Z.of_nat (length s) -> (forall k, n <= k -> at_ s k = 0) -> words z T ->
  (forall k, 0 <= k -> fits_s 32 (T k)) -> (forall k, 0 <= k < j -> at_ s k = 0 /\ T k = 0) ->
  at_ s j = - T j -> T j <> 0 -> tame z -> (forall k, j < k -> at_ s k = Z.lnot (T k)) -> wp (New (-1) n) (returned z) s.
Proof using F0.
  intros Hj Hn Ht Hz Hf Hlow Hat Hne Htame Hhigh.
  assert (fits_s 32 (- T j)) as Hfj.
  { pose proof (Hf j ltac:(lia)) as H. pose proof (tame_word z T j Hz ltac:(lia) (fun k Hk => proj2 (Hlow k Hk)) Htame) as H'.
    assert (T j <> - 2 ^ 31) by (intros E; apply H'; by rewrite E). unfold fits_s in *. lia. }
  apply SetRepresentation_result; [by right|lia| |done|].
  - intros k Hk. destruct (Z.lt_total k j) as [Hlt|[->|Hgt]].
    + destruct (Hlow k) as [-> _]; [lia|apply fits_zero].
    + by rewrite Hat.
    + rewrite Hhigh by done. by apply fits_lnot, Hf.
  - replace (-1 * magnitude s) with (- magnitude s) by lia. apply (words_eq _ _ T); [|done].
    eapply words_ext; [|apply (words_opposite s j)].
    + intros k Hk. unfold complement. destruct (Z.ltb_spec k j); [by destruct (Hlow k)|].
      destruct (Z.eqb_spec k j) as [->|]; [rewrite Hat; lia|]. rewrite Hhigh by lia. by rewrite Z.lnot_involutive.
    + split; [lia|]. split; [intros k Hk; by apply Hlow|]. intros E. rewrite Hat in E. apply fits_mod_zero in E; [lia|done].
Qed.

End Results.

(** ** Operands *)

(** Where the search for the first digit that is not zero ends: no such digit is before. *)
Definition indexed v (i : Z) : Prop :=
  computes (GetFirstNonzeroDigit v) i /\ 0 <= i < mNumberLength v /\ forall k, 0 <= k < i -> at_ (mDigits v) k = 0.
Definition exact v (i : Z) : Prop := at_ (mDigits v) i <> 0.

Lemma first_other c l (n : nat) : (exists i, 0 <= i < Z.of_nat n /\ (forall k, 0 <= k < i -> at_ l k = c) /\ at_ l i <> c) \/
  (forall k, 0 <= k < Z.of_nat n -> at_ l k = c).
Proof.
  induction n as [|n [(i & Hi & Hz & He)|IH]]; [right; lia|left; exists i; split; [lia|done]|].
  destruct (Z.eq_dec (at_ l (Z.of_nat n)) c) as [E|E]; [right|left].
  - intros k Hk. destruct (Z.eq_dec k (Z.of_nat n)) as [->|]; [done|]. apply IH. lia.
  - exists (Z.of_nat n). split; [lia|done].
Qed.

(** The digits before the first that is not zero. *)
Definition lowest v (i : Z) : Prop :=
  0 <= i < mNumberLength v /\ (forall k, 0 <= k < i -> at_ (mDigits v) k = 0) /\ exact v i.

Lemma lowest_exists v x : canonical v x -> x <> 0 -> exists i, lowest v i.
Proof.
  intros Hv Hx. pose proof (c_top v x Hv Hx) as Htop. pose proof (c_length v x Hv) as Hl.
  destruct (first_other 0 (mDigits v) (Z.to_nat (mNumberLength v))) as [(i & Hi & Hz & He)|Hz].
  - exists i. split; [lia|done].
  - destruct Htop. apply Hz. lia.
Qed.

(** The cache as the search expects it, or as it is. *)
Lemma indexed_search v x : canonical v x -> x <> 0 -> mFirstNonzeroDigit v = -2 -> exists i, indexed v i /\ exact v i.
Proof.
  intros Hv Hx Hf. destruct (lowest_exists v x Hv Hx) as (i & Hi & Hz & He). exists i. split; [|done]. split; [|done].
  intros s. unfold GetFirstNonzeroDigit. rewrite Hf. cbn. destruct (Z.eqb_spec (mSign v) 0) as [E|E].
  { rewrite (c_sign v x Hv) in E. lia. }
  pose proof (c_length v x Hv). apply computes_first_not; [lia|done|done].
Qed.

Lemma indexed_cache v x : canonical v x -> mFirstNonzeroDigit v = 0 -> indexed v 0.
Proof.
  intros Hv Hf. pose proof (c_length v x Hv). split; [|split; [lia|lia]]. intros s. unfold GetFirstNonzeroDigit. by rewrite Hf.
Qed.

Lemma exact_cache v x : canonical v x -> x mod 2 ^ 32 <> 0 -> exact v 0.
Proof.
  unfold exact. intros Hv Hx E. apply Hx. pose proof (c_magnitude v x Hv) as Hm. revert E Hm. destruct (mDigits v) as [|d l]; intros E Hm.
  - cbn in Hm. assert (x = 0) as -> by lia. done.
  - rewrite at_cons in E by lia. cbn in E. subst d. cbn [magnitude] in Hm. change (0 mod 2 ^ 32) with 0 in Hm.
    apply Z.mod_divide; [done|]. exists (Z.sgn x * magnitude l). nia.
Qed.

Lemma computes_digit v x k : canonical v x -> 0 <= k < mNumberLength v -> computes (digit v k) (at_ (mDigits v) k).
Proof. intros Hv Hk. pose proof (c_length v x Hv). apply computes_at. lia. Qed.

Lemma words_positive v x : canonical v x -> 0 < x -> words x (at_ (mDigits v)).
Proof. intros Hv Hx. replace x with (magnitude (mDigits v)) by (rewrite (c_magnitude v x Hv); lia). apply words_magnitude. Qed.

Lemma words_negative v x i : canonical v x -> x < 0 -> lowest v i -> words x (complement (mDigits v) i).
Proof.
  intros Hv Hx (Hi & Hz & He). replace x with (- magnitude (mDigits v)) by (rewrite (c_magnitude v x Hv); lia).
  pose proof (c_length v x Hv). apply words_opposite. split; [lia|]. split; [done|]. intros E. apply He.
  apply fits_mod_zero; [|done]. apply (c_ints v x Hv). lia.
Qed.

(** The negation of the first digit of a tame number. *)
Lemma opposite_fits v x i : canonical v x -> x < 0 -> lowest v i -> tame x -> fits_s 32 (- at_ (mDigits v) i).
Proof.
  intros Hv Hx Hl Ht. pose proof Hl as (Hi & Hz & He). pose proof (c_ints v x Hv i) as Hfit.
  assert (at_ (mDigits v) i <> - 2 ^ 31) as Hne; [|specialize (Hfit ltac:(lia)); unfold fits_s in *; lia].
  intros E. apply (tame_word x _ i (words_negative v x i Hv Hx Hl)); [lia| |done|].
  - intros k Hk. unfold complement. by destruct (Z.ltb_spec k i); [|lia].
  - unfold complement. destruct (Z.ltb_spec i i); [lia|]. rewrite Z.eqb_refl, E. done.
Qed.

Lemma complement_fits v x i : canonical v x -> x < 0 -> lowest v i -> tame x ->
  forall k, 0 <= k -> fits_s 32 (complement (mDigits v) i k).
Proof.
  intros Hv Hx Hl Ht k Hk. unfold complement. destruct (k <? i); [apply fits_zero|].
  destruct (Z.eqb_spec k i) as [->|]; [by apply (opposite_fits v x i)|]. apply fits_lnot. by apply (c_ints v x Hv).
Qed.

(** ** The functions, by the signs of their operands *)

Lemma computes_minus a : fits_s 32 (- a) -> computes (minus a) (- a).
Proof. apply computes_int. Qed.

Lemma computes_less_one a : fits_s 32 a -> fits_s 32 (- a) -> computes (less_one a) (a - 1).
Proof. intros H H'. apply computes_int. unfold fits_s in *. lia. Qed.

(** What a result is to be: its words, that are [int]s. *)
Record target z T : Prop := { t_words : words z T; t_fits : forall k, 0 <= k -> fits_s 32 (T k) }.

Lemma target_first z T j : target z T -> tame z -> 0 <= j -> (forall k, 0 <= k < j -> T k = 0) -> fits_s 32 (- T j).
Proof.
  intros [Hz Hf] Ht Hj Hlow. pose proof (Hf j Hj) as H. pose proof (tame_word z T j Hz Hj Hlow Ht) as H'.
  assert (T j <> - 2 ^ 31) by (intros E; apply H'; by rewrite E). unfold fits_s in *. lia.
Qed.

Lemma wp_minus_first z T j d (Q : Z -> list Z -> Prop) s : target z T -> tame z -> 0 <= j ->
  (forall k, 0 <= k < j -> T k = 0) -> T j = d -> Q (- d) s -> wp (minus d) Q s.
Proof. intros HT Ht Hj Hlow <- HQ. eapply wp_computes; [|exact HQ]. apply computes_minus. by apply (target_first z). Qed.

Section Functions.
Variable F : Z -> Prop.
Hypothesis F0 : F 0.
Notation yields := (yields F).

Lemma ZERO_returned z : z = 0 -> stands ZERO z /\ F (mFirstNonzeroDigit (ZERO (N := N))).
Proof using F0. intros ->. split; [apply ZERO_spec|done]. Qed.

(** A number and where its search ends, for each sign. *)
Record positive v x i : Prop := {
  p_canonical : canonical v x; p_sign : 0 < x; p_indexed : indexed v i; p_returns : F (mFirstNonzeroDigit v) }.
Record negative v x i : Prop := {
  n_canonical : canonical v x; n_sign : x < 0; n_indexed : indexed v i; n_exact : exact v i; n_tame : tame x;
  n_returns : F (mFirstNonzeroDigit v) }.

(** What is known of operands. *)
Ltac know v x i Hv :=
  let Hc := fresh "Hc" in let Hsign := fresh "Hsign" in let Hidx := fresh "Hidx" in
  match type of Hv with
  | positive _ _ _ =>
      destruct Hv as [Hc Hsign Hidx ?];
      pose proof (words_positive v x Hc Hsign)
  | negative _ _ _ =>
      let He := fresh "He" in let Ht := fresh "Ht" in let Hl := fresh "Hl" in
      destruct Hv as [Hc Hsign Hidx He Ht ?];
      assert (lowest v i) as Hl by (split; [exact (proj1 (proj2 Hidx))|split; [exact (proj2 (proj2 Hidx))|exact He]]);
      pose proof (words_negative v x i Hc Hsign Hl);
      pose proof (opposite_fits v x i Hc Hsign Hl Ht);
      pose proof (complement_fits v x i Hc Hsign Hl Ht);
      unfold exact in He
  end;
  pose proof (c_length v x Hc); pose proof (c_tail v x Hc); pose proof (c_ints v x Hc);
  pose proof (fun k => computes_digit v x k Hc); pose proof (proj1 Hidx); destruct (proj2 Hidx) as [? ?].

(** The body of a loop. *)
Ltac computing :=
  intros; repeat (eapply computes_bind; [match goal with H : forall k, 0 <= k < mNumberLength ?v -> computes (digit ?v k) _ |- computes (digit ?v _) _ => apply H; lia end|]);
  first [ intros ?s; reflexivity
        | match goal with H : forall k, 0 <= k < mNumberLength ?v -> computes (digit ?v k) _ |- computes (digit ?v _) _ => apply H; lia end ].

(** Digits outside the number, and of the arrays made so far. *)
Ltac digits :=
  repeat match goal with
         | A : forall k, 0 <= k -> at_ ?s k = _ |- context [at_ ?s ?k] => rewrite (A k) by lia
         end.
Ltac outside :=
  repeat match goal with
         | H : forall k, mNumberLength ?v <= k -> at_ (mDigits ?v) k = 0 |- context [at_ (mDigits ?v) ?k] => rewrite (H k) by lia
         | H : forall k, 0 <= k < ?i -> at_ (mDigits ?v) k = 0 |- context [at_ (mDigits ?v) ?k] => rewrite (H k) by lia
         end.
(** Whether a digit is one of the number's. *)
Ltac outside_cases :=
  repeat match goal with
         | H : forall k, mNumberLength ?v <= k -> at_ (mDigits ?v) k = 0 |- context [at_ (mDigits ?v) ?k] =>
             destruct (Z.lt_ge_cases k (mNumberLength v)); [clear H|rewrite (H k) by lia]
         | H : forall k, 0 <= k < ?i -> at_ (mDigits ?v) k = 0 |- context [at_ (mDigits ?v) ?k] =>
             destruct (Z.lt_ge_cases k i); [rewrite (H k) by lia|clear H]
         end; try lia.
(** One name for every index. *)
Ltac same_digits :=
  repeat match goal with
         | |- context [at_ ?l ?a] =>
             match goal with |- context [at_ l ?b] => tryif constr_eq a b then fail else replace (at_ l b) with (at_ l a) by (f_equal; lia) end
         end.
(** What is no more of use when words are compared. *)
Ltac tidy :=
  repeat match goal with
         | H : canonical _ _ |- _ => clear H
         | H : indexed _ _ |- _ => clear H
         | H : lowest _ _ |- _ => clear H
         | H : words _ _ |- _ => clear H
         | H : target _ _ |- _ => clear H
         | H : tame _ |- _ => clear H
         | H : fits_s _ _ |- _ => clear H
         | H : F _ |- _ => clear H
         | H : ints _ |- _ => clear H
         | H : computes _ _ |- _ => clear H
         | H : forall k, 0 <= k -> fits_s _ _ |- _ => clear H
         | H : forall k, _ -> computes _ _ |- _ => clear H
         | H : forall k, 0 <= k -> at_ _ _ = _ |- _ => clear H
         | H : _ = length _ |- _ => clear H
         | H : _ = _ :> nat |- _ => clear H
         | H : ?x = ?x |- _ => clear H
         | H : 0 < mNumberLength ?v <= Z.of_nat _ |- _ => destruct H as [H _]
         end.
(** Two words are equal, or their opposites are. *)
Ltac pointwise :=
  cbn beta; digits; tidy; unfold complement; cases; subst; outside; same_digits;
  first [reflexivity|bits|apply Z.opp_inj_wd; bits|apply Z.opp_inj; rewrite Z.opp_involutive; bits|outside_cases; bits].

(** A greatest or least of two where it is known which. *)
Ltac known_max :=
  repeat match goal with
         | |- context [Z.max ?a ?b] => first [rewrite (Z.max_l a b) by lia|rewrite (Z.max_r a b) by lia]
         | |- context [Z.min ?a ?b] => first [rewrite (Z.min_l a b) by lia|rewrite (Z.min_r a b) by lia]
         end.
Ltac fits_minus :=
  match goal with
  | H : fits_s 32 (- at_ ?l ?i) |- fits_s 32 (- at_ ?l ?k) => replace k with i by lia; exact H
  | |- _ => assumption
  end.

Lemma wp_alloc' n (Q : unit -> list Z -> Prop) s : 0 <= n ->
  (forall s', Z.of_nat (length s') = n -> (forall k, 0 <= k -> at_ s' k = 0) -> Q tt s') -> wp (alloc n) Q s.
Proof. intros Hn H. apply wp_alloc; [done|]. apply H; [rewrite length_replicate; lia|]. intros k _. apply at_replicate. Qed.

Lemma zero_words z T : words z T -> (forall k, 0 <= k -> T k = 0) -> z = 0.
Proof.
  intros Hz H. apply (words_eq _ _ T Hz). apply (words_ext _ (fun _ => 0)); [intros k Hk; by rewrite H|].
  intros n Hn. by rewrite !Z.bits_0.
Qed.

(** A word of the result is zero, because digits are or by a test. *)
Ltac zero_word :=
  first [ bits
        | same_digits; bits
        | match goal with E : ?e = 0 |- _ = 0 => transitivity e; [same_digits; bits|exact E] end
        | match goal with E : forall k, _ <= k < _ -> _ = 0 |- context [at_ _ ?k] => etransitivity; [|apply (E k); lia]; cbn beta; bits end ].
Ltac low := cbn beta; tidy; unfold complement; cases; subst; outside; first [zero_word|outside_cases; zero_word].

Lemma wp_skip_end i limit d f (Q : Z * Z -> list Z -> Prop) s : limit <= i -> Q (i, d) s -> wp (skip i limit d f) Q s.
Proof. intros H HQ. unfold skip. by replace (Z.to_nat (limit - i)) with O by lia. Qed.

(** Steps of the code. *)
Ltac bstep :=
  match goal with
  | HT : target ?z ?T, Hz : tame ?z |- wp (bind (minus ?d) (fun x => bind (store ?j x) _)) _ _ =>
      apply wp_bind; first [eapply wp_computes; [apply computes_minus; fits_minus|]
                           |apply (wp_minus_first z T j); [exact HT|exact Hz|lia|intros ? ?; low|pointwise|]]
  | |- wp (bind _ _) _ _ => apply wp_bind
  | |- wp (ret _) _ _ => apply wp_ret
  | |- wp (GetFirstNonzeroDigit _) _ _ => eapply wp_computes; [eassumption|]
  | H : forall k, 0 <= k < mNumberLength ?v -> computes (digit ?v k) _ |- wp (digit ?v _) _ _ => eapply wp_computes; [apply H; lia|]
  | |- wp (alloc _) _ _ => apply wp_alloc'; [lia|intros ? ? ?]
  | |- wp (store _ _) _ _ => apply wp_store_digit; [lia|intros ? ? ?]
  | |- wp (minus _) _ _ => eapply wp_computes; [apply computes_minus; fits_minus|]
  | |- wp (less_one _) _ _ => eapply wp_computes; [apply computes_less_one; [match goal with H : ints ?l |- fits_s 32 (at_ ?l _) => apply H; lia end|fits_minus]|]
  | |- wp (skip _ _ _ _) _ _ => apply wp_skip_end; [lia|]; cbn beta iota in *
  | |- wp (skip _ _ _ _) _ _ => eapply wp_skip; [lia|computing|known_max; intros ? ? ? ? [[? ?]|[? [? ?]]]; subst; cbn beta iota in *]
  | |- wp (fill _ _ _) _ _ => eapply wp_fill_digits; [lia|lia|computing|intros ? ? ?; cbn beta in *; known_max]
  | |- wp (if ?a >=? ?b then _ else _) _ _ => destruct (Z.geb_spec a b); try lia; known_max
  | |- wp (if ?a <? ?b then _ else _) _ _ => destruct (Z.ltb_spec a b); try lia; known_max
  | |- wp (if ?a >? ?b then _ else _) _ _ => rewrite (Z.gtb_ltb a b); destruct (Z.ltb_spec b a); try lia; known_max
  | |- wp (if ?a =? ?b then _ else _) _ _ => let E := fresh "E" in destruct (Z.eqb_spec a b) as [E|E]; try lia; try rewrite !E; known_max
  | |- wp (if negb (?a =? ?b) then _ else _) _ _ => let E := fresh "E" in destruct (Z.eqb_spec a b) as [E|E]; cbn [negb]; try lia; try rewrite !E; known_max
  end.
Ltac bsteps := cbv zeta; known_max; repeat (cbn beta; bstep).

Ltac fit :=
  cbn beta; repeat first
    [ apply fits_zero | apply fits_land | apply fits_lor | apply fits_lxor | apply fits_lnot
    | match goal with
      | H : ints ?l |- fits_s 32 (at_ ?l _) => apply H; lia
      | H : forall k, 0 <= k -> fits_s 32 (complement ?l ?i k) |- fits_s 32 (complement ?l ?i _) => apply H; lia
      end ].

(** The end of a function with a result that is not negative. *)
Ltac positive_result HT :=
  eapply (New_positive F F0); [lia|intros; apply at_beyond; lia|exact HT|intros; fit|intros; pointwise].
Ltac zero_result HT :=
  apply ZERO_returned; apply (zero_words _ _ HT); intros ? ?; pointwise.

(** The result is an operand. *)
Ltac same_result HT :=
  split; [|assumption];
  match goal with Hc : canonical ?v ?x, Hx : words ?x _ |- stands ?v ?z =>
    replace z with x by (eapply words_eq; [exact Hx|eapply words_ext; [|exact HT]; intros ? ?; pointwise]); by apply canonical_stands
  end.

(** The result is negative and its first word that is not zero is at [j]. *)
Ltac not_zero :=
  cbn beta; tidy; unfold complement; cases; subst; outside; try match goal with H : _ \/ exact _ _ |- _ => unfold exact in H; destruct H; [lia|] end;
  match goal with
  | |- _ => by vm_compute
  | H : ?d <> 0 |- ?t <> 0 => replace t with d by (same_digits; bits); exact H
  | H : ?d <> 0 |- ?t <> 0 => replace t with (- d) by (same_digits; bits); clear - H; lia
  | |- Z.lor _ _ <> 0 => let E := fresh in intros E; apply Z.lor_eq_0_iff in E; lia
  end.
Ltac negative_result HT j :=
  eapply (New_negative F F0 _ _ _ _ j);
  [lia|lia|intros ? ?; apply at_beyond; lia|exact (t_words _ _ HT)|exact (t_fits _ _ HT)
  |intros ? ?; split; [pointwise|low]|pointwise|not_zero|assumption|intros ? ?; pointwise].

Ltac finish HT :=
  match goal with
  | |- stands ZERO _ /\ _ => zero_result (t_words _ _ HT)
  | |- stands _ _ /\ _ => same_result (t_words _ _ HT)
  | |- wp (New 1 _) _ _ => positive_result (t_words _ _ HT)
  | H : forall k, 0 <= k -> at_ _ k = (if k =? ?j then _ else _) |- wp (New (-1) _) _ _ => negative_result HT j
  | H : indexed _ ?j |- wp (New (-1) _) _ _ => negative_result HT j
  end.

(** A function of two operands: the words of the result are those of the operands
    combined, and every path computes them. *)
Ltac operands Hv Hw :=
  match type of Hv with _ ?v ?x ?i => know v x i Hv end;
  match type of Hw with _ ?w ?y ?j => know w y j Hw end.
Ltac op_words := first [eapply words_land|eapply words_lor|eapply words_lxor|eapply words_lnot|eassumption].
Ltac by_digits Hv Hw :=
  operands Hv Hw;
  match goal with
  | |- wp _ (fun r _ => stands r ?z /\ _) _ =>
      let HT := fresh "HT" in eassert (target z _) as HT by (constructor; [repeat op_words|intros; fit]);
      bsteps; finish HT
  end.

Lemma AddPositive_yields v w x y i j : positive v x i -> positive w y j -> yields (AddPositive v w) (Z.land x y).
Proof using F0. intros Hv Hw s. unfold AddPositive. by_digits Hv Hw. Qed.

Lemma AddDiffSigns_yields v w x y i j : positive v x i -> negative w y j -> yields (AddDiffSigns v w) (Z.land x y).
Proof using F0. intros Hv Hw s. unfold AddDiffSigns. by_digits Hv Hw. Qed.

Lemma AddNegative_yields v w x y i j : negative v x i -> negative w y j -> mNumberLength w <= mNumberLength v -> tame (Z.land x y) -> yields (AddNegative v w) (Z.land x y).
Proof using F0. intros Hv Hw ? ? s. unfold AddNegative. by_digits Hv Hw. Qed.

Lemma AddNotPositive_yields v w x y i j : positive v x i -> positive w y j -> yields (AddNotPositive v w) (Z.land x (Z.lnot y)).
Proof using F0. intros Hv Hw s. unfold AddNotPositive. by_digits Hv Hw. Qed.

Lemma AddNotPositiveNegative_yields v w x y i j : positive v x i -> negative w y j -> yields (AddNotPositiveNegative v w) (Z.land x (Z.lnot y)).
Proof using F0. intros Hv Hw s. unfold AddNotPositiveNegative. by_digits Hv Hw. Qed.

Lemma AddNotNegativePositive_yields v w x y i j : negative v x i -> positive w y j -> tame (Z.land x (Z.lnot y)) -> yields (AddNotNegativePositive v w) (Z.land x (Z.lnot y)).
Proof using F0. intros Hv Hw ? s. unfold AddNotNegativePositive. by_digits Hv Hw. Qed.

Lemma AddNotNegative_yields v w x y i j : negative v x i -> negative w y j -> yields (AddNotNegative v w) (Z.land x (Z.lnot y)).
Proof using F0. intros Hv Hw s. unfold AddNotNegative. by_digits Hv Hw. Qed.

Lemma OrPositive_yields v w x y i j : positive v x i -> positive w y j -> mNumberLength w <= mNumberLength v -> yields (OrPositive v w) (Z.lor x y).
Proof using F0. intros Hv Hw ? s. unfold OrPositive. by_digits Hv Hw. Qed.

Lemma OrNegative_yields v w x y i j : negative v x i -> negative w y j -> j <= i -> tame (Z.lor x y) -> yields (OrNegative v w) (Z.lor x y).
Proof using F0. intros Hv Hw ? ? s. unfold OrNegative. by_digits Hv Hw. Qed.

Lemma OrDiffSigns_yields v w x y i j : positive v x i -> negative w y j -> i = j \/ exact v i -> tame (Z.lor x y) -> yields (OrDiffSigns v w) (Z.lor x y).
Proof using F0. intros Hv Hw ? ? s. unfold OrDiffSigns. by_digits Hv Hw. Qed.

Lemma XorPositive_yields v w x y i j : positive v x i -> positive w y j -> mNumberLength w <= mNumberLength v -> yields (XorPositive v w) (Z.lxor x y).
Proof using F0. intros Hv Hw ? s. unfold XorPositive. by_digits Hv Hw. Qed.

Lemma XorNegative_yields v w x y i j : negative v x i -> negative w y j -> j <= i -> yields (XorNegative v w) (Z.lxor x y).
Proof using F0. intros Hv Hw ? s. unfold XorNegative. by_digits Hv Hw. Qed.

Lemma XorDiffSigns_yields v w x y i j : positive v x i -> negative w y j -> i = j \/ exact v i -> j < mNumberLength v -> tame (Z.lxor x y) -> yields (XorDiffSigns v w) (Z.lxor x y).
Proof using F0. intros Hv Hw ? ? ? s. unfold XorDiffSigns. by_digits Hv Hw. Qed.

(** *** Not *)

Lemma lnot_target v x : canonical v x -> 0 < x -> target (Z.lnot x) (fun k => Z.lnot (at_ (mDigits v) k)).
Proof.
  intros Hv Hx. constructor; [by apply words_lnot, (words_positive v x)|]. intros k Hk. by apply fits_lnot, (c_ints v x Hv).
Qed.

(** The digit that takes the carry, and those after it. *)
Lemma Not_carry v x j s : canonical v x -> 0 < x -> tame (Z.lnot x) -> 0 <= j < mNumberLength v ->
  (forall k, 0 <= k < j -> at_ (mDigits v) k = -1) -> at_ (mDigits v) j <> -1 ->
  Z.of_nat (length s) = mNumberLength v + 1 -> (forall k, 0 <= k -> at_ s k = 0) ->
  wp (e <- int (at_ (mDigits v) j + 1) ;; store j e ;;; i <- fill (j + 1) (mNumberLength v) (digit v) ;; New (- (1)) i)
    (fun r _ => stands r (Z.lnot x) /\ F (mFirstNonzeroDigit r)) s.
Proof using F0.
  intros Hv Hx Ht Hj Hlow Hne Hl Hs. pose proof (lnot_target v x Hv Hx) as HT.
  pose proof (c_length v x Hv). pose proof (c_tail v x Hv). pose proof (fun k => computes_digit v x k Hv).
  assert (fits_s 32 (at_ (mDigits v) j + 1)) as Hf.
  { replace (at_ (mDigits v) j + 1) with (- Z.lnot (at_ (mDigits v) j)) by (unfold Z.lnot; lia).
    apply (target_first _ _ j HT Ht); [lia|]. intros k Hk. by rewrite Hlow. }
  bsteps. eapply wp_computes; [by apply computes_int|]. bsteps.
  eapply (New_negative F F0 _ _ _ _ j);
    [lia|lia|intros k Hk; pointwise|exact (t_words _ _ HT)|exact (t_fits _ _ HT)| | | |done|intros k Hk; pointwise].
  - intros k Hk. split; [pointwise|]. by rewrite Hlow.
  - digits. cases. unfold Z.lnot. lia.
  - unfold Z.lnot. lia.
Qed.

(** The digit that takes the borrow, and those after it. *)
Lemma Not_borrow v x j s : canonical v x -> x < 0 -> tame x -> lowest v j ->
  Z.of_nat (length s) = mNumberLength v + 1 -> (forall k, 0 <= k -> at_ s k = 0) ->
  wp (fill 0 j (fun _ => ret (-1)) ;;; d <- digit v j ;; e <- int (d + -1) ;; store j e ;;;
      i <- fill (j + 1) (mNumberLength v) (digit v) ;; New (- (-1)) i)
    (fun r _ => stands r (Z.lnot x) /\ F (mFirstNonzeroDigit r)) s.
Proof using F0.
  intros Hv Hx Ht Hj Hl Hs. pose proof (words_lnot _ _ (words_negative v x j Hv Hx Hj)) as HT.
  pose proof (complement_fits v x j Hv Hx Hj Ht). pose proof (opposite_fits v x j Hv Hx Hj Ht).
  pose proof (c_length v x Hv). pose proof (c_tail v x Hv). pose proof (c_ints v x Hv) as Hi. pose proof (fun k => computes_digit v x k Hv).
  destruct Hj as (Hj & Hz & He).
  bsteps. eapply wp_computes; [apply (computes_less_one (at_ (mDigits v) j)); [apply Hi; lia|done]|]. bsteps.
  eapply (New_positive F F0); [lia|intros k Hk; pointwise|exact HT|intros; fit|intros k Hk; pointwise].
Qed.

Lemma Not_yields v x : canonical v x -> (x < 0 -> tame x) -> (Z.lnot x < 0 -> tame (Z.lnot x)) -> yields (Not v) (Z.lnot x).
Proof using F0.
  intros Hv Htx Htr s. pose proof (c_length v x Hv). pose proof (c_tail v x Hv).
  pose proof (fun k => computes_digit v x k Hv). pose proof (c_sign v x Hv) as Hsign. unfold Not.
  destruct (Z.eqb_spec (mSign v) 0) as [E|E].
  { assert (x = 0) as -> by lia. split; [apply MINUS_ONE_spec|done]. }
  rewrite (Equals_stands v MINUS_ONE x (-1)); [|by apply canonical_stands|apply MINUS_ONE_spec].
  destruct (Z.eqb_spec x (-1)) as [->|Hx]; [split; [apply ZERO_spec|done]|].
  destruct (Z.lt_ge_cases x 0) as [Hneg|Hpos].
  - replace (mSign v) with (-1) by lia. destruct (lowest_exists v x Hv ltac:(lia)) as (j & Hj). bsteps.
    eapply wp_computes; [apply (computes_first_not 0 _ j); [|apply Hj..]; pose proof (proj1 Hj); lia|].
    by apply (Not_borrow v x j); auto.
  - replace (mSign v) with 1 by lia. assert (tame (Z.lnot x)) as Ht by (apply Htr; unfold Z.lnot; lia).
    pose proof (lnot_target v x Hv ltac:(lia)) as HT. bsteps.
    + assert (forall k, 0 <= k < mNumberLength v -> at_ (mDigits v) k = -1) as Hones.
      { intros k Hk. match goal with H : forall k, _ <= k < _ -> _ + 1 = 0 |- _ => specialize (H k Hk) end. lia. }
      eapply (New_negative F F0 _ _ _ _ (mNumberLength v));
        [lia|lia|intros k Hk; apply at_beyond; lia|exact (t_words _ _ HT)|exact (t_fits _ _ HT)| | | |done|intros k Hk; pointwise].
      * intros k Hk. split; [pointwise|by rewrite Hones by lia].
      * pointwise.
      * cbn beta. by rewrite H0 by lia.
    + apply wp_bind_inv, (Not_carry v x); try assumption; try lia.
      intros k Hk. match goal with H : forall k, _ <= k < _ -> _ + 1 = 0 |- _ => specialize (H k Hk) end. lia.
    + destruct (first_other (-1) (mDigits v) (Z.to_nat (mNumberLength v))) as [(j & Hj & Hz & Hne)|Hz].
      * eapply wp_computes; [apply (computes_first_not (-1) _ j); [lia|done|done]|]. bsteps. apply wp_bind_inv, (Not_carry v x j); auto; lia.
      * exfalso. rewrite Hz in *; lia.
Qed.
End Functions.

(** ** The operations

    [f] is where the objects have it that the first digit that is not zero is: -2,
    which makes them search, or 0, which is where every object starts. *)

Definition found (f x : Z) : Prop := x < 0 -> tame x /\ (f = 0 -> x mod 2 ^ 32 <> 0).

(** The positive number has a word where the negative one has the first that is not zero. *)
Definition overlap (x y : Z) : Prop := 0 < x -> y < 0 -> forall m, 0 <= m -> x < 2 ^ (32 * m) -> y mod 2 ^ (32 * m) <> 0.

Lemma operand v x f : canonical v x -> x <> 0 -> mFirstNonzeroDigit v = f -> f = 0 \/ f = -2 -> found f x ->
  exists i, indexed v i /\ (f = 0 -> i = 0) /\ (f = -2 \/ x < 0 -> exact v i).
Proof.
  intros Hv Hx Hf [->| ->] Hfound.
  - exists 0. split; [by apply (indexed_cache v x)|]. split; [done|]. intros [|Hneg]; [lia|].
    apply (exact_cache v x Hv). by apply Hfound.
  - destruct (indexed_search v x Hv Hx Hf) as (i & Hi & He). exists i. split; [done|]. split; [lia|done].
Qed.

Lemma magnitude_below l n : (forall k, n <= k -> at_ l k = 0) -> 0 <= n -> magnitude l < 2 ^ (32 * n).
Proof.
  intros Ht Hn. destruct (Z.eq_dec (magnitude l) 0) as [->|]; [lia|]. pose proof (magnitude_nonneg l).
  apply Z.log2_lt_pow2; [lia|]. apply Z.nle_gt. intros Hle.
  pose proof (Z.bit_log2 (magnitude l) ltac:(lia)) as Hb. rewrite words_magnitude, Ht, Z.bits_0 in Hb; [done| |lia].
  apply Z.div_le_lower_bound; lia.
Qed.

Lemma overlap_index v w x y i : canonical v x -> canonical w y -> 0 < x -> y < 0 -> lowest w i -> overlap x y ->
  i < mNumberLength v.
Proof.
  intros Hv Hw Hx Hy Hl Ho. apply Z.nle_gt. intros Hle. pose proof (c_length v x Hv).
  apply (Ho Hx Hy (mNumberLength v)); [lia| |].
  - replace x with (magnitude (mDigits v)) by (rewrite (c_magnitude v x Hv); lia). apply magnitude_below; [apply (c_tail v x Hv)|lia].
  - apply Z.bits_inj'. intros n Hn. rewrite Z.bits_0. destruct (Z.lt_ge_cases n (32 * mNumberLength v)) as [Hlt|Hge].
    + rewrite Z.mod_pow2_bits_low by lia. rewrite (words_negative w y i Hw Hy Hl) by done. unfold complement.
      destruct (Z.ltb_spec (n / 32) i) as [_|Hge]; [apply Z.bits_0|]. pose proof (Z.mul_div_le n 32 ltac:(lia)). lia.
    + apply Z.mod_pow2_bits_high. lia.
Qed.

(** An operand is zero, or one of the numbers the functions above take. *)
Lemma sides v x f : canonical v x -> mFirstNonzeroDigit v = f -> f = 0 \/ f = -2 -> found f x ->
  x = 0 \/
  (0 < x /\ exists i, positive (fun g => g = 0 \/ g = f) v x i /\ (f = 0 -> i = 0) /\ (f = -2 -> exact v i)) \/
  (x < 0 /\ exists i, negative (fun g => g = 0 \/ g = f) v x i /\ (f = 0 -> i = 0)).
Proof.
  intros Hv Hf Hff Hfound. destruct (Z.eq_dec x 0) as [->|Hx]; [by left|right].
  destruct (operand v x f Hv Hx Hf Hff Hfound) as (i & Hi & H0 & He).
  destruct (Z.lt_ge_cases x 0) as [Hneg|Hpos]; [right|left]; (split; [lia|]); exists i; (split; [|try (split; [done|])]).
  - constructor; auto. by apply Hfound.
  - done.
  - constructor; auto. lia.
  - auto.
Qed.

Section Operations.
Variables (v w : BigInteger) (x y f : Z).
Hypotheses (Hv : canonical v x) (Hw : canonical w y).
Hypotheses (Hfv : mFirstNonzeroDigit v = f) (Hfw : mFirstNonzeroDigit w = f) (Hf : f = 0 \/ f = -2).
Hypotheses (Hx : found f x) (Hy : found f y).
Notation F := (fun g => g = 0 \/ g = f).
Notation yields := (yields F).

Lemma F0 : F 0.
Proof. by left. Qed.

(** The operand itself. *)
Lemma returned z (r : BigInteger) z' : canonical r z' -> mFirstNonzeroDigit r = f -> z = z' -> yields (ret r) z.
Proof. intros Hr Hfr -> s. split; [by apply canonical_stands|by right]. Qed.

Lemma constant z (r : BigInteger) z' : stands r z' -> mFirstNonzeroDigit r = 0 -> z = z' -> yields (ret r) z.
Proof. intros Hr Hfr -> s. split; [done|by left]. Qed.

Ltac by_sides :=
  rewrite ?(c_sign v x Hv), ?(c_sign w y Hw), ?(Equals_stands v MINUS_ONE x (-1)), ?(Equals_stands w MINUS_ONE y (-1))
    by first [by apply canonical_stands|apply MINUS_ONE_spec];
  destruct (sides v x f Hv Hfv Hf Hx) as [->|[(Hxs & i & Pv & Hi0 & Hie)|(Hxs & i & Pv & Hi0)]];
  destruct (sides w y f Hw Hfw Hf Hy) as [->|[(Hys & j & Pw & Hj0 & Hje)|(Hys & j & Pw & Hj0)]];
  rewrite ?(Z.sgn_pos x), ?(Z.sgn_neg x), ?(Z.sgn_pos y), ?(Z.sgn_neg y), ?Z.sgn_0 by lia;
  repeat match goal with |- context [Z.eqb ?a (-1)] => is_var a; destruct (Z.eqb_spec a (-1)) as [->|]; [try lia|] end;
  cbn [Z.eqb orb Z.gtb Z.compare].

Lemma reaches p n a b j : canonical p a -> 0 < a -> negative F n b j -> (f = 0 -> j = 0) -> (f = -2 -> overlap a b) ->
  j < mNumberLength p.
Proof using Hf.
  intros Hp Ha [Hn Hb (_ & Hi & Hz) He _ _] Hj Ho. destruct Hf as [E|E].
  - rewrite (Hj E). pose proof (c_length p a Hp). lia.
  - apply (overlap_index p n a b); auto. done.
Qed.

(** The sign of the result. *)
Ltac is_negative :=
  apply Z.nle_gt; rewrite ?Z.land_nonneg, ?Z.lor_nonneg, ?Z.lxor_nonneg, ?Z.lnot_nonneg; lia.
Ltac side := first [eassumption|apply F0|lia|match goal with Hz : _ -> tame _ |- tame _ => apply Hz; is_negative end
                  |by intros ?; apply Hx|by intros ?; apply Hy|destruct Hf; [left; lia|right; by auto]
                  |eapply reaches; [eassumption|eassumption|eassumption|assumption|match goal with Ho : f = -2 -> overlap _ _ /\ _ |- _ => by intros E; apply Ho end]].
Lemma yields_computes {X} (m : M X) (k : X -> M BigInteger) a z : computes m a -> yields (k a) z -> yields (bind m k) z.
Proof. intros Hm Hk s. apply wp_bind. eapply wp_computes; [exact Hm|apply Hk]. Qed.

Ltac swapped := first [rewrite Z.land_comm in *|rewrite Z.lor_comm in *|rewrite Z.lxor_comm in *].
Ltac searched :=
  match goal with
  | P : positive _ ?v _ _ |- yields (bind (GetFirstNonzeroDigit ?v) _) _ => eapply yields_computes; [exact (proj1 (p_indexed _ _ _ _ P))|]
  | P : negative _ ?v _ _ |- yields (bind (GetFirstNonzeroDigit ?v) _) _ => eapply yields_computes; [exact (proj1 (n_indexed _ _ _ _ P))|]
  end.
Ltac operation :=
  repeat searched;
  repeat match goal with |- context [if ?a >? ?b then _ else _] => rewrite (Z.gtb_ltb a b); destruct (Z.ltb_spec b a) end;
  match goal with
  | |- yields (ret ZERO) _ => eapply constant; [apply ZERO_spec|done|bits]
  | |- yields (ret MINUS_ONE) _ => eapply constant; [apply MINUS_ONE_spec|done|bits]
  | |- yields (ret v) _ => eapply (returned _ v _ Hv Hfv); bits
  | |- yields (ret w) _ => eapply (returned _ w _ Hw Hfw); bits
  | |- yields (Not v) ?z => replace z with (Z.lnot x) in * by bits; eapply Not_yields; side
  | |- yields (Not w) ?z => replace z with (Z.lnot y) in * by bits; eapply Not_yields; side
  | |- yields (AddPositive _ _) _ => eapply AddPositive_yields; side
  | |- yields (AddDiffSigns v w) _ => eapply AddDiffSigns_yields; side
  | |- yields (AddDiffSigns w v) _ => swapped; eapply AddDiffSigns_yields; side
  | |- yields (AddNegative v w) _ => eapply AddNegative_yields; side
  | |- yields (AddNegative w v) _ => swapped; eapply AddNegative_yields; side
  | |- yields (AddNotPositive _ _) _ => eapply AddNotPositive_yields; side
  | |- yields (AddNotPositiveNegative _ _) _ => eapply AddNotPositiveNegative_yields; side
  | |- yields (AddNotNegativePositive _ _) _ => eapply AddNotNegativePositive_yields; side
  | |- yields (AddNotNegative _ _) _ => eapply AddNotNegative_yields; side
  | |- yields (OrPositive v w) _ => eapply OrPositive_yields; side
  | |- yields (OrPositive w v) _ => swapped; eapply OrPositive_yields; side
  | |- yields (OrNegative v w) _ => eapply OrNegative_yields; side
  | |- yields (OrNegative w v) _ => swapped; eapply OrNegative_yields; side
  | |- yields (OrDiffSigns v w) _ => eapply OrDiffSigns_yields; side
  | |- yields (OrDiffSigns w v) _ => swapped; eapply OrDiffSigns_yields; side
  | |- yields (XorPositive v w) _ => eapply XorPositive_yields; side
  | |- yields (XorPositive w v) _ => swapped; eapply XorPositive_yields; side
  | |- yields (XorNegative v w) _ => eapply XorNegative_yields; side
  | |- yields (XorNegative w v) _ => swapped; eapply XorNegative_yields; side
  | |- yields (XorDiffSigns v w) _ => eapply XorDiffSigns_yields; side
  | |- yields (XorDiffSigns w v) _ => swapped; eapply XorDiffSigns_yields; side
  end.

Lemma And_yields : (Z.land x y < 0 -> tame (Z.land x y)) -> yields (And v w) (Z.land x y).
Proof using Hv Hw Hfv Hfw Hf Hx Hy.
  intros Hz. unfold And. by_sides; operation.
Qed.

Lemma AndNot_yields : (Z.land x (Z.lnot y) < 0 -> tame (Z.land x (Z.lnot y))) -> yields (AndNot v w) (Z.land x (Z.lnot y)).
Proof using Hv Hw Hfv Hfw Hf Hx Hy.
  intros Hz. unfold AndNot. by_sides; operation. 
Qed.

Lemma Or_yields : (Z.lor x y < 0 -> tame (Z.lor x y)) -> yields (Or v w) (Z.lor x y).
Proof using Hv Hw Hfv Hfw Hf Hx Hy.
  intros Hz. unfold Or. by_sides; operation.
Qed.

Lemma Xor_yields : (Z.lxor x y < 0 -> tame (Z.lxor x y)) -> (f = -2 -> overlap x y /\ overlap y x) -> yields (Xor v w) (Z.lxor x y).
Proof using Hv Hw Hfv Hfw Hf Hx Hy.
  intros Hz Ho. unfold Xor. by_sides; operation.
Qed.
End Operations.

End Proofs.

(** ** Numbers of BoringSSL's as integers, for the examples *)

Fixpoint le_bytes (n : nat) (a : Z) : list Z := match n with O => [] | S n => a mod 256 :: le_bytes n (a / 256) end.

#[local] Instance integers : BN Z := {|
  BN_cmp a b := a - b;
  BN_set_u64 z := z;
  BN_set_negative a neg := if neg then - Z.abs a else Z.abs a;
  BN_is_zero a := a =? 0;
  BN_is_negative a := a <? 0;
  BN_num_bytes a := Z.log2 (Z.abs a) / 8 + 1;
  BN_le2bn := little_endian;
  BN_bn2le_padded n a := if Z.abs a <? 256 ^ n then Some (le_bytes (Z.to_nat n) (Z.abs a)) else None
|}.

Lemma le_bytes_spec n a : 0 <= a < 256 ^ Z.of_nat n ->
  length (le_bytes n a) = n /\ Forall is_byte (le_bytes n a) /\ little_endian (le_bytes n a) = a.
Proof.
  revert a. induction n as [|n IH]; intros a Ha; [cbn in *; split; [done|]; split; [done|lia]|].
  rewrite Nat2Z.inj_succ, Z.pow_succ_r in Ha by lia. cbn [le_bytes length little_endian].
  destruct (IH (a / 256)) as (E1 & E2 & E3); [split; [apply Z.div_pos; lia|apply Z.div_lt_upper_bound; lia]|].
  split; [by rewrite E1|]. split; [constructor; [apply Z.mod_pos_bound; lia|done]|]. rewrite E3. pose proof (Z_div_mod_eq_full a 256). lia.
Qed.

#[local] Instance integers_laws : BNLaws Z.
Proof.
  assert (forall a, 0 <= Z.log2 (Z.abs a) / 8) as Hn by (intros a; apply Z.div_pos; [apply Z.log2_nonneg|lia]).
  refine {| bn a := a |}; cbn; try done; try lia.
  - intros a. split; [specialize (Hn a); lia|]. destruct (Z.eq_dec a 0) as [->|Ha]; [done|].
    replace (256 ^ (Z.log2 (Z.abs a) / 8 + 1)) with (2 ^ (8 * (Z.log2 (Z.abs a) / 8 + 1))) by (rewrite Z.pow_mul_r; [done|lia|specialize (Hn a); lia]).
    eapply Z.lt_le_trans; [apply (Z.log2_spec (Z.abs a)); lia|]. apply Z.pow_le_mono_r; [lia|].
    pose proof (Z_div_mod_eq_full (Z.log2 (Z.abs a)) 8). pose proof (Z.mod_pos_bound (Z.log2 (Z.abs a)) 8). lia.
  - intros n a Hp Ha. destruct (Z.ltb_spec (Z.abs a) (256 ^ n)); [|lia]. eexists. split; [done|].
    destruct (le_bytes_spec (Z.to_nat n) (Z.abs a)) as (E1 & E2 & E3); [rewrite Z2Nat.id by done; lia|]. rewrite E1. split; [lia|done].
Defined.

(** A new object for a number, with the index of the first digit that is not zero as [f]. *)
Definition number (f x : Z) : BigInteger Z :=
  {| mDigits := []; mNumberLength := 0; mSign := 0; mBigInt := Some x; mIsValid := false; mFirstNonzeroDigit := f |}.

Lemma number_stands f x : stands (number f x) x.
Proof. by exists x. Qed.

(** No bit above the highest, no zero word: a decidable test for [tame]. *)
Lemma tame_check x n : 0 <= n < 31 -> Z.testbit x n = true -> tame x.
Proof.
  intros Hn Hb m Hm Hbm Hz E. assert (m <= n) as Hle.
  { apply Z.nlt_ge. intros Hlt. pose proof (Hz n ltac:(lia)). congruence. }
  rewrite Z.mod_small in E by lia. lia.
Qed.

(** ** The theorems *)

Definition meaning (o : operation) : Z -> Z -> Z :=
  match o with AND => Z.land | OR => Z.lor | XOR => Z.lxor | AND_NOT => Z.ldiff end.

(** C9: And, Or, Xor and AndNot are defined and give what they give on integers in
    two's complement, of any size and signs, also where operands are returned or
    were made by BoringSSL, if no digit that is negated is the least [int] and the
    index of the first digit that is not zero, kept at 0, is right; for objects
    that search it, too, but for Xor of numbers that do not overlap. *)
Theorem bitwise_operations {N : Type} `{!BN N} `{!BNLaws N} (o : operation) (v w : BigInteger N) (x y f : Z) (s : list Z)
  (Hv : stands v x) (Hw : stands w y) (Hfv : mFirstNonzeroDigit v = f) (Hfw : mFirstNonzeroDigit w = f) (Hf : f = 0 \/ f = -2)
  (Hx : found f x) (Hy : found f y) (Hz : meaning o x y < 0 -> tame (meaning o x y))
  (Ho : o = XOR -> f = -2 -> overlap x y /\ overlap y x) :
  exists r s', CallOf o v w s = Some (r, s') /\ stands r (meaning o x y) /\
               (mFirstNonzeroDigit r = 0 \/ mFirstNonzeroDigit r = f).
Proof.
  apply wp_run. unfold CallOf, prepared.
  destruct (PrepareRepresentation_spec v x Hv) as (v' & -> & Hv' & Ev), (PrepareRepresentation_spec w y Hw) as (w' & -> & Hw' & Ew).
  apply wp_bind, wp_ret, wp_bind, wp_ret. rewrite <-Ev in Hfv. rewrite <-Ew in Hfw.
  destruct o; cbn [meaning] in *; [apply (And_yields v' w' x y f)|apply (Or_yields v' w' x y f)|apply (Xor_yields v' w' x y f)|]; auto.
  rewrite Z.ldiff_land in *. apply (AndNot_yields v' w' x y f); auto.
Qed.

Lemma bitwise_operations_witness :
  exists r s', CallOf XOR (number 0 (2 ^ 70 + 5)) (number 0 (- 2 ^ 40 - 3)) [] = Some (r, s') /\
    stands r (meaning XOR (2 ^ 70 + 5) (- 2 ^ 40 - 3)) /\ (mFirstNonzeroDigit r = 0 \/ mFirstNonzeroDigit r = 0).
Proof.
  apply (bitwise_operations XOR _ _ _ _ 0); try done; [apply number_stands|apply number_stands|by left| |].
  - intros _. split; [|done]. by apply (tame_check _ 0).
  - intros _. by apply (tame_check _ 3).
Defined.

Lemma CallNot_is_lnot {N : Type} `{!BN N} `{!BNLaws N} (v : BigInteger N) (x : Z) (s : list Z) :
  stands v x -> (x < 0 -> tame x) -> (Z.lnot x < 0 -> tame (Z.lnot x)) ->
  exists r s', CallNot v s = Some (r, s') /\ stands r (Z.lnot x) /\ mFirstNonzeroDigit r = 0.
Proof.
  intros Hv Hx Hz. apply wp_run. unfold CallNot, prepared. destruct (PrepareRepresentation_spec v x Hv) as (v' & -> & Hv' & _).
  apply wp_bind, wp_ret. by apply (Not_yields (fun g => g = 0) eq_refl v' x).
Qed.

(** What comes of operands the theorem leaves out. *)
Definition value_of (m : option (BigInteger Z * list Z)) : option Z :=
  (fun p => if mIsValid (fst p) then mSign (fst p) * magnitude (mDigits (fst p)) else default 0 (mBigInt (fst p))) <$> m.

(** Numbers with a low digit of zero: the index is kept at 0, where there is none. *)
Example kept_index_is_wrong : value_of (CallOf AND (number 0 (2 ^ 32)) (number 0 (- 2 ^ 32)) []) = Some 0.
Proof. by vm_compute. Qed.

(** The least [int] is negated. *)
Example least_int_is_negated : CallOf AND (number 0 (2 ^ 31)) (number 0 (- 2 ^ 31)) [] = None.
Proof. by vm_compute. Qed.

(** A search that works: Xor reads after the positive number's last digit, or
    copies a digit it should take one from. *)
Example Xor_reads_beyond : CallOf XOR (number (-2) 1) (number (-2) (- 2 ^ 32)) [] = None.
Proof. by vm_compute. Qed.

Example Xor_is_wrong : value_of (CallOf XOR (number (-2) 1) (number (-2) (- 2 ^ 64)) []) = Some (1 - 2 ^ 65).
Proof. by vm_compute. Qed.

End LogicalProofs.
