(* ===== verification/Buffer.v ===== *)
(** * The buffers' base class

    [Buffer] of [src/src/libcore/src/ccm/io/Buffer.cpp]: a mark, a position, a
    limit and a capacity.  Out parameters are not null; a function with an out
    parameter returns its error code and what it stored there, [None] if it
    left the variable as it was.  Arithmetic that leaves [int] is undefined. *)
From S2P Require Import Prelude.
From S2P Require Import ECode.

Module Buffer.

Record Buffer := {
  mPosition : Z;
  mElementSizeShift : Z;
  mMark : Z;
  mLimit : Z;
  mCapacity : Z
}.

Definition new_Buffer : Buffer :=
  {| mPosition := 0; mElementSizeShift := 0; mMark := -1; mLimit := 0; mCapacity := 0 |}.

Definition set_mPosition (v : Z) (b : Buffer) : Buffer :=
  {| mPosition := v; mElementSizeShift := mElementSizeShift b; mMark := mMark b; mLimit := mLimit b; mCapacity := mCapacity b |}.
Definition set_mElementSizeShift (v : Z) (b : Buffer) : Buffer :=
  {| mPosition := mPosition b; mElementSizeShift := v; mMark := mMark b; mLimit := mLimit b; mCapacity := mCapacity b |}.
Definition set_mMark (v : Z) (b : Buffer) : Buffer :=
  {| mPosition := mPosition b; mElementSizeShift := mElementSizeShift b; mMark := v; mLimit := mLimit b; mCapacity := mCapacity b |}.
Definition set_mLimit (v : Z) (b : Buffer) : Buffer :=
  {| mPosition := mPosition b; mElementSizeShift := mElementSizeShift b; mMark := mMark b; mLimit := v; mCapacity := mCapacity b |}.
Definition set_mCapacity (v : Z) (b : Buffer) : Buffer :=
  {| mPosition := mPosition b; mElementSizeShift := mElementSizeShift b; mMark := mMark b; mLimit := mLimit b; mCapacity := v |}.

Abbreviation B := (SE Buffer).

Definition GetCapacity : B Z := gets mCapacity.
Definition GetPosition : B Z := gets mPosition.
Definition GetLimit : B Z := gets mLimit.
Definition MarkValue : B Z := gets mMark.
Definition DiscardMark : B unit := modify (set_mMark (-1)).

Definition SetPosition (newPosition : Z) : B ECode :=
  limit <- gets mLimit ;;
  if (newPosition >? limit) || (newPosition <? 0) then ret E_ILLEGAL_ARGUMENT_EXCEPTION
  else
    modify (set_mPosition newPosition) ;;;
    modify (fun b => if mMark b >? mPosition b then set_mMark (-1) b else b) ;;;
    ret NOERROR.

Definition SetLimit (newLimit : Z) : B ECode :=
  cap <- gets mCapacity ;;
  if (newLimit >? cap) || (newLimit <? 0) then ret E_ILLEGAL_ARGUMENT_EXCEPTION
  else
    modify (set_mLimit newLimit) ;;;
    modify (fun b => if mPosition b >? mLimit b then set_mPosition (mLimit b) b else b) ;;;
    modify (fun b => if mMark b >? mLimit b then set_mMark (-1) b else b) ;;;
    ret NOERROR.

(** The codes [SetLimit] and [SetPosition] return are dropped. *)
Definition Constructor (mark pos lim cap elementSizeShift : Z) : B ECode :=
  if cap <? 0 then ret E_ILLEGAL_ARGUMENT_EXCEPTION
  else
    modify (set_mCapacity cap) ;;;
    SetLimit lim ;;;
    SetPosition pos ;;;
    if (mark >=? 0) && (mark >? pos) then ret E_ILLEGAL_ARGUMENT_EXCEPTION
    else
      modify (fun b => if mark >=? 0 then set_mMark mark b else b) ;;;
      modify (set_mElementSizeShift elementSizeShift) ;;;
      ret NOERROR.

Definition Mark : B ECode := modify (fun b => set_mMark (mPosition b) b) ;;; ret NOERROR.

Definition Reset : B ECode :=
  mark <- gets mMark ;;
  if mark <? 0 then ret E_INVALID_MARK_EXCEPTION
  else modify (set_mPosition mark) ;;; ret NOERROR.

Definition Clear : B ECode :=
  modify (set_mPosition 0) ;;; modify (fun b => set_mLimit (mCapacity b) b) ;;; modify (set_mMark (-1)) ;;; ret NOERROR.

Definition Flip : B ECode :=
  modify (fun b => set_mLimit (mPosition b) b) ;;; modify (set_mPosition 0) ;;; modify (set_mMark (-1)) ;;; ret NOERROR.

Definition Rewind : B ECode := modify (set_mPosition 0) ;;; modify (set_mMark (-1)) ;;; ret NOERROR.

Definition Remaining : B Z :=
  lim <- gets mLimit ;; pos <- gets mPosition ;; int (lim - pos).

Definition HasRemaining : B bool := gets (fun b => mPosition b <? mLimit b).

(** [NextGetIndex(&value)] and [NextPutIndex(&value)] differ in their error. *)
Definition next_index (error : ECode) : B (ECode * option Z) :=
  pos <- gets mPosition ;; lim <- gets mLimit ;;
  if pos >=? lim then ret (error, None)
  else pos1 <- int (pos + 1) ;; modify (set_mPosition pos1) ;;; ret (NOERROR, Some pos).

Definition next_index_of (error : ECode) (nb : Z) : B (ECode * option Z) :=
  lim <- gets mLimit ;; pos <- gets mPosition ;; rest <- int (lim - pos) ;;
  if rest <? nb then ret (error, None)
  else pos1 <- int (pos + nb) ;; modify (set_mPosition pos1) ;;; ret (NOERROR, Some pos).

Definition NextGetIndex : B (ECode * option Z) := next_index E_BUFFER_UNDERFLOW_EXCEPTION.
Definition NextGetIndex_of (nb : Z) : B (ECode * option Z) := next_index_of E_BUFFER_UNDERFLOW_EXCEPTION nb.
Definition NextPutIndex : B (ECode * option Z) := next_index E_BUFFER_OVERFLOW_EXCEPTION.
Definition NextPutIndex_of (nb : Z) : B (ECode * option Z) := next_index_of E_BUFFER_OVERFLOW_EXCEPTION nb.

Definition CheckIndex (i : Z) : B ECode :=
  lim <- gets mLimit ;;
  ret (if (i <? 0) || (i >=? lim) then E_INDEX_OUT_OF_BOUNDS_EXCEPTION else NOERROR).

Definition CheckIndex_of (i nb : Z) : B ECode :=
  if i <? 0 then ret E_INDEX_OUT_OF_BOUNDS_EXCEPTION
  else
    lim <- gets mLimit ;; rest <- int (lim - i) ;;
    ret (if nb >? rest then E_INDEX_OUT_OF_BOUNDS_EXCEPTION else NOERROR).

Definition Truncate : B unit :=
  modify (set_mMark (-1)) ;;; modify (set_mPosition 0) ;;; modify (set_mLimit 0) ;;; modify (set_mCapacity 0).

Definition CheckBounds {S} (off len size : Z) : SE S ECode :=
  end_ <- int (off + len) ;; rest <- int (size - end_) ;;
  ret (if Z.lor (Z.lor (Z.lor off len) end_) rest <? 0 then E_INDEX_OUT_OF_BOUNDS_EXCEPTION else NOERROR).

(** ** The invariant *)

Definition ordered (b : Buffer) : Prop :=
  -1 <= mMark b <= mPosition b /\ 0 <= mPosition b <= mLimit b /\ mLimit b <= mCapacity b <= 2147483647.

(** What an operation may do: keep the order, the capacity and the size shift. *)
Definition kept (b b' : Buffer) : Prop := ordered b' /\ mCapacity b' = mCapacity b.

Ltac buffer :=
  unfold kept, ordered, set_mPosition, set_mMark, set_mLimit, set_mCapacity, set_mElementSizeShift in *;
  cbn [mPosition mMark mLimit mCapacity mElementSizeShift] in *.

(** *** The two setters by their effect *)

Definition moved (n : Z) (b : Buffer) : Buffer :=
  {| mPosition := n; mElementSizeShift := mElementSizeShift b; mMark := if mMark b <=? n then mMark b else -1;
     mLimit := mLimit b; mCapacity := mCapacity b |}.

Definition limited (n : Z) (b : Buffer) : Buffer :=
  {| mPosition := Z.min (mPosition b) n; mElementSizeShift := mElementSizeShift b;
     mMark := if mMark b <=? n then mMark b else -1; mLimit := n; mCapacity := mCapacity b |}.

Lemma SetPosition_run n b :
  SetPosition n b =
    Some (if (0 <=? n) && (n <=? mLimit b) then (NOERROR, moved n b) else (E_ILLEGAL_ARGUMENT_EXCEPTION, b)).
Proof.
  unfold SetPosition, bind, gets, modify, ret. rewrite Z.gtb_ltb, (Z.leb_antisym n), (Z.leb_antisym (mLimit b)).
  destruct (mLimit b <? n), (n <? 0); cbn; try done.
  unfold moved, set_mPosition, set_mMark. cbn. rewrite Z.gtb_ltb, Z.leb_antisym. by destruct (n <? mMark b).
Qed.

Lemma SetLimit_run n b :
  SetLimit n b =
    Some (if (0 <=? n) && (n <=? mCapacity b) then (NOERROR, limited n b) else (E_ILLEGAL_ARGUMENT_EXCEPTION, b)).
Proof.
  unfold SetLimit, bind, gets, modify, ret. rewrite Z.gtb_ltb, (Z.leb_antisym n), (Z.leb_antisym (mCapacity b)).
  destruct (mCapacity b <? n), (n <? 0); cbn; try done.
  unfold limited, set_mPosition, set_mLimit, set_mMark. cbn. rewrite !Z.gtb_ltb, Z.leb_antisym.
  destruct (Z.ltb_spec n (mPosition b)); cbn; rewrite ?Z.gtb_ltb; destruct (n <? mMark b); cbn;
    do 3 f_equal; lia.
Qed.

Lemma SetPosition_ok n b : 0 <= n <= mLimit b -> SetPosition n b = Some (NOERROR, moved n b).
Proof. intros H. rewrite SetPosition_run. by rewrite (proj2 (Z.leb_le _ _)), (proj2 (Z.leb_le _ _)) by lia. Qed.

Lemma SetLimit_ok n b : 0 <= n <= mCapacity b -> SetLimit n b = Some (NOERROR, limited n b).
Proof. intros H. rewrite SetLimit_run. by rewrite (proj2 (Z.leb_le _ _)), (proj2 (Z.leb_le _ _)) by lia. Qed.

Lemma moved_ordered n b : ordered b -> 0 <= n <= mLimit b -> ordered (moved n b).
Proof. unfold ordered, moved. cbn. destruct (Z.leb_spec (mMark b) n); lia. Qed.

Lemma limited_ordered n b : ordered b -> 0 <= n <= mCapacity b -> ordered (limited n b).
Proof. unfold ordered, limited. cbn. destruct (Z.leb_spec (mMark b) n); lia. Qed.

(** [Constructor] on a new buffer, as its callers use it: a limit or a
    position out of range is dropped without an error. *)
Definition constructed (mark pos lim cap shift : Z) : Buffer :=
  let lim := if (0 <=? lim) && (lim <=? cap) then lim else 0 in
  {| mPosition := if (0 <=? pos) && (pos <=? lim) then pos else 0; mElementSizeShift := shift;
     mMark := if 0 <=? mark then mark else -1; mLimit := lim; mCapacity := cap |}.

Lemma Constructor_run mark pos lim cap shift : 0 <= cap -> (mark < 0 \/ mark <= pos) ->
  Constructor mark pos lim cap shift new_Buffer = Some (NOERROR, constructed mark pos lim cap shift).
Proof.
  intros Hcap Hmark. unfold Constructor. destruct (Z.ltb_spec cap 0); [lia|].
  assert (Hm : (mark >=? 0) && (mark >? pos) = false).
  { apply andb_false_iff. rewrite Z.geb_leb, Z.gtb_ltb, Z.leb_gt, Z.ltb_ge. lia. }
  rewrite Hm, !Z.geb_leb. unfold bind, modify, ret. rewrite SetLimit_run.
  unfold constructed. cbn [mCapacity set_mCapacity].
  destruct ((0 <=? lim) && (lim <=? cap)) eqn:Hlim; rewrite SetPosition_run;
    cbn [limited mLimit set_mCapacity new_Buffer]; bprop;
    destruct (_ && _) eqn:Hpos; bprop; destruct (Z.leb_spec 0 mark);
    unfold limited, moved, set_mMark, set_mElementSizeShift, set_mCapacity; cbn -[Z.leb Z.min];
    rewrite ?Z.min_l by lia; repeat (case_match; bprop; try lia); by simplify_eq/=.
Qed.

Lemma constructed_ordered mark pos lim cap shift : 0 <= cap <= 2147483647 ->
  (mark < 0 \/ mark <= pos <= lim /\ lim <= cap) -> ordered (constructed mark pos lim cap shift).
Proof.
  intros Hcap Hmark. unfold ordered, constructed. cbn.
  destruct (Z.leb_spec 0 mark), (Z.leb_spec 0 lim), (Z.leb_spec lim cap); cbn;
    destruct (Z.leb_spec 0 pos); cbn; repeat case_match; bprop; lia.
Qed.

(** *** The accessors that move the position *)

Lemma Remaining_run b : ordered b -> Remaining b = Some (mLimit b - mPosition b, b).
Proof. intros H. unfold Remaining, bind, gets. apply int_fits. unfold ordered in H. fits. Qed.

Lemma next_index_run error b : ordered b ->
  next_index error b =
    Some (if mPosition b <? mLimit b then (NOERROR, Some (mPosition b), set_mPosition (mPosition b + 1) b)
          else (error, None, b)).
Proof.
  intros H. unfold next_index, bind, gets, modify, ret. rewrite Z.geb_leb, Z.leb_antisym.
  destruct (Z.ltb_spec (mPosition b) (mLimit b)); cbn; [|done].
  rewrite int_fits by (unfold ordered in H; fits). done.
Qed.

Lemma next_index_of_run error nb b : ordered b -> 0 <= nb ->
  next_index_of error nb b =
    Some (if nb <=? mLimit b - mPosition b then (NOERROR, Some (mPosition b), set_mPosition (mPosition b + nb) b)
          else (error, None, b)).
Proof.
  intros H Hnb. unfold next_index_of, bind, gets, modify, ret.
  rewrite int_fits by (unfold ordered in H; fits). rewrite (Z.leb_antisym _ nb).
  destruct (Z.ltb_spec (mLimit b - mPosition b) nb); cbn; [done|].
  rewrite int_fits by (unfold ordered in H; fits). done.
Qed.

Lemma advanced_ordered n b : ordered b -> 0 <= n <= mLimit b - mPosition b -> ordered (set_mPosition (mPosition b + n) b).
Proof. unfold ordered, set_mPosition. cbn. lia. Qed.

Lemma CheckIndex_of_run i nb b : ordered b -> fits_s 32 i ->
  CheckIndex_of i nb b =
    Some (if (0 <=? i) && (nb <=? mLimit b - i) then NOERROR else E_INDEX_OUT_OF_BOUNDS_EXCEPTION, b).
Proof.
  intros H Hi. unfold CheckIndex_of. rewrite (Z.leb_antisym i).
  destruct (Z.ltb_spec i 0); cbn; [done|]. unfold bind, gets.
  rewrite int_fits by (unfold ordered in H; fits). rewrite Z.gtb_ltb, Z.leb_antisym.
  by destruct (_ <? _).
Qed.

(** *** [CheckBounds] *)

Lemma lor_neg a b : Z.lor a b < 0 <-> a < 0 \/ b < 0.
Proof. pose proof (Z.lor_nonneg a b). lia. Qed.

Lemma CheckBounds_run {S} off len size (s : S) :
  fits_s 32 (off + len) -> fits_s 32 (size - (off + len)) ->
  CheckBounds off len size s =
    Some (if bool_decide (0 <= off /\ 0 <= len /\ off + len <= size)
          then NOERROR else E_INDEX_OUT_OF_BOUNDS_EXCEPTION, s).
Proof.
  intros H1 H2. unfold CheckBounds, bind. rewrite !int_fits by done. unfold ret. f_equal. f_equal.
  pose proof (lor_neg (Z.lor (Z.lor off len) (off + len)) (size - (off + len))) as E1.
  pose proof (lor_neg (Z.lor off len) (off + len)) as E2. pose proof (lor_neg off len) as E3.
  destruct (Z.ltb_spec (Z.lor (Z.lor (Z.lor off len) (off + len)) (size - (off + len))) 0);
    case_bool_decide; try done; lia.
Qed.

End Buffer.
