(* ===== verification/ByteBuffer.v ===== *)
(** * Byte buffers on the heap: the objects

    The fields of [ByteBuffer] ([src/src/libcore/inc/ccm/io/ByteBuffer.h]) and
    the world its operations run in: the blocks the arrays share and the buffer
    objects, named by address.  Every object is a [HeapByteBuffer], the class
    [Allocate] and [Wrap] create; buffers on memory outside the arrays
    ([DirectByteBuffer]) are not in this world. *)
From S2P Require Import Prelude.
From S2P Require Import RtArray.
From S2P Require Import ECode.
From S2P Require Import Buffer.

Abbreviation i16 := (wrap_s 16).

Module ByteBuffer.

Record ByteBuffer := {
  super : Buffer.Buffer;
  mHb : RtArray.Array;
  mOffset : Z;
  mIsReadOnly : bool;
  mBigEndian : bool;
  mNativeByteOrder : bool
}.

Inductive IByteOrder := BIG_ENDIAN | LITTLE_ENDIAN.

#[export] Instance IByteOrder_eq_dec : EqDecision IByteOrder.
Proof. solve_decision. Defined.

(** [Bits::ByteOrder()], [ByteOrder::Order()]. *)
Definition ByteOrder : IByteOrder := LITTLE_ENDIAN.

Abbreviation bytes := (gmap positive (list Z)).

Record world := { store : bytes; objects : gmap positive ByteBuffer }.

Abbreviation W := (SE world).

(** A computation on the blocks, on an object, on its base class. *)
Definition on_store {X} (m : SE bytes X) : W X := fun w =>
  match m (store w) with
  | Some (x, s) => Some (x, {| store := s; objects := objects w |})
  | None => None
  end.

Definition on_object {X} (this : positive) (m : SE ByteBuffer X) : W X := fun w =>
  match objects w !! this with
  | Some b =>
    match m b with
    | Some (x, b) => Some (x, {| store := store w; objects := <[this := b]> (objects w) |})
    | None => None
    end
  | None => None
  end.

Definition on_super {X} (m : SE Buffer.Buffer X) : SE ByteBuffer X := fun b =>
  match m (super b) with
  | Some (x, s) =>
    Some (x, {| super := s; mHb := mHb b; mOffset := mOffset b; mIsReadOnly := mIsReadOnly b;
                mBigEndian := mBigEndian b; mNativeByteOrder := mNativeByteOrder b |})
  | None => None
  end.

Definition on_buffer {X} (this : positive) (m : SE Buffer.Buffer X) : W X := on_object this (on_super m).
Definition field {X} (this : positive) (f : ByteBuffer -> X) : W X := on_object this (gets f).

(** [ByteBuffer()]: the default member values; the native order is compared
    with the big one. *)
Definition new_ByteBuffer : ByteBuffer :=
  {| super := Buffer.new_Buffer; mHb := RtArray.Null; mOffset := 0; mIsReadOnly := false;
     mBigEndian := true; mNativeByteOrder := bool_decide (ByteOrder = BIG_ENDIAN) |}.

Definition set_array (hb : RtArray.Array) (offset : Z) (b : ByteBuffer) : ByteBuffer :=
  {| super := super b; mHb := hb; mOffset := offset; mIsReadOnly := mIsReadOnly b;
     mBigEndian := mBigEndian b; mNativeByteOrder := mNativeByteOrder b |}.

Definition set_mIsReadOnly (v : bool) (b : ByteBuffer) : ByteBuffer :=
  {| super := super b; mHb := mHb b; mOffset := mOffset b; mIsReadOnly := v;
     mBigEndian := mBigEndian b; mNativeByteOrder := mNativeByteOrder b |}.

Definition set_order (bo : IByteOrder) (b : ByteBuffer) : ByteBuffer :=
  let big := bool_decide (bo = BIG_ENDIAN) in
  {| super := super b; mHb := mHb b; mOffset := mOffset b; mIsReadOnly := mIsReadOnly b;
     mBigEndian := big; mNativeByteOrder := bool_decide (big = bool_decide (ByteOrder = BIG_ENDIAN)) |}.

(** [ByteBuffer::Constructor(mark, pos, lim, cap, hb, offset)]. *)
Definition Constructor (mark pos lim cap : Z) (hb : RtArray.Array) (offset : Z) : SE ByteBuffer ECode :=
  FAIL_RETURN (on_super (Buffer.Constructor mark pos lim cap 0))
    (modify (set_array hb offset) ;;; ret NOERROR).

(** [ByteBuffer::Constructor(mark, pos, lim, cap)]. *)
Definition Constructor_null (mark pos lim cap : Z) : SE ByteBuffer ECode :=
  Constructor mark pos lim cap RtArray.Null 0.

Definition GetOrder (this : positive) : W IByteOrder :=
  big <- field this mBigEndian ;; ret (if big : bool then BIG_ENDIAN else LITTLE_ENDIAN).

Definition SetOrder (this : positive) (bo : IByteOrder) : W ECode :=
  on_object this (modify (set_order bo)) ;;; ret NOERROR.

Definition IsAccessible (this : positive) : W bool := ret true.
Definition SetAccessible (this : positive) (value : bool) : W ECode := ret E_UNSUPPORTED_OPERATION_EXCEPTION.

Definition HasArray (this : positive) : W bool :=
  hb <- field this mHb ;;
  if RtArray.IsNull hb then ret false
  else readOnly <- field this mIsReadOnly ;; ret (negb readOnly).

(** [GetArray], with the array the holder would be made for. *)
Definition GetArray (this : positive) : W (ECode * option RtArray.Array) :=
  hb <- field this mHb ;; readOnly <- field this mIsReadOnly ;;
  if RtArray.IsNull hb then ret (E_UNSUPPORTED_OPERATION_EXCEPTION, None)
  else if readOnly : bool then ret (E_READ_ONLY_BUFFER_EXCEPTION, None)
  else ret (NOERROR, Some hb).

Definition GetArrayOffset (this : positive) : W (ECode * option Z) :=
  hb <- field this mHb ;; readOnly <- field this mIsReadOnly ;; offset <- field this mOffset ;;
  if RtArray.IsNull hb then ret (E_UNSUPPORTED_OPERATION_EXCEPTION, None)
  else if readOnly : bool then ret (E_READ_ONLY_BUFFER_EXCEPTION, None)
  else ret (NOERROR, Some offset).

(** [HeapByteBuffer::_Get], [_Put] and [Ix]. *)
Definition _Get (this : positive) (i : Z) : W Z :=
  i <- int i ;; hb <- field this mHb ;; on_store (RtArray.get hb i).

Definition _Put (this : positive) (i : Z) (b : Z) : W ECode :=
  i <- int i ;; readOnly <- field this mIsReadOnly ;;
  if readOnly : bool then ret E_READ_ONLY_BUFFER_EXCEPTION
  else hb <- field this mHb ;; on_store (RtArray.Set_ hb i b) ;;; ret NOERROR.

Definition Ix (this : positive) (i : Z) : W Z := offset <- field this mOffset ;; int (i + offset).

End ByteBuffer.
