(* ===== verification/Bits.v ===== *)
(** * Numbers in byte buffers

    [Bits] of [src/src/libcore/src/ccm/io/Bits.cpp] and [inc/ccm/io/Bits.h]: the
    bytes of a number and a number from its bytes, in both byte orders.  [Byte]
    is [char], signed; [<<] on a negative [int] is taken as the compilers define
    it, cut to the width; a [Float] or [Double] is its bit pattern. *)
From S2P Require Import Prelude.
From S2P Require Import RtArray.
From S2P Require Import ECode.
From S2P Require Import Buffer.
From S2P Require Import ByteBuffer.

Module Bits.
Import ByteBuffer.

Definition lor4 (a b c d : Z) : Z := Z.lor (Z.lor (Z.lor a b) c) d.

(** *** The bytes of a number *)

Definition MakeChar (b3 b2 b1 b0 : Z) : Z :=
  u32 (lor4 (i32 (Z.shiftl b3 24)) (Z.shiftl (Z.land b2 0xff) 16) (Z.shiftl (Z.land b1 0xff) 8) (Z.land b0 0xff)).
Definition Char3 (x : Z) : Z := i8 (Z.shiftr x 24).
Definition Char2 (x : Z) : Z := i8 (Z.shiftr x 16).
Definition Char1 (x : Z) : Z := i8 (Z.shiftr x 8).
Definition Char0 (x : Z) : Z := i8 x.

Definition MakeShort (b1 b0 : Z) : Z := i16 (Z.lor (i32 (Z.shiftl b1 8)) (Z.land b0 0xff)).
Definition Short1 (x : Z) : Z := i8 (Z.shiftr x 8).
Definition Short0 (x : Z) : Z := i8 x.

Definition MakeInteger (b3 b2 b1 b0 : Z) : Z :=
  lor4 (i32 (Z.shiftl b3 24)) (Z.shiftl (Z.land b2 0xff) 16) (Z.shiftl (Z.land b1 0xff) 8) (Z.land b0 0xff).
Definition Integer3 (x : Z) : Z := i8 (Z.shiftr x 24).
Definition Integer2 (x : Z) : Z := i8 (Z.shiftr x 16).
Definition Integer1 (x : Z) : Z := i8 (Z.shiftr x 8).
Definition Integer0 (x : Z) : Z := i8 x.

Definition MakeLong (b7 b6 b5 b4 b3 b2 b1 b0 : Z) : Z :=
  Z.lor (Z.lor (Z.lor (Z.lor (lor4
    (i64 (Z.shiftl b7 56)) (Z.shiftl (Z.land b6 0xff) 48) (Z.shiftl (Z.land b5 0xff) 40) (Z.shiftl (Z.land b4 0xff) 32))
    (Z.shiftl (Z.land b3 0xff) 24)) (Z.shiftl (Z.land b2 0xff) 16)) (Z.shiftl (Z.land b1 0xff) 8)) (Z.land b0 0xff).
Definition Long7 (x : Z) : Z := i8 (Z.shiftr x 56).
Definition Long6 (x : Z) : Z := i8 (Z.shiftr x 48).
Definition Long5 (x : Z) : Z := i8 (Z.shiftr x 40).
Definition Long4 (x : Z) : Z := i8 (Z.shiftr x 32).
Definition Long3 (x : Z) : Z := i8 (Z.shiftr x 24).
Definition Long2 (x : Z) : Z := i8 (Z.shiftr x 16).
Definition Long1 (x : Z) : Z := i8 (Z.shiftr x 8).
Definition Long0 (x : Z) : Z := i8 x.

(** *** In a buffer

    [bi] is a byte index into the array. *)
Section At.
Variables (bb : positive) (bi : Z).

Definition put (i b : Z) : W unit := _Put bb i b ;;; ret tt.

Definition GetCharL : W Z :=
  b3 <- _Get bb (bi + 3) ;;
  b2 <- _Get bb (bi + 2) ;;
  b1 <- _Get bb (bi + 1) ;;
  b0 <- _Get bb bi ;;
  ret (MakeChar b3 b2 b1 b0).
Definition GetCharB : W Z :=
  b3 <- _Get bb bi ;;
  b2 <- _Get bb (bi + 1) ;;
  b1 <- _Get bb (bi + 2) ;;
  b0 <- _Get bb (bi + 3) ;;
  ret (MakeChar b3 b2 b1 b0).
Definition PutCharL (x : Z) : W unit :=
  put (bi + 3) (Char3 x) ;;;
  put (bi + 2) (Char2 x) ;;;
  put (bi + 1) (Char1 x) ;;;
  put bi (Char0 x).
Definition PutCharB (x : Z) : W unit :=
  put bi (Char3 x) ;;;
  put (bi + 1) (Char2 x) ;;;
  put (bi + 2) (Char1 x) ;;;
  put (bi + 3) (Char0 x).
Definition GetChar (bigEndian : bool) : W Z := if bigEndian then GetCharB else GetCharL.
Definition PutChar (x : Z) (bigEndian : bool) : W unit := if bigEndian then PutCharB x else PutCharL x.

Definition GetShortL : W Z :=
  b1 <- _Get bb (bi + 1) ;;
  b0 <- _Get bb bi ;;
  ret (MakeShort b1 b0).
Definition GetShortB : W Z :=
  b1 <- _Get bb bi ;;
  b0 <- _Get bb (bi + 1) ;;
  ret (MakeShort b1 b0).
Definition PutShortL (x : Z) : W unit :=
  put bi (Short0 x) ;;;
  put (bi + 1) (Short1 x).
Definition PutShortB (x : Z) : W unit :=
  put bi (Short1 x) ;;;
  put (bi + 1) (Short0 x).
Definition GetShort (bigEndian : bool) : W Z := if bigEndian then GetShortB else GetShortL.
Definition PutShort (x : Z) (bigEndian : bool) : W unit := if bigEndian then PutShortB x else PutShortL x.

Definition GetIntegerL : W Z :=
  b3 <- _Get bb (bi + 3) ;;
  b2 <- _Get bb (bi + 2) ;;
  b1 <- _Get bb (bi + 1) ;;
  b0 <- _Get bb bi ;;
  ret (MakeInteger b3 b2 b1 b0).
Definition GetIntegerB : W Z :=
  b3 <- _Get bb bi ;;
  b2 <- _Get bb (bi + 1) ;;
  b1 <- _Get bb (bi + 2) ;;
  b0 <- _Get bb (bi + 3) ;;
  ret (MakeInteger b3 b2 b1 b0).
Definition PutIntegerL (x : Z) : W unit :=
  put (bi + 3) (Integer3 x) ;;;
  put (bi + 2) (Integer2 x) ;;;
  put (bi + 1) (Integer1 x) ;;;
  put bi (Integer0 x).
Definition PutIntegerB (x : Z) : W unit :=
  put bi (Integer3 x) ;;;
  put (bi + 1) (Integer2 x) ;;;
  put (bi + 2) (Integer1 x) ;;;
  put (bi + 3) (Integer0 x).
Definition GetInteger (bigEndian : bool) : W Z := if bigEndian then GetIntegerB else GetIntegerL.
Definition PutInteger (x : Z) (bigEndian : bool) : W unit := if bigEndian then PutIntegerB x else PutIntegerL x.

Definition GetLongL : W Z :=
  b7 <- _Get bb (bi + 7) ;;
  b6 <- _Get bb (bi + 6) ;;
  b5 <- _Get bb (bi + 5) ;;
  b4 <- _Get bb (bi + 4) ;;
  b3 <- _Get bb (bi + 3) ;;
  b2 <- _Get bb (bi + 2) ;;
  b1 <- _Get bb (bi + 1) ;;
  b0 <- _Get bb bi ;;
  ret (MakeLong b7 b6 b5 b4 b3 b2 b1 b0).
Definition GetLongB : W Z :=
  b7 <- _Get bb bi ;;
  b6 <- _Get bb (bi + 1) ;;
  b5 <- _Get bb (bi + 2) ;;
  b4 <- _Get bb (bi + 3) ;;
  b3 <- _Get bb (bi + 4) ;;
  b2 <- _Get bb (bi + 5) ;;
  b1 <- _Get bb (bi + 6) ;;
  b0 <- _Get bb (bi + 7) ;;
  ret (MakeLong b7 b6 b5 b4 b3 b2 b1 b0).
Definition PutLongL (x : Z) : W unit :=
  put (bi + 7) (Long7 x) ;;;
  put (bi + 6) (Long6 x) ;;;
  put (bi + 5) (Long5 x) ;;;
  put (bi + 4) (Long4 x) ;;;
  put (bi + 3) (Long3 x) ;;;
  put (bi + 2) (Long2 x) ;;;
  put (bi + 1) (Long1 x) ;;;
  put bi (Long0 x).
Definition PutLongB (x : Z) : W unit :=
  put bi (Long7 x) ;;;
  put (bi + 1) (Long6 x) ;;;
  put (bi + 2) (Long5 x) ;;;
  put (bi + 3) (Long4 x) ;;;
  put (bi + 4) (Long3 x) ;;;
  put (bi + 5) (Long2 x) ;;;
  put (bi + 6) (Long1 x) ;;;
  put (bi + 7) (Long0 x).
Definition GetLong (bigEndian : bool) : W Z := if bigEndian then GetLongB else GetLongL.
Definition PutLong (x : Z) (bigEndian : bool) : W unit := if bigEndian then PutLongB x else PutLongL x.

(** [Math::IntegerBitsToFloat] and its like: a union read back. *)
Definition IntegerBitsToFloat (value : Z) : Z := u32 value.
Definition FloatToRawIntegerBits (value : Z) : Z := i32 value.
Definition LongBitsToDouble (value : Z) : Z := u64 value.
Definition DoubleToRawLongBits (value : Z) : Z := i64 value.

(** The conversion of a [float] to [long long]: towards zero, undefined for
    what does not fit. *)
Definition float_to_long (f : Z) : option Z :=
  let e := Z.land (Z.shiftr f 23) 0xff in
  let m := if e =? 0 then Z.land f 0x7fffff else Z.lor 0x800000 (Z.land f 0x7fffff) in
  let magnitude := Z.shiftl m (Z.max e 1 - 150) in
  let v := if Z.testbit f 31 then - magnitude else magnitude in
  if (e =? 255) || negb (fits_sb 64 v) then None else Some v.

Definition GetFloatL : W Z := i <- GetIntegerL ;; ret (IntegerBitsToFloat i).
Definition GetFloatB : W Z := i <- GetIntegerB ;; ret (IntegerBitsToFloat i).
Definition GetFloat (bigEndian : bool) : W Z := if bigEndian then GetFloatB else GetFloatL.
Definition PutFloatL (x : Z) : W unit := PutIntegerL (FloatToRawIntegerBits x).
Definition PutFloatB (x : Z) : W unit := PutIntegerB (FloatToRawIntegerBits x).
(** In the little order the source calls [PutLongL] with the float. *)
Definition PutFloat (x : Z) (bigEndian : bool) : W unit :=
  if bigEndian then PutFloatB x
  else l <- known (float_to_long x) ;; PutLongL l.

Definition GetDoubleL : W Z := l <- GetLongL ;; ret (LongBitsToDouble l).
Definition GetDoubleB : W Z := l <- GetLongB ;; ret (LongBitsToDouble l).
Definition GetDouble (bigEndian : bool) : W Z := if bigEndian then GetDoubleB else GetDoubleL.
Definition PutDoubleL (x : Z) : W unit := PutLongL (DoubleToRawLongBits x).
Definition PutDoubleB (x : Z) : W unit := PutLongB (DoubleToRawLongBits x).
Definition PutDouble (x : Z) (bigEndian : bool) : W unit := if bigEndian then PutDoubleB x else PutDoubleL x.

End At.

End Bits.
