(* ===== verification/HeapByteBuffer.v ===== *)
(** * Byte buffers on the heap: the operations

    [HeapByteBuffer.cpp] and the operations of [ByteBuffer.cpp] it inherits
    (both in [src/src/libcore/src/ccm/io]).  The relative accessors drop the
    error of [NextGetIndex] and [NextPutIndex] and go on with an index that was
    never set: that is undefined here.  Objects and blocks are never freed. *)
From S2P Require Import Prelude.
From S2P Require Import RtArray.
From S2P Require Import ECode.
From S2P Require Import Buffer.
From S2P Require Import ByteBuffer.
From S2P Require Import Bits.

Module HeapByteBuffer.
Import ByteBuffer.

(** [new HeapByteBuffer()]; a constructor that fails drops the object. *)
Definition new_ : W positive :=
  p <- gets (fun w => fresh (dom (objects w) : gset positive)) ;;
  modify (fun w => {| store := store w; objects := <[p := new_ByteBuffer]> (objects w) |}) ;;; ret p.

Definition delete_ (this : positive) : W unit :=
  modify (fun w => {| store := store w; objects := delete this (objects w) |}).

Definition construct (this : positive) (m : W ECode) : W (ECode * option positive) :=
  ec <- m ;;
  if FAILED ec then delete_ this ;;; ret (ec, None) else ret (NOERROR, Some this).

(** *** Constructors *)

(** [Constructor(buf, mark, pos, lim, cap, off, isReadOnly)]. *)
Definition Constructor (this : positive) (buf : RtArray.Array) (mark pos lim cap off : Z) (isReadOnly : bool) : W ECode :=
  FAIL_RETURN (on_object this (ByteBuffer.Constructor mark pos lim cap buf off))
    (on_object this (modify (set_mIsReadOnly isReadOnly)) ;;; ret NOERROR).

(** [Constructor(buf, off, len, isReadOnly)]. *)
Definition Constructor_wrap (this : positive) (buf : RtArray.Array) (off len : Z) (isReadOnly : bool) : W ECode :=
  lim <- int (off + len) ;;
  FAIL_RETURN (on_object this (ByteBuffer.Constructor (-1) off lim (i32 (RtArray.GetLength buf)) buf 0))
    (on_object this (modify (set_mIsReadOnly isReadOnly)) ;;; ret NOERROR).

Section Operations.
Context {A : Allocator}.

(** [Constructor(cap, lim, isReadOnly)]. *)
Definition Constructor_cap (this : positive) (cap lim : Z) (isReadOnly : bool) : W ECode :=
  buf <- on_store (RtArray.Alloc 0 1 cap) ;;
  FAIL_RETURN (on_object this (ByteBuffer.Constructor (-1) 0 lim cap buf 0))
    (on_object this (modify (set_mIsReadOnly isReadOnly)) ;;; ret NOERROR).

Definition Allocate (capacity : Z) : W (ECode * option positive) :=
  if capacity <? 0 then ret (E_ILLEGAL_ARGUMENT_EXCEPTION, None)
  else hbb <- new_ ;; construct hbb (Constructor_cap hbb capacity capacity false).

Definition Wrap (array : RtArray.Array) (offset length : Z) : W (ECode * option positive) :=
  hbb <- new_ ;; construct hbb (Constructor_wrap hbb array offset length false).

Definition Wrap_all (array : RtArray.Array) : W (ECode * option positive) :=
  Wrap array 0 (i32 (RtArray.GetLength array)).

(** *** Other buffers on the same array *)

Definition Slice (this : positive) : W (ECode * option positive) :=
  remaining <- on_buffer this Buffer.Remaining ;;
  pos <- on_buffer this Buffer.GetPosition ;;
  hbb <- new_ ;;
  hb <- field this mHb ;; offset <- field this mOffset ;; readOnly <- field this mIsReadOnly ;;
  off <- int (pos + offset) ;;
  construct hbb (Constructor hbb hb (-1) 0 remaining remaining off readOnly).

Definition duplicate (this : positive) (readOnly : bool) : W (ECode * option positive) :=
  pos <- on_buffer this Buffer.GetPosition ;;
  lim <- on_buffer this Buffer.GetLimit ;;
  cap <- on_buffer this Buffer.GetCapacity ;;
  hbb <- new_ ;;
  hb <- field this mHb ;; mark <- on_buffer this Buffer.MarkValue ;; offset <- field this mOffset ;;
  construct hbb (Constructor hbb hb mark pos lim cap offset readOnly).

Definition Duplicate (this : positive) : W (ECode * option positive) :=
  readOnly <- field this mIsReadOnly ;; duplicate this readOnly.

Definition AsReadOnlyBuffer (this : positive) : W (ECode * option positive) := duplicate this true.

Definition IsDirect (this : positive) : W bool := ret false.
Definition IsReadOnly (this : positive) : W bool := field this mIsReadOnly.

(** *** Bytes *)

Definition load (this : positive) (i : Z) : W Z := hb <- field this mHb ;; on_store (RtArray.get hb i).
Definition assign (this : positive) (i b : Z) : W unit := hb <- field this mHb ;; on_store (RtArray.Set_ hb i b).

Definition Get (this : positive) : W (ECode * option Z) :=
  index <- on_buffer this Buffer.NextGetIndex ;; index <- known index.2 ;;
  i <- Ix this index ;; b <- load this i ;; ret (NOERROR, Some b).

Definition Get_at (this : positive) (index : Z) : W (ECode * option Z) :=
  FAIL_RETURN_out (on_buffer this (Buffer.CheckIndex index))
    (i <- Ix this index ;; b <- load this i ;; ret (NOERROR, Some b)).

(** The bounds are checked for [mOffset], not for [offset]. *)
Definition Get_array (this : positive) (dst : RtArray.Array) (offset length : Z) : W ECode :=
  mOff <- field this mOffset ;;
  FAIL_RETURN (Buffer.CheckBounds mOff length (i32 (RtArray.GetLength dst)))
    (remaining <- on_buffer this Buffer.Remaining ;;
     if length >? remaining then ret E_BUFFER_UNDERFLOW_EXCEPTION
     else
       pos <- on_buffer this Buffer.GetPosition ;;
       hb <- field this mHb ;; i <- Ix this pos ;;
       on_store (RtArray.Copy_range dst offset hb i length) ;;;
       end_ <- int (pos + length) ;; on_buffer this (Buffer.SetPosition end_) ;;; ret NOERROR).

Definition Get_all (this : positive) (dst : RtArray.Array) : W ECode :=
  Get_array this dst 0 (i32 (RtArray.GetLength dst)).

Definition Put (this : positive) (b : Z) : W ECode :=
  readOnly <- field this mIsReadOnly ;;
  if readOnly : bool then ret E_READ_ONLY_BUFFER_EXCEPTION
  else
    index <- on_buffer this Buffer.NextPutIndex ;; index <- known index.2 ;;
    i <- Ix this index ;; assign this i b ;;; ret NOERROR.

Definition Put_at (this : positive) (index b : Z) : W ECode :=
  readOnly <- field this mIsReadOnly ;;
  if readOnly : bool then ret E_READ_ONLY_BUFFER_EXCEPTION
  else
    FAIL_RETURN (on_buffer this (Buffer.CheckIndex index))
      (i <- Ix this index ;; assign this i b ;;; ret NOERROR).

Definition Put_array (this : positive) (src : RtArray.Array) (offset length : Z) : W ECode :=
  readOnly <- field this mIsReadOnly ;;
  if readOnly : bool then ret E_READ_ONLY_BUFFER_EXCEPTION
  else
    FAIL_RETURN (Buffer.CheckBounds offset length (i32 (RtArray.GetLength src)))
      (remaining <- on_buffer this Buffer.Remaining ;;
       if length >? remaining then ret E_BUFFER_OVERFLOW_EXCEPTION
       else
         pos <- on_buffer this Buffer.GetPosition ;;
         hb <- field this mHb ;; i <- Ix this pos ;;
         on_store (RtArray.Copy_range hb i src offset length) ;;;
         end_ <- int (pos + length) ;; on_buffer this (Buffer.SetPosition end_) ;;; ret NOERROR).

Definition Put_all (this : positive) (src : RtArray.Array) : W ECode :=
  Put_array this src 0 (i32 (RtArray.GetLength src)).

(** [ByteBuffer::Put(IByteBuffer* src)].  Neither buffer is direct; without an
    array the code would [memmove] from or to the null pointer. *)
Definition Put_buffer (this src : positive) : W ECode :=
  accessible <- IsAccessible this ;;
  if negb accessible then ret E_ILLEGAL_STATE_EXCEPTION
  else if bool_decide (src = this) then ret E_ILLEGAL_ARGUMENT_EXCEPTION
  else
    readOnly <- field this mIsReadOnly ;;
    if readOnly : bool then ret E_READ_ONLY_BUFFER_EXCEPTION
    else
      n <- on_buffer src Buffer.Remaining ;;
      remaining <- on_buffer this Buffer.Remaining ;;
      if n >? remaining then ret E_BUFFER_OVERFLOW_EXCEPTION
      else
        hb <- field this mHb ;; srcHb <- field src mHb ;;
        if RtArray.IsNull hb || RtArray.IsNull srcHb then undefined
        else
          srcPos <- on_buffer src Buffer.GetPosition ;;
          thisPos <- on_buffer this Buffer.GetPosition ;;
          to <- Ix this thisPos ;; from <- Ix src srcPos ;;
          on_store (RtArray.Copy_range hb to srcHb from n) ;;;
          limit <- on_buffer src Buffer.GetLimit ;;
          on_buffer src (Buffer.SetPosition limit) ;;;
          pos <- on_buffer this Buffer.GetPosition ;;
          end_ <- int (pos + n) ;; on_buffer this (Buffer.SetPosition end_) ;;; ret NOERROR.

Definition Compact (this : positive) : W ECode :=
  readOnly <- field this mIsReadOnly ;;
  if readOnly : bool then ret E_READ_ONLY_BUFFER_EXCEPTION
  else
    pos <- on_buffer this Buffer.GetPosition ;;
    remaining <- on_buffer this Buffer.Remaining ;;
    hb <- field this mHb ;; to <- Ix this 0 ;; from <- Ix this pos ;;
    on_store (RtArray.Copy_range hb to hb from remaining) ;;;
    on_buffer this (Buffer.SetPosition remaining) ;;;
    cap <- on_buffer this Buffer.GetCapacity ;;
    on_buffer this (Buffer.SetLimit cap) ;;;
    on_buffer this Buffer.DiscardMark ;;;
    ret NOERROR.

(** *** Contents *)

Definition byte_at (this : positive) (i : Z) : W Z := r <- Get_at this i ;; known r.2.

Fixpoint hash_loop (this : positive) (n : nat) (i h : Z) : W Z :=
  match n with
  | O => ret h
  | S n => b <- byte_at this i ;; h <- int (31 * h) ;; h <- int (h + b) ;; hash_loop this n (i - 1) h
  end.

(** [for (i = limit - 1; i >= p; i--)]. *)
Definition GetHashCode (this : positive) : W Z :=
  p <- on_buffer this Buffer.GetPosition ;; i <- on_buffer this Buffer.GetLimit ;;
  hash_loop this (Z.to_nat (i - p)) (i - 1) 1.

Fixpoint equals_loop (this other : positive) (n : nat) (i j : Z) : W bool :=
  match n with
  | O => ret true
  | S n =>
    thisb <- byte_at this i ;; otherb <- byte_at other j ;;
    if negb (thisb =? otherb) then ret false else equals_loop this other n (i - 1) (j - 1)
  end.

(** [other] is the object probed for [IByteBuffer]. *)
Definition Equals (this : positive) (other : option positive) : W bool :=
  match other with
  | None => ret false
  | Some other =>
    if bool_decide (this = other) then ret true
    else
      thisRemaining <- on_buffer this Buffer.Remaining ;;
      otherRemaining <- on_buffer other Buffer.Remaining ;;
      if negb (thisRemaining =? otherRemaining) then ret false
      else
        p <- on_buffer this Buffer.GetPosition ;;
        i <- on_buffer this Buffer.GetLimit ;; j <- on_buffer other Buffer.GetLimit ;;
        equals_loop this other (Z.to_nat (i - p)) (i - 1) (j - 1)
  end.

Fixpoint compare_loop (this other : positive) (n : nat) (i j rest : Z) : W Z :=
  match n with
  | O => int rest
  | S n =>
    thisb <- byte_at this i ;; otherb <- byte_at other j ;;
    if negb (thisb - otherb =? 0) then ret (thisb - otherb) else compare_loop this other n (i + 1) (j + 1) rest
  end.

Definition CompareTo (this : positive) (other : option positive) : W (ECode * option Z) :=
  match other with
  | None => ret (E_ILLEGAL_ARGUMENT_EXCEPTION, None)
  | Some other =>
    thisRemaining <- on_buffer this Buffer.Remaining ;;
    otherRemaining <- on_buffer other Buffer.Remaining ;;
    thisPos <- on_buffer this Buffer.GetPosition ;;
    otherPos <- on_buffer other Buffer.GetPosition ;;
    n <- int (thisPos + Z.min thisRemaining otherRemaining) ;;
    r <- compare_loop this other (Z.to_nat (n - thisPos)) thisPos otherPos (thisRemaining - otherRemaining) ;;
    ret (NOERROR, Some r)
  end.

(** *** Numbers

    The accessors of each type differ in the number of bytes and in the
    function of [Bits] they call. *)

Definition bits_of {X} (this : positive) (index : Z) (bits : positive -> Z -> bool -> W X) : W X :=
  i <- Ix this index ;; big <- field this mBigEndian ;; bits this i big.

Section Number.
Variables (nb : Z) (get : positive -> Z -> bool -> W Z) (put : positive -> Z -> Z -> bool -> W unit).

Definition get_next (this : positive) : W (ECode * option Z) :=
  index <- on_buffer this (Buffer.NextGetIndex_of nb) ;; index <- known index.2 ;;
  x <- bits_of this index get ;; ret (NOERROR, Some x).

Definition get_at (this : positive) (index : Z) : W (ECode * option Z) :=
  FAIL_RETURN_out (on_buffer this (Buffer.CheckIndex_of index nb))
    (x <- bits_of this index get ;; ret (NOERROR, Some x)).

Definition get_unchecked (this : positive) (index : Z) : W (ECode * option Z) :=
  x <- bits_of this index get ;; ret (NOERROR, Some x).

Definition put_next (this : positive) (value : Z) : W ECode :=
  readOnly <- field this mIsReadOnly ;;
  if readOnly : bool then ret E_READ_ONLY_BUFFER_EXCEPTION
  else
    index <- on_buffer this (Buffer.NextPutIndex_of nb) ;; index <- known index.2 ;;
    bits_of this index (fun bb bi => put bb bi value) ;;; ret NOERROR.

Definition put_at (this : positive) (index value : Z) : W ECode :=
  readOnly <- field this mIsReadOnly ;;
  if readOnly : bool then ret E_READ_ONLY_BUFFER_EXCEPTION
  else
    FAIL_RETURN (on_buffer this (Buffer.CheckIndex_of index nb))
      (bits_of this index (fun bb bi => put bb bi value) ;;; ret NOERROR).

Definition put_unchecked (this : positive) (index value : Z) : W ECode :=
  bits_of this index (fun bb bi => put bb bi value) ;;; ret NOERROR.
End Number.

Definition GetChar := get_next 4 Bits.GetChar.
Definition GetChar_at := get_at 4 Bits.GetChar.
Definition GetCharUnchecked := get_unchecked Bits.GetChar.
Definition PutChar := put_next 4 Bits.PutChar.
Definition PutChar_at := put_at 4 Bits.PutChar.
Definition PutCharUnchecked := put_unchecked Bits.PutChar.

Definition GetShort := get_next 2 Bits.GetShort.
Definition GetShort_at := get_at 2 Bits.GetShort.
Definition GetShortUnchecked := get_unchecked Bits.GetShort.
Definition PutShort := put_next 2 Bits.PutShort.
Definition PutShort_at := put_at 2 Bits.PutShort.
Definition PutShortUnchecked := put_unchecked Bits.PutShort.

Definition GetInteger := get_next 4 Bits.GetInteger.
Definition GetInteger_at := get_at 4 Bits.GetInteger.
Definition GetIntegerUnchecked := get_unchecked Bits.GetInteger.
Definition PutInteger := put_next 4 Bits.PutInteger.
Definition PutInteger_at := put_at 4 Bits.PutInteger.
Definition PutIntegerUnchecked := put_unchecked Bits.PutInteger.

Definition GetLong := get_next 8 Bits.GetLong.
Definition GetLong_at := get_at 8 Bits.GetLong.
Definition GetLongUnchecked := get_unchecked Bits.GetLong.
Definition PutLong := put_next 8 Bits.PutLong.
Definition PutLong_at := put_at 8 Bits.PutLong.
Definition PutLongUnchecked := put_unchecked Bits.PutLong.

Definition GetFloat := get_next 4 Bits.GetFloat.
Definition GetFloat_at := get_at 4 Bits.GetFloat.
Definition GetFloatUnchecked := get_unchecked Bits.GetFloat.
Definition PutFloat := put_next 4 Bits.PutFloat.
Definition PutFloat_at := put_at 4 Bits.PutFloat.
Definition PutFloatUnchecked := put_unchecked Bits.PutFloat.

Definition GetDouble := get_next 8 Bits.GetDouble.
Definition GetDouble_at := get_at 8 Bits.GetDouble.
Definition GetDoubleUnchecked := get_unchecked Bits.GetDouble.
Definition PutDouble := put_next 8 Bits.PutDouble.
Definition PutDouble_at := put_at 8 Bits.PutDouble.
Definition PutDoubleUnchecked := put_unchecked Bits.PutDouble.

End Operations.

End HeapByteBuffer.
