(* ===== verification/ByteBufferProofs.v ===== *)
(** * Byte buffers on the heap: the invariant and the bytes

    Every buffer names an array that covers it; the rules that run the
    operations on such buffers, and the bytes of a block as [Bits] reads and
    writes them. *)
From S2P Require Import Prelude.
From S2P Require Import RtArray.
From S2P Require Import RtArrayProofs.
From S2P Require Import ECode.
From S2P Require Import Buffer.
From S2P Require Import ByteBuffer.
From S2P Require Import Bits.
From S2P Require Import HeapByteBuffer.

Module ByteBufferProofs.
Import ByteBuffer HeapByteBuffer.
Import Buffer.Buffer.

(** ** Objects *)

Definition with_super (s : Buffer) (b : ByteBuffer) : ByteBuffer :=
  {| super := s; mHb := mHb b; mOffset := mOffset b; mIsReadOnly := mIsReadOnly b;
     mBigEndian := mBigEndian b; mNativeByteOrder := mNativeByteOrder b |}.

Definition put_object (this : positive) (b : ByteBuffer) (w : world) : world :=
  {| store := store w; objects := <[this := b]> (objects w) |}.

Definition put_block (p : positive) (l : list Z) (w : world) : world :=
  {| store := <[p := l]> (store w); objects := objects w |}.

Lemma put_object_same this b w : objects w !! this = Some b -> put_object this b w = w.
Proof. intros H. unfold put_object. rewrite insert_id by done. by destruct w. Qed.

Lemma put_block_same p l w : store w !! p = Some l -> put_block p l w = w.
Proof. intros H. unfold put_block. rewrite insert_id by done. by destruct w. Qed.

Lemma put_block_twice p l l' w : put_block p l' (put_block p l w) = put_block p l' w.
Proof. unfold put_block. cbn. by rewrite insert_insert_eq. Qed.

Lemma put_object_twice p b b' w : put_object p b' (put_object p b w) = put_object p b' w.
Proof. unfold put_object. cbn. by rewrite insert_insert_eq. Qed.

Section Rules.
Context {X : Type}.
Implicit Types (Q : X -> world -> Prop) (w : world).

Lemma wp_on_object this b (m : SE ByteBuffer X) Q w :
  objects w !! this = Some b -> wp m (fun x b' => Q x (put_object this b' w)) b -> wp (on_object this m) Q w.
Proof. unfold wp, on_object. intros ->. by destruct (m b) as [[x b']|]. Qed.

Lemma wp_field this b (f : ByteBuffer -> X) Q w :
  objects w !! this = Some b -> Q (f b) w -> wp (field this f) Q w.
Proof.
  intros H HQ. eapply wp_on_object; [done|]. apply wp_gets. by rewrite put_object_same.
Qed.

Lemma wp_on_buffer this b (m : SE Buffer X) x s Q w :
  objects w !! this = Some b -> m (super b) = Some (x, s) -> Q x (put_object this (with_super s b) w) ->
  wp (on_buffer this m) Q w.
Proof. intros H Hm HQ. eapply wp_on_object; [done|]. unfold wp, on_super. by rewrite Hm. Qed.

(** The operation looks at the object and leaves it. *)
Lemma wp_on_buffer_look this b (m : SE Buffer X) x Q w :
  objects w !! this = Some b -> m (super b) = Some (x, super b) -> Q x w -> wp (on_buffer this m) Q w.
Proof.
  intros H Hm HQ. eapply wp_on_buffer; [done..|]. unfold with_super. rewrite put_object_same; [done|].
  by rewrite H; destruct b.
Qed.

Lemma wp_on_store (m : SE bytes X) x s Q w :
  m (store w) = Some (x, s) -> Q x {| store := s; objects := objects w |} -> wp (on_store m) Q w.
Proof. intros Hm HQ. unfold wp, on_store. by rewrite Hm. Qed.

Lemma wp_on_store_look (m : SE bytes X) x Q w :
  m (store w) = Some (x, store w) -> Q x w -> wp (on_store m) Q w.
Proof. intros Hm HQ. eapply wp_on_store; [done|]. by destruct w. Qed.

Lemma wp_known x Q w : Q x w -> wp (known (Some x)) Q w.
Proof. done. Qed.

(** A deterministic computation satisfies what its result does. *)
Lemma wp_result (m : W X) x w' Q w : m w = Some (x, w') -> Q x w' -> wp m Q w.
Proof. unfold wp. by intros ->. Qed.

Lemma result_wp (m : W X) x w' w : wp m (fun y v => y = x /\ v = w') w -> m w = Some (x, w').
Proof. unfold wp. destruct (m w) as [[y v]|]; [by intros [-> ->]|done]. Qed.

End Rules.

Lemma wp_fail_return (m k : W ECode) Q w :
  wp m (fun ec w' => if FAILED ec then Q ec w' else wp k Q w') w -> wp (FAIL_RETURN m k) Q w.
Proof.
  intros H. unfold FAIL_RETURN. apply wp_bind. eapply wp_mono; [exact H|]. cbn. intros ec w'. by destruct (FAILED ec).
Qed.

Lemma wp_fail_return_out {X} (m : W ECode) (k : W (ECode * option X)) Q w :
  wp m (fun ec w' => if FAILED ec then Q (ec, None) w' else wp k Q w') w -> wp (FAIL_RETURN_out m k) Q w.
Proof.
  intros H. unfold FAIL_RETURN_out. apply wp_bind. eapply wp_mono; [exact H|]. cbn. intros ec w'. by destruct (FAILED ec).
Qed.

(** One step of a buffer operation whose object is known. *)
Ltac wstep :=
  lazymatch goal with
  | |- wp (bind _ _) _ _ => apply wp_bind
  | |- wp (ret _) _ _ => apply wp_ret
  | |- wp (field _ _) _ _ => eapply wp_field; [eassumption|]
  | |- wp (known (Some _)) _ _ => apply wp_known
  | |- wp (known (snd (_, Some _))) _ _ => apply wp_known
  end.

(** ** The invariant *)

(** The buffer covers the part from [mOffset] on, [mCapacity] bytes, of block
    [p], which holds [l]. *)
Definition covers (s : bytes) (b : ByteBuffer) (p : positive) (l : list Z) : Prop :=
  RtArrayProofs.backs s (mHb b) p l /\ ordered (super b) /\ 0 <= mOffset b /\
  mOffset b + mCapacity (super b) <= Z.of_nat (length l) <= 2147483647.

Definition sound (w : world) : Prop :=
  (forall this b, objects w !! this = Some b -> exists p l, covers (store w) b p l) /\
  forall p l, store w !! p = Some l -> Forall (fits_s 8) l.

Lemma sound_object w this b : sound w -> objects w !! this = Some b -> exists p l, covers (store w) b p l.
Proof. intros [H _]. apply H. Qed.

Lemma covers_block s b p l : covers s b p l -> s !! p = Some l.
Proof. intros ((_ & H & _) & _). exact H. Qed.

Lemma covers_data s b p l : covers s b p l -> RtArray.mData (mHb b) = Some p.
Proof. intros ((H & _) & _). exact H. Qed.

Lemma covers_super s b p l sb : covers s b p l -> ordered sb -> mCapacity sb = mCapacity (super b) ->
  covers s (with_super sb b) p l.
Proof. intros (Hb & _ & H0 & H1) Hs Hc. split_and!; cbn; [done|done|done|lia|lia]. Qed.

(** New content of the same length in the block a buffer covers. *)
Lemma covers_replace s b p l l' : covers s b p l -> length l' = length l -> covers (<[p := l']> s) b p l'.
Proof.
  intros ((Hd & Hp & Hs) & Ho & H0 & H1) Hl. rewrite <-Hl in *.
  exact (conj (conj Hd (conj (lookup_insert_eq _ _ _) Hs)) (conj Ho (conj H0 H1))).
Qed.

(** Replacing a block by one of the same length keeps every array. *)
Lemma covers_put_block w b p l q m m' : covers (store w) b p l ->
  store w !! q = Some m -> length m' = length m ->
  exists l', covers (store (put_block q m' w)) b p l'.
Proof.
  intros ((Hd & Hp & Hs) & Ho & H0 & H1) Hq Hl. destruct (decide (p = q)) as [->|Hne].
  - rewrite Hp in Hq. injection Hq as <-. exists m'. apply (covers_replace _ _ _ l); [|done].
    exact (conj (conj Hd (conj Hp Hs)) (conj Ho (conj H0 H1))).
  - exists l. refine (conj (conj Hd (conj _ Hs)) (conj Ho (conj H0 H1))). cbn. by rewrite lookup_insert_ne.
Qed.

Lemma sound_put_block w q m m' : sound w -> store w !! q = Some m -> length m' = length m ->
  Forall (fits_s 8) m' -> sound (put_block q m' w).
Proof.
  intros [H1 H2] Hq Hl Hm. split.
  - intros this b Hb. destruct (H1 _ _ Hb) as (p & l & Hc). exists p. by eapply covers_put_block.
  - cbn. intros p l Hp. apply lookup_insert_Some in Hp as [[<- <-]|[_ Hp]]; [done|by eapply H2].
Qed.

Lemma sound_put_object w this b p l : sound w -> covers (store w) b p l -> sound (put_object this b w).
Proof.
  intros [H1 H2] Hc. split; [|done]. cbn. intros t c Ht.
  apply lookup_insert_Some in Ht as [[<- <-]|[_ Ht]]; [by eauto|by eapply H1].
Qed.

Lemma sound_bytes w p l : sound w -> store w !! p = Some l -> Forall (fits_s 8) l.
Proof. intros [_ H]. apply H. Qed.

Lemma memcpy_bytes (l : list Z) off src : Forall (fits_s 8) l -> Forall (fits_s 8) src -> Forall (fits_s 8) (memcpy l off src).
Proof.
  intros Hl Hs. unfold memcpy. rewrite !Forall_app. split_and!; [by apply Forall_take|done|by apply Forall_drop].
Qed.

(** ** Single bytes *)

Section Byte.
Context (w : world) (this : positive) (b : ByteBuffer) (p : positive) (l : list Z).
Context (Hthis : objects w !! this = Some b) (Hc : covers (store w) b p l).

Lemma Ix_run i : 0 <= i <= mCapacity (super b) -> Ix this i w = Some (i + mOffset b, w).
Proof.
  intros Hi. apply result_wp. unfold Ix. repeat wstep. apply wp_int; [|done].
  destruct Hc as (_ & Ho & H0 & H1). unfold ordered in Ho. fits.
Qed.

Lemma load_run i : 0 <= i < Z.of_nat (length l) -> exists x, l !! Z.to_nat i = Some x /\ load this i w = Some (x, w).
Proof.
  intros Hi. destruct (lookup_lt_is_Some_2 l (Z.to_nat i)) as [x Hx]; [lia|]. exists x. split; [done|].
  apply result_wp. unfold load. repeat wstep. eapply wp_on_store_look; [|done].
  unfold RtArray.get. rewrite (covers_data _ _ _ _ Hc). rewrite <-(Z2Nat.id i) by lia.
  eapply RtArrayProofs.load_at; [by eapply covers_block|done].
Qed.

Lemma assign_run i x : 0 <= i < Z.of_nat (length l) ->
  assign this i x w = Some (tt, put_block p (<[Z.to_nat i := x]> l) w).
Proof.
  intros Hi. apply result_wp. unfold assign. repeat wstep. eapply wp_on_store; [|done].
  unfold RtArray.Set_. rewrite (covers_data _ _ _ _ Hc). rewrite <-(Z2Nat.id i) at 1 by lia.
  apply RtArrayProofs.assign_at; [by eapply covers_block|lia].
Qed.

(** The byte at index [i] of the buffer. *)
Definition at_index (i : Z) : Z := l !!! Z.to_nat (i + mOffset b).

Lemma at_index_lookup i : 0 <= i < mCapacity (super b) -> l !! Z.to_nat (i + mOffset b) = Some (at_index i).
Proof.
  intros Hi. apply list_lookup_lookup_total_lt. destruct Hc as (_ & _ & H0 & H1). lia.
Qed.

Lemma Get_at_run i :
  Get_at this i w = Some (if (0 <=? i) && (i <? mLimit (super b)) then (NOERROR, Some (at_index i))
                          else (E_INDEX_OUT_OF_BOUNDS_EXCEPTION, None), w).
Proof.
  apply result_wp. unfold Get_at. apply wp_fail_return_out. eapply wp_on_buffer_look; [done|done|].
  rewrite Z.geb_leb, (Z.leb_antisym i 0), (Z.leb_antisym i).
  destruct (Z.ltb_spec i 0); cbn; [done|].
  destruct (Z.ltb_spec i (mLimit (super b))); cbn; [|done].
  pose proof Hc as (_ & Ho & Hoff & Hlen). unfold ordered in Ho.
  apply wp_bind. eapply wp_result; [apply Ix_run; lia|]. apply wp_bind.
  destruct (load_run (i + mOffset b)) as (x & Hx & Hl); [lia|].
  eapply wp_result; [exact Hl|]. wstep. rewrite at_index_lookup in Hx by lia. by injection Hx as <-.
Qed.

End Byte.

(** ** A world for examples: a buffer on a block of sixteen bytes, and one on
    its part from the fourth byte on. *)

Definition demo_array : RtArray.Array := {| RtArray.mData := Some 1%positive; RtArray.mSize := 16 |}.

Definition demo_buffer (offset pos : Z) : ByteBuffer :=
  {| super := {| mPosition := pos; mElementSizeShift := 0; mMark := -1; mLimit := 16 - offset; mCapacity := 16 - offset |};
     mHb := demo_array; mOffset := offset; mIsReadOnly := false; mBigEndian := true; mNativeByteOrder := false |}.

Definition demo_bytes : list Z := [1; 2; 3; 4; 5; 6; 7; 8; 9; 10; 11; 12; 13; 14; 15; 16].

Definition demo_world : world :=
  {| store := {[ 1%positive := demo_bytes ]};
     objects := {[ 1%positive := demo_buffer 0 2; 2%positive := demo_buffer 4 0 ]} |}.

Lemma demo_covers offset pos : 0 <= pos <= 16 - offset -> 0 <= offset <= 16 ->
  covers (store demo_world) (demo_buffer offset pos) 1 demo_bytes.
Proof.
  intros H1 H2. split; [by split_and!|]. split; [unfold ordered; cbn; lia|]. cbn. lia.
Qed.

Lemma demo_sound : sound demo_world.
Proof.
  split.
  - intros this b Hb. exists 1%positive, demo_bytes. cbn in Hb.
    apply lookup_insert_Some in Hb as [[<- <-]|[_ Hb]]; [by apply demo_covers|].
    apply lookup_singleton_Some in Hb as [<- <-]. by apply demo_covers.
  - intros p l Hl. cbn in Hl. apply lookup_singleton_Some in Hl as [<- <-].
    unfold demo_bytes. repeat constructor; unfold fits_s; lia.
Qed.

End ByteBufferProofs.
