(* ===== verification/BitsProofs.v ===== *)
(** * Numbers in byte buffers: encodings

    Each type of number has an encoding in each byte order; [Bits] writes it and
    reads it back.  [Number] is what the typed accessors rely on. *)
From S2P Require Import Prelude.
From S2P Require Import RtArray.
From S2P Require Import RtArrayProofs.
From S2P Require Import ECode.
From S2P Require Import Buffer.
From S2P Require Import ByteBuffer.
From S2P Require Import Bits.
From S2P Require Import HeapByteBuffer.
From S2P Require Import ByteBufferProofs.

Module BitsProofs.
Import ByteBuffer Bits HeapByteBuffer ByteBufferProofs.

(** ** Digits to the base 256 *)

Lemma lor_add a n b : 0 <= n -> 0 <= b < 2 ^ n -> Z.lor (a * 2 ^ n) b = a * 2 ^ n + b.
Proof.
  intros Hn Hb. rewrite <-(Z.add_lor_land (a * 2 ^ n) b).
  enough (Z.land (a * 2 ^ n) b = 0) by lia. apply Z.bits_inj'. intros i Hi.
  rewrite Z.land_spec, Z.bits_0, <-Z.shiftl_mul_pow2 by done.
  destruct (Z.lt_ge_cases i n); [by rewrite Z.shiftl_spec_low|].
  rewrite <-(Z.mod_small b (2 ^ n)), Z.mod_pow2_bits_high by lia. apply andb_false_r.
Qed.

(** The next digit of a number whose higher digits are [h]. *)
Lemma lor_digit h b n : 0 <= n -> Z.lor (h * 2 ^ (n + 8)) (Z.shiftl (Z.land b 0xff) n) = (h * 256 + b mod 256) * 2 ^ n.
Proof.
  intros Hn. change 0xff with (Z.ones 8). rewrite Z.land_ones, Z.shiftl_mul_pow2 by lia. change (2 ^ 8) with 256.
  pose proof (Z.mod_pos_bound b 256 ltac:(lia)). pose proof (pow2_pos n Hn).
  rewrite lor_add by (rewrite ?Z.pow_add_r by lia; change (2 ^ 8) with 256; nia).
  rewrite Z.pow_add_r by lia. change (2 ^ 8) with 256. lia.
Qed.

Lemma lor_digit_0 h b : Z.lor (h * 2 ^ 8) (Z.land b 0xff) = h * 256 + b mod 256.
Proof. pose proof (lor_digit h b 0 ltac:(lia)) as H. rewrite Z.shiftl_0_r in H. change (2 ^ 0) with 1 in H. rewrite Z.mul_1_r in H. exact H. Qed.

Lemma wrap_s_shiftl w n b : 0 < w -> 0 <= n -> wrap_s (w + n) (Z.shiftl b n) = wrap_s w b * 2 ^ n.
Proof.
  intros Hw Hn. rewrite Z.shiftl_mul_pow2 by done. pose proof (pow2_pos n Hn).
  rewrite <-(wrap_s_id (w + n) (wrap_s w b * 2 ^ n)); [|lia|].
  - apply wrap_s_congr. rewrite Z.pow_add_r by lia. rewrite !Zmult_mod_distr_r.
    by rewrite wrap_s_mod.
  - pose proof (wrap_s_range w b Hw) as Hr. unfold fits_s in *.
    replace (w + n - 1) with ((w - 1) + n) by lia. rewrite Z.pow_add_r by lia. nia.
Qed.

Lemma shiftr_digit x n : 0 <= n -> Z.shiftr x (n + 8) * 256 + Z.shiftr x n mod 256 = Z.shiftr x n.
Proof.
  intros Hn. rewrite <-(Z.shiftr_shiftr x n 8) by lia. rewrite (Z.shiftr_div_pow2 _ 8) by lia.
  change (2 ^ 8) with 256. pose proof (Z.div_mod (Z.shiftr x n) 256). lia.
Qed.

Lemma i8_mod x : i8 x mod 256 = x mod 256.
Proof. apply (wrap_s_mod 8). lia. Qed.

Lemma shiftr_fits w n x : 0 < w -> 0 <= n -> fits_s (w + n) x -> fits_s w (Z.shiftr x n).
Proof.
  intros Hw Hn. unfold fits_s. rewrite Z.shiftr_div_pow2 by done. replace (w + n - 1) with ((w - 1) + n) by lia.
  rewrite Z.pow_add_r by lia. pose proof (pow2_pos n Hn). pose proof (pow2_pos (w - 1)). intros [Hl Hh]. split.
  - apply Z.div_le_lower_bound; lia.
  - apply Z.div_lt_upper_bound; lia.
Qed.

(** *** The numbers from bytes, by their digits *)

Definition digit (h b : Z) : Z := h * 256 + b mod 256.

Lemma MakeInteger_digits b3 b2 b1 b0 : MakeInteger b3 b2 b1 b0 = digit (digit (digit (i8 b3) b2) b1) b0.
Proof.
  unfold MakeInteger, lor4, digit. rewrite (wrap_s_shiftl 8 24) by lia.
  rewrite (lor_digit _ b2 16), (lor_digit _ b1 8), lor_digit_0 by lia. done.
Qed.

Lemma MakeShort_digits b1 b0 : fits_s 8 b1 -> MakeShort b1 b0 = digit b1 b0.
Proof.
  intros Hb. unfold MakeShort, digit. rewrite (wrap_s_id 32), Z.shiftl_mul_pow2, lor_digit_0; [|lia|lia|].
  - apply wrap_s_id; [lia|]. pose proof (Z.mod_pos_bound b0 256). unfold fits_s in *. cbn in *. lia.
  - rewrite Z.shiftl_mul_pow2 by lia. unfold fits_s in *. cbn in *. lia.
Qed.

Lemma MakeChar_digits b3 b2 b1 b0 : MakeChar b3 b2 b1 b0 = u32 (digit (digit (digit (i8 b3) b2) b1) b0).
Proof. rewrite <-MakeInteger_digits. done. Qed.

Lemma MakeLong_digits b7 b6 b5 b4 b3 b2 b1 b0 :
  MakeLong b7 b6 b5 b4 b3 b2 b1 b0 =
    digit (digit (digit (digit (digit (digit (digit (i8 b7) b6) b5) b4) b3) b2) b1) b0.
Proof.
  unfold MakeLong, lor4, digit. rewrite (wrap_s_shiftl 8 56) by lia.
  rewrite (lor_digit _ b6 48), (lor_digit _ b5 40), (lor_digit _ b4 32), (lor_digit _ b3 24),
    (lor_digit _ b2 16), (lor_digit _ b1 8), lor_digit_0 by lia. done.
Qed.

Lemma digit_shiftr x m n : 0 <= n -> m = n + 8 -> digit (Z.shiftr x m) (i8 (Z.shiftr x n)) = Z.shiftr x n.
Proof. intros Hn ->. unfold digit. rewrite i8_mod. by apply shiftr_digit. Qed.

Lemma digit_shiftr_0 x : digit (Z.shiftr x 8) (i8 x) = x.
Proof. pose proof (digit_shiftr x 8 0 ltac:(lia) eq_refl) as H. by rewrite Z.shiftr_0_r in H. Qed.

Lemma digit_range w h b : 0 < w -> fits_s w h -> fits_s (w + 8) (digit h b).
Proof.
  intros Hw. unfold fits_s, digit. replace (w + 8 - 1) with ((w - 1) + 8) by lia. rewrite Z.pow_add_r by lia.
  change (2 ^ 8) with 256. pose proof (Z.mod_pos_bound b 256). lia.
Qed.

(** *** Round trips *)

Lemma Integer_bytes x : fits_s 32 x -> MakeInteger (Integer3 x) (Integer2 x) (Integer1 x) (Integer0 x) = x.
Proof.
  intros Hx. rewrite MakeInteger_digits. unfold Integer3, Integer2, Integer1, Integer0.
  rewrite wrap_s_idemp, (wrap_s_id 8) by (lia || by apply (shiftr_fits 8 24)).
  by rewrite (digit_shiftr x 24 16), (digit_shiftr x 16 8), digit_shiftr_0 by lia.
Qed.

Lemma Short_bytes x : fits_s 16 x -> MakeShort (Short1 x) (Short0 x) = x.
Proof.
  intros Hx. unfold Short1, Short0. rewrite MakeShort_digits by (apply wrap_s_range; lia).
  rewrite (wrap_s_id 8 (Z.shiftr x 8)) by (lia || by apply (shiftr_fits 8 8)). apply digit_shiftr_0.
Qed.

Lemma Long_bytes x : fits_s 64 x ->
  MakeLong (Long7 x) (Long6 x) (Long5 x) (Long4 x) (Long3 x) (Long2 x) (Long1 x) (Long0 x) = x.
Proof.
  intros Hx. rewrite MakeLong_digits. unfold Long7, Long6, Long5, Long4, Long3, Long2, Long1, Long0.
  rewrite wrap_s_idemp, (wrap_s_id 8) by (lia || by apply (shiftr_fits 8 56)).
  by rewrite (digit_shiftr x 56 48), (digit_shiftr x 48 40), (digit_shiftr x 40 32), (digit_shiftr x 32 24),
    (digit_shiftr x 24 16), (digit_shiftr x 16 8), digit_shiftr_0 by lia.
Qed.

(** The four low bytes do not see what [i32] cuts off. *)
Lemma low_bytes x n : 0 <= n <= 24 -> i8 (Z.shiftr (i32 x) n) = i8 (Z.shiftr x n).
Proof.
  intros Hn. apply wrap_s_congr. rewrite <-!Z.land_ones by lia. apply Z.bits_inj'. intros i Hi.
  rewrite !Z.land_spec, !Z.shiftr_spec by done. destruct (Z.lt_ge_cases i 8); [|by rewrite Z.ones_spec_high, !andb_false_r by lia].
  f_equal. rewrite <-(Z.mod_pow2_bits_low (i32 x) 32), <-(Z.mod_pow2_bits_low x 32) by lia. by rewrite wrap_s_mod.
Qed.

Lemma low_byte x : i8 (i32 x) = i8 x.
Proof. pose proof (low_bytes x 0 ltac:(lia)) as E. by rewrite !Z.shiftr_0_r in E. Qed.

(** An [Integer] from the low bytes of any number. *)
Lemma Integer_low x : MakeInteger (i8 (Z.shiftr x 24)) (i8 (Z.shiftr x 16)) (i8 (Z.shiftr x 8)) (i8 x) = i32 x.
Proof.
  rewrite <-(low_byte x), <-(low_bytes x 24), <-(low_bytes x 16), <-(low_bytes x 8) by lia.
  change (MakeInteger (Integer3 (i32 x)) (Integer2 (i32 x)) (Integer1 (i32 x)) (Integer0 (i32 x)) = i32 x).
  apply Integer_bytes, wrap_s_range. lia.
Qed.

(** A [Char] is an [Integer] seen without its sign. *)
Lemma Char_bytes x : fits_u 32 x -> MakeChar (Char3 x) (Char2 x) (Char1 x) (Char0 x) = x.
Proof.
  intros Hx. change (u32 (MakeInteger (i8 (Z.shiftr x 24)) (i8 (Z.shiftr x 16)) (i8 (Z.shiftr x 8)) (i8 x)) = x).
  rewrite Integer_low. unfold wrap_u. rewrite wrap_s_mod by lia. by apply Z.mod_small.
Qed.

(** ** In a block *)

(** The block holds [src] from [bi] on. *)
Definition holds (l : list Z) (bi : Z) (src : list Z) : Prop :=
  0 <= bi /\ bi + Z.of_nat (length src) <= Z.of_nat (length l) /\
  take (length src) (drop (Z.to_nat bi) l) = src.

Lemma holds_lookup l bi src (j : nat) x : holds l bi src -> src !! j = Some x -> l !! Z.to_nat (bi + Z.of_nat j) = Some x.
Proof.
  intros (H0 & _ & H) Hx. pose proof (lookup_lt_Some _ _ _ Hx). rewrite <-H in Hx.
  rewrite lookup_take_lt, lookup_drop in Hx by done. by replace (Z.to_nat (bi + Z.of_nat j)) with (Z.to_nat bi + j)%nat by lia.
Qed.

Lemma holds_memcpy l bi src : 0 <= bi -> bi + Z.of_nat (length src) <= Z.of_nat (length l) ->
  holds (memcpy l (Z.to_nat bi) src) bi src.
Proof.
  intros H0 H1. split_and!; [done|rewrite memcpy_length by lia; lia|].
  rewrite take_drop_commute, memcpy_take by lia.
  apply drop_app_length'. rewrite length_take. lia.
Qed.

Lemma holds_part l bi n : 0 <= bi -> bi + Z.of_nat n <= Z.of_nat (length l) ->
  exists src, length src = n /\ holds l bi src.
Proof.
  intros H0 H1. exists (take n (drop (Z.to_nat bi) l)).
  assert (length (take n (drop (Z.to_nat bi) l)) = n) as E by (rewrite length_take, length_drop; lia).
  split; [done|]. unfold holds. rewrite E. split_and!; [lia|lia|done].
Qed.

Section Block.
Context (w : world) (this : positive) (b : ByteBuffer) (p : positive) (l : list Z) (bi : Z) (n : nat).
Context (Hthis : objects w !! this = Some b) (Hc : covers (store w) b p l).
Context (Hbi : 0 <= bi) (Hn : bi + Z.of_nat n <= Z.of_nat (length l)).

(** The world with [src] written at [bi]. *)
Definition written (src : list Z) : world := put_block p (memcpy l (Z.to_nat bi) src) w.

Lemma written_covers src : length src = n -> covers (store (written src)) b p (memcpy l (Z.to_nat bi) src).
Proof.
  intros Hs. destruct Hc as ((Hd & Hp & Hsz) & Ho & H0 & H1).
  assert (Hlen : length (memcpy l (Z.to_nat bi) src) = length l) by (apply memcpy_length; lia).
  unfold covers, RtArrayProofs.backs. rewrite Hlen. split_and!; try done; [apply lookup_insert_eq|lia|lia].
Qed.

Lemma written_start src : holds l bi src -> written src = w.
Proof.
  clear Hbi Hn. intros (Hbi & Hlen & Hs). unfold written. rewrite <-Hs, RtArrayProofs.memcpy_self by lia.
  eapply put_block_same, covers_block, Hc.
Qed.

Lemma wp_get_byte i (src : list Z) (j : nat) x (Q : Z -> world -> Prop) :
  holds l bi src -> i = bi + Z.of_nat j -> src !! j = Some x -> Q x w -> wp (_Get this i) Q w.
Proof.
  clear Hbi Hn. intros Hl -> Hx HQ. pose proof (holds_lookup _ _ _ _ _ Hl Hx) as Hi.
  pose proof (lookup_lt_Some _ _ _ Hi). pose proof (proj1 Hl).
  pose proof Hc as (_ & _ & _ & Hmax). unfold _Get. wstep. apply wp_int; [fits|]. repeat wstep.
  eapply wp_on_store_look; [|done]. unfold RtArray.get. rewrite (covers_data _ _ _ _ Hc).
  rewrite <-(Z2Nat.id (bi + Z.of_nat j)) by lia. eapply RtArrayProofs.load_at; [by eapply covers_block|done].
Qed.

Context (Hwritable : mIsReadOnly b = false).

Lemma wp_put_byte i (src : list Z) (j : nat) x (Q : unit -> world -> Prop) :
  length src = n -> i = bi + Z.of_nat j -> (j < n)%nat -> Q tt (written (<[j := x]> src)) ->
  wp (put this i x) Q (written src).
Proof.
  intros Hs -> Hj HQ. pose proof (written_covers src Hs) as Hw.
  assert (Hlen : length (memcpy l (Z.to_nat bi) src) = length l) by (apply memcpy_length; lia).
  assert (Hobj : objects (written src) !! this = Some b) by done.
  pose proof Hw as (_ & _ & _ & Hmax). rewrite Hlen in Hmax.
  unfold put, _Put. do 2 wstep. apply wp_int; [fits|]. repeat wstep. rewrite Hwritable. repeat wstep.
  eapply wp_on_store.
  - unfold RtArray.Set_. rewrite (covers_data _ _ _ _ Hw). rewrite <-(Z2Nat.id (bi + Z.of_nat j)) by lia.
    apply RtArrayProofs.assign_at; [by eapply covers_block|lia].
  - repeat wstep. change {| store := ?s; objects := ?o |} with {| store := s; objects := o |}.
    replace {| store := _; objects := _ |} with (written (<[j := x]> src)); [done|].
    unfold written, put_block. cbn. rewrite insert_insert_eq. do 2 f_equal.
    unfold memcpy. rewrite length_insert.
    rewrite insert_app_r_alt by (rewrite length_take; lia). rewrite length_take, Nat.min_l by lia.
    replace (Z.to_nat (bi + Z.of_nat j) - Z.to_nat bi)%nat with j by lia. by rewrite insert_app_l by lia.
Qed.

End Block.

(** ** The interface of the typed accessors *)

Class Number (nb : nat) (get : positive -> Z -> bool -> W Z) (put : positive -> Z -> Z -> bool -> W unit) := {
  in_range : Z -> Prop;          (* the values of the type *)
  sound_order : bool -> Prop;    (* the orders the type is written right in *)
  encode : bool -> Z -> list Z;
  decode : bool -> list Z -> Z;
  encode_length big x : length (encode big x) = nb;
  encode_bytes big x : Forall (fits_s 8) (encode big x);
  decode_range big src : length src = nb -> in_range (decode big src);
  decode_encode big x : in_range x -> decode big (encode big x) = x;
  get_decodes w this b p l bi big src :
    objects w !! this = Some b -> covers (store w) b p l -> holds l bi src -> length src = nb ->
    get this bi big w = Some (decode big src, w);
  put_encodes w this b p l bi big x :
    objects w !! this = Some b -> covers (store w) b p l -> mIsReadOnly b = false ->
    0 <= bi -> bi + Z.of_nat nb <= Z.of_nat (length l) -> sound_order big ->
    put this bi x big w = Some (tt, put_block p (memcpy l (Z.to_nat bi) (encode big x)) w)
}.

(** The bytes from the most significant one, as they lie in memory. *)
Definition in_order (big : bool) (l : list Z) : list Z := if big then l else rev l.

Lemma in_order_length big l : length (in_order big l) = length l.
Proof. destruct big; [done|apply length_rev]. Qed.

Lemma in_order_twice big l : in_order big (in_order big l) = l.
Proof. destruct big; [done|apply rev_involutive]. Qed.

Lemma in_order_Forall big (P : Z -> Prop) l : Forall P l -> Forall P (in_order big l).
Proof. destruct big; [done|apply Forall_rev]. Qed.

(** Reads and writes the bytes one by one: the index of each decides which. *)
Ltac read_byte Ho Hc j := eapply (wp_get_byte _ _ _ _ _ _ Ho Hc _ _ j); [eassumption|lia|reflexivity|].
Ltac write_byte Ho Hc Hbi Hn Hro j :=
  eapply (wp_put_byte _ _ _ _ _ _ _ Ho Hc Hbi Hn Hro _ _ j);
    [reflexivity|lia|lia|cbn [insert list_insert]].
Ltac each_byte tac := first [tac 0%nat|tac 1%nat|tac 2%nat|tac 3%nat|tac 4%nat|tac 5%nat|tac 6%nat|tac 7%nat].
Ltac elements src Hl :=
  repeat (destruct src as [|? src]; [try discriminate Hl|try discriminate Hl]); clear Hl.

(** The laws of a number whose bytes [Bits] handles one by one. *)
Ltac encode_laws := intros; first [by rewrite in_order_length|apply in_order_Forall; repeat constructor; apply wrap_s_range; lia].

Ltac decode_law tac :=
  let Hl := fresh in
  intros big src Hl; rewrite <-(in_order_length big) in Hl; revert Hl; generalize (in_order big src); clear;
  intros src Hl; elements src Hl; tac.

Ltac get_law w this p l bi src :=
  intros w this b p l bi big src Ho Hc Hl Hn; apply result_wp; elements src Hn; destruct big; cbv beta delta [
    Bits.GetChar Bits.GetCharB Bits.GetCharL Bits.GetShort Bits.GetShortB Bits.GetShortL
    Bits.GetInteger Bits.GetIntegerB Bits.GetIntegerL Bits.GetLong Bits.GetLongB Bits.GetLongL] iota;
  repeat (wstep || each_byte ltac:(fun j => read_byte Ho Hc j)); done.

Ltac put_law nb w this p l bi :=
  intros w this b p l bi big x Ho Hc Hro Hbi Hn _; apply result_wp;
  destruct (holds_part l bi nb Hbi Hn) as (src & Hs & Hl);
  rewrite <-(written_start _ _ _ _ _ Hc src Hl); elements src Hs; destruct big; cbv beta delta [
    Bits.PutChar Bits.PutCharB Bits.PutCharL Bits.PutShort Bits.PutShortB Bits.PutShortL
    Bits.PutInteger Bits.PutIntegerB Bits.PutIntegerL Bits.PutLong Bits.PutLongB Bits.PutLongL] iota;
  repeat (wstep || each_byte ltac:(fun j => write_byte Ho Hc Hbi Hn Hro j));
  by rewrite (written_start _ _ _ _ _ Hc _ Hl).

#[export, refine] Instance Short_number : Number 2 Bits.GetShort Bits.PutShort := {
  in_range := fits_s 16;
  sound_order _ := True;
  encode big x := in_order big [Short1 x; Short0 x];
  decode big src := match in_order big src with [b1; b0] => MakeShort b1 b0 | _ => 0 end
}.
Proof.
  1, 2: encode_laws.
  - decode_law ltac:(apply wrap_s_range; lia).
  - intros big x Hx. rewrite in_order_twice. by apply Short_bytes.
  - get_law w this p l bi src.
  - put_law 2%nat w this p l bi.
Defined.

#[export, refine] Instance Char_number : Number 4 Bits.GetChar Bits.PutChar := {
  in_range := fits_u 32;
  sound_order _ := True;
  encode big x := in_order big [Char3 x; Char2 x; Char1 x; Char0 x];
  decode big src := match in_order big src with [b3; b2; b1; b0] => MakeChar b3 b2 b1 b0 | _ => 0 end
}.
Proof.
  1, 2: encode_laws.
  - decode_law ltac:(rewrite MakeChar_digits; apply wrap_u_range; lia).
  - intros big x Hx. rewrite in_order_twice. by apply Char_bytes.
  - get_law w this p l bi src.
  - put_law 4%nat w this p l bi.
Defined.

#[export, refine] Instance Integer_number : Number 4 Bits.GetInteger Bits.PutInteger := {
  in_range := fits_s 32;
  sound_order _ := True;
  encode big x := in_order big [Integer3 x; Integer2 x; Integer1 x; Integer0 x];
  decode big src := match in_order big src with [b3; b2; b1; b0] => MakeInteger b3 b2 b1 b0 | _ => 0 end
}.
Proof.
  1, 2: encode_laws.
  - decode_law ltac:(rewrite MakeInteger_digits; apply (digit_range 24), (digit_range 16), (digit_range 8), wrap_s_range; lia).
  - intros big x Hx. rewrite in_order_twice. by apply Integer_bytes.
  - get_law w this p l bi src.
  - put_law 4%nat w this p l bi.
Defined.

#[export, refine] Instance Long_number : Number 8 Bits.GetLong Bits.PutLong := {
  in_range := fits_s 64;
  sound_order _ := True;
  encode big x := in_order big [Long7 x; Long6 x; Long5 x; Long4 x; Long3 x; Long2 x; Long1 x; Long0 x];
  decode big src := match in_order big src with [b7; b6; b5; b4; b3; b2; b1; b0] => MakeLong b7 b6 b5 b4 b3 b2 b1 b0 | _ => 0 end
}.
Proof.
  1, 2: encode_laws.
  - decode_law ltac:(rewrite MakeLong_digits; apply (digit_range 56), (digit_range 48), (digit_range 40), (digit_range 32), (digit_range 24), (digit_range 16), (digit_range 8), wrap_s_range; lia).
  - intros big x Hx. rewrite in_order_twice. by apply Long_bytes.
  - get_law w this p l bi src.
  - put_law 8%nat w this p l bi.
Defined.

(** A bit pattern goes through the signed integer of its width. *)
Lemma u_of_s w x : 0 < w -> fits_u w x -> wrap_u w (wrap_s w x) = x.
Proof. intros Hw Hx. unfold wrap_u. rewrite wrap_s_mod by done. by apply Z.mod_small. Qed.

#[export, refine] Instance Double_number : Number 8 Bits.GetDouble Bits.PutDouble := {
  in_range := fits_u 64;
  sound_order _ := True;
  encode big x := encode (Number := Long_number) big (DoubleToRawLongBits x);
  decode big src := LongBitsToDouble (decode (Number := Long_number) big src)
}.
Proof.
  - intros. apply encode_length.
  - intros. apply encode_bytes.
  - intros. apply wrap_u_range. lia.
  - intros big x Hx. rewrite decode_encode by (apply wrap_s_range; lia). apply u_of_s; [lia|done].
  - intros w this b p l bi big src Ho Hc Hl Hn.
    pose proof (get_decodes (Number := Long_number) _ _ _ _ _ _ big _ Ho Hc Hl Hn) as H.
    destruct big; exact (bind_Some _ _ _ _ _ H).
  - intros w this b p l bi big x Ho Hc Hro Hbi Hn Ht.
    pose proof (put_encodes (Number := Long_number) _ _ _ _ _ _ big (DoubleToRawLongBits x) Ho Hc Hro Hbi Hn Ht) as H.
    destruct big; exact H.
Defined.

(** A [Float] is written right in the big order alone. *)
#[export, refine] Instance Float_number : Number 4 Bits.GetFloat Bits.PutFloat := {
  in_range := fits_u 32;
  sound_order big := big = true;
  encode big x := encode (Number := Integer_number) big (FloatToRawIntegerBits x);
  decode big src := IntegerBitsToFloat (decode (Number := Integer_number) big src)
}.
Proof.
  - intros. apply encode_length.
  - intros. apply encode_bytes.
  - intros. apply wrap_u_range. lia.
  - intros big x Hx. rewrite decode_encode by (apply wrap_s_range; lia). apply u_of_s; [lia|done].
  - intros w this b p l bi big src Ho Hc Hl Hn.
    pose proof (get_decodes (Number := Integer_number) _ _ _ _ _ _ big _ Ho Hc Hl Hn) as H.
    destruct big; exact (bind_Some _ _ _ _ _ H).
  - intros w this b p l bi big x Ho Hc Hro Hbi Hn ->.
    exact (put_encodes (Number := Integer_number) _ _ _ _ _ _ true (FloatToRawIntegerBits x) Ho Hc Hro Hbi Hn I).
Defined.

End BitsProofs.
