(* ===== verification/NumberProofs.v ===== *)
(** * Numbers in byte buffers

    The typed accessors of [HeapByteBuffer] for every type of number: what they
    do on each branch, by the laws of [Number]. *)
From S2P Require Import Prelude.
From S2P Require Import RtArray.
From S2P Require Import RtArrayProofs.
From S2P Require Import ECode.
From S2P Require Import Buffer.
From S2P Require Import ByteBuffer.
From S2P Require Import Bits.
From S2P Require Import HeapByteBuffer.
From S2P Require Import ByteBufferProofs.
From S2P Require Import BitsProofs.

Module NumberProofs.
Import Buffer.Buffer ByteBuffer HeapByteBuffer ByteBufferProofs BitsProofs.

(** The bytes at [index] of a buffer whose block holds [l]. *)
Definition bytes_at (b : ByteBuffer) (l : list Z) (index : Z) (n : nat) : list Z :=
  take n (drop (Z.to_nat (index + mOffset b)) l).

(** The number of [nb] bytes at [index] lies below the limit. *)
Definition in_limit (b : ByteBuffer) (index : Z) (nb : nat) : Prop :=
  0 <= index /\ Z.of_nat nb <= mLimit (super b) - index.

#[export] Instance in_limit_dec b index nb : Decision (in_limit b index nb).
Proof. unfold in_limit. apply _. Defined.

Section Accessors.
Context (w : world) (this : positive) (b : ByteBuffer) (p : positive) (l : list Z).
Context (Hthis : objects w !! this = Some b) (Hc : covers (store w) b p l).

Lemma in_limit_block index nb : in_limit b index nb ->
  0 <= index + mOffset b /\ index + mOffset b + Z.of_nat nb <= Z.of_nat (length l) /\ 0 <= index <= mCapacity (super b).
Proof. destruct Hc as (_ & Ho & H0 & H1). unfold in_limit, ordered in *. lia. Qed.

Lemma bytes_at_length index nb : in_limit b index nb -> length (bytes_at b l index nb) = nb.
Proof. intros H. apply in_limit_block in H. unfold bytes_at. rewrite length_take, length_drop. lia. Qed.

Lemma bytes_at_holds index nb : in_limit b index nb -> holds l (index + mOffset b) (bytes_at b l index nb).
Proof.
  intros H. pose proof (bytes_at_length _ _ H) as E. pose proof (in_limit_block _ _ H). unfold holds. rewrite E.
  split_and!; [lia|lia|done].
Qed.

Lemma wp_bits_of {X} index (bits : positive -> Z -> bool -> W X) Q :
  0 <= index <= mCapacity (super b) -> wp (bits this (index + mOffset b) (mBigEndian b)) Q w ->
  wp (bits_of this index bits) Q w.
Proof.
  intros Hi HQ. unfold bits_of. wstep. eapply wp_result; [by apply (Ix_run _ _ _ _ _ Hthis Hc)|]. repeat wstep. exact HQ.
Qed.

Lemma check_of index nb : fits_s 32 index ->
  CheckIndex_of index (Z.of_nat nb) (super b) =
    Some (if decide (in_limit b index nb) then NOERROR else E_INDEX_OUT_OF_BOUNDS_EXCEPTION, super b).
Proof.
  intros Hi. destruct Hc as (_ & Ho & _). rewrite CheckIndex_of_run by done. do 2 f_equal.
  destruct (decide (in_limit b index nb)) as [H|H]; unfold in_limit in H;
    destruct (Z.leb_spec 0 index), (Z.leb_spec (Z.of_nat nb) (mLimit (super b) - index)); cbn; done || lia.
Qed.

Section Number.
Context {nb : nat} {get : positive -> Z -> bool -> W Z} {put : positive -> Z -> Z -> bool -> W unit}.
Context {N : Number nb get put}.

Lemma wp_get_bits index Q : in_limit b index nb ->
  Q (decode (mBigEndian b) (bytes_at b l index nb)) w -> wp (bits_of this index get) Q w.
Proof.
  intros Hi HQ. apply wp_bits_of; [apply (in_limit_block _ _ Hi)|].
  eapply wp_result; [|exact HQ]. eapply get_decodes; eauto using bytes_at_holds, bytes_at_length.
Qed.

Definition stored (index value : Z) : list Z :=
  memcpy l (Z.to_nat (index + mOffset b)) (encode (mBigEndian b) value).

Lemma wp_put_bits index value Q : in_limit b index nb -> mIsReadOnly b = false -> sound_order (mBigEndian b) ->
  Q tt (put_block p (stored index value) w) -> wp (bits_of this index (fun bb bi => put bb bi value)) Q w.
Proof.
  intros Hi Hro Hord HQ. pose proof (in_limit_block _ _ Hi). apply wp_bits_of; [lia|].
  eapply wp_result; [|exact HQ]. eapply put_encodes; eauto; lia.
Qed.

Lemma get_at_run index : fits_s 32 index ->
  get_at (Z.of_nat nb) get this index w =
    Some (if decide (in_limit b index nb) then (NOERROR, Some (decode (mBigEndian b) (bytes_at b l index nb)))
          else (E_INDEX_OUT_OF_BOUNDS_EXCEPTION, None), w).
Proof.
  intros Hi. apply result_wp. unfold get_at. apply wp_fail_return_out.
  eapply wp_on_buffer_look; [done|by apply check_of|]. destruct (decide (in_limit b index nb)) as [H|H]; cbn; [|done].
  wstep. apply wp_get_bits; [done|]. by wstep.
Qed.

Lemma put_at_run index value : fits_s 32 index -> mIsReadOnly b = false -> sound_order (mBigEndian b) ->
  put_at (Z.of_nat nb) put this index value w =
    Some (if decide (in_limit b index nb) then (NOERROR, put_block p (stored index value) w)
          else (E_INDEX_OUT_OF_BOUNDS_EXCEPTION, w)).
Proof.
  intros Hi Hro Hord. enough (wp (put_at (Z.of_nat nb) put this index value)
    (fun ec w' => (ec, w') = if decide (in_limit b index nb) then (NOERROR, put_block p (stored index value) w)
                  else (E_INDEX_OUT_OF_BOUNDS_EXCEPTION, w)) w) as H.
  { apply wp_run in H as (ec & w' & -> & H). by f_equal. }
  unfold put_at. repeat wstep. rewrite Hro. apply wp_fail_return.
  eapply wp_on_buffer_look; [done|by apply check_of|]. destruct (decide (in_limit b index nb)) as [H|H]; cbn; [|done].
  wstep. apply wp_put_bits; [done..|]. by wstep.
Qed.

Lemma put_at_read_only index value : mIsReadOnly b = true ->
  put_at (Z.of_nat nb) put this index value w = Some (E_READ_ONLY_BUFFER_EXCEPTION, w).
Proof. intros Hro. apply result_wp. unfold put_at. repeat wstep. rewrite Hro. by wstep. Qed.

End Number.
End Accessors.

(** *** The relative accessors: at the position, which they advance *)

Definition advanced (n : Z) (b : ByteBuffer) : ByteBuffer := with_super (set_mPosition (mPosition (super b) + n) (super b)) b.

Section Relative.
Context (w : world) (this : positive) (b : ByteBuffer) (p : positive) (l : list Z).
Context (Hthis : objects w !! this = Some b) (Hc : covers (store w) b p l).
Context {nb : nat} {get : positive -> Z -> bool -> W Z} {put : positive -> Z -> Z -> bool -> W unit}.
Context {N : Number nb get put}.

Definition enough : Prop := Z.of_nat nb <= mLimit (super b) - mPosition (super b).

Lemma enough_in_limit : enough -> in_limit b (mPosition (super b)) nb.
Proof. destruct Hc as (_ & Ho & _). unfold enough, in_limit, ordered in *. lia. Qed.

Lemma advanced_covers n : 0 <= n <= mLimit (super b) - mPosition (super b) -> covers (store w) (advanced n b) p l.
Proof. intros H. apply covers_super; [done| |done]. apply advanced_ordered; [apply Hc|done]. Qed.

Lemma wp_next_index_of error Q : enough ->
  Q (NOERROR, Some (mPosition (super b))) (put_object this (advanced (Z.of_nat nb) b) w) ->
  wp (on_buffer this (next_index_of error (Z.of_nat nb))) Q w.
Proof.
  intros He HQ. eapply wp_on_buffer; [done| |exact HQ]. rewrite next_index_of_run by (apply Hc || lia).
  unfold enough in He. by destruct (Z.leb_spec (Z.of_nat nb) (mLimit (super b) - mPosition (super b))); [|lia].
Qed.

Let b' := advanced (Z.of_nat nb) b.
Let w' := put_object this b' w.

Lemma get_next_run : enough ->
  get_next (Z.of_nat nb) get this w =
    Some ((NOERROR, Some (decode (mBigEndian b) (bytes_at b l (mPosition (super b)) nb))), w').
Proof.
  intros He. apply result_wp. unfold get_next. wstep. apply wp_next_index_of; [done|]. repeat wstep.
  assert (Hw' : objects w' !! this = Some b') by apply lookup_insert_eq.
  assert (Hc' : covers (store w') b' p l) by (apply advanced_covers; unfold enough in He; lia).
  eapply (wp_get_bits w' this b' p l Hw' Hc'); [|by wstep]. by apply enough_in_limit.
Qed.

Lemma put_next_run value : enough -> mIsReadOnly b = false -> sound_order (mBigEndian b) ->
  put_next (Z.of_nat nb) put this value w =
    Some (NOERROR, put_block p (stored (N := N) b l (mPosition (super b)) value) w').
Proof.
  intros He Hro Hord. apply result_wp. unfold put_next. repeat wstep. rewrite Hro. repeat wstep.
  apply wp_next_index_of; [done|]. repeat wstep.
  assert (Hw' : objects w' !! this = Some b') by apply lookup_insert_eq.
  assert (Hc' : covers (store w') b' p l) by (apply advanced_covers; unfold enough in He; lia).
  eapply (wp_put_bits w' this b' p l Hw' Hc'); [by apply enough_in_limit|done..|by wstep].
Qed.

(** Without room the error is dropped and the index is read unset. *)
Lemma get_next_undefined : ~ enough -> get_next (Z.of_nat nb) get this w = None.
Proof.
  intros He. unfold get_next. apply wp_undefined.
  apply (wp_on_buffer_look _ b _ (E_BUFFER_UNDERFLOW_EXCEPTION, None)); [done| |done].
  unfold NextGetIndex_of. rewrite next_index_of_run by (apply Hc || lia). unfold enough in He.
  by destruct (Z.leb_spec (Z.of_nat nb) (mLimit (super b) - mPosition (super b))); [lia|].
Qed.

End Relative.

End NumberProofs.
