(* ===== verification/NumberRoundTrip.v ===== *)
(** * Numbers in byte buffers: round trips

    A number put at an index is read back by every buffer on the same bytes, and
    a sequence of numbers put one after another is read back after [Flip]. *)
From S2P Require Import Prelude.
From S2P Require Import RtArray.
From S2P Require Import RtArrayProofs.
From S2P Require Import ECode.
From S2P Require Import Buffer.
From S2P Require Import ByteBuffer.
From S2P Require Import Bits.
From S2P Require Import HeapByteBuffer.
From S2P Require Import ByteBufferProofs.
From S2P Require Import BitsProofs.
From S2P Require Import NumberProofs.

Module NumberRoundTrip.
Import Buffer.Buffer ByteBuffer HeapByteBuffer ByteBufferProofs BitsProofs NumberProofs.

(** ** The types of numbers and their accessors *)

Inductive number := Char | Short | Integer | Long | Float | Double.

Definition width (k : number) : nat :=
  match k with Char | Integer | Float => 4 | Short => 2 | Long | Double => 8 end.

Definition range (k : number) (v : Z) : Prop :=
  match k with
  | Char | Float => fits_u 32 v
  | Short => fits_s 16 v
  | Integer => fits_s 32 v
  | Long => fits_s 64 v
  | Double => fits_u 64 v
  end.

(** A [Float] keeps its bits in the big order only. *)
Definition order_ok (k : number) (big : bool) : Prop := match k with Float => big = true | _ => True end.

Definition Get_number (k : number) : positive -> W (ECode * option Z) :=
  match k with
  | Char => GetChar | Short => GetShort | Integer => GetInteger
  | Long => GetLong | Float => GetFloat | Double => GetDouble
  end.

Definition Get_number_at (k : number) : positive -> Z -> W (ECode * option Z) :=
  match k with
  | Char => GetChar_at | Short => GetShort_at | Integer => GetInteger_at
  | Long => GetLong_at | Float => GetFloat_at | Double => GetDouble_at
  end.

Definition Put_number (k : number) : positive -> Z -> W ECode :=
  match k with
  | Char => PutChar | Short => PutShort | Integer => PutInteger
  | Long => PutLong | Float => PutFloat | Double => PutDouble
  end.

Definition Put_number_at (k : number) : positive -> Z -> Z -> W ECode :=
  match k with
  | Char => PutChar_at | Short => PutShort_at | Integer => PutInteger_at
  | Long => PutLong_at | Float => PutFloat_at | Double => PutDouble_at
  end.

(** One after another, until one fails. *)
Fixpoint write_numbers (this : positive) (items : list (number * Z)) : W ECode :=
  match items with
  | [] => ret NOERROR
  | (k, v) :: items => FAIL_RETURN (Put_number k this v) (write_numbers this items)
  end.

Fixpoint read_numbers (this : positive) (kinds : list number) : W (list Z) :=
  match kinds with
  | [] => ret []
  | k :: kinds =>
    r <- Get_number k this ;; v <- known r.2 ;; vs <- read_numbers this kinds ;; ret (v :: vs)
  end.

(** ** The laws, for all types at once *)

Definition bits_get (k : number) : positive -> Z -> bool -> W Z :=
  match k with
  | Char => Bits.GetChar | Short => Bits.GetShort | Integer => Bits.GetInteger
  | Long => Bits.GetLong | Float => Bits.GetFloat | Double => Bits.GetDouble
  end.

Definition bits_put (k : number) : positive -> Z -> Z -> bool -> W unit :=
  match k with
  | Char => Bits.PutChar | Short => Bits.PutShort | Integer => Bits.PutInteger
  | Long => Bits.PutLong | Float => Bits.PutFloat | Double => Bits.PutDouble
  end.

#[export] Instance laws k : Number (width k) (bits_get k) (bits_put k) :=
  match k with
  | Char => Char_number | Short => Short_number | Integer => Integer_number
  | Long => Long_number | Float => Float_number | Double => Double_number
  end.

Lemma range_laws k v : range k v -> in_range (Number := laws k) v.
Proof. by destruct k. Qed.

Lemma order_laws k big : order_ok k big -> sound_order (Number := laws k) big.
Proof. by destruct k. Qed.

Lemma Get_number_next k : Get_number k = get_next (Z.of_nat (width k)) (bits_get k).
Proof. by destruct k. Qed.
Lemma Get_number_at_eq k : Get_number_at k = get_at (Z.of_nat (width k)) (bits_get k).
Proof. by destruct k. Qed.
Lemma Put_number_next k : Put_number k = put_next (Z.of_nat (width k)) (bits_put k).
Proof. by destruct k. Qed.
Lemma Put_number_at_eq k : Put_number_at k = put_at (Z.of_nat (width k)) (bits_put k).
Proof. by destruct k. Qed.

Definition bytes_of (big : bool) (k : number) (v : Z) : list Z := encode (Number := laws k) big v.

Lemma bytes_of_length big k v : length (bytes_of big k v) = width k.
Proof. apply encode_length. Qed.

Lemma memcpy_reads (l : list Z) bi src n : length src = n -> (bi + n <= length l)%nat ->
  take n (drop bi (memcpy l bi src)) = src.
Proof.
  intros <- Hl. rewrite take_drop_commute, memcpy_take by lia. apply drop_app_length'. rewrite length_take. lia.
Qed.

(** ** One number *)

Lemma covers_eq s b p l q m : covers s b p l -> covers s b q m -> p = q /\ l = m.
Proof. intros ((H1 & H2 & _) & _) ((H3 & H4 & _) & _). rewrite H1 in H3. injection H3 as <-. rewrite H2 in H4. by injection H4. Qed.

(** Where the byte [i] of a buffer lies. *)
Definition cell (b : ByteBuffer) (i : Z) : option positive * Z := (RtArray.mData (mHb b), i + mOffset b).

Section One.
Context (w : world) (this : positive) (b : ByteBuffer) (k : number) (index v : Z).
Context (Hw : sound w) (Hthis : objects w !! this = Some b) (Hro : mIsReadOnly b = false).
Context (Hv : range k v) (Hord : order_ok k (mBigEndian b)).
Context (Hi : 0 <= index) (Hlim : index + Z.of_nat (width k) <= mLimit (super b)).

Lemma Put_number_at_run : exists p l, covers (store w) b p l /\
  (Z.to_nat (index + mOffset b) + width k <= length l)%nat /\
  Put_number_at k this index v w =
    Some (NOERROR, put_block p (memcpy l (Z.to_nat (index + mOffset b)) (bytes_of (mBigEndian b) k v)) w).
Proof.
  destruct (sound_object _ _ _ Hw Hthis) as (p & l & Hc). exists p, l. split; [done|].
  pose proof Hc as (_ & Ho & H0 & H1). unfold ordered in Ho.
  split; [lia|]. rewrite Put_number_at_eq.
  rewrite (put_at_run (N := laws k) _ _ _ _ _ Hthis Hc) by first [exact Hro|by apply order_laws|fits].
  rewrite decide_True by (split; lia). done.
Qed.

End One.

(** C27: a number put at an index of a buffer, a [Float] in the big byte order and
    any other in either, is what every buffer of the same byte order on the same
    array reads at those bytes afterwards, whatever its offset; every other byte
    reads as before, and no buffer moves. *)
Theorem numbers_round_trip w this b k index v :
  sound w -> objects w !! this = Some b -> mIsReadOnly b = false ->
  range k v -> order_ok k (mBigEndian b) -> 0 <= index -> index + Z.of_nat (width k) <= mLimit (super b) ->
  exists w', Put_number_at k this index v w = Some (NOERROR, w') /\ sound w' /\ objects w' = objects w /\
  (forall other c j, objects w !! other = Some c -> mBigEndian c = mBigEndian b ->
     0 <= j -> j + Z.of_nat (width k) <= mLimit (super c) -> cell c j = cell b index ->
     Get_number_at k other j w' = Some ((NOERROR, Some v), w')) /\
  (forall other c i, objects w !! other = Some c ->
     (forall n, 0 <= n < Z.of_nat (width k) -> cell c i <> cell b (index + n)) ->
     exists r, Get_at other i w = Some (r, w) /\ Get_at other i w' = Some (r, w')).
Proof.
  intros Hw Hthis Hro Hv Hord Hi Hlim.
  destruct (Put_number_at_run w this b k index v Hw Hthis Hro Hord Hi Hlim) as (p & l & Hc & Hfit & Hput).
  set (l' := memcpy l _ _) in Hput. eexists. split; [exact Hput|].
  assert (Hlen : length l' = length l) by (apply memcpy_length; rewrite bytes_of_length; lia).
  pose proof (covers_block _ _ _ _ Hc) as Hp.
  assert (Hw' : sound (put_block p l' w)).
  { eapply sound_put_block; [done..|]. apply memcpy_bytes; [by eapply sound_bytes|apply encode_bytes]. }
  split; [done|]. split; [done|].
  pose proof Hc as (_ & Ho & H0 & H1). split.
  - intros other c j Hother Hbig Hj Hjlim Hcell. unfold cell in Hcell. injection Hcell as Hdata Hpos.
    destruct (sound_object _ _ _ Hw' Hother) as (q & m & Hq).
    rewrite (covers_data _ _ _ _ Hc), (covers_data _ _ _ _ Hq) in Hdata. injection Hdata as ->.
    pose proof (covers_block _ _ _ _ Hq) as Hm. cbn in Hm. rewrite lookup_insert_eq in Hm. injection Hm as <-.
    rewrite Get_number_at_eq. pose proof Hq as (_ & Hoc & _). unfold ordered in Hoc.
    rewrite (get_at_run (N := laws k) (put_block p l' w) other c p l' Hother Hq) by fits.
    rewrite decide_True by (split; lia). do 3 f_equal. rewrite Hbig.
    unfold bytes_at. rewrite Hpos. unfold l'. rewrite memcpy_reads by (rewrite ?bytes_of_length; lia).
    f_equal. apply decode_encode. by apply range_laws.
  - intros other c i Hother Hout. destruct (sound_object _ _ _ Hw Hother) as (q & m & Hq).
    destruct (sound_object _ _ _ Hw' Hother) as (q' & m' & Hq').
    pose proof (covers_data _ _ _ _ Hq) as Hd. rewrite (covers_data _ _ _ _ Hq') in Hd. injection Hd as ->.
    eexists. split; [by apply (Get_at_run _ _ _ _ _ Hother Hq)|].
    rewrite (Get_at_run (put_block p l' w) _ _ _ _ Hother Hq'). do 2 f_equal. destruct (_ && _) eqn:E; [|done]. bprop.
    do 2 f_equal. unfold at_index. pose proof (covers_block _ _ _ _ Hq) as Hm.
    pose proof (covers_block _ _ _ _ Hq') as Hm'. cbn in Hm'.
    destruct (decide (q = p)) as [->|Hne].
    + rewrite Hp in Hm. injection Hm as <-. rewrite lookup_insert_eq in Hm'. injection Hm' as <-.
      rewrite !list_lookup_total_alt. unfold l'. f_equal. apply memcpy_out; rewrite bytes_of_length; [lia|].
      pose proof Hq as (_ & _ & Hqo & _).
      destruct (decide (Z.to_nat (i + mOffset c) < Z.to_nat (index + mOffset b) \/
        Z.to_nat (index + mOffset b) + width k <= Z.to_nat (i + mOffset c))%nat) as [Hd|Hd]; [done|].
      exfalso. apply (Hout (i + mOffset c - (index + mOffset b))); [lia|].
      unfold cell. rewrite (covers_data _ _ _ _ Hq), (covers_data _ _ _ _ Hc). f_equal. lia.
    + rewrite lookup_insert_ne in Hm' by done. rewrite Hm in Hm'. by injection Hm' as <-.
Qed.

(** ** Sequences *)

Definition encodes (big : bool) (items : list (number * Z)) : list Z :=
  concat (map (fun '(k, v) => bytes_of big k v) items).

Definition total (kinds : list number) : Z := Z.of_nat (sum_list (map width kinds)).

Definition well_typed (big : bool) (items : list (number * Z)) : Prop :=
  Forall (fun '(k, v) => range k v /\ order_ok k big) items.

Lemma encodes_length big items : Z.of_nat (length (encodes big items)) = total items.*1.
Proof.
  unfold total. induction items as [|[k v] items IH]; [done|]. cbn.
  rewrite length_app, bytes_of_length. fold (encodes big items). lia.
Qed.

Lemma total_cons k kinds : total (k :: kinds) = Z.of_nat (width k) + total kinds.
Proof. unfold total. cbn. lia. Qed.

Lemma advanced_twice n m b : advanced m (advanced n b) = advanced (n + m) b.
Proof. unfold advanced, with_super, set_mPosition. cbn. by rewrite Z.add_assoc. Qed.

Lemma advanced_0 b : advanced 0 b = b.
Proof. unfold advanced, with_super, set_mPosition. rewrite Z.add_0_r. by destruct b as [[] ]. Qed.

Lemma memcpy_append (l : list Z) a e1 e2 : (a + length e1 + length e2 <= length l)%nat ->
  memcpy (memcpy l a e1) (a + length e1) e2 = memcpy l a (e1 ++ e2).
Proof.
  intros Hl. apply list_eq. intros i. assert (length (memcpy l a e1) = length l) by (apply memcpy_length; lia).
  destruct (decide (a + length e1 <= i < a + length e1 + length e2)%nat).
  - rewrite !memcpy_in by (rewrite ?length_app; lia). rewrite lookup_app_r by lia. f_equal. lia.
  - rewrite memcpy_out by lia. destruct (decide (a <= i < a + length e1)%nat).
    + rewrite !memcpy_in by (rewrite ?length_app; lia). by rewrite lookup_app_l by lia.
    + rewrite !memcpy_out by (rewrite ?length_app; lia). done.
Qed.

Lemma write_run items : forall w this b p l,
  objects w !! this = Some b -> covers (store w) b p l -> mIsReadOnly b = false -> well_typed (mBigEndian b) items ->
  total items.*1 <= mLimit (super b) - mPosition (super b) ->
  exists w', write_numbers this items w = Some (NOERROR, w') /\
    objects w' = <[this := advanced (total items.*1) b]> (objects w) /\
    store w' = <[p := memcpy l (Z.to_nat (mPosition (super b) + mOffset b)) (encodes (mBigEndian b) items)]> (store w).
Proof.
  induction items as [|[k v] items IH]; intros w this b p l Ho Hc Hro Hty Hroom; cbn [write_numbers].
  { exists w. split; [done|]. change (total _) with 0. rewrite advanced_0, insert_id by done. split; [done|].
    unfold encodes. cbn [map concat]. rewrite RtArrayProofs.memcpy_nil, insert_id; [done|by eapply covers_block]. }
  apply Forall_cons in Hty as [[Hv Hord] Hty]. cbn [fmap list_fmap fst] in *. rewrite total_cons in *.
  pose proof (encodes_length (mBigEndian b) items) as Hlen. change (fst <$> items) with (items.*1) in *.
  pose proof Hc as (_ & Hob & H0 & H1). unfold ordered in Hob.
  unfold FAIL_RETURN, bind. rewrite Put_number_next.
  rewrite (put_next_run (N := laws k) _ _ _ _ _ Ho Hc) by first [exact Hro|by apply order_laws|unfold enough; lia].
  set (l1 := stored _ _ _ _). set (b1 := advanced _ b). set (w1 := put_block _ _ _).
  assert (Hl1 : length l1 = length l) by (apply memcpy_length; rewrite encode_length; lia).
  destruct (IH w1 this b1 p l1) as (w' & Hrun & Hobj & Hst).
  { apply lookup_insert_eq. }
  { cbn. apply (covers_replace _ _ _ l); [|done]. apply (advanced_covers w b p l Hc). lia. }
  { done. } { done. } { cbn. lia. }
  exists w'. split; [exact Hrun|]. rewrite Hobj, Hst. unfold w1, b1. cbn [objects store put_block put_object].
  rewrite !insert_insert_eq, advanced_twice. split; [done|]. f_equal.
  unfold l1, stored. cbn [mOffset mPosition super advanced with_super set_mPosition mBigEndian].
  change (encode (mBigEndian b) v) with (bytes_of (mBigEndian b) k v).
  replace (Z.to_nat (mPosition (super b) + Z.of_nat (width k) + mOffset b))
    with (Z.to_nat (mPosition (super b) + mOffset b) + length (bytes_of (mBigEndian b) k v))%nat
    by (rewrite bytes_of_length; lia).
  rewrite memcpy_append; [done|]. rewrite bytes_of_length. lia.
Qed.

(** The bytes of the items lie at the position. *)
Lemma read_run items : forall w this b p l,
  objects w !! this = Some b -> covers (store w) b p l -> well_typed (mBigEndian b) items ->
  total items.*1 <= mLimit (super b) - mPosition (super b) ->
  take (length (encodes (mBigEndian b) items)) (drop (Z.to_nat (mPosition (super b) + mOffset b)) l) =
    encodes (mBigEndian b) items ->
  read_numbers this items.*1 w = Some (items.*2, put_object this (advanced (total items.*1) b) w).
Proof.
  induction items as [|[k v] items IH]; intros w this b p l Ho Hc Hty Hroom Hbytes; cbn [read_numbers fmap list_fmap fst snd].
  { unfold ret. change (total []) with 0. by rewrite advanced_0, put_object_same. }
  apply Forall_cons in Hty as [[Hv Hord] Hty]. cbn [fmap list_fmap fst] in *. rewrite total_cons in *.
  change (encodes (mBigEndian b) ((k, v) :: items)) with (bytes_of (mBigEndian b) k v ++ encodes (mBigEndian b) items) in Hbytes.
  change (list_fmap _ _ fst items) with (items.*1) in *. change (list_fmap _ _ snd items) with (items.*2) in *.
  pose proof (encodes_length (mBigEndian b) items) as Hlen.
  pose proof Hc as (_ & Hob & H0 & H1). unfold ordered in Hob.
  rewrite length_app, bytes_of_length, <-take_take_drop, drop_drop in Hbytes.
  apply app_inj_1 in Hbytes as [Hfirst Hrest]; [|rewrite length_take, length_drop, bytes_of_length; lia].
  unfold bind at 1. rewrite Get_number_next.
  rewrite (get_next_run (N := laws k) _ _ _ _ _ Ho Hc) by (unfold enough; lia).
  set (b1 := advanced _ b). set (w1 := put_object _ _ _).
  unfold bytes_at. rewrite Hfirst. unfold bytes_of at 1. rewrite decode_encode by by apply range_laws.
  cbn [known snd]. unfold bind, ret.
  rewrite (IH w1 this b1 p l).
  - unfold w1, b1. rewrite put_object_twice, advanced_twice. done.
  - apply lookup_insert_eq.
  - apply (advanced_covers w b p l Hc). lia.
  - done.
  - cbn. lia.
  - cbn. etrans; [|exact Hrest]. do 2 f_equal. lia.
Qed.

(** A buffer filled from the start and read from the start. *)
Definition fill_and_read (this : positive) (bo : IByteOrder) (items : list (number * Z)) : W (list Z * bool) :=
  SetOrder this bo ;;;
  on_buffer this Clear ;;;
  write_numbers this items ;;;
  on_buffer this Flip ;;;
  vs <- read_numbers this items.*1 ;;
  more <- on_buffer this HasRemaining ;;
  ret (vs, more).

(** C11: any sequence of numbers that fits a buffer's capacity can be put one after
    another and, after [Flip], is read back in the same order, up to the limit:
    Chars, Shorts, Integers, Longs and Doubles in either byte order, and Floats
    in the big one. In the little order a Float is not kept
    ([little_float_is_a_long]). *)
Theorem sequences_round_trip w this b bo items :
  sound w -> objects w !! this = Some b -> mIsReadOnly b = false ->
  well_typed (bool_decide (bo = BIG_ENDIAN)) items -> total items.*1 <= mCapacity (super b) ->
  exists w', fill_and_read this bo items w = Some ((items.*2, false), w').
Proof.
  intros Hw Ho Hro Hty Hroom. destruct (sound_object _ _ _ Hw Ho) as (p & l & Hc).
  pose proof Hc as (Hbk & Hob & H0 & H1). unfold ordered in Hob.
  set (big := bool_decide (bo = BIG_ENDIAN)) in *.
  set (s0 := {| mPosition := 0; mElementSizeShift := mElementSizeShift (super b); mMark := -1;
                mLimit := mCapacity (super b); mCapacity := mCapacity (super b) |}).
  set (b0 := with_super s0 (set_order bo b)). set (w0 := put_object this b0 w).
  assert (Hstart : bind (SetOrder this bo) (fun _ => on_buffer this Clear) w = Some (NOERROR, w0)).
  { apply result_wp. unfold SetOrder. repeat wstep. eapply wp_on_object; [done|]. repeat wstep.
    eapply wp_on_buffer; [apply lookup_insert_eq|done|]. split; [done|].
    unfold w0. by rewrite put_object_twice. }
  assert (Hc0 : covers (store w0) b0 p l).
  { split; [exact Hbk|]. split; [unfold ordered; cbn; lia|]. cbn. lia. }
  assert (Ht0 : 0 <= total items.*1) by (unfold total; lia).
  destruct (write_run items w0 this b0 p l) as (w1 & Hwrite & Hobj1 & Hst1);
    [apply lookup_insert_eq|exact Hc0|done|exact Hty|cbn; lia|].
  set (b1 := advanced _ b0) in Hobj1. set (l1 := memcpy _ _ _) in Hst1.
  set (s2 := {| mPosition := 0; mElementSizeShift := mElementSizeShift (super b); mMark := -1;
                mLimit := total items.*1; mCapacity := mCapacity (super b) |}).
  set (b2 := with_super s2 b1). set (w2 := put_object this b2 w1).
  pose proof (encodes_length big items) as Hlen.
  assert (Hfit : (Z.to_nat (0 + mOffset b) + length (encodes big items) <= length l)%nat) by lia.
  assert (Hl1 : length l1 = length l) by (apply memcpy_length; exact Hfit).
  assert (Hc2 : covers (store w2) b2 p l1).
  { cbn. rewrite Hst1. apply (covers_replace _ _ _ l); [|done].
    split; [exact Hbk|]. split; [unfold ordered; cbn; lia|]. cbn. lia. }
  assert (Hread : read_numbers this items.*1 w2 = Some (items.*2, put_object this (advanced (total items.*1) b2) w2)).
  { eapply read_run; [apply lookup_insert_eq|exact Hc2|exact Hty|cbn; lia|].
    apply memcpy_reads; [done|exact Hfit]. }
  eexists. unfold fill_and_read. unfold bind in Hstart |- *.
  destruct (SetOrder this bo w) as [[ec ws]|]; [|done]. rewrite Hstart, Hwrite.
  assert (Hflip : on_buffer this Flip w1 = Some (NOERROR, w2)).
  { apply result_wp. eapply wp_on_buffer; [rewrite Hobj1; apply lookup_insert_eq|done|].
    split; [done|]. reflexivity. }
  rewrite Hflip, Hread.
  assert (Hmore : forall v, objects v !! this = Some (advanced (total items.*1) b2) -> on_buffer this HasRemaining v = Some (false, v)).
  { intros v Hv. apply result_wp. eapply wp_on_buffer_look; [exact Hv|reflexivity|]. split; [|done].
    cbn. apply Z.ltb_irrefl. }
  rewrite Hmore by apply lookup_insert_eq. reflexivity.
Qed.

(** *** Witnesses *)

(** Put through the first buffer, read through the second. *)
Lemma numbers_round_trip_witness :
  exists w', Put_number_at Integer 1 6 (-2) demo_world = Some (NOERROR, w') /\
    Get_number_at Integer 2 2 w' = Some ((NOERROR, Some (-2)), w').
Proof.
  destruct (numbers_round_trip demo_world 1 (demo_buffer 0 2) Integer 6 (-2)) as (w' & Hput & _ & _ & Hget & _);
    try exact demo_sound; try reflexivity; try exact I; cbn; try (unfold fits_s; lia).
  exists w'. split; [exact Hput|]. apply (Hget 2%positive (demo_buffer 4 0) 2); reflexivity || (cbn; lia).
Defined.

Definition demo_items : list (number * Z) := [(Short, -3); (Long, 1234567890123); (Char, 0x1F600)].

Lemma sequences_round_trip_witness :
  exists w', fill_and_read 1 LITTLE_ENDIAN demo_items demo_world = Some (([-3; 1234567890123; 0x1F600], false), w').
Proof.
  apply (sequences_round_trip demo_world 1 (demo_buffer 0 2) LITTLE_ENDIAN demo_items);
    try exact demo_sound; try reflexivity; [|by vm_compute].
  repeat apply Forall_cons_2; try apply Forall_nil_2; (split; [cbn; unfold fits_s, fits_u; lia|exact I]).
Defined.

End NumberRoundTrip.
