(* ===== verification/BufferRules.v ===== *)
(** * Byte buffers: what each operation does

    The rules of the operations that make buffers and move bytes in bulk, on
    sound worlds. *)
From S2P Require Import Prelude.
From S2P Require Import RtArray.
From S2P Require Import RtArrayProofs.
From S2P Require Import ECode.
From S2P Require Import Buffer.
From S2P Require Import ByteBuffer.
From S2P Require Import Bits.
From S2P Require Import HeapByteBuffer.
From S2P Require Import ByteBufferProofs.
From S2P Require Import BitsProofs.
From S2P Require Import NumberProofs.

Module BufferRules.
Import Buffer.Buffer ByteBuffer HeapByteBuffer ByteBufferProofs.

(** ** New buffers *)

(** The object a constructor leaves. *)
Definition made (s : Buffer) (buf : RtArray.Array) (off : Z) (isReadOnly : bool) : ByteBuffer :=
  {| super := s; mHb := buf; mOffset := off; mIsReadOnly := isReadOnly;
     mBigEndian := true; mNativeByteOrder := false |}.

Definition fresh_object (w : world) : positive := fresh (dom (objects w) : gset positive).

Lemma fresh_object_new w : objects w !! fresh_object w = None.
Proof. unfold fresh_object. apply not_elem_of_dom, is_fresh. Qed.

Lemma wp_new Q w : Q (fresh_object w) (put_object (fresh_object w) new_ByteBuffer w) -> wp new_ Q w.
Proof. done. Qed.

(** The base constructor followed by the flag. *)
Lemma wp_constructor (this : positive) buf mark pos lim cap off isReadOnly (Q : ECode -> world -> Prop) w :
  objects w !! this = Some new_ByteBuffer -> 0 <= cap -> (mark < 0 \/ mark <= pos) ->
  Q NOERROR (put_object this (made (constructed mark pos lim cap 0) buf off isReadOnly) w) ->
  wp (FAIL_RETURN (on_object this (ByteBuffer.Constructor mark pos lim cap buf off))
        (on_object this (modify (set_mIsReadOnly isReadOnly)) ;;; ret NOERROR)) Q w.
Proof.
  intros Ho Hcap Hmark HQ. apply wp_fail_return. eapply wp_on_object; [exact Ho|].
  unfold ByteBuffer.Constructor, FAIL_RETURN. wstep.
  assert (Hs : on_super (Buffer.Buffer.Constructor mark pos lim cap 0) new_ByteBuffer =
    Some (NOERROR, with_super (constructed mark pos lim cap 0) new_ByteBuffer))
    by (unfold on_super; cbn [super new_ByteBuffer]; by rewrite Constructor_run).
  unfold wp at 1. rewrite Hs. cbn [FAILED]. repeat wp_step. cbn [FAILED]. wp_step.
  eapply wp_on_object; [apply lookup_insert_eq|]. repeat wp_step. by rewrite put_object_twice.
Qed.

Lemma wp_construct this (m : W ECode) Q w :
  wp m (fun ec w' => if FAILED ec then wp (delete_ this) (fun _ v => Q (ec, None) v) w' else Q (NOERROR, Some this) w') w ->
  wp (HeapByteBuffer.construct this m) Q w.
Proof.
  intros H. unfold HeapByteBuffer.construct. wstep. eapply wp_mono; [exact H|]. intros ec w'. cbv beta.
  destruct (FAILED ec); intros H'; [|exact H']. wstep. eapply wp_mono; [exact H'|]. intros. by wstep.
Qed.

(** Making an object elsewhere does not touch the others. *)
Lemma sound_new w this b p l : sound w -> covers (store w) b p l -> sound (put_object this b w).
Proof. apply sound_put_object. Qed.

Section Existing.
Context (w : world) (this : positive) (b : ByteBuffer) (p : positive) (l : list Z).
Context (Hw : sound w) (Hthis : objects w !! this = Some b) (Hc : covers (store w) b p l).

Lemma super_ordered : ordered (super b).
Proof. apply Hc. Qed.

Lemma this_not_fresh : this <> fresh_object w.
Proof. intros E. pose proof (fresh_object_new w) as H. by rewrite <-E, Hthis in H. Qed.

Lemma Remaining_fits : fits_s 32 (mLimit (super b) - mPosition (super b)).
Proof. pose proof super_ordered as Ho; unfold ordered in Ho. fits. Qed.

(** [Slice]: the rest of the buffer as a buffer of its own. *)
Definition sliced : ByteBuffer :=
  let n := mLimit (super b) - mPosition (super b) in
  made (constructed (-1) 0 n n 0) (mHb b) (mPosition (super b) + mOffset b) (mIsReadOnly b).

Lemma Slice_run : Slice this w = Some ((NOERROR, Some (fresh_object w)), put_object (fresh_object w) sliced w).
Proof.
  apply result_wp. unfold Slice. wstep.
  eapply wp_on_buffer_look; [done|apply Remaining_run, super_ordered|]. wstep.
  eapply wp_on_buffer_look; [done|done|]. wstep. apply wp_new.
  set (w1 := put_object (fresh_object w) new_ByteBuffer w).
  assert (Hthis1 : objects w1 !! this = Some b) by (cbn; rewrite lookup_insert_ne; [done|apply not_eq_sym, this_not_fresh]).
  repeat wstep. apply wp_int; [destruct Hc as (_ & _ & H0 & H1); pose proof super_ordered as Ho; unfold ordered in Ho; fits|].
  apply wp_construct. unfold HeapByteBuffer.Constructor.
  apply wp_constructor; [apply lookup_insert_eq|pose proof super_ordered as Ho; unfold ordered in Ho; lia|lia|].
  cbn [FAILED]. split; [done|]. unfold w1. by rewrite put_object_twice.
Qed.

(** [Duplicate] and [AsReadOnlyBuffer]: the same buffer, big-endian again. *)
Definition duplicated (readOnly : bool) : ByteBuffer :=
  made (constructed (mMark (super b)) (mPosition (super b)) (mLimit (super b)) (mCapacity (super b)) 0)
    (mHb b) (mOffset b) readOnly.

Lemma duplicate_run readOnly :
  duplicate this readOnly w = Some ((NOERROR, Some (fresh_object w)), put_object (fresh_object w) (duplicated readOnly) w).
Proof.
  apply result_wp. unfold duplicate.
  do 3 (wstep; eapply wp_on_buffer_look; [done|done|]). wstep. apply wp_new.
  set (w1 := put_object (fresh_object w) new_ByteBuffer w).
  assert (Hthis1 : objects w1 !! this = Some b) by (cbn; rewrite lookup_insert_ne; [done|apply not_eq_sym, this_not_fresh]).
  repeat wstep. eapply wp_on_buffer_look; [exact Hthis1|done|]. repeat wstep.
  apply wp_construct. unfold HeapByteBuffer.Constructor. pose proof super_ordered as Ho; unfold ordered in Ho.
  apply wp_constructor; [apply lookup_insert_eq|lia|lia|].
  cbn [FAILED]. split; [done|]. unfold w1. by rewrite put_object_twice.
Qed.

Lemma sliced_covers : covers (store w) sliced p l.
Proof.
  destruct Hc as (Hb & _ & H0 & H1). pose proof super_ordered as Ho; unfold ordered in Ho.
  split; [exact Hb|]. split; [apply constructed_ordered; lia|]. cbn. lia.
Qed.

Lemma duplicated_covers readOnly : covers (store w) (duplicated readOnly) p l.
Proof.
  destruct Hc as (Hb & _ & H0 & H1). pose proof super_ordered as Ho; unfold ordered in Ho.
  split; [exact Hb|]. split; [apply constructed_ordered; lia|]. cbn. lia.
Qed.

End Existing.

(** ** Allocation *)

Section Allocation.
Context {A : Allocator} (Halloc : never_fails A).

Definition fresh_block (w : world) : positive := fresh (dom (store w) : gset positive).

Lemma fresh_block_new w : store w !! fresh_block w = None.
Proof. unfold fresh_block. apply not_elem_of_dom, is_fresh. Qed.

Lemma Alloc_run w cap : 0 <= cap <= 2147483647 ->
  RtArray.Alloc 0 1 cap (store w) =
    Some ({| RtArray.mData := Some (fresh_block w); RtArray.mSize := cap |},
          <[fresh_block w := replicate (Z.to_nat cap) 0]> (store w)).
Proof.
  intros Hcap. unfold RtArray.Alloc. destruct (Z.ltb_spec cap 0); [lia|].
  assert (u64 (1 * cap) = cap) as -> by (rewrite Z.mul_1_l; apply wrap_u_id; fits).
  rewrite Halloc, Z.geb_leb. unfold RtArray.SIZE_MAX, RtArray.header_size.
  destruct (Z.leb_spec (2 ^ 64 - 1 - 24) cap); [fits|]. cbn [orb negb]. rewrite Z.div_1_r. reflexivity.
Qed.

Definition allocated (w : world) (cap : Z) : ByteBuffer :=
  made (constructed (-1) 0 cap cap 0) {| RtArray.mData := Some (fresh_block w); RtArray.mSize := cap |} 0 false.

Lemma Allocate_run w cap : 0 <= cap <= 2147483647 ->
  Allocate cap w =
    Some ((NOERROR, Some (fresh_object w)),
          put_object (fresh_object w) (allocated w cap) (put_block (fresh_block w) (replicate (Z.to_nat cap) 0) w)).
Proof.
  intros Hcap. apply result_wp. unfold Allocate. destruct (Z.ltb_spec cap 0); [lia|].
  wstep. apply wp_new. apply wp_construct. unfold Constructor_cap. wstep.
  eapply wp_on_store; [by apply (Alloc_run w)|].
  apply wp_constructor; [apply lookup_insert_eq|lia|lia|]. cbn [FAILED]. split; [done|].
  unfold put_object, put_block. cbn. by rewrite insert_insert_eq.
Qed.

Lemma Allocate_negative w cap : cap < 0 -> Allocate cap w = Some ((E_ILLEGAL_ARGUMENT_EXCEPTION, None), w).
Proof. intros. unfold Allocate. by destruct (Z.ltb_spec cap 0); [|lia]. Qed.

Lemma allocated_covers w cap : 0 <= cap <= 2147483647 ->
  covers (store (put_block (fresh_block w) (replicate (Z.to_nat cap) 0) w)) (allocated w cap)
    (fresh_block w) (replicate (Z.to_nat cap) 0).
Proof.
  intros Hcap. unfold covers, RtArrayProofs.backs. rewrite length_replicate, Z2Nat.id by lia.
  split; [split_and!; [done|apply lookup_insert_eq|done]|]. split; [apply constructed_ordered; lia|]. cbn. lia.
Qed.

Lemma sound_allocated w cap : sound w -> 0 <= cap <= 2147483647 ->
  sound (put_block (fresh_block w) (replicate (Z.to_nat cap) 0) w).
Proof.
  intros [H1 H2] Hcap. split.
  - intros this b Hb. destruct (H1 _ _ Hb) as (p & l & Hc). exists p, l.
    destruct Hc as ((Hd & Hp & Hs) & Hrest). split; [|done]. split_and!; [done| |done].
    cbn. rewrite lookup_insert_ne; [done|]. intros E. rewrite <-E, fresh_block_new in Hp. done.
  - cbn. intros p l Hp. apply lookup_insert_Some in Hp as [[<- <-]|[_ Hp]]; [|by eapply H2].
    apply Forall_replicate. unfold fits_s. lia.
Qed.

End Allocation.

(** [Wrap] of any array: a range outside it gives a buffer without room. *)
Definition wrapped (array : RtArray.Array) (offset length : Z) : ByteBuffer :=
  made (constructed (-1) offset (offset + length) (RtArray.mSize array) 0) array 0 false.

Lemma Wrap_run w array p l offset length :
  RtArrayProofs.backs (store w) array p l -> Z.of_nat (List.length l) <= 2147483647 -> fits_s 32 (offset + length) ->
  Wrap array offset length w = Some ((NOERROR, Some (fresh_object w)), put_object (fresh_object w) (wrapped array offset length) w).
Proof.
  intros (Hd & Hp & Hs) Hl Hfit. apply result_wp. unfold Wrap. wstep. apply wp_new. apply wp_construct.
  unfold Constructor_wrap. wstep. apply wp_int; [done|].
  unfold RtArray.GetLength. rewrite (wrap_s_id 32) by (lia || (rewrite Hs; fits)).
  apply wp_constructor; [apply lookup_insert_eq|lia|lia|]. cbn [FAILED]. split; [done|]. by rewrite put_object_twice.
Qed.

Lemma wrapped_covers s array p l offset length :
  RtArrayProofs.backs s array p l -> Z.of_nat (List.length l) <= 2147483647 -> covers s (wrapped array offset length) p l.
Proof.
  intros (Hd & Hp & Hs) Hl. split; [by split_and!|]. split; [apply constructed_ordered; lia|]. cbn. lia.
Qed.

(** ** Bytes in bulk *)

Lemma moved_forward n s : mMark s <= n -> moved n s = set_mPosition n s.
Proof. intros H. unfold moved, set_mPosition. by destruct (Z.leb_spec (mMark s) n); [|lia]. Qed.

Lemma wp_forward w this b p l n Q : objects w !! this = Some b -> covers (store w) b p l ->
  0 <= n <= mLimit (super b) - mPosition (super b) ->
  Q NOERROR (put_object this (NumberProofs.advanced n b) w) ->
  wp (on_buffer this (SetPosition (mPosition (super b) + n))) Q w.
Proof.
  intros Ho Hc Hn HQ. pose proof Hc as (_ & Hob & _). unfold ordered in Hob.
  eapply wp_on_buffer; [exact Ho| |exact HQ]. by rewrite SetPosition_ok, moved_forward by lia.
Qed.

Lemma wp_copy w x p lp src q lq thisPos srcPos length Q :
  RtArrayProofs.backs (store w) x p lp -> RtArrayProofs.backs (store w) src q lq ->
  0 <= thisPos <= Z.of_nat (List.length lp) -> 0 <= srcPos <= Z.of_nat (List.length lq) -> 0 <= length ->
  (forall n, n = RtArrayProofs.copy_count lp lq thisPos srcPos length ->
    Q (Z.of_nat n) (put_block p (memcpy lp (Z.to_nat thisPos) (take n (drop (Z.to_nat srcPos) lq))) w)) ->
  wp (on_store (RtArray.Copy_range x thisPos src srcPos length)) Q w.
Proof.
  intros Hx Hsrc H1 H2 H3 HQ. eapply wp_on_store; [by eapply RtArrayProofs.Copy_range_spec|]. by apply HQ.
Qed.

Lemma array_length (s : bytes) x p (l : list Z) : RtArrayProofs.backs s x p l -> Z.of_nat (length l) <= 2147483647 ->
  i32 (RtArray.GetLength x) = Z.of_nat (length l).
Proof. intros (_ & _ & Hs) Hl. unfold RtArray.GetLength. rewrite Hs. apply wrap_s_id; [lia|]. fits. Qed.

Section Bulk.
Context (w : world) (this : positive) (b : ByteBuffer) (p : positive) (l : list Z).
Context (Hthis : objects w !! this = Some b) (Hc : covers (store w) b p l).

Let remaining := mLimit (super b) - mPosition (super b).
Let at_position := mPosition (super b) + mOffset b.

Lemma covers_facts : 0 <= mOffset b /\ 0 <= mPosition (super b) /\ 0 <= remaining /\
  at_position + remaining <= Z.of_nat (length l) <= 2147483647 /\ mPosition (super b) <= mCapacity (super b).
Proof. destruct Hc as (_ & Ho & H0 & H1). unfold ordered, remaining, at_position in *. lia. Qed.

(** [Get(dst, offset, length)] into the array that holds [m]. *)
Lemma wp_Get_array dst q m offset length (Q : ECode -> world -> Prop) :
  RtArrayProofs.backs (store w) dst q m -> Z.of_nat (List.length m) <= 2147483647 -> 0 <= offset <= Z.of_nat (List.length m) ->
  fits_s 32 (mOffset b + length) -> fits_s 32 (Z.of_nat (List.length m) - (mOffset b + length)) ->
  (~ (0 <= length /\ mOffset b + length <= Z.of_nat (List.length m)) -> Q E_INDEX_OUT_OF_BOUNDS_EXCEPTION w) ->
  (0 <= length /\ mOffset b + length <= Z.of_nat (List.length m) -> remaining < length -> Q E_BUFFER_UNDERFLOW_EXCEPTION w) ->
  (0 <= length /\ mOffset b + length <= Z.of_nat (List.length m) -> length <= remaining ->
   let n := Z.to_nat (Z.min (Z.of_nat (List.length m) - offset) length) in
   Q NOERROR (put_object this (NumberProofs.advanced length b)
     (put_block q (memcpy m (Z.to_nat offset) (take n (drop (Z.to_nat at_position) l))) w))) ->
  wp (Get_array this dst offset length) Q w.
Proof.
  intros Hd Hm Hoff Hf1 Hf2 Hindex Hunder Hok. pose proof covers_facts as (H0 & H1 & H2 & H3 & H4).
  unfold Get_array. repeat wstep. rewrite (array_length _ _ _ _ Hd Hm).
  apply wp_fail_return. eapply wp_result; [by apply CheckBounds_run|].
  case_bool_decide as Hb; cbn [FAILED]; [|apply Hindex; lia].
  assert (Hb' : 0 <= length /\ mOffset b + length <= Z.of_nat (List.length m)) by lia.
  wstep. eapply wp_on_buffer_look; [done|apply Remaining_run, Hc|]. rewrite Z.gtb_ltb.
  fold remaining. destruct (Z.ltb_spec remaining length); [wstep; by apply Hunder|].
  wstep. eapply wp_on_buffer_look; [done|done|]. repeat wstep.
  eapply wp_result; [apply (Ix_run _ _ _ _ _ Hthis Hc); lia|]. wstep.
  eapply wp_copy; [done|apply Hc|lia|unfold at_position in *; lia|lia|]. intros n Hn. wstep.
  apply wp_int; [unfold at_position in *; fits|]. wstep.
  assert (n = Z.to_nat (Z.min (Z.of_nat (List.length m) - offset) length)) as -> by (subst n; unfold RtArrayProofs.copy_count, at_position in *; lia).
  destruct (covers_put_block w b p l q m (memcpy m (Z.to_nat offset)
    (take (Z.to_nat (Z.min (Z.of_nat (List.length m) - offset) length)) (drop (Z.to_nat at_position) l))) Hc) as (l' & Hc').
  { apply Hd. }
  { apply memcpy_length. rewrite length_take, length_drop. unfold at_position in *. lia. }
  eapply wp_forward; [exact Hthis|exact Hc'|fold remaining; lia|]. wstep. by apply Hok.
Qed.

(** [Put(src, offset, length)] from the array that holds [m]. *)
Lemma wp_Put_array src q m offset length (Q : ECode -> world -> Prop) :
  RtArrayProofs.backs (store w) src q m -> Z.of_nat (List.length m) <= 2147483647 ->
  fits_s 32 (offset + length) -> fits_s 32 (Z.of_nat (List.length m) - (offset + length)) ->
  (mIsReadOnly b = true -> Q E_READ_ONLY_BUFFER_EXCEPTION w) ->
  (mIsReadOnly b = false -> ~ (0 <= offset /\ 0 <= length /\ offset + length <= Z.of_nat (List.length m)) -> Q E_INDEX_OUT_OF_BOUNDS_EXCEPTION w) ->
  (mIsReadOnly b = false -> remaining < length -> Q E_BUFFER_OVERFLOW_EXCEPTION w) ->
  (mIsReadOnly b = false -> 0 <= offset /\ 0 <= length /\ offset + length <= Z.of_nat (List.length m) -> length <= remaining ->
   Q NOERROR (put_object this (NumberProofs.advanced length b)
     (put_block p (memcpy l (Z.to_nat at_position) (take (Z.to_nat length) (drop (Z.to_nat offset) m))) w))) ->
  wp (Put_array this src offset length) Q w.
Proof.
  intros Hd Hm Hf1 Hf2 Hread Hindex Hover Hok. pose proof covers_facts as (H0 & H1 & H2 & H3 & H4).
  unfold Put_array. repeat wstep. destruct (mIsReadOnly b) eqn:Hro; [wstep; by apply Hread|].
  rewrite (array_length _ _ _ _ Hd Hm).
  apply wp_fail_return. eapply wp_result; [by apply CheckBounds_run|].
  case_bool_decide as Hb; cbn [FAILED]; [|by apply Hindex].
  wstep. eapply wp_on_buffer_look; [done|apply Remaining_run, Hc|]. rewrite Z.gtb_ltb.
  fold remaining. destruct (Z.ltb_spec remaining length); [wstep; by apply Hover|].
  wstep. eapply wp_on_buffer_look; [done|done|]. repeat wstep.
  eapply wp_result; [apply (Ix_run _ _ _ _ _ Hthis Hc); lia|]. wstep.
  eapply wp_copy; [apply Hc|exact Hd|unfold at_position in *; lia|lia|lia|]. intros n Hn. wstep.
  apply wp_int; [unfold at_position in *; fits|]. wstep.
  assert (n = Z.to_nat length) as -> by (subst n; unfold RtArrayProofs.copy_count, at_position in *; lia).
  set (l' := memcpy _ _ _).
  assert (Hc' : covers (store (put_block p l' w)) b p l').
  { cbn. apply (covers_replace _ _ _ l); [done|]. apply memcpy_length. rewrite length_take, length_drop.
    unfold at_position in *. lia. }
  eapply wp_forward; [exact Hthis|exact Hc'|fold remaining; lia|]. wstep. by apply Hok.
Qed.

(** *** One byte *)

Lemma one_more : 1 <= remaining -> (mPosition (super b) <? mLimit (super b)) = true.
Proof. unfold remaining. intros H. apply Z.ltb_lt. lia. Qed.

Lemma wp_next error Q : 1 <= remaining ->
  Q (NOERROR, Some (mPosition (super b))) (put_object this (NumberProofs.advanced 1 b) w) ->
  wp (on_buffer this (next_index error)) Q w.
Proof.
  intros H HQ. eapply wp_on_buffer; [exact Hthis| |exact HQ].
  rewrite next_index_run by apply Hc. by rewrite one_more.
Qed.

(** [Get(&b)], with room: the byte at the position. *)
Lemma Get_run : 1 <= remaining ->
  Get this w = Some ((NOERROR, Some (at_index b l (mPosition (super b)))), put_object this (NumberProofs.advanced 1 b) w).
Proof.
  intros Hr. pose proof covers_facts as (H0 & H1 & H2 & H3 & H4). apply result_wp. unfold Get. wstep.
  apply wp_next; [done|]. set (b1 := NumberProofs.advanced 1 b). set (w1 := put_object this b1 w). repeat wstep.
  assert (Hc1 : covers (store w1) b1 p l) by (apply (NumberProofs.advanced_covers w b p l Hc); unfold remaining in *; lia).
  assert (Hw1 : objects w1 !! this = Some b1) by apply lookup_insert_eq.
  eapply wp_result; [apply (Ix_run w1 _ _ _ _ Hw1 Hc1); cbn; lia|]. wstep.
  destruct (load_run w1 _ _ _ _ Hw1 Hc1 (mPosition (super b) + mOffset b1)) as (x & Hx & Hl);
    [cbn; unfold at_position, remaining in *; lia|].
  eapply wp_result; [exact Hl|]. wstep. split; [|done]. do 2 f_equal.
  unfold at_index. symmetry. apply list_lookup_total_correct. exact Hx.
Qed.

(** Without room the error is dropped and the index is read unset. *)
Lemma Get_undefined : remaining <= 0 -> Get this w = None.
Proof.
  intros Hr. unfold Get. apply wp_undefined.
  apply (wp_on_buffer_look _ b _ (E_BUFFER_UNDERFLOW_EXCEPTION, None)); [done| |done].
  unfold NextGetIndex. rewrite next_index_run by apply Hc. unfold remaining in Hr.
  by destruct (Z.ltb_spec (mPosition (super b)) (mLimit (super b))); [lia|].
Qed.

Lemma Put_run x : 1 <= remaining -> mIsReadOnly b = false ->
  Put this x w =
    Some (NOERROR, put_object this (NumberProofs.advanced 1 b) (put_block p (<[Z.to_nat at_position := x]> l) w)).
Proof.
  intros Hr Hro. pose proof covers_facts as (H0 & H1 & H2 & H3 & H4). apply result_wp. unfold Put. repeat wstep. rewrite Hro.
  wstep. apply wp_next; [done|]. set (b1 := NumberProofs.advanced 1 b). set (w1 := put_object this b1 w). repeat wstep.
  assert (Hc1 : covers (store w1) b1 p l) by (apply (NumberProofs.advanced_covers w b p l Hc); unfold remaining in *; lia).
  assert (Hw1 : objects w1 !! this = Some b1) by apply lookup_insert_eq.
  eapply wp_result; [apply (Ix_run w1 _ _ _ _ Hw1 Hc1); cbn; lia|]. wstep.
  eapply wp_result; [apply (assign_run w1 _ _ _ _ Hw1 Hc1); cbn; unfold at_position, remaining in *; lia|].
  by wstep.
Qed.

Lemma Put_read_only x : mIsReadOnly b = true -> Put this x w = Some (E_READ_ONLY_BUFFER_EXCEPTION, w).
Proof. intros Hro. apply result_wp. unfold Put. repeat wstep. rewrite Hro. by wstep. Qed.

Lemma Put_at_run i x : mIsReadOnly b = false -> (0 <=? i) && (i <? mLimit (super b)) = true ->
  Put_at this i x w = Some (NOERROR, put_block p (<[Z.to_nat (i + mOffset b) := x]> l) w).
Proof.
  intros Hro Hi. bprop. pose proof Hc as (_ & Ho & Hoff & Hlen). unfold ordered in Ho.
  apply result_wp. unfold Put_at. repeat wstep. rewrite Hro. apply wp_fail_return.
  eapply wp_on_buffer_look; [done|done|]. rewrite Z.geb_leb.
  rewrite (proj2 (Z.ltb_ge i 0)), (proj2 (Z.leb_gt (mLimit (super b)) i)) by lia. cbn [orb FAILED].
  wstep. eapply wp_result; [apply (Ix_run _ _ _ _ _ Hthis Hc); lia|]. wstep.
  eapply wp_result; [apply (assign_run _ _ _ _ _ Hthis Hc); lia|]. by wstep.
Qed.

Lemma Put_at_outside i x : mIsReadOnly b = false -> (0 <=? i) && (i <? mLimit (super b)) = false ->
  Put_at this i x w = Some (E_INDEX_OUT_OF_BOUNDS_EXCEPTION, w).
Proof.
  intros Hro Hi. apply result_wp. unfold Put_at. repeat wstep. rewrite Hro. apply wp_fail_return.
  eapply wp_on_buffer_look; [done|done|]. rewrite Z.geb_leb.
  rewrite (Z.leb_antisym i 0) in Hi. rewrite (Z.leb_antisym i (mLimit _)).
  destruct (i <? 0), (i <? mLimit (super b)); try discriminate Hi; by cbn.
Qed.

Lemma Put_at_read_only i x : mIsReadOnly b = true -> Put_at this i x w = Some (E_READ_ONLY_BUFFER_EXCEPTION, w).
Proof. intros Hro. apply result_wp. unfold Put_at. repeat wstep. rewrite Hro. by wstep. Qed.

(** [Compact] of a buffer one may write. *)
Definition compacted : ByteBuffer :=
  with_super {| mPosition := remaining; mElementSizeShift := mElementSizeShift (super b); mMark := -1;
                mLimit := mCapacity (super b); mCapacity := mCapacity (super b) |} b.

Definition compacted_block : list Z :=
  memcpy l (Z.to_nat (mOffset b)) (take (Z.to_nat remaining) (drop (Z.to_nat at_position) l)).

Lemma compacted_block_length : length compacted_block = length l.
Proof.
  pose proof covers_facts as (H0 & H1 & H2 & H3 & H4). apply memcpy_length. rewrite length_take, length_drop.
  unfold at_position in *. lia.
Qed.

Lemma Compact_run : mIsReadOnly b = false ->
  Compact this w = Some (NOERROR, put_object this compacted (put_block p compacted_block w)).
Proof.
  intros Hro. pose proof covers_facts as (H0 & H1 & H2 & H3 & H4).
  apply result_wp. unfold Compact. repeat wstep. rewrite Hro. repeat wstep.
  eapply wp_on_buffer_look; [done|done|]. wstep. eapply wp_on_buffer_look; [done|apply Remaining_run, Hc|].
  repeat wstep. eapply wp_result; [apply (Ix_run _ _ _ _ _ Hthis Hc); lia|]. wstep.
  eapply wp_result; [apply (Ix_run _ _ _ _ _ Hthis Hc); lia|]. wstep.
  eapply wp_copy; [apply Hc|apply Hc|lia|unfold at_position in *; lia|unfold remaining in *; lia|]. intros n Hn. wstep.
  assert (n = Z.to_nat remaining) as -> by (subst n; unfold RtArrayProofs.copy_count, at_position, remaining in *; lia).
  rewrite Z.add_0_l. fold at_position compacted_block. set (w1 := put_block p compacted_block w).
  pose proof Hc as (_ & Ho & _ & Hlen). unfold ordered in Ho.
  eapply wp_on_buffer; [exact Hthis|apply SetPosition_ok; unfold remaining in *; lia|]. wstep.
  eapply wp_on_buffer_look; [apply lookup_insert_eq|done|]. wstep.
  eapply wp_on_buffer; [apply lookup_insert_eq|apply SetLimit_ok; cbn; lia|]. wstep.
  eapply wp_on_buffer; [apply lookup_insert_eq|reflexivity|]. wstep. split; [done|].
  rewrite !put_object_twice. f_equal. unfold compacted, with_super, set_mMark, limited, moved. cbn.
  rewrite Z.min_l by (unfold remaining in *; lia). done.
Qed.

End Bulk.

(** [Put(src)] from another buffer, perhaps on the same array. *)
Definition drained (c : ByteBuffer) : ByteBuffer := with_super (moved (mLimit (super c)) (super c)) c.

Definition left_in (c : ByteBuffer) (m : list Z) : list Z :=
  take (Z.to_nat (mLimit (super c) - mPosition (super c))) (drop (Z.to_nat (mPosition (super c) + mOffset c)) m).

Lemma left_in_length s c q m : covers s c q m -> Z.of_nat (length (left_in c m)) = mLimit (super c) - mPosition (super c).
Proof.
  intros (_ & Ho & H0 & H1). unfold ordered in Ho. unfold left_in. rewrite length_take, length_drop. lia.
Qed.

Lemma wp_Put_buffer w this b p l src c q m (Q : ECode -> world -> Prop) :
  objects w !! this = Some b -> covers (store w) b p l -> objects w !! src = Some c -> covers (store w) c q m ->
  let n := mLimit (super c) - mPosition (super c) in
  let room := mLimit (super b) - mPosition (super b) in
  (src = this -> Q E_ILLEGAL_ARGUMENT_EXCEPTION w) ->
  (src <> this -> mIsReadOnly b = true -> Q E_READ_ONLY_BUFFER_EXCEPTION w) ->
  (src <> this -> mIsReadOnly b = false -> room < n -> Q E_BUFFER_OVERFLOW_EXCEPTION w) ->
  (src <> this -> mIsReadOnly b = false -> n <= room ->
   Q NOERROR (put_object this (NumberProofs.advanced n b) (put_object src (drained c)
     (put_block p (memcpy l (Z.to_nat (mPosition (super b) + mOffset b)) (left_in c m)) w)))) ->
  wp (Put_buffer this src) Q w.
Proof.
  intros Hthis Hc Hsrc Hcc n room Hself Hread Hover Hok. unfold Put_buffer, IsAccessible. repeat wstep. cbn [negb].
  case_bool_decide as E; [wstep; by apply Hself|]. repeat wstep.
  destruct (mIsReadOnly b) eqn:Hro; [wstep; by apply Hread|].
  wstep. eapply wp_on_buffer_look; [exact Hsrc|apply Remaining_run, Hcc|]. wstep.
  eapply wp_on_buffer_look; [exact Hthis|apply Remaining_run, Hc|]. rewrite Z.gtb_ltb. fold n room.
  destruct (Z.ltb_spec room n); [wstep; by apply Hover|].
  pose proof (covers_facts _ _ _ _ Hc) as (H0 & H1 & H2 & H3 & H4).
  pose proof (covers_facts _ _ _ _ Hcc) as (C0 & C1 & C2 & C3 & C4).
  wstep. eapply wp_field; [exact Hthis|]. wstep. eapply wp_field; [exact Hsrc|].
  rewrite (RtArrayProofs.backs_not_null _ _ _ _ (proj1 Hc)), (RtArrayProofs.backs_not_null _ _ _ _ (proj1 Hcc)). cbn [orb].
  wstep. eapply wp_on_buffer_look; [exact Hsrc|done|]. wstep. eapply wp_on_buffer_look; [exact Hthis|done|]. wstep.
  eapply wp_result; [apply (Ix_run _ _ _ _ _ Hthis Hc); lia|]. wstep.
  eapply wp_result; [apply (Ix_run _ _ _ _ _ Hsrc Hcc); lia|]. wstep.
  eapply wp_copy; [apply Hc|apply Hcc|lia|lia|unfold n; lia|]. intros k Hk. wstep.
  assert (k = Z.to_nat n) as -> by (subst k; unfold RtArrayProofs.copy_count, n, room in *; lia).
  change (take (Z.to_nat n) (drop (Z.to_nat (mPosition (super c) + mOffset c)) m)) with (left_in c m). set (l' := memcpy _ _ _). set (w1 := put_block p l' w).
  assert (Hl' : length l' = length l).
  { apply memcpy_length. pose proof (left_in_length _ _ _ _ Hcc). unfold n, room in *. lia. }
  eapply wp_on_buffer_look; [exact Hsrc|done|]. wstep.
  eapply wp_on_buffer; [exact Hsrc|apply SetPosition_ok; lia|]. wstep. fold (drained c).
  set (w2 := put_object src (drained c) w1).
  assert (Hthis2 : objects w2 !! this = Some b) by (cbn; by rewrite lookup_insert_ne).
  eapply wp_on_buffer_look; [exact Hthis2|done|]. wstep. apply wp_int; [unfold n, room in *; fits|]. wstep.
  eapply (wp_forward _ _ _ p l'); [exact Hthis2| |unfold n, room in *; lia|].
  { apply (covers_replace _ _ _ l); [exact Hc|exact Hl']. }
  wstep. by apply Hok.
Qed.

End BufferRules.
