(* ===== verification/BufferContents.v ===== *)
(** * Byte buffers: comparing contents

    [Equals] and [CompareTo] compare the bytes between position and limit. *)
From S2P Require Import Prelude.
From S2P Require Import RtArray.
From S2P Require Import RtArrayProofs.
From S2P Require Import ECode.
From S2P Require Import Buffer.
From S2P Require Import ByteBuffer.
From S2P Require Import Bits.
From S2P Require Import HeapByteBuffer.
From S2P Require Import ByteBufferProofs.
From S2P Require Import BitsProofs.
From S2P Require Import NumberProofs.
From S2P Require Import NumberRoundTrip.
From S2P Require Import BufferRules.

Module BufferContents.
Import Buffer.Buffer ByteBuffer HeapByteBuffer ByteBufferProofs NumberProofs BufferRules.

(** The bytes between position and limit. *)
Definition remaining_bytes (w : world) (this : positive) : list Z :=
  match objects w !! this with
  | Some b =>
    match RtArray.mData (mHb b) ≫= (store w !!.) with
    | Some l => left_in b l
    | None => []
    end
  | None => []
  end.

(** The order [CompareTo] is to decide: byte by byte, then by length. *)
Fixpoint lexicographic (l1 l2 : list Z) : Z :=
  match l1, l2 with
  | x :: l1, y :: l2 => if x - y =? 0 then lexicographic l1 l2 else x - y
  | _, _ => Z.of_nat (length l1) - Z.of_nat (length l2)
  end.

Lemma lexicographic_0 l1 l2 : lexicographic l1 l2 = 0 <-> l1 = l2.
Proof.
  revert l2. induction l1 as [|x l1 IH]; intros [|y l2]; cbn; try (split; congruence || lia).
  destruct (Z.eqb_spec (x - y) 0).
  - rewrite IH. split; [intros ->; f_equal; lia|congruence].
  - split; [lia|]. injection 1. lia.
Qed.

Lemma remaining_bytes_of w this b p l : objects w !! this = Some b -> covers (store w) b p l ->
  remaining_bytes w this = left_in b l.
Proof.
  intros Hb Hc. unfold remaining_bytes. rewrite Hb, (covers_data _ _ _ _ Hc). cbn. by rewrite (covers_block _ _ _ _ Hc).
Qed.

Section One.
Context (w : world) (this : positive) (b : ByteBuffer) (p : positive) (l : list Z).
Context (Hthis : objects w !! this = Some b) (Hc : covers (store w) b p l).

Lemma left_in_lookup (k : nat) x : left_in b l !! k = Some x ->
  byte_at this (mPosition (super b) + Z.of_nat k) w = Some (x, w).
Proof.
  intros Hk. pose proof (lookup_lt_Some _ _ _ Hk) as Hlt. pose proof (left_in_length _ _ _ _ Hc) as Hlen.
  pose proof Hc as (_ & Ho & H0 & H1). unfold ordered in Ho.
  unfold left_in in Hk. rewrite lookup_take_lt, lookup_drop in Hk by (unfold left_in in Hlt; rewrite length_take in Hlt; lia).
  apply result_wp. unfold byte_at. wstep. eapply wp_result; [by apply (Get_at_run _ _ _ _ _ Hthis Hc)|].
  destruct (Z.leb_spec 0 (mPosition (super b) + Z.of_nat k)), (Z.ltb_spec (mPosition (super b) + Z.of_nat k) (mLimit (super b)));
    try lia. cbn [andb]. wstep. split; [|done].
  unfold at_index. apply list_lookup_total_correct. rewrite <-Hk. f_equal. lia.
Qed.

End One.

Section Two.
Context (w : world) (this other : positive) (b c : ByteBuffer) (p q : positive) (l m : list Z).
Context (Hthis : objects w !! this = Some b) (Hc : covers (store w) b p l).
Context (Hother : objects w !! other = Some c) (Hcc : covers (store w) c q m).

Let bs := left_in b l.
Let cs := left_in c m.

Lemma bs_take k : (k < length bs)%nat -> exists x, bs !! k = Some x /\ take (S k) bs = take k bs ++ [x].
Proof. intros Hk. destruct (lookup_lt_is_Some_2 bs k Hk) as [x Hx]. exists x. split; [done|]. by apply take_S_r. Qed.

Lemma equals_loop_run n : (n <= length bs)%nat -> length bs = length cs ->
  equals_loop this other n (mPosition (super b) + Z.of_nat n - 1) (mPosition (super c) + Z.of_nat n - 1) w =
    Some (bool_decide (take n bs = take n cs), w).
Proof.
  intros Hn Hlen. induction n as [|n IH]; cbn [equals_loop].
  { by rewrite !take_0, bool_decide_eq_true_2. }
  destruct (lookup_lt_is_Some_2 bs n) as [x Hx]; [lia|]. destruct (lookup_lt_is_Some_2 cs n) as [y Hy]; [lia|].
  replace (mPosition (super b) + Z.of_nat (S n) - 1) with (mPosition (super b) + Z.of_nat n) by lia.
  replace (mPosition (super c) + Z.of_nat (S n) - 1) with (mPosition (super c) + Z.of_nat n) by lia.
  rewrite (bind_Some _ _ _ _ _ (left_in_lookup w this b p l Hthis Hc _ _ Hx)).
  rewrite (bind_Some _ _ _ _ _ (left_in_lookup w other c q m Hother Hcc _ _ Hy)).
  rewrite (take_S_r _ _ _ Hx), (take_S_r _ _ _ Hy).
  destruct (Z.eqb_spec x y) as [->|Hne]; cbn [negb].
  - rewrite IH by lia. do 2 f_equal. apply bool_decide_ext. split; [by intros ->|]. by intros [??]%app_inj_2.
  - unfold ret. do 2 f_equal. symmetry. apply bool_decide_eq_false_2. intros [_ E]%app_inj_2; [|done]. by injection E.
Qed.

Lemma compare_loop_run i : (i <= length bs)%nat -> (i <= length cs)%nat ->
  fits_s 32 (Z.of_nat (length bs) - Z.of_nat (length cs)) ->
  compare_loop this other (Nat.min (length bs) (length cs) - i) (mPosition (super b) + Z.of_nat i) (mPosition (super c) + Z.of_nat i)
    (Z.of_nat (length bs) - Z.of_nat (length cs)) w = Some (lexicographic (drop i bs) (drop i cs), w).
Proof.
  intros Hi Hj Hf. remember (Nat.min (length bs) (length cs) - i)%nat as n eqn:En. revert i Hi Hj En.
  induction n as [|n IH]; intros i Hi Hj En; cbn [compare_loop].
  - rewrite int_fits by done. do 2 f_equal.
    assert (E : drop i bs = [] \/ drop i cs = []) by (destruct (Nat.le_ge_cases (length bs) (length cs));
      [left|right]; apply drop_ge; lia).
    replace (Z.of_nat (length bs) - Z.of_nat (length cs)) with (Z.of_nat (length (drop i bs)) - Z.of_nat (length (drop i cs)))
      by (rewrite !length_drop; lia).
    destruct E as [-> | ->]; [done|]. by destruct (drop i bs).
  - destruct (lookup_lt_is_Some_2 bs i) as [x Hx]; [lia|]. destruct (lookup_lt_is_Some_2 cs i) as [y Hy]; [lia|].
    rewrite (bind_Some _ _ _ _ _ (left_in_lookup w this b p l Hthis Hc _ _ Hx)).
    rewrite (bind_Some _ _ _ _ _ (left_in_lookup w other c q m Hother Hcc _ _ Hy)).
    rewrite (drop_S _ _ _ Hx), (drop_S _ _ _ Hy). cbn [lexicographic].
    destruct (Z.eqb_spec (x - y) 0) as [E|Hne]; cbn [negb]; [|done].
    replace (mPosition (super b) + Z.of_nat i + 1) with (mPosition (super b) + Z.of_nat (S i)) by lia.
    replace (mPosition (super c) + Z.of_nat i + 1) with (mPosition (super c) + Z.of_nat (S i)) by lia.
    apply IH; lia.
Qed.

Lemma Equals_run : Equals this (Some other) w = Some (bool_decide (bs = cs), w).
Proof.
  pose proof (left_in_length _ _ _ _ Hc) as Hb. pose proof (left_in_length _ _ _ _ Hcc) as Hm. fold bs in Hb. fold cs in Hm.
  apply result_wp. unfold Equals. case_bool_decide as E.
  { wstep. split; [|done]. subst other. rewrite Hthis in Hother. injection Hother as <-.
    destruct (NumberRoundTrip.covers_eq _ _ _ _ _ _ Hc Hcc) as [_ <-]. by rewrite bool_decide_eq_true_2. }
  wstep. eapply wp_on_buffer_look; [exact Hthis|apply Remaining_run, Hc|]. wstep.
  eapply wp_on_buffer_look; [exact Hother|apply Remaining_run, Hcc|].
  destruct (Z.eqb_spec (mLimit (super b) - mPosition (super b)) (mLimit (super c) - mPosition (super c))) as [Hr|Hr]; cbn [negb].
  - wstep. eapply wp_on_buffer_look; [exact Hthis|done|]. wstep. eapply wp_on_buffer_look; [exact Hthis|done|]. wstep.
    eapply wp_on_buffer_look; [exact Hother|done|].
    eapply wp_result.
    { replace (Z.to_nat (mLimit (super b) - mPosition (super b))) with (length bs) by lia.
      replace (mLimit (super b) - 1) with (mPosition (super b) + Z.of_nat (length bs) - 1) by lia.
      replace (mLimit (super c) - 1) with (mPosition (super c) + Z.of_nat (length bs) - 1) by lia.
      apply equals_loop_run; lia. }
    split; [|done]. rewrite firstn_all. by rewrite (take_ge cs) by lia.
  - wstep. split; [|done]. symmetry. apply bool_decide_eq_false_2. intros E'. apply (f_equal length) in E'. lia.
Qed.

Lemma CompareTo_run : CompareTo this (Some other) w = Some ((NOERROR, Some (lexicographic bs cs)), w).
Proof.
  pose proof (left_in_length _ _ _ _ Hc) as Hb. pose proof (left_in_length _ _ _ _ Hcc) as Hm. fold bs in Hb. fold cs in Hm.
  pose proof Hc as (_ & Ho & _). pose proof Hcc as (_ & Hoc & _). unfold ordered in Ho, Hoc.
  apply result_wp. unfold CompareTo.
  wstep. eapply wp_on_buffer_look; [exact Hthis|apply Remaining_run, Hc|]. wstep.
  eapply wp_on_buffer_look; [exact Hother|apply Remaining_run, Hcc|]. wstep.
  eapply wp_on_buffer_look; [exact Hthis|done|]. wstep. eapply wp_on_buffer_look; [exact Hother|done|]. wstep.
  apply wp_int; [fits|]. wstep.
  eapply wp_result.
  { replace (Z.to_nat _) with (Nat.min (length bs) (length cs) - 0)%nat by lia.
    replace (mPosition (super b)) with (mPosition (super b) + Z.of_nat 0) at 1 by lia.
    replace (mPosition (super c)) with (mPosition (super c) + Z.of_nat 0) at 1 by lia.
    rewrite <-Hb, <-Hm. apply compare_loop_run; [lia|lia|fits]. }
  by wstep.
Qed.

End Two.

(** C29: [Equals] decides whether the bytes left in two buffers are the same and
    [CompareTo] gives their lexicographic order as signed bytes, the shorter
    first; the two agree, and neither changes anything. *)
Theorem buffers_compare_by_content w this other : sound w ->
  is_Some (objects w !! this) -> is_Some (objects w !! other) ->
  let bs := remaining_bytes w this in let cs := remaining_bytes w other in
  Equals this (Some other) w = Some (bool_decide (bs = cs), w) /\
  CompareTo this (Some other) w = Some ((NOERROR, Some (lexicographic bs cs)), w) /\
  (bs = cs <-> lexicographic bs cs = 0).
Proof.
  intros Hw [b Hb] [c Hcb]. destruct (sound_object _ _ _ Hw Hb) as (p & l & Hc).
  destruct (sound_object _ _ _ Hw Hcb) as (q & m & Hcc).
  rewrite (remaining_bytes_of _ _ _ _ _ Hb Hc), (remaining_bytes_of _ _ _ _ _ Hcb Hcc). cbv zeta.
  split; [by eapply Equals_run|]. split; [by eapply CompareTo_run|]. symmetry. apply lexicographic_0.
Qed.

Lemma buffers_compare_by_content_witness :
  Equals 1 (Some 2%positive) demo_world = Some (false, demo_world) /\
  CompareTo 1 (Some 2%positive) demo_world = Some ((NOERROR, Some (-2)), demo_world).
Proof.
  destruct (buffers_compare_by_content demo_world 1 2) as (He & Hc & _);
    [exact demo_sound|eexists; reflexivity|eexists; reflexivity|].
  split; [rewrite He|rewrite Hc]; reflexivity.
Defined.

End BufferContents.
