(* ===== verification/BufferPrograms.v ===== *)
(** * Programs of byte-buffer calls

    Every call of the buffers' interface as an item of a program: on a sound
    world each call is defined, keeps the world sound, and leaves it as it was
    if it fails.  What a call must not be asked for is in [ready]: a relative
    access without room, bounds whose sum leaves [int], a [Float] in the little
    order, an offset outside the array that [Get] fills. *)
From S2P Require Import Prelude.
From S2P Require Import RtArray.
From S2P Require Import RtArrayProofs.
From S2P Require Import ECode.
From S2P Require Import Buffer.
From S2P Require Import ByteBuffer.
From S2P Require Import Bits.
From S2P Require Import HeapByteBuffer.
From S2P Require Import ByteBufferProofs.
From S2P Require Import BitsProofs.
From S2P Require Import NumberProofs.
From S2P Require Import NumberRoundTrip.
From S2P Require Import BufferRules.

Module BufferPrograms.
Import Buffer.Buffer ByteBuffer HeapByteBuffer ByteBufferProofs NumberProofs NumberRoundTrip BufferRules.

Inductive call :=
  | Allocate_ (capacity : Z)
  | Wrap_ (array : RtArray.Array) (offset length : Z)
  | Slice_ (this : positive)
  | Duplicate_ (this : positive)
  | AsReadOnlyBuffer_ (this : positive)
  | SetPosition_ (this : positive) (n : Z)
  | SetLimit_ (this : positive) (n : Z)
  | Mark_ (this : positive)
  | Reset_ (this : positive)
  | Clear_ (this : positive)
  | Flip_ (this : positive)
  | Rewind_ (this : positive)
  | SetOrder_ (this : positive) (bo : IByteOrder)
  | Get_ (this : positive)
  | Get_at_ (this : positive) (index : Z)
  | Get_array_ (this : positive) (dst : RtArray.Array) (offset length : Z)
  | Put_ (this : positive) (b : Z)
  | Put_at_ (this : positive) (index b : Z)
  | Put_array_ (this : positive) (src : RtArray.Array) (offset length : Z)
  | Put_buffer_ (this src : positive)
  | Compact_ (this : positive)
  | Get_number_ (k : number) (this : positive)
  | Get_number_at_ (k : number) (this : positive) (index : Z)
  | Put_number_ (k : number) (this : positive) (v : Z)
  | Put_number_at_ (k : number) (this : positive) (index v : Z).

(** The code of a call with out parameters. *)
Definition code {X} (m : W (ECode * X)) : W ECode := r <- m ;; ret r.1.

Section Programs.
Context {A : Allocator} (Halloc : never_fails A).

Definition exec (c : call) : W ECode :=
  match c with
  | Allocate_ capacity => code (Allocate capacity)
  | Wrap_ array offset length => code (Wrap array offset length)
  | Slice_ this => code (Slice this)
  | Duplicate_ this => code (Duplicate this)
  | AsReadOnlyBuffer_ this => code (AsReadOnlyBuffer this)
  | SetPosition_ this n => on_buffer this (SetPosition n)
  | SetLimit_ this n => on_buffer this (SetLimit n)
  | Mark_ this => on_buffer this Mark
  | Reset_ this => on_buffer this Reset
  | Clear_ this => on_buffer this Clear
  | Flip_ this => on_buffer this Flip
  | Rewind_ this => on_buffer this Rewind
  | SetOrder_ this bo => SetOrder this bo
  | Get_ this => code (Get this)
  | Get_at_ this index => code (Get_at this index)
  | Get_array_ this dst offset length => Get_array this dst offset length
  | Put_ this b => Put this b
  | Put_at_ this index b => Put_at this index b
  | Put_array_ this src offset length => Put_array this src offset length
  | Put_buffer_ this src => Put_buffer this src
  | Compact_ this => Compact this
  | Get_number_ k this => code (Get_number k this)
  | Get_number_at_ k this index => code (Get_number_at k this index)
  | Put_number_ k this v => Put_number k this v
  | Put_number_at_ k this index v => Put_number_at k this index v
  end.

Fixpoint run (cs : list call) : W (list ECode) :=
  match cs with
  | [] => ret []
  | c :: cs => ec <- exec c ;; ecs <- run cs ;; ret (ec :: ecs)
  end.

(** ** What a call may be asked for *)

(** An array of at most [int] bytes. *)
Definition array_of (s : bytes) (a : RtArray.Array) (l : list Z) : Prop :=
  exists p, RtArrayProofs.backs s a p l /\ Z.of_nat (length l) <= 2147483647.

Definition room (b : ByteBuffer) (n : Z) : Prop := n <= mLimit (super b) - mPosition (super b).

Definition ready (w : world) (c : call) : Prop :=
  match c with
  | Allocate_ capacity => fits_s 32 capacity
  | Wrap_ a offset length => (exists l, array_of (store w) a l) /\ fits_s 32 (offset + length)
  | Slice_ this | Duplicate_ this | AsReadOnlyBuffer_ this | SetPosition_ this _ | SetLimit_ this _ | Mark_ this
  | Reset_ this | Clear_ this | Flip_ this | Rewind_ this | SetOrder_ this _ | Compact_ this | Get_at_ this _ =>
      is_Some (objects w !! this)
  | Get_ this => exists b, objects w !! this = Some b /\ room b 1
  | Get_array_ this dst offset length => exists b l, objects w !! this = Some b /\ array_of (store w) dst l /\
      0 <= offset <= Z.of_nat (List.length l) /\
      fits_s 32 (mOffset b + length) /\ fits_s 32 (Z.of_nat (List.length l) - (mOffset b + length))
  | Put_ this x => exists b, objects w !! this = Some b /\ (mIsReadOnly b = false -> room b 1) /\ fits_s 8 x
  | Put_at_ this index x => is_Some (objects w !! this) /\ fits_s 8 x
  | Put_array_ this src offset length => exists l, is_Some (objects w !! this) /\ array_of (store w) src l /\
      fits_s 32 (offset + length) /\ fits_s 32 (Z.of_nat (List.length l) - (offset + length))
  | Put_buffer_ this src => is_Some (objects w !! this) /\ is_Some (objects w !! src)
  | Get_number_ k this => exists b, objects w !! this = Some b /\ room b (Z.of_nat (width k))
  | Get_number_at_ k this index => is_Some (objects w !! this) /\ fits_s 32 index
  | Put_number_ k this v => exists b, objects w !! this = Some b /\ order_ok k (mBigEndian b) /\
      (mIsReadOnly b = false -> room b (Z.of_nat (width k)))
  | Put_number_at_ k this index v => exists b, objects w !! this = Some b /\ order_ok k (mBigEndian b) /\ fits_s 32 index
  end.

(** What every call leaves behind: a sound world, with all the objects there
    were, and the same one if the call failed. *)
Definition good (w : world) (ec : ECode) (w' : world) : Prop :=
  sound w' /\ (ec <> NOERROR -> w' = w) /\ forall this, is_Some (objects w !! this) -> is_Some (objects w' !! this).

Lemma good_same w ec : sound w -> good w ec w.
Proof. by intros. Qed.

Lemma good_put_object w this b p l : sound w -> covers (store w) b p l -> good w NOERROR (put_object this b w).
Proof.
  intros Hw Hc. split; [by eapply sound_put_object|]. split; [done|].
  intros t Ht. cbn. by destruct (decide (this = t)) as [->|Hne]; [rewrite lookup_insert_eq|rewrite lookup_insert_ne].
Qed.

Lemma good_put_block w p l l' : sound w -> store w !! p = Some l -> length l' = length l -> Forall (fits_s 8) l' ->
  good w NOERROR (put_block p l' w).
Proof. intros. split; [by eapply sound_put_block|]. by split. Qed.


Lemma good_then w w1 w2 : good w NOERROR w1 -> good w1 NOERROR w2 -> good w NOERROR w2.
Proof. intros (_ & _ & H1) (H2 & _ & H3). split; [done|]. split; [done|]. intros t Ht. by apply H3, H1. Qed.

Lemma wp_code {X} (m : W (ECode * X)) ec x w' Q w : m w = Some ((ec, x), w') -> Q ec w' -> wp (code m) Q w.
Proof. intros Hm HQ. unfold code. wstep. eapply wp_result; [exact Hm|]. by wstep. Qed.

(** *** The operations of the base class *)

(** Keeps the order and the capacity; nothing happens on an error. *)
Definition disciplined (m : SE Buffer ECode) : Prop := forall s, ordered s ->
  exists ec s', m s = Some (ec, s') /\ ordered s' /\ mCapacity s' = mCapacity s /\ (ec <> NOERROR -> s' = s).

Lemma with_super_same b : with_super (super b) b = b.
Proof. by destruct b. Qed.

Lemma buffer_good w this m : sound w -> is_Some (objects w !! this) -> disciplined m -> wp (on_buffer this m) (good w) w.
Proof.
  intros Hw [b Hb] Hm. destruct (sound_object _ _ _ Hw Hb) as (p & l & Hc).
  destruct (Hm (super b)) as (ec & s & Hrun & Ho & Hcap & Herr); [apply Hc|].
  eapply wp_on_buffer; [exact Hb|exact Hrun|]. destruct (decide (ec = NOERROR)) as [->|Hne].
  - eapply good_put_object; [done|]. by apply covers_super.
  - rewrite Herr, with_super_same, put_object_same by done. by apply good_same.
Qed.

Lemma SetPosition_disciplined n : disciplined (SetPosition n).
Proof.
  intros s Hs. rewrite SetPosition_run. destruct ((0 <=? n) && (n <=? mLimit s)) eqn:E; bprop; do 2 eexists; split; try done.
  split; [by apply moved_ordered|]. done.
Qed.

Lemma SetLimit_disciplined n : disciplined (SetLimit n).
Proof.
  intros s Hs. rewrite SetLimit_run. destruct ((0 <=? n) && (n <=? mCapacity s)) eqn:E; bprop; do 2 eexists; split; try done.
  split; [by apply limited_ordered|]. done.
Qed.

Lemma Reset_disciplined : disciplined Reset.
Proof.
  intros s Hs. unfold Reset, bind, gets, modify, ret. unfold ordered in Hs.
  destruct (Z.ltb_spec (mMark s) 0); do 2 eexists; (split; [done|]); [done|].
  split; [unfold ordered; cbn; lia|done].
Qed.

(** [Mark], [Clear], [Flip], [Rewind]. *)
Lemma simple_disciplined (m : SE Buffer ECode) (f : Buffer -> Buffer) :
  (forall s, m s = Some (NOERROR, f s)) -> (forall s, ordered s -> ordered (f s) /\ mCapacity (f s) = mCapacity s) ->
  disciplined m.
Proof. intros Hm Hf s Hs. rewrite Hm. do 2 eexists. split; [done|]. destruct (Hf s Hs). done. Qed.

Lemma positions_disciplined : disciplined Mark /\ disciplined Clear /\ disciplined Flip /\ disciplined Rewind.
Proof.
  split_and!; (eapply simple_disciplined; [intros s; reflexivity|]); intros s Hs; unfold ordered in *; cbn; lia.
Qed.

(** *** Bytes *)

Section Call.
Context (w : world) (this : positive) (b : ByteBuffer) (p : positive) (l : list Z).
Context (Hw : sound w) (Hthis : objects w !! this = Some b) (Hc : covers (store w) b p l).

Lemma good_advanced n : 0 <= n <= mLimit (super b) - mPosition (super b) -> good w NOERROR (put_object this (advanced n b) w).
Proof. intros Hn. eapply good_put_object; [done|]. by apply (advanced_covers w b p l Hc). Qed.

Lemma good_write l' n : length l' = length l -> Forall (fits_s 8) l' -> 0 <= n <= mLimit (super b) - mPosition (super b) ->
  good w NOERROR (put_object this (advanced n b) (put_block p l' w)).
Proof.
  intros Hl Hf Hn. eapply good_then; [eapply good_put_block; [done|by eapply covers_block|done..]|].
  eapply good_put_object; [eapply sound_put_block; [done|by eapply covers_block|done..]|].
  apply (advanced_covers (put_block p l' w) b p l'); [|lia]. by apply (covers_replace _ _ _ l).
Qed.

Lemma block_bytes : Forall (fits_s 8) l.
Proof. eapply sound_bytes; [done|by eapply covers_block]. Qed.

Lemma Get_good : room b 1 -> wp (code (Get this)) (good w) w.
Proof.
  intros Hr. pose proof (covers_facts _ _ _ _ Hc) as (H0 & H1 & H2 & H3 & H4). unfold room in Hr.
  eapply (wp_code _ NOERROR (Some _)); [|apply (good_advanced 1); lia]. by apply (Get_run _ _ _ _ _ Hthis Hc).
Qed.

Lemma Put_good x : (mIsReadOnly b = false -> room b 1) -> fits_s 8 x -> wp (Put this x) (good w) w.
Proof.
  intros Hr Hx. pose proof (covers_facts _ _ _ _ Hc) as (H0 & H1 & H2 & H3 & H4). unfold room in Hr.
  destruct (mIsReadOnly b) eqn:Hro.
  - eapply wp_result; [by apply (Put_read_only _ _ _ Hthis)|by apply good_same].
  - eapply wp_result; [apply (Put_run _ _ _ _ _ Hthis Hc); [by apply Hr|done]|].
    apply good_write; [apply length_insert|apply Forall_insert; [apply block_bytes|done]|specialize (Hr eq_refl); lia].
Qed.

Lemma Put_at_good i x : fits_s 8 x -> wp (Put_at this i x) (good w) w.
Proof.
  intros Hx. destruct (mIsReadOnly b) eqn:Hro.
  - eapply wp_result; [by apply (Put_at_read_only _ _ _ Hthis)|by apply good_same].
  - destruct ((0 <=? i) && (i <? mLimit (super b))) eqn:E.
    + eapply wp_result; [by apply (Put_at_run _ _ _ _ _ Hthis Hc)|].
      eapply good_put_block; [done|by eapply covers_block|apply length_insert|apply Forall_insert; [apply block_bytes|done]].
    + eapply wp_result; [by apply (Put_at_outside _ _ _ Hthis)|by apply good_same].
Qed.

Lemma Get_at_good i : wp (code (Get_at this i)) (good w) w.
Proof.
  pose proof (Get_at_run _ _ _ _ _ Hthis Hc i) as H.
  destruct ((0 <=? i) && (i <? mLimit (super b))); (eapply wp_code; [exact H|by apply good_same]).
Qed.

Lemma SetOrder_good bo : wp (SetOrder this bo) (good w) w.
Proof.
  unfold SetOrder. wstep. eapply wp_on_object; [exact Hthis|]. repeat wp_step.
  eapply good_put_object; [done|]. exact Hc.
Qed.

(** *** Bytes in bulk *)

Lemma part_bytes n i (m : list Z) : Forall (fits_s 8) m -> Forall (fits_s 8) (take n (drop i m)).
Proof. intros. by apply Forall_take, Forall_drop. Qed.

Lemma Get_array_good dst m offset length :
  array_of (store w) dst m -> 0 <= offset <= Z.of_nat (List.length m) ->
  fits_s 32 (mOffset b + length) -> fits_s 32 (Z.of_nat (List.length m) - (mOffset b + length)) ->
  wp (Get_array this dst offset length) (good w) w.
Proof.
  intros (q & Hd & Hm) Hoff Hf1 Hf2. pose proof (covers_facts _ _ _ _ Hc) as (H0 & H1 & H2 & H3 & H4).
  assert (Hq : store w !! q = Some m) by apply Hd.
  eapply wp_Get_array; [done..|by intros; apply good_same|by intros; apply good_same|].
  intros Hin Hrem n. set (m' := memcpy _ _ _).
  assert (Hlen : List.length m' = List.length m).
  { apply memcpy_length. rewrite length_take, length_drop. unfold n. lia. }
  assert (Hbytes : Forall (fits_s 8) m').
  { apply memcpy_bytes; [by eapply sound_bytes|apply part_bytes, block_bytes]. }
  eapply good_then; [by eapply good_put_block|].
  destruct (covers_put_block _ _ _ _ _ _ m' Hc Hq Hlen) as (l' & Hc').
  eapply good_put_object; [by eapply sound_put_block|]. apply (advanced_covers (put_block q m' w) b p l'); [done|lia].
Qed.

Lemma Put_array_good src m offset length :
  array_of (store w) src m -> fits_s 32 (offset + length) -> fits_s 32 (Z.of_nat (List.length m) - (offset + length)) ->
  wp (Put_array this src offset length) (good w) w.
Proof.
  intros (q & Hd & Hm) Hf1 Hf2. pose proof (covers_facts _ _ _ _ Hc) as (H0 & H1 & H2 & H3 & H4).
  eapply wp_Put_array; [done..|by intros; apply good_same|by intros; apply good_same|by intros; apply good_same|].
  intros Hro Hin Hrem. apply good_write; [| |lia].
  - apply memcpy_length. rewrite length_take, length_drop. lia.
  - apply memcpy_bytes; [apply block_bytes|]. apply part_bytes. eapply sound_bytes; [done|apply Hd].
Qed.

Lemma Put_buffer_good src : is_Some (objects w !! src) -> wp (Put_buffer this src) (good w) w.
Proof.
  intros [c Hsrc]. destruct (sound_object _ _ _ Hw Hsrc) as (q & m & Hcc).
  pose proof (covers_facts _ _ _ _ Hc) as (H0 & H1 & H2 & H3 & H4).
  pose proof (covers_facts _ _ _ _ Hcc) as (C0 & C1 & C2 & C3 & C4).
  pose proof (left_in_length _ _ _ _ Hcc) as Hleft.
  eapply wp_Put_buffer; [done..|by intros; apply good_same|by intros; apply good_same|by intros; apply good_same|].
  intros Hne Hro Hroom. set (l' := memcpy _ _ _). set (w1 := put_block p l' w).
  assert (Hlen : length l' = length l) by (apply memcpy_length; lia).
  assert (Hbytes : Forall (fits_s 8) l').
  { apply memcpy_bytes; [apply block_bytes|]. apply part_bytes. eapply sound_bytes; [done|by eapply covers_block]. }
  assert (Hp : store w !! p = Some l) by by eapply covers_block.
  assert (Hw1 : sound w1) by by eapply sound_put_block.
  destruct (covers_put_block _ _ _ _ _ _ l' Hcc Hp Hlen) as (m' & Hcc').
  eapply good_then; [by eapply good_put_block|]. fold w1 in Hcc' |- *.
  assert (Hd : covers (store w1) (drained c) q m').
  { apply covers_super; [done| |done]. apply moved_ordered; [apply Hcc|lia]. }
  eapply good_then; [eapply good_put_object; [done|exact Hd]|].
  eapply good_put_object; [eapply sound_put_object; [done|exact Hd]|].
  apply (advanced_covers w1 b p l'); [|lia]. by apply (covers_replace _ _ _ l).
Qed.

Lemma Compact_good : wp (Compact this) (good w) w.
Proof.
  destruct (mIsReadOnly b) eqn:Hro.
  { unfold Compact. repeat wstep. rewrite Hro. wstep. by apply good_same. }
  pose proof (covers_facts _ _ _ _ Hc) as (H0 & H1 & H2 & H3 & H4).
  eapply wp_result; [by apply (Compact_run _ _ _ _ _ Hthis Hc)|].
  assert (Hlen : length (compacted_block b l) = length l) by (eapply compacted_block_length; done).
  assert (Hp : store w !! p = Some l) by by eapply covers_block.
  assert (Hbytes : Forall (fits_s 8) (compacted_block b l)).
  { apply memcpy_bytes; [apply block_bytes|apply part_bytes, block_bytes]. }
  eapply good_then; [by eapply good_put_block|].
  eapply good_put_object; [by eapply sound_put_block|].
  pose proof Hc as (_ & Ho & _ & Hl). unfold ordered in Ho.
  apply (covers_super _ b p (compacted_block b l)); [|unfold ordered; cbn; lia|done].
  by apply (covers_replace _ _ _ l).
Qed.

(** *** Numbers *)

Lemma Get_number_good k : room b (Z.of_nat (width k)) -> wp (code (Get_number k this)) (good w) w.
Proof.
  intros Hr. rewrite Get_number_next.
  eapply wp_code; [by apply (get_next_run (N := laws k) _ _ _ _ _ Hthis Hc)|]. apply good_advanced. unfold room in Hr. lia.
Qed.

Lemma Get_number_at_good k index : fits_s 32 index -> wp (code (Get_number_at k this index)) (good w) w.
Proof.
  intros Hi. rewrite Get_number_at_eq. pose proof (get_at_run (N := laws k) _ _ _ _ _ Hthis Hc index Hi) as H.
  destruct (decide _); (eapply wp_code; [exact H|by apply good_same]).
Qed.

Lemma stored_good k index v : in_limit b index (width k) ->
  length (stored (N := laws k) b l index v) = length l /\ Forall (fits_s 8) (stored (N := laws k) b l index v).
Proof.
  intros Hi. pose proof (in_limit_block _ _ _ _ Hc _ _ Hi). split.
  - apply memcpy_length. rewrite BitsProofs.encode_length. lia.
  - apply memcpy_bytes; [apply block_bytes|apply BitsProofs.encode_bytes].
Qed.

Lemma Put_number_good k v : order_ok k (mBigEndian b) -> (mIsReadOnly b = false -> room b (Z.of_nat (width k))) ->
  wp (Put_number k this v) (good w) w.
Proof.
  intros Hord Hr. rewrite Put_number_next. destruct (mIsReadOnly b) eqn:Hro.
  { unfold put_next. repeat wstep. rewrite Hro. wstep. by apply good_same. }
  specialize (Hr eq_refl).
  eapply wp_result; [apply (put_next_run (N := laws k) _ _ _ _ _ Hthis Hc); [done|done|by apply order_laws]|].
  destruct (stored_good k (mPosition (super b)) v) as [Hl Hb]; [by apply (enough_in_limit w b p l Hc)|].
  apply good_write; [done|done|unfold room in Hr; lia].
Qed.

Lemma Put_number_at_good k index v : order_ok k (mBigEndian b) -> fits_s 32 index ->
  wp (Put_number_at k this index v) (good w) w.
Proof.
  intros Hord Hi. rewrite Put_number_at_eq. destruct (mIsReadOnly b) eqn:Hro.
  { eapply wp_result; [by apply (put_at_read_only _ _ _ Hthis)|by apply good_same]. }
  pose proof (put_at_run (N := laws k) _ _ _ _ _ Hthis Hc index v Hi Hro (order_laws _ _ Hord)) as H.
  destruct (decide _) as [Hin|_]; (eapply wp_result; [exact H|]); [|by apply good_same].
  destruct (stored_good k index v Hin) as [Hl Hb]. eapply good_put_block; [done|by eapply covers_block|done..].
Qed.

Lemma Slice_good : wp (code (Slice this)) (good w) w.
Proof.
  eapply wp_code; [by apply (Slice_run _ _ _ _ _ Hthis Hc)|].
  eapply good_put_object; [done|]. by apply sliced_covers.
Qed.

Lemma duplicate_good readOnly : wp (code (duplicate this readOnly)) (good w) w.
Proof.
  eapply wp_code; [by apply (duplicate_run _ _ _ _ _ Hthis Hc)|].
  eapply good_put_object; [done|]. by apply duplicated_covers.
Qed.

Lemma Duplicate_good : wp (code (Duplicate this)) (good w) w.
Proof.
  pose proof (duplicate_run _ _ _ _ _ Hthis Hc (mIsReadOnly b)) as H.
  eapply wp_code; [|eapply good_put_object; [done|by apply duplicated_covers]].
  apply result_wp. unfold Duplicate. wstep. eapply wp_field; [exact Hthis|]. by eapply wp_result; [exact H|].
Qed.

End Call.

(** *** New buffers *)

Lemma Allocate_good w cap : sound w -> fits_s 32 cap -> wp (code (Allocate cap)) (good w) w.
Proof.
  intros Hw Hcap. destruct (Z.lt_ge_cases cap 0).
  { eapply wp_code; [by apply Allocate_negative|by apply good_same]. }
  assert (Hr : 0 <= cap <= 2147483647) by fits.
  eapply wp_code; [by apply Allocate_run|].
  pose proof (sound_allocated w cap Hw Hr) as Hs.
  split; [eapply sound_put_object; [done|by apply allocated_covers]|]. split; [done|].
  intros t Ht. cbn. destruct (decide (fresh_object w = t)) as [->|Hne]; [by rewrite lookup_insert_eq|by rewrite lookup_insert_ne].
Qed.

Lemma Wrap_good w a l offset length : sound w -> array_of (store w) a l -> fits_s 32 (offset + length) ->
  wp (code (Wrap a offset length)) (good w) w.
Proof.
  intros Hw (p & Hb & Hl) Hf. eapply wp_code; [by eapply Wrap_run|].
  eapply good_put_object; [done|]. by apply (wrapped_covers _ _ p l).
Qed.

Ltac covered Hb := let p := fresh "p" in let l := fresh "l" in
  match type of Hb with objects ?w !! _ = Some _ =>
    match goal with Hw : sound w |- _ => destruct (sound_object _ _ _ Hw Hb) as (p & l & Hc) end end.
Ltac live H := let Hb := fresh "Hb" in destruct H as [? Hb]; covered Hb.

(** Every call, by the lemma of its operation. *)
Lemma exec_good w c : sound w -> ready w c -> wp (exec c) (good w) w.
Proof.
  intros Hw Hr. pose proof positions_disciplined as (HM & HC & HF & HR).
  destruct c; cbn [exec ready] in *;
    try (by apply buffer_good; auto using SetPosition_disciplined, SetLimit_disciplined, Reset_disciplined).
  - by apply Allocate_good.
  - destruct Hr as ((l & Ha) & Hf). by eapply Wrap_good.
  - live Hr. by eapply Slice_good.
  - live Hr. by eapply Duplicate_good.
  - live Hr. by eapply duplicate_good.
  - live Hr. by eapply SetOrder_good.
  - destruct Hr as (b & Hb & Hr). covered Hb. by eapply Get_good.
  - live Hr. by eapply Get_at_good.
  - destruct Hr as (b & m & Hb & Ha & Hoff & Hf1 & Hf2). covered Hb. by eapply Get_array_good.
  - destruct Hr as (c & Hb & Hr & Hx). covered Hb. by eapply Put_good.
  - destruct Hr as [Hr Hx]. live Hr. by eapply Put_at_good.
  - destruct Hr as (m & Hr & Ha & Hf1 & Hf2). live Hr. by eapply Put_array_good.
  - destruct Hr as [Hr Hsrc]. live Hr. by eapply Put_buffer_good.
  - live Hr. by eapply Compact_good.
  - destruct Hr as (b & Hb & Hr). covered Hb. by eapply Get_number_good.
  - destruct Hr as [Hr Hx]. live Hr. by eapply Get_number_at_good.
  - destruct Hr as (b & Hb & Hord & Hr). covered Hb. by eapply Put_number_good.
  - destruct Hr as (b & Hb & Hord & Hx). covered Hb. by eapply Put_number_at_good.
Qed.

(** ** Programs *)

(** Every call of the program is ready when its turn comes. *)
Fixpoint careful (w : world) (cs : list call) : Prop :=
  match cs with
  | [] => True
  | c :: cs => ready w c /\ forall ec w', exec c w = Some (ec, w') -> careful w' cs
  end.

(** C10: buffers keep their promise to a careful client. In a program whose client
    has made the buffer it calls, checks before each relative access that the
    buffer has room for it, gives ranges inside its arrays and keeps a [Float]
    to the big byte order ([careful]), every call is defined: whatever buffers
    share an array, no access leaves it. Afterwards every buffer has -1 <= mark
    <= position <= limit <= capacity and an array that covers it. Without room a
    relative access is undefined ([no_room_is_undefined]). *)
Theorem buffer_programs_are_safe cs : forall w, sound w -> careful w cs ->
  exists ecs w', run cs w = Some (ecs, w') /\ length ecs = length cs /\ sound w' /\
  forall this b, objects w' !! this = Some b ->
    -1 <= mMark (super b) <= mPosition (super b) /\ mPosition (super b) <= mLimit (super b) <= mCapacity (super b) /\
    0 <= mPosition (super b).
Proof.
  induction cs as [|c cs IH]; intros w Hw Hcs; cbn [run].
  - exists [], w. split; [done|]. split; [done|]. split; [done|].
    intros this b Hb. destruct (sound_object _ _ _ Hw Hb) as (p & l & _ & Ho & _). unfold ordered in Ho. lia.
  - destruct Hcs as [Hr Hnext]. destruct (wp_run _ _ _ (exec_good w c Hw Hr)) as (ec & w1 & He & Hw1 & _).
    destruct (IH w1 Hw1 (Hnext _ _ He)) as (ecs & w' & Hrun & Hlen & Hw' & Hb).
    exists (ec :: ecs), w'. unfold bind. rewrite He, Hrun. split; [done|]. split; [cbn; lia|done].
Qed.

(** A call that fails leaves the world as it was: no position moves, no
    byte changes, no buffer appears. *)
Theorem failed_calls_change_nothing w c : sound w -> ready w c ->
  exists ec w', exec c w = Some (ec, w') /\ (ec <> NOERROR -> w' = w).
Proof.
  intros Hw Hr. destruct (wp_run _ _ _ (exec_good w c Hw Hr)) as (ec & w1 & He & _ & Herr & _). eauto.
Qed.

End Programs.

(** *** Witnesses *)

Definition demo_calls : list call := [Slice_ 1; Put_number_ Integer 1 7; Get_ 2; Flip_ 1].

Lemma buffer_programs_are_safe_witness :
  exists ecs w', @run generous demo_calls demo_world = Some (ecs, w') /\ length ecs = 4%nat /\ sound w'.
Proof.
  destruct (@buffer_programs_are_safe generous generous_never_fails demo_calls demo_world demo_sound)
    as (ecs & w' & Hrun & Hlen & Hw & _); [|exact (ex_intro _ ecs (ex_intro _ w' (conj Hrun (conj Hlen Hw))))].
  cbn [careful demo_calls ready].
  split; [eexists; reflexivity|]. intros ec w1 H1. vm_compute in H1. injection H1 as <- <-.
  split; [eexists; split; [reflexivity|]; split; [exact I|]; unfold room; cbn; lia|].
  intros ec w2 H2. vm_compute in H2. injection H2 as <- <-.
  split; [eexists; split; [reflexivity|]; unfold room; cbn; lia|].
  intros ec w3 H3. vm_compute in H3. injection H3 as <- <-.
  split; [eexists; reflexivity|]. done.
Defined.

Lemma failed_calls_change_nothing_witness :
  exists ec w', @exec generous (Get_at_ 1 16) demo_world = Some (ec, w') /\ ec = E_INDEX_OUT_OF_BOUNDS_EXCEPTION /\ w' = demo_world.
Proof.
  destruct (@failed_calls_change_nothing generous generous_never_fails demo_world (Get_at_ 1 16) demo_sound)
    as (ec & w' & He & Hsame); [eexists; reflexivity|].
  exists ec, w'. split; [exact He|]. assert (ec = E_INDEX_OUT_OF_BOUNDS_EXCEPTION) as ->.
  { apply (f_equal (option_map fst)) in He. vm_compute in He. by injection He as <-. }
  split; [reflexivity|]. by apply Hsame.
Defined.

End BufferPrograms.
