(* ===== verification/BufferTheorems.v ===== *)
(** * Byte buffers: views, [Compact] and the accessors that go wrong *)
From S2P Require Import Prelude.
From S2P Require Import RtArray.
From S2P Require Import RtArrayProofs.
From S2P Require Import ECode.
From S2P Require Import Buffer.
From S2P Require Import ByteBuffer.
From S2P Require Import Bits.
From S2P Require Import HeapByteBuffer.
From S2P Require Import ByteBufferProofs.
From S2P Require Import BitsProofs.
From S2P Require Import NumberProofs.
From S2P Require Import NumberRoundTrip.
From S2P Require Import BufferRules.
From S2P Require Import BufferContents.
From S2P Require Import BufferPrograms.

Module BufferTheorems.
Import Buffer.Buffer ByteBuffer HeapByteBuffer ByteBufferProofs NumberProofs NumberRoundTrip BufferRules BufferContents.

Lemma left_in_insert s b p l (i : nat) x : covers s b p l ->
  Z.of_nat i < mLimit (super b) - mPosition (super b) ->
  left_in b (<[(Z.to_nat (mPosition (super b) + mOffset b) + i)%nat := x]> l) = <[i := x]> (left_in b l).
Proof.
  intros Hc Hi. unfold left_in. rewrite drop_insert_ge, take_insert_lt by lia. do 2 f_equal. lia.
Qed.

Lemma other_object w this b v c : this <> v ->
  objects w !! this = Some b -> objects (put_object v c w) !! this = Some b.
Proof. intros Hne Hb. cbn. by rewrite lookup_insert_ne. Qed.

(** C30: [Slice] makes a new buffer that has exactly the bytes the old one has
    left, starts at the first of them, and shares them: a byte put into the
    slice of a buffer that is not read-only is put into the old one. *)
Theorem Slice_is_the_rest w this b : sound w -> objects w !! this = Some b ->
  exists v w', Slice this w = Some ((NOERROR, Some v), w') /\ objects w !! v = None /\ sound w' /\
  remaining_bytes w' v = remaining_bytes w this /\ remaining_bytes w' this = remaining_bytes w this /\
  (exists c, objects w' !! v = Some c /\ mPosition (super c) = 0 /\ mMark (super c) = -1 /\ mLimit (super c) = mCapacity (super c)) /\
  (forall (i : nat) x, mIsReadOnly b = false -> (i < length (remaining_bytes w this))%nat -> fits_s 8 x ->
     exists w'', Put_at v (Z.of_nat i) x w' = Some (NOERROR, w'') /\
     remaining_bytes w'' this = <[i := x]> (remaining_bytes w this)).
Proof.
  intros Hw Hb. destruct (sound_object _ _ _ Hw Hb) as (p & l & Hc). set (v := fresh_object w).
  assert (Hne : this <> v) by (by apply (this_not_fresh w this b)).
  pose proof (sliced_covers _ _ _ _ Hc) as Hs. pose proof (left_in_length _ _ _ _ Hc) as Hlen.
  set (w' := put_object v (sliced b) w).
  assert (Hv : objects w' !! v = Some (sliced b)) by apply lookup_insert_eq.
  assert (Hthis : objects w' !! this = Some b) by by apply other_object.
  rewrite (remaining_bytes_of _ _ _ _ _ Hb Hc).
  pose proof Hc as (_ & Ho & H0 & H1). unfold ordered in Ho.
  set (n := mLimit (super b) - mPosition (super b)) in *.
  assert (Hlim : mLimit (super (sliced b)) = n).
  { cbn. fold n. by rewrite (proj2 (Z.leb_le 0 n)), (proj2 (Z.leb_le n n)) by lia. }
  assert (Hpos : mPosition (super (sliced b)) = 0).
  { cbn. by destruct (_ <=? _). }
  exists v, w'. split; [by apply (Slice_run _ _ _ _ _ Hb Hc)|]. split; [apply fresh_object_new|].
  split; [by eapply sound_put_object|]. split.
  { rewrite (remaining_bytes_of _ _ _ p l Hv Hs). unfold left_in. rewrite Hlim, Hpos. fold n.
    rewrite Z.sub_0_r, Z.add_0_l. done. }
  split; [by apply (remaining_bytes_of _ _ _ p l)|]. split.
  { exists (sliced b). rewrite Hlim, Hpos. done. }
  intros i x Hro Hi Hx. eexists. split.
  { apply (Put_at_run w' v (sliced b) p l Hv Hs); [done|]. rewrite Hlim.
    by rewrite (proj2 (Z.leb_le 0 (Z.of_nat i))), (proj2 (Z.ltb_lt (Z.of_nat i) n)) by lia. }
  assert (Hput : forall l', length l' = length l -> remaining_bytes (put_block p l' w') this = left_in b l').
  { intros l' Hl. eapply remaining_bytes_of; [exact Hthis|]. by apply (covers_replace _ _ _ l). }
  rewrite Hput by apply length_insert. rewrite <-(left_in_insert _ _ _ _ _ _ Hc) by lia. do 2 f_equal. cbn. lia.
Qed.

(** C31: [Compact] moves the bytes left to the start of the buffer, though the
    two ranges may overlap, and leaves room for more behind them. *)
Theorem Compact_keeps_the_rest w this b : sound w -> objects w !! this = Some b -> mIsReadOnly b = false ->
  exists w' c, Compact this w = Some (NOERROR, w') /\ sound w' /\ objects w' !! this = Some c /\
  mPosition (super c) = Z.of_nat (length (remaining_bytes w this)) /\ mLimit (super c) = mCapacity (super b) /\
  mMark (super c) = -1 /\
  exists w'', on_buffer this Flip w' = Some (NOERROR, w'') /\ remaining_bytes w'' this = remaining_bytes w this.
Proof.
  intros Hw Hb Hro. destruct (sound_object _ _ _ Hw Hb) as (p & l & Hc).
  pose proof (left_in_length _ _ _ _ Hc) as Hlen. rewrite (remaining_bytes_of _ _ _ _ _ Hb Hc).
  pose proof (covers_facts _ _ _ _ Hc) as (H0 & H1 & H2 & H3 & H4).
  set (l' := compacted_block b l). set (w' := put_object this (compacted b) (put_block p l' w)).
  assert (Hl' : length l' = length l) by (eapply compacted_block_length; done).
  assert (Hthis : objects w' !! this = Some (compacted b)) by apply lookup_insert_eq.
  pose proof (BufferPrograms.Compact_good w this b p l Hw Hb Hc) as Hgood. pose proof (Compact_run _ _ _ _ _ Hb Hc Hro) as Hrun.
  unfold wp in Hgood. rewrite Hrun in Hgood. destruct Hgood as [Hs _].
  exists w', (compacted b). split; [exact Hrun|]. split; [exact Hs|]. split; [exact Hthis|].
  split; [cbn; lia|]. split; [done|]. split; [done|].
  set (s2 := {| mPosition := 0; mElementSizeShift := mElementSizeShift (super b); mMark := -1;
                mLimit := mLimit (super b) - mPosition (super b); mCapacity := mCapacity (super b) |}).
  exists (put_object this (with_super s2 (compacted b)) w'). split.
  { apply result_wp. eapply wp_on_buffer; [exact Hthis|reflexivity|]. done. }
  rewrite (remaining_bytes_of _ this (with_super s2 (compacted b)) p l').
  - unfold left_in at 1. cbn [super with_super s2 mLimit mPosition mOffset compacted].
    rewrite Z.sub_0_r, Z.add_0_l. unfold l', compacted_block. fold (left_in b l).
    change (take _ (drop (Z.to_nat (mPosition (super b) + mOffset b)) l)) with (left_in b l).
    apply memcpy_reads; lia.
  - apply lookup_insert_eq.
  - pose proof Hc as (_ & Ho & _ & Hmax). unfold ordered in Ho.
    apply (covers_super _ (compacted b) p l'); [|unfold ordered; cbn; lia|done].
    apply (covers_super _ b p l'); [|unfold ordered; cbn; lia|done]. by apply (covers_replace _ _ _ l).
Qed.

(** ** Where the accessors go wrong *)

(** [Get] into an array checks the buffer's own offset against the array
    in place of the offset in the array: a buffer whose array starts later
    refuses to fill an array it has the bytes for, and a buffer at the start
    accepts an offset that leaves no room, stores what fits and skips the rest. *)
Theorem Get_checks_the_wrong_offset w this b dst q m : sound w -> objects w !! this = Some b ->
  RtArrayProofs.backs (store w) dst q m ->
  Z.of_nat (length m) + mOffset b <= 2147483647 -> Z.of_nat (length m) <= Z.of_nat (length (remaining_bytes w this)) ->
  (0 < mOffset b -> Get_all this dst w = Some (E_INDEX_OUT_OF_BOUNDS_EXCEPTION, w)) /\
  (mOffset b = 0 -> forall offset, 0 <= offset <= Z.of_nat (length m) ->
     exists w', Get_array this dst offset (Z.of_nat (length m)) w = Some (NOERROR, w') /\
     objects w' !! this = Some (advanced (Z.of_nat (length m)) b) /\
     store w' !! q = Some (take (Z.to_nat offset) m ++
       take (Z.to_nat (Z.of_nat (length m) - offset)) (remaining_bytes w this))).
Proof.
  intros Hw Hb Hd Hm Hrem. destruct (sound_object _ _ _ Hw Hb) as (p & l & Hc).
  rewrite (remaining_bytes_of _ _ _ _ _ Hb Hc) in *. pose proof (left_in_length _ _ _ _ Hc) as Hlen.
  pose proof (covers_facts _ _ _ _ Hc) as (H0 & H1 & H2 & H3 & H4). split.
  - intros Hoff. apply result_wp. unfold Get_all. rewrite (array_length _ _ _ _ Hd) by lia.
    eapply wp_Get_array; [exact Hb|exact Hc|exact Hd|lia|lia|fits|fits|done|intros; exfalso; lia|intros; exfalso; lia].
  - intros Hoff offset Hr.
    enough (wp (Get_array this dst offset (Z.of_nat (length m))) (fun ec w' => ec = NOERROR /\
      objects w' !! this = Some (advanced (Z.of_nat (length m)) b) /\
      store w' !! q = Some (take (Z.to_nat offset) m ++ take (Z.to_nat (Z.of_nat (length m) - offset)) (left_in b l))) w) as H.
    { apply wp_run in H as (ec & w' & Hrun & -> & Hrest). by exists w'. }
    eapply wp_Get_array; [exact Hb|exact Hc|exact Hd|lia|lia|fits|fits|intros; exfalso; lia|intros; exfalso; lia|]. intros _ _ n. split; [done|].
    split; [apply lookup_insert_eq|]. cbn [store put_object put_block]. rewrite lookup_insert_eq. f_equal.
    assert (Hn : n = Z.to_nat (Z.of_nat (length m) - offset)) by (unfold n; lia).
    unfold memcpy. rewrite length_take, length_drop, (drop_ge m), app_nil_r by lia. f_equal. rewrite Hn.
    unfold left_in. rewrite take_take. f_equal. lia.
Qed.

(** In the little order [PutFloat] converts the number to [Long] and writes
    eight bytes, though it has checked for four: it does what [PutLong] does for
    the truncated number, and [GetFloat] reads back that number's low bits. *)
Theorem little_float_is_a_long w this b index v n : sound w -> objects w !! this = Some b ->
  mIsReadOnly b = false -> mBigEndian b = false -> Bits.float_to_long v = Some n ->
  0 <= index -> index + 8 <= mLimit (super b) ->
  exists w', PutFloat_at this index v w = Some (NOERROR, w') /\ PutLong_at this index n w = Some (NOERROR, w') /\
  GetFloat_at this index w' = Some ((NOERROR, Some (u32 n)), w').
Proof.
  intros Hw Hb Hro Hbig Hv H0 Hlim. destruct (sound_object _ _ _ Hw Hb) as (p & l & Hc).
  pose proof Hc as (_ & Ho & Hoff & Hlen). unfold ordered in Ho.
  assert (Hput : PutLong_at this index n w = Some (NOERROR, put_block p (stored (N := laws Long) b l index n) w)).
  { pose proof (put_at_run (N := laws Long) _ _ _ _ _ Hb Hc index n) as H.
    rewrite decide_True in H by (split; cbn; lia). apply H; [fits|done|exact I]. }
  set (l' := stored (N := laws Long) b l index n) in *.
  assert (Hl' : length l' = length l) by (apply memcpy_length; rewrite BitsProofs.encode_length; cbn; lia).
  exists (put_block p l' w). split; [|split; [exact Hput|]].
  - apply result_wp. unfold PutFloat_at, put_at. repeat wstep. rewrite Hro. apply wp_fail_return.
    eapply wp_on_buffer_look; [exact Hb|apply (check_of w b p l Hc index 4); fits|].
    rewrite decide_True by (split; lia). cbn [FAILED]. wstep.
    apply (wp_bits_of w this b p l Hb Hc); [lia|]. rewrite Hbig. unfold Bits.PutFloat. rewrite Hv. wstep. apply wp_known.
    change (Bits.PutLongL this (index + mOffset b) n) with (Bits.PutLong this (index + mOffset b) n false).
    eapply wp_result.
    { apply (BitsProofs.put_encodes (Number := laws Long) w this b p l (index + mOffset b) false n); try done; cbn; lia. }
    wstep. split; [done|]. unfold l', stored. by rewrite Hbig.
  - assert (Hc' : covers (store (put_block p l' w)) b p l') by by apply (covers_replace _ _ _ l).
    pose proof (get_at_run (N := laws Float) (put_block p l' w) this b p l' Hb Hc' index) as H.
    rewrite decide_True in H by (split; cbn; lia). etrans; [apply H; fits|]. do 4 f_equal.
    assert (Hbytes : bytes_at b l' index 4 = [i8 n; i8 (Z.shiftr n 8); i8 (Z.shiftr n 16); i8 (Z.shiftr n 24)]).
    { pose proof (memcpy_reads l (Z.to_nat (index + mOffset b)) (BitsProofs.encode (Number := laws Long) false n) 8) as H8.
      unfold bytes_at, l', stored. rewrite Hbig.
      replace 4%nat with (4 `min` 8)%nat by done. rewrite <-take_take, H8; [done|done|lia]. }
    rewrite Hbig. change (width Float) with 4%nat. rewrite Hbytes.
    change (u32 (Bits.MakeInteger (i8 (Z.shiftr n 24)) (i8 (Z.shiftr n 16)) (i8 (Z.shiftr n 8)) (i8 n)) = u32 n).
    rewrite BitsProofs.Integer_low. unfold wrap_u. by rewrite wrap_s_mod.
Qed.

(** The relative accessors drop the error of a buffer without room and go on
    with an index that was never set. *)
Theorem no_room_is_undefined w this b : sound w -> objects w !! this = Some b ->
  let room := mLimit (super b) - mPosition (super b) in
  (room = 0 -> Get this w = None) /\
  (forall k, room < Z.of_nat (width k) -> Get_number k this w = None).
Proof.
  intros Hw Hb room. destruct (sound_object _ _ _ Hw Hb) as (p & l & Hc). split.
  - intros Hr. apply (Get_undefined _ _ _ _ _ Hb Hc). unfold room in Hr. lia.
  - intros k Hr. rewrite Get_number_next. apply (get_next_undefined _ _ _ _ _ Hb Hc).
    unfold enough, room in *. lia.
Qed.

(** *** Witnesses *)

Lemma Slice_is_the_rest_witness :
  exists v w', Slice 1 demo_world = Some ((NOERROR, Some v), w') /\ remaining_bytes w' v = drop 2 demo_bytes.
Proof.
  destruct (Slice_is_the_rest demo_world 1 (demo_buffer 0 2) demo_sound) as (v & w' & Hs & _ & _ & Hr & _); [reflexivity|].
  exists v, w'. split; [exact Hs|]. rewrite Hr. reflexivity.
Defined.

Lemma Compact_keeps_the_rest_witness :
  exists w' c, Compact 1 demo_world = Some (NOERROR, w') /\ objects w' !! 1%positive = Some c /\ mPosition (super c) = 14.
Proof.
  destruct (Compact_keeps_the_rest demo_world 1 (demo_buffer 0 2) demo_sound) as (w' & c & Hrun & _ & Hc & Hpos & _);
    [reflexivity|reflexivity|].
  exists w', c. split; [exact Hrun|]. split; [exact Hc|]. rewrite Hpos. reflexivity.
Defined.

(** An array of two bytes beside the buffers. *)
Definition two_arrays : world :=
  {| store := {[ 1%positive := demo_bytes; 2%positive := [0; 0] ]}; objects := objects demo_world |}.

Lemma two_arrays_sound : sound two_arrays.
Proof.
  split.
  - intros this b Hb. destruct (proj1 demo_sound this b Hb) as (p & l & (Hd & Hp & Hs) & Hrest). exists p, l.
    split; [|exact Hrest]. split_and!; [exact Hd| |exact Hs].
    cbn in Hp |- *. by apply lookup_singleton_Some in Hp as [<- <-].
  - intros p l Hl. cbn in Hl. apply lookup_insert_Some in Hl as [[<- <-]|[_ Hl]].
    + by apply (proj2 demo_sound 1%positive).
    + apply lookup_singleton_Some in Hl as [<- <-]. repeat constructor; unfold fits_s; lia.
Qed.

Lemma Get_checks_the_wrong_offset_witness :
  let dst := {| RtArray.mData := Some 2%positive; RtArray.mSize := 2 |} in
  Get_all 2 dst two_arrays = Some (E_INDEX_OUT_OF_BOUNDS_EXCEPTION, two_arrays) /\
  exists w', Get_array 1 dst 1 2 two_arrays = Some (NOERROR, w') /\ store w' !! 2%positive = Some [0; 3].
Proof.
  intros dst. assert (Hd : RtArrayProofs.backs (store two_arrays) dst 2%positive [0; 0]) by (split_and!; reflexivity).
  split.
  - apply (Get_checks_the_wrong_offset two_arrays 2 (demo_buffer 4 0) dst 2 [0; 0] two_arrays_sound);
      [reflexivity|exact Hd|cbn; lia|vm_compute; discriminate|reflexivity].
  - destruct (proj2 (Get_checks_the_wrong_offset two_arrays 1 (demo_buffer 0 2) dst 2 [0; 0] two_arrays_sound
      eq_refl Hd ltac:(cbn; lia) ltac:(vm_compute; discriminate)) eq_refl 1 ltac:(cbn; lia)) as (w' & Hrun & _ & Hst).
    exists w'. split; [exact Hrun|]. rewrite Hst. reflexivity.
Defined.

(** 1.0 comes back as the bit pattern 1. *)
Lemma little_float_is_a_long_witness :
  let b := set_order LITTLE_ENDIAN (demo_buffer 0 0) in
  let w := put_object 1 b demo_world in
  exists w', PutFloat_at 1 0 0x3f800000 w = Some (NOERROR, w') /\ GetFloat_at 1 0 w' = Some ((NOERROR, Some 1), w').
Proof.
  intros b w. assert (Hw : sound w).
  { apply (sound_put_object demo_world 1 b 1 demo_bytes demo_sound). by apply demo_covers. }
  destruct (little_float_is_a_long w 1 b 0 0x3f800000 1 Hw) as (w' & Hput & _ & Hget);
    try reflexivity; try (cbn; lia).
  exists w'. split; [exact Hput|exact Hget].
Defined.

Lemma no_room_is_undefined_witness :
  let w := put_object 1 (demo_buffer 0 16) demo_world in Get 1 w = None /\ GetLong 1 w = None.
Proof.
  intros w. assert (Hw : sound w).
  { apply (sound_put_object demo_world 1 (demo_buffer 0 16) 1 demo_bytes demo_sound). by apply demo_covers. }
  destruct (no_room_is_undefined w 1 (demo_buffer 0 16) Hw eq_refl) as [H1 H2].
  split; [by apply H1|by apply (H2 Long)].
Defined.

End BufferTheorems.
