(* ===== verification/TreeMap.v ===== *)
(** * The tree map

    [TreeMap] of [src/src/libcore/src/ccm/util/TreeMap.cpp]: a red-black tree of
    entries linked to their children and to their parent.  The world is the map
    object and the entries made so far, by address; pointers are addresses, and a
    counted pointer is the pointer it holds (entries are not freed).  Other
    objects are references [Obj], of which the code calls [CompareTo], [Compare] and
    [Equals].  [L] and [R] are the sides of an entry: where the code has a
    function or a branch twice, with left and right exchanged, there is one
    definition with the side as an argument.  Loops take fuel from the number of
    entries ([rounds]). *)
From stdpp Require Import gmap.
From S2P Require Import Prelude.
From S2P Require Import ECode.

Module TreeMap.

(** What the map calls of the objects it is given: [IComparable::Probe], and
    functions that return a code and what they stored in their out parameter. *)
Class Objects (Obj : Type) := {
  is_comparable : Obj -> bool;
  CompareTo : Obj -> option Obj -> ECode * option Z;
  Comparator_Compare : Obj -> option Obj -> option Obj -> ECode * option Z;
  Object_Equals : Obj -> option Obj -> bool
}.

Notation ptr := (option positive).

Definition RED := false.
Definition BLACK := true.

Record TreeMapEntry {Obj : Type} := {
  mKey : option Obj;
  mValue : option Obj;
  mLeft : ptr;
  mRight : ptr;
  mParent : ptr;
  mColor : bool
}.
#[global] Arguments TreeMapEntry : clear implicits.

(** A view that [AbstractMap] keeps is known by the map object it is a view of,
    its [mOwner]; map objects have addresses of their own. *)
Record TreeMap {Obj : Type} := {
  mComparator : option Obj;
  mRoot : ptr;
  mSize : Z;
  mModCount : Z;
  mKeySet : ptr;
  mValues : ptr
}.
#[global] Arguments TreeMap : clear implicits.

Record world {Obj : Type} := { this : TreeMap Obj; entries : gmap positive (TreeMapEntry Obj) }.
#[global] Arguments world : clear implicits.

Inductive side := L | R.
Definition flip (s : side) : side := match s with L => R | R => L end.

#[export] Instance side_eq_dec : EqDecision side.
Proof. solve_decision. Defined.

Section TreeMap.
Context {Obj : Type} `{!EqDecision Obj} `{!Objects Obj}.
Notation ref := (option Obj).
Notation M := (SE (world Obj)).

(** ** Fields *)

Definition new_entry (key value : ref) (parent : ptr) : TreeMapEntry Obj :=
  {| mKey := key; mValue := value; mLeft := None; mRight := None; mParent := parent; mColor := BLACK |}.

Definition child (s : side) (e : TreeMapEntry Obj) : ptr := match s with L => mLeft e | R => mRight e end.

Definition set_child (s : side) (q : ptr) (e : TreeMapEntry Obj) : TreeMapEntry Obj :=
  match s with
  | L => {| mKey := mKey e; mValue := mValue e; mLeft := q; mRight := mRight e; mParent := mParent e; mColor := mColor e |}
  | R => {| mKey := mKey e; mValue := mValue e; mLeft := mLeft e; mRight := q; mParent := mParent e; mColor := mColor e |}
  end.
Definition set_parent (q : ptr) (e : TreeMapEntry Obj) : TreeMapEntry Obj :=
  {| mKey := mKey e; mValue := mValue e; mLeft := mLeft e; mRight := mRight e; mParent := q; mColor := mColor e |}.
Definition set_color (c : bool) (e : TreeMapEntry Obj) : TreeMapEntry Obj :=
  {| mKey := mKey e; mValue := mValue e; mLeft := mLeft e; mRight := mRight e; mParent := mParent e; mColor := c |}.
Definition set_value (v : ref) (e : TreeMapEntry Obj) : TreeMapEntry Obj :=
  {| mKey := mKey e; mValue := v; mLeft := mLeft e; mRight := mRight e; mParent := mParent e; mColor := mColor e |}.
Definition set_key (k : ref) (e : TreeMapEntry Obj) : TreeMapEntry Obj :=
  {| mKey := k; mValue := mValue e; mLeft := mLeft e; mRight := mRight e; mParent := mParent e; mColor := mColor e |}.

(** [p->field], with [p] not null. *)
Definition get {X} (p : ptr) (field : TreeMapEntry Obj -> X) : M X :=
  match p with
  | None => undefined
  | Some a => fun w => match entries w !! a with Some e => Some (field e, w) | None => None end
  end.

(** [p->field = ...]. *)
Definition put (p : ptr) (f : TreeMapEntry Obj -> TreeMapEntry Obj) : M unit :=
  match p with
  | None => undefined
  | Some a => fun w =>
      match entries w !! a with
      | Some e => Some (tt, {| this := this w; entries := <[a := f e]> (entries w) |})
      | None => None
      end
  end.

(** [new TreeMapEntry(key, value, parent)]. *)
Definition new_TreeMapEntry (key value : ref) (parent : ptr) : M ptr :=
  fun w => let a := fresh (dom (entries w)) in
           Some (Some a, {| this := this w; entries := <[a := new_entry key value parent]> (entries w) |}).

Definition self {X} (f : TreeMap Obj -> X) : M X := gets (fun w => f (this w)).
Definition update (f : TreeMap Obj -> TreeMap Obj) : M unit :=
  modify (fun w => {| this := f (this w); entries := entries w |}).

Definition set_mRoot (q : ptr) : M unit :=
  update (fun t => {| mComparator := mComparator t; mRoot := q; mSize := mSize t; mModCount := mModCount t;
                     mKeySet := mKeySet t; mValues := mValues t |}).
Definition set_mSize (n : Z) : M unit :=
  update (fun t => {| mComparator := mComparator t; mRoot := mRoot t; mSize := n; mModCount := mModCount t;
                     mKeySet := mKeySet t; mValues := mValues t |}).
Definition set_mModCount (n : Z) : M unit :=
  update (fun t => {| mComparator := mComparator t; mRoot := mRoot t; mSize := mSize t; mModCount := n;
                     mKeySet := mKeySet t; mValues := mValues t |}).

(** [mModCount++] and the like. *)
Definition bump_mModCount : M unit := n <- self mModCount ;; n <- int (n + 1) ;; set_mModCount n.
Definition add_mSize (d : Z) : M unit := n <- self mSize ;; n <- int (n + d) ;; set_mSize n.

(** Fuel for a loop along a path of the tree. *)
Definition rounds : M nat := self (fun t => Z.to_nat (mSize t) + 3)%nat.

(** [while (cond) body]. *)
Fixpoint while {X} (n : nat) (body : X -> M (X * bool)) (x : X) : M X :=
  match n with
  | O => undefined
  | S n => r <- body x ;; if snd r : bool then while n body (fst r) else ret (fst r)
  end.

(** ** Comparing keys *)

(** [IComparable::Probe(k1)->CompareTo(k2, &cmp)]. *)
Definition CompareTo_probed (k1 k2 : ref) : M (ECode * option Z) :=
  match k1 with
  | Some o => if is_comparable o then ret (CompareTo o k2) else undefined
  | None => undefined
  end.

(** The comparison a path takes: the comparator's or the keys' own. *)
Definition compare_by (cpr : option Obj) (k1 k2 : ref) : M (ECode * option Z) :=
  match cpr with
  | Some c => ret (Comparator_Compare c k1 k2)
  | None => CompareTo_probed k1 k2
  end.

Definition Compare (k1 k2 : ref) : M Z :=
  cpr <- self mComparator ;;
  r <- compare_by cpr k1 k2 ;;
  known (snd r).

Definition ValEquals (o1 o2 : ref) : bool :=
  match o1 with None => bool_decide (o2 = None) | Some o => Object_Equals o o2 end.

(** ** Walking *)

(** [while (p->mLeft != nullptr) p = p->mLeft], and to the right. *)
Definition descend (s : side) (n : nat) (p : ptr) : M ptr :=
  while n (fun p =>
    q <- get p (child s) ;;
    ret (match q with Some _ => (q, true) | None => (p, false) end)) p.

Definition extreme (s : side) : M ptr :=
  p <- self mRoot ;;
  n <- rounds ;;
  if decide (p = None) then ret None else descend s n p.
Definition GetFirstEntry : M ptr := extreme L.
Definition GetLastEntry : M ptr := extreme R.

(** [while (parent != nullptr && ch == parent->mRight) { ch = parent; parent =
    parent->mParent; }], and to the left; the result is [parent]. *)
Definition climb (s : side) (n : nat) (parent ch : ptr) : M ptr :=
  r <- while n (fun '(parent, ch) =>
         if decide (parent = None) then ret (parent, ch, false)
         else q <- get parent (child s) ;;
              if decide (ch = q) then g <- get parent mParent ;; ret (g, parent, true)
              else ret (parent, ch, false)) (parent, ch) ;;
  ret (fst r).

(** [Successor] is the next entry towards [R], [Predecessor] towards [L]. *)
Definition neighbour (s : side) (t : ptr) : M ptr :=
  n <- rounds ;;
  if decide (t = None) then ret None
  else q <- get t (child s) ;;
       if decide (q = None) then p <- get t mParent ;; climb s n p t
       else descend (flip s) n q.
Definition Successor : ptr -> M ptr := neighbour R.
Definition Predecessor : ptr -> M ptr := neighbour L.

(** ** Searching *)

(** One round of [GetEntry] and [GetEntryUsingComparator]. *)
Definition GetEntry_loop (n : nat) (cpr : option Obj) (key : ref) (p : ptr) : M ptr :=
  while n (fun p =>
    if decide (p = None) then ret (p, false)
    else pk <- get p mKey ;;
         r <- compare_by cpr key pk ;;
         cmp <- known (snd r) ;;
         if cmp <? 0 then q <- get p mLeft ;; ret (q, true)
         else if cmp >? 0 then q <- get p mRight ;; ret (q, true)
         else ret (p, false)) p.

Definition GetEntryUsingComparator (c : Obj) (key : ref) : M ptr :=
  p <- self mRoot ;; n <- rounds ;; GetEntry_loop n (Some c) key p.

Definition GetEntry (key : ref) : M (ECode * option ptr) :=
  cpr <- self mComparator ;;
  match cpr with
  | Some c => p <- GetEntryUsingComparator c key ;; ret (NOERROR, Some p)
  | None =>
      if decide (key = None) then ret (E_NULL_POINTER_EXCEPTION, None)
      else p <- self mRoot ;; n <- rounds ;;
           p <- GetEntry_loop n None key p ;; ret (NOERROR, Some p)
  end.

(** [cmp] tells that the key is on side [s]. *)
Definition towards (s : side) (cmp : Z) : bool := match s with L => cmp <? 0 | R => cmp >? 0 end.

(** The four searches for the entry next to a key: from it towards [flip s], the
    key itself counting if [inclusive]. *)
Definition nearest (s : side) (inclusive : bool) (key : ref) : M (ECode * option ptr) :=
  if decide (key = None) then ret (E_NULL_POINTER_EXCEPTION, None)
  else
    p <- self mRoot ;;
    n <- rounds ;;
    p <- while n (fun p =>
           if decide (p = None) then ret (p, false)
           else pk <- get p mKey ;;
                cmp <- Compare key pk ;;
                if towards s cmp then
                  q <- get p (child s) ;;
                  if decide (q = None) then ret (p, false) else ret (q, true)
                else if towards (flip s) cmp || negb inclusive then
                  q <- get p (child (flip s)) ;;
                  if decide (q = None)
                  then g <- get p mParent ;; e <- climb (flip s) n g p ;; ret (e, false)
                  else ret (q, true)
                else ret (p, false)) p ;;
    ret (NOERROR, Some p).
Definition GetCeilingEntry : ref -> M (ECode * option ptr) := nearest L true.
Definition GetHigherEntry : ref -> M (ECode * option ptr) := nearest L false.
Definition GetFloorEntry : ref -> M (ECode * option ptr) := nearest R true.
Definition GetLowerEntry : ref -> M (ECode * option ptr) := nearest R false.

(** ** Balancing *)

Definition ColorOf (p : ptr) : M bool := if decide (p = None) then ret BLACK else get p mColor.
Definition ParentOf (p : ptr) : M ptr := if decide (p = None) then ret None else get p mParent.
Definition SetColor (p : ptr) (c : bool) : M unit := if decide (p = None) then ret tt else put p (set_color c).
Definition child_of (s : side) (p : ptr) : M ptr := if decide (p = None) then ret None else get p (child s).
Definition LeftOf : ptr -> M ptr := child_of L.
Definition RightOf : ptr -> M ptr := child_of R.

(** [RotateLeft] lowers [p] to the left of its right child, [RotateRight] to the
    right of its left child. *)
Definition rotate (s : side) (p : ptr) : M unit :=
  if decide (p = None) then ret tt
  else
    r <- get p (child (flip s)) ;;
    rl <- get r (child s) ;;
    put p (set_child (flip s) rl) ;;;
    (if decide (rl = None) then ret tt else put rl (set_parent p)) ;;;
    g <- get p mParent ;;
    put r (set_parent g) ;;;
    (if decide (g = None) then set_mRoot r
     else gl <- get g (child s) ;;
          if decide (gl = p) then put g (set_child s r) else put g (set_child (flip s) r)) ;;;
    put r (set_child s p) ;;;
    put p (set_parent r).
Definition RotateLeft : ptr -> M unit := rotate L.
Definition RotateRight : ptr -> M unit := rotate R.

(** The branch of [FixAfterInsertion] for a parent on side [s] of its parent. *)
Definition FixAfterInsertion_side (s : side) (x : ptr) : M ptr :=
  px <- ParentOf x ;; g <- ParentOf px ;; y <- child_of (flip s) g ;;
  cy <- ColorOf y ;;
  if Bool.eqb cy RED then
    px <- ParentOf x ;; SetColor px BLACK ;;;
    SetColor y BLACK ;;;
    px <- ParentOf x ;; g <- ParentOf px ;; SetColor g RED ;;;
    px <- ParentOf x ;; ParentOf px
  else
    px <- ParentOf x ;; q <- child_of (flip s) px ;;
    x <- (if decide (x = q) then px <- ParentOf x ;; rotate s px ;;; ret px else ret x) ;;
    px <- ParentOf x ;; SetColor px BLACK ;;;
    px <- ParentOf x ;; g <- ParentOf px ;; SetColor g RED ;;;
    px <- ParentOf x ;; g <- ParentOf px ;; rotate (flip s) g ;;;
    ret x.

Definition FixAfterInsertion_round (x : ptr) : M (ptr * bool) :=
  root <- self mRoot ;;
  if decide (x = None \/ x = root) then ret (x, false)
  else
    px <- get x mParent ;; c <- get px mColor ;;
    if Bool.eqb c RED then
      px <- ParentOf x ;; g <- ParentOf px ;; gl <- LeftOf g ;;
      x <- FixAfterInsertion_side (if decide (px = gl) then L else R) x ;; ret (x, true)
    else ret (x, false).

Definition FixAfterInsertion (n : nat) (x : ptr) : M unit :=
  put x (set_color RED) ;;;
  while n FixAfterInsertion_round x ;;;
  root <- self mRoot ;;
  put root (set_color BLACK).

(** The branch of [FixAfterDeletion] for an [x] on side [s] of its parent, first
    from where the sibling is black. *)
Definition FixAfterDeletion_black (s : side) (x sib : ptr) : M ptr :=
  l <- child_of s sib ;; cl <- ColorOf l ;;
  r <- child_of (flip s) sib ;; cr <- ColorOf r ;;
  if Bool.eqb cl BLACK && Bool.eqb cr BLACK then
    SetColor sib RED ;;; ParentOf x
  else
    r <- child_of (flip s) sib ;; cr <- ColorOf r ;;
    sib <- (if Bool.eqb cr BLACK then
              l <- child_of s sib ;; SetColor l BLACK ;;;
              SetColor sib RED ;;;
              rotate (flip s) sib ;;;
              px <- ParentOf x ;; child_of (flip s) px
            else ret sib) ;;
    px <- ParentOf x ;; c <- ColorOf px ;; SetColor sib c ;;;
    px <- ParentOf x ;; SetColor px BLACK ;;;
    r <- child_of (flip s) sib ;; SetColor r BLACK ;;;
    px <- ParentOf x ;; rotate s px ;;;
    self mRoot.

Definition FixAfterDeletion_side (s : side) (x : ptr) : M ptr :=
  px <- ParentOf x ;; sib <- child_of (flip s) px ;;
  c <- ColorOf sib ;;
  sib <- (if Bool.eqb c RED then
            SetColor sib BLACK ;;;
            px <- ParentOf x ;; SetColor px RED ;;;
            px <- ParentOf x ;; rotate s px ;;;
            px <- ParentOf x ;; child_of (flip s) px
          else ret sib) ;;
  FixAfterDeletion_black s x sib.

Definition FixAfterDeletion_round (x : ptr) : M (ptr * bool) :=
  root <- self mRoot ;;
  if decide (x = root) then ret (x, false)
  else
    c <- ColorOf x ;;
    if Bool.eqb c BLACK then
      px <- ParentOf x ;; l <- LeftOf px ;;
      x <- FixAfterDeletion_side (if decide (x = l) then L else R) x ;; ret (x, true)
    else ret (x, false).

Definition FixAfterDeletion (n : nat) (x : ptr) : M unit :=
  x <- while n FixAfterDeletion_round x ;;
  SetColor x BLACK.

(** [if (p == p->mParent->mLeft) ... else ...], the link to [p] in its parent. *)
Definition relink (p q : ptr) : M unit :=
  g <- get p mParent ;;
  if decide (g = None) then set_mRoot q
  else gl <- get g mLeft ;;
       if decide (p = gl) then put g (set_child L q) else put g (set_child R q).

(** [DeleteEntry] from where [p] has one child at most. *)
Definition DeleteEntry_unlink (n : nat) (p : ptr) : M unit :=
  l <- get p mLeft ;;
  replacement <- (if decide (l <> None) then ret l else get p mRight) ;;
  if decide (replacement <> None) then
    g <- get p mParent ;;
    put replacement (set_parent g) ;;;
    relink p replacement ;;;
    put p (set_parent None) ;;; put p (set_child R None) ;;; put p (set_child L None) ;;;
    c <- get p mColor ;;
    if Bool.eqb c BLACK then FixAfterDeletion n replacement else ret tt
  else
    g <- get p mParent ;;
    if decide (g = None) then set_mRoot None
    else
      c <- get p mColor ;;
      (if Bool.eqb c BLACK then FixAfterDeletion n p else ret tt) ;;;
      g <- get p mParent ;;
      if decide (g = None) then ret tt
      else
        gl <- get g mLeft ;;
        (if decide (p = gl) then put g (set_child L None)
         else gr <- get g mRight ;; if decide (p = gr) then put g (set_child R None) else ret tt) ;;;
        put p (set_parent None).

Definition DeleteEntry (p : ptr) : M unit :=
  n <- rounds ;;
  bump_mModCount ;;;
  add_mSize (-1) ;;;
  l <- get p mLeft ;; r <- get p mRight ;;
  p <- (if decide (l <> None /\ r <> None) then
          s <- Successor p ;;
          k <- get s mKey ;; put p (set_key k) ;;;
          v <- get s mValue ;; put p (set_value v) ;;;
          ret s
        else ret p) ;;
  DeleteEntry_unlink n p.

(** ** The operations of the map

    [out] tells whether the caller passes a pointer for the optional out
    parameter. *)
Definition stored {X} (out : bool) (v : X) : option X := if out then Some v else None.

Definition GetSize : M (ECode * option Z) := n <- self mSize ;; ret (NOERROR, Some n).

Definition ContainsKey (key : ref) : M (ECode * option bool) :=
  r <- GetEntry key ;;
  if FAILED (fst r) then ret (fst r, None)
  else p <- known (snd r) ;; ret (NOERROR, Some (bool_decide (p <> None))).

(** [for (e = GetFirstEntry(); e != nullptr; e = Successor(e))] up to the first
    entry whose value equals [value]. *)
Definition find_value (value_first : bool) (value : ref) : M ptr :=
  e <- GetFirstEntry ;;
  n <- rounds ;;
  while n (fun e =>
    if decide (e = None) then ret (e, false)
    else v <- get e mValue ;;
         if (if value_first then ValEquals value v else ValEquals v value) then ret (e, false)
         else e' <- Successor e ;; ret (e', true)) e.

Definition ContainsValue (value : ref) : M (ECode * option bool) :=
  e <- find_value true value ;; ret (NOERROR, Some (bool_decide (e <> None))).

Definition Get (key : ref) : M (ECode * option ref) :=
  r <- GetEntry key ;;
  if FAILED (fst r) then ret (fst r, None)
  else p <- known (snd r) ;;
       if decide (p = None) then ret (NOERROR, Some None)
       else v <- get p mValue ;; ret (NOERROR, Some v).

Definition key_of (p : ptr) : M (ECode * option ref) :=
  if decide (p = None) then ret (E_NO_SUCH_ELEMENT_EXCEPTION, None)
  else k <- get p mKey ;; ret (NOERROR, Some k).
Definition FirstKey : M (ECode * option ref) := p <- GetFirstEntry ;; key_of p.
Definition LastKey : M (ECode * option ref) := p <- GetLastEntry ;; key_of p.

(** [TreeMapEntry::SetValue]. *)
Definition SetValue (p : ptr) (value : ref) (out : bool) : M (ECode * option ref) :=
  v <- get p mValue ;; put p (set_value value) ;;; ret (NOERROR, stored out v).

(** [cmp] after a call that may have left it as it was. *)
Definition assigned (r : ECode * option Z) (cmp : option Z) : option Z :=
  match snd r with Some z => Some z | None => cmp end.

Definition Put_empty (key value : ref) (out : bool) : M (ECode * option ref) :=
  cpr <- self mComparator ;;
  let ec := match cpr with
            | Some c => if decide (key = None) then fst (Comparator_Compare c key key) else NOERROR
            | None => match key with
                      | None => E_NULL_POINTER_EXCEPTION
                      | Some o => if is_comparable o then NOERROR else E_CLASS_CAST_EXCEPTION
                      end
            end in
  if FAILED ec then ret (ec, None)
  else e <- new_TreeMapEntry key value None ;;
       set_mRoot e ;;; set_mSize 1 ;;; bump_mModCount ;;; ret (NOERROR, stored out None).

(** The [do] loop: the entry with the key if [t] is not null after it, else the
    parent and the side of a new one. *)
Definition Put_loop (n : nat) (cpr : option Obj) (key : ref) (t : ptr) : M (ptr * ptr * option Z) :=
  while n (fun '(t, _, cmp) =>
    let parent := t in
    tk <- get t mKey ;;
    r <- compare_by cpr key tk ;;
    let cmp := assigned r cmp in
    c <- known cmp ;;
    if c <? 0 then t <- get t mLeft ;; ret (t, parent, cmp, bool_decide (t <> None))
    else if c >? 0 then t <- get t mRight ;; ret (t, parent, cmp, bool_decide (t <> None))
    else ret (t, parent, cmp, false)) (t, None, None).

Definition Put (key value : ref) (out : bool) : M (ECode * option ref) :=
  t <- self mRoot ;;
  if decide (t = None) then Put_empty key value out
  else
    cpr <- self mComparator ;;
    if decide (cpr = None /\ key = None) then ret (E_NULL_POINTER_EXCEPTION, None)
    else
      n <- rounds ;;
      '(t, parent, cmp) <- Put_loop n cpr key t ;;
      if decide (t <> None) then SetValue t value out
      else
        e <- new_TreeMapEntry key value parent ;;
        c <- known cmp ;;
        (if c <? 0 then put parent (set_child L e) else put parent (set_child R e)) ;;;
        FixAfterInsertion n e ;;;
        add_mSize 1 ;;; bump_mModCount ;;;
        ret (NOERROR, stored out None).

Definition Remove (key : ref) (out : bool) : M (ECode * option ref) :=
  r <- GetEntry key ;;
  if FAILED (fst r) then ret (fst r, None)
  else p <- known (snd r) ;;
       if decide (p = None) then ret (NOERROR, stored out None)
       else v <- (if out then v <- get p mValue ;; put p (set_value None) ;;; ret (Some v) else ret None) ;;
            DeleteEntry p ;;;
            ret (NOERROR, v).

Definition Clear : M ECode :=
  bump_mModCount ;;; set_mSize 0 ;;; set_mRoot None ;;; ret NOERROR.

(** *** Entries at the ends and next to a key, exported as pairs *)

Definition ExportEntry (p : ptr) : M (option (ref * ref)) :=
  if decide (p = None) then ret None
  else k <- get p mKey ;; v <- get p mValue ;; ret (Some (k, v)).

Definition FirstEntry : M (ECode * option (option (ref * ref))) :=
  p <- GetFirstEntry ;; e <- ExportEntry p ;; ret (NOERROR, Some e).
Definition LastEntry : M (ECode * option (option (ref * ref))) :=
  p <- GetLastEntry ;; e <- ExportEntry p ;; ret (NOERROR, Some e).

Definition poll (p : ptr) : M (ECode * option (option (ref * ref))) :=
  e <- ExportEntry p ;;
  (if decide (p = None) then ret tt else DeleteEntry p) ;;;
  ret (NOERROR, Some e).
Definition PollFirstEntry : M (ECode * option (option (ref * ref))) := p <- GetFirstEntry ;; poll p.
Definition PollLastEntry : M (ECode * option (option (ref * ref))) := p <- GetLastEntry ;; poll p.

Definition entry_at (find : ref -> M (ECode * option ptr)) (key : ref) : M (ECode * option (option (ref * ref))) :=
  r <- find key ;;
  if FAILED (fst r) then ret (fst r, None)
  else p <- known (snd r) ;; e <- ExportEntry p ;; ret (NOERROR, Some e).
Definition LowerEntry := entry_at GetLowerEntry.
Definition FloorEntry := entry_at GetFloorEntry.
Definition CeilingEntry := entry_at GetCeilingEntry.
Definition HigherEntry := entry_at GetHigherEntry.

Definition key_at (find : ref -> M (ECode * option ptr)) (key : ref) : M (ECode * option ref) :=
  r <- find key ;;
  if FAILED (fst r) then ret (fst r, None)
  else p <- known (snd r) ;;
       if decide (p = None) then ret (NOERROR, Some None)
       else k <- get p mKey ;; ret (NOERROR, Some k).
Definition LowerKey := key_at GetLowerEntry.
Definition FloorKey := key_at GetFloorEntry.
Definition CeilingKey := key_at GetCeilingEntry.
Definition HigherKey := key_at GetHigherEntry.

(** ** Iterators *)

Record PrivateEntryIterator := {
  mNext : ptr;
  mLastReturned : ptr;
  mExpectedModCount : Z
}.

Definition new_iterator (first : ptr) : M PrivateEntryIterator :=
  m <- self mModCount ;; ret {| mNext := first; mLastReturned := None; mExpectedModCount := m |}.

Definition GetKeyIterator : M PrivateEntryIterator := p <- GetFirstEntry ;; new_iterator p.
Definition GetDescendingKeyIterator : M PrivateEntryIterator := p <- GetLastEntry ;; new_iterator p.
(** [EntrySet::GetIterator] and [Values::GetIterator]. *)
Definition GetIterator : M PrivateEntryIterator := p <- GetFirstEntry ;; new_iterator p.

Definition HasNext (it : PrivateEntryIterator) : bool := bool_decide (mNext it <> None).

(** [NextEntry] towards [R], [PrevEntry] towards [L]. *)
Definition StepEntry (s : side) (it : PrivateEntryIterator) : M (ECode * option ptr * PrivateEntryIterator) :=
  if decide (mNext it = None) then ret (E_NO_SUCH_ELEMENT_EXCEPTION, None, it)
  else
    m <- self mModCount ;;
    if decide (m <> mExpectedModCount it) then ret (E_CONCURRENT_MODIFICATION_EXCEPTION, None, it)
    else
      let e := mNext it in
      q <- neighbour s e ;;
      ret (NOERROR, Some e, {| mNext := q; mLastReturned := e; mExpectedModCount := mExpectedModCount it |}).
Definition NextEntry := StepEntry R.
Definition PrevEntry := StepEntry L.

Definition Next_of {X} (step : PrivateEntryIterator -> M (ECode * option ptr * PrivateEntryIterator))
    (object : ptr -> M X) (it : PrivateEntryIterator) : M (ECode * option X * PrivateEntryIterator) :=
  '(ec, e, it) <- step it ;;
  if FAILED ec then ret (ec, None, it)
  else e <- known e ;; x <- object e ;; ret (NOERROR, Some x, it).
Definition EntryIterator_Next := Next_of NextEntry ret.
Definition ValueIterator_Next := Next_of NextEntry (fun e => get e mValue).
Definition KeyIterator_Next := Next_of NextEntry (fun e => get e mKey).
Definition DescendingKeyIterator_Next := Next_of PrevEntry (fun e => get e mKey).

(** [PrivateEntryIterator::Remove]; the descending iterator's own [Remove] has
    no case for an entry with two children. *)
Definition Iterator_Remove (s : side) (it : PrivateEntryIterator) : M (ECode * PrivateEntryIterator) :=
  if decide (mLastReturned it = None) then ret (E_ILLEGAL_STATE_EXCEPTION, it)
  else
    m <- self mModCount ;;
    if decide (m <> mExpectedModCount it) then ret (E_CONCURRENT_MODIFICATION_EXCEPTION, it)
    else
      q <- (if decide (s = R) then
              l <- get (mLastReturned it) mLeft ;; r <- get (mLastReturned it) mRight ;;
              ret (if decide (l <> None /\ r <> None) then mLastReturned it else mNext it)
            else ret (mNext it)) ;;
      DeleteEntry (mLastReturned it) ;;;
      m <- self mModCount ;;
      ret (NOERROR, {| mNext := q; mLastReturned := None; mExpectedModCount := m |}).
Definition PrivateEntryIterator_Remove := Iterator_Remove R.
Definition DescendingKeyIterator_Remove := Iterator_Remove L.

(** ** The views' own operations

    [obj] is what [IMapEntry::Probe] and then [GetKey] and [GetValue] make of the
    argument. *)
Definition Values_Remove (obj : ref) (out : bool) : M (ECode * option bool) :=
  e <- find_value false obj ;;
  if decide (e = None) then ret (NOERROR, stored out false)
  else DeleteEntry e ;;; ret (NOERROR, stored out true).

Definition EntrySet_Contains (obj : option (ref * ref)) : M (ECode * option bool) :=
  match obj with
  | None => ret (NOERROR, Some false)
  | Some (key, value) =>
      r <- GetEntry key ;;
      if FAILED (fst r) then ret (fst r, None)
      else p <- known (snd r) ;;
           if decide (p = None) then ret (NOERROR, Some false)
           else pv <- get p mValue ;; ret (NOERROR, Some (ValEquals pv value))
  end.

(** Without an out parameter there is no return for a missing key, nor at the end. *)
Definition EntrySet_Remove (obj : option (ref * ref)) (out : bool) : M (ECode * option bool) :=
  match obj with
  | None => ret (NOERROR, stored out false)
  | Some (key, value) =>
      r <- GetEntry key ;;
      if FAILED (fst r) then ret (fst r, None)
      else p <- known (snd r) ;;
           if decide (p = None /\ out = true) then ret (NOERROR, Some false)
           else pv <- get p mValue ;;
                if ValEquals pv value then DeleteEntry p ;;; ret (NOERROR, stored out true)
                else if out then ret (NOERROR, Some false) else undefined
  end.

(** ** Building from sorted items

    The iterator delivers entries, or keys when there is a default value. *)
Inductive source :=
  | Entries (l : list (ref * ref))
  | Keys (l : list ref) (defaultVal : Obj).

(** [it->Next] past the end fails and leaves its object null. *)
Definition next_item (src : source) : M (ref * ref * source) :=
  match src with
  | Entries ((k, v) :: l) => ret (k, v, Entries l)
  | Entries [] => undefined
  | Keys (k :: l) d => ret (k, Some d, Keys l d)
  | Keys [] d => ret (None, Some d, Keys [] d)
  end.

Fixpoint BuildFromSorted_range (n : nat) (level lo hi redLevel : Z) (src : source) : M (ptr * source) :=
  match n with
  | O => undefined
  | S n =>
      if hi <? lo then ret (None, src)
      else
        sum <- int (lo + hi) ;;
        let mid := Z.shiftr (wrap_u 32 sum) 1 in
        '(l, src) <- (if lo <? mid then BuildFromSorted_range n (level + 1) lo (mid - 1) redLevel src
                         else ret (None, src)) ;;
        '(key, value, src) <- next_item src ;;
        middle <- new_TreeMapEntry key value None ;;
        (if level =? redLevel then put middle (set_color RED) else ret tt) ;;;
        (if decide (l = None) then ret tt
         else put middle (set_child L l) ;;; put l (set_parent middle)) ;;;
        if mid <? hi then
          '(r, src) <- BuildFromSorted_range n (level + 1) (mid + 1) hi redLevel src ;;
          put middle (set_child R r) ;;; put r (set_parent middle) ;;;
          ret (middle, src)
        else ret (middle, src)
  end.

Fixpoint ComputeRedLevel_loop (n : nat) (m level : Z) : Z :=
  match n with
  | O => level
  | S n => if m >=? 0 then ComputeRedLevel_loop n (Z.quot m 2 - 1) (level + 1) else level
  end.
(** [m] halves in every round, so 32 rounds are enough for an [int]. *)
Definition ComputeRedLevel (sz : Z) : Z := ComputeRedLevel_loop 32 (sz - 1) 0.

Definition BuildFromSorted (size : Z) (src : source) : M ECode :=
  set_mSize size ;;;
  '(root, _) <- BuildFromSorted_range (Z.to_nat size + 1) 0 0 (size - 1) (ComputeRedLevel size) src ;;
  set_mRoot root ;;; ret NOERROR.

(** A map given as an argument: its size, its comparator if it is an
    [ISortedMap], and what its entry set's iterator delivers. *)
Record IMap := {
  map_size : Z;
  ISortedMap_Comparator : option ref;
  map_items : list (ref * ref)
}.

(** [AbstractMap::PutAll]. *)
Fixpoint AbstractMap_PutAll (items : list (ref * ref)) : M ECode :=
  match items with
  | [] => ret NOERROR
  | (k, v) :: items =>
      r <- Put k v false ;; if FAILED (fst r) then ret (fst r) else AbstractMap_PutAll items
  end.

Definition PutAll (map : IMap) : M ECode :=
  n <- self mSize ;; cpr <- self mComparator ;;
  let same := match ISortedMap_Comparator map with
              | Some c => bool_decide (c = cpr) || match c with Some c => Object_Equals c cpr | None => false end
              | None => false
              end in
  if (n =? 0) && negb (map_size map =? 0) && same then
    bump_mModCount ;;; BuildFromSorted (map_size map) (Entries (map_items map))
  else AbstractMap_PutAll (map_items map).

Definition AddAllForTreeSet (size : Z) (keys : list ref) (defaultVal : Obj) : M ECode :=
  BuildFromSorted size (Keys keys defaultVal).

(** ** Constructors and copies *)

Definition new_TreeMap : TreeMap Obj := 
  {| mComparator := None; mRoot := None; mSize := 0; mModCount := 0; mKeySet := None; mValues := None |}.

Definition Constructor_comparator (comparator : ref) : M ECode :=
  update (fun t => {| mComparator := comparator; mRoot := mRoot t; mSize := mSize t; mModCount := mModCount t;
                      mKeySet := mKeySet t; mValues := mValues t |}) ;;;
  ret NOERROR.

Definition Constructor_map (m : IMap) : M ECode := PutAll m.

(** The argument is an [ISortedMap]. *)
Definition Constructor_sorted (m : IMap) : M ECode :=
  Constructor_comparator (default None (ISortedMap_Comparator m)) ;;;
  BuildFromSorted (map_size m) (Entries (map_items m)) ;;;
  ret NOERROR.

(** What an iterator of the entry set delivers, up to its end. *)
Definition items : M (list (ref * ref)) :=
  it <- GetIterator ;;
  n <- rounds ;;
  r <- while n (fun '(it, l) =>
         if HasNext it then
           '(_, e, it) <- EntryIterator_Next it ;;
           e <- known e ;; k <- get e mKey ;; v <- get e mValue ;;
           ret (it, l ++ [(k, v)], true)
         else ret (it, l, false)) (it, []) ;;
  ret (snd r).

(** A call on another map object. *)
Definition on {X} (map : TreeMap Obj) (m : M X) : M (X * TreeMap Obj) :=
  fun w => match m {| this := map; entries := entries w |} with
           | Some (x, w') => Some ((x, this w'), {| this := this w; entries := entries w' |})
           | None => None
           end.

(** [GetValues] of the map object at [me]; the answer is the owner of the view. *)
Definition GetValues (me : positive) : M positive :=
  values <- self mValues ;;
  match values with
  | Some owner => ret owner
  | None =>
    update (fun t => {| mComparator := mComparator t; mRoot := mRoot t; mSize := mSize t; mModCount := mModCount t;
                        mKeySet := mKeySet t; mValues := Some me |}) ;;;
    ret me
  end.

(** [CloneImpl] on a new object [clone], which it returns; the entries are read
    before the new ones are made instead of in between. *)
Definition CloneImpl (clone : TreeMap Obj) : M (ECode * TreeMap Obj) :=
  keySet <- self mKeySet ;;
  values <- self mValues ;;
  let clone :=
    {| mComparator := mComparator clone; mRoot := mRoot clone; mSize := mSize clone; mModCount := mModCount clone;
       mKeySet := keySet; mValues := values |} in
  l <- items ;;
  n <- self mSize ;;
  r <- on clone (BuildFromSorted n (Entries l)) ;;
  ret (NOERROR, snd r).

End TreeMap.

End TreeMap.
