(* ===== verification/TreeShape.v ===== *)
(** * Trees, paths and balance

    What the entries of a tree map form: a tree of addresses, colours, keys and
    values, and the path from a subtree up to the root.  The entries in order from
    a side, the rules of red-black trees, and what they mean for the height. *)
From stdpp Require Import gmap.
From S2P Require Import Prelude.
From S2P Require Import TreeMap.

Module TreeShape.

Import TreeMap.

Lemma flip_flip s : flip (flip s) = s.
Proof. by destruct s. Qed.

Lemma flip_ne s : flip s <> s.
Proof. by destruct s. Qed.

Lemma side_cases s s' : s' = s \/ s' = flip s.
Proof. destruct s, s'; auto. Qed.

Section Shape.
Context {Obj : Type}.
Notation ref := (option Obj).

Inductive tree :=
  | Leaf
  | Node (a : positive) (c : bool) (k v : ref) (l r : tree).

(** The subtree in question is on side [s] of the entry at [a]; [sib] is the other. *)
Inductive frame := Frame (s : side) (a : positive) (c : bool) (k v : ref) (sib : tree).

Definition root (t : tree) : ptr := match t with Leaf => None | Node a _ _ _ _ _ => Some a end.
Definition color (t : tree) : bool := match t with Leaf => BLACK | Node _ c _ _ _ _ => c end.

Definition node (s : side) (a : positive) (c : bool) (k v : ref) (near far : tree) : tree :=
  match s with L => Node a c k v near far | R => Node a c k v far near end.

Definition recolor (c : bool) (t : tree) : tree :=
  match t with Leaf => Leaf | Node a _ k v l r => Node a c k v l r end.

Definition parent_of (cx : list frame) : ptr :=
  match cx with [] => None | Frame _ a _ _ _ _ :: _ => Some a end.

(** The root's address, with [hole] the address of the subtree. *)
Fixpoint root_of (cx : list frame) (hole : ptr) : ptr :=
  match cx with [] => hole | Frame _ a _ _ _ _ :: cx => root_of cx (Some a) end.

Fixpoint plug (cx : list frame) (t : tree) : tree :=
  match cx with [] => t | Frame s a c k v sib :: cx => plug cx (node s a c k v t sib) end.

(** ** The entries in order *)

Definition cell : Type := positive * (ref * ref).

Fixpoint inorder (s : side) (t : tree) : list cell :=
  match t with
  | Leaf => []
  | Node a _ k v l r =>
      match s with
      | L => inorder s l ++ (a, (k, v)) :: inorder s r
      | R => inorder s r ++ (a, (k, v)) :: inorder s l
      end
  end.

(** The entries beyond side [s] of the hole of a path, the nearest first. *)
Fixpoint outer (s : side) (cx : list frame) : list cell :=
  match cx with
  | [] => []
  | Frame f a _ k v sib :: cx =>
      if decide (f = s) then outer s cx else (a, (k, v)) :: inorder (flip s) sib ++ outer s cx
  end.

Lemma root_node s a c k v x y : root (node s a c k v x y) = Some a.
Proof. by destruct s. Qed.

Lemma color_node s a c k v x y : color (node s a c k v x y) = c.
Proof. by destruct s. Qed.

Lemma node_flip s a c k v x y : node (flip s) a c k v x y = node s a c k v y x.
Proof. by destruct s. Qed.

Lemma as_node s a c k v l r : exists x y, Node a c k v l r = node s a c k v x y.
Proof. destruct s; eexists _, _; reflexivity. Qed.

Lemma inorder_near s a c k v x y : inorder s (node s a c k v x y) = inorder s x ++ (a, (k, v)) :: inorder s y.
Proof. by destruct s. Qed.

Lemma inorder_far s a c k v x y :
  inorder (flip s) (node s a c k v x y) = inorder (flip s) y ++ (a, (k, v)) :: inorder (flip s) x.
Proof. by destruct s. Qed.

Lemma inorder_flip s t : inorder (flip s) t = rev (inorder s t).
Proof.
  induction t as [|a c k v l IHl r IHr]; [done|].
  destruct s; cbn in *; rewrite rev_app_distr; cbn; by rewrite IHl, IHr, <-app_assoc.
Qed.

Lemma inorder_plug s cx t : inorder s (plug cx t) = rev (outer s cx) ++ inorder s t ++ outer (flip s) cx.
Proof.
  revert t. induction cx as [|[f a c k v sib] cx IH]; intros t; cbn; [by rewrite app_nil_r|].
  rewrite IH.
  destruct s, f; cbn; repeat case_decide; try done; cbn; rewrite ?rev_app_distr; cbn;
    rewrite ?rev_involutive, <-?app_assoc; cbn; try done.
  - change R with (flip L). by rewrite (inorder_flip L sib), rev_involutive.
  - change L with (flip R). by rewrite (inorder_flip R sib), rev_involutive.
Qed.

(** A change inside that keeps the order keeps the order of the whole. *)
Lemma order_plug s cx t t' : inorder s t = inorder s t' -> inorder L (plug cx t) = inorder L (plug cx t').
Proof.
  intros H. rewrite !(inorder_plug L). f_equal. f_equal.
  destruct s; [done|]. change L with (flip R). by rewrite !(inorder_flip R), H.
Qed.

Lemma plug_app cx1 cx2 t : plug (cx1 ++ cx2) t = plug cx2 (plug cx1 t).
Proof. revert t. induction cx1 as [|[f a c k v sib] cx1 IH]; intros t; cbn; auto. Qed.

Lemma root_plug cx t : root (plug cx t) = root_of cx (root t).
Proof.
  revert t. induction cx as [|[f a c k v sib] cx IH]; intros t; [done|].
  cbn. by rewrite IH, root_node.
Qed.

Lemma outer_near s a c k v (sib : tree) cx : outer s (Frame s a c k v sib :: cx) = outer s cx.
Proof. cbn. by case_decide. Qed.

Lemma outer_far s a c k v (sib : tree) cx :
  outer (flip s) (Frame s a c k v sib :: cx) = (a, (k, v)) :: inorder s sib ++ outer (flip s) cx.
Proof. cbn. rewrite flip_flip. case_decide as E; [|done]. by destruct s. Qed.

Lemma outer_flip s a c k v (sib : tree) cx :
  outer s (Frame (flip s) a c k v sib :: cx) = (a, (k, v)) :: inorder (flip s) sib ++ outer s cx.
Proof. cbn. case_decide as E; [|done]. by destruct s. Qed.

Lemma outer_app s cx1 cx2 : outer s (cx1 ++ cx2) = outer s cx1 ++ outer s cx2.
Proof.
  induction cx1 as [|[f a c k v sib] cx1 IH]; [done|]. cbn. case_decide; [done|]. rewrite IH. cbn. by rewrite <-app_assoc.
Qed.

(** The address of the first of some entries. *)
Definition first (l : list cell) : ptr := match l with [] => None | (a, _) :: _ => Some a end.

Lemma first_app l1 l2 : l1 <> [] -> first (l1 ++ l2) = first l1.
Proof. by destruct l1. Qed.

Lemma inorder_nil s t : inorder s t = [] -> t = Leaf.
Proof. destruct t, s; [done|done| |]; cbn; by destruct (inorder _ _). Qed.

(** An entry of a tree, by its place in the order, is the root of a subtree. *)
Lemma split_tree s t l1 a k v l2 : inorder s t = l1 ++ (a, (k, v)) :: l2 ->
  exists cx c x y, t = plug cx (node s a c k v x y) /\
    l1 = rev (outer s cx) ++ inorder s x /\ l2 = inorder s y ++ outer (flip s) cx.
Proof.
  revert l1 l2. induction t as [|b c k' v' l IHl r IHr]; intros l1 l2 H.
  { destruct s; cbn in H; by destruct l1. }
  destruct (as_node s b c k' v' l r) as (x & y & E). rewrite E, inorder_near in H.
  assert ((forall l1 l2, inorder s x = l1 ++ (a, (k, v)) :: l2 ->
            exists cx c x0 y0, x = plug cx (node s a c k v x0 y0) /\
              l1 = rev (outer s cx) ++ inorder s x0 /\ l2 = inorder s y0 ++ outer (flip s) cx) /\
          (forall l1 l2, inorder s y = l1 ++ (a, (k, v)) :: l2 ->
            exists cx c x0 y0, y = plug cx (node s a c k v x0 y0) /\
              l1 = rev (outer s cx) ++ inorder s x0 /\ l2 = inorder s y0 ++ outer (flip s) cx)) as [IHx IHy].
  { destruct s; injection E as <- <-; auto. }
  rewrite E. clear IHl IHr E. apply app_eq_app in H as (m & [[H1 H2]|[H1 H2]]); destruct m as [|d m].
  - injection H2 as -> -> -> ->. rewrite app_nil_r in H1. exists [], c, x, y. cbn. by rewrite app_nil_r.
  - injection H2 as <- ->. apply IHx in H1 as (cx & c0 & x0 & y0 & -> & -> & ->).
    exists (cx ++ [Frame s b c k' v' y]), c0, x0, y0. rewrite plug_app, !outer_app, outer_near, outer_far, !app_nil_r.
    by rewrite <-!app_assoc.
  - injection H2 as -> -> -> <-. exists [], c, x, y. cbn. rewrite !app_nil_r in *. naive_solver.
  - injection H2 as <- H2. apply IHy in H2 as (cx & c0 & x0 & y0 & -> & -> & ->).
    exists (cx ++ [Frame (flip s) b c k' v' x]), c0, x0, y0.
    rewrite plug_app, !outer_app, outer_near, app_nil_r. cbn [plug]. rewrite node_flip.
    split; [done|]. split; [|done]. subst l1. rewrite outer_flip, app_nil_r, rev_app_distr.
    cbn. by rewrite inorder_flip, rev_involutive, <-!app_assoc.
Qed.

(** ** Balance

    [rb n t]: no red entry has a red child, and [n] black entries are on every
    path down. *)
Fixpoint rb (n : nat) (t : tree) : Prop :=
  match t with
  | Leaf => n = O
  | Node _ c _ _ l r =>
      if c : bool then match n with O => False | S n => rb n l /\ rb n r end
      else (color l = BLACK /\ color r = BLACK) /\ rb n l /\ rb n r
  end.

Definition balanced (t : tree) : Prop := color t = BLACK /\ exists n, rb n t.

(** A path balanced around a hole for a tree of black height [n], of colour [col]
    or black. *)
Fixpoint accepts (col : bool) (n : nat) (cx : list frame) : Prop :=
  match cx with
  | [] => col = BLACK
  | Frame _ _ c _ _ sib :: cx =>
      if c : bool then rb n sib /\ accepts BLACK (S n) cx
      else col = BLACK /\ color sib = BLACK /\ rb n sib /\ accepts RED n cx
  end.

Lemma rb_red n s a k v x y :
  rb n (node s a RED k v x y) <-> (color x = BLACK /\ color y = BLACK) /\ rb n x /\ rb n y.
Proof. destruct s; cbn; tauto. Qed.

Lemma rb_black n s a k v x y : rb (S n) (node s a BLACK k v x y) <-> rb n x /\ rb n y.
Proof. destruct s; cbn; tauto. Qed.

Lemma rb_zero_black t : rb O t -> color t = BLACK -> t = Leaf.
Proof. destruct t as [|a [] k v l r]; cbn; [done|done|discriminate]. Qed.

Lemma rb_sibling n t : rb (S n) t -> color t = BLACK ->
  forall s, exists a k v x y, t = node s a BLACK k v x y /\ rb n x /\ rb n y.
Proof.
  destruct t as [|a [] k v l r]; cbn; [done| |discriminate].
  intros H _ s. destruct (as_node s a true k v l r) as (x & y & E).
  eexists _, _, _, _, _. split; [exact E|]. destruct s; injection E as -> ->; tauto.
Qed.

Lemma rb_red_sibling n t : rb n t -> color t = RED ->
  forall s, exists a k v x y, t = node s a RED k v x y /\ (color x = BLACK /\ color y = BLACK) /\ rb n x /\ rb n y.
Proof.
  destruct t as [|a [] k v l r]; cbn; [discriminate|discriminate|].
  intros H _ s. destruct (as_node s a false k v l r) as (x & y & E).
  eexists _, _, _, _, _. split; [exact E|]. destruct s; injection E as -> ->; tauto.
Qed.

Lemma accepts_black n cx col : accepts col n cx -> accepts BLACK n cx.
Proof. destruct cx as [|[s a [] k v sib] cx]; cbn; [done|done|]. tauto. Qed.

Lemma accepts_red n cx : accepts RED n cx ->
  exists s a k v sib cx', cx = Frame s a BLACK k v sib :: cx' /\ rb n sib /\ accepts BLACK (S n) cx'.
Proof.
  destruct cx as [|[s a [] k v sib] cx]; cbn; [discriminate| |intros [H _]; discriminate].
  intros [H1 H2]. by eexists _, _, _, _, _, _.
Qed.

Lemma plug_balanced n cx t : accepts (color t) n cx -> rb n t -> balanced (plug cx t).
Proof.
  revert n t. induction cx as [|[s a c k v sib] cx IH]; intros n t Hc Ht; cbn in *; [split; eauto|].
  destruct c.
  - destruct Hc as [Hs Hc]. apply (IH (S n)); [by rewrite color_node|]. by apply rb_black.
  - destruct Hc as (Hcol & Hcs & Hs & Hc). apply (IH n); [by rewrite color_node|]. by apply rb_red.
Qed.

Lemma recolor_balanced n t : rb n t -> balanced (recolor BLACK t).
Proof.
  destruct t as [|a [] k v l r]; cbn; intros H; split; try done; [by exists n..|].
  exists (S n). cbn. tauto.
Qed.

Lemma inorder_recolor s c t : inorder s (recolor c t) = inorder s t.
Proof. by destruct t. Qed.

Lemma root_recolor c t : root (recolor c t) = root t.
Proof. by destruct t. Qed.

Definition parent_black (cx : list frame) : Prop :=
  match cx with [] => True | Frame _ _ c _ _ _ :: _ => c = BLACK end.

Lemma accepts_root col n cx t : accepts col n cx -> cx <> [] -> color (plug cx t) = BLACK.
Proof.
  revert col n t. induction cx as [|[s a c k v sib] cx IH]; intros col n t; [done|]. cbn. intros H _.
  destruct cx as [|fr cx].
  - destruct c; cbn in *; [apply color_node|naive_solver].
  - destruct c; [eapply IH; [apply H|done]|eapply IH; [apply H|done]].
Qed.

Lemma outer_frame s' s a c c' k v sib sib' cx cx' :
  (forall s, inorder s sib = inorder s sib') -> outer s' cx = outer s' cx' ->
  outer s' (Frame s a c k v sib :: cx) = outer s' (Frame s a c' k v sib' :: cx').
Proof. intros H1 H2. cbn. case_decide; [done|]. by rewrite H1, H2. Qed.

Lemma plug_rb n cx t : accepts BLACK n cx -> parent_black cx -> rb n t -> exists m, rb m (plug cx t).
Proof.
  destruct cx as [|[s a c k v sib] cx]; cbn; [eauto|]. intros Hc -> Ht. destruct Hc as [Hs Hc].
  destruct (plug_balanced (S n) cx (node s a BLACK k v t sib)) as [_ ?]; [by rewrite color_node|by apply rb_black|done].
Qed.

Lemma accepts_plug t cx : balanced (plug cx t) -> exists n, accepts (color t) n cx /\ rb n t.
Proof.
  revert t. induction cx as [|[s a c k v sib] cx IH]; intros t; cbn.
  - intros [Hc [n Hn]]. by exists n.
  - intros (n & Hc & Hn)%IH. rewrite color_node in Hc. destruct c.
    + destruct n as [|n]; [destruct s; cbn in Hn; tauto|]. apply rb_black in Hn as [H1 H2]. by exists n.
    + apply rb_red in Hn as [[H1 H2] [H3 H4]]. exists n. tauto.
Qed.

(** ** Height and size *)

Fixpoint height (t : tree) : nat :=
  match t with Leaf => O | Node _ _ _ _ l r => S (height l `max` height r) end.

Definition size (t : tree) : nat := length (inorder L t).

Lemma size_inorder s t : length (inorder s t) = size t.
Proof. destruct s; [done|]. change R with (flip L). rewrite inorder_flip. apply length_rev. Qed.

Lemma size_Node a c k v l r : size (Node a c k v l r) = S (size l + size r).
Proof. unfold size. cbn. rewrite length_app. cbn. lia. Qed.

Lemma size_plug cx t : size (plug cx t) = (length (outer L cx) + size t + length (outer R cx))%nat.
Proof. unfold size. rewrite (inorder_plug L), !length_app, length_rev. cbn [flip]. lia. Qed.

Lemma length_outer cx : (length cx <= length (outer L cx) + length (outer R cx))%nat.
Proof.
  induction cx as [|[s a c k v sib] cx IH]; cbn; [lia|].
  destruct s; repeat case_decide; try done; cbn; rewrite length_app; lia.
Qed.

Lemma height_size t : (height t <= size t)%nat.
Proof. induction t; [done|]. rewrite size_Node. cbn. lia. Qed.

Lemma rb_size n t : rb n t -> (2 ^ n <= S (size t))%nat.
Proof.
  revert n. induction t as [|a [] k v l IHl r IHr]; intros n; cbn [rb].
  - by intros ->.
  - destruct n as [|n]; [done|]. intros [Hl%IHl Hr%IHr]. rewrite size_Node. cbn. lia.
  - intros (_ & Hl%IHl & Hr%IHr). rewrite size_Node. lia.
Qed.

Lemma rb_height n t : rb n t -> (height t <= 2 * n + if color t then 0 else 1)%nat.
Proof.
  revert n. induction t as [|a [] k v l IHl r IHr]; intros n; cbn [rb height color].
  - lia.
  - destruct n as [|n]; [done|]. intros [Hl%IHl Hr%IHr]. destruct (color l), (color r); lia.
  - intros ([Cl Cr] & Hl%IHl & Hr%IHr). rewrite Cl in Hl. rewrite Cr in Hr. unfold BLACK in *. lia.
Qed.

Lemma balanced_height t : balanced t -> (2 ^ height t <= S (size t) ^ 2)%nat.
Proof.
  intros [Hc [n Hn]]. pose proof (rb_height n t Hn) as Hh. rewrite Hc in Hh. cbn in Hh.
  pose proof (rb_size n t Hn) as Hs.
  transitivity (2 ^ (n + n))%nat; [apply Nat.pow_le_mono_r; lia|].
  rewrite Nat.pow_add_r. cbn [Nat.pow]. rewrite Nat.mul_1_r. by apply Nat.mul_le_mono.
Qed.

End Shape.

(** The same for the entries around the holes of two paths on side [s]. *)
Ltac outer_order s :=
  repeat match goal with cx := _ : list frame |- _ => subst cx end;
  match goal with |- forall s', _ => let s' := fresh in intros s'; destruct (side_cases s s') as [->| ->] end;
  rewrite ?outer_near, ?outer_far, ?inorder_near, ?inorder_recolor; rewrite <-?app_assoc; cbn;
  rewrite <-?app_assoc; auto.

(** Equality of the entries of two trees of [node]s, from the side they share. *)
Ltac in_order := rewrite ?node_flip, ?inorder_near, <-?app_assoc; cbn; rewrite <-?app_assoc; done.

End TreeShape.
