(* ===== verification/TreeMapLogic.v ===== *)
(** * A separation logic for the tree map

    [twp m Φ f]: from a map object with fields [f], and whatever entries exist,
    [m] is defined and its result and the fields it leaves satisfy [Φ], an
    assertion that owns entries ([a ↦ e]).  Reading and writing an owned entry are
    proof-mode steps that find the entry in the context. *)
From stdpp Require Import gmap.
From iris.proofmode Require Import coq_tactics reduction proofmode.
From iris.base_logic.lib Require Import ghost_map.
From S2P Require Import Prelude.
From S2P Require Import ECode.
From S2P Require Import TreeMap.
From S2P Require Import TreeShape.

Module TreeMapLogic.

Import TreeMap TreeShape.

Section Logic.
Context {Obj : Type} `{!EqDecision Obj} `{!Objects Obj}.
Context `{!ghost_mapG Σ positive (TreeMapEntry Obj)} (γ : gname).
Notation ref := (option Obj).
Notation M := (SE (world Obj)).
Notation T := (TreeMap Obj).
Implicit Types (a : positive) (e : TreeMapEntry Obj) (f : T) (h : gmap positive (TreeMapEntry Obj)).

Definition cell_at a e : iProp Σ := ghost_map_elem γ a (DfracOwn 1) e.
Notation "a ↦ e" := (cell_at a e) (at level 20) : bi_scope.

Definition twp {X} (m : M X) (Φ : X -> T -> iProp Σ) (f : T) : iProp Σ :=
  ∀ h, ghost_map_auth γ 1 h ==∗
    ∃ x f' h', ⌜m {| this := f; entries := h |} = Some (x, {| this := f'; entries := h' |})⌝ ∗
               ghost_map_auth γ 1 h' ∗ Φ x f'.

Lemma twp_ret {X} (x : X) Φ f : Φ x f -∗ twp (ret x) Φ f.
Proof. iIntros "H" (h) "Hh". iModIntro. iExists x, f, h. by iFrame. Qed.

Lemma twp_bind {X Y} (m : M X) (k : X -> M Y) Φ f :
  twp m (fun x => twp (k x) Φ) f -∗ twp (bind m k) Φ f.
Proof.
  iIntros "H" (h) "Hh". iMod ("H" with "Hh") as (x f' h' E) "[Hh Hk]".
  iMod ("Hk" with "Hh") as (y f'' h'' E') "[Hh HΦ]". iModIntro. iExists y, f'', h''. iFrame.
  iPureIntro. by rewrite (bind_Some _ _ _ _ _ E).
Qed.

Lemma twp_wand {X} (m : M X) Φ Ψ f : twp m Φ f -∗ (∀ x f', Φ x f' -∗ Ψ x f') -∗ twp m Ψ f.
Proof.
  iIntros "H HΨ" (h) "Hh". iMod ("H" with "Hh") as (x f' h' E) "[Hh HΦ]". iModIntro.
  iExists x, f', h'. iFrame. iSplit; [done|]. by iApply "HΨ".
Qed.

Lemma twp_bupd {X} (m : M X) Φ f : (|==> twp m Φ f) -∗ twp m Φ f.
Proof. iIntros "H" (h) "Hh". iMod "H". by iApply "H". Qed.

Lemma twp_self {X} (g : T -> X) Φ f : Φ (g f) f -∗ twp (self g) Φ f.
Proof. iIntros "H" (h) "Hh". iModIntro. iExists (g f), f, h. by iFrame. Qed.

Lemma twp_update (g : T -> T) Φ f : Φ tt (g f) -∗ twp (update g) Φ f.
Proof. iIntros "H" (h) "Hh". iModIntro. iExists tt, (g f), h. by iFrame. Qed.

Lemma twp_int z (Φ : Z -> T -> iProp Σ) f : -2147483648 <= z < 2147483648 -> Φ z f -∗ twp (int z) Φ f.
Proof.
  iIntros (Hz) "H". unfold int. rewrite (proj2 (fits_sb_spec _ _)); [by iApply twp_ret|exact Hz].
Qed.

Lemma twp_get {X} a e (g : TreeMapEntry Obj -> X) Φ f :
  a ↦ e -∗ (a ↦ e -∗ Φ (g e) f) -∗ twp (get (Some a) g) Φ f.
Proof.
  iIntros "Ha H" (h) "Hh". iDestruct (ghost_map_lookup with "Hh Ha") as %E. iModIntro.
  iExists (g e), f, h. iFrame. iSplit; [iPureIntro; cbn; by rewrite E|]. by iApply "H".
Qed.

Lemma twp_put a e g (Φ : unit -> T -> iProp Σ) f :
  a ↦ e -∗ (a ↦ g e -∗ Φ tt f) -∗ twp (put (Some a) g) Φ f.
Proof.
  iIntros "Ha H" (h) "Hh". iDestruct (ghost_map_lookup with "Hh Ha") as %E.
  iMod (ghost_map_update (g e) with "Hh Ha") as "[Hh Ha]". iModIntro.
  iExists tt, f, _. iFrame. iSplit; [iPureIntro; cbn; by rewrite E|]. by iApply "H".
Qed.

Lemma twp_new key value parent (Φ : ptr -> T -> iProp Σ) f :
  (∀ a, a ↦ new_entry key value parent -∗ Φ (Some a) f) -∗ twp (new_TreeMapEntry key value parent) Φ f.
Proof.
  iIntros "H" (h) "Hh". set (a := fresh (dom h)).
  iMod (ghost_map_insert a (new_entry key value parent) with "Hh") as "[Hh Ha]".
  { apply not_elem_of_dom, is_fresh. }
  iModIntro. iExists (Some a), f, _. iFrame. iSplit; [done|]. by iApply "H".
Qed.

Lemma cell_ne a b e e' : a ↦ e -∗ b ↦ e' -∗ ⌜a <> b⌝.
Proof. apply ghost_map_elem_ne. Qed.

Lemma twp_on {X} g (m : M X) (Φ : X * T -> T -> iProp Σ) f : twp m (fun x g' => Φ (x, g') f) g -∗ twp (on g m) Φ f.
Proof.
  iIntros "H" (h) "Hh". iMod ("H" with "Hh") as (x g' h' E) "[Hh HΦ]". iModIntro.
  iExists (x, g'), f, h'. iFrame. iPureIntro. unfold on. cbn [entries]. by rewrite E.
Qed.

(** Reading and writing with the entry looked up in the proof context. *)
Lemma tac_twp_get {X} Δ i a e (g : TreeMapEntry Obj -> X) Φ f :
  envs_lookup i Δ = Some (false, a ↦ e)%I ->
  envs_entails Δ (Φ (g e) f) -> envs_entails Δ (twp (get (Some a) g) Φ f).
Proof.
  rewrite envs_entails_unseal. intros Hi HΦ. rewrite envs_lookup_split //=.
  iIntros "[Ha Hw]". iApply (twp_get with "Ha"). iIntros "Ha". iApply HΦ. by iApply "Hw".
Qed.

Lemma tac_twp_put Δ Δ' i a e g (Φ : unit -> T -> iProp Σ) f :
  envs_lookup i Δ = Some (false, a ↦ e)%I ->
  envs_simple_replace i false (Esnoc Enil i (a ↦ g e)%I) Δ = Some Δ' ->
  envs_entails Δ' (Φ tt f) -> envs_entails Δ (twp (put (Some a) g) Φ f).
Proof.
  rewrite envs_entails_unseal. intros Hi Hr HΦ. rewrite envs_simple_replace_sound //=.
  iIntros "[Ha Hw]". iApply (twp_put with "Ha"). iIntros "Ha". iApply HΦ. iApply "Hw". by iFrame.
Qed.

(** ** Loops *)

Lemma twp_while_step {X} n (body : X -> M (X * bool)) x Φ f :
  twp (body x) (fun r f' => if snd r then twp (while n body (fst r)) Φ f' else Φ (fst r) f') f -∗
  twp (while (S n) body x) Φ f.
Proof.
  iIntros "H". cbn [while]. iApply twp_bind. iApply (twp_wand with "H").
  iIntros ([y b] f') "H". destruct b; [done|]. by iApply twp_ret.
Qed.

End Logic.

(** ** Entries by their sides *)

Section Entries.
Context {Obj : Type}.

Definition mk (s : side) (k v : option Obj) (near far parent : ptr) (c : bool) : TreeMapEntry Obj :=
  match s with
  | L => {| mKey := k; mValue := v; mLeft := near; mRight := far; mParent := parent; mColor := c |}
  | R => {| mKey := k; mValue := v; mLeft := far; mRight := near; mParent := parent; mColor := c |}
  end.

#[global] Arguments mk : simpl never.

Context (s : side) (k v : option Obj) (n r p : ptr) (c : bool).

Lemma mk_flip : mk (flip s) k v n r p c = mk s k v r n p c.
Proof. by destruct s. Qed.
Lemma child_near : child s (mk s k v n r p c) = n.
Proof. by destruct s. Qed.
Lemma child_far : child (flip s) (mk s k v n r p c) = r.
Proof. by destruct s. Qed.
Lemma mKey_mk : mKey (mk s k v n r p c) = k.
Proof. by destruct s. Qed.
Lemma mValue_mk : mValue (mk s k v n r p c) = v.
Proof. by destruct s. Qed.
Lemma mParent_mk : mParent (mk s k v n r p c) = p.
Proof. by destruct s. Qed.
Lemma mColor_mk : mColor (mk s k v n r p c) = c.
Proof. by destruct s. Qed.
Lemma set_near q : set_child s q (mk s k v n r p c) = mk s k v q r p c.
Proof. by destruct s. Qed.
Lemma set_far q : set_child (flip s) q (mk s k v n r p c) = mk s k v n q p c.
Proof. by destruct s. Qed.
Lemma set_parent_mk q : set_parent q (mk s k v n r p c) = mk s k v n r q c.
Proof. by destruct s. Qed.
Lemma set_color_mk c' : set_color c' (mk s k v n r p c) = mk s k v n r p c'.
Proof. by destruct s. Qed.
Lemma set_key_mk k' : set_key k' (mk s k v n r p c) = mk s k' v n r p c.
Proof. by destruct s. Qed.
Lemma set_value_mk v' : set_value v' (mk s k v n r p c) = mk s k v' n r p c.
Proof. by destruct s. Qed.

(** On a known side. *)
Lemma mLeft_mk : mLeft (mk s k v n r p c) = match s with L => n | R => r end.
Proof. by destruct s. Qed.
Lemma mRight_mk : mRight (mk s k v n r p c) = match s with L => r | R => n end.
Proof. by destruct s. Qed.
Lemma child_L_R : child L (mk R k v n r p c) = r.
Proof. done. Qed.
Lemma child_R_L : child R (mk L k v n r p c) = r.
Proof. done. Qed.
Lemma set_L_R q : set_child L q (mk R k v n r p c) = mk R k v n q p c.
Proof. done. Qed.
Lemma set_R_L q : set_child R q (mk L k v n r p c) = mk L k v n q p c.
Proof. done. Qed.

End Entries.

(** ** Trees and paths in memory *)

Section Shapes.
Context {Obj : Type} `{!ghost_mapG Σ positive (TreeMapEntry Obj)} (γ : gname).
Notation "a ↦ e" := (cell_at γ a e) (at level 20) : bi_scope.

Fixpoint tree_at (parent : ptr) (t : @tree Obj) : iProp Σ :=
  match t with
  | Leaf => emp
  | Node a c k v l r =>
      a ↦ mk L k v (root l) (root r) parent c ∗ tree_at (Some a) l ∗ tree_at (Some a) r
  end.

Fixpoint ctx_at (hole : ptr) (cx : list (@frame Obj)) : iProp Σ :=
  match cx with
  | [] => emp
  | Frame s a c k v sib :: cx =>
      a ↦ mk s k v hole (root sib) (parent_of cx) c ∗ tree_at (Some a) sib ∗ ctx_at (Some a) cx
  end.

Lemma tree_at_node s parent a c k v x y :
  tree_at parent (node s a c k v x y) ⊣⊢
  a ↦ mk s k v (root x) (root y) parent c ∗ tree_at (Some a) x ∗ tree_at (Some a) y.
Proof.
  destruct s; cbn; [done|]. apply bi.sep_proper; [done|]. by rewrite (comm bi_sep).
Qed.

Lemma tree_plug cx t : tree_at None (plug cx t) ⊣⊢ ctx_at (root t) cx ∗ tree_at (parent_of cx) t.
Proof.
  revert t. induction cx as [|[s a c k v sib] cx IH]; intros t; cbn [plug ctx_at parent_of].
  - by rewrite left_id.
  - rewrite IH root_node tree_at_node. iSplit; iIntros "H"; [iDestruct "H" as "($ & $ & $ & $)"|iDestruct "H" as "[($ & $ & $) $]"].
Qed.

(** Addresses of different entries differ. *)
Lemma tree_ne a e parent t : a ↦ e -∗ tree_at parent t -∗ ⌜root t <> Some a⌝.
Proof.
  destruct t as [|b c k v l r]; cbn; iIntros "Ha H"; [done|].
  iDestruct "H" as "[Hb _]". iDestruct (cell_ne with "Ha Hb") as %?. iPureIntro. congruence.
Qed.

Lemma ctx_parent_ne a e hole cx : a ↦ e -∗ ctx_at hole cx -∗ ⌜parent_of cx <> Some a⌝.
Proof.
  destruct cx as [|[s b c k v sib] cx]; cbn; iIntros "Ha H"; [done|].
  iDestruct "H" as "[Hb _]". iDestruct (cell_ne with "Ha Hb") as %?. iPureIntro. congruence.
Qed.

Lemma ctx_root_ne a e b cx : a ↦ e -∗ ctx_at (Some b) cx -∗ ⌜a <> b⌝ -∗ ⌜root_of cx (Some b) <> Some a⌝.
Proof.
  iIntros "Ha H". iInduction cx as [|[s d c k v sib] cx] "IH" forall (b); cbn; iIntros (Hne).
  - iPureIntro. congruence.
  - iDestruct "H" as "(Hb & _ & H)". iDestruct (cell_ne with "Ha Hb") as %?. by iApply ("IH" with "Ha H").
Qed.

End Shapes.

(** The balancing functions' accessors of a pointer that is not null. *)
Section Accessors.
Context {Obj : Type}.

Lemma ParentOf_Some a : ParentOf (Obj := Obj) (Some a) = get (Some a) mParent.
Proof. done. Qed.
Lemma child_of_Some s a : child_of (Obj := Obj) s (Some a) = get (Some a) (child s).
Proof. done. Qed.
Lemma ColorOf_Some a : ColorOf (Obj := Obj) (Some a) = get (Some a) mColor.
Proof. done. Qed.
Lemma SetColor_Some a c : SetColor (Obj := Obj) (Some a) c = put (Some a) (set_color c).
Proof. done. Qed.

End Accessors.

(** ** Symbolic execution

    [tstep] takes one step; conditions on pointers are decided from the context. *)
Ltac fields :=
  cbn beta; cbn [parent_of];
  rewrite ?child_near ?child_far ?mKey_mk ?mValue_mk ?mParent_mk ?mColor_mk ?set_near ?set_far ?set_parent_mk
    ?set_color_mk ?set_key_mk ?set_value_mk ?mLeft_mk ?mRight_mk ?child_L_R ?child_R_L ?set_L_R ?set_R_L.

Ltac change_to m Q f :=
  match goal with |- envs_entails ?D (twp ?g _ _ _) => change (envs_entails D (twp g m Q f)) end.

Ltac tstep :=
  lazymatch goal with
  | |- envs_entails _ (twp _ (bind _ _) _ _) => iApply twp_bind
  | |- envs_entails _ (twp _ (ret _) _ _) => iApply twp_ret; cbn beta
  | |- envs_entails _ (twp _ (self _) _ _) => iApply twp_self; cbn beta
  | |- envs_entails _ (twp _ (set_mRoot _) _ _) => unfold set_mRoot at 1
  | |- envs_entails _ (twp _ (update _) _ _) => iApply twp_update; cbn beta
  | |- envs_entails _ (twp _ (get (Some _) _) _ _) => eapply tac_twp_get; [iAssumptionCore|fields]
  | |- envs_entails _ (twp _ (put (Some _) _) _ _) =>
      eapply tac_twp_put; [iAssumptionCore|reduction.pm_reflexivity|fields]
  | |- envs_entails _ (twp _ (if @decide ?P ?D then ?A else ?B) _ _) =>
      let H := fresh in
      first [ assert P as H by first [done|congruence|auto]; rewrite (@decide_True _ P D A B H)
            | assert (not P) as H by first [done|congruence|naive_solver]; rewrite (@decide_False _ P D A B H) ];
      clear H
  | |- envs_entails _ (twp _ (if ?b then ?A else ?B) ?Q ?f) =>
      let r := eval cbv in b in
      lazymatch r with true => change_to A Q f | false => change_to B Q f end
  | |- envs_entails _ (twp _ (LeftOf _) _ _) => unfold LeftOf at 1
  | |- envs_entails _ (twp _ (RightOf _) _ _) => unfold RightOf at 1
  | |- envs_entails _ (twp _ (ParentOf (Some ?a)) _ _) => rewrite !(ParentOf_Some a)
  | |- envs_entails _ (twp _ (child_of ?s (Some ?a)) _ _) => rewrite !(child_of_Some s a)
  | |- envs_entails _ (twp _ (ColorOf (Some ?a)) _ _) => rewrite !(ColorOf_Some a)
  | |- envs_entails _ (twp _ (SetColor (Some ?a) ?c) _ _) => rewrite !(SetColor_Some a c)
  | |- envs_entails _ (twp _ (let x := ?e in @?k x) ?Q ?f) => let k' := eval cbv beta in (k e) in change_to k' Q f
  end.
Ltac tsteps := repeat tstep.

End TreeMapLogic.
