(* ===== verification/TreeMapBalance.v ===== *)
(** * Keeping the tree balanced

    Rotations, and what is mended after an insertion and after a deletion. *)
From stdpp Require Import gmap.
From iris.proofmode Require Import proofmode.
From iris.base_logic.lib Require Import ghost_map.
From S2P Require Import Prelude.
From S2P Require Import ECode.
From S2P Require Import TreeMap.
From S2P Require Import TreeShape.
From S2P Require Import TreeMapLogic.

(** ** Rotations

    What [rotate] does to a tree in its place, and the queries of the balancing
    functions on entries in a path. *)

Module TreeMapRotate.

Import TreeMap TreeShape TreeMapLogic.

Section Rotate.
Context {Obj : Type} `{!EqDecision Obj} `{!Objects Obj}.
Context `{!ghost_mapG Σ positive (TreeMapEntry Obj)} (γ : gname).
Notation M := (SE (world Obj)).
Notation T := (TreeMap Obj).
Notation "a ↦ e" := (cell_at γ a e) (at level 20) : bi_scope.
Notation twp := (twp γ).
Notation tree_at := (tree_at γ).
Notation ctx_at := (ctx_at γ).
Implicit Types (f : T) (cx : list (@frame Obj)) (t x y z : @tree Obj).

Definition with_root (q : ptr) (f : T) : T :=
  {| mComparator := mComparator f; mRoot := q; mSize := mSize f; mModCount := mModCount f; mKeySet := mKeySet f; mValues := mValues f |}.

Lemma with_root_id f : with_root (mRoot f) f = f.
Proof. by destruct f. Qed.

Lemma reparent_spec q b t f (Φ : unit -> T -> iProp Σ) :
  tree_at b t -∗ (tree_at q t -∗ Φ tt f) -∗
  twp (if decide (root t = None) then ret tt else put (root t) (set_parent q)) Φ f.
Proof.
  iIntros "Ht H". destruct t as [|a c k v l r]; cbn [root].
  - tsteps. iApply ("H" with "Ht").
  - iDestruct "Ht" as "(Ha & Hl & Hr)". tsteps. iApply "H". iFrame.
Qed.

(** [if (g == nullptr) mRoot = r; else if (g->mLeft == p) g->mLeft = r; else
    g->mRight = r;] *)
Lemma relink_spec s cx p r f e (Φ : unit -> T -> iProp Σ) :
  mRoot f = root_of cx (Some p) ->
  p ↦ e -∗ ctx_at (Some p) cx -∗
  (p ↦ e -∗ ctx_at r cx -∗ Φ tt (with_root (root_of cx r) f)) -∗
  twp (if decide (parent_of cx = None) then set_mRoot r
       else gl <- get (parent_of cx) (child s) ;;
            if decide (gl = Some p) then put (parent_of cx) (set_child s r)
            else put (parent_of cx) (set_child (flip s) r)) Φ f.
Proof.
  iIntros (Hroot) "Hp Hcx H". destruct cx as [|[s' g c k v sib] cx]; cbn [parent_of].
  - unfold set_mRoot. tsteps. iApply ("H" with "Hp Hcx").
  - iDestruct "Hcx" as "(Hg & Hs & Hcx)". iDestruct (tree_ne with "Hp Hs") as %Hne.
    cbn in Hroot. rewrite -{2}(with_root_id f) Hroot.
    destruct (side_cases s s') as [->| ->]; rewrite ?mk_flip; tsteps;
      iApply ("H" with "Hp"); cbn; rewrite ?mk_flip; iFrame.
Qed.

Lemma rotate_spec s cx p c k v x r c2 k2 v2 y z f (Φ : unit -> T -> iProp Σ) :
  mRoot f = root_of cx (Some p) ->
  ctx_at (Some p) cx -∗ tree_at (parent_of cx) (node s p c k v x (node s r c2 k2 v2 y z)) -∗
  (ctx_at (Some r) cx -∗ tree_at (parent_of cx) (node s r c2 k2 v2 (node s p c k v x y) z) -∗
   Φ tt (with_root (root_of cx (Some r)) f)) -∗
  twp (rotate s (Some p)) Φ f.
Proof.
  iIntros (Hroot) "Hcx Ht H". rewrite !tree_at_node root_node.
  iDestruct "Ht" as "(Hp & Hx & Hr & Hy & Hz)". unfold rotate.
  tsteps. iApply (reparent_spec (Some p) with "Hy"). iIntros "Hy". tsteps.
  iApply (relink_spec s with "Hp Hcx"); [done|]. iIntros "Hp Hcx". tsteps.
  iApply ("H" with "Hcx"). rewrite !root_node. iFrame.
Qed.

End Rotate.

End TreeMapRotate.

(** ** Rebalancing after an insertion

    [FixAfterInsertion] makes a balanced tree of one whose only fault is a red
    entry [x] that may have a red parent, and keeps the order of the entries. *)

Module TreeMapInsert.

Import TreeMap TreeShape TreeMapLogic TreeMapRotate.

Section Insert.
Context {Obj : Type} `{!EqDecision Obj} `{!Objects Obj}.
Context `{!ghost_mapG Σ positive (TreeMapEntry Obj)} (γ : gname).
Notation M := (SE (world Obj)).
Notation T := (TreeMap Obj).
Notation "a ↦ e" := (cell_at γ a e) (at level 20) : bi_scope.
Notation twp := (twp γ).
Notation tree_at := (tree_at γ).
Notation ctx_at := (ctx_at γ).
Implicit Types (f : T) (cx : list (@frame Obj)) (t y z : @tree Obj).

(** An uncle is red: the parent and it turn black, the grandparent red. *)
Lemma insertion_uncle s s1 g kg vg p kp vp sib ya ky vy yl yr cx x f (Φ : ptr -> T -> iProp Σ) t :
  root t = Some x ->
  ctx_at (Some x) (Frame s1 p RED kp vp sib :: Frame s g BLACK kg vg (Node ya RED ky vy yl yr) :: cx) -∗
  tree_at (Some p) t -∗
  (ctx_at (Some g) cx -∗
   tree_at (parent_of cx) (node s g RED kg vg (node s1 p BLACK kp vp t sib) (Node ya BLACK ky vy yl yr)) -∗
   Φ (Some g) f) -∗
  twp (FixAfterInsertion_side s (Some x)) Φ f.
Proof.
  iIntros (Hx) "Hcx Ht H". destruct t as [|x' cc k v l r]; [done|]. injection Hx as ->.
  cbn. iDestruct "Hcx" as "(Hp & Hsib & Hg & (Hy & Hyl & Hyr) & Hcx)". iDestruct "Ht" as "(Hx & Hl & Hr)".
  unfold FixAfterInsertion_side. tsteps.
  iApply ("H" with "Hcx"). rewrite !tree_at_node !root_node. cbn. iFrame.
Qed.

Lemma ColorOf_spec q t f (Φ : bool -> T -> iProp Σ) :
  tree_at q t -∗ (tree_at q t -∗ Φ (color t) f) -∗ twp (ColorOf (root t)) Φ f.
Proof.
  iIntros "Ht H". unfold ColorOf. destruct t as [|a c k v l r]; cbn [root].
  - tsteps. iApply ("H" with "Ht").
  - iDestruct "Ht" as "(Ha & Hl & Hr)". tsteps. iApply "H". iFrame.
Qed.

(** The rotation of the second case: the parent [p] rises above the grandparent. *)
Lemma rotate_up s g kg vg cg p kp vp cp sib y cx t f (Φ : unit -> T -> iProp Σ) :
  mRoot f = root_of cx (Some g) ->
  ctx_at (root t) (Frame s p cp kp vp sib :: Frame s g cg kg vg y :: cx) -∗ tree_at (Some p) t -∗
  (ctx_at (root t) (Frame s p cp kp vp (node s g cg kg vg sib y) :: cx) -∗ tree_at (Some p) t -∗
   Φ tt (with_root (root_of cx (Some p)) f)) -∗
  twp (rotate (flip s) (Some g)) Φ f.
Proof.
  iIntros (Hroot) "(Hp & Hsib & Hg & Hy & Hcx) Ht H". cbn [parent_of ctx_at].
  iApply (rotate_spec _ (flip s) cx g cg kg vg y p cp kp vp sib t with "Hcx [-H]"); [done| |].
  { rewrite !tree_at_node !mk_flip !root_node. iFrame. }
  iIntros "Hcx Ht". rewrite !node_flip !tree_at_node !root_node.
  iDestruct "Ht" as "(Hp & Ht & Hg)". iApply ("H" with "[$Hp $Hg $Hcx] Ht").
Qed.

Lemma SetColor_spec q c t f (Φ : unit -> T -> iProp Σ) :
  tree_at q t -∗ (tree_at q (recolor c t) -∗ Φ tt f) -∗ twp (SetColor (root t) c) Φ f.
Proof.
  iIntros "Ht H". unfold SetColor. destruct t as [|a c' k v l r]; cbn [root].
  - tsteps. iApply ("H" with "Ht").
  - iDestruct "Ht" as "(Ha & Hl & Hr)". tsteps. iApply "H". iFrame.
Qed.

(** An uncle is black: the second branch for an entry in line and one that is not. *)
Lemma insertion_inline s g kg vg p kp vp sib y cx x kx vx l r f (Φ : ptr -> T -> iProp Σ) :
  color y = BLACK -> mRoot f = root_of cx (Some g) ->
  ctx_at (Some x) (Frame s p RED kp vp sib :: Frame s g BLACK kg vg y :: cx) -∗
  tree_at (Some p) (node s x RED kx vx l r) -∗
  (ctx_at (Some x) (Frame s p BLACK kp vp (node s g RED kg vg sib y) :: cx) -∗
   tree_at (Some p) (node s x RED kx vx l r) -∗
   Φ (Some x) (with_root (root_of cx (Some p)) f)) -∗
  twp (FixAfterInsertion_side s (Some x)) Φ f.
Proof.
  iIntros (Hy Hroot) "(Hp & Hsib & Hg & Hy & Hcx) Ht H". iSimpl in "Hp Hg".
  iEval (rewrite tree_at_node) in "Ht". iDestruct "Ht" as "(Hx & Hl & Hr)".
  iDestruct (tree_ne with "Hx Hsib") as %Hne.
  unfold FixAfterInsertion_side. tsteps.
  iApply (ColorOf_spec with "Hy"). iIntros "Hy". rewrite Hy. tsteps.
  iApply (rotate_up s g kg vg RED p kp vp BLACK sib y cx (node s x RED kx vx l r)
    with "[Hp $Hsib $Hg $Hy $Hcx] [Hx Hl Hr]"); [done|by rewrite root_node|rewrite tree_at_node; iFrame|].
  iIntros "Hcx Ht". iEval (rewrite root_node) in "Hcx". tsteps. iApply ("H" with "Hcx Ht").
Qed.

Lemma insertion_zigzag s g kg vg p kp vp sib y cx x kx vx l r f (Φ : ptr -> T -> iProp Σ) :
  color y = BLACK -> mRoot f = root_of cx (Some g) ->
  ctx_at (Some x) (Frame (flip s) p RED kp vp sib :: Frame s g BLACK kg vg y :: cx) -∗
  tree_at (Some p) (node s x RED kx vx l r) -∗
  (ctx_at (Some p) (Frame s x BLACK kx vx (node s g RED kg vg r y) :: cx) -∗
   tree_at (Some x) (node s p RED kp vp sib l) -∗
   Φ (Some p) (with_root (root_of cx (Some x)) f)) -∗
  twp (FixAfterInsertion_side s (Some x)) Φ f.
Proof.
  iIntros (Hy Hroot) "(Hp & Hsib & Hg & Hy & Hcx) Ht H". iSimpl in "Hp Hg".
  iEval (rewrite mk_flip) in "Hp". iEval (rewrite tree_at_node) in "Ht". iDestruct "Ht" as "(Hx & Hl & Hr)".
  unfold FixAfterInsertion_side. tsteps.
  iApply (ColorOf_spec with "Hy"). iIntros "Hy". rewrite Hy. tsteps.
  iApply (rotate_spec _ s (Frame s g BLACK kg vg y :: cx) p RED kp vp sib x RED kx vx l r
    with "[$Hg $Hy $Hcx] [Hp Hsib Hx Hl Hr]"); [done|rewrite !tree_at_node !root_node; iFrame|].
  iIntros "(Hg & Hy & Hcx) Ht". iEval (rewrite !tree_at_node !root_node) in "Ht".
  iDestruct "Ht" as "(Hx & (Hp & Hsib & Hl) & Hr)". tsteps.
  iApply (rotate_up s g kg vg RED x kx vx BLACK r y cx (node s p RED kp vp sib l)
    with "[Hx $Hr $Hg $Hy $Hcx] [Hp Hsib Hl]"); [done|by rewrite root_node|rewrite tree_at_node; iFrame|].
  iIntros "Hcx Ht". iEval (rewrite root_node) in "Hcx". tsteps. iApply ("H" with "Hcx Ht").
Qed.

(** ** The loop *)

Lemma insertion_round_done cx x t f (Φ : ptr * bool -> T -> iProp Σ) :
  root t = Some x -> mRoot f = root_of cx (Some x) -> parent_black cx ->
  ctx_at (Some x) cx -∗ tree_at (parent_of cx) t -∗
  (ctx_at (Some x) cx -∗ tree_at (parent_of cx) t -∗ Φ (Some x, false) f) -∗
  twp (FixAfterInsertion_round (Some x)) Φ f.
Proof.
  iIntros (Hx Hroot Hcx) "Hcx Ht H". destruct t as [|x' c k v l r]; [done|]. injection Hx as ->.
  unfold FixAfterInsertion_round. tstep. tstep. rewrite Hroot.
  destruct cx as [|[s p c' kp vp sib] cx]; cbn in Hcx; [|subst c'].
  - cbn [root_of]. tsteps. iApply ("H" with "Hcx Ht").
  - iDestruct "Ht" as "(Hx & Hl & Hr)". iDestruct "Hcx" as "(Hp & Hsib & Hcx)".
    iDestruct (cell_ne with "Hx Hp") as %Hxp. iDestruct (ctx_root_ne with "Hx Hcx [//]") as %Hne.
    cbn [root_of parent_of]. tsteps. iApply ("H" with "[$Hp $Hsib $Hcx] [$Hx $Hl $Hr]").
Qed.

(** Under a red parent the branch is that of the parent's side. *)
Lemma insertion_round_side s1 p kp vp sib s g kg vg y cx x t f (Φ : ptr * bool -> T -> iProp Σ) :
  root t = Some x -> mRoot f = root_of cx (Some g) ->
  let cx' := Frame s1 p RED kp vp sib :: Frame s g BLACK kg vg y :: cx in
  ctx_at (Some x) cx' -∗ tree_at (Some p) t -∗
  (ctx_at (Some x) cx' -∗ tree_at (Some p) t -∗
   twp (FixAfterInsertion_side s (Some x)) (fun x' => Φ (x', true)) f) -∗
  twp (FixAfterInsertion_round (Some x)) Φ f.
Proof.
  iIntros (Hx Hroot cx') "(Hp & Hsib & Hg & Hy & Hcx) Ht H".
  destruct t as [|x' c k v l r]; [done|]. injection Hx as ->.
  iDestruct "Ht" as "(Hx & Hl & Hr)". iSimpl in "Hp Hg".
  iDestruct (cell_ne with "Hx Hg") as %Hxg. iDestruct (ctx_root_ne with "Hx Hcx [//]") as %Hne.
  iDestruct (tree_ne with "Hp Hy") as %Hpy.
  unfold FixAfterInsertion_round. tstep. tstep. rewrite Hroot. tsteps.
  assert ((if decide (Some p = child L (mk s kg vg (Some p) (root y) (parent_of cx) BLACK)) then L else R) = s) as ->.
  { destruct s; [by rewrite child_near decide_True|]. rewrite (child_far R). by case_decide. }
  iApply (twp_wand with "[-]").
  { iApply ("H" with "[$Hp $Hsib $Hg $Hy $Hcx] [$Hx $Hl $Hr]"). }
  iIntros (x' f') "H". by tsteps.
Qed.

Lemma FixAfterInsertion_loop n cx x t m f (Φ : ptr -> T -> iProp Σ) :
  (length cx < n)%nat -> root t = Some x -> color t = RED -> rb m t ->
  mRoot f = root_of cx (Some x) -> accepts BLACK m cx ->
  ctx_at (Some x) cx -∗ tree_at (parent_of cx) t -∗
  (∀ q u m', ⌜inorder L u = inorder L (plug cx t) /\ rb m' u⌝ -∗ tree_at None u -∗ Φ q (with_root (root u) f)) -∗
  twp (while n FixAfterInsertion_round (Some x)) Φ f.
Proof.
  revert cx x t m f. induction n as [|n IH]; [lia|]. intros cx x t m f Hn Hx Hc Hm Hroot Hcx.
  iIntros "Hcx Ht H". iApply twp_while_step.
  destruct cx as [|[s1 p [] kp vp sib] cx].
  1,2: iApply (insertion_round_done with "Hcx Ht"); [done..|]; iIntros "Hcx Ht"; cbn [fst snd];
    destruct (plug_rb _ _ t Hcx) as [m' Hm']; [done..|];
    rewrite -{2}(with_root_id f) Hroot -Hx -root_plug;
    iApply ("H" $! _ _ m' with "[//]"); rewrite tree_plug Hx; iFrame.
  destruct Hcx as (_ & Hcs & Hsib & Hcx).
  apply accepts_red in Hcx as (s & g & kg & vg & y & cx' & -> & Hy & Hcx).
  cbn [length] in Hn. cbn [root_of] in Hroot.
  iApply (insertion_round_side with "Hcx Ht"); [done..|]. iIntros "Hcx Ht".
  destruct (decide (color y = RED)) as [Hcy|Hcy].
  - destruct y as [|ya cy ky vy yl yr]; [done|]. cbn in Hcy. subst cy.
    iApply (insertion_uncle with "Hcx Ht"); [done|]. iIntros "Hcx Ht". cbn [fst snd].
    iApply (IH _ _ _ (S m) with "Hcx Ht"); [lia|apply root_node|apply color_node| |done|done|].
    { apply rb_red. rewrite color_node. split; [done|]. split; [by apply rb_black|]. cbn in Hy |- *. tauto. }
    iIntros (q u m' [Ho Hu]). iApply ("H" $! q u m'). iPureIntro. split; [|done]. rewrite Ho.
    cbn [plug]. apply (order_plug s). rewrite !inorder_near. by destruct s, s1.
  - apply not_false_is_true in Hcy.
    destruct (rb_red_sibling m t Hm Hc s) as (x' & k & v & l & r & -> & [Hcl Hcr] & Hl & Hr).
    rewrite root_node in Hx. injection Hx as ->.
    destruct (side_cases s s1) as [->| ->].
    + iApply (insertion_inline with "Hcx Ht"); [done..|]. iIntros "Hcx Ht". cbn [fst snd].
      iApply (IH _ _ _ m with "Hcx Ht"); [cbn; lia|apply root_node|apply color_node|by apply rb_red|done| |].
      { cbn. split; [|done]. by apply rb_red. }
      iIntros (q u m' [Ho Hu]). iApply ("H" $! q u m'). iPureIntro. split; [|done]. rewrite Ho.
      cbn [plug]. apply (order_plug s). in_order.
    + iApply (insertion_zigzag with "Hcx Ht"); [done..|]. iIntros "Hcx Ht". cbn [fst snd].
      iApply (IH _ _ _ m with "Hcx Ht"); [cbn; lia|apply root_node|apply color_node|by apply rb_red|done| |].
      { cbn. split; [|done]. by apply rb_red. }
      iIntros (q u m' [Ho Hu]). iApply ("H" $! q u m'). iPureIntro. split; [|done]. rewrite Ho.
      cbn [plug]. apply (order_plug s). in_order.
Qed.

(** [x] has just been linked into the tree in place of an empty subtree. *)
Lemma FixAfterInsertion_spec n cx x k v c f (Φ : unit -> T -> iProp Σ) :
  (length cx < n)%nat -> mRoot f = root_of cx (Some x) -> accepts BLACK 0 cx ->
  ctx_at (Some x) cx -∗ x ↦ mk L k v None None (parent_of cx) c -∗
  (∀ u, ⌜inorder L u = inorder L (plug cx (Node x RED k v Leaf Leaf)) /\ balanced u⌝ -∗ tree_at None u -∗
    Φ tt (with_root (root u) f)) -∗
  twp (FixAfterInsertion n (Some x)) Φ f.
Proof.
  iIntros (Hn Hroot Hcx) "Hcx Hx H". unfold FixAfterInsertion. tsteps.
  iApply (FixAfterInsertion_loop n cx x (Node x RED k v Leaf Leaf) 0 with "Hcx [Hx]"); [done..| |].
  { cbn. by iFrame. }
  iIntros (q u m [Ho Hu]) "Ht". tsteps. cbn [mRoot with_root].
  destruct u as [|a cu ku vu l r].
  { exfalso. apply (f_equal length) in Ho. rewrite (inorder_plug L) !length_app in Ho. cbn in Ho. lia. }
  iDestruct "Ht" as "(Ha & Hl & Hr)". cbn [root]. tsteps.
  iApply ("H" $! (Node a BLACK ku vu l r)); [|by iFrame].
  iPureIntro. split; [done|]. by apply (recolor_balanced m (Node a cu ku vu l r)).
Qed.

End Insert.

End TreeMapInsert.

(** ** Rebalancing after a deletion

    [FixAfterDeletion] works on a path whose hole wants one black entry more than
    the subtree of [x] has, and makes it a path that accepts this subtree.  What
    the subtree is does not matter: it is the replacement of the removed entry or
    the entry itself, which is unlinked afterwards. *)

Module TreeMapDelete.

Import TreeMap TreeShape TreeMapLogic TreeMapRotate TreeMapInsert.

Section Delete.
Context {Obj : Type} `{!EqDecision Obj} `{!Objects Obj}.
Context `{!ghost_mapG Σ positive (TreeMapEntry Obj)} (γ : gname).
Notation M := (SE (world Obj)).
Notation T := (TreeMap Obj).
Notation "a ↦ e" := (cell_at γ a e) (at level 20) : bi_scope.
Notation twp := (twp γ).
Notation tree_at := (tree_at γ).
Notation ctx_at := (ctx_at γ).
Implicit Types (f : T) (cx : list (@frame Obj)) (t y z : @tree Obj).

(** *** The branch for an [x] on side [s], the sibling black *)

(** With black children it turns red, and [x] moves up. *)
Lemma deletion_recolor s p c kp vp b kb vb y z cx x t f (Φ : ptr -> T -> iProp Σ) :
  root t = Some x -> color y = BLACK -> color z = BLACK ->
  ctx_at (Some x) (Frame s p c kp vp (node s b BLACK kb vb y z) :: cx) -∗ tree_at (Some p) t -∗
  (ctx_at (Some x) (Frame s p c kp vp (node s b RED kb vb y z) :: cx) -∗ tree_at (Some p) t -∗ Φ (Some p) f) -∗
  twp (FixAfterDeletion_black s (Some x) (Some b)) Φ f.
Proof.
  iIntros (Hx Hy Hz) "(Hp & Hb & Hcx) Ht H". iSimpl in "Hp". iEval (rewrite tree_at_node) in "Hb".
  iEval (rewrite root_node) in "Hp". iDestruct "Hb" as "(Hb & Hy & Hz)".
  destruct t as [|x' cc k v l r]; [done|]. injection Hx as ->. iDestruct "Ht" as "(Hx & Hl & Hr)".
  unfold FixAfterDeletion_black. tsteps. iApply (ColorOf_spec with "Hy"). iIntros "Hy". rewrite Hy.
  tsteps. iApply (ColorOf_spec with "Hz"). iIntros "Hz". rewrite Hz.  tsteps.
  iApply ("H" with "[Hp Hb Hy Hz $Hcx] [$Hx $Hl $Hr]"). rewrite root_node tree_at_node. iFrame.
Qed.

(** The rotation that lifts the sibling above the parent. *)
Lemma deletion_rise s p c kp vp b cb kb vb y z cx x t f (Φ : unit -> T -> iProp Σ) :
  root t = Some x -> mRoot f = root_of cx (Some p) ->
  ctx_at (Some x) (Frame s p c kp vp (node s b cb kb vb y z) :: cx) -∗ tree_at (Some p) t -∗
  (ctx_at (Some x) (Frame s p c kp vp y :: Frame s b cb kb vb z :: cx) -∗ tree_at (Some p) t -∗
   Φ tt (with_root (root_of cx (Some b)) f)) -∗
  twp (rotate s (Some p)) Φ f.
Proof.
  iIntros (Hx Hroot) "(Hp & Hb & Hcx) Ht H". iSimpl in "Hp".
  iApply (rotate_spec _ s cx p c kp vp t b cb kb vb y z with "Hcx [Hp Hb Ht]"); [done| |].
  { rewrite (tree_at_node γ s _ p) Hx. iFrame. }
  iIntros "Hcx Ht". iEval (rewrite !tree_at_node !root_node) in "Ht".
  iDestruct "Ht" as "(Hb & (Hp & Ht & Hy) & Hz)". iApply ("H" with "[Hb Hp Hy Hz Hcx] Ht").
  cbn. rewrite Hx. iFrame.
Qed.

(** With a red far child it takes the parent's place. *)
Lemma deletion_far s p c kp vp b kb vb y z cx x t f (Φ : ptr -> T -> iProp Σ) :
  root t = Some x -> mRoot f = root_of cx (Some p) -> color z = RED ->
  ctx_at (Some x) (Frame s p c kp vp (node s b BLACK kb vb y z) :: cx) -∗ tree_at (Some p) t -∗
  (ctx_at (Some x) (Frame s p BLACK kp vp y :: Frame s b c kb vb (recolor BLACK z) :: cx) -∗ tree_at (Some p) t -∗
   Φ (root_of cx (Some b)) (with_root (root_of cx (Some b)) f)) -∗
  twp (FixAfterDeletion_black s (Some x) (Some b)) Φ f.
Proof.
  iIntros (Hx Hroot Hz) "(Hp & Hb & Hcx) Ht H". iSimpl in "Hp". iEval (rewrite tree_at_node) in "Hb".
  iEval (rewrite root_node) in "Hp". iDestruct "Hb" as "(Hb & Hy & Hz)".
  destruct t as [|x' cc k v l r]; [done|]. injection Hx as ->. iDestruct "Ht" as "(Hx & Hl & Hr)".
  unfold FixAfterDeletion_black. tsteps. iApply (ColorOf_spec with "Hy"). iIntros "Hy".
  tsteps. iApply (ColorOf_spec with "Hz"). iIntros "Hz". rewrite Hz andb_false_r. tsteps.
  iApply (ColorOf_spec with "Hz"). iIntros "Hz". rewrite Hz. tsteps.
  iApply (SetColor_spec with "Hz"). iIntros "Hz". tsteps.
  iApply (deletion_rise s p BLACK kp vp b c kb vb y (recolor BLACK z) cx x (Node x cc k v l r)
    with "[Hp Hb Hy Hz $Hcx] [$Hx $Hl $Hr]"); [done..| |].
  { rewrite root_node tree_at_node root_recolor. iFrame. }
  iIntros "Hcx Ht". tsteps. iApply ("H" with "Hcx Ht").
Qed.

(** With only the near child red, this child takes the parent's place. *)
Lemma deletion_near s p c kp vp b kb vb d kd vd y1 y2 z cx x t f (Φ : ptr -> T -> iProp Σ) :
  root t = Some x -> mRoot f = root_of cx (Some p) -> color z = BLACK ->
  ctx_at (Some x) (Frame s p c kp vp (node s b BLACK kb vb (node s d RED kd vd y1 y2) z) :: cx) -∗
  tree_at (Some p) t -∗
  (ctx_at (Some x) (Frame s p BLACK kp vp y1 :: Frame s d c kd vd (node s b BLACK kb vb y2 z) :: cx) -∗
   tree_at (Some p) t -∗
   Φ (root_of cx (Some d)) (with_root (root_of cx (Some d)) f)) -∗
  twp (FixAfterDeletion_black s (Some x) (Some b)) Φ f.
Proof.
  iIntros (Hx Hroot Hz) "(Hp & Hb & Hcx) Ht H". iSimpl in "Hp". iEval (rewrite !tree_at_node !root_node) in "Hb".
  iEval (rewrite root_node) in "Hp". iDestruct "Hb" as "(Hb & (Hd & Hy1 & Hy2) & Hz)".
  destruct t as [|x' cc k v l r]; [done|]. injection Hx as ->. iDestruct "Ht" as "(Hx & Hl & Hr)".
  unfold FixAfterDeletion_black. tsteps.
  iApply (ColorOf_spec with "Hz"). iIntros "Hz". rewrite Hz.  tsteps.
  iApply (ColorOf_spec with "Hz"). iIntros "Hz". rewrite Hz. tsteps.
  iApply (rotate_spec _ (flip s) (Frame (flip s) p c kp vp (Node x cc k v l r) :: cx) b RED kb vb z d BLACK kd vd y2 y1
    with "[Hp $Hx $Hl $Hr $Hcx] [Hb Hd Hy1 Hy2 Hz]"); [done|cbn; by rewrite mk_flip| |].
  { rewrite !tree_at_node !mk_flip root_node. iFrame. }
  iIntros "(Hp & (Hx & Hl & Hr) & Hcx) Ht". iEval (rewrite mk_flip) in "Hp". iSimpl in "Hp".
  iEval (rewrite !node_flip !tree_at_node root_node) in "Ht".
  iDestruct "Ht" as "(Hd & Hy1 & (Hb & Hy2 & Hz))". tsteps.
  iApply (deletion_rise s p BLACK kp vp d c kd vd y1 (node s b BLACK kb vb y2 z) cx x (Node x cc k v l r)
    with "[Hp Hd Hb Hy1 Hy2 Hz $Hcx] [$Hx $Hl $Hr]"); [done..| |].
  { rewrite !tree_at_node !root_node. iFrame. }
  iIntros "Hcx Ht". tsteps. iApply ("H" with "Hcx Ht").
Qed.

(** *** The whole branch: a red sibling first rises above the parent *)

Lemma deletion_side_black s p c kp vp b kb vb y z cx x t f (Φ : ptr -> T -> iProp Σ) :
  root t = Some x ->
  let cx' := Frame s p c kp vp (node s b BLACK kb vb y z) :: cx in
  ctx_at (Some x) cx' -∗ tree_at (Some p) t -∗
  (ctx_at (Some x) cx' -∗ tree_at (Some p) t -∗ twp (FixAfterDeletion_black s (Some x) (Some b)) Φ f) -∗
  twp (FixAfterDeletion_side s (Some x)) Φ f.
Proof.
  iIntros (Hx cx') "(Hp & Hb & Hcx) Ht H". iSimpl in "Hp". iEval (rewrite tree_at_node) in "Hb".
  iEval (rewrite root_node) in "Hp". iDestruct "Hb" as "(Hb & Hy & Hz)".
  destruct t as [|x' cc k v l r]; [done|]. injection Hx as ->. iDestruct "Ht" as "(Hx & Hl & Hr)".
  unfold FixAfterDeletion_side. tsteps. iApply ("H" with "[Hp Hb Hy Hz $Hcx] [$Hx $Hl $Hr]").
  cbn. rewrite root_node tree_at_node. iFrame.
Qed.

Lemma deletion_side_red s p kp vp b kb vb y z cx x t f (Φ : ptr -> T -> iProp Σ) :
  root t = Some x -> mRoot f = root_of cx (Some p) ->
  ctx_at (Some x) (Frame s p BLACK kp vp (node s b RED kb vb y z) :: cx) -∗ tree_at (Some p) t -∗
  (ctx_at (Some x) (Frame s p RED kp vp y :: Frame s b BLACK kb vb z :: cx) -∗ tree_at (Some p) t -∗
   twp (FixAfterDeletion_black s (Some x) (root y)) Φ (with_root (root_of cx (Some b)) f)) -∗
  twp (FixAfterDeletion_side s (Some x)) Φ f.
Proof.
  iIntros (Hx Hroot) "(Hp & Hb & Hcx) Ht H". iSimpl in "Hp". iEval (rewrite tree_at_node) in "Hb".
  iEval (rewrite root_node) in "Hp". iDestruct "Hb" as "(Hb & Hy & Hz)".
  destruct t as [|x' cc k v l r]; [done|]. injection Hx as ->. iDestruct "Ht" as "(Hx & Hl & Hr)".
  unfold FixAfterDeletion_side. tsteps.
  iApply (deletion_rise s p RED kp vp b BLACK kb vb y z cx x (Node x cc k v l r)
    with "[Hp Hb Hy Hz $Hcx] [$Hx $Hl $Hr]"); [done..| |].
  { rewrite root_node tree_at_node. iFrame. }
  iIntros "(Hp & Hy & Hcx) (Hx & Hl & Hr)". iSimpl in "Hp Hx". tsteps.
  iApply ("H" with "[$Hp $Hy $Hcx] [$Hx $Hl $Hr]").
Qed.

(** ** The loop *)

Lemma deletion_round_side s p c kp vp sib cx x t f (Φ : ptr * bool -> T -> iProp Σ) :
  root t = Some x -> color t = BLACK -> mRoot f = root_of cx (Some p) ->
  let cx' := Frame s p c kp vp sib :: cx in
  ctx_at (Some x) cx' -∗ tree_at (Some p) t -∗
  (ctx_at (Some x) cx' -∗ tree_at (Some p) t -∗
   twp (FixAfterDeletion_side s (Some x)) (fun x' => Φ (x', true)) f) -∗
  twp (FixAfterDeletion_round (Some x)) Φ f.
Proof.
  iIntros (Hx Hc Hroot cx') "(Hp & Hsib & Hcx) Ht H".
  destruct t as [|x' cc k v l r]; [done|]. injection Hx as ->. cbn in Hc. subst cc.
  iDestruct "Ht" as "(Hx & Hl & Hr)". iSimpl in "Hp".
  iDestruct (cell_ne with "Hx Hp") as %Hxp. iDestruct (ctx_root_ne with "Hx Hcx [//]") as %Hne.
  iDestruct (tree_ne with "Hx Hsib") as %Hxs.
  unfold FixAfterDeletion_round. tstep. tstep. rewrite Hroot. tsteps.
  assert ((if decide (Some x = child L (mk s kp vp (Some x) (root sib) (parent_of cx) c)) then L else R) = s) as ->.
  { destruct s; [by rewrite child_near decide_True|]. rewrite (child_far R). by case_decide. }
  iApply (twp_wand with "[-]").
  { iApply ("H" with "[$Hp $Hsib $Hcx] [$Hx $Hl $Hr]"). }
  iIntros (x' f') "H". by tsteps.
Qed.

(** The loop with the assignment after it. *)
Definition fix_from (n : nat) (x : ptr) (Φ : unit -> T -> iProp Σ) (f : T) : iProp Σ :=
  twp (while n FixAfterDeletion_round x) (fun x f => twp (SetColor x BLACK) Φ f) f.

(** It ends at a red entry, which turns black, and at the root. *)
Lemma deletion_exit_red n q s x k v y z f (Φ : unit -> T -> iProp Σ) :
  (0 < n)%nat ->
  tree_at q (node s x RED k v y z) -∗ (tree_at q (node s x BLACK k v y z) -∗ Φ tt f) -∗ fix_from n (Some x) Φ f.
Proof.
  destruct n as [|n]; [lia|]. rewrite !tree_at_node. iIntros (_) "(Hx & Hl & Hr) H". iApply twp_while_step. unfold FixAfterDeletion_round.
  tstep. tstep. destruct (decide (Some x = mRoot f)); tsteps; cbn [fst snd]; tsteps; iApply "H"; iFrame.
Qed.

Lemma deletion_exit_root n u f (Φ : unit -> T -> iProp Σ) :
  (0 < n)%nat -> mRoot f = root u -> color u = BLACK ->
  tree_at None u -∗ (tree_at None u -∗ Φ tt f) -∗ fix_from n (root u) Φ f.
Proof.
  destruct n as [|n]; [lia|]. iIntros (_ Hroot Hu) "Hu H". iApply twp_while_step. unfold FixAfterDeletion_round.
  tstep. tstep. rewrite Hroot. tsteps. cbn [fst snd]. iApply (SetColor_spec with "Hu").
  destruct u; [done|]. cbn in Hu |- *. by rewrite Hu.
Qed.

(** [cx'] has the entries of [cx] and accepts a tree of height [m]. *)
Definition repaired (m : nat) (cx cx' : list (@frame Obj)) : Prop :=
  (forall s, outer s cx' = outer s cx) /\ accepts BLACK m cx'.

Lemma deletion_finish n m cx x t f (Φ : unit -> T -> iProp Σ) :
  (0 < n)%nat -> root t = Some x -> accepts BLACK m cx -> cx <> [] ->
  ctx_at (Some x) cx -∗ tree_at (parent_of cx) t -∗
  (ctx_at (Some x) cx -∗ tree_at (parent_of cx) t -∗ Φ tt (with_root (root_of cx (Some x)) f)) -∗
  fix_from n (root_of cx (Some x)) Φ (with_root (root_of cx (Some x)) f).
Proof.
  iIntros (Hn Hx Hcx Hne) "Hcx Ht H". rewrite -Hx -root_plug.
  iApply (deletion_exit_root _ (plug cx t) with "[Hcx Ht]"); [done|done|by eapply accepts_root| |].
  { rewrite tree_plug. iFrame. }
  rewrite tree_plug. iIntros "[Hcx Ht]". iApply ("H" with "Hcx Ht").
Qed.

Section Phase.
Context (n m : nat) (s : side) (p : positive) (c : bool) (kp vp : option Obj).
Context (cx : list (@frame Obj)) (x : positive) (t : @tree Obj) (Φ : unit -> T -> iProp Σ).
Hypothesis Hn : (0 < n)%nat.
Hypothesis Hx : root t = Some x.
Hypothesis Hcx : if c then accepts BLACK (S (S m)) cx else accepts RED (S m) cx.

Definition repairs (cx0 : list (@frame Obj)) (f : T) : iProp Σ :=
  ∀ cx', ⌜repaired m cx0 cx'⌝ -∗ ctx_at (Some x) cx' -∗ tree_at (parent_of cx') t -∗
    Φ tt (with_root (root_of cx' (Some x)) f).

Lemma repairs_order cx1 cx2 f f' :
  (forall s, outer s cx1 = outer s cx2) -> (forall q, with_root q f = with_root q f') ->
  repairs cx1 f -∗ repairs cx2 f'.
Proof.
  iIntros (H Hf) "Hr". iIntros (cx' [Ho Ha]). rewrite -Hf. iApply "Hr". iPureIntro.
  split; [|done]. intros s'. by rewrite H.
Qed.

(** The second half of a round, to the end if the path does not continue from [p]. *)
Lemma deletion_black_spec b kb vb y z f :
  mRoot f = root_of cx (Some p) -> rb m y -> rb m z ->
  (c = BLACK -> color y = BLACK -> color z = BLACK ->
   let cx' := Frame s p BLACK kp vp (node s b RED kb vb y z) :: cx in
   ctx_at (Some x) cx' -∗ tree_at (Some p) t -∗ repairs cx' f -∗ fix_from n (Some p) Φ f) ->
  let cx0 := Frame s p c kp vp (node s b BLACK kb vb y z) :: cx in
  ctx_at (Some x) cx0 -∗ tree_at (Some p) t -∗ repairs cx0 f -∗
  twp (FixAfterDeletion_black s (Some x) (Some b)) (fun x' f' => fix_from n x' Φ f') f.
Proof using Hn Hx Hcx.
  iIntros (Hroot Hy Hz IH cx0) "Hcx Ht H".
  destruct (decide (color z = RED)) as [Hcz|Hcz%not_false_is_true].
  { iApply (deletion_far with "Hcx Ht"); [done..|].
    set (cx' := Frame s p BLACK kp vp y :: Frame s b c kb vb (recolor BLACK z) :: cx). iIntros "Hcx Ht".
    assert (accepts BLACK m cx') as Ha.
    { split; [done|]. destruct z as [|za cz kz vz z1 z2]; [done|]. cbn in Hcz. subst cz. destruct c; cbn in *; tauto. }
    iApply (deletion_finish n m cx' with "Hcx Ht"); [done..|]. iApply ("H" $! cx'). iPureIntro. split; [|done].
    outer_order s. }
  destruct (decide (color y = RED)) as [Hcy|Hcy%not_false_is_true].
  { destruct (rb_red_sibling m y Hy Hcy s) as (d & kd & vd & y1 & y2 & -> & [Hc1 Hc2] & Hy1 & Hy2).
    iApply (deletion_near with "Hcx Ht"); [done..|].
    set (cx' := Frame s p BLACK kp vp y1 :: Frame s d c kd vd (node s b BLACK kb vb y2 z) :: cx). iIntros "Hcx Ht".
    assert (accepts BLACK m cx') as Ha.
    { split; [done|]. destruct c; cbn in *; rewrite ?rb_black ?color_node; tauto. }
    iApply (deletion_finish n m cx' with "Hcx Ht"); [done..|]. iApply ("H" $! cx'). iPureIntro. split; [|done].
    outer_order s. }
  iApply (deletion_recolor with "Hcx Ht"); [done..|]. iIntros "Hcx Ht".
  assert (c = BLACK \/ c = RED) as [->| ->] by (destruct c; auto).
  { iApply (IH with "Hcx Ht"); [done..|]. iApply (repairs_order with "H"); [outer_order s|done]. }
  iDestruct "Hcx" as "(Hp & Hb & Hcx)". iEval (rewrite -Hx) in "Hp".
  iApply (deletion_exit_red n (parent_of cx) s p kp vp t (node s b RED kb vb y z) with "[Hp Hb Ht]"); [done| |].
  { rewrite (tree_at_node γ s _ p). iFrame. }
  rewrite (tree_at_node γ s _ p). iIntros "(Hp & Ht & Hb)".
  rewrite -{2}(with_root_id f) Hroot.
  iApply ("H" $! (Frame s p BLACK kp vp (node s b RED kb vb y z) :: cx) with "[%] [Hp Hb Hcx] Ht").
  - split; [outer_order s|]. cbn. rewrite rb_red. split; [done|]. by apply accepts_black in Hcx.
  - cbn. rewrite Hx. iFrame.
Qed.

End Phase.

(** The loop moves up through black parents; the subtree [t] and the part of the
    path passed stay as they are. *)
Lemma FixAfterDeletion_loop n cx t x m f (Φ : unit -> T -> iProp Σ) :
  (length cx + 2 <= n)%nat -> root t = Some x -> color t = BLACK ->
  mRoot f = root_of cx (Some x) -> accepts BLACK (S m) cx ->
  ctx_at (Some x) cx -∗ tree_at (parent_of cx) t -∗ repairs m x t Φ cx f -∗ fix_from n (Some x) Φ f.
Proof.
  revert cx t x m f Φ. induction n as [|n IH]; [lia|]. intros cx t x m f Φ Hn Hx Hc Hroot Hcx.
  iIntros "Hcx Ht H". destruct cx as [|[s p c kp vp sib] cx].
  { rewrite -Hx. iApply (deletion_exit_root with "Ht"); [lia|by rewrite Hroot Hx|done|]. iIntros "Ht".
    iSpecialize ("H" $! [] with "[//] Hcx Ht"). cbn in Hroot |- *. by rewrite -Hroot with_root_id. }
  cbn [length] in Hn. cbn in Hroot. iApply twp_while_step.
  iApply (deletion_round_side with "Hcx Ht"); [done..|]. iIntros "Hcx Ht". cbn [fst snd].
  destruct (decide (color sib = RED)) as [Hs|Hs%not_false_is_true].
  - assert (c = BLACK /\ rb (S m) sib /\ accepts BLACK (S (S m)) cx) as (-> & Hsib & Ha).
    { destruct c; cbn in Hcx; [done|]. destruct Hcx as (_ & E & _). by rewrite Hs in E. }
    destruct (rb_red_sibling _ _ Hsib Hs s) as (b & kb & vb & y & z & -> & [Hcy Hcz] & Hy & Hz).
    destruct (rb_sibling _ _ Hy Hcy s) as (d & kd & vd & y1 & y2 & -> & Hy1 & Hy2).
    iApply (deletion_side_red with "Hcx Ht"); [done..|]. iIntros "Hcx Ht". rewrite root_node.
    iApply (deletion_black_spec n m s p RED kp vp (Frame s b BLACK kb vb z :: cx) with "Hcx Ht"); [lia|done|done|done..|].
    iApply (repairs_order with "H"); [outer_order s|done].
  - assert (rb (S m) sib /\ if c then accepts BLACK (S (S m)) cx else accepts RED (S m) cx) as [Hsib Ha].
    { destruct c; cbn in Hcx; tauto. }
    destruct (rb_sibling _ _ Hsib Hs s) as (b & kb & vb & y & z & -> & Hy & Hz).
    iApply (deletion_side_black with "Hcx Ht"); [done..|]. iIntros "Hcx Ht".
    iApply (deletion_black_spec n m with "Hcx Ht H"); [lia|done|done|done..|].
    intros -> Hcy Hcz. iIntros "(Hp & Hb & Hcx) Ht H".
    iApply (IH cx (node s p BLACK kp vp t (node s b RED kb vb y z)) p (S m) with "Hcx [Hp Hb Ht]");
      [lia|apply root_node|apply color_node|done|done| |].
    { rewrite (tree_at_node γ s _ p) Hx. iFrame. }
    iIntros (cx3 [Ho Ha']) "Hcx Ht". iEval (rewrite (tree_at_node γ s _ p)) in "Ht".
    iDestruct "Ht" as "(Hp & Ht & Hb)".
    iApply ("H" $! (Frame s p BLACK kp vp (node s b RED kb vb y z) :: cx3) with "[%] [Hp Hb Hcx] Ht").
    + split; [|by split; [apply rb_red|]]. intros s'. by apply outer_frame.
    + cbn. rewrite Hx. iFrame.
Qed.

Lemma FixAfterDeletion_spec n cx t x m f (Φ : unit -> T -> iProp Σ) :
  (length cx + 2 <= n)%nat -> root t = Some x -> color t = BLACK ->
  mRoot f = root_of cx (Some x) -> accepts BLACK (S m) cx ->
  ctx_at (Some x) cx -∗ tree_at (parent_of cx) t -∗
  (∀ cx', ⌜repaired m cx cx'⌝ -∗ ctx_at (Some x) cx' -∗ tree_at (parent_of cx') t -∗
    Φ tt (with_root (root_of cx' (Some x)) f)) -∗
  twp (FixAfterDeletion n (Some x)) Φ f.
Proof.
  iIntros (Hn Hx Hc Hroot Hcx) "Hcx Ht H". unfold FixAfterDeletion. tstep.
  iApply (FixAfterDeletion_loop with "Hcx Ht H"); done.
Qed.

End Delete.

End TreeMapDelete.
