(* ===== verification/TreeMapReads.v ===== *)
(** * Queries and the levels of built trees

    [TreeMapReads]: what leaves the map alone.  [TreeMapLevels]: the red level of a
    tree built in linear time. *)
From stdpp Require Import gmap.
From Stdlib Require Import ZArith Lia.
From S2P Require Import Prelude.
From S2P Require Import ECode.
From S2P Require Import TreeMap.

(** ** Queries leave the world alone

    A computation that [reads] may be undefined, but changes neither the map
    object nor an entry. *)

Module TreeMapReads.

Import TreeMap.

Create HintDb reads.

Section Reads.
Context {Obj : Type} `{!EqDecision Obj} `{!Objects Obj}.
Notation M := (SE (world Obj)).

Definition reads {X} (m : M X) : Prop := forall w x w', m w = Some (x, w') -> w' = w.

Lemma reads_ret {X} (x : X) : reads (ret x).
Proof. by intros w y w' [= _ <-]. Qed.

Lemma reads_undefined {X} : reads (@undefined (world Obj) X).
Proof. done. Qed.

Lemma reads_bind {X Y} (m : M X) (k : X -> M Y) : reads m -> (forall x, reads (k x)) -> reads (bind m k).
Proof.
  intros Hm Hk w y w'. unfold bind. destruct (m w) as [[x w1]|] eqn:E; [|done]. intros H.
  apply Hm in E as ->. by apply Hk in H.
Qed.

Lemma reads_self {X} (g : TreeMap Obj -> X) : reads (self g).
Proof. by intros w y w' [= _ <-]. Qed.

Lemma reads_get {X} p (g : TreeMapEntry Obj -> X) : reads (get p g).
Proof. destruct p as [a|]; [|done]. intros w y w'. cbn. destruct (_ !! _); [|done]. by intros [= _ <-]. Qed.

Lemma reads_known {X} (x : option X) : reads (@known (world Obj) X x).
Proof. destruct x; [apply reads_ret|done]. Qed.

Lemma reads_while {X} n (body : X -> M (X * bool)) x : (forall x, reads (body x)) -> reads (while n body x).
Proof.
  intros Hb. revert x. induction n as [|n IH]; intros x; [done|]. cbn [while].
  apply reads_bind; [done|]. intros [y []]; cbn; [apply IH|apply reads_ret].
Qed.

End Reads.

#[export] Hint Resolve reads_ret reads_undefined reads_self reads_get reads_known : reads.

(** Follow the code: [reading] goes through it, with the lemmas of the database
    for the functions it calls. *)
Ltac reading :=
  repeat first
    [ solve [auto with reads]
    | apply reads_bind; [|intros ?]
    | apply reads_while; intros ?
    | match goal with |- reads (match ?x with _ => _ end) => destruct x end
    | progress cbn beta iota zeta ].

Section Queries.
Context {Obj : Type} `{!EqDecision Obj} `{!Objects Obj}.

Lemma CompareTo_probed_reads (k1 k2 : option Obj) : reads (CompareTo_probed k1 k2).
Proof. unfold CompareTo_probed. reading. Qed.
#[local] Hint Resolve CompareTo_probed_reads : reads.

Lemma compare_by_reads (q k1 k2 : option Obj) : reads (compare_by q k1 k2).
Proof. unfold compare_by. reading. Qed.
#[local] Hint Resolve compare_by_reads : reads.

Lemma Compare_reads (k1 k2 : option Obj) : reads (Compare k1 k2).
Proof. unfold Compare. reading. Qed.
#[local] Hint Resolve Compare_reads : reads.

Lemma GetEntry_loop_reads n (q key : option Obj) p : reads (GetEntry_loop n q key p).
Proof. unfold GetEntry_loop. reading. Qed.
#[local] Hint Resolve GetEntry_loop_reads : reads.

Lemma GetEntry_reads (key : option Obj) : reads (GetEntry key).
Proof. unfold GetEntry, GetEntryUsingComparator, rounds. reading. Qed.

Lemma descend_reads s n p : reads (Obj := Obj) (descend s n p).
Proof. unfold descend. reading. Qed.
#[local] Hint Resolve descend_reads : reads.

Lemma extreme_reads s : reads (Obj := Obj) (extreme s).
Proof. unfold extreme, rounds. reading. Qed.
#[local] Hint Resolve extreme_reads : reads.

Lemma climb_reads s n p q : reads (Obj := Obj) (climb s n p q).
Proof. unfold climb. reading. Qed.
#[local] Hint Resolve climb_reads : reads.

Lemma neighbour_reads s p : reads (Obj := Obj) (neighbour s p).
Proof. unfold neighbour, rounds. reading. Qed.
#[local] Hint Resolve neighbour_reads : reads.

Lemma nearest_reads s i (key : option Obj) : reads (nearest s i key).
Proof. unfold nearest, rounds. reading. Qed.

Lemma ExportEntry_reads p : reads (Obj := Obj) (ExportEntry p).
Proof. unfold ExportEntry. reading. Qed.

Lemma key_of_reads p : reads (Obj := Obj) (key_of p).
Proof. unfold key_of. reading. Qed.

Lemma find_value_reads b (v : option Obj) : reads (find_value b v).
Proof. unfold find_value, GetFirstEntry, Successor, rounds. reading. Qed.

Lemma key_at_reads find (key : option Obj) : (forall k, reads (find k)) -> reads (key_at find key).
Proof. intros H. unfold key_at. reading. Qed.

Lemma entry_at_reads find (key : option Obj) : (forall k, reads (find k)) -> reads (entry_at find key).
Proof. intros H. unfold entry_at. apply reads_bind; [done|intros ?]. pose proof ExportEntry_reads. reading. Qed.

End Queries.

#[export] Hint Resolve CompareTo_probed_reads compare_by_reads Compare_reads GetEntry_loop_reads GetEntry_reads
  descend_reads extreme_reads climb_reads neighbour_reads nearest_reads ExportEntry_reads key_of_reads find_value_reads
  key_at_reads entry_at_reads : reads.

End TreeMapReads.

(** ** The levels of a tree built from sorted items

    [ComputeRedLevel] against the sizes of the subtrees that [BuildFromSorted]
    makes. *)

Module TreeMapLevels.

Import TreeMap.

(** ** The red level *)

(** Sizes of subtrees [d] levels above the red one. *)
Definition level_size (d : nat) (n : Z) : Prop := 2 ^ Z.of_nat d - 1 <= n <= 2 ^ (Z.of_nat d + 1) - 1.

Lemma level_size_split d n : level_size (S d) n -> level_size d ((n - 1) / 2) /\ level_size d (n - 1 - (n - 1) / 2).
Proof.
  unfold level_size. rewrite Nat2Z.inj_succ. replace (Z.succ (Z.of_nat d) + 1) with (Z.succ (Z.of_nat d + 1)) by lia.
  rewrite !Z.pow_succ_r by lia. pose proof (Z.pow_pos_nonneg 2 (Z.of_nat d)).
  set (p := 2 ^ Z.of_nat d) in *. set (q := 2 ^ (Z.of_nat d + 1)) in *.
  Z.to_euclidean_division_equations. lia.
Qed.

Lemma level_size_zero n : level_size 0 n -> n = 0 \/ n = 1.
Proof. unfold level_size. cbn. lia. Qed.

Lemma level_size_pos d n : level_size (S d) n -> 0 < n.
Proof. unfold level_size. rewrite Nat2Z.inj_succ, Z.pow_succ_r by lia. pose proof (Z.pow_pos_nonneg 2 (Z.of_nat d)). lia. Qed.

Lemma ComputeRedLevel_loop_spec n m level :
  -1 <= m -> m + 2 < 2 ^ Z.of_nat n ->
  exists d : nat, ComputeRedLevel_loop n m level = level + Z.of_nat d /\ 2 ^ Z.of_nat d <= m + 2 < 2 ^ (Z.of_nat d + 1).
Proof.
  revert m level. induction n as [|n IH]; intros m level Hm Hn; [cbn in Hn; lia|].
  cbn [ComputeRedLevel_loop]. destruct (Z.geb_spec m 0) as [H|H].
  - assert (Z.quot m 2 = m / 2) as E by (apply Z.quot_div_nonneg; lia). rewrite E.
    rewrite Nat2Z.inj_succ, Z.pow_succ_r in Hn by lia.
    destruct (IH (m / 2 - 1) (level + 1)) as (d & -> & Hd).
    + Z.to_euclidean_division_equations. lia.
    + Z.to_euclidean_division_equations. lia.
    + exists (S d). split; [lia|]. rewrite Nat2Z.inj_succ, Z.pow_succ_r by lia.
      replace (Z.succ (Z.of_nat d) + 1) with (Z.succ (Z.of_nat d + 1)) by lia. rewrite Z.pow_succ_r by lia.
      Z.to_euclidean_division_equations. lia.
  - exists O. split; [lia|]. cbn. lia.
Qed.

(** The tree of [size] items is full above the red level. *)
Lemma ComputeRedLevel_spec size : 0 <= size < 2147483648 ->
  exists d : nat, ComputeRedLevel size = Z.of_nat d /\ level_size d size /\ (size <> 0 -> d <> O).
Proof.
  intros H. destruct (ComputeRedLevel_loop_spec 32 (size - 1) 0) as (d & E & Hd); [lia|cbn; lia|].
  exists d. split; [exact E|]. split; [unfold level_size; lia|]. intros Hs ->. cbn in Hd. lia.
Qed.

End TreeMapLevels.
