(* ===== verification/TreeSubMap.v ===== *)
(** * Views of a range of a tree map

    [NavigableSubMap] of [src/src/libcore/src/ccm/util/TreeMap.cpp] with its
    ascending and descending subclasses, their entry sets and iterators.  A view is
    its bounds and the direction it iterates in, [R] for [AscendingSubMap] and [L]
    for [DescendingSubMap]; the map it views is the map of the world.  The functions
    of the two bounds and of the two subclasses mirror each other and have a side as
    an argument.  The fields of a view whose [Constructor] failed are not
    initialised; there is no view then, and using it is undefined. *)
From stdpp Require Import gmap.
From S2P Require Import Prelude.
From S2P Require Import ECode.
From S2P Require Import TreeMap.

Module TreeSubMap.

Import TreeMap.

Record NavigableSubMap {Obj : Type} := {
  mFromStart : bool;
  mLo : option Obj;
  mLoInclusive : bool;
  mToEnd : bool;
  mHi : option Obj;
  mHiInclusive : bool
}.
#[global] Arguments NavigableSubMap : clear implicits.

(** A view: its class, by its direction, and its fields. *)
Definition view (Obj : Type) : Type := side * NavigableSubMap Obj.

Section SubMap.
Context {Obj : Type} `{!EqDecision Obj} `{!Objects Obj}.
Notation ref := (option Obj).
Notation M := (SE (world Obj)).
Notation SubMap := (NavigableSubMap Obj).
Implicit Types (b : SubMap) (v : view Obj) (s : side).

(** ** Bounds *)

Definition unbounded s b : bool := match s with L => mFromStart b | R => mToEnd b end.
Definition limit s b : ref := match s with L => mLo b | R => mHi b end.
Definition inclusive s b : bool := match s with L => mLoInclusive b | R => mHiInclusive b end.

Definition Constructor (fromStart : bool) (lo : ref) (loInclusive toEnd : bool) (hi : ref) (hiInclusive : bool) :
    M (ECode * option SubMap) :=
  c <- (if negb fromStart && negb toEnd then Compare lo hi else ret 0) ;;
  if negb fromStart && negb toEnd && (c >? 0) then ret (E_ILLEGAL_ARGUMENT_EXCEPTION, None)
  else ret (NOERROR, Some {| mFromStart := fromStart; mLo := lo; mLoInclusive := loInclusive;
                             mToEnd := toEnd; mHi := hi; mHiInclusive := hiInclusive |}).

(** [TooLow] and [TooHigh]. *)
Definition outside s b (key : ref) : M bool :=
  if unbounded s b then ret false
  else c <- Compare key (limit s b) ;; ret (towards s c || ((c =? 0) && negb (inclusive s b))).
Definition TooLow := outside L.
Definition TooHigh := outside R.

Definition InRange b (key : ref) : M bool :=
  lo <- TooLow b key ;; if lo : bool then ret false else hi <- TooHigh b key ;; ret (negb hi).

Definition InClosedRange b (key : ref) : M bool :=
  lo <- (if mFromStart b then ret true else c <- Compare key (mLo b) ;; ret (c >=? 0)) ;;
  if lo : bool then (if mToEnd b then ret true else c <- Compare (mHi b) key ;; ret (c >=? 0)) else ret false.

Definition InRange_inclusive b (key : ref) (incl : bool) : M bool :=
  if incl then InRange b key else InClosedRange b key.

(** ** Entries by the map's order *)

Definition within s b (p : ptr) : M ptr :=
  if decide (p = None) then ret None
  else k <- get p mKey ;; o <- outside s b k ;; ret (if o : bool then None else p).

(** What a search leaves in [e], which is null before; its error is ignored. *)
Definition found (m : M (ECode * option ptr)) : M ptr := r <- m ;; ret (default None (snd r)).

Definition AbsEnd s b : M ptr :=
  e <- (if unbounded s b then extreme s else found (nearest s (inclusive s b) (limit s b))) ;;
  within (flip s) b e.
Definition AbsLowest := AbsEnd L.
Definition AbsHighest := AbsEnd R.

Definition AbsNear s (incl : bool) b (key : ref) : M ptr :=
  o <- outside s b key ;;
  if o : bool then AbsEnd s b
  else e <- found (nearest s incl key) ;; within (flip s) b e.
Definition AbsCeiling := AbsNear L true.
Definition AbsHigher := AbsNear L false.
Definition AbsFloor := AbsNear R true.
Definition AbsLower := AbsNear R false.

Definition AbsFence s b : M ptr :=
  if unbounded s b then ret None else found (nearest (flip s) (negb (inclusive s b)) (limit s b)).
Definition AbsHighFence := AbsFence R.
Definition AbsLowFence := AbsFence L.

(** ** Entries by the view's order *)

Definition turn v s : side := match fst v with R => s | L => flip s end.

Definition SubLowest v : M ptr := match fst v with R => AbsLowest (snd v) | L => AbsHighest (snd v) end.
Definition SubHighest v : M ptr := match fst v with R => AbsHighest (snd v) | L => AbsLowest (snd v) end.
Definition SubCeiling v (key : ref) : M ptr := match fst v with R => AbsCeiling (snd v) key | L => AbsFloor (snd v) key end.
Definition SubHigher v (key : ref) : M ptr := match fst v with R => AbsHigher (snd v) key | L => AbsLower (snd v) key end.
Definition SubFloor v (key : ref) : M ptr := match fst v with R => AbsFloor (snd v) key | L => AbsCeiling (snd v) key end.
Definition SubLower v (key : ref) : M ptr := match fst v with R => AbsLower (snd v) key | L => AbsHigher (snd v) key end.

(** ** The operations of a view *)

Definition sub_null {X} (key : ref) (m : M (ECode * option X)) : M (ECode * option X) :=
  if decide (key = None) then ret (E_NULL_POINTER_EXCEPTION, None) else m.

Definition Sub_ContainsKey v (key : ref) : M (ECode * option bool) :=
  sub_null key (i <- InRange (snd v) key ;; if i : bool then ContainsKey key else ret (NOERROR, Some false)).
Definition Sub_Put v (key value : ref) (out : bool) : M (ECode * option ref) :=
  sub_null key (i <- InRange (snd v) key ;; if i : bool then Put key value out else ret (E_ILLEGAL_ARGUMENT_EXCEPTION, None)).
Definition Sub_Get v (key : ref) : M (ECode * option ref) :=
  sub_null key (i <- InRange (snd v) key ;; if i : bool then Get key else ret (NOERROR, Some None)).
Definition Sub_Remove v (key : ref) (out : bool) : M (ECode * option ref) :=
  sub_null key (i <- InRange (snd v) key ;; if i : bool then Remove key out else ret (NOERROR, stored out None)).

Definition exported (m : M ptr) : M (ECode * option (option (ref * ref))) :=
  p <- m ;; e <- ExportEntry p ;; ret (NOERROR, Some e).
Definition Sub_CeilingEntry v key := exported (SubCeiling v key).
Definition Sub_HigherEntry v key := exported (SubHigher v key).
Definition Sub_FloorEntry v key := exported (SubFloor v key).
Definition Sub_LowerEntry v key := exported (SubLower v key).

Definition key_or_null (m : M ptr) : M (ECode * option ref) :=
  p <- m ;;
  k <- (if decide (p <> None) then get p mKey else ret None) ;; ret (NOERROR, Some k).
Definition Sub_CeilingKey v key := key_or_null (SubCeiling v key).
Definition Sub_HigherKey v key := key_or_null (SubHigher v key).
Definition Sub_FloorKey v key := key_or_null (SubFloor v key).
Definition Sub_LowerKey v key := key_or_null (SubLower v key).

Definition Sub_FirstKey v : M (ECode * option ref) := p <- SubLowest v ;; key_of p.
Definition Sub_LastKey v : M (ECode * option ref) := p <- SubHighest v ;; key_of p.
Definition Sub_FirstEntry v := exported (SubLowest v).
Definition Sub_LastEntry v := exported (SubHighest v).
Definition Sub_PollFirstEntry v := p <- SubLowest v ;; poll p.
Definition Sub_PollLastEntry v := p <- SubHighest v ;; poll p.

(** *** Narrower views

    The outcome of the new view's [Constructor] is ignored. *)

Definition made (d : side) (m : M (ECode * option SubMap)) : M (ECode * option (option (view Obj))) :=
  r <- m ;; ret (NOERROR, Some ((fun b => (d, b)) <$> snd r)).

(** With both bounds given in the view's order. *)
Definition Sub_SubMap v (fromKey : ref) (fromInclusive : bool) (toKey : ref) (toInclusive : bool) :
    M (ECode * option (option (view Obj))) :=
  sub_null fromKey (sub_null toKey (
    i <- InRange_inclusive (snd v) fromKey fromInclusive ;;
    if negb i then ret (E_ILLEGAL_ARGUMENT_EXCEPTION, None)
    else
      i <- InRange_inclusive (snd v) toKey toInclusive ;;
      if negb i then ret (E_ILLEGAL_ARGUMENT_EXCEPTION, None)
      else made (fst v) (match fst v with
             | R => Constructor false fromKey fromInclusive false toKey toInclusive
             | L => Constructor false toKey toInclusive false fromKey fromInclusive
             end))).

(** With a new bound on side [s]. *)
Definition narrow s v (key : ref) (incl : bool) : M (ECode * option (option (view Obj))) :=
  let b := snd v in
  sub_null key (
    i <- InRange b key ;;
    at_limit <- (if i : bool then ret true
                 else if unbounded s b then ret false
                 else c <- Compare key (limit s b) ;;
                      ret ((c =? 0) && negb (inclusive s b) && negb incl)) ;;
    if negb at_limit then ret (E_ILLEGAL_ARGUMENT_EXCEPTION, None)
    else made (fst v) (match s with
           | R => Constructor (mFromStart b) (mLo b) (mLoInclusive b) false key incl
           | L => Constructor false key incl (mToEnd b) (mHi b) (mHiInclusive b)
           end)).
Definition Sub_HeadMap v := narrow (turn v R) v.
Definition Sub_TailMap v := narrow (turn v L) v.

Definition Sub_DescendingMap v : M (ECode * option (option (view Obj))) :=
  let b := snd v in
  made (flip (fst v)) (Constructor (mFromStart b) (mLo b) (mLoInclusive b) (mToEnd b) (mHi b) (mHiInclusive b)).

(** [TreeMap]'s own. *)
Definition DescendingMap : M (ECode * option (option (view Obj))) := made L (Constructor true None true true None true).
Definition SubMap_of (fromKey : ref) (fromInclusive : bool) (toKey : ref) (toInclusive : bool) :=
  made R (Constructor false fromKey fromInclusive false toKey toInclusive).
Definition HeadMap (toKey : ref) (incl : bool) := made R (Constructor true None true false toKey incl).
Definition TailMap (fromKey : ref) (incl : bool) := made R (Constructor false fromKey incl true None true).

(** ** Iterators *)

(** The fence is a key, compared by identity; [None] is [UNBOUNDED]. *)
Record SubMapIterator := {
  mSubNext : ptr;
  mSubLastReturned : ptr;
  mFenceKey : option ref;
  mSubExpectedModCount : Z
}.

Definition new_SubMapIterator (first fence : ptr) : M SubMapIterator :=
  m <- self mModCount ;;
  k <- (if decide (fence = None) then ret None else k <- get fence mKey ;; ret (Some k)) ;;
  ret {| mSubNext := first; mSubLastReturned := None; mFenceKey := k; mSubExpectedModCount := m |}.

(** The iterators towards [d]: of the keys, and of the entry set. *)
Definition iterator_towards (d : side) b : M SubMapIterator :=
  first <- AbsEnd (flip d) b ;; fence <- AbsFence d b ;; new_SubMapIterator first fence.
Definition Sub_GetKeyIterator v := iterator_towards (fst v) (snd v).
Definition Sub_GetDescendingKeyIterator v := iterator_towards (flip (fst v)) (snd v).
Definition Sub_GetIterator v := iterator_towards (fst v) (snd v).

(** It stores the result and has no return. *)
Definition Sub_HasNext (it : SubMapIterator) : M bool := undefined.

(** [NextEntry] towards [R], [PrevEntry] towards [L]. *)
Definition Sub_StepEntry (d : side) (it : SubMapIterator) : M (ECode * option ptr * SubMapIterator) :=
  let e := mSubNext it in
  fenced <- (if decide (e = None) then ret true
             else k <- get e mKey ;; ret (bool_decide (Some k = mFenceKey it))) ;;
  if fenced : bool then ret (E_NO_SUCH_ELEMENT_EXCEPTION, None, it)
  else
    m <- self mModCount ;;
    if decide (m <> mSubExpectedModCount it) then ret (E_CONCURRENT_MODIFICATION_EXCEPTION, None, it)
    else
      q <- neighbour d e ;;
      ret (NOERROR, Some e, {| mSubNext := q; mSubLastReturned := e; mFenceKey := mFenceKey it;
                               mSubExpectedModCount := mSubExpectedModCount it |}).

(** [Next] of the four iterators; [out] tells whether it is given a place for the object. *)
Definition Sub_Next {X} (d : side) (object : ptr -> M X) (out : bool) (it : SubMapIterator) :
    M (ECode * option X * SubMapIterator) :=
  '(ec, e, it) <- Sub_StepEntry d it ;;
  if FAILED ec then ret (ec, None, it)
  else if out then e <- known e ;; x <- object e ;; ret (NOERROR, Some x, it) else undefined.

(** [RemoveAscending] for [R], [RemoveDescending] for [L]. *)
Definition Sub_Iterator_Remove (d : side) (it : SubMapIterator) : M (ECode * SubMapIterator) :=
  if decide (mSubLastReturned it = None) then ret (E_ILLEGAL_STATE_EXCEPTION, it)
  else
    m <- self mModCount ;;
    if decide (m <> mSubExpectedModCount it) then ret (E_CONCURRENT_MODIFICATION_EXCEPTION, it)
    else
      q <- (if decide (d = R) then
              l <- get (mSubLastReturned it) mLeft ;; r <- get (mSubLastReturned it) mRight ;;
              ret (if decide (l <> None /\ r <> None) then mSubLastReturned it else mSubNext it)
            else ret (mSubNext it)) ;;
      DeleteEntry (mSubLastReturned it) ;;;
      m <- self mModCount ;;
      ret (NOERROR, {| mSubNext := q; mSubLastReturned := None; mFenceKey := mFenceKey it; mSubExpectedModCount := m |}).

(** ** Entry sets *)

(** The view of the entries keeps the size it counted. *)
Record EntrySetView := { mViewSize : Z; mSizeModCount : Z }.
Definition new_EntrySetView : EntrySetView := {| mViewSize := -1; mSizeModCount := 0 |}.

(** [while (i->HasNext(&hasNext), hasNext) { mSize++; i->Next(); }] *)
Fixpoint count_entries (n : nat) (d : side) (it : SubMapIterator) (size : Z) : M Z :=
  match n with
  | O => undefined
  | S n =>
      more <- Sub_HasNext it ;;
      if more : bool then
        size <- int (size + 1) ;;
        '(_, _, it) <- Sub_Next d ret false it ;; count_entries n d it size
      else ret size
  end.

Definition EntrySetView_GetSize v (es : EntrySetView) : M (ECode * option Z * EntrySetView) :=
  if mFromStart (snd v) && mToEnd (snd v) then n <- self mSize ;; ret (NOERROR, Some n, es)
  else
    m <- self mModCount ;;
    if (mViewSize es =? -1) || negb (mSizeModCount es =? m) then
      it <- Sub_GetIterator v ;;
      n <- rounds ;;
      size <- count_entries n (fst v) it 0 ;;
      ret (NOERROR, Some size, {| mViewSize := size; mSizeModCount := m |})
    else ret (NOERROR, Some (mViewSize es), es).

Definition EntrySetView_IsEmpty v : M (ECode * option bool) :=
  e <- AbsLowest (snd v) ;;
  b <- (if decide (e = None) then ret true else k <- get e mKey ;; TooHigh (snd v) k) ;;
  ret (NOERROR, Some b).

Definition Sub_GetSize v (es : EntrySetView) : M (ECode * option Z * EntrySetView) :=
  if mFromStart (snd v) && mToEnd (snd v) then n <- self mSize ;; ret (NOERROR, Some n, es)
  else EntrySetView_GetSize v es.

Definition Sub_IsEmpty v : M (ECode * option bool) :=
  if mFromStart (snd v) && mToEnd (snd v) then n <- self mSize ;; ret (NOERROR, Some (n =? 0))
  else EntrySetView_IsEmpty v.

Definition EntrySetView_Contains v (obj : option (ref * ref)) : M (ECode * option bool) :=
  match obj with
  | None => ret (NOERROR, Some false)
  | Some (key, value) =>
      sub_null key (
        i <- InRange (snd v) key ;;
        if negb i then ret (NOERROR, Some false)
        else
          r <- GetEntry key ;;
          if FAILED (fst r) then ret (fst r, None)
          else
            p <- known (snd r) ;;
            if decide (p = None) then ret (NOERROR, Some false)
            else pv <- get p mValue ;; ret (NOERROR, Some (ValEquals pv value)))
  end.

Definition EntrySetView_Remove v (obj : option (ref * ref)) (out : bool) : M (ECode * option bool) :=
  match obj with
  | None => ret (NOERROR, stored out false)
  | Some (key, value) =>
      sub_null key (
        i <- InRange (snd v) key ;;
        if negb i then ret (NOERROR, stored out false)
        else
          r <- GetEntry key ;;
          if FAILED (fst r) then ret (fst r, None)
          else
            p <- known (snd r) ;;
            if decide (p = None) then ret (NOERROR, stored out false)
            else
              pv <- get p mValue ;;
              if ValEquals pv value then DeleteEntry p ;;; ret (NOERROR, stored out true)
              else ret (NOERROR, stored out false))
  end.

End SubMap.

End TreeSubMap.
