(* ===== verification/TreeMapOrder.v ===== *)
(** * The order of keys, and sorted lists of entries

    The specification of the map and of its views, and the integers as keys. *)
From stdpp Require Import gmap sorting.
From S2P Require Import Prelude.
From S2P Require Import ECode.
From S2P Require Import TreeMap.
From S2P Require Import TreeSubMap.

(** ** Ordered entries

    What the map needs of a comparison, and the sorted list of entries that is the
    specification of the map: its operations are filters. *)

Module TreeMapOrder.

Import TreeMap.

(** The documented contract of [IComparable] and [IComparator] on the keys in use:
    comparing them succeeds, with the result of a total preorder. *)
Class KeyOrder {Obj : Type} `{!Objects Obj} (cpr : option Obj) := {
  good : option Obj -> Prop;
  cmp : option Obj -> option Obj -> Z;
  compares k k' : good k -> good k' -> exists ec, FAILED ec = false /\ compare_by cpr k k' = ret (ec, Some (cmp k k'));
  cmp_anti k k' : good k -> good k' -> (cmp k k' < 0 <-> 0 < cmp k' k);
  cmp_trans k1 k2 k3 : good k1 -> good k2 -> good k3 -> cmp k1 k2 <= 0 -> cmp k2 k3 <= 0 -> cmp k1 k3 <= 0
}.

Lemma fmap_rev {A B} (f : A -> B) (l : list A) : f <$> rev l = rev (f <$> l).
Proof. induction l as [|x l IH]; [done|]. cbn [rev]. by rewrite fmap_app, IH. Qed.

Lemma filter_all {A} (P : A -> Prop) `{!forall x, Decision (P x)} l : Forall P l -> filter P l = l.
Proof. induction 1; [done|]. by rewrite filter_cons_True, IHForall. Qed.

Lemma filter_none {A} (P : A -> Prop) `{!forall x, Decision (P x)} l : Forall (fun x => ~ P x) l -> filter P l = [].
Proof. induction 1; [done|]. by rewrite filter_cons_False. Qed.

Section Order.
Context {Obj : Type} `{!Objects Obj} {cpr : option Obj} `{!KeyOrder cpr}.
Notation ref := (option Obj).
Notation item := (option Obj * option Obj)%type.
Implicit Types (s : side) (k : ref) (e : item) (l : list item).

(** [k] is on side [s] of [k']. *)
Definition before s k k' : Prop := towards s (cmp k k') = true.

Lemma towards_spec s z : towards s z = true <-> match s with L => z < 0 | R => 0 < z end.
Proof. destruct s; cbn; lia. Qed.

Lemma cmp_refl k : good k -> cmp k k = 0.
Proof. intros H. pose proof (cmp_anti k k H H). lia. Qed.

Lemma before_flip s k k' : good k -> good k' -> before (flip s) k k' <-> before s k' k.
Proof.
  intros H H'. unfold before. rewrite !towards_spec. pose proof (cmp_anti k k' H H'). pose proof (cmp_anti k' k H' H).
  destruct s; cbn [flip]; lia.
Qed.

Lemma before_trans s k1 k2 k3 : good k1 -> good k2 -> good k3 -> before s k1 k2 -> before s k2 k3 -> before s k1 k3.
Proof.
  intros H1 H2 H3. unfold before. rewrite !towards_spec.
  pose proof (cmp_anti k1 k2 H1 H2). pose proof (cmp_anti k2 k3 H2 H3). pose proof (cmp_anti k1 k3 H1 H3).
  pose proof (cmp_anti k2 k1 H2 H1). pose proof (cmp_anti k3 k2 H3 H2). pose proof (cmp_anti k3 k1 H3 H1).
  pose proof (cmp_trans k1 k2 k3 H1 H2 H3). pose proof (cmp_trans k3 k2 k1 H3 H2 H1).
  pose proof (cmp_trans k2 k3 k1 H2 H3 H1). pose proof (cmp_trans k3 k1 k2 H3 H1 H2).
  pose proof (cmp_trans k1 k3 k2 H1 H3 H2).
  destruct s; lia.
Qed.

(** Keys that compare equal are on the same side of any other. *)
Lemma before_equal s k1 k2 k3 : good k1 -> good k2 -> good k3 -> cmp k1 k2 = 0 -> before s k2 k3 -> before s k1 k3.
Proof.
  intros H1 H2 H3 E. unfold before. rewrite !towards_spec.
  pose proof (cmp_anti k1 k2 H1 H2). pose proof (cmp_anti k2 k3 H2 H3). pose proof (cmp_anti k1 k3 H1 H3).
  pose proof (cmp_anti k2 k1 H2 H1). pose proof (cmp_anti k3 k2 H3 H2). pose proof (cmp_anti k3 k1 H3 H1).
  pose proof (cmp_trans k1 k2 k3 H1 H2 H3). pose proof (cmp_trans k3 k1 k2 H3 H1 H2).
  pose proof (cmp_trans k3 k2 k1 H3 H2 H1). pose proof (cmp_trans k2 k1 k3 H2 H1 H3).
  destruct s; lia.
Qed.

Lemma before_not_flip s k k' : before s k k' -> ~ before (flip s) k k'.
Proof. unfold before. rewrite !towards_spec. destruct s; cbn; lia. Qed.

Lemma before_not_equal s k k' : before s k k' -> cmp k k' <> 0.
Proof. unfold before. rewrite towards_spec. destruct s; lia. Qed.

(** ** Sorted lists, and the map they are *)

(** In order, the first on side [s]. *)
Definition sorted s l : Prop := StronglySorted (fun e e' => before s (fst e) (fst e')) l /\ Forall (fun e => good (fst e)) l.

Lemma sorted_nil s : sorted s [].
Proof. split; constructor. Qed.

Lemma sorted_app s l1 l2 : sorted s (l1 ++ l2) <->
  (forall e1 e2, e1 ∈ l1 -> e2 ∈ l2 -> before s (fst e1) (fst e2)) /\ sorted s l1 /\ sorted s l2.
Proof. unfold sorted. rewrite StronglySorted_app, Forall_app. tauto. Qed.

Lemma sorted_cons s e l : sorted s (e :: l) <->
  Forall (fun e' => before s (fst e) (fst e')) l /\ good (fst e) /\ sorted s l.
Proof.
  unfold sorted. rewrite Forall_cons. split.
  - intros [[? ?]%StronglySorted_inv ?]. tauto.
  - intros (? & ? & ? & ?). split; [by constructor|tauto].
Qed.

Lemma sorted_keys s l l' : fst <$> l = fst <$> l' -> sorted s l -> sorted s l'.
Proof.
  revert l'. induction l as [|e l IH]; intros [|e' l']; try done.
  rewrite !fmap_cons. intros [= He Hl]. rewrite !sorted_cons, <-He. intros (H1 & H2 & H3).
  split; [|by eauto]. apply (Forall_fmap fst (before s (fst e))). rewrite <-Hl. by apply Forall_fmap.
Qed.

Lemma sorted_without s l1 e l2 : sorted s (l1 ++ e :: l2) -> sorted s (l1 ++ l2).
Proof.
  rewrite !sorted_app, sorted_cons. intros (H & H1 & _ & _ & H2). split; [|done].
  intros e1 e2 H3 H4. apply H; [done|by right].
Qed.

Lemma sorted_insert l1 l2 e : sorted L (l1 ++ l2) -> good (fst e) ->
  Forall (fun e' => before L (fst e') (fst e)) l1 -> Forall (fun e' => before R (fst e') (fst e)) l2 -> sorted L (l1 ++ e :: l2).
Proof.
  rewrite !sorted_app, sorted_cons. intros (H & H1 & H2) He Hl1 Hl2. rewrite !Forall_forall in Hl1, Hl2.
  assert (Forall (fun e' => before L (fst e) (fst e')) l2) as Hl.
  { apply Forall_forall. intros e' H'. destruct H2 as [_ Hg]. rewrite Forall_forall in Hg.
    apply (proj2 (before_flip R (fst e) (fst e') He (Hg e' H'))). by apply Hl2. }
  split; [|tauto]. intros e1 e2 H3 [->|H4]%elem_of_cons; [by auto|by auto].
Qed.

Lemma sorted_rev s l : sorted s l -> sorted (flip s) (rev l).
Proof.
  induction l as [|e l IH]; [intros _; apply sorted_nil|]. rewrite sorted_cons. intros (H1 & H2 & H3). cbn [rev].
  apply sorted_app. split; [|split; [auto|]].
  - intros e1 e2 H%list_elem_of_In%in_rev%list_elem_of_In ->%list_elem_of_singleton.
    rewrite Forall_forall in H1. destruct H3 as [_ H3]. rewrite Forall_forall in H3.
    apply before_flip; auto.
  - apply sorted_cons. repeat split; try done; constructor.
Qed.

#[export] Instance before_dec s k k' : Decision (before s k k').
Proof. unfold before. apply _. Defined.

(** The entries on a side of a key, and the entry with the key. *)
Definition beyond s (key : ref) l : list item := filter (fun e => before s (fst e) key) l.
Definition at_key (key : ref) l : option item := head (filter (fun e => cmp key (fst e) = 0) l).

Definition spec_put (key value : ref) l : list item :=
  beyond L key l ++ (default key (fst <$> at_key key l), value) :: beyond R key l.
Definition spec_remove (key : ref) l : list item := beyond L key l ++ beyond R key l.

(** The nearest entry that is not on side [s] of the key, nor equal to it unless
    [inclusive]: the ceiling, the higher, the floor and the lower entry. *)
Definition qualifies s (inclusive : bool) (key : ref) (e : item) : Prop :=
  before s key (fst e) \/ inclusive = true /\ cmp key (fst e) = 0.

#[export] Instance qualifies_dec s inclusive key e : Decision (qualifies s inclusive key e).
Proof. unfold qualifies. apply _. Defined.

Definition spec_nearest s (inclusive : bool) (key : ref) l : option item :=
  head (filter (qualifies s inclusive key) (match s with L => l | R => rev l end)).

(** *** A list split at a key *)

Definition all_before s (key : ref) l : Prop := Forall (fun e => before s (fst e) key) l.

Lemma beyond_all s key l : all_before s key l -> beyond s key l = l.
Proof. apply filter_all. Qed.

Lemma beyond_none s key l : all_before s key l -> beyond (flip s) key l = [].
Proof. intros H. apply filter_none. eapply Forall_impl; [exact H|]. intros e. apply before_not_flip. Qed.

Lemma beyond_app s key l1 l2 : beyond s key (l1 ++ l2) = beyond s key l1 ++ beyond s key l2.
Proof. apply filter_app. Qed.

Lemma at_key_none s key l : good key -> Forall (fun e => good (fst e)) l -> all_before s key l ->
  filter (fun e => cmp key (fst e) = 0) l = [].
Proof.
  intros Hk Hl H. apply filter_none. eapply Forall_impl; [exact (proj2 (Forall_and _ _) (conj Hl H))|].
  intros e [Hg He] E. apply before_not_equal in He. pose proof (cmp_anti key (fst e) Hk Hg). pose proof (cmp_anti (fst e) key Hg Hk). lia.
Qed.

Section Split.
Context (key : ref) (l1 l2 : list item).
Hypothesis Hkey : good key.
Hypothesis Hgood : Forall (fun e => good (fst e)) (l1 ++ l2).
Hypothesis H1 : all_before L key l1.
Hypothesis H2 : all_before R key l2.

Lemma split_beyond s : beyond s key (l1 ++ l2) = match s with L => l1 | R => l2 end.
Proof using H1 H2.
  rewrite beyond_app. pose proof (beyond_none L key l1 H1) as E1. pose proof (beyond_none R key l2 H2) as E2.
  cbn [flip] in E1, E2. destruct s; rewrite ?E1, ?E2, beyond_all by done; [apply app_nil_r|done].
Qed.

Lemma split_at_key : at_key key (l1 ++ l2) = None.
Proof using All.
  apply Forall_app in Hgood as [G1 G2]. unfold at_key.
  by rewrite filter_app, (at_key_none L), (at_key_none R).
Qed.

Lemma found_beyond s e : good (fst e) -> cmp key (fst e) = 0 ->
  beyond s key (l1 ++ e :: l2) = match s with L => l1 | R => l2 end.
Proof using All.
  intros Hg E. rewrite <-(split_beyond s), !beyond_app. f_equal. unfold beyond.
  rewrite filter_cons_False; [done|]. intros Hb. apply before_not_equal in Hb.
  pose proof (cmp_anti key (fst e) Hkey Hg). pose proof (cmp_anti (fst e) key Hg Hkey). lia.
Qed.

Lemma found_at_key e : cmp key (fst e) = 0 -> at_key key (l1 ++ e :: l2) = Some e.
Proof using All.
  intros E. apply Forall_app in Hgood as [G1 G2]. unfold at_key.
  by rewrite filter_app, (at_key_none L), filter_cons_True.
Qed.

End Split.

End Order.

End TreeMapOrder.

(** ** Maps with integer keys

    A concrete choice of the objects a map is given, with their natural order and
    with a comparator for the opposite one, and a map of three of them. *)

Module TreeMapIntegers.

Import TreeMap TreeMapOrder.

(** Integers compare by their difference; the object 0 is also a comparator, of the
    opposite order, which puts null first. *)
Definition difference (a : Z) (b : option Z) : ECode * option Z :=
  match b with Some b => (NOERROR, Some (a - b)) | None => (E_NULL_POINTER_EXCEPTION, None) end.

Definition opposite (a b : option Z) : Z :=
  match a, b with
  | None, None => 0
  | None, Some _ => -1
  | Some _, None => 1
  | Some a, Some b => b - a
  end.

#[export] Instance integers : Objects Z := {|
  is_comparable _ := true;
  CompareTo := difference;
  Comparator_Compare _ a b := (NOERROR, Some (opposite a b));
  Object_Equals a b := bool_decide (b = Some a)
|}.

#[export] Program Instance natural_order : KeyOrder (Obj := Z) None := {|
  good k := k <> None;
  cmp k k' := default 0 k - default 0 k'
|}.
Next Obligation. intros [k|] [k'|] H H'; try done. by exists NOERROR. Qed.
Next Obligation. intros [k|] [k'|] H H'; try done. cbn. lia. Qed.
Next Obligation. intros [k1|] [k2|] [k3|] H1 H2 H3; try done. cbn. lia. Qed.

#[export] Program Instance opposite_order : KeyOrder (Obj := Z) (Some 0) := {|
  good _ := True;
  cmp := opposite
|}.
Next Obligation. intros k k' _ _. by exists NOERROR. Qed.
Next Obligation. intros [k|] [k'|] _ _; cbn; lia. Qed.
Next Obligation. intros [k1|] [k2|] [k3|] _ _ _; cbn; lia. Qed.

Definition entry (k : Z) (l r p : ptr) (c : bool) : TreeMapEntry Z :=
  {| mKey := Some k; mValue := Some (10 * k); mLeft := l; mRight := r; mParent := p; mColor := c |}.

(** The keys 5, 3 and 8, in the natural order. *)
Definition three : world Z := {|
  this := {| mComparator := None; mRoot := Some 1%positive; mSize := 3; mModCount := 3; mKeySet := None; mValues := None |};
  entries := {[ 1%positive := entry 5 (Some 2%positive) (Some 3%positive) None BLACK;
                2%positive := entry 3 None None (Some 1%positive) RED;
                3%positive := entry 8 None None (Some 1%positive) RED ]}
|}.
Definition three_items : list (option Z * option Z) := [(Some 3, Some 30); (Some 5, Some 50); (Some 8, Some 80)].

End TreeMapIntegers.

(** ** The entries in a view

    What the bounds of a view let through, on sorted lists of entries. *)

Module TreeSubMapOrder.

Import TreeMap TreeMapOrder TreeMapIntegers TreeSubMap.

Section Lists.
Context {A : Type}.

(** The first element of a filter by two conditions, of which the second never
    holds again once it has failed. *)
Lemma head_filter_and (P Q : A -> Prop) `{!forall x, Decision (P x)} `{!forall x, Decision (Q x)} (lt : A -> A -> Prop) (l : list A) :
  StronglySorted lt l -> (forall x y, x ∈ l -> y ∈ l -> lt x y -> Q y -> Q x) ->
  head (filter (fun x => P x /\ Q x) l) =
  match head (filter P l) with Some x => if decide (Q x) then Some x else None | None => None end.
Proof.
  induction 1 as [|x l Hl IH Hx]; [done|]. intros HQ.
  assert (forall y, y ∈ l -> y ∈ x :: l) as Hin by (intros; by right).
  rewrite !filter_cons. destruct (decide (P x)) as [HP|HP].
  - destruct (decide (P x /\ Q x)) as [[_ HQx]|HPQ]; cbn [head].
    + by rewrite decide_True.
    + assert (~ Q x) as Hn by tauto. rewrite decide_False by done.
      rewrite (filter_none _ l); [done|]. apply Forall_forall. intros y Hy [_ HQy]. apply Hn.
      rewrite Forall_forall in Hx. apply (HQ x y); [left|by right|by apply Hx|done].
  - rewrite decide_False by tauto. apply IH. intros y z Hy Hz. apply HQ; by auto.
Qed.

Lemma filter_iff_in (P Q : A -> Prop) `{!forall x, Decision (P x)} `{!forall x, Decision (Q x)} (l : list A) :
  (forall x, x ∈ l -> P x <-> Q x) -> filter P l = filter Q l.
Proof.
  induction l as [|x l IH]; [done|]. intros HPQ. rewrite !filter_cons.
  assert (P x <-> Q x) as Hx by (apply HPQ; left). rewrite IH by (intros; apply HPQ; by right).
  by destruct (decide (P x)), (decide (Q x)); try tauto.
Qed.

End Lists.

Lemma towards_flip s z : towards (flip s) z = true <-> match s with L => 0 < z | R => z < 0 end.
Proof. destruct s; cbn; lia. Qed.

Section Facts.
Context {Obj : Type} `{!Objects Obj} {cpr : option Obj} `{!KeyOrder cpr}.

(** What the order says of three keys. *)
Lemma order_facts k1 k2 k3 : good k1 -> good k2 -> good k3 ->
  (cmp k1 k2 < 0 <-> 0 < cmp k2 k1) /\ (cmp k2 k1 < 0 <-> 0 < cmp k1 k2) /\
  (cmp k1 k3 < 0 <-> 0 < cmp k3 k1) /\ (cmp k3 k1 < 0 <-> 0 < cmp k1 k3) /\
  (cmp k2 k3 < 0 <-> 0 < cmp k3 k2) /\ (cmp k3 k2 < 0 <-> 0 < cmp k2 k3) /\
  (cmp k1 k2 <= 0 -> cmp k2 k3 <= 0 -> cmp k1 k3 <= 0) /\ (cmp k3 k2 <= 0 -> cmp k2 k1 <= 0 -> cmp k3 k1 <= 0) /\
  (cmp k2 k3 <= 0 -> cmp k3 k1 <= 0 -> cmp k2 k1 <= 0) /\ (cmp k1 k3 <= 0 -> cmp k3 k2 <= 0 -> cmp k1 k2 <= 0) /\
  (cmp k3 k1 <= 0 -> cmp k1 k2 <= 0 -> cmp k3 k2 <= 0) /\ (cmp k2 k1 <= 0 -> cmp k1 k3 <= 0 -> cmp k2 k3 <= 0).
Proof. intros H1 H2 H3. repeat split; first [by apply cmp_anti | by apply cmp_trans]. Qed.

End Facts.

(** Decides what follows from the order of three keys. *)
Ltac ordering k1 k2 k3 :=
  let H := fresh in
  pose proof (order_facts k1 k2 k3) as H; unfold before in *; rewrite ?towards_flip, ?towards_spec in *;
  cbn [fst snd] in *; intuition lia.

Section Order.
Context {Obj : Type} `{!EqDecision Obj} `{!Objects Obj} {cpr : option Obj} `{!KeyOrder cpr}.
Notation ref := (option Obj).
Notation item := (option Obj * option Obj)%type.
Implicit Types (s : side) (key : ref) (e : item) (l : list item) (b : NavigableSubMap Obj) (v : view Obj).

(** Not beyond the bound on a side; between the bounds. *)
Definition inside s b e : Prop := unbounded s b = true \/ qualifies s (inclusive s b) (limit s b) e.
Definition in_view b e : Prop := inside L b e /\ inside R b e.

#[export] Instance inside_dec s b e : Decision (inside s b e).
Proof. unfold inside. apply _. Defined.
#[export] Instance in_view_dec b e : Decision (in_view b e).
Proof. unfold in_view. apply _. Defined.

(** Bounds the comparison orders; null is none of them. *)
Definition good_bounds b : Prop := forall s, unbounded s b = false -> good (limit s b) /\ limit s b <> None.

(** The lower bound is not above the upper. *)
Definition consistent b : Prop := unbounded L b = false -> unbounded R b = false -> cmp (limit L b) (limit R b) <= 0.

#[export] Instance consistent_dec b : Decision (consistent b).
Proof. unfold consistent. apply _. Defined.

Lemma inside_both s b e : in_view b e <-> inside s b e /\ inside (flip s) b e.
Proof. unfold in_view. destruct s; cbn; tauto. Qed.

(** A condition on one side of a key is kept towards that side's opposite. *)
Lemma qualifies_mono s i key e e' : good key -> good (fst e) -> good (fst e') ->
  before s (fst e) (fst e') -> qualifies s i key e -> qualifies s i key e'.
Proof.
  intros Hk He He' H [Hq|[_ Hq]].
  - left. exact (before_trans s _ _ _ Hk He He' Hq H).
  - left. exact (before_equal s _ _ _ Hk He He' Hq H).
Qed.

(** Either beyond a bound or not. *)
Lemma qualifies_not s i key e : good key -> good (fst e) ->
  qualifies (flip s) (negb i) key e <-> ~ qualifies s i key e.
Proof.
  intros Hk He. unfold qualifies, before. rewrite towards_flip, towards_spec.
  destruct s, i; cbn [negb]; split; intros H; (lia || (destruct (Z.lt_total (cmp key (fst e)) 0) as [|[|]]; intuition lia)).
Qed.

Lemma inside_mono s b e e' : good_bounds b -> good (fst e) -> good (fst e') ->
  before s (fst e) (fst e') -> inside s b e -> inside s b e'.
Proof.
  intros Hb He He' H [Hu|Hq]; [by left|]. destruct (unbounded s b) eqn:E; [by left|]. right.
  apply (qualifies_mono s _ _ e); try done. by apply Hb.
Qed.

(** A key beyond the bound: what is inside is past the key too. *)
Lemma outside_qualifies s i b key e : good_bounds b -> good key -> good (fst e) ->
  ~ inside s b (key, None) -> inside s b e -> qualifies s i key e.
Proof.
  intros Hb Hk He Hn [Hu|Hq]; [destruct Hn; by left|].
  destruct (unbounded s b) eqn:E; [destruct Hn; by left|]. destruct (Hb s E) as [Hl _].
  assert (~ qualifies s (inclusive s b) (limit s b) (key, None)) as Hn' by (intros H; apply Hn; by right).
  apply (qualifies_not s (inclusive s b)) in Hn'; [|done|done]. clear Hn. left. unfold qualifies in *.
  destruct s, (inclusive _ b); cbn [negb] in *; ordering key (limit L b) (fst e) || ordering key (limit R b) (fst e).
Qed.

(** A key not beyond the bound: what is past the key is inside. *)
Lemma inside_qualifies s i b key e : good_bounds b -> good key -> good (fst e) ->
  inside s b (key, None) -> qualifies s i key e -> inside s b e.
Proof.
  intros Hb Hk He [Hu|Hq] H; [by left|]. destruct (unbounded s b) eqn:E; [by left|]. right. destruct (Hb s E) as [Hl _].
  unfold qualifies in *.
  destruct s, (inclusive _ b); ordering key (limit L b) (fst e) || ordering key (limit R b) (fst e).
Qed.

(** What [TooLow] and [TooHigh] return. *)
Lemma outside_bool s b key : good_bounds b -> good key -> unbounded s b = false ->
  towards s (cmp key (limit s b)) || ((cmp key (limit s b) =? 0) && negb (inclusive s b)) =
    bool_decide (~ inside s b (key, None)).
Proof.
  intros Hb Hk E. destruct (Hb s E) as [Hl _]. apply eq_true_iff_eq.
  rewrite bool_decide_eq_true, orb_true_iff, andb_true_iff, negb_true_iff, Z.eqb_eq.
  unfold inside, qualifies, before. rewrite !towards_spec, E. cbn [fst].
  pose proof (cmp_anti key (limit s b) Hk Hl). pose proof (cmp_anti (limit s b) key Hl Hk).
  destruct s, (inclusive _ b); intuition (lia || congruence).
Qed.

End Order.

(** The integers from 3 up to 8, without 8, in ascending or descending order. *)
Definition three_to_eight (d : side) : view Z :=
  (d, {| mFromStart := false; mLo := Some 3; mLoInclusive := true; mToEnd := false; mHi := Some 8; mHiInclusive := false |}).

Lemma three_to_eight_good d : good_bounds (cpr := None) (snd (three_to_eight d)).
Proof. by intros []. Qed.

End TreeSubMapOrder.
