(* ===== verification/TreeMapSearch.v ===== *)
(** * Finding entries

    Walks from entry to entry, and searches for a key. *)
From stdpp Require Import gmap.
From iris.proofmode Require Import proofmode.
From iris.base_logic.lib Require Import ghost_map.
From stdpp Require Import gmap sorting.
From S2P Require Import Prelude.
From S2P Require Import ECode.
From S2P Require Import TreeMap.
From S2P Require Import TreeShape.
From S2P Require Import TreeMapLogic.
From S2P Require Import TreeMapBalance.
From S2P Require Import TreeMapOrder.

(** ** Walking the tree

    The ends, the neighbours of an entry, and where the search for a key ends, by
    the order of the entries. *)

Module TreeMapWalk.

Import TreeMap TreeShape TreeMapLogic TreeMapRotate.

Section Walk.
Context {Obj : Type} `{!EqDecision Obj} `{!Objects Obj}.
Context `{!ghost_mapG Σ positive (TreeMapEntry Obj)} (γ : gname).
Notation M := (SE (world Obj)).
Notation T := (TreeMap Obj).
Notation "a ↦ e" := (cell_at γ a e) (at level 20) : bi_scope.
Notation twp := (twp γ).
Notation tree_at := (tree_at γ).
Notation ctx_at := (ctx_at γ).
Implicit Types (f : T) (cx : list (@frame Obj)) (t y z : @tree Obj).

(** The last entry on a side, with the path to it. *)
Lemma descend_spec s q t n f (Φ : ptr -> T -> iProp Σ) :
  t <> Leaf -> (height t <= n)%nat ->
  tree_at q t -∗
  (∀ cx a c k v y, ⌜t = plug cx (node s a c k v Leaf y) /\ outer s cx = []⌝ -∗ tree_at q t -∗ Φ (Some a) f) -∗
  twp (descend s n (root t)) Φ f.
Proof.
  revert q t. induction n as [|n IH]; intros q t Ht Hn.
  { destruct t; [done|]. cbn in Hn. lia. }
  destruct t as [|a c k v l r]; [done|]. destruct (as_node s a c k v l r) as (x & y & E). rewrite E.
  assert (height x <= n)%nat as Hx.
  { destruct s; injection E as -> ->; cbn in Hn; lia. }
  iIntros "Ht H". rewrite root_node. iEval (rewrite tree_at_node) in "Ht". iDestruct "Ht" as "(Ha & Hx & Hy)".
  unfold descend.
  iApply twp_while_step. tsteps. destruct x as [|xa xc xk xv xl xr]; cbn [root]; tsteps; cbn [fst snd].
  - iApply ("H" $! [] a c k v y with "[//]"). rewrite tree_at_node. iFrame.
  - iApply (IH (Some a) (Node xa xc xk xv xl xr) with "Hx"); [done|done|].
    iIntros (cx a' c' k' v' y') "[%E' %Ho] Hx".
    iApply ("H" $! (cx ++ [Frame s a c k v y]) a' c' k' v' y' with "[%]"); [|rewrite tree_at_node; iFrame].
    rewrite plug_app -E' outer_app outer_near Ho. done.
Qed.

(** The nearest entry beyond side [s] of a subtree. *)
Lemma climb_spec s n cx t f (Φ : ptr -> T -> iProp Σ) :
  (length cx < n)%nat -> t <> Leaf ->
  ctx_at (root t) cx -∗ tree_at (parent_of cx) t -∗
  (ctx_at (root t) cx -∗ tree_at (parent_of cx) t -∗ Φ (first (outer s cx)) f) -∗
  twp (climb s n (parent_of cx) (root t)) Φ f.
Proof.
  unfold climb. iIntros (Hn Ht) "Hcx Ht H". tstep.
  iInduction n as [|n] "IH" forall (cx t Hn Ht); [lia|].
  iApply twp_while_step. destruct cx as [|[s' p c k v sib] cx]; cbn [parent_of].
  { tsteps. cbn [fst snd]. tsteps. iApply ("H" with "Hcx Ht"). }
  cbn [length] in Hn. destruct t as [|x xc xk xv xl xr]; [done|]. set (t := Node x xc xk xv xl xr).
  iDestruct "Ht" as "(Hx & Hl & Hr)". iDestruct "Hcx" as "(Hp & Hsib & Hcx)".
  iDestruct (tree_ne with "Hx Hsib") as %Hne. iSimpl in "Hp".
  iAssert (tree_at (Some p) t) with "[$Hx $Hl $Hr]" as "Ht".
  destruct (side_cases s s') as [->| ->].
  - iPoseProof ("IH" $! cx (node s p c k v t sib) with "[%] [%]") as "IH'"; [lia|by destruct s|].
    iEval (rewrite root_node tree_at_node) in "IH'". tsteps. cbn [fst snd].
    iApply ("IH'" with "Hcx [$Hp $Ht $Hsib]"). iIntros "Hcx (Hp & Ht & Hsib)". rewrite outer_near.
    iApply ("H" with "[$Hp $Hsib $Hcx] Ht").
  - iEval (rewrite mk_flip) in "Hp". tsteps. cbn [fst snd]. tsteps. cbn [fst]. rewrite outer_flip. cbn [first].
    iApply ("H" with "[Hp $Hsib $Hcx] Ht"). by rewrite mk_flip.
Qed.

(** Reading an entry of the tree. *)
Lemma tree_cell q t a k v : (a, (k, v)) ∈ inorder L t ->
  tree_at q t -∗ ∃ e, ⌜mKey e = k /\ mValue e = v⌝ ∗ a ↦ e ∗ (a ↦ e -∗ tree_at q t).
Proof.
  revert q. induction t as [|b c k' v' l IHl r IHr]; intros q; cbn.
  { by intros ?%not_elem_of_nil. }
  iIntros ([H|[[= <- <- <-]|H]%elem_of_cons]%elem_of_app) "(Hb & Hl & Hr)".
  - iDestruct (IHl with "Hl") as (e He) "[Ha Hl]"; [done|]. iExists e. iFrame "Ha". iSplit; [done|].
    iIntros "Ha". iFrame. by iApply "Hl".
  - iExists _. iFrame "Hb". iSplit; [done|]. iIntros "Hb". iFrame.
  - iDestruct (IHr with "Hr") as (e He) "[Ha Hr]"; [done|]. iExists e. iFrame "Ha". iSplit; [done|].
    iIntros "Ha". iFrame. by iApply "Hr".
Qed.

(** The map object [f] with the tree [t]. *)
Definition map_at f t : iProp Σ :=
  ⌜mRoot f = root t /\ mSize f = Z.of_nat (size t)⌝ ∗ tree_at None t.

Lemma extreme_spec s t f (Φ : ptr -> T -> iProp Σ) :
  map_at f t -∗ (map_at f t -∗ Φ (first (inorder s t)) f) -∗ twp (extreme s) Φ f.
Proof.
  iIntros "[[%Hr %Hn] Ht] H". unfold extreme, rounds. tsteps. rewrite Hr.
  destruct (decide (root t = None)) as [Hne|Hne].
  { destruct t; [|done]. cbn [root]. tsteps. replace (@first Obj (inorder s Leaf)) with (@None positive) by by destruct s.
    iApply "H". by iFrame. }
  tsteps. iApply (descend_spec with "Ht"); [by destruct t| |].
  { pose proof (height_size t). lia. }
  iIntros (cx a c k v y [E Ho]) "Ht".
  replace (Some a) with (first (inorder s t)) by (by rewrite E inorder_plug Ho inorder_near; destruct s).
  iApply "H". by iFrame.
Qed.

Lemma neighbour_spec s t l1 a kv l2 f (Φ : ptr -> T -> iProp Σ) :
  inorder (flip s) t = l1 ++ (a, kv) :: l2 -> (size t <= Z.to_nat (mSize f) + 2)%nat ->
  tree_at None t -∗ (tree_at None t -∗ Φ (first l2) f) -∗ twp (neighbour s (Some a)) Φ f.
Proof.
  destruct kv as [k v].
  iIntros ((cx & c & y & x & -> & _ & ->)%split_tree Hn) "Ht H". rewrite node_flip flip_flip in Hn |- *.
  iEval (rewrite tree_plug root_node tree_at_node) in "Ht". iDestruct "Ht" as "[Hcx (Ha & Hx & Hy)]".
  rewrite size_plug in Hn. pose proof (length_outer cx) as Hl.
  assert (size x < size (node s a c k v x y))%nat as Hsx by (destruct s; cbn [node]; rewrite size_Node; lia).
  unfold neighbour, rounds. tsteps. destruct (decide (root x = None)) as [Hx|Hx].
  - destruct x; [|done]. tsteps.
    iPoseProof (climb_spec s _ cx (node s a c k v Leaf y)) as "Hc"; [|by destruct s|].
    { instantiate (1 := (Z.to_nat (mSize f) + 3)%nat). lia. }
    iEval (rewrite root_node tree_at_node) in "Hc". iApply ("Hc" with "Hcx [$Ha $Hx $Hy]").
    iIntros "Hcx Ht". replace (inorder (flip s) Leaf ++ outer s cx) with (outer s cx) by by destruct s.
    iApply "H". rewrite tree_plug root_node tree_at_node. iFrame.
  - tsteps. iApply (descend_spec (flip s) (Some a) x with "Hx"); [by destruct x|pose proof (height_size x); lia|].
    iIntros (cx' b c' k' v' z [E Ho]) "Hx". rewrite E inorder_plug Ho inorder_near.
    cbn [rev app]. replace (inorder (flip s) (@Leaf Obj)) with (@nil (@cell Obj)) by by destruct s. cbn [app first].
    iApply "H". rewrite tree_plug root_node tree_at_node. rewrite -E. iFrame.
Qed.

End Walk.

End TreeMapWalk.

(** ** Searching the tree

    The path a key takes down an ordered tree, and what the searches find on it. *)

Module TreeMapSearch.

Import TreeMap TreeShape TreeMapOrder TreeMapLogic TreeMapRotate TreeMapWalk.

(** ** Paths *)

Section Paths.
Context {Obj : Type} `{!Objects Obj} {cpr : option Obj} `{!KeyOrder cpr}.
Notation ref := (option Obj).
Implicit Types (cx : list (@frame Obj)) (t x y : @tree Obj) (key k v : ref).

Definition ordered t : Prop := sorted L (snd <$> inorder L t).

(** On its way down the key has passed the entries around the path. *)
Definition located key cx : Prop := forall s, all_before s key (snd <$> outer s cx).

Lemma ordered_side s t : ordered t -> sorted s (snd <$> inorder s t).
Proof.
  unfold ordered. destruct s; [done|]. intros H%sorted_rev. change R with (flip L).
  by rewrite inorder_flip fmap_rev.
Qed.

Lemma ordered_sub s cx t : ordered (plug cx t) -> sorted s (snd <$> inorder s t).
Proof.
  intros H%(ordered_side s). rewrite inorder_plug !fmap_app in H.
  apply sorted_app in H as (_ & _ & H). by apply sorted_app in H as (_ & H & _).
Qed.

Lemma ordered_node s cx a c k v x y : ordered (plug cx (node s a c k v x y)) ->
  good k /\ (forall e, e ∈ snd <$> inorder s y -> good (fst e) /\ before s k (fst e)) /\
  (forall e, e ∈ snd <$> inorder s x -> good (fst e) /\ before s (fst e) k).
Proof.
  intros H%(ordered_sub s). rewrite inorder_near fmap_app fmap_cons in H.
  apply sorted_app in H as (Hx & [_ Gx] & H). apply sorted_cons in H as (Hy & Hk & [_ Gy]).
  rewrite !Forall_forall in Gx Gy Hy. split; [done|]. split; [by auto|].
  intros e He. split; [by auto|]. apply (Hx e (k, v)); [done|left].
Qed.

Lemma located_nil key : located key [].
Proof. intros s. constructor. Qed.

Lemma located_step s key cx a c k v x y :
  ordered (plug cx (node s a c k v x y)) -> good key -> before s key k -> located key cx ->
  located key (Frame s a c k v y :: cx).
Proof.
  intros (Hk & Hy & _)%ordered_node Hkey Hb Hcx s'. destruct (side_cases s s') as [->| ->].
  - rewrite outer_near. apply Hcx.
  - rewrite outer_far. cbn. apply Forall_cons. split; [by apply before_flip|].
    rewrite fmap_app. apply Forall_app. split; [|apply Hcx]. apply Forall_forall. intros e [Hg He]%Hy.
    apply before_flip; [done|done|]. exact (before_trans s _ _ _ Hkey Hk Hg Hb He).
Qed.

(** The sorted list split where the key is. *)
Lemma located_items key cx t : located key cx ->
  snd <$> inorder L (plug cx t) = (snd <$> rev (outer L cx)) ++ (snd <$> inorder L t) ++ (snd <$> outer R cx) /\
  all_before L key (snd <$> rev (outer L cx)) /\ all_before R key (snd <$> outer R cx).
Proof.
  intros H. rewrite (inorder_plug L) !fmap_app. split; [done|]. split; [|apply (H R)].
  unfold all_before. rewrite fmap_rev. apply Forall_rev, (H L).
Qed.

(** *** The nearest entry *)

(** The entries around the path, on side [s] too far and on the other not. *)
Definition closing s inclusive key cx : Prop :=
  Forall (fun c : @cell Obj => ~ qualifies s inclusive key (snd c)) (outer s cx) /\
  Forall (fun c : @cell Obj => qualifies s inclusive key (snd c)) (outer (flip s) cx).

Definition nearest_of s inclusive key (l : list (@cell Obj)) : ptr :=
  first (filter (fun c => qualifies s inclusive key (snd c)) l).

Lemma qualifies_far s inclusive key k e : good key -> good k -> good (fst e) ->
  before s key k -> before s k (fst e) -> qualifies s inclusive key e.
Proof. intros Hkey Hk He H1 H2. left. exact (before_trans s _ _ _ Hkey Hk He H1 H2). Qed.

Lemma not_qualifies_near s inclusive key k e : good key -> good k -> good (fst e) ->
  ~ before s key k -> before s (fst e) k -> ~ qualifies s inclusive key e.
Proof.
  intros Hkey Hk He H1 H2 Hq. apply H1. destruct Hq as [Hq|[_ Hq]].
  - exact (before_trans s _ _ _ Hkey He Hk Hq H2).
  - exact (before_equal s _ _ _ Hkey He Hk Hq H2).
Qed.

Section Closing.
Context (s : side) (inclusive : bool) (key : ref) (cx : list (@frame Obj)).
Context (a : positive) (c : bool) (k v : ref) (x y : @tree Obj).
Hypothesis Ho : ordered (plug cx (node s a c k v x y)).
Hypothesis Hkey : good key.
Hypothesis Hcx : closing s inclusive key cx.

Lemma near_qualify : ~ before s key k ->
  Forall (fun c : @cell Obj => ~ qualifies s inclusive key (snd c)) (inorder s x).
Proof using Ho Hkey.
  intros H. apply ordered_node in Ho as (Hk & _ & Hx). apply Forall_forall. intros d Hd.
  destruct (Hx (snd d)) as [Hg Hb]; [by apply list_elem_of_fmap_2|]. exact (not_qualifies_near s inclusive key k (snd d) Hkey Hk Hg H Hb).
Qed.

Lemma closing_near : before s key k -> closing s inclusive key (Frame s a c k v y :: cx).
Proof using All.
  intros H. destruct Hcx as [H1 H2]. apply ordered_node in Ho as (Hk & Hy & _).
  split; [by rewrite outer_near|]. rewrite outer_far. apply Forall_cons. split; [by left|].
  apply Forall_app. split; [|done]. apply Forall_forall. intros d Hd.
  destruct (Hy (snd d)) as [Hg Hb]; [by apply list_elem_of_fmap_2|]. exact (qualifies_far s inclusive key k (snd d) Hkey Hk Hg H Hb).
Qed.

Lemma closing_far : ~ qualifies s inclusive key (k, v) -> ~ before s key k ->
  closing s inclusive key (Frame (flip s) a c k v x :: cx).
Proof using All.
  intros Hq H. destruct Hcx as [H1 H2]. split.
  - rewrite outer_flip. apply Forall_cons. split; [done|]. apply Forall_app. split; [|done].
    rewrite inorder_flip. by apply Forall_rev, near_qualify.
  - by rewrite outer_near.
Qed.

Notation nearest l := (nearest_of s inclusive key l).

(** Where the search stops: at the entry, or beyond it. *)
Lemma nearest_here : qualifies s inclusive key (k, v) ->
  Forall (fun c : @cell Obj => ~ qualifies s inclusive key (snd c)) (inorder s x) ->
  nearest (inorder s (plug cx (node s a c k v x y))) = Some a.
Proof using Hcx.
  intros Hq Hx. destruct Hcx as [H1 _]. unfold nearest_of.
  rewrite inorder_plug inorder_near !filter_app (filter_none _ (rev _)); [|by apply Forall_rev].
  by rewrite (filter_none _ (inorder s x)) // filter_cons_True.
Qed.

Lemma nearest_beyond : ~ qualifies s inclusive key (k, v) -> ~ before s key k -> y = Leaf ->
  nearest (inorder s (plug cx (node s a c k v x y))) = first (outer (flip s) cx).
Proof using All.
  intros Hq H Ey. destruct Hcx as [H1 H2]. unfold nearest_of.
  rewrite inorder_plug inorder_near !filter_app (filter_none _ (rev _)); [|by apply Forall_rev].
  rewrite (filter_none _ (inorder s x)); [|by apply near_qualify]. rewrite filter_cons_False //.
  replace (inorder s y) with (@nil (@cell Obj)) by (rewrite Ey; by destruct s).
  by rewrite (filter_all _ (outer _ _)).
Qed.

End Closing.

End Paths.

(** ** The loops *)

Section Search.
Context {Obj : Type} `{!EqDecision Obj} `{!Objects Obj} {cpr : option Obj} `{!KeyOrder cpr}.
Context `{!ghost_mapG Σ positive (TreeMapEntry Obj)} (γ : gname).
Notation ref := (option Obj).
Notation M := (SE (world Obj)).
Notation T := (TreeMap Obj).
Notation "a ↦ e" := (cell_at γ a e) (at level 20) : bi_scope.
Notation twp := (twp γ).
Notation tree_at := (tree_at γ).
Notation ctx_at := (ctx_at γ).
Implicit Types (f : T) (cx : list (@frame Obj)) (t y z : @tree Obj) (key : ref).

Lemma compare_by_spec k k' f (Φ : ECode * option Z -> T -> iProp Σ) :
  good k -> good k' -> (∀ ec, Φ (ec, Some (cmp k k')) f) -∗ twp (compare_by cpr k k') Φ f.
Proof.
  iIntros (H H') "HΦ". destruct (compares k k' H H') as (ec & _ & E). rewrite E. iApply twp_ret. iApply "HΦ".
Qed.

Lemma Compare_spec k k' f (Φ : Z -> T -> iProp Σ) :
  mComparator f = cpr -> good k -> good k' -> Φ (cmp k k') f -∗ twp (Compare k k') Φ f.
Proof.
  iIntros (Hf H H') "HΦ". unfold Compare. tsteps. rewrite Hf. iApply (compare_by_spec k k'); [done..|].
  iIntros (ec). cbn [snd known]. by tsteps.
Qed.

(** The path ends at an entry with the key or at an empty subtree. *)
Definition ends_at key t : Prop := t = Leaf \/ exists a c k v l r, t = Node a c k v l r /\ cmp key k = 0.

Lemma GetEntry_loop_spec n key cx t f (Φ : ptr -> T -> iProp Σ) :
  (height t < n)%nat -> ordered (plug cx t) -> good key -> located key cx ->
  ctx_at (root t) cx -∗ tree_at (parent_of cx) t -∗
  (∀ cx' u, ⌜plug cx' u = plug cx t /\ located key cx' /\ ends_at key u⌝ -∗
    ctx_at (root u) cx' -∗ tree_at (parent_of cx') u -∗ Φ (root u) f) -∗
  twp (GetEntry_loop n cpr key (root t)) Φ f.
Proof.
  unfold GetEntry_loop. revert cx t. induction n as [|n IH]; [lia|]. intros cx t Hn Ho Hk Hl.
  iIntros "Hcx Ht H". iApply twp_while_step. destruct t as [|a c k v l r].
  { cbn [root]. tsteps. cbn [fst snd]. iApply ("H" $! cx Leaf with "[%] Hcx Ht"). by repeat split; [..|left]. }
  cbn [height] in Hn. iDestruct "Ht" as "(Ha & Hl & Hr)". cbn [root]. tsteps.
  destruct (ordered_node L cx a c k v l r Ho) as (Gk & _).
  iApply (compare_by_spec key k); [done..|]. iIntros (ec). cbn [snd known]. tsteps.
  destruct (cmp key k <? 0) eqn:E1; [|destruct (cmp key k >? 0) eqn:E2]; tsteps; cbn [fst snd].
  - iApply (IH (Frame L a c k v r :: cx) l with "[$Ha $Hr $Hcx] Hl"); [lia|done|done|by apply (located_step L _ _ _ _ _ _ l)|].
    iIntros (cx' u (E & H)). iApply ("H" with "[%]"). split; [by rewrite E|done].
  - iApply (IH (Frame R a c k v l :: cx) r with "[$Ha $Hl $Hcx] Hr"); [lia|done|done|by apply (located_step R _ _ _ _ _ _ r)|].
    iIntros (cx' u (E & H)). iApply ("H" with "[%]"). split; [by rewrite E|done].
  - iApply ("H" $! cx (Node a c k v l r) with "[%] Hcx [$Ha $Hl $Hr]"). repeat split; [done|].
    right. exists a, c, k, v, l, r. split; [done|lia].
Qed.

(** Where a new entry goes, after the loop of [Put]. *)
Definition open_at cx (parent : ptr) (c : option Z) : Prop :=
  exists s a col k v sib cx' d, cx = Frame s a col k v sib :: cx' /\ parent = Some a /\
    c = Some d /\ s = (if d <? 0 then L else R).

Lemma Put_loop_spec n key cx t par c f (Φ : ptr * ptr * option Z -> T -> iProp Σ) :
  (height t < n)%nat -> ordered (plug cx t) -> good key -> located key cx -> t <> Leaf ->
  ctx_at (root t) cx -∗ tree_at (parent_of cx) t -∗
  (∀ cx' u par' c', ⌜plug cx' u = plug cx t /\ located key cx' /\ ends_at key u /\ (u = Leaf -> open_at cx' par' c')⌝ -∗
    ctx_at (root u) cx' -∗ tree_at (parent_of cx') u -∗ Φ (root u, par', c') f) -∗
  twp (while n (fun '(t, _, cmp) =>
    let parent := t in
    tk <- get t mKey ;;
    r <- compare_by cpr key tk ;;
    let cmp := assigned r cmp in
    c <- known cmp ;;
    if c <? 0 then t <- get t mLeft ;; ret (t, parent, cmp, bool_decide (t <> None))
    else if c >? 0 then t <- get t mRight ;; ret (t, parent, cmp, bool_decide (t <> None))
    else ret (t, parent, cmp, false)) (root t, par, c)) Φ f.
Proof.
  revert cx t par c. induction n as [|n IH]; [lia|]. intros cx t par c Hn Ho Hk Hl Ht.
  iIntros "Hcx Ht H". iApply twp_while_step. destruct t as [|a col k v l r]; [done|].
  cbn [height] in Hn. iDestruct "Ht" as "(Ha & Hl & Hr)". cbn [root]. tsteps.
  destruct (ordered_node L cx a col k v l r Ho) as (Gk & _).
  iApply (compare_by_spec key k); [done..|]. iIntros (ec). cbn [snd assigned known]. tsteps.
  destruct (cmp key k <? 0) eqn:E1; [|destruct (cmp key k >? 0) eqn:E2]; tsteps; cbn [fst snd].
  - assert (located key (Frame L a col k v r :: cx)) as Hl' by by apply (located_step L _ _ _ _ _ _ l).
    iAssert (ctx_at (root l) (Frame L a col k v r :: cx)) with "[$Ha $Hr $Hcx]" as "Hcx".
    destruct l as [|la lc lk lv ll lr]; cbn [root bool_decide decide_rel].
    + iApply ("H" $! (Frame L a col k v r :: cx) Leaf with "[%] Hcx Hl"). repeat split; [done|by left|].
      intros _. exists L, a, col, k, v, r, cx, (cmp key k). by rewrite E1.
    + iApply (IH (Frame L a col k v r :: cx) (Node la lc lk lv ll lr) with "Hcx Hl"); [lia|done..|].
      iIntros (cx' u par' c' (E & H)). iApply ("H" with "[%]"). split; [by rewrite E|done].
  - assert (located key (Frame R a col k v l :: cx)) as Hl' by by apply (located_step R _ _ _ _ _ _ r).
    iAssert (ctx_at (root r) (Frame R a col k v l :: cx)) with "[$Ha $Hl $Hcx]" as "Hcx".
    destruct r as [|ra rc rk rv rl rr]; cbn [root bool_decide decide_rel].
    + iApply ("H" $! (Frame R a col k v l :: cx) Leaf with "[%] Hcx Hr"). repeat split; [done|by left|].
      intros _. exists R, a, col, k, v, l, cx, (cmp key k). by rewrite E1.
    + iApply (IH (Frame R a col k v l :: cx) (Node ra rc rk rv rl rr) with "Hcx Hr"); [lia|done..|].
      iIntros (cx' u par' c' (E & H)). iApply ("H" with "[%]"). split; [by rewrite E|done].
  - iApply ("H" $! cx (Node a col k v l r) with "[%] Hcx [$Ha $Hl $Hr]"). repeat split; [done| |done].
    right. exists a, col, k, v, l, r. split; [done|lia].
Qed.

Lemma towards_before s k k' : towards s (cmp k k') = bool_decide (before s k k').
Proof. case_bool_decide as H; [done|]. by apply not_true_is_false. Qed.

Lemma nearest_loop s inclusive m n key cx t f (Φ : ptr -> T -> iProp Σ) :
  (height t <= m)%nat -> (length cx + height t <= n)%nat -> t <> Leaf ->
  ordered (plug cx t) -> good key -> closing s inclusive key cx -> mComparator f = cpr ->
  ctx_at (root t) cx -∗ tree_at (parent_of cx) t -∗
  (tree_at None (plug cx t) -∗ Φ (nearest_of s inclusive key (inorder s (plug cx t))) f) -∗
  twp (while m (fun p =>
         if decide (p = None) then ret (p, false)
         else pk <- get p mKey ;;
              cmp <- Compare key pk ;;
              if towards s cmp then
                q <- get p (child s) ;;
                if decide (q = None) then ret (p, false) else ret (q, true)
              else if towards (flip s) cmp || negb inclusive then
                q <- get p (child (flip s)) ;;
                if decide (q = None)
                then g <- get p mParent ;; e <- climb (flip s) n g p ;; ret (e, false)
                else ret (q, true)
              else ret (p, false)) (root t)) Φ f.
Proof.
  revert cx t. induction m as [|m IH]; intros cx t Hm Hn Ht Ho Hk Hc Hf.
  { destruct t; [done|]. cbn in Hm. lia. }
  iIntros "Hcx Ht H". iApply twp_while_step. destruct t as [|a c k v l r]; [done|].
  destruct (as_node s a c k v l r) as (x & y & E). cbn [height] in Hm, Hn. rewrite E. rewrite E in Ho.
  assert (height x <= m /\ height y <= m /\ length cx + S (height x) <= n /\ length cx + S (height y) <= n)%nat as Hh.
  { destruct s; injection E as -> ->; lia. }
  clear E Hm Hn. rewrite root_node. iEval (rewrite tree_at_node) in "Ht". iDestruct "Ht" as "(Ha & Hx & Hy)".
  destruct (ordered_node s cx a c k v x y Ho) as (Gk & _). tsteps.
  iApply (Compare_spec key k); [done..|]. rewrite !towards_before.
  destruct (decide (before s key k)) as [Hb|Hb].
  { rewrite (bool_decide_eq_true_2 _ Hb). destruct (decide (root x = None)) as [Hx|Hx].
    - tsteps. cbn [fst snd]. destruct x; [|done].
      rewrite (nearest_here s inclusive key cx a c k v Leaf y); [|done|by left|by destruct s; constructor].
      iApply "H". rewrite tree_plug root_node tree_at_node. iFrame.
    - tsteps. cbn [fst snd].
      iApply (IH (Frame s a c k v y :: cx) x with "[$Ha $Hy $Hcx] Hx"); [cbn; lia..|by destruct x|done|done|
        by apply (closing_near s inclusive key cx a c k v x y)|done|done]. }
  rewrite (bool_decide_eq_false_2 _ Hb).
  destruct (decide (qualifies s inclusive key (k, v))) as [Hq|Hq].
  { replace (bool_decide (before (flip s) key k) || negb inclusive) with false.
    - tsteps. cbn [fst snd].
      rewrite (nearest_here s inclusive key cx a c k v x y); [|done|done|exact (near_qualify s inclusive key cx a c k v x y Ho Hk Hb)].
      iApply "H". rewrite tree_plug root_node tree_at_node. iFrame.
    - destruct Hq as [Hq|[-> Hq]]; [done|]. cbn in Hq. rewrite orb_false_r. symmetry.
      apply bool_decide_eq_false. intros H'. by apply before_not_equal in H'. }
  replace (bool_decide (before (flip s) key k) || negb inclusive) with true.
  2:{ symmetry. destruct inclusive; [|by rewrite orb_true_r]. rewrite orb_false_r. apply bool_decide_eq_true.
      unfold qualifies in Hq. cbn in Hq. unfold before in *. rewrite -> !towards_spec in *. destruct s; cbn; lia. }
  destruct (decide (root y = None)) as [Hy|Hy].
  - tsteps. destruct y; [|done].
    iPoseProof (climb_spec _ (flip s) n cx (node s a c k v x Leaf)) as "Hc"; [lia|by destruct s|].
    iEval (rewrite root_node tree_at_node) in "Hc". iApply ("Hc" with "Hcx [$Ha $Hx $Hy]"). iIntros "Hcx Ht".
    tsteps. cbn [fst snd]. rewrite (nearest_beyond s inclusive key cx a c k v x Leaf); [|done..].
    iApply "H". rewrite tree_plug root_node tree_at_node. iFrame.
  - tsteps. cbn [fst snd].
    iPoseProof (IH (Frame (flip s) a c k v x :: cx) y) as "IH"; [cbn; lia..|by destruct y|cbn; by rewrite node_flip|done|
        by apply (closing_far s inclusive key cx a c k v x y)|done|].
    iEval (cbn [plug]; rewrite node_flip) in "IH". iApply ("IH" with "[Ha $Hx $Hcx] Hy H"). by rewrite mk_flip.
Qed.

End Search.

End TreeMapSearch.
