(* ===== verification/TreeMapSpecs.v ===== *)
(** * The functions of the map

    [TreeMapUpdate] states what insertion and deletion do to a tree, [TreeMapSpecs]
    what every function does to the list of entries. *)
From stdpp Require Import gmap sorting.
From iris.proofmode Require Import proofmode.
From iris.base_logic.lib Require Import ghost_map.
From S2P Require Import Prelude.
From S2P Require Import ECode.
From S2P Require Import TreeMap.
From S2P Require Import TreeShape.
From S2P Require Import TreeMapOrder.
From S2P Require Import TreeMapLogic.
From S2P Require Import TreeMapBalance.
From S2P Require Import TreeMapSearch.

(** ** Putting and deleting entries

    What [Put] and [DeleteEntry] do to an ordered and balanced tree. *)

Module TreeMapUpdate.

Import TreeMap TreeShape TreeMapOrder TreeMapLogic TreeMapRotate TreeMapInsert TreeMapDelete TreeMapWalk TreeMapSearch.

Section Delete.
Context {Obj : Type} `{!EqDecision Obj} `{!Objects Obj}.
Context `{!ghost_mapG Σ positive (TreeMapEntry Obj)} (γ : gname).
Notation M := (SE (world Obj)).
Notation T := (TreeMap Obj).
Notation "a ↦ e" := (cell_at γ a e) (at level 20) : bi_scope.
Notation twp := (twp γ).
Notation tree_at := (tree_at γ).
Notation ctx_at := (ctx_at γ).
Implicit Types (f : T) (cx : list (@frame Obj)) (t y z l r : @tree Obj) (k v : option Obj).

Lemma root_of_cons (cx : list (@frame Obj)) p q : cx <> [] -> root_of cx p = root_of cx q.
Proof. by destruct cx as [|[]]. Qed.

(** The two ways to take an entry off its parent. *)
Lemma relink_entry cx p q e f (Φ : unit -> T -> iProp Σ) :
  mRoot f = root_of cx (Some p) -> mParent e = parent_of cx ->
  p ↦ e -∗ ctx_at (Some p) cx -∗
  (p ↦ e -∗ ctx_at q cx -∗ Φ tt (with_root (root_of cx q) f)) -∗
  twp (relink (Some p) q) Φ f.
Proof.
  iIntros (Hroot He) "Hp Hcx H". unfold relink. tsteps. rewrite He.
  destruct cx as [|[s g c k v sib] cx]; cbn [parent_of].
  - tsteps. iApply ("H" with "Hp Hcx").
  - iDestruct "Hcx" as "(Hg & Hs & Hcx)". iDestruct (tree_ne with "Hp Hs") as %Hne. iSimpl in "Hg".
    cbn in Hroot. rewrite -{2}(with_root_id f) Hroot.
    destruct s; tsteps;
      iApply ("H" with "Hp"); cbn; iFrame.
Qed.

Lemma unlink_entry cx p e f (Φ : unit -> T -> iProp Σ) :
  cx <> [] ->
  p ↦ e -∗ ctx_at (Some p) cx -∗ (ctx_at None cx -∗ Φ tt f) -∗
  twp (gl <- get (parent_of cx) mLeft ;;
       (if decide (Some p = gl) then put (parent_of cx) (set_child L None)
        else gr <- get (parent_of cx) mRight ;;
             if decide (Some p = gr) then put (parent_of cx) (set_child R None) else ret tt) ;;;
       put (Some p) (set_parent None)) Φ f.
Proof.
  iIntros (Hne) "Hp Hcx H". destruct cx as [|[s g c k v sib] cx]; [done|]; cbn [parent_of].
  iDestruct "Hcx" as "(Hg & Hs & Hcx)". iDestruct (tree_ne with "Hp Hs") as %Hne'. iSimpl in "Hg".
  destruct s; tsteps; iApply "H"; iFrame.
Qed.

(** An entry with one child at most; by the balance the child is red and alone. *)
Lemma only_child n s p c k v y cx : accepts c n cx -> rb n (node s p c k v Leaf y) -> y <> Leaf ->
  c = BLACK /\ n = 1%nat /\ color y = RED /\ rb 0 y.
Proof.
  intros Hc Hn Hy. destruct c.
  - destruct n as [|n]; [by destruct s|]. apply rb_black in Hn as [Hl Hr]. cbn in Hl. subst n.
    split; [done|]. split; [done|]. split; [|done]. destruct (color y) eqn:E; [|done]. by apply rb_zero_black in Hr.
  - apply rb_red in Hn as [[_ Hcy] [Hl Hr]]. cbn in Hl. subst n. by apply rb_zero_black in Hr.
Qed.

Lemma unlink_with_child n s p k v y cx f (Φ : unit -> T -> iProp Σ) :
  (0 < n)%nat -> color y = RED -> rb 0 y -> accepts BLACK 1 cx -> mRoot f = root_of cx (Some p) ->
  ctx_at (Some p) cx -∗ tree_at (parent_of cx) (node s p BLACK k v Leaf y) -∗
  (∀ t, ⌜balanced t /\ inorder L t = inorder L (plug cx y)⌝ -∗ tree_at None t -∗ Φ tt (with_root (root t) f)) -∗
  twp (DeleteEntry_unlink n (Some p)) Φ f.
Proof.
  iIntros (Hn Hcy Hy Hcx Hroot) "Hcx Ht H".
  destruct (rb_red_sibling _ _ Hy Hcy L) as (b & kb & vb & y1 & y2 & -> & Hc & Hy12).
  iEval (rewrite tree_at_node root_node) in "Ht". iDestruct "Ht" as "(Hp & _ & Hy)".
  iEval (rewrite tree_at_node) in "Hy". iDestruct "Hy" as "(Hb & Hy)". cbn [root].
  unfold DeleteEntry_unlink. destruct s; tsteps.
  all: iApply (relink_entry cx p (Some b) with "Hp Hcx"); [done|done|]; iIntros "Hp Hcx"; tsteps.
  all: unfold FixAfterDeletion; tstep.
  all: iApply (deletion_exit_red _ n (parent_of cx) L b kb vb y1 y2 with "[Hb Hy]"); [done|rewrite tree_at_node; iFrame|].
  all: iIntros "Hy"; rewrite -(root_node L b BLACK kb vb y1 y2) -root_plug.
  all: iApply ("H" with "[%]"); [|rewrite tree_plug root_node; iFrame].
  all: split; [apply (plug_balanced 1); [by rewrite color_node|by apply rb_black]|by apply (order_plug L)].
Qed.

Lemma unlink_alone n p c k v cx m f (Φ : unit -> T -> iProp Σ) :
  (length cx + 2 <= n)%nat -> accepts c m cx -> rb m (Node p c k v Leaf Leaf) -> mRoot f = root_of cx (Some p) ->
  ctx_at (Some p) cx -∗ p ↦ mk L k v None None (parent_of cx) c -∗
  (∀ t, ⌜balanced t /\ inorder L t = inorder L (plug cx Leaf)⌝ -∗ tree_at None t -∗ Φ tt (with_root (root t) f)) -∗
  twp (DeleteEntry_unlink n (Some p)) Φ f.
Proof.
  iIntros (Hn Hc Hm Hroot) "Hcx Hp H". unfold DeleteEntry_unlink. tsteps.
  destruct (decide (parent_of cx = None)) as [E|Hpar].
  { destruct cx as [|[]]; [|done]. tsteps. iApply ("H" $! Leaf with "[%] []"); [|done].
    split; [|done]. split; [done|]. by exists 0%nat. }
  assert (cx <> []) as Hne by by destruct cx. tsteps.
  assert (forall cx', cx' <> [] -> accepts BLACK 0 cx' -> (forall s, outer s cx' = outer s cx) ->
    balanced (plug cx' Leaf) /\ inorder L (plug cx' Leaf) = inorder L (plug cx Leaf)) as Hfin.
  { intros cx' H1 H2 H3. split; [by apply (plug_balanced 0)|]. by rewrite !(inorder_plug L) !H3. }
  assert (c = BLACK \/ c = RED) as [->| ->] by (destruct c; auto).
  - tstep. destruct m as [|m]; [done|]. apply (rb_black m L) in Hm as [Hm _]. cbn in Hm. subst m.
    iApply (FixAfterDeletion_spec _ n cx (Node p BLACK k v Leaf Leaf) with "Hcx [Hp]"); [done..|by iFrame|].
    iIntros (cx' [Ho Ha]) "Hcx (Hp & _)". 
    assert (cx' <> []) as Hne'.
    { intros ->. destruct cx as [|[s g c' k' v' sib] cx]; [done|]. specialize (Ho (flip s)). by rewrite outer_far in Ho. }
    assert (parent_of cx' <> None) as Hpar' by by destruct cx' as [|[]]. do 3 tstep.
    iApply (unlink_entry with "Hp Hcx"); [done|]. iIntros "Hcx".
    rewrite (root_of_cons cx' (Some p) None) //. rewrite -(root_plug cx' Leaf).
    iApply ("H" with "[%]"); [by apply Hfin|]. rewrite tree_plug. by iFrame.
  - apply (rb_red m L) in Hm as (_ & Hm & _). cbn in Hm. subst m. do 5 tstep.
    iApply (unlink_entry with "Hp Hcx"); [done|]. iIntros "Hcx".
    rewrite -{2}(with_root_id f) Hroot (root_of_cons cx (Some p) None) //. rewrite -(root_plug cx Leaf).
    iApply ("H" with "[%]"); [apply Hfin; [done|by apply accepts_black in Hc|done]|]. rewrite tree_plug. by iFrame.
Qed.

(** The second part of [DeleteEntry], for an entry without a child on side [s]. *)
Lemma DeleteEntry_unlink_spec n s p c k v y cx f (Φ : unit -> T -> iProp Σ) :
  (length cx + 2 <= n)%nat -> balanced (plug cx (node s p c k v Leaf y)) -> mRoot f = root_of cx (Some p) ->
  ctx_at (Some p) cx -∗ tree_at (parent_of cx) (node s p c k v Leaf y) -∗
  (∀ t, ⌜balanced t /\ inorder L t = inorder L (plug cx y)⌝ -∗ tree_at None t -∗ Φ tt (with_root (root t) f)) -∗
  twp (DeleteEntry_unlink n (Some p)) Φ f.
Proof.
  iIntros (Hn (m & Hc & Hm)%accepts_plug Hroot) "Hcx Ht H". rewrite color_node in Hc.
  destruct (decide (root y = None)) as [Hy|Hy].
  - destruct y; [|done]. replace (node s p c k v Leaf Leaf) with (Node p c k v (@Leaf Obj) Leaf) in * by by destruct s.
    iDestruct "Ht" as "(Hp & _)". by iApply (unlink_alone with "Hcx Hp H").
  - destruct (only_child m s p c k v y cx) as (-> & -> & Hcy & Hy0); [done|done|by destruct y|].
    iApply (unlink_with_child with "Hcx Ht H"); [lia|done..].
Qed.

(** *** The whole of [DeleteEntry] *)

(** The entries without the one at [a]: with two children, it takes over the key
    and the value of the next entry, which goes. *)
Definition deleted cx (a : positive) (l r : @tree Obj) : list (@cell Obj) :=
  rev (outer L cx) ++ inorder L l ++
  match root l, inorder L r with
  | Some _, (_, kv) :: rest => (a, kv) :: rest
  | _, rest => rest
  end ++ outer R cx.

Lemma deleted_items cx a l r :
  snd <$> deleted cx a l r = (snd <$> rev (outer L cx)) ++ (snd <$> inorder L l) ++ (snd <$> inorder L r) ++ (snd <$> outer R cx).
Proof.
  unfold deleted. rewrite !fmap_app. do 3 f_equal. by destruct (root l), (inorder L r) as [|[]].
Qed.

Lemma change_payload cx a c k v k' v' l r :
  balanced (plug cx (Node a c k v l r)) -> balanced (plug cx (Node a c k' v' l r)).
Proof.
  intros (n & Hc & Hn)%accepts_plug. by apply (plug_balanced n).
Qed.

(** The fields after an update. *)
Definition counted (q : ptr) (d : Z) f : T :=
  {| mComparator := mComparator f; mRoot := q; mSize := mSize f + d; mModCount := mModCount f + 1; mKeySet := mKeySet f; mValues := mValues f |}.

Lemma length_path cx t : (length cx + size t <= size (plug cx t))%nat.
Proof. rewrite size_plug. pose proof (length_outer cx). lia. Qed.

Lemma count_spec f (K : M unit) (Φ : unit -> T -> iProp Σ) d :
  mModCount f + 1 < 2147483648 -> -2147483648 <= mModCount f + 1 -> -2147483648 <= mSize f + d < 2147483648 ->
  twp K Φ (counted (mRoot f) d f) -∗ twp (bump_mModCount ;;; add_mSize d ;;; K) Φ f.
Proof.
  iIntros (H1 H2 H3) "H". unfold bump_mModCount, add_mSize, set_mModCount, set_mSize. tsteps.
  iApply twp_int; [lia|]. tsteps. cbn [mSize]. iApply twp_int; [lia|]. tsteps. iExact "H".
Qed.

(** Two children: the next entry [b], first of the right subtree, hands over its
    payload and is the one to unlink. *)
Lemma successor_split cx a c k v l r : root l <> None -> r <> Leaf ->
  exists cxr b cb kb vb y, r = plug cxr (node L b cb kb vb Leaf y) /\
    first (inorder L r ++ outer R cx) = Some b /\ (b, (kb, vb)) ∈ inorder L r /\
    plug cx (Node a c kb vb l r) = plug (cxr ++ Frame R a c kb vb l :: cx) (node L b cb kb vb Leaf y) /\
    inorder L (plug (cxr ++ Frame R a c kb vb l :: cx) y) = deleted cx a l r.
Proof.
  intros Hl Hr. destruct (inorder L r) as [|[b [kb vb]] rest] eqn:E; [by apply inorder_nil in E|].
  destruct (split_tree L r [] b kb vb rest E) as (cxr & cb & x & y & -> & Hx & Hy).
  symmetry in Hx. apply app_eq_nil in Hx as [Ho Hx]. apply inorder_nil in Hx as ->.
  exists cxr, b, cb, kb, vb, y. split; [done|]. split; [done|]. split; [left|]. rewrite !plug_app. split; [done|].
  apply (f_equal (@rev _)) in Ho. rewrite rev_involutive in Ho. cbn in Ho.
  cbn [plug node]. unfold deleted. rewrite E (inorder_plug L) (inorder_near L a) (inorder_plug L cxr) Ho.
  destruct (root l); [|done]. subst rest. by rewrite -!app_assoc.
Qed.

Lemma DeleteEntry_spec cx a c k v l r f (Φ : unit -> T -> iProp Σ) :
  let t := plug cx (Node a c k v l r) in
  balanced t -> -2147483648 <= mModCount f + 1 < 2147483648 -> mSize f < 2147483648 ->
  map_at γ f t -∗
  (∀ t', ⌜balanced t' /\ inorder L t' = deleted cx a l r⌝ -∗ tree_at None t' -∗ Φ tt (counted (root t') (-1) f)) -∗
  twp (DeleteEntry (Some a)) Φ f.
Proof.
  iIntros (t Hbal Hmod Hsize) "[[%Hroot %Hn] Ht] H". unfold DeleteEntry, rounds. do 2 tstep.
  pose proof (length_path cx (Node a c k v l r)) as Hlen. fold t in Hlen. rewrite size_Node in Hlen.
  iApply count_spec; [lia..|].
  destruct (decide (root l <> None /\ root r <> None)) as [[Hl Hr]|Hlr].
  - destruct (successor_split cx a c k v l r Hl) as (cxr & b & cb & kb & vb & y & Er & Hb & Hin & Ep & Ed); [by destruct r|].
    iEval (rewrite tree_plug) in "Ht". iDestruct "Ht" as "(Hcx & Ha & Hl & Hr)". iSimpl in "Hcx". tsteps.
    iAssert (tree_at None t) with "[Hcx Ha Hl Hr]" as "Ht".
    { rewrite tree_plug. by iFrame. }
    unfold Successor. iApply (neighbour_spec γ R t _ a (k, v) (inorder L r ++ outer R cx) with "Ht").
    { cbn [flip]. unfold t. rewrite (inorder_plug L) (inorder_near L a). by rewrite -app_assoc app_assoc. }
    { cbn. lia. }
    iIntros "Ht". rewrite Hb. iEval (rewrite tree_plug) in "Ht". iDestruct "Ht" as "(Hcx & Ha & Hl & Hr)". iSimpl in "Hcx".
    iDestruct (tree_cell with "Hr") as (e [Ek Ev]) "[Hb Hr]"; [exact Hin|]. tsteps. rewrite Ek Ev.
    iDestruct ("Hr" with "Hb") as "Hr".
    iAssert (tree_at None (plug cx (Node a c kb vb l r))) with "[Hcx Ha Hl Hr]" as "Ht".
    { rewrite tree_plug. by iFrame. }
    rewrite Ep. iEval (rewrite tree_plug root_node) in "Ht". iDestruct "Ht" as "[Hcx Ht]".
    iApply (DeleteEntry_unlink_spec with "Hcx Ht").
    + pose proof (length_path (cxr ++ Frame R a c kb vb l :: cx) (node L b cb kb vb Leaf y)) as Hp.
      assert (size (plug cx (Node a c kb vb l r)) = size t) as Et by by rewrite /t !size_plug !size_Node.
      rewrite -Ep Et in Hp. cbn [node] in Hp. rewrite size_Node in Hp. lia.
    + rewrite -Ep. by apply change_payload with k v.
    + cbn. rewrite Hroot -(root_node L b cb kb vb Leaf y) -root_plug -Ep. by rewrite !root_plug.
    + rewrite Ed. iIntros (t' Ht') "Ht". by iApply ("H" with "[//]").
  - assert (exists s y, node s a c k v Leaf y = Node a c k v l r /\ inorder L (plug cx y) = deleted cx a l r)
      as (s & y & En & Ed).
    { unfold deleted. destruct l as [|la lc lk lv ll lr]; [exists L, r|destruct r; [exists R, (Node la lc lk lv ll lr)|]].
      - by rewrite (inorder_plug L).
      - by rewrite (inorder_plug L).
      - exfalso. by apply Hlr. }
    iEval (rewrite tree_plug) in "Ht". iDestruct "Ht" as "(Hcx & Ha & Hl & Hr)". iSimpl in "Hcx". do 4 tstep.
    rewrite decide_False //. do 2 tstep.
    iApply (DeleteEntry_unlink_spec _ s a c k v y cx with "Hcx [Ha Hl Hr]"); [lia| | | |].
    + by rewrite En.
    + cbn. by rewrite Hroot root_plug.
    + rewrite En. by iFrame.
    + rewrite Ed. iIntros (t' Ht') "Ht". by iApply ("H" with "[//]").
Qed.

End Delete.

End TreeMapUpdate.

(** ** What the operations of the tree map do

    [map_of c f]: the map object [f] owns a balanced tree of the entries [c], in
    order and with their addresses, of a comparator that is an order on their
    keys.  Each operation is specified by what it does to [c]. *)

Module TreeMapSpecs.

Import TreeMap TreeShape TreeMapOrder TreeMapLogic TreeMapRotate TreeMapInsert TreeMapDelete TreeMapWalk TreeMapSearch.
Import TreeMapUpdate.

Section Specs.
Context {Obj : Type} `{!EqDecision Obj} `{!Objects Obj} {cpr : option Obj} `{!KeyOrder cpr}.
Context `{!ghost_mapG Σ positive (TreeMapEntry Obj)} (γ : gname).
Notation ref := (option Obj).
Notation M := (SE (world Obj)).
Notation T := (TreeMap Obj).
Notation "a ↦ e" := (cell_at γ a e) (at level 20) : bi_scope.
Notation twp := (twp γ).
Notation tree_at := (tree_at γ).
Notation ctx_at := (ctx_at γ).
Notation map_at := (map_at γ).
Implicit Types (f : T) (cx : list (@frame Obj)) (t : @tree Obj) (key k v : ref) (c : list (@cell Obj)).

Definition shaped (f : T) (t : @tree Obj) : Prop := mComparator f = cpr /\ balanced t /\ ordered t.

Definition map_of (c : list (@cell Obj)) (f : T) : iProp Σ :=
  ∃ t, ⌜inorder L t = c /\ shaped f t⌝ ∗ map_at f t.

Lemma map_of_facts c f : map_of c f -∗ ⌜mSize f = Z.of_nat (length c) /\ mComparator f = cpr /\ sorted L (snd <$> c)⌝.
Proof. iIntros "(%t & [%E (% & % & %Ho)] & [[_ %Hs] _])". iPureIntro. by rewrite -E. Qed.

(** Only the counter of modifications and the size may have changed, and how. *)
Definition moved (d : Z) (f f' : T) : Prop :=
  mComparator f' = mComparator f /\ mModCount f' = mModCount f + d.

Lemma good_key key : T -> good key -> cpr = None -> exists o, key = Some o /\ is_comparable o = true.
Proof.
  intros f H E. destruct (compares key key H H) as (ec & _ & Hc). revert Hc.
  generalize (cmp key key). intros d Hc. rewrite E in Hc. cbn in Hc.
  apply (f_equal (fun m : M _ => m {| this := f; entries := empty |})) in Hc.
  destruct key as [o|]; [|done]. exists o. cbn in Hc. by destruct (is_comparable o).
Qed.

(** ** Where a key is *)

Definition cells_before s key (c : list (@cell Obj)) : Prop := all_before s key (snd <$> c).

(** The entries before the key, the one with the key if there is one, and those after. *)
Definition keyed key (c1 : list (@cell Obj)) (o : option (@cell Obj)) (c2 : list (@cell Obj)) : Prop :=
  cells_before L key c1 /\ cells_before R key c2 /\ forall x, o = Some x -> cmp key (fst (snd x)) = 0.

Lemma ends_keyed key cx t : ordered (plug cx t) -> good key -> located key cx -> ends_at key t ->
  exists c1 o c2, inorder L (plug cx t) = c1 ++ option_list o ++ c2 /\ keyed key c1 o c2 /\ root t = fst <$> o /\
    (o = None -> t = Leaf /\ c1 = rev (outer L cx) /\ c2 = outer R cx).
Proof.
  intros Ho Hk Hl [->|(a & col & k & v & l & r & -> & E)].
  - exists (rev (outer L cx)), None, (outer R cx). rewrite (inorder_plug L). split; [done|]. split; [|done].
    split; [|split; [apply (Hl R)|done]]. unfold cells_before, all_before. rewrite fmap_rev. apply Forall_rev, (Hl L).
  - exists (rev (outer L cx) ++ inorder L l), (Some (a, (k, v))), (inorder L r ++ outer R cx).
    rewrite (inorder_plug L) (inorder_near L a col k v l r) -!app_assoc. split; [done|]. split; [|done].
    destruct (ordered_node L cx a col k v l r Ho) as (Gk & Hr & Hl').
    unfold keyed, cells_before, all_before. rewrite !fmap_app !Forall_app fmap_rev. split; [split|split; [split|]].
    + apply Forall_rev, (Hl L).
    + apply Forall_forall. intros e [Ge He]%Hl'.
      apply (before_flip R); [done|done|]. apply (before_equal R key k); [done..|]. by apply (before_flip R).
    + apply Forall_forall. intros e [Ge He]%Hr.
      apply (before_flip L); [done|done|]. by apply (before_equal L key k).
    + apply (Hl R).
    + by intros x [= <-].
Qed.

(** What the specification makes of it. *)
Lemma keyed_spec key c1 o c2 : good key -> sorted L (snd <$> (c1 ++ option_list o ++ c2)) -> keyed key c1 o c2 ->
  let l := snd <$> (c1 ++ option_list o ++ c2) in
  at_key key l = snd <$> o /\ spec_remove key l = snd <$> (c1 ++ c2) /\
  forall v, spec_put key v l = (snd <$> c1) ++ (default key (fst <$> (snd <$> o)), v) :: (snd <$> c2).
Proof.
  intros Hk [_ Hg] (H1 & H2 & Ho). cbn zeta. rewrite !fmap_app in Hg |- *.
  assert (Forall (fun e => good (fst e)) ((snd <$> c1) ++ (snd <$> c2))) as Hg'.
  { apply Forall_app in Hg as [G1 [_ G2]%Forall_app]. by apply Forall_app. }
  unfold spec_put, spec_remove. destruct o as [[a e]|]; cbn [option_list fmap list_fmap option_fmap option_map app] in *.
  - pose proof (Ho _ eq_refl) as E. cbn in E.
    assert (good (fst e)) as Ge by by apply Forall_app in Hg as [_ [G _]%Forall_cons].
    rewrite (found_at_key key (snd <$> c1) (snd <$> c2)) //.
    by rewrite !(found_beyond key (snd <$> c1) (snd <$> c2)).
  - by rewrite (split_at_key key (snd <$> c1) (snd <$> c2)) // !(split_beyond key (snd <$> c1) (snd <$> c2)).
Qed.

Notation at_pointer o := (fst <$> (o : option (@cell Obj))).

Lemma GetEntry_loop_map n key c f (Φ : ptr -> T -> iProp Σ) :
  n = (Z.to_nat (mSize f) + 3)%nat -> good key -> map_of c f -∗
  (∀ c1 o c2, ⌜c = c1 ++ option_list o ++ c2 /\ keyed key c1 o c2⌝ -∗ map_of c f -∗ Φ (at_pointer o) f) -∗
  twp (GetEntry_loop n cpr key (mRoot f)) Φ f.
Proof.
  iIntros (Hn Hk) "(%t & [<- %Hsh] & [[%Hr %Hs] Ht]) H". pose proof Hsh as (_ & _ & Ho). rewrite Hr.
  iApply (GetEntry_loop_spec γ _ key [] t with "[//] Ht"); [|done|done|apply located_nil|].
  { pose proof (height_size t). lia. }
  iIntros (cx u (E & Hl & He)) "Hcx Hu". cbn [plug] in E. rewrite -E in Ho.
  destruct (ends_keyed key cx u Ho Hk Hl He) as (c1 & o & c2 & Ec & Hkey & Er & _).
  rewrite Er. iApply ("H" with "[%]"); [by rewrite -E|]. iExists t. iSplit; [done|]. iSplit; [done|].
  rewrite -E tree_plug Er. iFrame.
Qed.

Lemma GetEntry_step key (q : option Obj) f (Φ : ECode * option ptr -> T -> iProp Σ) :
  mComparator f = q -> (q = None -> key <> None) ->
  twp (GetEntry_loop (Z.to_nat (mSize f) + 3) q key (mRoot f)) (fun p => Φ (NOERROR, Some p)) f -∗
  twp (GetEntry key) Φ f.
Proof.
  iIntros (Hq Hkey) "H". unfold GetEntry, GetEntryUsingComparator, rounds. do 2 tstep. rewrite Hq.
  destruct q as [o|]; [|rewrite decide_False; [|by apply Hkey]]; tsteps; iApply (twp_wand with "H");
    iIntros (p f') "H"; by tsteps.
Qed.

Lemma good_not_null key f : good key -> cpr = None -> key <> None.
Proof. intros H E. by destruct (good_key key f H E) as (o & -> & _). Qed.

Lemma GetEntry_map key c f (Φ : ECode * option ptr -> T -> iProp Σ) :
  good key -> map_of c f -∗
  (∀ c1 o c2, ⌜c = c1 ++ option_list o ++ c2 /\ keyed key c1 o c2⌝ -∗ map_of c f -∗
    Φ (NOERROR, Some (at_pointer o)) f) -∗
  twp (GetEntry key) Φ f.
Proof.
  iIntros (Hk) "Hm H". iDestruct (map_of_facts with "Hm") as %(_ & Hc & _).
  iApply GetEntry_step; [exact Hc|by apply good_not_null|]. iApply (GetEntry_loop_map with "Hm H"); done.
Qed.

(** Without a comparator, a null key is refused. *)
Lemma GetEntry_null f (Φ : ECode * option ptr -> T -> iProp Σ) :
  mComparator f = None -> Φ (E_NULL_POINTER_EXCEPTION, None) f -∗ twp (GetEntry None) Φ f.
Proof. iIntros (Hq) "H". unfold GetEntry. do 2 tstep. rewrite Hq. by tsteps. Qed.

(** ** Reading, writing and deleting an entry *)

Lemma set_value_id (e : TreeMapEntry Obj) : set_value (mValue e) e = e.
Proof. by destruct e. Qed.

Lemma map_entry c1 a k v c2 f : map_of (c1 ++ (a, (k, v)) :: c2) f -∗
  ∃ e, ⌜mKey e = k /\ mValue e = v⌝ ∗ a ↦ e ∗
    ∀ v', a ↦ set_value v' e -∗ map_of (c1 ++ (a, (k, v')) :: c2) f.
Proof.
  iIntros "(%t & [%E (%Hc & %Hb & %Ho)] & [[%Hr %Hs] Ht])".
  apply (split_tree L) in E as (cx & col & l & r & -> & -> & ->).
  rewrite tree_plug tree_at_node root_node. iDestruct "Ht" as "(Hcx & Ha & Hl & Hr)".
  iExists _. iFrame "Ha". rewrite mKey_mk mValue_mk. iSplit; [done|]. iIntros (v') "Ha". rewrite set_value_mk.
  iExists (plug cx (node L a col k v' l r)). iSplit.
  - iPureIntro. split; [by rewrite (inorder_plug L) (inorder_near L) -!app_assoc|]. split; [done|]. split.
    + by apply change_payload with k v.
    + eapply sorted_keys; [|exact Ho].
      by rewrite !(inorder_plug L) !(inorder_near L) !fmap_app !fmap_cons.
  - iSplit; [iPureIntro|].
    + rewrite Hr Hs !root_plug !root_node !size_plug. cbn [node]. by rewrite !size_Node.
    + rewrite tree_plug tree_at_node root_node. iFrame.
Qed.

Lemma DeleteEntry_map cx a col k v l r f (Φ : unit -> T -> iProp Σ) :
  let t := plug cx (Node a col k v l r) in
  shaped f t -> -2147483648 <= mModCount f + 1 < 2147483648 -> mSize f < 2147483648 ->
  map_at f t -∗ (∀ f', ⌜moved 1 f f'⌝ -∗ map_of (deleted cx a l r) f' -∗ Φ tt f') -∗ twp (DeleteEntry (Some a)) Φ f.
Proof.
  iIntros (t (Hc & Hb & Ho) Hmod Hsize) "Hm H". iDestruct "Hm" as "[[%Hr %Hs] Ht]".
  iApply (DeleteEntry_spec γ cx a col k v l r with "[$Ht]"); [done..|].
  iIntros (t' [Hb' E]) "Ht".
  assert (snd <$> inorder L t = (snd <$> rev (outer L cx) ++ inorder L l) ++ (k, v) :: (snd <$> inorder L r ++ outer R cx)) as Et.
  { unfold t. rewrite (inorder_plug L) (inorder_near L a) !fmap_app. cbn. by rewrite -!app_assoc. }
  assert (snd <$> inorder L t' = (snd <$> rev (outer L cx) ++ inorder L l) ++ (snd <$> inorder L r ++ outer R cx)) as Et'.
  { by rewrite E deleted_items !fmap_app -!app_assoc. }
  iApply ("H" with "[%]"); [done|]. iExists t'. rewrite -E. iSplit.
  - iPureIntro. split; [done|]. split; [done|]. split; [done|]. unfold ordered in Ho |- *. rewrite Et in Ho. rewrite Et'.
    by eapply sorted_without.
  - iSplit; [|done]. iPureIntro. split; [done|]. cbn.
    assert (length (snd <$> inorder L t) = S (length (snd <$> inorder L t'))) as El.
    { rewrite Et Et' !length_app length_cons. lia. }
    rewrite !length_fmap in El. unfold size, cell in *. lia.
Qed.

(** ** [Put] *)

Definition old_value (o : option (@cell Obj)) : ref := match o with Some (_, (_, v)) => v | None => None end.

(** The entries and the fields after [Put]. *)
Definition put_in key value f c1 (o : option (@cell Obj)) c2 (c' : list (@cell Obj)) (f' : T) : Prop :=
  match o with
  | Some (a, (k, _)) => c' = c1 ++ (a, (k, value)) :: c2 /\ f' = f
  | None => exists a, c' = c1 ++ (a, (key, value)) :: c2 /\ moved 1 f f'
  end.

Lemma Put_empty_map key value out f (Φ : ECode * option ref -> T -> iProp Σ) :
  good key -> mComparator f = cpr -> -2147483648 <= mModCount f + 1 < 2147483648 ->
  (∀ a f', ⌜moved 1 f f'⌝ -∗ map_of [(a, (key, value))] f' -∗ Φ (NOERROR, stored out None) f') -∗
  twp (Put_empty key value out) Φ f.
Proof.
  iIntros (Hk Hc Hmod) "H". unfold Put_empty. do 2 tstep.
  match goal with |- context [FAILED ?e] => assert (FAILED e = false) as -> end.
  { rewrite Hc. destruct (compares key key Hk Hk) as (ec & Hec & E). pose proof (good_key key f Hk) as Hn. revert E Hn.
    generalize (cmp key key). intros d. destruct cpr as [q|]; cbn.
    - intros E _. case_decide; [|done].
      apply (f_equal (fun m : M _ => m {| this := f; entries := empty |})) in E. cbn in E. injection E as ->. done.
    - intros _ Hn. destruct (Hn eq_refl) as (o & -> & ->). done. }
  tsteps. iApply twp_new. iIntros (a) "Ha". unfold set_mSize, bump_mModCount, set_mModCount. tsteps. cbn [mModCount].
  iApply twp_int; [done|]. tsteps. iApply ("H" $! a with "[%]"); [done|].
  iExists (Node a BLACK key value Leaf Leaf). iSplit; [iPureIntro|iSplit; [done|by iFrame]].
  split; [done|]. split; [done|]. split; [split; [done|by exists 1%nat]|]. split; repeat constructor. exact Hk.
Qed.

Lemma located_ordered key value cx (x : positive) u : ordered (plug cx Leaf) -> good key -> located key cx ->
  inorder L u = rev (outer L cx) ++ (x, (key, value)) :: outer R cx -> ordered u.
Proof.
  intros Ho Hk Hl Eu. unfold ordered in *. destruct (located_items key cx Leaf Hl) as (E & H1 & H2).
  rewrite E in Ho. rewrite Eu fmap_app fmap_cons.
  apply sorted_insert; [done|done|..]; done.
Qed.

Lemma Put_insert_map {X} (y : X) n cx d par key value f (Φ : X -> T -> iProp Σ) :
  good key -> shaped f (plug cx Leaf) -> located key cx -> open_at cx par (Some d) ->
  (length cx < n)%nat -> mRoot f = root_of cx None -> mSize f = Z.of_nat (size (plug cx Leaf)) ->
  mSize f + 1 < 2147483648 -> -2147483648 <= mModCount f + 1 < 2147483648 ->
  ctx_at None cx -∗
  (∀ a f', ⌜moved 1 f f'⌝ -∗ map_of (rev (outer L cx) ++ (a, (key, value)) :: outer R cx) f' -∗ Φ y f') -∗
  twp (e <- new_TreeMapEntry key value par ;;
       c <- known (Some d) ;;
       (if c <? 0 then put par (set_child L e) else put par (set_child R e)) ;;;
       FixAfterInsertion n e ;;; add_mSize 1 ;;; bump_mModCount ;;; ret y) Φ f.
Proof.
  iIntros (Hk (Hc & Hb & Ho) Hl (s & a & col & k & v & sib & cx' & d' & Ecx & -> & [= <-] & Es) Hn Hroot Hs Hsize Hmod) "Hcx H".
  tstep. iApply twp_new. iIntros (x) "Hx". cbn [known]. do 2 tstep.
  subst cx. iDestruct "Hcx" as "(Ha & Hcx)". tstep.
  set (cx := Frame s a col k v sib :: cx') in *.
  iAssert (ctx_at (Some x) cx -∗ twp (FixAfterInsertion n (Some x) ;;; add_mSize 1 ;;; bump_mModCount ;;; ret y) Φ f)%I
    with "[Hx H]" as "Hfix".
  { iIntros "Hcx". tstep. apply accepts_plug in Hb as (m & Hm & Hm'). cbn in Hm, Hm'. subst m.
    iApply (FixAfterInsertion_spec γ n cx x key value BLACK with "Hcx [Hx]"); [done| |done| |].
    - done.
    - iFrame.
    - iIntros (u [Eu Hu]) "Ht". 
      assert (inorder L u = rev (outer L cx) ++ (x, (key, value)) :: outer R cx) as Eu' by by rewrite Eu (inorder_plug L).
      unfold add_mSize, bump_mModCount, set_mSize, set_mModCount. tsteps. cbn [mSize with_root]. iApply twp_int; [lia|].
      tsteps. cbn [mModCount with_root]. iApply twp_int; [lia|]. tsteps.
      iApply ("H" $! x with "[%]"); [done|]. rewrite -Eu'. iExists u. iFrame "Ht". iPureIntro. split; [split; [done|]|].
      + split; [done|]. split; [done|]. by apply (located_ordered key value cx x).
      + split; [done|]. cbn. rewrite Hs. unfold size. rewrite Eu' (inorder_plug L) !length_app length_cons. cbn. lia. }
  rewrite /known. destruct (d <? 0); cbn in Es; subst s; tstep; iApply "Hfix"; iFrame.
Qed.

Lemma Put_map key value out c f (Φ : ECode * option ref -> T -> iProp Σ) :
  good key -> -2147483648 <= mModCount f + 1 < 2147483648 -> mSize f + 1 < 2147483648 ->
  map_of c f -∗
  (∀ c1 o c2 c' f', ⌜c = c1 ++ option_list o ++ c2 /\ keyed key c1 o c2 /\ put_in key value f c1 o c2 c' f'⌝ -∗
    map_of c' f' -∗ Φ (NOERROR, stored out (old_value o)) f') -∗
  twp (Put key value out) Φ f.
Proof.
  iIntros (Hk Hmod Hsize) "(%t & [<- %Hsh] & [[%Hr %Hs] Ht]) H". pose proof Hsh as (Hc & Hb & Ho).
  unfold Put. do 2 tstep. rewrite Hr. destruct (decide (root t = None)) as [Et|Et].
  { destruct t; [|done]. iApply Put_empty_map; [done..|]. iIntros (a f' Hf') "Hm".
    iApply ("H" $! [] None [] with "[%] Hm"). split; [done|]. split; [by repeat constructor|]. by exists a. }
  do 2 tstep. rewrite Hc. rewrite decide_False; [|intros [E1 E2]; by apply (good_not_null key f Hk)].
  unfold rounds. do 3 tstep. unfold Put_loop.
  iApply (Put_loop_spec γ _ key [] t with "[//] Ht"); [|done|done|apply located_nil|by destruct t|].
  { pose proof (height_size t). lia. }
  iIntros (cx u par d (E & Hl & He & Hopen)) "Hcx Hu". cbn [plug] in E. rewrite -E in Ho.
  destruct (ends_keyed key cx u Ho Hk Hl He) as (c1 & o & c2 & Ec & Hkey & Er & Hnone).
  destruct o as [[a [k v]]|]; cbn in Er; rewrite Er; cbn beta iota.
  - tstep.
    iAssert (map_of (c1 ++ (a, (k, v)) :: c2) f) with "[Hcx Hu]" as "Hm".
    { iExists t. iSplit; [iPureIntro; split; [by rewrite -E Ec|done]|]. iSplit; [done|]. rewrite -E tree_plug Er. iFrame. }
    iDestruct (map_entry with "Hm") as (e [Ek Ev]) "[Ha Hm]". unfold SetValue. tsteps. rewrite Ev.
    iApply ("H" $! c1 (Some (a, (k, v))) c2 with "[%] [Ha Hm]"); [|by iApply "Hm"].
    rewrite -E Ec. split; [done|]. split; [done|]. done.
  - tstep. destruct (Hnone eq_refl) as (-> & -> & ->).
    pose proof (Hopen eq_refl) as (s & a & col & k' & v' & sib & cx' & d' & Ecx & Epar & Ed & Es). subst d.
    iApply (Put_insert_map _ _ cx with "Hcx"); [done|by rewrite E|done|by apply Hopen| | |by rewrite E|lia|done|].
    + pose proof (length_path cx Leaf). rewrite E in H. lia.
    + by rewrite Hr -E root_plug.
    + iIntros (x f' Hf') "Hm". iApply ("H" $! _ None _ with "[%] Hm").
      rewrite -E Ec. split; [done|]. split; [done|]. by exists x.
Qed.

(** ** Walking *)

(** The entries from the end on side [s]. *)
Definition along {A} (s : side) (l : list A) : list A := match s with L => l | R => rev l end.

Lemma along_flip {A} s (l : list A) : along (flip s) l = rev (along s l).
Proof. destruct s; [done|]. cbn. by rewrite rev_involutive. Qed.

Lemma along_along {A} s (l : list A) : along s (along s l) = l.
Proof. destruct s; [done|]. apply rev_involutive. Qed.

Lemma along_inorder s t : along s (inorder L t) = inorder s t.
Proof. destruct s; [done|]. symmetry. apply (inorder_flip L). Qed.

Lemma first_head (l : list (@cell Obj)) : first l = at_pointer (head l).
Proof. by destruct l as [|[]]. Qed.

Lemma extreme_map s c f (Φ : ptr -> T -> iProp Σ) :
  map_of c f -∗ (map_of c f -∗ Φ (at_pointer (head (along s c))) f) -∗ twp (extreme s) Φ f.
Proof.
  iIntros "(%t & [<- %Hsh] & Hm) H". iApply (extreme_spec with "Hm"). iIntros "Hm".
  rewrite along_inorder -first_head. iApply "H". iExists t. by iFrame.
Qed.

Lemma neighbour_map s c c1 a kv c2 f (Φ : ptr -> T -> iProp Σ) :
  along (flip s) c = c1 ++ (a, kv) :: c2 ->
  map_of c f -∗ (map_of c f -∗ Φ (at_pointer (head c2)) f) -∗ twp (neighbour s (Some a)) Φ f.
Proof.
  iIntros (Hc) "(%t & [<- %Hsh] & [[%Hr %Hs] Ht]) H". rewrite along_inorder in Hc.
  iApply (neighbour_spec with "Ht"); [exact Hc|lia|]. iIntros "Ht". rewrite first_head. iApply "H".
  iExists t. by iFrame.
Qed.

Lemma nearest_map s inclusive key c f (Φ : ECode * option ptr -> T -> iProp Σ) :
  good key -> key <> None -> map_of c f -∗
  (map_of c f -∗ Φ (NOERROR, Some (at_pointer (head (filter (fun x => qualifies s inclusive key (snd x)) (along s c))))) f) -∗
  twp (nearest s inclusive key) Φ f.
Proof.
  iIntros (Hk Hnull) "(%t & [<- %Hsh] & [[%Hr %Hs] Ht]) H". pose proof Hsh as (Hc & _ & Ho).
  unfold nearest, rounds. tsteps. rewrite Hr. rewrite along_inorder -first_head.
  assert (t = Leaf \/ t <> Leaf) as [->|Hne] by (destruct t; auto).
  - replace (Z.to_nat (mSize f) + 3)%nat with (S (Z.to_nat (mSize f) + 2)) by lia.
    iApply twp_while_step. cbn [root]. tsteps. cbn [fst snd]. tsteps.
    replace (inorder s Leaf) with (@nil (@cell Obj)) by by destruct s. iApply "H". iExists Leaf. by iFrame.
  - iApply (nearest_loop γ s inclusive _ _ key [] t with "[//] Ht"); [| |done|done|done|by split; constructor|done|].
    1,2: pose proof (height_size t); cbn; lia.
    iIntros "Ht". tsteps. iApply "H". iExists t. by iFrame.
Qed.

(** Reading what was found. *)
Lemma map_read c a k v f : (a, (k, v)) ∈ c -> map_of c f -∗
  ∃ e, ⌜mKey e = k /\ mValue e = v⌝ ∗ a ↦ e ∗ (a ↦ e -∗ map_of c f).
Proof.
  iIntros ((c1 & c2 & ->)%list_elem_of_split) "Hm". iDestruct (map_entry with "Hm") as (e [Ek Ev]) "[Ha Hm]".
  iExists e. iFrame "Ha". iSplit; [done|]. iIntros "Ha". iApply "Hm". by rewrite -Ev set_value_id.
Qed.

Definition among (o : option (@cell Obj)) c : Prop := forall x, o = Some x -> x ∈ c.

Lemma ExportEntry_map o c f (Φ : option (ref * ref) -> T -> iProp Σ) :
  among o c -> map_of c f -∗ (map_of c f -∗ Φ (snd <$> o) f) -∗ twp (ExportEntry (at_pointer o)) Φ f.
Proof.
  iIntros (Ho) "Hm H". unfold ExportEntry. destruct o as [[a [k v]]|]; cbn [fmap option_fmap option_map fst snd]; tsteps.
  - iDestruct (map_read c a k v with "Hm") as (e [Ek Ev]) "[Ha Hm]"; [by apply Ho|]. tsteps. rewrite Ek Ev.
    iApply "H". by iApply "Hm".
  - by iApply "H".
Qed.

Lemma DeleteEntry_cells c1 a kv c2 f (Φ : unit -> T -> iProp Σ) :
  -2147483648 <= mModCount f + 1 < 2147483648 -> mSize f < 2147483648 ->
  map_of (c1 ++ (a, kv) :: c2) f -∗
  (∀ c' f', ⌜moved 1 f f' /\ snd <$> c' = snd <$> c1 ++ c2⌝ -∗ map_of c' f' -∗ Φ tt f') -∗
  twp (DeleteEntry (Some a)) Φ f.
Proof.
  destruct kv as [k v]. iIntros (Hmod Hsize) "(%t & [%E %Hsh] & Hm) H".
  apply (split_tree L) in E as (cx & col & l & r & -> & -> & ->).
  iApply (DeleteEntry_map with "Hm"); [done..|]. iIntros (f' Hf') "Hm". iApply ("H" with "[%] Hm").
  split; [done|]. by rewrite deleted_items !fmap_app -!app_assoc.
Qed.

(** The comparison of values that a search for a value makes. *)
Definition value_is (value_first : bool) (value : ref) (e : ref * ref) : bool :=
  if value_first then ValEquals value (snd e) else ValEquals (snd e) value.

Lemma find_value_loop n b value c c1 rest f (Φ : ptr -> T -> iProp Σ) :
  c = c1 ++ rest -> (length rest < n)%nat -> map_of c f -∗
  (map_of c f -∗ Φ (at_pointer (head (filter (fun x => value_is b value (snd x)) rest))) f) -∗
  twp (while n (fun e =>
    if decide (e = None) then ret (e, false)
    else v <- get e mValue ;;
         if (if b then ValEquals value v else ValEquals v value) then ret (e, false)
         else e' <- Successor e ;; ret (e', true)) (at_pointer (head rest))) Φ f.
Proof.
  iIntros (Hc Hn) "Hm H". iInduction n as [|n] "IH" forall (c1 rest Hc Hn); [lia|]. iApply twp_while_step.
  destruct rest as [|[a [k v]] rest]; cbn [head fmap option_fmap option_map fst].
  { tsteps. cbn [fst snd]. by iApply "H". }
  tsteps. iDestruct (map_read c a k v with "Hm") as (e [Ek Ev]) "[Ha Hm]".
  { rewrite Hc. apply elem_of_app. right. left. }
  tsteps. rewrite Ev. iDestruct ("Hm" with "Ha") as "Hm". rewrite filter_cons.
  change (if b then ValEquals value v else ValEquals v value) with (value_is b value (k, v)). cbn [snd].
  destruct (value_is b value (k, v)); cbn [Is_true]; tsteps.
  - iApply "H". cbn [fst snd]. done.
  - iApply (neighbour_map R c c1 a (k, v) rest with "Hm"); [done|]. iIntros "Hm". tsteps. cbn [fst snd].
    iApply ("IH" $! (c1 ++ [(a, (k, v))]) rest with "[%] [%] Hm H"); [by rewrite -app_assoc|cbn in Hn; lia].
Qed.

Lemma find_value_map b value c f (Φ : ptr -> T -> iProp Σ) :
  map_of c f -∗
  (map_of c f -∗ Φ (at_pointer (head (filter (fun x => value_is b value (snd x)) c))) f) -∗
  twp (find_value b value) Φ f.
Proof.
  iIntros "Hm H". iDestruct (map_of_facts with "Hm") as %(Hs & _). unfold find_value, rounds, GetFirstEntry. tstep.
  iApply (extreme_map L with "Hm"). iIntros "Hm". cbn [along]. do 2 tstep.
  iApply (find_value_loop _ b value c [] with "Hm H"); [done|lia].
Qed.

Lemma Clear_map c f (Φ : ECode -> T -> iProp Σ) :
  -2147483648 <= mModCount f + 1 < 2147483648 -> map_of c f -∗
  (∀ f', ⌜moved 1 f f'⌝ -∗ map_of [] f' -∗ Φ NOERROR f') -∗ twp Clear Φ f.
Proof.
  iIntros (Hmod) "(%t & [_ (%Hc & _)] & _) H". unfold Clear, bump_mModCount, set_mModCount, set_mSize. tsteps.
  iApply twp_int; [done|]. tsteps. iApply ("H" with "[%]"); [done|]. iExists Leaf. iSplit; [|by iSplit].
  iPureIntro. split; [done|]. split; [done|]. split; [split; [done|by exists O]|]. apply sorted_nil.
Qed.

End Specs.

End TreeMapSpecs.
