(* ===== verification/TreeMapCalls.v ===== *)
(** * Calls of the tree map against sorted lists

    [spec_call] is the map's documented meaning on a sorted list of its entries;
    [call_does] shows every call of the code does that. *)
From stdpp Require Import gmap sorting.
From iris.proofmode Require Import proofmode.
From iris.base_logic.lib Require Import ghost_map.
From S2P Require Import Prelude.
From S2P Require Import ECode.
From S2P Require Import TreeMap.
From S2P Require Import TreeShape.
From S2P Require Import TreeMapOrder.
From S2P Require Import TreeMapLogic.
From S2P Require Import TreeMapSpecs.

Module TreeMapCalls.

Import TreeMap TreeShape TreeMapOrder TreeMapLogic TreeMapUpdate TreeMapSpecs.

Section Calls.
Context {Obj : Type} `{!EqDecision Obj} `{!Objects Obj}.
Notation ref := (option Obj).
Notation item := (option Obj * option Obj)%type.
Notation M := (SE (world Obj)).

Inductive call :=
  | CPut (key value : ref) (out : bool)
  | CGet (key : ref)
  | CContainsKey (key : ref)
  | CContainsValue (value : ref)
  | CRemove (key : ref) (out : bool)
  | CClear
  | CSize
  | CEndKey (s : side)
  | CEndEntry (s : side)
  | CPoll (s : side)
  | CNearKey (s : side) (inclusive : bool) (key : ref)
  | CNearEntry (s : side) (inclusive : bool) (key : ref)
  | CValuesRemove (value : ref) (out : bool)
  | CEntryContains (obj : option item)
  | CEntryRemove (obj : option item).

Inductive answer :=
  | ACode (ec : ECode)
  | ASize (r : ECode * option Z)
  | ABool (r : ECode * option bool)
  | ARef (r : ECode * option ref)
  | AEntry (r : ECode * option (option item)).

(** The functions of the class; [R] is the last and the lower, [L] the first and
    the higher. *)
Definition run (c : call) : M answer :=
  match c with
  | CPut k v out => r <- Put k v out ;; ret (ARef r)
  | CGet k => r <- Get k ;; ret (ARef r)
  | CContainsKey k => r <- ContainsKey k ;; ret (ABool r)
  | CContainsValue v => r <- ContainsValue v ;; ret (ABool r)
  | CRemove k out => r <- Remove k out ;; ret (ARef r)
  | CClear => r <- Clear ;; ret (ACode r)
  | CSize => r <- GetSize ;; ret (ASize r)
  | CEndKey s => r <- match s with L => FirstKey | R => LastKey end ;; ret (ARef r)
  | CEndEntry s => r <- match s with L => FirstEntry | R => LastEntry end ;; ret (AEntry r)
  | CPoll s => r <- match s with L => PollFirstEntry | R => PollLastEntry end ;; ret (AEntry r)
  | CNearKey s i k =>
      r <- match s, i with
           | L, true => CeilingKey k | L, false => HigherKey k
           | R, true => FloorKey k | R, false => LowerKey k
           end ;; ret (ARef r)
  | CNearEntry s i k =>
      r <- match s, i with
           | L, true => CeilingEntry k | L, false => HigherEntry k
           | R, true => FloorEntry k | R, false => LowerEntry k
           end ;; ret (AEntry r)
  | CValuesRemove v out => r <- Values_Remove v out ;; ret (ABool r)
  | CEntryContains obj => r <- EntrySet_Contains obj ;; ret (ABool r)
  | CEntryRemove obj => r <- EntrySet_Remove obj true ;; ret (ABool r)
  end.

Fixpoint history (cs : list call) : M (list answer) :=
  match cs with
  | [] => ret []
  | c :: cs => a <- run c ;; l <- history cs ;; ret (a :: l)
  end.

Fixpoint remove_first {A} (P : A -> bool) (l : list A) : list A :=
  match l with [] => [] | x :: l => if P x then l else x :: remove_first P l end.

(** ** The specification *)

Context {cpr : option Obj} `{!KeyOrder cpr}.
Implicit Types (l : list item) (key : ref).

(** Without a comparator null keys are refused. *)
Definition refused (q : option Obj) key : bool := bool_decide (q = None /\ key = None).
Definition value_at key l : ref := default None (snd <$> at_key key l).
Definition checked {A} (q : option Obj) key (x : ECode * option A) : ECode * option A :=
  if refused q key then (E_NULL_POINTER_EXCEPTION, None) else x.
Definition not_null {A} (key : ref) (x : ECode * option A) : ECode * option A :=
  if decide (key = None) then (E_NULL_POINTER_EXCEPTION, None) else x.
Definition has_entry key value l : bool :=
  match at_key key l with Some e => value_is false value e | None => false end.

Definition spec_call (l : list item) (c : call) : answer * list item :=
  match c with
  | CPut k v out =>
      (ARef (checked cpr k (NOERROR, stored out (value_at k l))), if refused cpr k then l else spec_put k v l)
  | CGet k => (ARef (checked cpr k (NOERROR, Some (value_at k l))), l)
  | CContainsKey k => (ABool (checked cpr k (NOERROR, Some (bool_decide (at_key k l <> None)))), l)
  | CContainsValue v => (ABool (NOERROR, Some (existsb (value_is true v) l)), l)
  | CRemove k out =>
      (ARef (checked cpr k (NOERROR, stored out (value_at k l))), if refused cpr k then l else spec_remove k l)
  | CClear => (ACode NOERROR, [])
  | CSize => (ASize (NOERROR, Some (Z.of_nat (length l))), l)
  | CEndKey s =>
      (ARef match head (along s l) with
            | Some e => (NOERROR, Some (fst e))
            | None => (E_NO_SUCH_ELEMENT_EXCEPTION, None)
            end, l)
  | CEndEntry s => (AEntry (NOERROR, Some (head (along s l))), l)
  | CPoll s => (AEntry (NOERROR, Some (head (along s l))), along s (tail (along s l)))
  | CNearKey s i k => (ARef (not_null k (NOERROR, Some (default None (fst <$> spec_nearest s i k l)))), l)
  | CNearEntry s i k => (AEntry (not_null k (NOERROR, Some (spec_nearest s i k l))), l)
  | CValuesRemove v out =>
      (ABool (NOERROR, stored out (existsb (value_is false v) l)), remove_first (value_is false v) l)
  | CEntryContains None => (ABool (NOERROR, Some false), l)
  | CEntryContains (Some (k, v)) => (ABool (checked cpr k (NOERROR, Some (has_entry k v l))), l)
  | CEntryRemove None => (ABool (NOERROR, Some false), l)
  | CEntryRemove (Some (k, v)) =>
      (ABool (checked cpr k (NOERROR, Some (has_entry k v l))),
       if negb (refused cpr k) && has_entry k v l then spec_remove k l else l)
  end.

Fixpoint spec_history (l : list item) (cs : list call) : list answer * list item :=
  match cs with
  | [] => ([], l)
  | c :: cs =>
      let '(a, l) := spec_call l c in
      let '(answers, l) := spec_history l cs in (a :: answers, l)
  end.

(** The keys are ones the comparison orders, or null where that is refused. *)
Definition key_ok key : Prop := refused cpr key = true \/ good key.
Definition admissible (c : call) : Prop :=
  match c with
  | CPut k _ _ | CGet k | CContainsKey k | CRemove k _ => key_ok k
  | CEntryContains (Some (k, _)) | CEntryRemove (Some (k, _)) => key_ok k
  | CNearKey _ _ k | CNearEntry _ _ k => k = None \/ good k
  | _ => True
  end.

(** Histories do not lengthen the list by more than an entry for each call. *)
Lemma beyond_length key l : (length (beyond L key l) + length (beyond R key l) <= length l)%nat.
Proof.
  unfold beyond. induction l as [|e l IH]; [done|]. rewrite !filter_cons.
  destruct (decide (before L (fst e) key)) as [H|H], (decide (before R (fst e) key)) as [H'|H']; cbn; try lia.
  by apply before_not_flip in H.
Qed.

Lemma remove_first_length {A} (P : A -> bool) (x : list A) : (length (remove_first P x) <= length x)%nat.
Proof. induction x as [|e x IH]; [done|]. cbn. destruct (P e); cbn; lia. Qed.

Lemma along_length {A} s (x : list A) : length (along s x) = length x.
Proof. destruct s; [done|]. apply length_rev. Qed.

Lemma spec_length l c : (length (snd (spec_call l c)) <= S (length l))%nat.
Proof.
  pose proof (fun key => beyond_length key l) as Hb.
  destruct c as [k v out|k|k|v|k out| | |s|s|s|s i k|s i k|v out|[[k v]|]|[[k v]|]]; cbn [spec_call snd]; try lia;
    unfold spec_put, spec_remove.
  - destruct (refused cpr k); [lia|]. rewrite length_app. cbn. specialize (Hb k). lia.
  - destruct (refused cpr k); [lia|]. rewrite length_app. specialize (Hb k). lia.
  - cbn. lia.
  - rewrite along_length. pose proof (along_length s l). destruct (along s l); cbn in *; lia.
  - pose proof (remove_first_length (value_is false v) l). lia.
  - destruct (_ && _); [|lia]. rewrite length_app. specialize (Hb k). lia.
Qed.

End Calls.

#[global] Arguments call : clear implicits.
#[global] Arguments answer : clear implicits.

(** ** The code does it *)

Section Does.
Context {Obj : Type} `{!EqDecision Obj} `{!Objects Obj} {cpr : option Obj} `{!KeyOrder cpr}.
Context `{!ghost_mapG Σ positive (TreeMapEntry Obj)} (γ : gname).
Notation ref := (option Obj).
Notation item := (option Obj * option Obj)%type.
Notation M := (SE (world Obj)).
Notation T := (TreeMap Obj).
Notation "a ↦ e" := (cell_at γ a e) (at level 20) : bi_scope.
Notation twp := (twp γ).
Notation map_of := (map_of γ).
Notation at_pointer o := (fst <$> (o : option (@cell Obj))).
Implicit Types (f : T) (key k v : ref) (c : list (@cell Obj)) (l : list item).

Definition in_range f : Prop := -2147483648 <= mModCount f + 1 < 2147483648 /\ mSize f + 1 < 2147483648.
(** The counter of modifications grows, by one at most, when the size changes. *)
Definition stepped f f' : Prop :=
  mComparator f' = mComparator f /\ mModCount f <= mModCount f' <= mModCount f + 1 /\
  (mSize f' <> mSize f -> mModCount f' <> mModCount f).

Lemma moved_stepped f f' : moved 1 f f' -> stepped f f'.
Proof. intros [H1 H2]. split; [done|lia]. Qed.

Lemma stepped_refl f : stepped f f.
Proof. split; [done|lia]. Qed.

Definition is_map l f : iProp Σ := ∃ c, ⌜snd <$> c = l⌝ ∗ map_of c f.

(** From a map with the entries [l], the call leaves and returns [r]. *)
Definition does {X} (m : M X) l (r : X * list item) : Prop :=
  forall f (Φ : X -> T -> iProp Σ), in_range f ->
    is_map l f -∗ (∀ f', ⌜stepped f f'⌝ -∗ is_map (snd r) f' -∗ Φ (fst r) f') -∗ twp m Φ f.

Lemma does_ret {X Y} (m : M X) (g : X -> Y) l x l' : does m l (x, l') -> does (r <- m ;; ret (g r)) l (g x, l').
Proof.
  iIntros (Hm f Φ Hf) "Hl H". tstep. iApply (Hm with "Hl"); [done|]. iIntros (f') "%Hs Hl". tsteps. by iApply "H".
Qed.

(** A key is refused, or found or not. *)
Lemma GetEntry_items key l f (Φ : ECode * option ptr -> T -> iProp Σ) :
  key_ok (cpr := cpr) key -> is_map l f -∗
  ((⌜refused cpr key = true⌝ -∗ is_map l f -∗ Φ (E_NULL_POINTER_EXCEPTION, None) f) ∧
   (∀ c1 o c2, ⌜refused cpr key = false /\ l = snd <$> (c1 ++ option_list o ++ c2) /\
       at_key key l = snd <$> o /\ spec_remove key l = snd <$> (c1 ++ c2)⌝ -∗
     map_of (c1 ++ option_list o ++ c2) f -∗ Φ (NOERROR, Some (at_pointer o)) f)) -∗
  twp (GetEntry key) Φ f.
Proof.
  iIntros (Hk) "(%c & <- & Hm) H". iDestruct (map_of_facts with "Hm") as %(_ & Hq & Ho).
  destruct (refused cpr key) eqn:Er.
  - apply bool_decide_eq_true in Er as [Eq ->]. iApply (GetEntry_null with "[H Hm]"); [congruence|].
    iDestruct "H" as "[H _]". iApply ("H" with "[//]"). iExists c. by iFrame.
  - destruct Hk as [Hk|Hk]; [congruence|]. iApply (GetEntry_map with "Hm"); [done|].
    iIntros (c1 o c2 [-> Hkey]) "Hm". iDestruct "H" as "[_ H]". iApply ("H" with "[%] Hm").
    by destruct (keyed_spec key c1 o c2 Hk Ho Hkey) as (E1 & E2 & _).
Qed.

(** Run [GetEntry]: the key is refused, or the entries are split at it. *)
Ltac with_key key :=
  let Hnull := fresh "Hnull" in
  tstep; iApply (GetEntry_items key with "[$]"); [done|]; unfold checked; iSplit;
  [ iIntros (Hnull) "Hm"; rewrite Hnull; cbn [FAILED fst snd]; tsteps; iApply ("H" with "[%] Hm"); apply stepped_refl
  | iIntros (c1 o c2 (Hnull & -> & Hat & Hrem)) "Hm"; rewrite Hnull; cbn [FAILED fst snd known]; do 2 tstep ].

Lemma is_map_of c f : map_of c f -∗ is_map (snd <$> c) f.
Proof. iIntros "Hm". iExists c. by iFrame. Qed.

Lemma found_among c1 o c2 : among o (c1 ++ option_list o ++ c2).
Proof. intros x ->. apply elem_of_app. right. left. Qed.

(** Reading a value, or a key, through a pointer that may be null. *)
Lemma read_cell {X} o c f (g : TreeMapEntry Obj -> X) (y : ref * ref -> X) (z : X) (Φ : X -> T -> iProp Σ) :
  (forall e, g e = y (mKey e, mValue e)) -> among o c ->
  map_of c f -∗ (map_of c f -∗ Φ (default z (y <$> (snd <$> o))) f) -∗
  twp (if decide (at_pointer o = None) then ret z else get (at_pointer o) g) Φ f.
Proof.
  iIntros (Hg Ho) "Hm H". destruct o as [[a [k v]]|]; cbn [fmap option_fmap option_map fst snd default]; tsteps.
  - iDestruct (map_read γ c a k v with "Hm") as (e [Ek Ev]) "[Ha Hm]"; [by apply Ho|]. tsteps.
    rewrite Hg Ek Ev. iApply "H". by iApply "Hm".
  - by iApply "H".
Qed.

Ltac finish := iApply ("H" with "[%] [-]"); [apply stepped_refl|by iApply is_map_of].

Lemma Get_does key l : key_ok (cpr := cpr) key -> does (Get key) l (checked cpr key (NOERROR, Some (value_at key l)), l).
Proof.
  iIntros (Hk f Φ Hf) "Hl H". unfold Get. with_key key.
  unfold value_at. rewrite Hat. pose proof (found_among c1 o c2) as Ho.
  destruct o as [[a [k v]]|]; cbn [fmap option_fmap option_map fst snd default]; tsteps; [|finish].
  iDestruct (map_read γ _ a k v with "Hm") as (e [Ek Ev]) "[Ha Hm]"; [by apply Ho|]. tsteps. rewrite Ev.
  iDestruct ("Hm" with "Ha") as "Hm". finish.
Qed.

Lemma ContainsKey_does key l : key_ok (cpr := cpr) key ->
  does (ContainsKey key) l (checked cpr key (NOERROR, Some (bool_decide (at_key key l <> None))), l).
Proof.
  iIntros (Hk f Φ Hf) "Hl H". unfold ContainsKey. with_key key. tsteps. rewrite Hat.
  destruct o; finish.
Qed.

Lemma delete_does {X} c1 a kv c2 (x : X) f (Φ : X -> T -> iProp Σ) :
  in_range f -> map_of (c1 ++ (a, kv) :: c2) f -∗
  (∀ f', ⌜stepped f f'⌝ -∗ is_map (snd <$> c1 ++ c2) f' -∗ Φ x f') -∗
  twp (DeleteEntry (Some a)) (fun _ => twp (ret x) Φ) f.
Proof.
  iIntros ([Hf1 Hf2]) "Hm H". iApply (DeleteEntry_cells with "Hm"); [lia|lia|].
  iIntros (c' f' [Hf' <-]) "Hm". tsteps. iApply ("H" with "[%] [Hm]"); [|by iApply is_map_of].
  by apply moved_stepped.
Qed.

Lemma Remove_does key out l : key_ok (cpr := cpr) key ->
  does (Remove key out) l
    (checked cpr key (NOERROR, stored out (value_at key l)), if refused cpr key then l else spec_remove key l).
Proof.
  iIntros (Hk f Φ Hf) "Hl H". unfold Remove. with_key key.
  cbn [snd]. unfold value_at. rewrite Hat Hrem. pose proof (found_among c1 o c2) as Ho.
  destruct o as [[a [k v]]|]; cbn [fmap option_fmap option_map fst snd default option_list app].
  - do 2 tstep. iDestruct (map_entry with "Hm") as (e [Ek Ev]) "[Ha Hm]". destruct out; tsteps.
    + rewrite Ev. iDestruct ("Hm" with "Ha") as "Hm". 
by iApply (delete_does with "Hm").
    + iSpecialize ("Hm" $! (mValue e)). rewrite set_value_id. iSpecialize ("Hm" with "Ha"). by iApply (delete_does with "Hm").
  - do 2 tstep. tsteps. destruct out; finish.
Qed.

Lemma EntryContains_does key value l : key_ok (cpr := cpr) key ->
  does (EntrySet_Contains (Some (key, value))) l (checked cpr key (NOERROR, Some (has_entry key value l)), l).
Proof.
  iIntros (Hk f Φ Hf) "Hl H". unfold EntrySet_Contains. with_key key.
  unfold has_entry. rewrite Hat. pose proof (found_among c1 o c2) as Ho.
  destruct o as [[a [k v]]|]; cbn [fmap option_fmap option_map fst snd default]; tsteps; [|finish].
  iDestruct (map_read γ _ a k v with "Hm") as (e [Ek Ev]) "[Ha Hm]"; [by apply Ho|]. tsteps. rewrite Ev.
  iDestruct ("Hm" with "Ha") as "Hm". finish.
Qed.

Lemma EntryRemove_does key value l : key_ok (cpr := cpr) key ->
  does (EntrySet_Remove (Some (key, value)) true) l
    (checked cpr key (NOERROR, Some (has_entry key value l)),
     if negb (refused cpr key) && has_entry key value l then spec_remove key l else l).
Proof.
  iIntros (Hk f Φ Hf) "Hl H". unfold EntrySet_Remove. with_key key.
  cbn [snd negb andb]. unfold has_entry. rewrite Hat Hrem. pose proof (found_among c1 o c2) as Ho.
  destruct o as [[a [k v]]|]; cbn [fmap option_fmap option_map fst snd default option_list app]; tsteps; [|finish].
  iDestruct (map_read γ _ a k v with "Hm") as (e [Ek Ev]) "[Ha Hm]"; [by apply Ho|]. tsteps. rewrite Ev.
  iDestruct ("Hm" with "Ha") as "Hm". unfold value_is. cbn [snd]. destruct (ValEquals v value); tsteps; [|finish].
  by iApply (delete_does with "Hm").
Qed.

(** *** Entries and their items *)

Lemma filter_snd (P : item -> Prop) `{!forall x, Decision (P x)} c : snd <$> filter (fun x => P (snd x)) c = filter P (snd <$> c).
Proof.
  induction c as [|x c IH]; [done|]. rewrite fmap_cons !filter_cons.
  destruct (decide (P (snd x))); [by rewrite fmap_cons IH|done].
Qed.

Lemma head_snd c : snd <$> head c = head (snd <$> c).
Proof. by destruct c. Qed.

Lemma along_snd s c : snd <$> along s c = along s (snd <$> c).
Proof. destruct s; [done|]. apply fmap_rev. Qed.

Lemma head_among s c : among (head (along s c)) c.
Proof.
  intros x E. destruct (along s c) as [|y c'] eqn:Ec; [done|]. injection E as ->.
  rewrite -(along_along s c) Ec. destruct s; [left|]. apply list_elem_of_In. rewrite -in_rev. by left.
Qed.

Lemma filter_among (P : @cell Obj -> Prop) `{!forall x, Decision (P x)} s c : among (head (filter P (along s c))) c.
Proof.
  intros x E. assert (x ∈ filter P (along s c)) as Hx.
  { destruct (filter P (along s c)); [done|]. injection E as ->. left. }
  apply list_elem_of_filter in Hx as [_ Hx]. destruct s; [done|]. by apply list_elem_of_In, in_rev, list_elem_of_In.
Qed.

Lemma nearest_snd s inclusive key c :
  snd <$> head (filter (fun x => qualifies s inclusive key (snd x)) (along s c)) = spec_nearest s inclusive key (snd <$> c).
Proof. by rewrite head_snd filter_snd along_snd. Qed.

(** *** The ends and the neighbours of a key *)

Lemma key_of_does s l : does (p <- extreme s ;; key_of p) l
  (match head (along s l) with Some e => (NOERROR, Some (fst e)) | None => (E_NO_SUCH_ELEMENT_EXCEPTION, None) end, l).
Proof.
  iIntros (f Φ Hf) "(%c & <- & Hm) H". tstep. iApply (extreme_map γ s with "Hm"). iIntros "Hm".
  rewrite -along_snd -head_snd. pose proof (head_among s c) as Ho. unfold key_of.
  destruct (head (along s c)) as [[a [k v]]|]; cbn [fmap option_fmap option_map fst snd]; tsteps; [|finish].
  iDestruct (map_read γ _ a k v with "Hm") as (e [Ek Ev]) "[Ha Hm]"; [by apply Ho|]. tsteps. rewrite Ek.
  iDestruct ("Hm" with "Ha") as "Hm". finish.
Qed.

Lemma EndEntry_does s l :
  does (p <- extreme s ;; e <- ExportEntry p ;; ret (NOERROR, Some e)) l ((NOERROR, Some (head (along s l))), l).
Proof.
  iIntros (f Φ Hf) "(%c & <- & Hm) H". tstep. iApply (extreme_map γ s with "Hm"). iIntros "Hm". tstep.
  iApply (ExportEntry_map with "Hm"); [apply head_among|]. iIntros "Hm". tsteps. rewrite head_snd along_snd. finish.
Qed.

Lemma along_cons {A} s (x : A) d : exists d1 d2, along s (x :: d) = d1 ++ x :: d2 /\ d1 ++ d2 = along s d.
Proof. destruct s; [by exists [], d|]. exists (rev d), []. by rewrite app_nil_r. Qed.

Lemma poll_does s l :
  does (p <- extreme s ;; poll p) l ((NOERROR, Some (head (along s l))), along s (tail (along s l))).
Proof.
  iIntros (f Φ Hf) "(%c & <- & Hm) H". tstep. iApply (extreme_map γ s with "Hm"). iIntros "Hm". unfold poll. tstep.
  iApply (ExportEntry_map with "Hm"); [apply head_among|]. iIntros "Hm". cbn [fst snd].
  pose proof (along_along s c) as Ec. revert Ec. generalize (along s c) as d. intros d <-.
  rewrite -!along_snd along_along head_snd. 
  destruct d as [|[a e] rest]; cbn [fmap option_fmap option_map fst snd head list_fmap tail]; tsteps.
  - replace (along s (@nil item)) with (@nil item) by by destruct s.
    replace (along s (@nil (@cell Obj))) with (@nil (@cell Obj)) by by destruct s.
    iApply ("H" with "[%] [Hm]"); [apply stepped_refl|]. iExists []. by iFrame.
  - destruct (along_cons (A := @cell Obj) s (a, e) rest) as (d1 & d2 & -> & E). iApply (delete_does with "Hm"); [done|].
    rewrite E. by rewrite along_snd.
Qed.

Lemma nearest_null s inclusive f (Φ : ECode * option ptr -> T -> iProp Σ) :
  Φ (E_NULL_POINTER_EXCEPTION, None) f -∗ twp (nearest s inclusive None) Φ f.
Proof. iIntros "H". unfold nearest. by tsteps. Qed.

Lemma key_at_does s i key l : key = None \/ good key ->
  does (key_at (nearest s i) key) l (not_null key (NOERROR, Some (default None (fst <$> spec_nearest s i key l))), l).
Proof.
  iIntros (Hk f Φ Hf) "(%c & <- & Hm) H". unfold key_at, not_null. tstep.
  destruct (decide (key = None)) as [->|Hn].
  { iApply nearest_null. tsteps. finish. }
  destruct Hk as [Hk|Hk]; [done|]. iApply (nearest_map with "Hm"); [done|done|]. iIntros "Hm".
  rewrite -nearest_snd. pose proof (filter_among (fun x => qualifies s i key (snd x)) s c) as Ho. cbn [fst snd FAILED known]. tsteps.
  destruct (head _) as [[a [k v]]|]; cbn [fmap option_fmap option_map fst snd default]; tsteps; [|finish].
  iDestruct (map_read γ _ a k v with "Hm") as (e [Ek Ev]) "[Ha Hm]"; [by apply Ho|]. tsteps. rewrite Ek.
  iDestruct ("Hm" with "Ha") as "Hm". finish.
Qed.

Lemma entry_at_does s i key l : key = None \/ good key ->
  does (entry_at (nearest s i) key) l (not_null key (NOERROR, Some (spec_nearest s i key l)), l).
Proof.
  iIntros (Hk f Φ Hf) "(%c & <- & Hm) H". unfold entry_at, not_null. tstep.
  destruct (decide (key = None)) as [->|Hn].
  { iApply nearest_null. tsteps. finish. }
  destruct Hk as [Hk|Hk]; [done|]. iApply (nearest_map with "Hm"); [done|done|]. iIntros "Hm".
  rewrite -nearest_snd. cbn [fst snd FAILED known]. tsteps.
  iApply (ExportEntry_map with "Hm"); [apply filter_among|]. iIntros "Hm". tsteps. finish.
Qed.

(** *** The others *)

Lemma Put_null value out f (Φ : ECode * option ref -> T -> iProp Σ) :
  mComparator f = None -> Φ (E_NULL_POINTER_EXCEPTION, None) f -∗ twp (Put None value out) Φ f.
Proof.
  iIntros (Hc) "H". unfold Put, Put_empty. do 2 tstep. destruct (decide (mRoot f = None)); tsteps; rewrite ?Hc; by tsteps.
Qed.

Lemma Put_does key value out l : key_ok (cpr := cpr) key ->
  does (Put key value out) l
    (checked cpr key (NOERROR, stored out (value_at key l)), if refused cpr key then l else spec_put key value l).
Proof.
  iIntros (Hk f Φ [Hf1 Hf2]) "(%c & <- & Hm) H". iDestruct (map_of_facts with "Hm") as %(_ & Hq & Ho).
  unfold checked. destruct (refused cpr key) eqn:Er.
  - apply bool_decide_eq_true in Er as [Eq ->]. iApply Put_null; [congruence|]. finish.
  - destruct Hk as [Hk|Hk]; [congruence|]. iApply (Put_map with "Hm"); [done|lia|lia|].
    iIntros (c1 o c2 c' f' (-> & Hkey & Hput)) "Hm". cbn [fst snd].
    destruct (keyed_spec key c1 o c2 Hk Ho Hkey) as (E1 & _ & E2). rewrite E2 /value_at E1.
    replace (old_value o) with (default None (snd <$> (snd <$> o))) by by destruct o as [[? []]|].
    destruct o as [[a [k v]]|]; cbn [put_in] in Hput.
    + destruct Hput as [-> ->]. iApply ("H" with "[%] [Hm]"); [apply stepped_refl|].
      iExists _. iFrame. by rewrite fmap_app fmap_cons.
    + destruct Hput as (a & -> & Hf). iApply ("H" with "[%] [Hm]"); [by apply moved_stepped|].
      iExists _. iFrame. by rewrite fmap_app fmap_cons.
Qed.

Lemma find_snd b value c : snd <$> head (filter (fun x => value_is b value (snd x)) c) =
  head (filter (fun x => value_is b value x) (snd <$> c)).
Proof. by rewrite head_snd -(filter_snd (fun x => value_is b value x)). Qed.

Lemma find_exists (P : item -> bool) c :
  bool_decide (at_pointer (head (filter (fun x => P (snd x)) c)) <> None) = existsb P (snd <$> c).
Proof.
  induction c as [|x c IH]; [done|]. rewrite filter_cons fmap_cons. cbn [existsb].
  destruct (decide (P (snd x))) as [H|H]; [by apply Is_true_true in H as ->|].
  apply Is_true_false in H as ->. exact IH.
Qed.

Lemma find_split (P : item -> bool) c : 
  match head (filter (fun x => P (snd x)) c) with
  | Some (a, e) => exists c1 c2, c = c1 ++ (a, e) :: c2 /\ existsb P (snd <$> c) = true /\
                     remove_first P (snd <$> c) = snd <$> c1 ++ c2
  | None => existsb P (snd <$> c) = false /\ remove_first P (snd <$> c) = snd <$> c
  end.
Proof.
  induction c as [|[b x] c IH]; [done|]. rewrite filter_cons fmap_cons. cbn [existsb remove_first snd].
  destruct (decide (P x)) as [H|H]; cbn [head]; [apply Is_true_true in H as ->|apply Is_true_false in H as ->].
  - by exists [], c.
  - destruct (head _) as [[a e]|].
    + destruct IH as (c1 & c2 & -> & H1 & H2). exists ((b, x) :: c1), c2. split; [done|]. split; [exact H1|]. cbn [app]. by rewrite H2 fmap_cons.
    + destruct IH as [H1 H2]. by rewrite H1 H2.
Qed.

Lemma ContainsValue_does value l : does (ContainsValue value) l ((NOERROR, Some (existsb (value_is true value) l)), l).
Proof.
  iIntros (f Φ Hf) "(%c & <- & Hm) H". unfold ContainsValue. tstep. iApply (find_value_map with "Hm"). iIntros "Hm".
  tsteps. rewrite (find_exists (value_is true value)). finish.
Qed.

Lemma ValuesRemove_does value out l :
  does (Values_Remove value out) l
    ((NOERROR, stored out (existsb (value_is false value) l)), remove_first (value_is false value) l).
Proof.
  iIntros (f Φ Hf) "(%c & <- & Hm) H". unfold Values_Remove. tstep. iApply (find_value_map with "Hm"). iIntros "Hm".
  pose proof (find_split (value_is false value) c) as E. cbn [fst snd].
  destruct (head _) as [[a e]|]; cbn [fmap option_fmap option_map fst].
  - destruct E as (c1 & c2 & -> & -> & ->). tsteps. by iApply (delete_does with "Hm").
  - destruct E as [-> ->]. tsteps. finish.
Qed.

Lemma Size_does l : does GetSize l ((NOERROR, Some (Z.of_nat (length l))), l).
Proof.
  iIntros (f Φ Hf) "(%c & <- & Hm) H". unfold GetSize. tsteps.
  iDestruct (map_of_facts with "Hm") as %(-> & _). rewrite length_fmap. finish.
Qed.

Lemma Clear_does l : does Clear l (NOERROR, []).
Proof.
  iIntros (f Φ [Hf _]) "(%c & <- & Hm) H". iApply (Clear_map with "Hm"); [done|]. iIntros (f' Hf') "Hm".
  iApply ("H" with "[%] [Hm]"); [by apply moved_stepped|]. iExists []. by iFrame.
Qed.

Lemma call_does (q : call Obj) l : admissible (cpr := cpr) q -> does (run q) l (spec_call l q).
Proof.
  destruct q as [k v out|k|k|v|k out| | |s|s|s|s i k|s i k|v out|[[k v]|]|[[k v]|]]; cbn [admissible run spec_call]; intros H;
    apply does_ret.
  - by apply Put_does.
  - by apply Get_does.
  - by apply ContainsKey_does.
  - apply ContainsValue_does.
  - by apply Remove_does.
  - apply Clear_does.
  - apply Size_does.
  - destruct s; [apply (key_of_does L)|apply (key_of_does R)].
  - destruct s; [apply (EndEntry_does L)|apply (EndEntry_does R)].
  - destruct s; [apply (poll_does L)|apply (poll_does R)].
  - destruct s, i; by apply key_at_does.
  - destruct s, i; by apply entry_at_does.
  - apply ValuesRemove_does.
  - by apply EntryContains_does.
  - iIntros (f Φ Hf) "Hl H". unfold EntrySet_Contains. tsteps. iApply ("H" with "[%] Hl"). apply stepped_refl.
  - by apply EntryRemove_does.
  - iIntros (f Φ Hf) "Hl H". unfold EntrySet_Remove. tsteps. iApply ("H" with "[%] Hl"). apply stepped_refl.
Qed.

End Does.

End TreeMapCalls.
