(* ===== verification/TreeMapAdequacy.v ===== *)
(** * From the logic to runs of the code

    [well_formed w l]: the entries of the world [w] hold a balanced tree of the
    items [l] in order.  A call specified in the logic runs from every such world
    and leaves one. *)
From stdpp Require Import gmap sorting.
From iris.proofmode Require Import proofmode.
From iris.base_logic.lib Require Import ghost_map.
From S2P Require Import Prelude.
From S2P Require Import ECode.
From S2P Require Import TreeMap.
From S2P Require Import TreeShape.
From S2P Require Import TreeMapOrder.
From S2P Require Import TreeMapLogic.
From S2P Require Import TreeMapSearch.
From S2P Require Import TreeMapSpecs.
From S2P Require Import TreeMapCalls.

Module TreeMapAdequacy.

Import TreeMap TreeShape TreeMapOrder TreeMapLogic TreeMapWalk TreeMapSearch TreeMapSpecs TreeMapCalls.

Section Adequacy.
Context {Obj : Type} `{!EqDecision Obj} `{!Objects Obj}.
Notation M := (SE (world Obj)).
Notation T := (TreeMap Obj).
Notation item := (option Obj * option Obj)%type.
Implicit Types (f : T) (t : @tree Obj) (h : gmap positive (TreeMapEntry Obj)) (l : list item).

Definition addresses t : list positive := fst <$> inorder L t.

(** The entries of [h] from a root with the given parent. *)
Fixpoint tree_in h (parent : ptr) t : Prop :=
  match t with
  | Leaf => True
  | Node a c k v l r =>
      h !! a = Some (mk L k v (root l) (root r) parent c) /\ tree_in h (Some a) l /\ tree_in h (Some a) r
  end.

Lemma addresses_node a c k v (l r : @tree Obj) : addresses (Node a c k v l r) = addresses l ++ a :: addresses r.
Proof. unfold addresses. by rewrite (inorder_near L a c k v l r) fmap_app. Qed.

Lemma tree_in_frame h h' parent t : (forall a, a ∈ addresses t -> h' !! a = h !! a) -> tree_in h parent t -> tree_in h' parent t.
Proof.
  revert parent. induction t as [|a c k v l IHl r IHr]; intros parent; [done|].
  rewrite addresses_node. cbn [tree_in]. intros H (Ha & Hl & Hr). split; [|split].
  - rewrite H; [done|]. apply elem_of_app. right. left.
  - apply IHl; [|done]. intros b Hb. apply H, elem_of_app. by left.
  - apply IHr; [|done]. intros b Hb. apply H, elem_of_app. right. by right.
Qed.

Context `{!ghost_mapG Σ positive (TreeMapEntry Obj)} (γ : gname).
Notation "a ↦ e" := (cell_at γ a e) (at level 20) : bi_scope.
Notation twp := (twp γ).
Notation tree_at := (tree_at γ).

(** Handing out the entries of a tree, and checking them back in. *)
Lemma tree_own h parent t : tree_in h parent t -> NoDup (addresses t) ->
  ([∗ map] a ↦ e ∈ h, cell_at γ a e) -∗
  tree_at parent t ∗ ∃ h', ⌜forall a, a ∉ addresses t -> h' !! a = h !! a⌝ ∗ [∗ map] a ↦ e ∈ h', cell_at γ a e.
Proof.
  revert h parent. induction t as [|a c k v l IHl r IHr]; intros h parent.
  { iIntros (_ _) "Hh". iSplitR; [done|]. iExists h. by iFrame. }
  rewrite addresses_node. cbn [tree_in]. intros (Ha & Hl & Hr) (Hdl & Hd & [Hda Hdr]%NoDup_cons)%NoDup_app.
  rewrite (big_sepM_delete _ h a) //. iIntros "[Ha Hh]".
  iDestruct (IHl (delete a h) with "Hh") as "[Hl (%h1 & %H1 & Hh)]"; [|done|].
  { apply (tree_in_frame h); [|done]. intros b Hb. rewrite lookup_delete_ne //. intros ->.
    by apply (Hd b Hb); left. }
  iDestruct (IHr h1 with "Hh") as "[Hr (%h2 & %H2 & Hh)]"; [|done|].
  { apply (tree_in_frame h); [|done]. intros b Hb. rewrite H1; [|intros Hb'; by apply (Hd b Hb'); right].
    rewrite lookup_delete_ne //. by intros ->. }
  iSplitL "Ha Hl Hr"; [by iFrame|]. iExists h2. iFrame. iPureIntro. intros b Hb.
  rewrite not_elem_of_app not_elem_of_cons in Hb. destruct Hb as (Hb1 & Hb2 & Hb3).
  by rewrite H2 // H1 // lookup_delete_ne.
Qed.

Lemma tree_check h parent t : ghost_map_auth γ 1 h -∗ tree_at parent t -∗ ⌜tree_in h parent t⌝.
Proof.
  revert parent. induction t as [|a c k v l IHl r IHr]; intros parent; iIntros "Hh Ht"; [done|].
  iDestruct "Ht" as "(Ha & Hl & Hr)". iDestruct (ghost_map_lookup with "Hh Ha") as %E.
  iDestruct (IHl with "Hh Hl") as %Hl. iDestruct (IHr with "Hh Hr") as %Hr. done.
Qed.

Lemma addresses_apart a e parent t : a ↦ e -∗ tree_at parent t -∗ ⌜a ∉ addresses t⌝.
Proof.
  revert parent. induction t as [|b c k v l IHl r IHr]; intros parent; iIntros "Ha Ht".
  { iPureIntro. apply not_elem_of_nil. }
  iDestruct "Ht" as "(Hb & Hl & Hr)". iDestruct (cell_ne with "Ha Hb") as %?.
  iDestruct (IHl with "Ha Hl") as %?. iDestruct (IHr with "Ha Hr") as %?. iPureIntro.
  rewrite addresses_node not_elem_of_app not_elem_of_cons. done.
Qed.

Lemma trees_apart p q t (u : @tree Obj) : tree_at p t -∗ tree_at q u -∗ ⌜forall b, b ∈ addresses t -> b ∉ addresses u⌝.
Proof.
  revert p. induction t as [|a c k v l IHl r IHr]; intros p; iIntros "Ht Hu".
  { iPureIntro. by intros b ?%not_elem_of_nil. }
  iDestruct "Ht" as "(Ha & Hl & Hr)". iDestruct (addresses_apart with "Ha Hu") as %?.
  iDestruct (IHl with "Hl Hu") as %?. iDestruct (IHr with "Hr Hu") as %?. iPureIntro.
  rewrite addresses_node. by intros b [Hb|[->|Hb]%elem_of_cons]%elem_of_app; auto.
Qed.

Lemma addresses_distinct parent t : tree_at parent t -∗ ⌜NoDup (addresses t)⌝.
Proof.
  revert parent. induction t as [|a c k v l IHl r IHr]; intros parent; iIntros "Ht".
  { iPureIntro. constructor. }
  iDestruct "Ht" as "(Ha & Hl & Hr)". rewrite addresses_node.
  iDestruct (IHl with "Hl") as %?. iDestruct (IHr with "Hr") as %?.
  iDestruct (addresses_apart with "Ha Hl") as %?. iDestruct (addresses_apart with "Ha Hr") as %?.
  iDestruct (trees_apart with "Hl Hr") as %Hd. iPureIntro. apply NoDup_app. split; [done|]. split.
  - intros b Hb [->|Hb']%elem_of_cons; [done|]. by apply (Hd b).
  - by apply NoDup_cons.
Qed.

End Adequacy.

(** ** Worlds *)

Section Worlds.
Context {Obj : Type} `{!EqDecision Obj} `{!Objects Obj}.
Notation M := (SE (world Obj)).
Notation T := (TreeMap Obj).
Notation item := (option Obj * option Obj)%type.
Implicit Types (f : T) (t : @tree Obj) (l : list item) (w : world Obj).

(** The map of the world is the tree. *)
Definition holds w t : Prop :=
  mRoot (this w) = root t /\ mSize (this w) = Z.of_nat (size t) /\ tree_in (entries w) None t /\ NoDup (addresses t).

Definition treeΣ : gFunctors := ghost_mapΣ positive (TreeMapEntry Obj).

(** A map object with its tree is what it owns. *)
Lemma map_check `{!ghost_mapG Σ positive (TreeMapEntry Obj)} (γ : gname) f h t :
  ghost_map_auth γ 1 h -∗ map_at γ f t -∗ ⌜holds {| this := f; entries := h |} t⌝.
Proof.
  iIntros "Hh [[%Hr %Hs] Ht]". iDestruct (tree_check with "Hh Ht") as %Ht. iDestruct (addresses_distinct with "Ht") as %Hd.
  done.
Qed.

(** What a specification in the logic says of runs: the world it ends in is read
    off the assertion it ends with. *)
Lemma adequacy {X} (m : M X) (Q : X -> world Obj -> Prop) w t :
  holds w t ->
  (forall `{!ghost_mapG treeΣ positive (TreeMapEntry Obj)} (γ : gname),
     map_at γ (this w) t -∗
     twp γ m (fun x f => ∀ h, ghost_map_auth γ 1 h -∗ ⌜Q x {| this := f; entries := h |}⌝) (this w)) ->
  exists x w', m w = Some (x, w') /\ Q x w'.
Proof.
  intros (Hr & Hs & Ht & Hd) Hm. apply (pure_soundness (PROP := iPropI treeΣ)). apply uPred.bupd_soundness; [apply _|].
  iMod (ghost_map_alloc (entries w)) as (γ) "[Hh Hcells]".
  iDestruct (tree_own γ with "Hcells") as "[Htree _]"; [done|done|].
  iMod (Hm _ γ with "[$Htree] Hh") as (x f' h' E) "[Hh HQ]"; [done|].
  iDestruct ("HQ" with "Hh") as %HQ. iModIntro. iPureIntro. exists x, {| this := f'; entries := h' |}. by destruct w.
Qed.

End Worlds.

End TreeMapAdequacy.
