(* ===== verification/TreeMapTheorems.v ===== *)
(** * The tree map is a sorted map

    Histories of calls against the sorted list, and the depth of searches. *)
From stdpp Require Import gmap sorting.
From iris.proofmode Require Import proofmode.
From iris.base_logic.lib Require Import ghost_map.
From S2P Require Import Prelude.
From S2P Require Import ECode.
From S2P Require Import TreeMap.
From S2P Require Import TreeShape.
From S2P Require Import TreeMapOrder.
From S2P Require Import TreeMapLogic.
From S2P Require Import TreeMapSearch.
From S2P Require Import TreeMapSpecs.
From S2P Require Import TreeMapCalls.
From S2P Require Import TreeMapReads.
From S2P Require Import TreeMapAdequacy.

Module TreeMapTheorems.

Import TreeMap TreeShape TreeMapOrder TreeMapLogic TreeMapWalk TreeMapSearch TreeMapSpecs TreeMapCalls TreeMapReads
  TreeMapAdequacy TreeMapIntegers.

Section Theorems.
Context {Obj : Type} `{!EqDecision Obj} `{!Objects Obj} {cpr : option Obj} `{!KeyOrder cpr}.
Notation M := (SE (world Obj)).
Notation T := (TreeMap Obj).
Notation item := (option Obj * option Obj)%type.
Implicit Types (f : T) (t : @tree Obj) (l : list item) (w : world Obj) (cs : list (call Obj)).

(** The map of the world is a balanced and ordered tree of these entries. *)
Definition represents w l : Prop := exists t, holds w t /\ shaped (cpr := cpr) (this w) t /\ snd <$> inorder L t = l.

(** Room for [n] more changes in the counters. *)
Definition room (n : nat) f : Prop :=
  -2147483648 <= mModCount f /\ mModCount f + Z.of_nat n < 2147483648 /\ mSize f + Z.of_nat n < 2147483648.

Section Logic.
Context `{!ghost_mapG Σ positive (TreeMapEntry Obj)} (γ : gname).

Lemma is_map_length l f : is_map (cpr := cpr) γ l f -∗ ⌜mSize f = Z.of_nat (length l)⌝.
Proof. iIntros "(%c & <- & Hm)". iDestruct (map_of_facts with "Hm") as %(-> & _). by rewrite length_fmap. Qed.

Lemma history_does cs l f (Φ : list (answer Obj) -> T -> iProp Σ) :
  Forall (admissible (cpr := cpr)) cs -> room (length cs) f ->
  is_map (cpr := cpr) γ l f -∗
  (∀ f', is_map (cpr := cpr) γ (snd (spec_history l cs)) f' -∗ Φ (fst (spec_history l cs)) f') -∗
  twp γ (history cs) Φ f.
Proof.
  iIntros (Hcs Hf) "Hl H". iInduction cs as [|c cs] "IH" forall (l f Φ Hcs Hf).
  { cbn [history]. tsteps. by iApply "H". }
  apply Forall_cons in Hcs as [Hc Hcs]. destruct Hf as (Hf1 & Hf2 & Hf3). cbn [length] in Hf2, Hf3.
  iDestruct (is_map_length with "Hl") as %Hs.
  cbn [history spec_history]. tstep. iApply (call_does γ c l Hc with "Hl"); [split; lia|].
  iIntros (f' (_ & Hmod & _)) "Hl". pose proof (spec_length l c) as Hlen. destruct (spec_call l c) as [a l']. cbn [fst snd] in *.
  iDestruct (is_map_length with "Hl") as %Hs'.
  tstep. iApply ("IH" $! l' f' with "[%] [%] Hl"); [done|split; [|split]; lia|].
  iIntros (f'') "Hl". tsteps. destruct (spec_history l' cs) as [as' l'']. by iApply "H".
Qed.

Lemma is_map_check l f h : ghost_map_auth γ 1 h -∗ is_map (cpr := cpr) γ l f -∗ ⌜represents {| this := f; entries := h |} l⌝.
Proof.
  iIntros "Hh (%c & <- & %t & [%E %Hsh] & Ht)". iDestruct (map_check with "Hh Ht") as %Hw. iPureIntro.
  exists t. by rewrite -E.
Qed.

End Logic.

(** Runs of what the logic specifies on the entries. *)
Lemma run_map {X} (m : M X) (Q : X -> T -> list item -> Prop) w l :
  represents w l ->
  (forall `{!ghost_mapG (treeΣ (Obj := Obj)) positive (TreeMapEntry Obj)} (γ : gname),
     is_map (cpr := cpr) γ l (this w) -∗
     twp γ m (fun x f' => ∃ l', ⌜Q x f' l'⌝ ∗ is_map (cpr := cpr) γ l' f') (this w)) ->
  exists x w' l', m w = Some (x, w') /\ represents w' l' /\ Q x (this w') l'.
Proof.
  intros (t & Hw & Hsh & Hl) Hm.
  destruct (adequacy m (fun x w' => exists l', represents w' l' /\ Q x (this w') l') w t Hw) as (x & w' & E & l' & Hw' & HQ).
  - iIntros (? γ) "Ht". iApply (twp_wand with "[Ht]").
    { iApply Hm. iExists (inorder L t). iSplit; [done|]. iExists t. by iFrame. }
    iIntros (x f') "(%l' & %HQ & Hl)". iIntros (h) "Hh". iDestruct (is_map_check with "Hh Hl") as %Hw'. by iExists l'.
  - by exists x, w', l'.
Qed.

Lemma represents_new h : represents {| this := {| mComparator := cpr; mRoot := None; mSize := 0; mModCount := 0; mKeySet := None; mValues := None |}; entries := h |} [].
Proof.
  exists Leaf. split; [|split; [|done]].
  - repeat split; constructor.
  - split; [done|]. split; [split; [done|by exists O]|apply sorted_nil].
Qed.

(** C6: Every history of calls on a map whose comparator orders the keys is
    defined, returns what the sorted list of the entries says, call by call, and
    leaves a balanced ordered tree of the list's entries. *)
Theorem TreeMap_refines_sorted_list cs h :
  Forall (admissible (cpr := cpr)) cs -> Z.of_nat (length cs) < 2147483648 ->
  exists w, (Constructor_comparator cpr ;;; history cs) {| this := new_TreeMap; entries := h |} =
              Some (fst (spec_history [] cs), w) /\
            represents w (snd (spec_history [] cs)).
Proof.
  intros Hcs Hn.
  destruct (run_map (history cs) (fun r _ l => r = fst (spec_history [] cs) /\ l = snd (spec_history [] cs))
    _ [] (represents_new h)) as (r & w & l & E & Hw & -> & ->).
  - iIntros (? γ) "Hl". iApply (history_does γ cs [] with "Hl"); [done|split; [done|]; cbn; lia|].
    iIntros (f') "Hl". iExists _. by iFrame.
  - exists w. by split.
Qed.

(** The calls that only ask. *)
Definition query (q : call Obj) : bool :=
  match q with
  | CGet _ | CContainsKey _ | CContainsValue _ | CSize | CEndKey _ | CEndEntry _ | CNearKey _ _ _ | CNearEntry _ _ _
  | CEntryContains _ => true
  | _ => false
  end.

Lemma reads_of_query (q : call Obj) : query q = true -> reads (run q).
Proof.
  destruct q as [k v out|k|k|v|k out| | |s|s|s|s i k|s i k|v out|[[k v]|]|[[k v]|]]; try done; intros _; cbn [run];
    (apply reads_bind; [|intros ?; apply reads_ret]).
  - unfold Get. reading.
  - unfold ContainsKey. reading.
  - unfold ContainsValue. reading.
  - unfold GetSize. reading.
  - destruct s; unfold FirstKey, LastKey, GetFirstEntry, GetLastEntry; reading.
  - destruct s; unfold FirstEntry, LastEntry, GetFirstEntry, GetLastEntry; reading.
  - destruct s, i; apply key_at_reads; intros; apply nearest_reads.
  - destruct s, i; apply entry_at_reads; intros; apply nearest_reads.
  - unfold EntrySet_Contains. reading.
  - unfold EntrySet_Contains. reading.
Qed.

(** A query that is defined changes neither the map object, its counter of
    modifications included, nor any entry. *)
Theorem queries_change_nothing (q : call Obj) w a w' : query q = true -> run q w = Some (a, w') -> w' = w.
Proof.
  intros Hq. apply (reads_of_query q Hq).
Qed.

(** C17: A search for a key takes a number of rounds that is logarithmic in the size:
    [n] rounds are enough when [2 ^ n] exceeds the square of the size plus one. *)
Theorem searches_are_logarithmic w l key n :
  represents w l -> good key -> (S (length l) ^ 2 < 2 ^ n)%nat ->
  exists p, GetEntry_loop n cpr key (mRoot (this w)) w = Some (p, w) /\
            (p <> None <-> at_key key l <> None).
Proof.
  intros (t & Hw & (Hc & Hb & Ho) & <-) Hk Hn.
  assert (height t < n)%nat as Hh.
  { apply (Nat.pow_lt_mono_r_iff 2); [lia|]. pose proof (balanced_height t Hb). rewrite length_fmap in Hn. unfold size, cell in *. lia. }
  destruct (adequacy (GetEntry_loop n cpr key (mRoot (this w)))
    (fun p _ => p <> None <-> at_key key (snd <$> inorder L t) <> None) w t Hw) as (p & w' & E & Hp).
  - iIntros (? γ) "[[%Hr %Hs] Ht]". rewrite Hr.
    iApply (GetEntry_loop_spec γ n key [] t with "[//] Ht"); [done|done|done|apply located_nil|].
    iIntros (cx u (Eu & Hl & He)) "_ _". iIntros (h) "_". cbn [plug] in Eu. rewrite -Eu in Ho |- *.
    destruct (ends_keyed key cx u Ho Hk Hl He) as (c1 & o & c2 & Ec & Hkey & -> & _).
    iPureIntro. unfold ordered in Ho. rewrite -> Ec in *.
    destruct (keyed_spec key c1 o c2 Hk Ho Hkey) as [-> _]. by destruct o.
  - exists p. split; [|done]. by rewrite E (GetEntry_loop_reads _ _ _ _ _ _ _ E).
Qed.

End Theorems.

(** ** Concrete maps *)

Lemma three_represents : represents (cpr := None) three three_items.
Proof.
  exists (Node 1 BLACK (Some 5) (Some 50) (Node 2 RED (Some 3) (Some 30) Leaf Leaf) (Node 3 RED (Some 8) (Some 80) Leaf Leaf)).
  split; [|split; [|done]].
  - split; [done|]. split; [done|]. split; [by vm_compute|]. apply (bool_decide_unpack _). by vm_compute.
  - split; [done|]. split; [split; [done|by exists 1%nat]|]. split; repeat constructor; try done; by vm_compute.
Qed.

(** A run with keys put, replaced, asked for and removed. *)
Definition some_calls : list (call Z) :=
  [CPut (Some 5) (Some 50) true; CPut (Some 3) (Some 30) true; CPut (Some 8) (Some 80) false; CPut (Some 3) (Some 31) true;
   CPut None (Some 1) true; CGet (Some 3); CRemove (Some 5) true; CNearKey L false (Some 3); CNearEntry R true (Some 2);
   CPoll R; CSize; CEndKey L].

Lemma some_calls_admissible : Forall (admissible (cpr := None)) some_calls.
Proof. repeat (apply Forall_cons_2; [first [done|by right|by left; vm_compute]|]). by apply Forall_nil_2. Qed.

Lemma TreeMap_refines_sorted_list_witness :
  fst (spec_history (cpr := None) [] some_calls) =
    [ARef (NOERROR, Some None); ARef (NOERROR, Some None); ARef (NOERROR, None); ARef (NOERROR, Some (Some 30));
     ARef (E_NULL_POINTER_EXCEPTION, None); ARef (NOERROR, Some (Some 31)); ARef (NOERROR, Some (Some 50));
     ARef (NOERROR, Some (Some 8)); AEntry (NOERROR, Some None);
     AEntry (NOERROR, Some (Some (Some 8, Some 80))); ASize (NOERROR, Some 1); ARef (NOERROR, Some (Some 3))] /\
  exists w, (Constructor_comparator None ;;; history some_calls) {| this := new_TreeMap; entries := empty |} =
              Some (fst (spec_history (cpr := None) [] some_calls), w) /\
            represents (cpr := None) w [(Some 3, Some 31)].
Proof.
  split; [by vm_compute|]. exact (TreeMap_refines_sorted_list (cpr := None) some_calls empty some_calls_admissible eq_refl).
Defined.

Lemma queries_change_nothing_witness :
  run (CNearKey L true (Some 4)) three = Some (ARef (NOERROR, Some (Some 5)), three) /\ three = three.
Proof.
  split; [by vm_compute|].
  apply (queries_change_nothing (CNearKey L true (Some 4)) three (ARef (NOERROR, Some (Some 5)))); [done|by vm_compute].
Defined.

Lemma searches_are_logarithmic_witness :
  exists p, GetEntry_loop 5 None (Some 8) (Some 1%positive) three = Some (p, three) /\
            (p <> None <-> at_key (cpr := None) (Some 8) three_items <> None).
Proof.
  apply (searches_are_logarithmic (cpr := None) three three_items (Some 8) 5); [exact three_represents|done|].
  apply Nat.ltb_lt. by vm_compute.
Defined.

End TreeMapTheorems.
