(* ===== verification/TreeMapIterate.v ===== *)
(** * Iterators of the tree map

    An iterator stands between the entries it has returned and those it will; its
    [Remove] takes out the last it returned and goes on as if it had not been
    there, whichever entry the deletion reuses. *)
From stdpp Require Import gmap sorting.
From iris.proofmode Require Import proofmode.
From iris.base_logic.lib Require Import ghost_map.
From S2P Require Import Prelude.
From S2P Require Import ECode.
From S2P Require Import TreeMap.
From S2P Require Import TreeShape.
From S2P Require Import TreeMapOrder.
From S2P Require Import TreeMapLogic.
From S2P Require Import TreeMapSearch.
From S2P Require Import TreeMapSpecs.
From S2P Require Import TreeMapCalls.
From S2P Require Import TreeMapAdequacy.
From S2P Require Import TreeMapTheorems.

Module TreeMapIterate.

Import TreeMap TreeShape TreeMapOrder TreeMapLogic TreeMapWalk TreeMapUpdate TreeMapSpecs TreeMapCalls TreeMapAdequacy.
Import TreeMapIntegers TreeMapTheorems.

Section Client.
Context {Obj : Type} `{!EqDecision Obj} `{!Objects Obj}.
Notation M := (SE (world Obj)).
Notation item := (option Obj * option Obj)%type.

(** A client's loop: visit the entries, in ascending order for [R] and descending
    for [L], and remove those it does not want. *)
Definition next_of (s : side) : PrivateEntryIterator -> M (ECode * option item * PrivateEntryIterator) :=
  Next_of (StepEntry s) (fun e => k <- get e mKey ;; v <- get e mValue ;; ret (k, v)).

Fixpoint sweep (s : side) (drop : item -> bool) (n : nat) (it : PrivateEntryIterator) : M (list item) :=
  match n with
  | O => undefined
  | S n =>
      if HasNext it then
        '(_, kv, it) <- next_of s it ;;
        kv <- known kv ;;
        it <- (if drop kv then r <- Iterator_Remove s it ;; ret (snd r) else ret it) ;;
        l <- sweep s drop n it ;; ret (kv :: l)
      else ret []
  end.

(** The iterator at the first entry in the direction. *)
Definition iterator_of (s : side) : M PrivateEntryIterator :=
  match s with R => GetIterator | L => GetDescendingKeyIterator end.

End Client.

Section Iterate.
Context {Obj : Type} `{!EqDecision Obj} `{!Objects Obj} {cpr : option Obj} `{!KeyOrder cpr}.
Context `{!ghost_mapG Σ positive (TreeMapEntry Obj)} (γ : gname).
Notation M := (SE (world Obj)).
Notation T := (TreeMap Obj).
Notation item := (option Obj * option Obj)%type.
Notation "a ↦ e" := (cell_at γ a e) (at level 20) : bi_scope.
Notation twp := (twp γ).
Notation map_of := (map_of (cpr := cpr) γ).
Notation at_pointer o := (fst <$> (o : option (@cell Obj))).
Implicit Types (f : T) (c rest : list (@cell Obj)) (s : side).

(** The iterator before the entries [rest]. *)
Definition before_rest f rest (last : ptr) : PrivateEntryIterator :=
  {| mNext := at_pointer (head rest); mLastReturned := last; mExpectedModCount := mModCount f |}.

Lemma iterator_map s c f (Φ : PrivateEntryIterator -> T -> iProp Σ) :
  map_of c f -∗ (map_of c f -∗ Φ (before_rest f (along (flip s) c) None) f) -∗ twp (iterator_of s) Φ f.
Proof.
  iIntros "Hm H". unfold iterator_of, GetIterator, GetDescendingKeyIterator, GetFirstEntry, GetLastEntry, new_iterator.
  destruct s; cbn [flip]; tstep; iApply (extreme_map with "Hm"); iIntros "Hm"; tsteps; by iApply "H".
Qed.

Lemma StepEntry_map s c c1 a kv rest last f (Φ : ECode * option ptr * PrivateEntryIterator -> T -> iProp Σ) :
  along (flip s) c = c1 ++ (a, kv) :: rest -> map_of c f -∗
  (map_of c f -∗ Φ (NOERROR, Some (Some a), before_rest f rest (Some a)) f) -∗
  twp (StepEntry s (before_rest f ((a, kv) :: rest) last)) Φ f.
Proof.
  iIntros (Hc) "Hm H". unfold StepEntry. cbn [mNext before_rest head fmap option_fmap option_map fst mExpectedModCount].
  do 3 tstep. rewrite decide_False; [|by intros H; apply H]. tstep.
  iApply (neighbour_map with "Hm"); [exact Hc|]. iIntros "Hm". tsteps. by iApply "H".
Qed.

Lemma next_map s c c1 a kv rest last f (Φ : ECode * option item * PrivateEntryIterator -> T -> iProp Σ) :
  along (flip s) c = c1 ++ (a, kv) :: rest -> map_of c f -∗
  (map_of c f -∗ Φ (NOERROR, Some kv, before_rest f rest (Some a)) f) -∗
  twp (next_of s (before_rest f ((a, kv) :: rest) last)) Φ f.
Proof.
  iIntros (Hc) "Hm H". unfold next_of, Next_of. tstep. iApply (StepEntry_map with "Hm"); [exact Hc|].
  iIntros "Hm". cbn [FAILED known]. tsteps. destruct kv as [k v].
  iDestruct (map_read γ c a k v with "Hm") as (e [Ek Ev]) "[Ha Hm]".
  { assert ((a, (k, v)) ∈ along (flip s) c) as Hin by (rewrite Hc; apply elem_of_app; right; left).
    destruct s; cbn in Hin; [|done]. by apply list_elem_of_In, in_rev, list_elem_of_In. }
  tsteps. rewrite Ek Ev. iApply "H". by iApply "Hm".
Qed.

(** The entries right of the deleted one, and which the iterator must go on with. *)
Lemma deleted_right (cx : list (@frame Obj)) a (l r : @tree Obj) : exists m,
  deleted cx a l r = rev (outer L cx) ++ inorder L l ++ m ++ outer R cx /\ snd <$> m = snd <$> inorder L r /\
  (root l <> None -> root r <> None -> first (m ++ outer R cx) = Some a) /\
  (~ (root l <> None /\ root r <> None) -> m = inorder L r).
Proof.
  unfold deleted. destruct (root l) as [b|] eqn:El; [|by exists (inorder L r)].
  destruct (inorder L r) as [|[b' kv] rest] eqn:Er.
  - exists []. apply inorder_nil in Er as ->. done.
  - exists ((a, kv) :: rest). split; [done|]. split; [done|]. split; [done|]. intros []. split; [done|]. by destruct r.
Qed.

Lemma Remove_map s c c1 a kv rest f (Φ : ECode * PrivateEntryIterator -> T -> iProp Σ) :
  along (flip s) c = c1 ++ (a, kv) :: rest -> in_range f -> map_of c f -∗
  (∀ c' c1' rest' f', ⌜moved 1 f f' /\ along (flip s) c' = c1' ++ rest' /\ snd <$> c1' = snd <$> c1 /\
       snd <$> rest' = snd <$> rest⌝ -∗
     map_of c' f' -∗ Φ (NOERROR, before_rest f' rest' None) f') -∗
  twp (Iterator_Remove s (before_rest f rest (Some a))) Φ f.
Proof.
  destruct kv as [k v]. iIntros (Hc [Hf1 Hf2]) "(%t & [<- %Hsh] & Hm) H".
  unfold Iterator_Remove. cbn [mNext before_rest mLastReturned mExpectedModCount].
  do 3 tstep. rewrite decide_False; [|by intros H; apply H]. rewrite along_inorder in Hc.
  apply split_tree in Hc as (cx & col & x & y & -> & -> & ->). iDestruct "Hm" as "[[%Hr %Hs] Ht]". destruct s; cbn [flip node] in *.
  - destruct (deleted_right cx a y x) as (m & Em & Hm & _). tsteps.
    iApply (DeleteEntry_map γ cx a col k v y x with "[$Ht]"); [done|lia|lia|done|].
    iIntros (f' Hf') "Hm". tsteps.
    iApply ("H" $! _ (rev (outer R cx) ++ rev m) (inorder R y ++ outer L cx) with "[%] Hm").
    split; [done|]. split; [|split; [|done]].
    + rewrite Em. cbn [along]. rewrite !rev_app_distr rev_involutive -!app_assoc. by rewrite -(inorder_flip L).
    + rewrite !fmap_app !fmap_rev Hm -(fmap_rev snd (inorder L x)). by rewrite -(inorder_flip L).
  - destruct (deleted_right cx a x y) as (m & Em & Hm & Htwo & Hone).
    rewrite tree_plug. iDestruct "Ht" as "(Hcx & Ha & Hx & Hy)". iSimpl in "Hcx". tsteps.
    iAssert (tree_at γ None (plug cx (Node a col k v x y))) with "[Hcx Ha Hx Hy]" as "Ht".
    { rewrite tree_plug. by iFrame. }
    iApply (DeleteEntry_map γ cx a col k v x y with "[$Ht]"); [done|lia|lia|done|].
    iIntros (f' Hf') "Hm". tsteps.
    assert ((if decide (root x <> None /\ root y <> None) then Some a else at_pointer (head (inorder L y ++ outer R cx)))
            = at_pointer (head (m ++ outer R cx))) as ->.
    { rewrite -!first_head. case_decide as Hd; [by rewrite Htwo; [|apply Hd..]|by rewrite (Hone Hd)]. }
    iApply ("H" $! _ (rev (outer L cx) ++ inorder L x) (m ++ outer R cx) with "[%] Hm").
    split; [done|]. split; [|split; [done|by rewrite !fmap_app Hm]]. rewrite Em. by rewrite -!app_assoc.
Qed.

(** What a sweep keeps. *)
Definition kept (drop : item -> bool) (l : list item) : list item := filter (fun x => ~ drop x) l.

Lemma sweep_map s drop n c c1 rest last f (Φ : list item -> T -> iProp Σ) :
  along (flip s) c = c1 ++ rest -> (length rest < n)%nat -> room (length rest) f -> map_of c f -∗
  (∀ c' f', ⌜snd <$> along (flip s) c' = (snd <$> c1) ++ kept drop (snd <$> rest)⌝ -∗ map_of c' f' -∗
     Φ (snd <$> rest) f') -∗
  twp (sweep s drop n (before_rest f rest last)) Φ f.
Proof.
  iIntros (Hc Hn Hroom) "Hm H".
  iInduction n as [|n] "IH" forall (c c1 rest last f Φ Hc Hn Hroom); [lia|]. cbn [sweep].
  destruct rest as [|[a kv] rest].
  { change (HasNext _) with false. tsteps. iApply ("H" with "[%] Hm"). by rewrite Hc !fmap_app. }
  iDestruct (map_of_facts with "Hm") as %(Hs & _). destruct Hroom as (Hr1 & Hr2 & Hr3). cbn [length] in Hn, Hr2, Hr3.
  change (HasNext _) with true. cbn iota. tstep. iApply (next_map s c c1 a kv rest last with "Hm"); [exact Hc|]. iIntros "Hm". cbn [known].
  do 3 tstep. destruct (drop kv) eqn:Ed.
  - tstep. iApply (Remove_map s c c1 a kv rest with "Hm"); [exact Hc|split; lia|].
    iIntros (c' c1' rest' f' (Hf' & Hc' & E1 & E2)) "Hm". cbn [snd]. 
    iDestruct (map_of_facts with "Hm") as %(Hs' & _).
    assert (length rest' = length rest /\ length c = S (length c')) as [El El'].
    { apply (f_equal length) in E1, E2, Hc, Hc'. rewrite !length_fmap in E1, E2.
      rewrite along_length length_app in Hc. rewrite along_length length_app in Hc'. cbn in Hc. unfold cell in *. lia. }
    tstep. tstep. iApply ("IH" $! c' c1' rest' None f' with "[%] [%] [%] Hm"); [done|lia| |].
    { rewrite El. destruct Hf' as [_ Hf']. split; [|split]; lia. }
    iIntros (c2 f2 Hc2) "Hm". tsteps. rewrite E2. iApply ("H" with "[%] Hm").
    rewrite Hc2 E1 E2. unfold kept. rewrite fmap_cons filter_cons_False; [done|]. rewrite Ed. by intros Hd; apply Hd.
  - tsteps. iApply ("IH" $! c (c1 ++ [(a, kv)]) rest (Some a) f with "[%] [%] [%] Hm"); [by rewrite -app_assoc|lia|split; [|split]; lia|].
    iIntros (c2 f2 Hc2) "Hm". tsteps. iApply ("H" with "[%] Hm").
    rewrite Hc2. unfold kept. rewrite fmap_cons filter_cons_True; [|cbn; rewrite Ed; by intros []]. by rewrite fmap_app -app_assoc.
Qed.


End Iterate.

(** ** Runs *)

Section Runs.
Context {Obj : Type} `{!EqDecision Obj} `{!Objects Obj} {cpr : option Obj} `{!KeyOrder cpr}.
Notation item := (option Obj * option Obj)%type.
Notation at_pointer o := (fst <$> (o : option (@cell Obj))).
Implicit Types (l : list item) (w : world Obj) (s : side).

Lemma kept_along (drop : item -> bool) s l : kept drop (along s l) = along s (kept drop l).
Proof.
  destruct s; [done|]. unfold kept. cbn [along]. induction l as [|x l IH]; [done|]. cbn [rev].
  rewrite filter_app IH !filter_cons filter_nil. destruct (decide _); [done|]. by rewrite app_nil_r.
Qed.

Lemma iterator_does {X} (K : PrivateEntryIterator -> SE (world Obj) X) s (Q : X -> TreeMap Obj -> list item -> Prop) w l :
  represents (cpr := cpr) w l ->
  (forall `{!ghost_mapG (treeΣ (Obj := Obj)) positive (TreeMapEntry Obj)} (γ : gname) c, snd <$> c = l ->
     map_of (cpr := cpr) γ c (this w) -∗
     twp γ (K (before_rest (this w) (along (flip s) c) None))
       (fun x f' => ∃ l', ⌜Q x f' l'⌝ ∗ is_map (cpr := cpr) γ l' f') (this w)) ->
  exists x w' l', (it <- iterator_of s ;; K it) w = Some (x, w') /\ represents (cpr := cpr) w' l' /\ Q x (this w') l'.
Proof.
  intros Hw HK. apply (run_map _ _ w l Hw). iIntros (? γ) "(%c & %Hc & Hm)". tstep.
  iApply (iterator_map with "Hm"). iIntros "Hm". by iApply HK.
Qed.

(** C7: A loop over the map with an iterator, ascending or descending, that removes
    the entries it does not want through the iterator visits every entry once, in
    order, and leaves the map of the entries it kept. *)
Theorem sweeps_visit_and_remove s (drop : item -> bool) n w l :
  represents (cpr := cpr) w l -> room (length l) (this w) -> (length l < n)%nat ->
  exists w', (it <- iterator_of s ;; sweep s drop n it) w = Some (along (flip s) l, w') /\
             represents (cpr := cpr) w' (kept drop l).
Proof.
  intros Hw Hroom Hn.
  destruct (iterator_does (sweep s drop n) s (fun r _ l' => r = along (flip s) l /\ l' = kept drop l) w l Hw)
    as (r & w' & l' & E & Hw' & -> & ->); [|by exists w'].
  iIntros (? γ c <-) "Hm". rewrite length_fmap in Hroom, Hn.
  iApply (sweep_map γ s drop n c [] with "Hm"); [done|by rewrite along_length|by rewrite along_length|].
  iIntros (c' f' Hc') "Hm". iExists _. iSplit; [|by iApply is_map_of]. iPureIntro.
  rewrite -along_snd. split; [done|]. cbn in Hc'. rewrite along_snd along_snd kept_along in Hc'.
  rewrite -(along_along (flip s) (snd <$> c')) Hc'. by rewrite along_along.
Qed.

(** C21: an iterator does not outlive a change. On a map that is not empty an
    iterator is made, in either direction, and then one call is made that
    changes the number of entries: the iterator's next step fails with
    [E_CONCURRENT_MODIFICATION_EXCEPTION], and the map is what the call left. *)
Theorem iterators_fail_fast s (q : call Obj) w l :
  represents (cpr := cpr) w l -> l <> [] -> room 1 (this w) ->
  admissible (cpr := cpr) q -> length (snd (spec_call (cpr := cpr) l q)) <> length l ->
  exists it w', (it <- iterator_of s ;; run q ;;; next_of s it) w =
                  Some (E_CONCURRENT_MODIFICATION_EXCEPTION, None, it, w') /\
                represents (cpr := cpr) w' (snd (spec_call (cpr := cpr) l q)).
Proof.
  intros Hw Hl (Hr1 & Hr2 & Hr3) Hq Hlen.
  destruct (iterator_does (fun it => run q ;;; next_of s it) s
    (fun r _ l' => fst r = (E_CONCURRENT_MODIFICATION_EXCEPTION, None) /\ l' = snd (spec_call (cpr := cpr) l q)) w l Hw)
    as ([[ec x] it] & w' & l' & E & Hw' & [= -> ->] & ->); [|by exists it, w'].
  iIntros (? γ c <-) "Hm". iDestruct (map_of_facts with "Hm") as %(Hs & _). tstep.
  iApply (call_does γ q _ Hq with "[Hm]"); [split; lia|by iApply is_map_of|].
  iIntros (f' (_ & _ & Hf')) "Hl".
  iDestruct (is_map_length with "Hl") as %Hs'.
  rewrite length_fmap in Hlen. assert (mModCount f' <> mModCount (this w)) as Hmod by (apply Hf'; rewrite Hs Hs'; intros Hz%Nat2Z.inj; by apply Hlen).
  unfold next_of, Next_of, StepEntry. tstep.
  assert (at_pointer (head (along (flip s) c)) <> None) as Hnext.
  { intros Ec. apply Hl. destruct (along (flip s) c) eqn:Ed; [|done]. apply (f_equal length) in Ed.
    rewrite along_length in Ed. by destruct c. }
  cbn [mNext before_rest mExpectedModCount]. tsteps. cbn [FAILED]. tsteps.
  iExists _. by iFrame.
Qed.

End Runs.

(** Without the middle one, whose entry takes over the next. *)
Definition is_five (e : option Z * option Z) : bool := bool_decide (fst e = Some 5).

Lemma sweeps_visit_and_remove_witness :
  kept is_five three_items = [(Some 3, Some 30); (Some 8, Some 80)] /\
  exists w', (it <- iterator_of R ;; sweep R is_five 4 it) three = Some (three_items, w') /\
             represents (cpr := None) w' (kept is_five three_items).
Proof.
  split; [by vm_compute|].
  apply (sweeps_visit_and_remove (cpr := None) R is_five 4 three three_items); [exact three_represents|by repeat split|].
  apply Nat.ltb_lt. by vm_compute.
Defined.

Lemma iterators_fail_fast_witness :
  exists it w', (it <- iterator_of R ;; run (CRemove (Some 5) true) ;;; next_of R it) three =
                  Some (E_CONCURRENT_MODIFICATION_EXCEPTION, None, it, w') /\
                represents (cpr := None) w' [(Some 3, Some 30); (Some 8, Some 80)].
Proof.
  assert (snd (spec_call (cpr := None) three_items (CRemove (Some 5) true)) = [(Some 3, Some 30); (Some 8, Some 80)]) as <-
    by by vm_compute.
  apply (iterators_fail_fast (cpr := None) R (CRemove (Some 5) true) three three_items);
    [exact three_represents|done|by repeat split|by right|by vm_compute].
Defined.

End TreeMapIterate.
