(* ===== verification/TreeMapBuild.v ===== *)
(** * Building trees from sorted items

    [BuildFromSorted] makes a perfectly balanced tree in linear time and colours
    its bottom level red; [PutAll] uses it where it may, and puts the items one by
    one where it may not. *)
From stdpp Require Import gmap sorting.
From iris.proofmode Require Import proofmode.
From iris.base_logic.lib Require Import ghost_map.
From S2P Require Import Prelude.
From S2P Require Import ECode.
From S2P Require Import TreeMap.
From S2P Require Import TreeShape.
From S2P Require Import TreeMapOrder.
From S2P Require Import TreeMapLogic.
From S2P Require Import TreeMapBalance.
From S2P Require Import TreeMapSearch.
From S2P Require Import TreeMapSpecs.
From S2P Require Import TreeMapCalls.
From S2P Require Import TreeMapAdequacy.
From S2P Require Import TreeMapTheorems.
From S2P Require Import TreeMapIterate.
From S2P Require Import TreeMapReads.

Module TreeMapBuild.

Import TreeMap TreeShape TreeMapOrder TreeMapLogic TreeMapRotate TreeMapWalk TreeMapSearch TreeMapSpecs TreeMapCalls.
Import TreeMapAdequacy TreeMapIntegers TreeMapTheorems TreeMapIterate TreeMapLevels.

Section Build.
Context {Obj : Type} `{!EqDecision Obj} `{!Objects Obj}.
Context `{!ghost_mapG Σ positive (TreeMapEntry Obj)} (γ : gname).
Notation M := (SE (world Obj)).
Notation T := (TreeMap Obj).
Notation item := (option Obj * option Obj)%type.
Notation "a ↦ e" := (cell_at γ a e) (at level 20) : bi_scope.
Notation twp := (twp γ).
Notation tree_at := (tree_at γ).
Implicit Types (f : T) (l : list item) (src : @source Obj) (t : @tree Obj).

(** The source delivers the items and is left as [src']. *)
Definition delivers src l src' : Prop :=
  match src with
  | Entries es => exists rest, es = l ++ rest /\ src' = Entries rest
  | Keys ks d => exists ks1 rest, ks = ks1 ++ rest /\ l = ((fun k => (k, Some d)) <$> ks1) /\ src' = Keys rest d
  end.

Lemma delivers_nil src src' : delivers src [] src' -> src' = src.
Proof.
  destruct src; cbn; [by intros (rest & -> & ->)|]. intros ([|] & rest & -> & E & ->); [done|discriminate].
Qed.

Lemma delivers_app src l1 l2 src' : delivers src (l1 ++ l2) src' -> exists src1, delivers src l1 src1 /\ delivers src1 l2 src'.
Proof.
  destruct src as [es|ks d]; cbn.
  - intros (rest & -> & ->). exists (Entries (l2 ++ rest)). split; [exists (l2 ++ rest); by rewrite app_assoc|by exists rest].
  - intros (ks1 & rest & -> & E & ->). symmetry in E. apply fmap_app_inv in E as (a & b & -> & -> & ->).
    exists (Keys (b ++ rest) d). split; [exists a, (b ++ rest); by rewrite app_assoc|by exists b, rest].
Qed.

Lemma next_item_spec src k v src' f (Φ : option Obj * option Obj * source -> T -> iProp Σ) :
  delivers src [(k, v)] src' -> Φ (k, v, src') f -∗ twp (next_item src) Φ f.
Proof.
  iIntros (H) "HΦ". destruct src as [es|ks d]; cbn in H.
  - destruct H as (rest & -> & ->). by iApply twp_ret.
  - destruct H as ([|k1 [|]] & rest & -> & E & ->); try discriminate. injection E as -> ->. by iApply twp_ret.
Qed.

Lemma shiftr_mid lo hi : 0 <= lo + hi < 2147483648 -> Z.shiftr (wrap_u 32 (lo + hi)) 1 = (lo + hi) / 2.
Proof. intros H. rewrite Z.shiftr_div_pow2 // wrap_u_id; [done|]. unfold fits_u. change (2 ^ 32) with 4294967296. lia. Qed.

Lemma attach_left tl a k v c f (Φ : unit -> T -> iProp Σ) :
  tree_at None tl -∗ a ↦ mk L k v None None None c -∗
  (tree_at (Some a) tl -∗ a ↦ mk L k v (root tl) None None c -∗ Φ tt f) -∗
  twp (if decide (root tl = None) then ret tt
       else put (Some a) (set_child L (root tl)) ;;; put (root tl) (set_parent (Some a))) Φ f.
Proof.
  iIntros "Ht Ha H". destruct tl as [|b cb kb vb x y]; cbn [root]; tsteps.
  - by iApply ("H" with "Ht Ha").
  - iDestruct "Ht" as "(Hb & Hx & Hy)". tsteps. iApply ("H" with "[Hb Hx Hy] Ha"). iFrame.
Qed.

(** A subtree [d] levels above the red one. *)
Lemma BuildFromSorted_range_spec d n level lo hi red src l src' f (Φ : ptr * source -> T -> iProp Σ) :
  red = level + Z.of_nat d -> level_size d (hi - lo + 1) -> Z.of_nat (length l) = hi - lo + 1 -> (length l < n)%nat ->
  0 <= lo -> 2 * hi < 2147483648 -> delivers src l src' ->
  (∀ t, ⌜rb d t /\ (d <> O -> color t = BLACK) /\ snd <$> inorder L t = l⌝ -∗ tree_at None t -∗ Φ (root t, src') f) -∗
  twp (BuildFromSorted_range n level lo hi red src) Φ f.
Proof.
  revert d level lo hi src l src' Φ. induction n as [|n IH]; intros d level lo hi src l src' Φ; [lia|].
  iIntros (Hred Hd Hl Hn Hlo Hhi Hsrc) "H". cbn [BuildFromSorted_range].
  destruct (Z.ltb_spec hi lo) as [Hlt|Hle].
  - assert (l = []) as -> by (destruct l; [done|cbn in Hl; lia]).
    assert (d = O) as ->. { destruct d; [done|]. apply level_size_pos in Hd. lia. }
    apply delivers_nil in Hsrc as ->. tsteps. by iApply ("H" $! Leaf).
  - tstep. iApply twp_int; [lia|]. cbn beta. rewrite shiftr_mid; [|lia].
    set (mid := (lo + hi) / 2). assert (lo <= mid <= hi) as Hmid by (unfold mid; Z.to_euclidean_division_equations; lia).
    assert (mid - lo = (hi - lo + 1 - 1) / 2) as Em by (unfold mid; Z.to_euclidean_division_equations; lia).
    (* the items of the two subtrees, and the middle one *)
    assert (exists l1 k v l2, l = l1 ++ [(k, v)] ++ l2 /\ Z.of_nat (length l1) = mid - lo /\ Z.of_nat (length l2) = hi - mid)
      as (l1 & k & v & l2 & -> & Hl1 & Hl2).
    { destruct (lookup_lt_is_Some_2 l (Z.to_nat (mid - lo))) as [[k v] Hkv]; [lia|].
      apply list_elem_of_split_length in Hkv as (l1 & l2 & -> & E). exists l1, k, v, l2. rewrite length_app in Hl. cbn in Hl. cbn.
      split; [done|]. lia. }
    apply delivers_app in Hsrc as (src1 & Hsrc1 & Hsrc). apply delivers_app in Hsrc as (src2 & Hsrc2 & Hsrc3).
    rewrite !length_app in Hn. cbn in Hn. destruct d as [|d].
    + apply level_size_zero in Hd.
      assert (l1 = [] /\ l2 = []) as [-> ->] by (destruct l1, l2; cbn in Hl1, Hl2; split; [done..|lia|lia|lia|lia|lia|lia]).
      apply delivers_nil in Hsrc1 as ->. apply delivers_nil in Hsrc3 as ->.
      destruct (Z.ltb_spec lo mid); [cbn in Hl1; lia|]. tsteps. iApply (next_item_spec src k v); [done|].
      tsteps. iApply twp_new. iIntros (a) "Ha". change (new_entry k v None) with (mk L k v None None None BLACK).
      rewrite (proj2 (Z.eqb_eq level red)); [|lia]. tsteps. destruct (Z.ltb_spec mid hi); [cbn in Hl2; lia|]. tsteps.
      iApply ("H" $! (Node a RED k v Leaf Leaf) with "[%]"); [done|]. by iFrame.
    + apply level_size_split in Hd as [Hd1 Hd2].
      rewrite -Em in Hd1 Hd2. replace (hi - lo + 1 - 1 - (mid - lo)) with (hi - mid) in Hd2 by lia.
      assert ((if lo <? mid then BuildFromSorted_range n (level + 1) lo (mid - 1) red src else ret (None, src)) =
              BuildFromSorted_range n (level + 1) lo (mid - 1) red src) as ->.
      { destruct (Z.ltb_spec lo mid) as [_|Hm]; [done|]. destruct n as [|n']; [lia|]. cbn [BuildFromSorted_range].
        by destruct (Z.ltb_spec (mid - 1) lo); [|lia]. }
      tstep. iApply (IH d _ _ _ _ l1); [lia|by replace (mid - 1 - lo + 1) with (mid - lo) by lia|lia|lia|lia|lia|exact Hsrc1|].
      iIntros (tl (Htl & _ & El)) "Hl". tstep. iApply (next_item_spec src1 k v); [done|].
      tsteps. iApply twp_new. iIntros (a) "Ha". change (new_entry k v None) with (mk L k v None None None BLACK).
      rewrite (proj2 (Z.eqb_neq level red)); [|lia]. tsteps.
      iApply (attach_left with "Hl Ha"). iIntros "Hl Ha". destruct (Z.ltb_spec mid hi) as [Hm|Hm].
      * tstep. iApply (IH d _ _ _ _ l2); [lia|by replace (hi - (mid + 1) + 1) with (hi - mid) by lia|lia|lia|lia|lia|exact Hsrc3|].
        iIntros (tr (Htr & _ & Er)) "Hr". destruct tr as [|b cb kb vb x y]; [cbn in Er; subst l2; cbn in Hl2; lia|].
        iDestruct "Hr" as "(Hb & Hx & Hy)". cbn [root]. tsteps.
        iApply ("H" $! (Node a BLACK k v tl (Node b cb kb vb x y)) with "[%]"); [|by iFrame].
        split; [by split|]. split; [done|]. by rewrite (inorder_near L a) fmap_app fmap_cons El Er.
      * assert (l2 = []) as -> by (destruct l2; [done|cbn in Hl2; lia]). apply delivers_nil in Hsrc3 as ->. tsteps.
        assert (d = O) as ->. { destruct d; [done|]. apply level_size_pos in Hd2. lia. }
        iApply ("H" $! (Node a BLACK k v tl Leaf) with "[%]"); [|by iFrame].
        split; [by split|]. split; [done|]. by rewrite (inorder_near L a) fmap_app fmap_cons El.
Qed.

Lemma BuildFromSorted_spec size l src src' f (Φ : ECode -> T -> iProp Σ) :
  size = Z.of_nat (length l) -> size <= 1073741824 -> delivers src l src' ->
  (∀ t, ⌜balanced t /\ snd <$> inorder L t = l⌝ -∗
     map_at γ {| mComparator := mComparator f; mRoot := root t; mSize := size; mModCount := mModCount f; mKeySet := mKeySet f; mValues := mValues f |} t -∗
     Φ NOERROR {| mComparator := mComparator f; mRoot := root t; mSize := size; mModCount := mModCount f; mKeySet := mKeySet f; mValues := mValues f |}) -∗
  twp (BuildFromSorted size src) Φ f.
Proof.
  iIntros (Hs Hb Hsrc) "H". unfold BuildFromSorted, set_mSize. tsteps.
  destruct (ComputeRedLevel_spec size) as (d & Ed & Hd & Hz); [lia|].
  iApply (BuildFromSorted_range_spec d _ _ _ _ _ _ l); [by rewrite Ed|by replace (size - 1 - 0 + 1) with size by lia|lia|lia|lia|lia|exact Hsrc|].
  iIntros (t (Hrb & Hc & Et)) "Ht". tsteps. iApply ("H" with "[%] [Ht]").
  - split; [|done]. split; [|by exists d]. destruct d; [|by apply Hc].
    destruct t as [|a c k v x y]; [done|]. exfalso. apply Hz; [|done]. rewrite Hs -Et. intros E.
    apply (f_equal Z.to_nat) in E. rewrite Nat2Z.id length_fmap -/(TreeShape.size (Node a c k v x y)) size_Node in E. done.
  - iFrame. iPureIntro. split; [done|]. cbn. rewrite Hs -Et length_fmap. done.
Qed.

End Build.

(** ** [PutAll] *)

Section PutAll.
Context {Obj : Type} `{!EqDecision Obj} `{!Objects Obj} {cpr : option Obj} `{!KeyOrder cpr}.
Notation T := (TreeMap Obj).
Notation item := (option Obj * option Obj)%type.
Implicit Types (f : T) (l items : list item) (m : @IMap Obj).

(** One by one; a refused key ends it. *)
Fixpoint spec_put_all l items : ECode * list item :=
  match items with
  | [] => (NOERROR, l)
  | (k, v) :: items => if refused cpr k then (E_NULL_POINTER_EXCEPTION, l) else spec_put_all (spec_put k v l) items
  end.

(** [PutAll] takes its argument for a map sorted in the same order. *)
Definition same_order m : bool :=
  match ISortedMap_Comparator m with
  | Some c => bool_decide (c = cpr) || match c with Some c => Object_Equals c cpr | None => false end
  | None => false
  end.

Lemma good_accepted k : good k -> refused cpr k = false.
Proof.
  intros Hk. apply bool_decide_eq_false. intros [E ->].
  by apply (good_not_null None {| mComparator := None; mRoot := None; mSize := 0; mModCount := 0; mKeySet := None; mValues := None |}).
Qed.

Lemma spec_put_last k v l : sorted L (l ++ [(k, v)]) -> spec_put k v l = l ++ [(k, v)].
Proof.
  intros (H & Hl & Hk)%sorted_app.
  assert (all_before L k l) as Hb.
  { apply Forall_forall. intros e He. by apply (H e (k, v)); [|left]. }
  destruct Hk as [_ Hk%Forall_inv]. destruct Hl as [_ Hg]. cbn in Hk.
  unfold spec_put. rewrite beyond_all // (beyond_none L) //. by rewrite /at_key (at_key_none L).
Qed.

Lemma spec_put_all_sorted l items : sorted L (l ++ items) -> spec_put_all l items = (NOERROR, l ++ items).
Proof.
  revert l. induction items as [|[k v] items IH]; intros l H; cbn; [by rewrite app_nil_r|].
  pose proof H as H'. rewrite (assoc_L app l [(k, v)] items) in H'.
  assert (sorted L (l ++ [(k, v)])) as Hl by by apply sorted_app in H' as (_ & H' & _).
  rewrite good_accepted; [|apply sorted_app in H as (_ & _ & H); by apply sorted_cons in H as (_ & H & _)].
  rewrite spec_put_last //. rewrite IH; [by rewrite -app_assoc|done].
Qed.

Context `{!ghost_mapG Σ positive (TreeMapEntry Obj)} (γ : gname).
Notation twp := (twp γ).
Notation is_map := (is_map (cpr := cpr) γ).

Lemma is_map_size l f : is_map l f -∗ ⌜mSize f = Z.of_nat (length l) /\ mComparator f = cpr⌝.
Proof. iIntros "(%c & <- & Hm)". iDestruct (map_of_facts with "Hm") as %(-> & Hc & _). by rewrite length_fmap. Qed.

Lemma AbstractMap_PutAll_map items l f (Φ : ECode -> T -> iProp Σ) :
  Forall (fun e => key_ok (cpr := cpr) (fst e)) items -> room (length items) f ->
  is_map l f -∗ (∀ f', is_map (snd (spec_put_all l items)) f' -∗ Φ (fst (spec_put_all l items)) f') -∗
  twp (AbstractMap_PutAll items) Φ f.
Proof.
  iIntros (Hk Hroom) "Hl H". iInduction items as [|[k v] items] "IH" forall (l f Hk Hroom); cbn [AbstractMap_PutAll spec_put_all].
  { tsteps. by iApply "H". }
  apply Forall_cons in Hk as [Hk Hks]. destruct Hroom as (Hr1 & Hr2 & Hr3). cbn [length] in Hr2, Hr3.
  iDestruct (is_map_size with "Hl") as %[Hs _]. tstep.
  pose proof (spec_length (cpr := cpr) l (CPut k v false)) as Hlen. cbn [spec_call snd] in Hlen.
  iApply (Put_does γ k v false l Hk with "Hl"); [split; lia|]. iIntros (f' (_ & Hmod & _)) "Hl".
  iDestruct (is_map_size with "Hl") as %[Hs' _]. unfold checked. cbn [fst snd] in *.
  destruct (refused cpr k); cbn [FAILED fst snd]; tsteps; [by iApply "H"|].
  iApply ("IH" $! (spec_put k v l) f' with "[%] [%] Hl H"); [done|split; [|split]; lia].
Qed.

Lemma PutAll_map m l f (Φ : ECode -> T -> iProp Σ) :
  map_size m = Z.of_nat (length (map_items m)) -> map_size m <= 1073741824 ->
  Forall (fun e => key_ok (cpr := cpr) (fst e)) (map_items m) ->
  (same_order m = true -> sorted L (map_items m)) -> room (S (length (map_items m))) f ->
  is_map l f -∗
  (∀ f', is_map (snd (spec_put_all l (map_items m))) f' -∗ Φ (fst (spec_put_all l (map_items m))) f') -∗
  twp (PutAll m) Φ f.
Proof.
  iIntros (Hs Hb Hk Hsame (Hr1 & Hr2 & Hr3)) "Hl H". unfold PutAll. iDestruct (is_map_size with "Hl") as %[Hn Hc].
  do 4 tstep. rewrite Hc.
  change (match ISortedMap_Comparator m with Some c => _ | None => false end) with (same_order m).
  destruct (_ && _ && _) eqn:E.
  - apply andb_true_iff in E as [[E1%Z.eqb_eq _]%andb_true_iff E2]. specialize (Hsame E2).
    assert (l = []) as -> by (destruct l; [done|cbn in Hn; lia]).
    rewrite (spec_put_all_sorted []) //. cbn [fst snd app].
    unfold bump_mModCount, set_mModCount. tsteps. iApply twp_int; [lia|]. tsteps.
    iApply (BuildFromSorted_spec γ _ (map_items m) _ (Entries [])); [done|done|exists []; by rewrite app_nil_r|].
    iIntros (t [Hbal Et]) "Ht". iApply "H". iExists (inorder L t). iSplit; [done|]. iExists t. iFrame. iPureIntro.
    split; [done|]. split; [done|]. split; [done|]. unfold ordered. by rewrite Et.
  - iApply (AbstractMap_PutAll_map with "Hl H"); [done|split; [|split]; lia].
Qed.

End PutAll.

(** ** Copies *)

Section Clone.
Context {Obj : Type} `{!EqDecision Obj} `{!Objects Obj} {cpr : option Obj} `{!KeyOrder cpr}.
Notation T := (TreeMap Obj).
Notation item := (option Obj * option Obj)%type.
Implicit Types (f : T) (l : list item) (w : world Obj).

Section Logic.
Context `{!ghost_mapG Σ positive (TreeMapEntry Obj)} (γ : gname).
Notation "a ↦ e" := (cell_at γ a e) (at level 20) : bi_scope.
Notation twp := (twp γ).
Notation map_of := (map_of (cpr := cpr) γ).
Implicit Types (c rest : list (@cell Obj)).

Lemma items_loop n c c1 rest last l f (Φ : PrivateEntryIterator * list item -> T -> iProp Σ) :
  c = c1 ++ rest -> (length rest < n)%nat -> map_of c f -∗
  (∀ it, map_of c f -∗ Φ (it, l ++ (snd <$> rest)) f) -∗
  twp (while n (fun '(it, l) =>
         if HasNext it then
           '(_, e, it) <- EntryIterator_Next it ;;
           e <- known e ;; k <- get e mKey ;; v <- get e mValue ;;
           ret (it, l ++ [(k, v)], true)
         else ret (it, l, false)) (before_rest f rest last, l)) Φ f.
Proof.
  iIntros (Hc Hn) "Hm H". iInduction n as [|n] "IH" forall (c1 rest last l Hc Hn); [lia|]. iApply twp_while_step. cbn beta iota.
  destruct rest as [|[a [k v]] rest].
  { change (HasNext (before_rest f [] last)) with false. tsteps. cbn [fst snd]. rewrite app_nil_r. by iApply "H". }
  change (HasNext (before_rest f ((a, (k, v)) :: rest) last)) with true. cbn iota. tstep. unfold EntryIterator_Next, Next_of, NextEntry. tstep.
  iApply (StepEntry_map γ R c c1 a (k, v) rest with "Hm"); [exact Hc|]. iIntros "Hm". cbn [FAILED known]. tsteps. cbn [known]. tsteps.
  iDestruct (map_read γ c a k v with "Hm") as (e [Ek Ev]) "[Ha Hm]".
  { rewrite Hc. apply elem_of_app. right. left. }
  tsteps. rewrite Ek Ev. cbn [fst snd]. iDestruct ("Hm" with "Ha") as "Hm".
  iApply ("IH" $! (c1 ++ [(a, (k, v))]) rest with "[%] [%] Hm"); [by rewrite -app_assoc|cbn in Hn; lia|].
  iIntros (it) "Hm". rewrite -app_assoc. by iApply "H".
Qed.

Lemma items_map c f (Φ : list item -> T -> iProp Σ) :
  map_of c f -∗ (map_of c f -∗ Φ (snd <$> c) f) -∗ twp items Φ f.
Proof.
  iIntros "Hm H". unfold items, rounds. iDestruct (map_of_facts with "Hm") as %(Hs & _). tstep.
  iApply (iterator_map γ R with "Hm"). iIntros "Hm". do 3 tstep.
  iApply (items_loop _ c [] c None [] with "Hm"); [done|lia|]. iIntros (it) "Hm". tsteps. by iApply "H".
Qed.

Lemma CloneImpl_map clone c f (Φ : ECode * T -> T -> iProp Σ) :
  mSize f <= 1073741824 -> map_of c f -∗
  (∀ t, ⌜balanced t /\ snd <$> inorder L t = snd <$> c⌝ -∗ map_of c f -∗
     map_at γ {| mComparator := mComparator clone; mRoot := root t; mSize := mSize f; mModCount := mModCount clone; mKeySet := mKeySet f; mValues := mValues f |} t -∗
     Φ (NOERROR, {| mComparator := mComparator clone; mRoot := root t; mSize := mSize f; mModCount := mModCount clone; mKeySet := mKeySet f; mValues := mValues f |}) f) -∗
  twp (CloneImpl clone) Φ f.
Proof.
  iIntros (Hsize) "Hm H". iDestruct (map_of_facts with "Hm") as %(Hs & _). unfold CloneImpl. do 4 tstep. cbn zeta. tstep.
  iApply (items_map with "Hm"). iIntros "Hm". do 3 tstep. iApply twp_on.
  iApply (BuildFromSorted_spec γ (mSize f) (snd <$> c) (Entries (snd <$> c)) (Entries [])).
  - by rewrite Hs length_fmap.
  - done.
  - exists []. by rewrite app_nil_r.
  - iIntros (t Ht) "Ht". tsteps. cbn [snd]. by iApply ("H" with "[//] Hm Ht").
Qed.

End Logic.

End Clone.

(** ** Runs *)

Section Runs.
Context {Obj : Type} `{!EqDecision Obj} `{!Objects Obj} {cpr : option Obj} `{!KeyOrder cpr}.
Notation item := (option Obj * option Obj)%type.
Notation represents := (represents (cpr := cpr)).
Implicit Types (l : list item) (w : world Obj) (cs : list (call Obj)).

(** C19: a map built in linear time from a sorted map in its order has the sorted
    map's entries, in an ordered, balanced red-black tree. *)
Theorem sorted_maps_are_copied (m : @IMap Obj) h :
  ISortedMap_Comparator m = Some cpr -> map_size m = Z.of_nat (length (map_items m)) -> map_size m <= 1073741824 ->
  sorted L (map_items m) ->
  exists w, Constructor_sorted m {| this := new_TreeMap; entries := h |} = Some (NOERROR, w) /\ represents w (map_items m).
Proof.
  intros Hc Hs Hb Ho.
  destruct (run_map (BuildFromSorted (map_size m) (Entries (map_items m)) ;;; ret NOERROR)
    (fun ec _ l => ec = NOERROR /\ l = map_items m) _ [] (represents_new (cpr := cpr) h)) as (ec & w & l & E & Hw & -> & ->).
  - iIntros (? γ) "_". tstep.
    iApply (BuildFromSorted_spec γ _ (map_items m) _ (Entries [])); [done|done|exists []; by rewrite app_nil_r|].
    iIntros (t [Hbal Et]) "Ht". tsteps. iExists (map_items m). iSplit; [done|]. iExists (inorder L t). iSplit; [done|].
    iExists t. iFrame. iPureIntro. split; [done|]. split; [done|]. split; [done|]. unfold ordered. by rewrite Et.
  - exists w. split; [|done]. unfold Constructor_sorted. by rewrite Hc.
Qed.

(** C18: [PutAll] has the effect of putting the entries one by one, in the order the
    argument delivers them, also where it builds the tree in linear time. *)
Theorem PutAll_adds_all (m : @IMap Obj) w l :
  represents w l -> map_size m = Z.of_nat (length (map_items m)) -> map_size m <= 1073741824 ->
  Forall (fun e => key_ok (cpr := cpr) (fst e)) (map_items m) ->
  (same_order (cpr := cpr) m = true -> sorted L (map_items m)) -> room (S (length (map_items m))) (this w) ->
  exists w', PutAll m w = Some (fst (spec_put_all (cpr := cpr) l (map_items m)), w') /\
             represents w' (snd (spec_put_all (cpr := cpr) l (map_items m))).
Proof.
  intros Hw Hs Hb Hk Hsame Hroom.
  destruct (run_map (PutAll m) (fun ec _ l' => ec = fst (spec_put_all (cpr := cpr) l (map_items m)) /\
    l' = snd (spec_put_all (cpr := cpr) l (map_items m))) w l Hw) as (ec & w' & l' & E & Hw' & -> & ->); [|by exists w'].
  iIntros (? γ) "Hl". iApply (PutAll_map with "Hl"); [done..|]. iIntros (f') "Hl". iExists _. by iFrame.
Qed.

(** C20: a clone that has the comparator's order has the original's entries, in
    entries of its own: it answers every history of calls on it, and on views
    made of it, as the original would, and the original keeps its entries
    whatever they are.  The two maps share the views the original has kept: the
    clone's [GetValues] answers the original's values, through which the original
    is changed, unless the original has not handed them out. *)
Theorem clones_are_independent (clone : TreeMap Obj) cs w l me :
  represents w l -> mComparator clone = cpr -> Z.of_nat (length l) <= 1073741824 ->
  Forall (admissible (cpr := cpr)) cs ->
  -2147483648 <= mModCount clone -> mModCount clone + Z.of_nat (length cs) < 2147483648 ->
  Z.of_nat (length l + length cs) < 2147483648 ->
  exists g0 w0, CloneImpl clone w = Some ((NOERROR, g0), w0) /\
    mKeySet g0 = mKeySet (this w) /\
    fst <$> GetValues me {| this := g0; entries := entries w0 |} = Some (default me (mValues (this w))) /\
    exists g w', on g0 (history cs) w0 = Some ((fst (spec_history (cpr := cpr) l cs), g), w') /\
      represents w' l /\ represents {| this := g; entries := entries w' |} (snd (spec_history (cpr := cpr) l cs)).
Proof.
  intros (t & Hw & Hsh & <-) Hc Hl Hcs Hm1 Hm2 Hm3.
  destruct (adequacy (r <- CloneImpl clone ;; a <- on (snd r) (history cs) ;; ret (r, a))
    (fun r w' => fst (fst r) = NOERROR /\ mKeySet (snd (fst r)) = mKeySet (this w) /\ mValues (snd (fst r)) = mValues (this w) /\
       fst (snd r) = fst (spec_history (cpr := cpr) (snd <$> inorder L t) cs) /\
       represents w' (snd <$> inorder L t) /\
       represents {| this := snd (snd r); entries := entries w' |} (snd (spec_history (cpr := cpr) (snd <$> inorder L t) cs)))
    w t Hw) as ([[ec g0] [a g]] & w' & E & E1 & Hks & Hvs & E2 & H1 & H2).
  - iIntros (? γ) "Ht". destruct Hw as (_ & Hs & _). rewrite length_fmap in Hl, Hm3.
    tstep. iApply (CloneImpl_map γ clone (inorder L t) with "[Ht]"); [by rewrite Hs|by iExists t; iFrame|].
    iIntros (t2 [Hb2 E2]) "Hm Hclone". tstep. iApply twp_on. cbn [snd].
    iApply (history_does γ cs (snd <$> inorder L t) with "[Hclone]"); [done| |iExists (inorder L t2); iSplit; [by rewrite E2|]|].
    + split; [done|]. cbn. rewrite Hs. unfold size, cell in *. lia.
    + iExists t2. iFrame. iPureIntro. split; [done|]. split; [done|]. split; [done|]. unfold ordered. rewrite E2. apply Hsh.
    + iIntros (g) "Hg". tsteps. iIntros (h) "Hh". iDestruct (is_map_of with "Hm") as "Hm".
      iDestruct (is_map_check with "Hh Hm") as %H1. iDestruct (is_map_check with "Hh Hg") as %H2. done.
  - cbn in E1, Hks, Hvs, E2. subst. unfold bind in E. destruct (CloneImpl clone w) as [[[ec' g0'] w0]|]; [|done].
    cbn in E. destruct (on g0' (history cs) w0) as [[[a' g'] w1]|] eqn:Hh; [|done]. injection E as [= <- <- <- <- <-].
    exists g0', w0. split_and!; [done|done| |by exists g', w1].
    unfold GetValues, self, bind, gets. cbn. rewrite Hvs. by destruct (mValues (this w)).
Qed.

End Runs.

(** ** Concrete maps *)

Definition sorted_map : @IMap Z := {| map_size := 3; ISortedMap_Comparator := Some None; map_items := three_items |}.

Lemma three_items_sorted : sorted (cpr := None) L three_items.
Proof. split; repeat constructor; try done; by vm_compute. Qed.

Lemma sorted_maps_are_copied_witness :
  exists w, Constructor_sorted sorted_map {| this := new_TreeMap; entries := empty |} = Some (NOERROR, w) /\
            represents (cpr := None) w three_items.
Proof. apply (sorted_maps_are_copied (cpr := None) sorted_map empty); [done|done|done|exact three_items_sorted]. Defined.

(** A map that is not sorted is put entry by entry, up to the key refused. *)
Definition other_map : @IMap Z :=
  {| map_size := 3; ISortedMap_Comparator := None; map_items := [(Some 4, Some 40); (Some 3, Some 31); (None, Some 1)] |}.

Lemma PutAll_adds_all_witness :
  exists w', PutAll other_map three = Some (E_NULL_POINTER_EXCEPTION, w') /\
             represents (cpr := None) w' [(Some 3, Some 31); (Some 4, Some 40); (Some 5, Some 50); (Some 8, Some 80)].
Proof.
  pose proof (PutAll_adds_all (cpr := None) other_map three three_items) as H.
  replace (spec_put_all (cpr := None) three_items (map_items other_map)) with
    (E_NULL_POINTER_EXCEPTION, [(Some 3, Some 31); (Some 4, Some 40); (Some 5, Some 50); (Some 8, Some 80)]) in H
    by by vm_compute.
  apply H;
    [exact three_represents|done|done| |done|by repeat split].
  repeat (apply Forall_cons_2; [first [by right|by left; vm_compute]|]). by apply Forall_nil_2.
Defined.

Lemma clones_are_independent_witness :
  exists g0 w0 g w', CloneImpl new_TreeMap three = Some ((NOERROR, g0), w0) /\
    on g0 (history [CRemove (Some 5) true; CSize]) w0 =
      Some (([ARef (NOERROR, Some (Some 50)); ASize (NOERROR, Some 2)], g), w') /\
    represents (cpr := None) w' three_items /\
    represents (cpr := None) {| this := g; entries := entries w' |} [(Some 3, Some 30); (Some 8, Some 80)].
Proof.
  pose proof (clones_are_independent (cpr := None) new_TreeMap [CRemove (Some 5) true; CSize] three three_items 2) as H.
  replace (spec_history (cpr := None) three_items [CRemove (Some 5) true; CSize]) with
    ([ARef (NOERROR, Some (Some (50 : Z))); ASize (NOERROR, Some 2)], [(Some (3 : Z), Some (30 : Z)); (Some 8, Some 80)]) in H
    by by vm_compute.
  destruct H as (g0 & w0 & H0 & _ & _ & g & w' & H1 & H2 & H3); [exact three_represents|done|done| |done|done|done|by exists g0, w0, g, w'].
  repeat (apply Forall_cons_2; [first [done|by right]|]). by apply Forall_nil_2.
Defined.

(** Two maps, at the addresses 1 and 2: once the first has handed out its values,
    those of its clone are a view of the first. *)
Theorem clones_share_the_values :
  (r <- CloneImpl new_TreeMap ;; a <- on (snd r) (GetValues 2) ;; ret (fst a)) three ≫= (fun r => Some (fst r)) = Some 2%positive /\
  (GetValues 1 ;;; r <- CloneImpl new_TreeMap ;; a <- on (snd r) (GetValues 2) ;; ret (fst a)) three ≫= (fun r => Some (fst r)) =
    Some 1%positive.
Proof. split; by vm_compute. Qed.

(** The clone of a map with a comparator has none: it keeps the entries in the
    comparator's order and searches them in the keys' own, so a key the map has is
    not found in the clone. *)
Theorem clones_forget_the_comparator :
  let puts := [CPut (Some 1) (Some 10) false; CPut (Some 2) (Some 20) false; CPut (Some 3) (Some 30) false] in
  (Constructor_comparator (Some 0) ;;; history puts ;;; a <- run (CGet (Some 3)) ;;
   r <- CloneImpl new_TreeMap ;; b <- on (snd r) (run (CGet (Some 3))) ;; ret (a, fst b))
    {| this := new_TreeMap; entries := empty |} ≫= (fun r => Some (fst r)) =
  Some (ARef (NOERROR, Some (Some 30)), ARef (NOERROR, Some None)).
Proof.
  cbn zeta. by vm_compute.
Qed.

End TreeMapBuild.
