(* ===== verification/TreeSubMapCalls.v ===== *)
(** * The functions of views

    [TreeSubMapSpecs] has the searches of a view, [TreeSubMapCalls] its calls. *)
From stdpp Require Import gmap sorting.
From iris.proofmode Require Import proofmode.
From iris.base_logic.lib Require Import ghost_map.
From S2P Require Import Prelude.
From S2P Require Import ECode.
From S2P Require Import TreeMap.
From S2P Require Import TreeShape.
From S2P Require Import TreeMapOrder.
From S2P Require Import TreeMapLogic.
From S2P Require Import TreeMapSearch.
From S2P Require Import TreeMapSpecs.
From S2P Require Import TreeMapCalls.
From S2P Require Import TreeSubMap.

(** ** What the operations of a view do

    The searches of a view find the first entry of the range in a direction, the
    nearest to a key in it, and the first beyond it. *)

Module TreeSubMapSpecs.

Import TreeMap TreeShape TreeMapOrder TreeMapLogic TreeMapSearch TreeMapSpecs TreeMapCalls TreeSubMap TreeSubMapOrder.

Section Specs.
Context {Obj : Type} `{!EqDecision Obj} `{!Objects Obj} {cpr : option Obj} `{!KeyOrder cpr}.
Context `{!ghost_mapG Σ positive (TreeMapEntry Obj)} (γ : gname).
Notation ref := (option Obj).
Notation item := (option Obj * option Obj)%type.
Notation M := (SE (world Obj)).
Notation T := (TreeMap Obj).
Notation "a ↦ e" := (cell_at γ a e) (at level 20) : bi_scope.
Notation twp := (twp γ).
Notation map_of := (map_of (cpr := cpr) γ).
Notation in_view := (in_view (cpr := cpr)).
Notation inside := (inside (cpr := cpr)).
Notation good_bounds := (good_bounds (cpr := cpr)).
Notation at_pointer o := (fst <$> (o : option (@cell Obj))).
Implicit Types (s d : side) (f : T) (key : ref) (b : NavigableSubMap Obj) (c : list (@cell Obj)).

(** ** The entries of the list, in order *)

Lemma elem_of_along {A} s (x : A) (l : list A) : x ∈ along s l <-> x ∈ l.
Proof. destruct s; [done|]. cbn. by rewrite !list_elem_of_In -in_rev. Qed.

Lemma map_sorted s c f : map_of c f -∗
  ⌜StronglySorted (fun x y => before s (fst (snd x)) (fst (snd y))) (along s c) /\ forall x, x ∈ along s c -> good (fst (snd x))⌝.
Proof.
  iIntros "Hm". iDestruct (map_of_facts with "Hm") as %(_ & _ & Ho). iPureIntro.
  assert (sorted s (snd <$> along s c)) as [Hs Hg].
  { rewrite along_snd. destruct s; [done|]. exact (sorted_rev L _ Ho). }
  split.
  - clear Ho Hg. induction (along s c) as [|x l IH]; [constructor|]. rewrite fmap_cons in Hs.
    apply StronglySorted_inv in Hs as [H1 H2]. constructor; [by apply IH|].
    rewrite Forall_fmap in H2. exact H2.
  - intros x Hx. rewrite Forall_forall in Hg. apply (Hg (snd x)). apply (list_elem_of_fmap_2 snd _ _ Hx).
Qed.

Lemma outside_spec s b key f (Φ : bool -> T -> iProp Σ) :
  mComparator f = cpr -> good_bounds b -> good key ->
  Φ (bool_decide (~ inside s b (key, None))) f -∗ twp (outside s b key) Φ f.
Proof.
  iIntros (Hf Hb Hk) "H". unfold outside. destruct (unbounded s b) eqn:E; tsteps.
  - rewrite bool_decide_eq_false_2; [done|]. intros Hn. apply Hn. by left.
  - destruct (Hb s E) as [Hl _]. iApply (Compare_spec with "[H]"); [done..|]. tsteps.
    by rewrite outside_bool.
Qed.

(** The first entry in a direction among those that satisfy [P]. *)
Definition first_of s (P : item -> Prop) `{!forall x, Decision (P x)} c : option (@cell Obj) :=
  head (filter (fun x => P (snd x)) (along s c)).

Lemma first_of_iff s (P Q : item -> Prop) `{!forall x, Decision (P x)} `{!forall x, Decision (Q x)} c :
  (forall x, x ∈ along s c -> P (snd x) <-> Q (snd x)) -> first_of s P c = first_of s Q c.
Proof. intros HPQ. unfold first_of. f_equal. by apply filter_iff_in. Qed.

Lemma within_spec s (P Q : item -> Prop) `{!forall x, Decision (P x)} `{!forall x, Decision (Q x)} b c f (Φ : ptr -> T -> iProp Σ) :
  good_bounds b -> (forall x, x ∈ along s c -> Q (snd x) <-> P (snd x) /\ inside (flip s) b (snd x)) -> map_of c f -∗
  (map_of c f -∗ Φ (at_pointer (first_of s Q c)) f) -∗
  twp (within (flip s) b (at_pointer (first_of s P c))) Φ f.
Proof.
  iIntros (Hb HPQ) "Hm H". iDestruct (map_sorted s with "Hm") as %[Hs Hg]. iDestruct (map_of_facts with "Hm") as %(_ & Hq & _).
  rewrite (first_of_iff s Q (fun x => P x /\ inside (flip s) b x)) //.
  pose proof (head_filter_and (fun x => P (snd x)) (fun x => inside (flip s) b (snd x)) _ _ Hs) as E.
  assert (among (first_of s P c) c) as Ho by apply filter_among.
  unfold first_of in *. rewrite {}E; last first.
  { intros x y Hx Hy Hxy. apply inside_mono; [done|auto|auto|]. apply before_flip; auto. }
  unfold within. destruct (head _) as [[a [k v]]|] eqn:Eh; cbn [fmap option_fmap option_map fst snd]; tsteps; [|by iApply "H"].
  iDestruct (map_read γ _ a k v with "Hm") as (e [Ek Ev]) "[Ha Hm]"; [by apply Ho|]. tsteps. rewrite Ek.
  iDestruct ("Hm" with "Ha") as "Hm".
  assert (good k) as Hk.
  { apply (Hg (a, (k, v))). by apply elem_of_along, Ho. }
  iApply (outside_spec with "[Hm H]"); [done..|]. tsteps.
  assert (inside (flip s) b (k, None) <-> inside (flip s) b (k, v)) as Hiff by done.
  destruct (decide (inside (flip s) b (k, v))) as [Hi|Hi].
  - rewrite bool_decide_eq_false_2; [|tauto]. by iApply "H".
  - rewrite bool_decide_eq_true_2; [|tauto]. by iApply "H".
Qed.

Lemma found_nearest s i key c f (Φ : ptr -> T -> iProp Σ) :
  good key -> key <> None -> map_of c f -∗
  (map_of c f -∗ Φ (at_pointer (first_of s (qualifies s i key) c)) f) -∗ twp (found (nearest s i key)) Φ f.
Proof.
  iIntros (Hk Hn) "Hm H". unfold found. tstep. iApply (nearest_map with "Hm"); [done..|]. iIntros "Hm". tsteps. by iApply "H".
Qed.

(** ** The searches *)

Lemma AbsEnd_spec s b c f (Φ : ptr -> T -> iProp Σ) :
  good_bounds b -> map_of c f -∗ (map_of c f -∗ Φ (at_pointer (first_of s (in_view b) c)) f) -∗ twp (AbsEnd s b) Φ f.
Proof.
  iIntros (Hb) "Hm H". unfold AbsEnd. tstep.
  iAssert (map_of c f -∗ twp (within (flip s) b (at_pointer (first_of s (inside s b) c))) Φ f)%I with "[H]" as "H".
  { iIntros "Hm". iApply (within_spec s (inside s b) (in_view b) with "Hm H"); [done|]. intros x _. apply (inside_both s). }
  destruct (unbounded s b) eqn:E; tsteps.
  - iApply (extreme_map with "Hm"). iIntros "Hm".
    replace (head (along s c)) with (first_of s (inside s b) c); [by iApply "H"|].
    unfold first_of. rewrite filter_all; [done|]. apply Forall_forall. intros x _. by left.
  - destruct (Hb s E) as [Hl Hn]. iApply (found_nearest with "Hm"); [done..|]. iIntros "Hm".
    rewrite (first_of_iff s (qualifies s (inclusive s b) (limit s b)) (inside s b)); [by iApply "H"|].
    intros x _. unfold TreeSubMapOrder.inside. intuition congruence.
Qed.

Definition near s i b key (x : item) : Prop := in_view b x /\ qualifies s i key x.

#[export] Instance near_dec s i b key x : Decision (near s i b key x).
Proof. unfold near. apply _. Defined.

Lemma AbsNear_spec s i b key c f (Φ : ptr -> T -> iProp Σ) :
  good_bounds b -> good key -> key <> None -> map_of c f -∗
  (map_of c f -∗ Φ (at_pointer (first_of s (near s i b key) c)) f) -∗ twp (AbsNear s i b key) Φ f.
Proof.
  iIntros (Hb Hk Hn) "Hm H". iDestruct (map_sorted s with "Hm") as %[_ Hg]. iDestruct (map_of_facts with "Hm") as %(_ & Hq & _).
  unfold AbsNear. tstep. iApply (outside_spec with "[Hm H]"); [done..|].
  destruct (decide (inside s b (key, None))) as [Hi|Hi].
  - rewrite bool_decide_eq_false_2; [|by intros []]. tsteps. iApply (found_nearest with "Hm"); [done..|]. iIntros "Hm".
    iApply (within_spec s (qualifies s i key) (near s i b key) with "Hm H"); [done|].
    intros x Hx. unfold near. rewrite (inside_both s). split; [tauto|]. intros [H1 H2]. split; [split|]; [|done|done].
    by apply (inside_qualifies s i b key); auto.
  - rewrite bool_decide_eq_true_2; [|done]. tsteps. iApply (AbsEnd_spec with "Hm"); [done|].
    rewrite (first_of_iff s (near s i b key) (in_view b)); [iExact "H"|].
    intros x Hx. unfold near. rewrite (inside_both s). split; [tauto|]. intros [H1 H2]. split; [done|].
    by apply (outside_qualifies s i b key); auto.
Qed.

(** The first entry beyond the bound on side [s], going there. *)
Lemma AbsFence_spec s b c f (Φ : ptr -> T -> iProp Σ) :
  good_bounds b -> map_of c f -∗
  (map_of c f -∗ Φ (at_pointer (first_of (flip s) (fun x => ~ inside s b x) c)) f) -∗ twp (AbsFence s b) Φ f.
Proof.
  iIntros (Hb) "Hm H". iDestruct (map_sorted (flip s) with "Hm") as %[_ Hg].
  unfold AbsFence. destruct (unbounded s b) eqn:E; tsteps.
  - replace (first_of (flip s) (fun x => ~ inside s b x) c) with (@None (@cell Obj)); [by iApply "H"|].
    unfold first_of. rewrite filter_none; [done|]. apply Forall_forall. intros x _ Hn. apply Hn. by left.
  - destruct (Hb s E) as [Hl Hn]. iApply (found_nearest with "Hm"); [done..|]. iIntros "Hm".
    rewrite (first_of_iff (flip s) (qualifies (flip s) (negb (inclusive s b)) (limit s b)) (fun x => ~ inside s b x)); [by iApply "H"|].
    intros x Hx. rewrite qualifies_not; [|done|by apply Hg]. unfold TreeSubMapOrder.inside. intuition congruence.
Qed.

Lemma InRange_spec b key f (Φ : bool -> T -> iProp Σ) :
  mComparator f = cpr -> good_bounds b -> good key ->
  Φ (bool_decide (in_view b (key, None))) f -∗ twp (InRange b key) Φ f.
Proof.
  iIntros (Hf Hb Hk) "H". unfold InRange, TooLow, TooHigh. tstep. iApply (outside_spec with "[H]"); [done..|].
  destruct (decide (inside L b (key, None))) as [Hl|Hl].
  - rewrite (bool_decide_eq_false_2 (~ inside L b _)); [|tauto]. tsteps. iApply (outside_spec with "[H]"); [done..|]. tsteps.
    replace (negb (bool_decide (~ inside R b (key, None)))) with (bool_decide (in_view b (key, None))); [done|].
    unfold TreeSubMapOrder.in_view. apply eq_true_iff_eq. rewrite negb_true_iff bool_decide_eq_true bool_decide_eq_false. 
    destruct (decide (inside R b (key, None))); tauto.
  - rewrite (bool_decide_eq_true_2 (~ inside L b _)); [|done]. tsteps. rewrite bool_decide_eq_false_2; [iExact "H"|]. unfold TreeSubMapOrder.in_view. tauto.
Qed.

End Specs.

End TreeSubMapSpecs.

(** ** Calls on views against ranges of sorted lists

    [spec_sub] is the documented meaning of a view's functions: those of a map of
    the entries in the range, which changes only there.  [sub_does] shows every
    call of the code does that. *)

Module TreeSubMapCalls.

Import TreeMap TreeShape TreeMapOrder TreeMapLogic TreeMapSpecs TreeMapCalls TreeSubMap TreeSubMapOrder TreeSubMapSpecs.

Section Calls.
Context {Obj : Type} `{!EqDecision Obj} `{!Objects Obj}.
Notation ref := (option Obj).
Notation item := (option Obj * option Obj)%type.
Notation M := (SE (world Obj)).

Inductive sub_call :=
  | SPut (key value : ref) (out : bool)
  | SGet (key : ref)
  | SContainsKey (key : ref)
  | SRemove (key : ref) (out : bool)
  | SIsEmpty
  | SEndKey (s : side)
  | SEndEntry (s : side)
  | SPoll (s : side)
  | SNearKey (s : side) (inclusive : bool) (key : ref)
  | SNearEntry (s : side) (inclusive : bool) (key : ref)
  | SEntryContains (obj : option item)
  | SEntryRemove (obj : option item) (out : bool).

(** The functions of a view and of its entry set; [R] is the last and the lower,
    [L] the first and the higher, in the view's order. *)
Definition run_sub (v : view Obj) (c : sub_call) : M (answer Obj) :=
  match c with
  | SPut k x out => r <- Sub_Put v k x out ;; ret (ARef r)
  | SGet k => r <- Sub_Get v k ;; ret (ARef r)
  | SContainsKey k => r <- Sub_ContainsKey v k ;; ret (ABool r)
  | SRemove k out => r <- Sub_Remove v k out ;; ret (ARef r)
  | SIsEmpty => r <- Sub_IsEmpty v ;; ret (ABool r)
  | SEndKey s => r <- match s with L => Sub_FirstKey v | R => Sub_LastKey v end ;; ret (ARef r)
  | SEndEntry s => r <- match s with L => Sub_FirstEntry v | R => Sub_LastEntry v end ;; ret (AEntry r)
  | SPoll s => r <- match s with L => Sub_PollFirstEntry v | R => Sub_PollLastEntry v end ;; ret (AEntry r)
  | SNearKey s i k =>
      r <- match s, i with
           | L, true => Sub_CeilingKey v k | L, false => Sub_HigherKey v k
           | R, true => Sub_FloorKey v k | R, false => Sub_LowerKey v k
           end ;; ret (ARef r)
  | SNearEntry s i k =>
      r <- match s, i with
           | L, true => Sub_CeilingEntry v k | L, false => Sub_HigherEntry v k
           | R, true => Sub_FloorEntry v k | R, false => Sub_LowerEntry v k
           end ;; ret (AEntry r)
  | SEntryContains obj => r <- EntrySetView_Contains v obj ;; ret (ABool r)
  | SEntryRemove obj out => r <- EntrySetView_Remove v obj out ;; ret (ABool r)
  end.

(** ** The specification *)

Context {cpr : option Obj} `{!KeyOrder cpr}.
Implicit Types (l : list item) (key : ref) (b : NavigableSubMap Obj).

(** The entries of a view. *)
Definition range b l : list item := filter (in_view (cpr := cpr) b) l.
Definition covers b key : bool := bool_decide (in_view (cpr := cpr) b (key, None)).

(** The call is of a map of the range [m]; [inner] is what an unrefused one leaves. *)
Definition guarded {A} (key : ref) l (r : (ECode * option A) * list item) : (ECode * option A) * list item :=
  if decide (key = None) then ((E_NULL_POINTER_EXCEPTION, None), l) else r.
Definition tagged {A} (g : A -> answer Obj) (r : A * list item) : answer Obj * list item := (g (fst r), snd r).

Definition spec_sub (v : view Obj) l (c : sub_call) : answer Obj * list item :=
  let b := snd v in
  let m := range b l in
  match c with
  | SPut k x out =>
      tagged ARef (guarded k l (if covers b k then ((NOERROR, stored out (value_at k m)), spec_put k x l)
                                else ((E_ILLEGAL_ARGUMENT_EXCEPTION, None), l)))
  | SGet k => tagged ARef (guarded k l ((NOERROR, Some (value_at k m)), l))
  | SContainsKey k => tagged ABool (guarded k l ((NOERROR, Some (bool_decide (at_key k m <> None))), l))
  | SRemove k out =>
      tagged ARef (guarded k l ((NOERROR, stored out (value_at k m)), if covers b k then spec_remove k l else l))
  | SIsEmpty => (ABool (NOERROR, Some (bool_decide (m = []))), l)
  | SEndKey s =>
      (ARef match head (along (turn v s) m) with
            | Some e => (NOERROR, Some (fst e))
            | None => (E_NO_SUCH_ELEMENT_EXCEPTION, None)
            end, l)
  | SEndEntry s => (AEntry (NOERROR, Some (head (along (turn v s) m))), l)
  | SPoll s =>
      (AEntry (NOERROR, Some (head (along (turn v s) m))),
       match head (along (turn v s) m) with Some e => spec_remove (fst e) l | None => l end)
  | SNearKey s i k => (ARef (NOERROR, Some (default None (fst <$> spec_nearest (turn v s) i k m))), l)
  | SNearEntry s i k => (AEntry (NOERROR, Some (spec_nearest (turn v s) i k m)), l)
  | SEntryContains None => (ABool (NOERROR, Some false), l)
  | SEntryContains (Some (k, x)) => tagged ABool (guarded k l ((NOERROR, Some (has_entry k x m)), l))
  | SEntryRemove None out => (ABool (NOERROR, stored out false), l)
  | SEntryRemove (Some (k, x)) out =>
      tagged ABool (guarded k l ((NOERROR, stored out (has_entry k x m)), if has_entry k x m then spec_remove k l else l))
  end.

(** The keys are null, which is refused, or ones the comparison orders; a search
    for a neighbour of null may compare it with a bound. *)
Definition sub_admissible (v : view Obj) (c : sub_call) : Prop :=
  good_bounds (cpr := cpr) (snd v) /\
  match c with
  | SPut k _ _ | SGet k | SContainsKey k | SRemove k _ => k = None \/ good k
  | SEntryContains (Some (k, _)) | SEntryRemove (Some (k, _)) _ => k = None \/ good k
  | SNearKey _ _ k | SNearEntry _ _ k => good k /\ k <> None
  | _ => True
  end.

(** ** Ranges *)

(** Keys that compare equal are in the same views. *)
Lemma inside_equal s b k e : good_bounds (cpr := cpr) b -> good k -> good (fst e) -> cmp k (fst e) = 0 ->
  inside s b (k, None) <-> inside s b e.
Proof.
  intros Hb Hk He E. unfold inside. destruct (unbounded s b) eqn:Eu; [tauto|]. destruct (Hb s Eu) as [Hl _].
  unfold qualifies, before. rewrite !towards_spec. cbn [fst].
  destruct (order_facts k (limit s b) (fst e) Hk Hl He) as (?&?&?&?&?&?&?&?&?&?&?&?).
  assert (cmp (limit s b) k < 0 <-> cmp (limit s b) (fst e) < 0) by lia.
  assert (0 < cmp (limit s b) k <-> 0 < cmp (limit s b) (fst e)) by lia.
  assert (cmp (limit s b) k = 0 <-> cmp (limit s b) (fst e) = 0) by lia.
  destruct s; tauto.
Qed.

Lemma at_key_range b key l : good_bounds (cpr := cpr) b -> good key -> Forall (fun e => good (fst e)) l ->
  at_key key (range b l) = if covers b key then at_key key l else None.
Proof.
  intros Hb Hk Hl. unfold at_key, range. rewrite list_filter_filter. rewrite Forall_forall in Hl.
  assert (forall e, e ∈ l -> cmp key (fst e) = 0 -> in_view b (key, None) <-> in_view b e) as He.
  { intros e Hin E. unfold in_view. by rewrite !(inside_equal _ b key e); auto. }
  unfold covers. case_bool_decide as Hc.
  - f_equal. apply filter_iff_in. intros e Hin. split; [tauto|]. intros E. split; [done|]. by apply He.
  - rewrite filter_none; [done|]. apply Forall_forall. intros e Hin [E Hv]. apply Hc. by apply (He e).
Qed.

Lemma value_at_range b key l : good_bounds (cpr := cpr) b -> good key -> Forall (fun e => good (fst e)) l ->
  value_at key (range b l) = if covers b key then value_at key l else None.
Proof. intros. unfold value_at. rewrite at_key_range //. by destruct (covers b key). Qed.

Lemma has_entry_range b key x l : good_bounds (cpr := cpr) b -> good key -> Forall (fun e => good (fst e)) l ->
  has_entry key x (range b l) = covers b key && has_entry key x l.
Proof. intros. unfold has_entry. rewrite at_key_range //. by destruct (covers b key). Qed.

Lemma filter_along {A} s (P : A -> Prop) `{!forall x, Decision (P x)} (l : list A) : filter P (along s l) = along s (filter P l).
Proof.
  destruct s; [done|]. cbn [along]. induction l as [|x l IH]; [done|]. cbn [rev]. rewrite filter_app IH !filter_cons filter_nil.
  destruct (decide _); [done|]. by rewrite app_nil_r.
Qed.

Lemma first_of_range s b (c : list (@cell Obj)) : snd <$> first_of s (in_view b) c = head (along s (range b (snd <$> c))).
Proof. unfold first_of, range. by rewrite head_snd filter_snd along_snd filter_along. Qed.

Lemma first_near s i b key (c : list (@cell Obj)) :
  snd <$> first_of s (near s i b key) c = spec_nearest s i key (range b (snd <$> c)).
Proof.
  unfold first_of, spec_nearest, range. rewrite head_snd (filter_snd (near s i b key)) along_snd.
  change (head (filter (near s i b key) (along s (snd <$> c))) =
          head (filter (qualifies s i key) (along s (filter (in_view b) (snd <$> c))))).
  rewrite -filter_along list_filter_filter. f_equal. apply filter_iff_in. unfold near. tauto.
Qed.

End Calls.

#[global] Arguments sub_call : clear implicits.

(** ** The code does it *)

Section Does.
Context {Obj : Type} `{!EqDecision Obj} `{!Objects Obj} {cpr : option Obj} `{!KeyOrder cpr}.
Context `{!ghost_mapG Σ positive (TreeMapEntry Obj)} (γ : gname).
Notation ref := (option Obj).
Notation item := (option Obj * option Obj)%type.
Notation M := (SE (world Obj)).
Notation T := (TreeMap Obj).
Notation twp := (twp γ).
Notation map_of := (map_of (cpr := cpr) γ).
Notation is_map := (is_map (cpr := cpr) γ).
Notation does := (does (cpr := cpr) γ).
Notation range := (range (cpr := cpr)).
Notation covers := (covers (cpr := cpr)).
Notation good_bounds := (good_bounds (cpr := cpr)).
Notation at_pointer o := (fst <$> (o : option (@cell Obj))).
Implicit Types (s : side) (f : T) (key : ref) (b : NavigableSubMap Obj) (v : view Obj) (c : list (@cell Obj)) (l : list item).

Lemma does_tagged {X} (m : M X) (g : X -> answer Obj) l r : does m l r -> does (r <- m ;; ret (g r)) l (tagged g r).
Proof. destruct r. apply does_ret. Qed.

(** What holds of the entries of every map may be assumed. *)
Lemma does_sorted {X} (m : M X) l r : (Forall (fun e => good (fst e)) l -> does m l r) -> does m l r.
Proof.
  iIntros (Hm f Φ Hf) "(%c & <- & Hm) H". iDestruct (map_of_facts with "Hm") as %(_ & _ & _ & Hg).
  iApply (Hm with "[Hm] H"); [done|done|by iApply is_map_of].
Qed.

(** The guards: null keys, and keys outside the range. *)
Lemma sub_null_does {A} key (m : M (ECode * option A)) l r :
  (key <> None -> does m l r) -> does (sub_null key m) l (guarded key l r).
Proof.
  intros Hm. unfold sub_null, guarded. case_decide as Hk; [|by apply Hm].
  iIntros (f Φ Hf) "Hl H". tsteps. iApply ("H" with "[%] Hl"). apply stepped_refl.
Qed.

Lemma in_range_does {X} b key (k : bool -> M X) l r :
  good_bounds b -> good key -> does (k (covers b key)) l r -> does (i <- InRange b key ;; k i) l r.
Proof.
  iIntros (Hb Hk Hd f Φ Hf) "(%c & <- & Hm) H". iDestruct (map_of_facts with "Hm") as %(_ & Hq & _).
  tstep. iApply (InRange_spec with "[Hm H]"); [done..|]. iApply (Hd with "[Hm] H"); [done|by iApply is_map_of].
Qed.

Lemma ret_does {X} (x : X) l : does (ret x) l (x, l).
Proof. iIntros (f Φ Hf) "Hl H". tstep. iApply ("H" with "[%] Hl"). apply stepped_refl. Qed.

Lemma not_refused key : key <> None -> refused cpr key = false.
Proof. intros H. apply bool_decide_eq_false_2. by intros []. Qed.

(** The functions that go on to the map's own with the key. *)
Lemma guarded_does {A} b key (k : bool -> M (ECode * option A)) l r :
  good_bounds b -> key = None \/ good key ->
  (good key -> refused cpr key = false -> Forall (fun e => good (fst e)) l -> does (k (covers b key)) l r) ->
  does (sub_null key (i <- InRange b key ;; k i)) l (guarded key l r).
Proof.
  intros Hb Hk Hd. apply sub_null_does. intros Hn. destruct Hk as [|Hk]; [done|]. apply does_sorted. intros Hl.
  apply in_range_does; [done|done|]. by apply Hd; [|apply not_refused|].
Qed.

Lemma Sub_Get_does v key l : good_bounds (snd v) -> key = None \/ good key ->
  does (Sub_Get v key) l (guarded key l ((NOERROR, Some (value_at key (range (snd v) l))), l)).
Proof.
  intros Hb Hk. apply guarded_does; [done|done|]. intros Hg Hr Hl. rewrite value_at_range //.
  destruct (covers (snd v) key); [|apply ret_does].
  pose proof (Get_does γ key l (or_intror Hg)) as H. unfold checked in H. by rewrite Hr in H.
Qed.

Lemma Sub_ContainsKey_does v key l : good_bounds (snd v) -> key = None \/ good key ->
  does (Sub_ContainsKey v key) l (guarded key l ((NOERROR, Some (bool_decide (at_key key (range (snd v) l) <> None))), l)).
Proof.
  intros Hb Hk. apply guarded_does; [done|done|]. intros Hg Hr Hl. rewrite at_key_range //.
  destruct (covers (snd v) key); [|rewrite bool_decide_eq_false_2; [apply ret_does|by intros []]].
  pose proof (ContainsKey_does γ key l (or_intror Hg)) as H. unfold checked in H. by rewrite Hr in H.
Qed.

Lemma Sub_Remove_does v key out l : good_bounds (snd v) -> key = None \/ good key ->
  does (Sub_Remove v key out) l
    (guarded key l ((NOERROR, stored out (value_at key (range (snd v) l))), if covers (snd v) key then spec_remove key l else l)).
Proof.
  intros Hb Hk. apply guarded_does; [done|done|]. intros Hg Hr Hl. rewrite value_at_range //.
  destruct (covers (snd v) key); [|apply ret_does].
  pose proof (Remove_does γ key out l (or_intror Hg)) as H. unfold checked in H. by rewrite Hr in H.
Qed.

Lemma Sub_Put_does v key x out l : good_bounds (snd v) -> key = None \/ good key ->
  does (Sub_Put v key x out) l
    (guarded key l (if covers (snd v) key then ((NOERROR, stored out (value_at key (range (snd v) l))), spec_put key x l)
                    else ((E_ILLEGAL_ARGUMENT_EXCEPTION, None), l))).
Proof.
  intros Hb Hk. apply guarded_does; [done|done|]. intros Hg Hr Hl. rewrite value_at_range //.
  destruct (covers (snd v) key); [|apply ret_does].
  pose proof (Put_does γ key x out l (or_intror Hg)) as H. unfold checked in H. by rewrite Hr in H.
Qed.

Lemma EntrySetView_Contains_does v key x l : good_bounds (snd v) -> key = None \/ good key ->
  does (EntrySetView_Contains v (Some (key, x))) l (guarded key l ((NOERROR, Some (has_entry key x (range (snd v) l))), l)).
Proof.
  intros Hb Hk. cbn [EntrySetView_Contains]. apply (guarded_does _ _ (fun i => if negb i then _ else _)); [done|done|].
  intros Hg Hr Hl. rewrite has_entry_range //. destruct (covers (snd v) key); [|apply ret_does].
  pose proof (EntryContains_does γ key x l (or_intror Hg)) as H. unfold checked in H. by rewrite Hr in H.
Qed.

Lemma EntrySetView_Remove_does v key x out l : good_bounds (snd v) -> key = None \/ good key ->
  does (EntrySetView_Remove v (Some (key, x)) out) l
    (guarded key l ((NOERROR, stored out (has_entry key x (range (snd v) l))),
                    if has_entry key x (range (snd v) l) then spec_remove key l else l)).
Proof.
  intros Hb Hk. cbn [EntrySetView_Remove]. apply (guarded_does _ _ (fun i => if negb i then _ else _)); [done|done|].
  intros Hg Hr Hl. rewrite has_entry_range //. destruct (covers (snd v) key); [|apply ret_does]. cbn [negb andb].
  iIntros (f Φ Hf) "Hl H". tstep. iApply (GetEntry_items γ key with "Hl"); [by right|].
  iSplit; [iIntros (Hn); congruence|]. iIntros (c1 o c2 (_ & -> & Hat & Hrem)) "Hm". cbn [FAILED fst snd known].
  unfold has_entry. rewrite Hat Hrem. pose proof (found_among c1 o c2) as Ho.
  destruct o as [[a [k y]]|]; cbn [fmap option_fmap option_map fst snd option_list app]; tsteps.
  - iDestruct (map_read γ _ a k y with "Hm") as (e [Ek Ev]) "[Ha Hm]"; [by apply Ho|]. tsteps. rewrite Ev.
    iDestruct ("Hm" with "Ha") as "Hm". unfold value_is. cbn [snd]. destruct (ValEquals y x); tsteps.
    + by iApply (delete_does with "Hm").
    + iApply ("H" with "[%] [Hm]"); [apply stepped_refl|by iApply is_map_of].
  - iApply ("H" with "[%] [Hm]"); [apply stepped_refl|by iApply is_map_of].
Qed.

(** ** The searches, and what is made of the entry they find *)

(** The search finds the entry [pick] finds in the list. *)
Definition finds (m : M ptr) (pick : list item -> option item) : Prop :=
  forall c f (Φ : ptr -> T -> iProp Σ), map_of c f -∗
    (∀ o, ⌜among o c /\ snd <$> o = pick (snd <$> c)⌝ -∗ map_of c f -∗ Φ (at_pointer o) f) -∗ twp m Φ f.

Lemma first_among s (P : item -> Prop) `{!forall x, Decision (P x)} c : among (first_of s P c) c.
Proof. apply filter_among. Qed.

Lemma AbsEnd_finds s b : good_bounds b -> finds (AbsEnd s b) (fun l => head (along s (range b l))).
Proof.
  iIntros (Hb c f Φ) "Hm H". iApply (AbsEnd_spec with "Hm"); [done|]. iIntros "Hm". iApply ("H" with "[%] Hm").
  split; [apply first_among|apply first_of_range].
Qed.

Lemma AbsNear_finds s i b key : good_bounds b -> good key /\ key <> None ->
  finds (AbsNear s i b key) (fun l => spec_nearest s i key (range b l)).
Proof.
  iIntros (Hb [Hk Hn] c f Φ) "Hm H". iApply (AbsNear_spec with "Hm"); [done..|]. iIntros "Hm". iApply ("H" with "[%] Hm").
  split; [apply first_among|apply first_near].
Qed.

Lemma key_of_finds m pick l : finds m pick ->
  does (p <- m ;; key_of p) l
    (match pick l with Some e => (NOERROR, Some (fst e)) | None => (E_NO_SUCH_ELEMENT_EXCEPTION, None) end, l).
Proof.
  iIntros (Hm f Φ Hf) "(%c & <- & Hm) H". tstep. iApply (Hm with "Hm"). iIntros (o [Ho <-]) "Hm". unfold key_of.
  destruct o as [[a [k x]]|]; cbn [fmap option_fmap option_map fst snd]; tsteps.
  - iDestruct (map_read γ _ a k x with "Hm") as (e [Ek Ev]) "[Ha Hm]"; [by apply Ho|]. tsteps. rewrite Ek.
    iDestruct ("Hm" with "Ha") as "Hm". iApply ("H" with "[%] [Hm]"); [apply stepped_refl|by iApply is_map_of].
  - iApply ("H" with "[%] [Hm]"); [apply stepped_refl|by iApply is_map_of].
Qed.

Lemma exported_finds m pick l : finds m pick -> does (exported m) l ((NOERROR, Some (pick l)), l).
Proof.
  iIntros (Hm f Φ Hf) "(%c & <- & Hm) H". unfold exported. tstep. iApply (Hm with "Hm"). iIntros (o [Ho <-]) "Hm". tstep.
  iApply (ExportEntry_map with "Hm"); [done|]. iIntros "Hm". tsteps.
  iApply ("H" with "[%] [Hm]"); [apply stepped_refl|by iApply is_map_of].
Qed.

Lemma key_or_null_finds m pick l : finds m pick ->
  does (key_or_null m) l ((NOERROR, Some (default None (fst <$> pick l))), l).
Proof.
  iIntros (Hm f Φ Hf) "(%c & <- & Hm) H". unfold key_or_null. tstep. iApply (Hm with "Hm"). iIntros (o [Ho <-]) "Hm". tstep.
  destruct o as [[a [k x]]|]; cbn [fmap option_fmap option_map fst snd default]; tsteps.
  - iDestruct (map_read γ _ a k x with "Hm") as (e [Ek Ev]) "[Ha Hm]"; [by apply Ho|]. tsteps. rewrite Ek.
    iDestruct ("Hm" with "Ha") as "Hm". iApply ("H" with "[%] [Hm]"); [apply stepped_refl|by iApply is_map_of].
  - iApply ("H" with "[%] [Hm]"); [apply stepped_refl|by iApply is_map_of].
Qed.

(** An entry of a sorted list is the one with its key. *)
Lemma spec_remove_cell c1 a e c2 : sorted L (snd <$> c1 ++ (a, e) :: c2) ->
  spec_remove (fst e) (snd <$> c1 ++ (a, e) :: c2) = snd <$> c1 ++ c2.
Proof.
  intros Hs. assert (good (fst e)) as He.
  { destruct Hs as [_ Hg]. rewrite fmap_app fmap_cons in Hg. by apply Forall_app in Hg as [_ [Hg _]%Forall_cons]. }
  apply (keyed_spec (fst e) c1 (Some (a, e)) c2 He Hs). rewrite fmap_app fmap_cons sorted_app sorted_cons in Hs.
  destruct Hs as (H1 & [_ H1g] & H2 & _ & [_ H2g]). rewrite !Forall_forall in H1g, H2, H2g. split; [|split].
  - apply Forall_forall. intros x Hx. apply H1; [done|left].
  - apply Forall_forall. intros x Hx. apply (before_flip L); [by apply H2g|done|]. by apply H2.
  - intros x [= <-]. by apply cmp_refl.
Qed.

Lemma poll_finds m pick l : finds m pick ->
  does (p <- m ;; poll p) l
    ((NOERROR, Some (pick l)), match pick l with Some e => spec_remove (fst e) l | None => l end).
Proof.
  iIntros (Hm f Φ Hf) "(%c & <- & Hm) H". iDestruct (map_of_facts with "Hm") as %(_ & _ & Hs).
  tstep. iApply (Hm with "Hm"). iIntros (o [Ho <-]) "Hm". unfold poll. tstep.
  iApply (ExportEntry_map with "Hm"); [done|]. iIntros "Hm". tstep.
  destruct o as [[a e]|]; cbn [fmap option_fmap option_map fst snd]; tsteps.
  - destruct (list_elem_of_split _ _ (Ho _ eq_refl)) as (c1 & c2 & ->). rewrite spec_remove_cell //.
    iApply (delete_does with "Hm H"). done.
  - iApply ("H" with "[%] [Hm]"); [apply stepped_refl|by iApply is_map_of].
Qed.

(** A view without bounds has every entry. *)
Lemma range_all b l : mFromStart b && mToEnd b = true -> range b l = l.
Proof.
  intros [H1 H2]%andb_prop. apply filter_all, Forall_forall. intros e _. split; by left.
Qed.

Lemma Sub_IsEmpty_does v l : good_bounds (snd v) -> does (Sub_IsEmpty v) l ((NOERROR, Some (bool_decide (range (snd v) l = []))), l).
Proof.
  iIntros (Hb f Φ Hf) "(%c & <- & Hm) H". iDestruct (map_of_facts with "Hm") as %(Hs & Hq & _). unfold Sub_IsEmpty.
  destruct (mFromStart (snd v) && mToEnd (snd v)) eqn:E.
  - rewrite range_all //. tsteps. rewrite Hs.
    replace (Z.of_nat (length c) =? 0) with (bool_decide (snd <$> c = [])) by by destruct c.
    iApply ("H" with "[%] [Hm]"); [apply stepped_refl|by iApply is_map_of].
  - unfold EntrySetView_IsEmpty, AbsLowest, TooHigh. tstep. iApply (AbsEnd_spec γ L with "Hm"); [done|]. iIntros "Hm".
    pose proof (first_of_range L (snd v) c) as Er. pose proof (first_among L (in_view (snd v)) c) as Ho. cbn [along] in Er.
    assert (forall x, first_of L (in_view (snd v)) c = Some x -> in_view (snd v) (snd x)) as Hv.
    { unfold first_of. intros x Ex. assert (x ∈ filter (fun x => in_view (snd v) (snd x)) (along L c)) as Hx.
      { destruct (filter _ _); [done|]. injection Ex as ->. left. }
      by apply list_elem_of_filter in Hx as [? _]. }
    destruct (first_of L (in_view (snd v)) c) as [[a [k x]]|]; cbn [fmap option_fmap option_map fst snd] in *; tsteps.
    + iDestruct (map_read γ _ a k x with "Hm") as (e [Ek Ev]) "[Ha Hm]"; [by apply Ho|]. tsteps. rewrite Ek.
      iDestruct ("Hm" with "Ha") as "Hm". destruct (Hv _ eq_refl) as [_ Hr].
      iDestruct (map_sorted γ L with "Hm") as %[_ Hg].
      iApply (outside_spec with "[Hm H]"); [done|done|exact (Hg _ (Ho _ eq_refl))|]. tsteps.
      rewrite (bool_decide_eq_false_2 (range _ _ = [])); [|by intros Hn; rewrite Hn in Er].
      rewrite (bool_decide_eq_false_2 (~ _)); [|by intros Hn; apply Hn].
      iApply ("H" with "[%] [Hm]"); [apply stepped_refl|by iApply is_map_of].
    + rewrite bool_decide_eq_true_2; [|by destruct (range _ _)].
      iApply ("H" with "[%] [Hm]"); [apply stepped_refl|by iApply is_map_of].
Qed.

(** Every call on a view. *)
Lemma sub_does v (q : sub_call Obj) l : sub_admissible (cpr := cpr) v q -> does (run_sub v q) l (spec_sub (cpr := cpr) v l q).
Proof.
  intros [Hb H]. destruct v as [d b].
  destruct q as [k x out|k|k|k out| |s|s|s|s i k|s i k|[[k x]|]|[[k x]|] out]; cbn [run_sub spec_sub snd].
  - by apply does_tagged, Sub_Put_does.
  - by apply does_tagged, Sub_Get_does.
  - by apply does_tagged, Sub_ContainsKey_does.
  - by apply does_tagged, Sub_Remove_does.
  - by apply does_ret, (Sub_IsEmpty_does (d, b)).
  - apply does_ret. destruct d, s; by apply (key_of_finds _ _ _ (AbsEnd_finds _ _ Hb)).
  - apply does_ret. destruct d, s; by apply (exported_finds _ _ _ (AbsEnd_finds _ _ Hb)).
  - apply does_ret. destruct d, s; by apply (poll_finds _ _ _ (AbsEnd_finds _ _ Hb)).
  - apply does_ret. destruct d, s, i; by apply (key_or_null_finds _ _ _ (AbsNear_finds _ _ _ _ Hb H)).
  - apply does_ret. destruct d, s, i; by apply (exported_finds _ _ _ (AbsNear_finds _ _ _ _ Hb H)).
  - by apply does_tagged, (EntrySetView_Contains_does (d, b)).
  - apply does_ret, ret_does.
  - by apply does_tagged, (EntrySetView_Remove_does (d, b)).
  - apply does_ret, ret_does.
Qed.

End Does.

End TreeSubMapCalls.
