(* ===== verification/TreeSubMapNarrow.v ===== *)
(** * Views of views

    A view made from a view, or from the map, has the entries of the one it is made
    from that are within its own bounds. *)
From stdpp Require Import gmap sorting.
From S2P Require Import Prelude.
From S2P Require Import ECode.
From S2P Require Import TreeMap.
From S2P Require Import TreeMapOrder.
From S2P Require Import TreeSubMap.
From S2P Require Import TreeSubMapCalls.

Module TreeSubMapNarrow.

Import TreeMap TreeMapOrder TreeMapIntegers TreeSubMap TreeSubMapOrder TreeSubMapCalls.

Section Narrow.
Context {Obj : Type} `{!EqDecision Obj} `{!Objects Obj} {cpr : option Obj} `{!KeyOrder cpr}.
Notation ref := (option Obj).
Notation item := (option Obj * option Obj)%type.
Notation M := (SE (world Obj)).
Notation inside := (inside (cpr := cpr)).
Notation in_view := (in_view (cpr := cpr)).
Notation covers := (covers (cpr := cpr)).
Notation range := (range (cpr := cpr)).
Notation good_bounds := (good_bounds (cpr := cpr)).
Notation consistent := (consistent (cpr := cpr)).
Implicit Types (s d : side) (key : ref) (b : NavigableSubMap Obj) (v : view Obj) (l : list item) (w : world Obj).

(** The functions that make a view from a view. *)
Inductive narrowing :=
  | NHead (key : ref) (incl : bool)
  | NTail (key : ref) (incl : bool)
  | NSub (fromKey : ref) (fromInclusive : bool) (toKey : ref) (toInclusive : bool)
  | NDescend.

Definition run_narrow v (n : narrowing) : M (ECode * option (option (view Obj))) :=
  match n with
  | NHead key incl => Sub_HeadMap v key incl
  | NTail key incl => Sub_TailMap v key incl
  | NSub k i k' i' => Sub_SubMap v k i k' i'
  | NDescend => Sub_DescendingMap v
  end.

(** Between the bounds, or at them. *)
Definition within_bound s b key : Prop := unbounded s b = true \/ ~ before s key (limit s b).
Definition closed b key : Prop := within_bound L b key /\ within_bound R b key.
#[export] Instance closed_dec b key : Decision (closed b key).
Proof. unfold closed, within_bound. apply _. Defined.

(** What the new bounds must be: in the view, or, when they are exclusive, at a
    bound: at the same exclusive one for a head or tail, at any for both. *)
Definition at_bound s b key : Prop := unbounded s b = false /\ cmp key (limit s b) = 0 /\ inclusive s b = false.
Definition fits_end s b key (incl : bool) : Prop := in_view b (key, None) \/ at_bound s b key /\ incl = false.
Definition fits_range b key (incl : bool) : Prop := if incl then in_view b (key, None) else closed b key.
#[export] Instance fits_end_dec s b key incl : Decision (fits_end s b key incl).
Proof. unfold fits_end, at_bound. apply _. Defined.
#[export] Instance fits_range_dec b key incl : Decision (fits_range b key incl).
Proof. unfold fits_range. destruct incl; apply _. Defined.

Definition allowed v (n : narrowing) : Prop :=
  match n with
  | NHead key incl => fits_end (turn v R) (snd v) key incl
  | NTail key incl => fits_end (turn v L) (snd v) key incl
  | NSub k i k' i' => fits_range (snd v) k i /\ fits_range (snd v) k' i'
  | NDescend => True
  end.

(** Which entries of the view are kept. *)
Definition keeps v (n : narrowing) (e : item) : Prop :=
  match n with
  | NHead key incl => qualifies (turn v R) incl key e
  | NTail key incl => qualifies (turn v L) incl key e
  | NSub k i k' i' => qualifies (turn v L) i k e /\ qualifies (turn v R) i' k' e
  | NDescend => True
  end.
#[export] Instance keeps_dec v n e : Decision (keeps v n e).
Proof. destruct n; unfold keeps; apply _. Defined.

(** The end before the start: the new view is not initialised, and no error is returned. *)
Definition crossed v (n : narrowing) : Prop :=
  match n with NSub k _ k' _ => before (turn v L) k' k | _ => False end.

Definition keys_ok (n : narrowing) : Prop :=
  match n with
  | NHead key _ | NTail key _ => good key /\ key <> None
  | NSub k _ k' _ => (good k /\ k <> None) /\ good k' /\ k' <> None
  | NDescend => True
  end.

Definition direction v (n : narrowing) : side := match n with NDescend => flip (fst v) | _ => fst v end.

(** ** Runs of the comparisons *)

Section Runs.
Context (w : world Obj).
Hypothesis Hw : mComparator (this w) = cpr.

Lemma Compare_run k k' : good k -> good k' -> Compare k k' w = Some (cmp k k', w).
Proof using Hw.
  intros Hk Hk'. unfold Compare, bind, self. cbn. rewrite Hw. destruct (compares k k' Hk Hk') as (ec & _ & ->). done.
Qed.

Lemma outside_run s b key : good_bounds b -> good key -> outside s b key w = Some (bool_decide (~ inside s b (key, None)), w).
Proof using Hw.
  intros Hb Hk. unfold outside. destruct (unbounded s b) eqn:E.
  - rewrite bool_decide_eq_false_2; [done|]. intros Hn. apply Hn. by left.
  - destruct (Hb s E) as [Hl _]. rewrite (bind_Some _ _ _ _ _ (Compare_run _ _ Hk Hl)). unfold ret. do 2 f_equal.
    apply outside_bool; done.
Qed.

Lemma InRange_run b key : good_bounds b -> good key -> InRange b key w = Some (covers b key, w).
Proof using Hw.
  intros Hb Hk. unfold InRange, TooLow, TooHigh. rewrite (bind_Some _ _ _ _ _ (outside_run L b key Hb Hk)).
  unfold TreeSubMapCalls.covers, TreeSubMapOrder.in_view.
  destruct (decide (inside L b (key, None))) as [Hi|Hi].
  - rewrite bool_decide_eq_false_2 by tauto. rewrite (bind_Some _ _ _ _ _ (outside_run R b key Hb Hk)). unfold ret. do 2 f_equal.
    destruct (decide (inside R b (key, None))) as [Hr|Hr].
    + rewrite bool_decide_eq_false_2 by tauto. by rewrite bool_decide_eq_true_2.
    + rewrite bool_decide_eq_true_2 by tauto. rewrite bool_decide_eq_false_2 by tauto. done.
  - rewrite bool_decide_eq_true_2 by done. rewrite bool_decide_eq_false_2 by tauto. done.
Qed.

Lemma low_run b key : good_bounds b -> good key ->
  (if mFromStart b then ret true else c <- Compare key (mLo b) ;; ret (c >=? 0)) w = Some (bool_decide (within_bound L b key), w).
Proof using Hw.
  intros Hb Hk. pose proof (Hb L) as Hl. cbn [unbounded limit] in Hl. unfold within_bound. cbn [unbounded limit].
  destruct (mFromStart b); [by rewrite bool_decide_eq_true_2 by tauto|]. destruct (Hl eq_refl) as [Gl _].
  rewrite (bind_Some _ _ _ _ _ (Compare_run _ _ Hk Gl)). unfold ret. do 2 f_equal.
  apply eq_true_iff_eq. unfold before. rewrite bool_decide_eq_true, Z.geb_le, towards_spec. intuition (lia || congruence).
Qed.

Lemma high_run b key : good_bounds b -> good key ->
  (if mToEnd b then ret true else c <- Compare (mHi b) key ;; ret (c >=? 0)) w = Some (bool_decide (within_bound R b key), w).
Proof using Hw.
  intros Hb Hk. pose proof (Hb R) as Hl. cbn [unbounded limit] in Hl. unfold within_bound. cbn [unbounded limit].
  destruct (mToEnd b); [by rewrite bool_decide_eq_true_2 by tauto|]. destruct (Hl eq_refl) as [Gl _].
  rewrite (bind_Some _ _ _ _ _ (Compare_run _ _ Gl Hk)). unfold ret. do 2 f_equal.
  pose proof (cmp_anti (mHi b) key Gl Hk).
  apply eq_true_iff_eq. unfold before. rewrite bool_decide_eq_true, Z.geb_le, towards_spec. intuition (lia || congruence).
Qed.

Lemma InClosedRange_run b key : good_bounds b -> good key -> InClosedRange b key w = Some (bool_decide (closed b key), w).
Proof using Hw.
  intros Hb Hk. unfold InClosedRange, closed. rewrite (bind_Some _ _ _ _ _ (low_run b key Hb Hk)).
  case_bool_decide as Hl; [rewrite high_run by done|]; cbn; unfold ret; do 2 f_equal; apply eq_true_iff_eq;
    rewrite !bool_decide_eq_true; intuition congruence.
Qed.

Lemma InRange_inclusive_run b key incl : good_bounds b -> good key ->
  InRange_inclusive b key incl w = Some (bool_decide (fits_range b key incl), w).
Proof using Hw. intros Hb Hk. destruct incl; [by apply InRange_run|by apply InClosedRange_run]. Qed.

End Runs.

(** ** New bounds *)

Definition with_bound s key (incl : bool) b : NavigableSubMap Obj :=
  match s with
  | L => {| mFromStart := false; mLo := key; mLoInclusive := incl;
            mToEnd := mToEnd b; mHi := mHi b; mHiInclusive := mHiInclusive b |}
  | R => {| mFromStart := mFromStart b; mLo := mLo b; mLoInclusive := mLoInclusive b;
            mToEnd := false; mHi := key; mHiInclusive := incl |}
  end.

Lemma with_bound_inside s key incl b e : inside s (with_bound s key incl b) e <-> qualifies s incl key e.
Proof. unfold TreeSubMapOrder.inside. destruct s; cbn [unbounded limit inclusive with_bound mFromStart mToEnd mLo mHi mLoInclusive mHiInclusive]; intuition congruence. Qed.

Lemma with_bound_other s key incl b e : inside (flip s) (with_bound s key incl b) e <-> inside (flip s) b e.
Proof. destruct s; reflexivity. Qed.

Lemma with_bound_good s key incl b : good_bounds b -> good key /\ key <> None -> good_bounds (with_bound s key incl b).
Proof. intros Hb Hk s' E. specialize (Hb s'). destruct s, s'; cbn in *; auto. Qed.

(** The constructor accepts bounds in order. *)
Lemma Constructor_bounds b w : mComparator (this w) = cpr -> good_bounds b ->
  Constructor (mFromStart b) (mLo b) (mLoInclusive b) (mToEnd b) (mHi b) (mHiInclusive b) w =
    Some (if decide (consistent b) then (NOERROR, Some b) else (E_ILLEGAL_ARGUMENT_EXCEPTION, None), w).
Proof.
  intros Hw Hb. unfold Constructor, TreeSubMapOrder.consistent. pose proof (Hb L) as HL. pose proof (Hb R) as HR.
  cbn [unbounded limit] in *. destruct b as [fs lo li te hi hi']. cbn in *.
  destruct fs, te; cbn [negb andb]; rewrite ?bind_ret; try (rewrite decide_True by done; done).
  destruct (HL eq_refl) as [Gl _], (HR eq_refl) as [Gr _]. rewrite (bind_Some _ _ _ _ _ (Compare_run w Hw _ _ Gl Gr)).
  destruct (Z.gtb_spec (cmp lo hi) 0) as [H|H].
  - rewrite decide_False; [done|]. intros Hc. specialize (Hc eq_refl eq_refl). lia.
  - by rewrite decide_True.
Qed.

Lemma made_run d b w : mComparator (this w) = cpr -> good_bounds b ->
  made d (Constructor (mFromStart b) (mLo b) (mLoInclusive b) (mToEnd b) (mHi b) (mHiInclusive b)) w =
    Some ((NOERROR, Some (if decide (consistent b) then Some (d, b) else None)), w).
Proof. intros Hw Hb. unfold made. rewrite (bind_Some _ _ _ _ _ (Constructor_bounds b w Hw Hb)). by destruct (decide _). Qed.

(** A new bound that fits is no wider than the old one, and in order with the other. *)
Lemma fits_end_inside s b key incl e : good_bounds b -> good key -> good (fst e) ->
  fits_end s b key incl -> qualifies s incl key e -> inside s b e.
Proof.
  intros Hb Hk He [Hv|[(E & Hc & _) ->]] Hq.
  - apply (inside_qualifies s incl b key); try done. by apply (inside_both s) in Hv as [? _].
  - destruct (Hb s E) as [Hl _]. right. left. destruct Hq as [Hq|[? _]]; [|done].
    apply (before_equal s _ key); try done. pose proof (cmp_anti key (limit s b) Hk Hl). pose proof (cmp_anti (limit s b) key Hl Hk). lia.
Qed.

Lemma fits_range_inside s b key incl e : good_bounds b -> good key -> good (fst e) ->
  fits_range b key incl -> qualifies s incl key e -> inside s b e.
Proof.
  intros Hb Hk He Hf Hq. unfold fits_range in Hf. destruct incl.
  - apply (inside_qualifies s true b key); try done. by apply (inside_both s) in Hf as [? _].
  - destruct Hq as [Hq|[? _]]; [|done]. assert (within_bound s b key) as [E|Hn] by (destruct s; apply Hf); [by left|].
    destruct (unbounded s b) eqn:E; [by left|]. destruct (Hb s E) as [Hl _]. right. left.
    destruct s; ordering key (limit L b) (fst e) || ordering key (limit R b) (fst e).
Qed.

Lemma fits_end_consistent s b key incl : good_bounds b -> good key -> consistent b ->
  fits_end s b key incl -> consistent (with_bound s key incl b).
Proof.
  intros Hb Hk Hc Hf E1 E2. pose proof (Hb L) as HL. pose proof (Hb R) as HR.
  unfold TreeSubMapOrder.consistent, fits_end, at_bound, TreeSubMapOrder.in_view, TreeSubMapOrder.inside, qualifies, before in *.
  rewrite !towards_spec in Hf.
  destruct s; cbn [unbounded limit inclusive with_bound mFromStart mToEnd mLo mHi mLoInclusive mHiInclusive fst] in *.
  - destruct (HR E2) as [Gr _]. pose proof (cmp_anti key (mHi b) Hk Gr). pose proof (cmp_anti (mHi b) key Gr Hk).
    destruct Hf as [[_ [?|[?|[_ ?]]]]|[(El & Hl & _) _]]; try (congruence || lia).
    destruct (HL El) as [Gl _]. specialize (Hc El E2).
    pose proof (cmp_trans key (mLo b) (mHi b) Hk Gl Gr). lia.
  - destruct (HL E1) as [Gl _]. pose proof (cmp_anti key (mLo b) Hk Gl). pose proof (cmp_anti (mLo b) key Gl Hk).
    destruct Hf as [[[?|[?|[_ ?]]] _]|[(Er & Hr & _) _]]; try (congruence || lia).
    destruct (HR Er) as [Gr _]. specialize (Hc E1 Er). pose proof (cmp_anti key (mHi b) Hk Gr). pose proof (cmp_anti (mHi b) key Gr Hk).
    pose proof (cmp_trans (mLo b) (mHi b) key Gl Gr Hk). lia.
Qed.

(** The entries of the new view, given which of its conditions imply the old ones. *)
Lemma range_filter b b' (P : item -> Prop) `{!forall e, Decision (P e)} l :
  (forall e, good (fst e) -> in_view b' e <-> P e /\ in_view b e) -> Forall (fun e => good (fst e)) l ->
  range b' l = filter P (range b l).
Proof.
  intros HP Hl. unfold TreeSubMapCalls.range. rewrite list_filter_filter. apply filter_iff_in.
  intros e He. rewrite Forall_forall in Hl. by apply HP, Hl.
Qed.

(** The view [v'] is what is left of [v]. *)
Definition narrowed v (n : narrowing) v' : Prop :=
  fst v' = direction v n /\ good_bounds (snd v') /\ consistent (snd v') /\
  forall l, Forall (fun e => good (fst e)) l -> range (snd v') l = filter (keeps v n) (range (snd v) l).

Lemma narrow_run s v key incl w : mComparator (this w) = cpr -> good_bounds (snd v) -> good key -> key <> None ->
  narrow s v key incl w =
    (if decide (fits_end s (snd v) key incl) then made (fst v) (Constructor
       (mFromStart (with_bound s key incl (snd v))) (mLo (with_bound s key incl (snd v)))
       (mLoInclusive (with_bound s key incl (snd v))) (mToEnd (with_bound s key incl (snd v)))
       (mHi (with_bound s key incl (snd v))) (mHiInclusive (with_bound s key incl (snd v)))) w
     else Some ((E_ILLEGAL_ARGUMENT_EXCEPTION, None), w)).
Proof.
  intros Hw Hb Hk Hn. unfold narrow, sub_null. rewrite decide_False by done. set (b := snd v) in *.
  rewrite (bind_Some _ _ _ _ _ (InRange_run w Hw b key Hb Hk)).
  match goal with |- bind ?m _ w = _ => assert (m w = Some (bool_decide (fits_end s b key incl), w)) as E end.
  { unfold TreeSubMapCalls.covers. case_bool_decide as Hv; [by rewrite bool_decide_eq_true_2 by by left|].
    destruct (unbounded s b) eqn:Eu; [rewrite bool_decide_eq_false_2 by (unfold fits_end, at_bound; intuition congruence); done|].
    destruct (Hb s Eu) as [Hl _]. rewrite (bind_Some _ _ _ _ _ (Compare_run w Hw _ _ Hk Hl)). unfold ret. do 2 f_equal.
    apply eq_true_iff_eq. rewrite bool_decide_eq_true, !andb_true_iff, !negb_true_iff, Z.eqb_eq.
    unfold fits_end, at_bound. tauto. }
  rewrite (bind_Some _ _ _ _ _ E). case_bool_decide as Hf; [rewrite decide_True by done|by rewrite decide_False].
  by destruct s.
Qed.

Lemma narrow_narrowed s v n key incl w :
  mComparator (this w) = cpr -> good_bounds (snd v) -> consistent (snd v) -> good key -> key <> None ->
  direction v n = fst v -> (forall e, keeps v n e <-> qualifies s incl key e) ->
  narrow s v key incl w =
    Some (if decide (fits_end s (snd v) key incl) then (NOERROR, Some (Some (fst v, with_bound s key incl (snd v))))
          else (E_ILLEGAL_ARGUMENT_EXCEPTION, None), w) /\
  (fits_end s (snd v) key incl -> narrowed v n (fst v, with_bound s key incl (snd v))).
Proof.
  intros Hw Hb Hc Hk Hn Hd He. rewrite narrow_run by done. split.
  - case_decide as Hf; [|done]. rewrite made_run; [|done|by apply with_bound_good].
    by rewrite decide_True by by apply fits_end_consistent.
  - intros Hf. split; [done|]. split; [by apply with_bound_good|]. split; [by apply fits_end_consistent|].
    intros l. apply range_filter. intros e Ge. cbn [snd]. rewrite He, !(inside_both s), with_bound_inside, with_bound_other.
    split; [|tauto]. intros [H1 H2]. split; [done|]. split; [|done]. by apply (fits_end_inside s (snd v) key incl).
Qed.

(** C23: A view made from a view, whose bounds the comparison orders, is the one of its
    entries that the new bounds let through, in its direction or, for a descending
    map, against it; bounds that do not fit are refused.  For both bounds in the
    wrong order there is no error, and no view either. *)
Theorem narrowed_views v n w :
  mComparator (this w) = cpr -> good_bounds (snd v) -> consistent (snd v) -> keys_ok n ->
  exists r, run_narrow v n w = Some (r, w) /\
    (~ allowed v n -> r = (E_ILLEGAL_ARGUMENT_EXCEPTION, None)) /\
    (allowed v n -> crossed v n -> r = (NOERROR, Some None)) /\
    (allowed v n -> ~ crossed v n -> exists v', r = (NOERROR, Some (Some v')) /\ narrowed v n v').
Proof.
  intros Hw Hb Hc Hk. destruct n as [key incl|key incl|k i k' i'|]; cbn [run_narrow keys_ok allowed crossed] in *.
  - destruct Hk as [Hk Hn]. destruct (narrow_narrowed (turn v R) v (NHead key incl) key incl w) as [E Hv]; try done.
    unfold Sub_HeadMap. rewrite E. eexists. split; [done|]. case_decide; [|tauto]. split; [tauto|]. split; [done|]. eauto.
  - destruct Hk as [Hk Hn]. destruct (narrow_narrowed (turn v L) v (NTail key incl) key incl w) as [E Hv]; try done.
    unfold Sub_TailMap. rewrite E. eexists. split; [done|]. case_decide; [|tauto]. split; [tauto|]. split; [done|]. eauto.
  - destruct Hk as [[Hk Hn] [Hk' Hn']]. destruct v as [d b]. unfold Sub_SubMap, sub_null. cbn [fst snd] in *. rewrite !decide_False by done.
    rewrite (bind_Some _ _ _ _ _ (InRange_inclusive_run w Hw b k i Hb Hk)).
    case_bool_decide as Hf; cbn [negb]; [|eexists; split; [done|]; tauto].
    rewrite (bind_Some _ _ _ _ _ (InRange_inclusive_run w Hw b k' i' Hb Hk')).
    case_bool_decide as Hf'; cbn [negb]; [|eexists; split; [done|]; tauto].
    set (b' := with_bound (turn (d, b) R) k' i' (with_bound (turn (d, b) L) k i b)).
    assert (good_bounds b') as Hb' by (apply with_bound_good; [by apply with_bound_good|done]).
    assert (consistent b' <-> ~ before (turn (d, b) L) k' k) as Hco.
    { unfold TreeSubMapOrder.consistent, before, b'. pose proof (cmp_anti k k' Hk Hk'). pose proof (cmp_anti k' k Hk' Hk).
      destruct d; cbn [turn fst flip with_bound unbounded limit mFromStart mToEnd mLo mHi]; rewrite towards_spec; intuition lia. }
    pose proof (made_run d b' w Hw Hb') as E.
    exists (NOERROR, Some (if decide (consistent b') then Some (d, b') else None)). split; [by destruct d|].
    split; [tauto|]. split; [intros _ Hcr; by rewrite decide_False by tauto|]. intros _ Hcr. rewrite decide_True by tauto.
    exists (d, b'). split; [done|]. split; [done|]. split; [done|]. split; [tauto|]. cbn [snd].
    intros l. apply range_filter. intros e Ge. cbn [keeps snd].
    assert (in_view b' e <-> qualifies (turn (d, b) L) i k e /\ qualifies (turn (d, b) R) i' k' e) as ->.
    { rewrite (inside_both (turn (d, b) R)). unfold b'. rewrite with_bound_inside, with_bound_other.
      destruct d; cbn [turn fst flip]; rewrite with_bound_inside; tauto. }
    split; [|tauto]. intros [H1 H2]. split; [done|]. rewrite (inside_both (turn (d, b) L)).
    split; [by apply (fits_range_inside _ b k i)|]. replace (flip (turn (d, b) L)) with (turn (d, b) R) by by destruct d.
    by apply (fits_range_inside _ b k' i').
  - unfold Sub_DescendingMap. rewrite made_run by done. rewrite decide_True by done. eexists. split; [done|]. split; [tauto|]. split; [done|].
    intros _ _. eexists. split; [done|]. split; [done|]. split; [done|]. split; [done|]. intros l Hl. cbn [snd].
    rewrite filter_all; [done|]. apply Forall_forall. by intros.
Qed.

(** The entries next to null, in a view with a bound and the keys' own order: the
    comparison with the bound dereferences null. *)
Lemma null_searches_are_undefined i b w : mComparator (this w) = None -> mFromStart b = false ->
  key_or_null (AbsNear L i b None) w = None.
Proof.
  intros Hw E. unfold key_or_null, AbsNear, outside. cbn [unbounded]. rewrite E. unfold Compare, bind, self. cbn. by rewrite Hw.
Qed.

(** The map's own are those of a view without bounds. *)
Definition everything : view Obj :=
  (R, {| mFromStart := true; mLo := None; mLoInclusive := true; mToEnd := true; mHi := None; mHiInclusive := true |}).

Lemma everything_good : good_bounds (snd everything) /\ consistent (snd everything).
Proof. split; [by intros []|done]. Qed.

Lemma range_everything l : range (snd everything) l = l.
Proof. apply filter_all, Forall_forall. intros e _. split; by left. Qed.

Lemma maps_views key key' i i' w : key <> None -> key' <> None ->
  HeadMap key i w = run_narrow everything (NHead key i) w /\ TailMap key i w = run_narrow everything (NTail key i) w /\
  SubMap_of key i key' i' w = run_narrow everything (NSub key i key' i') w /\
  DescendingMap (Obj := Obj) w = run_narrow everything NDescend w.
Proof.
  intros Hk Hk'. cbn [run_narrow]. unfold Sub_HeadMap, Sub_TailMap, narrow, Sub_SubMap, sub_null.
  rewrite !decide_False by done. repeat split; by destruct i, i'.
Qed.

End Narrow.

(** From 5 on, of those before 8; and from 8 on, which does not fit. *)
Lemma narrowed_views_witness :
  (exists r, run_narrow (three_to_eight R) (NTail (Some 5) false) three = Some (r, three) /\
    (~ allowed (cpr := None) (three_to_eight R) (NTail (Some 5) false) -> r = (E_ILLEGAL_ARGUMENT_EXCEPTION, None)) /\
    (allowed (cpr := None) (three_to_eight R) (NTail (Some 5) false) ->
     crossed (cpr := None) (three_to_eight R) (NTail (Some 5) false) -> r = (NOERROR, Some None)) /\
    (allowed (cpr := None) (three_to_eight R) (NTail (Some 5) false) ->
     ~ crossed (cpr := None) (three_to_eight R) (NTail (Some 5) false) ->
     exists v', r = (NOERROR, Some (Some v')) /\ narrowed (cpr := None) (three_to_eight R) (NTail (Some 5) false) v')) /\
  allowed (cpr := None) (three_to_eight R) (NTail (Some 5) false) /\
  ~ allowed (cpr := None) (three_to_eight R) (NTail (Some 8) true) /\
  filter (keeps (cpr := None) (three_to_eight R) (NTail (Some 5) false))
    (range (cpr := None) (snd (three_to_eight R)) [(Some 3, None); (Some 5, None); (Some 6, None); (Some 9, None)]) = [(Some 6, None)].
Proof.
  split; [|split; [|split]].
  - apply (narrowed_views (cpr := None)); [done|apply three_to_eight_good|by vm_compute|by split].
  - apply (bool_decide_unpack _). by vm_compute.
  - intros Ha%(bool_decide_pack _). by vm_compute in Ha.
  - by vm_compute.
Defined.

End TreeSubMapNarrow.
