(* ===== verification/TreeSubMapTheorems.v ===== *)
(** * Views are ranges of the map

    Histories of calls on a map and its views, and loops over views. *)
From stdpp Require Import gmap sorting.
From iris.proofmode Require Import proofmode.
From iris.base_logic.lib Require Import ghost_map.
From S2P Require Import Prelude.
From S2P Require Import ECode.
From S2P Require Import TreeMap.
From S2P Require Import TreeShape.
From S2P Require Import TreeMapOrder.
From S2P Require Import TreeMapLogic.
From S2P Require Import TreeMapSpecs.
From S2P Require Import TreeMapCalls.
From S2P Require Import TreeMapAdequacy.
From S2P Require Import TreeMapTheorems.
From S2P Require Import TreeSubMap.
From S2P Require Import TreeSubMapCalls.
From S2P Require Import TreeMapIterate.

(** ** Views are ranges of the map

    Histories that mix calls on the map with calls on any number of its views, and
    the views made from other views. *)

Module TreeSubMapTheorems.

Import TreeMap TreeShape TreeMapOrder TreeMapLogic TreeMapSpecs TreeMapCalls TreeMapAdequacy TreeMapIntegers TreeMapTheorems.
Import TreeSubMap TreeSubMapOrder TreeSubMapSpecs TreeSubMapCalls.

Section Histories.
Context {Obj : Type} `{!EqDecision Obj} `{!Objects Obj} {cpr : option Obj} `{!KeyOrder cpr}.
Notation M := (SE (world Obj)).
Notation T := (TreeMap Obj).
Notation item := (option Obj * option Obj)%type.
Implicit Types (f : T) (l : list item) (v : view Obj) (b : NavigableSubMap Obj) (key : option Obj).

(** A call on the map, or on one of its views. *)
Definition step : Type := call Obj + view Obj * sub_call Obj.

Definition run_step (q : step) : M (answer Obj) :=
  match q with inl q => run q | inr (v, q) => run_sub v q end.

Fixpoint steps (qs : list step) : M (list (answer Obj)) :=
  match qs with
  | [] => ret []
  | q :: qs => a <- run_step q ;; l <- steps qs ;; ret (a :: l)
  end.

Definition spec_step (l : list item) (q : step) : answer Obj * list item :=
  match q with inl q => spec_call (cpr := cpr) l q | inr (v, q) => spec_sub (cpr := cpr) v l q end.

Fixpoint spec_steps (l : list item) (qs : list step) : list (answer Obj) * list item :=
  match qs with
  | [] => ([], l)
  | q :: qs =>
      let '(a, l) := spec_step l q in
      let '(answers, l) := spec_steps l qs in (a :: answers, l)
  end.

Definition step_ok (q : step) : Prop :=
  match q with inl q => admissible (cpr := cpr) q | inr (v, q) => sub_admissible (cpr := cpr) v q end.

Lemma spec_sub_length v l (q : sub_call Obj) : (length (snd (spec_sub (cpr := cpr) v l q)) <= S (length l))%nat.
Proof.
  pose proof (fun key => beyond_length (cpr := cpr) key l) as Hb.
  assert (forall key x, (length (spec_put key x l) <= S (length l))%nat) as Hput.
  { intros key x. unfold spec_put. rewrite length_app. cbn. specialize (Hb key). lia. }
  assert (forall key, (length (spec_remove key l) <= S (length l))%nat) as Hrem.
  { intros key. unfold spec_remove. rewrite length_app. specialize (Hb key). lia. }
  destruct q as [k x out|k|k|k out| |s|s|s|s i k|s i k|[[k x]|]|[[k x]|] out]; cbn [spec_sub snd tagged]; try lia;
    try (unfold guarded; destruct (decide (k = None)); cbn [snd]; try lia).
  - destruct (covers _ _); [apply Hput|cbn; lia].
  - destruct (covers _ _); [apply Hrem|lia].
  - destruct (head _); [apply Hrem|lia].
  - destruct (has_entry _ _ _); [apply Hrem|lia].
Qed.

Lemma spec_step_length l q : (length (snd (spec_step l q)) <= S (length l))%nat.
Proof. destruct q as [q|[v q]]; [apply spec_length|apply spec_sub_length]. Qed.

Lemma step_does `{!ghost_mapG Σ positive (TreeMapEntry Obj)} (γ : gname) q l :
  step_ok q -> does (cpr := cpr) γ (run_step q) l (spec_step l q).
Proof. destruct q as [q|[v q]]; [apply call_does|apply sub_does]. Qed.

Lemma steps_does `{!ghost_mapG Σ positive (TreeMapEntry Obj)} (γ : gname) qs l f (Φ : list (answer Obj) -> T -> iProp Σ) :
  Forall step_ok qs -> room (length qs) f ->
  is_map (cpr := cpr) γ l f -∗
  (∀ f', is_map (cpr := cpr) γ (snd (spec_steps l qs)) f' -∗ Φ (fst (spec_steps l qs)) f') -∗
  twp γ (steps qs) Φ f.
Proof.
  iIntros (Hqs Hf) "Hl H". iInduction qs as [|q qs] "IH" forall (l f Φ Hqs Hf).
  { cbn [steps]. tsteps. by iApply "H". }
  apply Forall_cons in Hqs as [Hq Hqs]. destruct Hf as (Hf1 & Hf2 & Hf3). cbn [length] in Hf2, Hf3.
  iDestruct (is_map_length with "Hl") as %Hs. cbn [steps spec_steps]. tstep.
  iApply (step_does γ q l Hq with "Hl"); [split; lia|].
  iIntros (f' (_ & Hmod & _)) "Hl". pose proof (spec_step_length l q) as Hlen. destruct (spec_step l q) as [a l']. cbn [fst snd] in *.
  iDestruct (is_map_length with "Hl") as %Hs'.
  tstep. iApply ("IH" $! l' f' with "[%] [%] Hl"); [done|split; [|split]; lia|].
  iIntros (f'') "Hl". tsteps. destruct (spec_steps l' qs) as [as' l'']. by iApply "H".
Qed.

(** C8: every history of calls on a map and on its views, in any order and with the
    views used for as long as one likes, is defined and returns what the sorted
    list says: a view sees the entries in its bounds that the map has at the
    time, in its own direction, refuses what is out of them, and changes the
    map. The calls are all those of the map and of a view and its entry set but
    a view's [GetSize], keys and bounds are ones the comparator orders, and the
    key of a view's neighbour search is not null: [bounded_sizes_are_undefined]
    and [null_searches_are_undefined] show why. *)
Theorem views_are_live_ranges qs h :
  Forall step_ok qs -> Z.of_nat (length qs) < 2147483648 ->
  exists w, (Constructor_comparator cpr ;;; steps qs) {| this := new_TreeMap; entries := h |} =
              Some (fst (spec_steps [] qs), w) /\
            represents (cpr := cpr) w (snd (spec_steps [] qs)).
Proof.
  intros Hqs Hn.
  destruct (run_map (steps qs) (fun r _ l => r = fst (spec_steps [] qs) /\ l = snd (spec_steps [] qs))
    _ [] (represents_new (cpr := cpr) h)) as (r & w & l & E & Hw & -> & ->).
  - iIntros (? γ) "Hl". iApply (steps_does γ qs [] with "Hl"); [done|split; [done|]; cbn; lia|].
    iIntros (f') "Hl". iExists _. by iFrame.
  - exists w. by split.
Qed.

End Histories.

#[global] Arguments step : clear implicits.

(** Calls through the map, and through a view in either direction. *)
Definition some_steps : list (step Z) :=
  [inl (CPut (Some 3) (Some 30) true); inl (CPut (Some 8) (Some 80) true);
   inr (three_to_eight R, SPut (Some 5) (Some 50) true); inr (three_to_eight R, SPut (Some 8) (Some 81) true);
   inr (three_to_eight R, SEndKey R); inr (three_to_eight L, SEndKey L); inr (three_to_eight L, SNearKey L false (Some 5));
   inr (three_to_eight R, SGet (Some 8)); inl (CPut (Some 7) (Some 70) false); inr (three_to_eight L, SPoll L);
   inr (three_to_eight R, SContainsKey (Some 7)); inr (three_to_eight R, SIsEmpty); inl CSize].

Lemma some_steps_ok : Forall (step_ok (cpr := None)) some_steps.
Proof.
  repeat (apply Forall_cons_2; [first [done|by right|split; [apply three_to_eight_good|first [done|by right]]]|]).
  by apply Forall_nil_2.
Qed.

Lemma views_are_live_ranges_witness :
  fst (spec_steps (cpr := None) [] some_steps) =
    [ARef (NOERROR, Some None); ARef (NOERROR, Some None); ARef (NOERROR, Some None); ARef (E_ILLEGAL_ARGUMENT_EXCEPTION, None);
     ARef (NOERROR, Some (Some 5)); ARef (NOERROR, Some (Some 5)); ARef (NOERROR, Some (Some 3));
     ARef (NOERROR, Some None); ARef (NOERROR, None); AEntry (NOERROR, Some (Some (Some 7, Some 70)));
     ABool (NOERROR, Some false); ABool (NOERROR, Some false); ASize (NOERROR, Some 3)] /\
  exists w, (Constructor_comparator None ;;; steps some_steps) {| this := new_TreeMap; entries := empty |} =
              Some (fst (spec_steps (cpr := None) [] some_steps), w) /\
            represents (cpr := None) w [(Some 3, Some 30); (Some 5, Some 50); (Some 8, Some 80)].
Proof.
  split; [by vm_compute|].
  exact (views_are_live_ranges (cpr := None) some_steps empty some_steps_ok eq_refl).
Defined.

End TreeSubMapTheorems.

(** ** Iterators of views

    An iterator of a view stops at its fence, the first entry beyond the range.  A
    client's loop asks for the next entry until there is none, [HasNext] having no
    return; it may remove entries as it goes. *)

Module TreeSubMapIterate.

Import TreeMap TreeShape TreeMapOrder TreeMapLogic TreeMapUpdate TreeMapSpecs TreeMapCalls TreeMapAdequacy TreeMapIntegers.
Import TreeMapTheorems TreeMapIterate TreeSubMap TreeSubMapOrder TreeSubMapSpecs TreeSubMapCalls.

(** ** Sorted lists cut by conditions that hold up to or from a point *)

Section Cuts.
Context {A : Type} (lt : A -> A -> Prop).

Lemma cut (Q : A -> Prop) `{!forall x, Decision (Q x)} (l : list A) :
  StronglySorted lt l -> (forall x y, x ∈ l -> y ∈ l -> lt x y -> Q y -> Q x) ->
  l = filter Q l ++ filter (fun x => ~ Q x) l.
Proof.
  induction 1 as [|x l Hl IH Hx]; [done|]. intros HQ. rewrite Forall_forall in Hx. rewrite !filter_cons.
  destruct (decide (Q x)) as [Hq|Hq].
  - rewrite decide_False; [|tauto]. cbn. f_equal. apply IH. intros y z Hy Hz. apply HQ; by right.
  - rewrite decide_True; [|done]. assert (Forall (fun y => ~ Q y) l) as Hn.
    { apply Forall_forall. intros y Hy HQy. apply Hq. by apply (HQ x y); [left|right|apply Hx|]. }
    by rewrite (filter_none Q) // (filter_all (fun y => ~ Q y)).
Qed.

Lemma sorted_filter (P : A -> Prop) `{!forall x, Decision (P x)} (l : list A) :
  StronglySorted lt l -> StronglySorted lt (filter P l).
Proof.
  induction 1 as [|x l Hl IH Hx]; [constructor|]. rewrite filter_cons. destruct (decide (P x)); [|done].
  constructor; [done|]. rewrite !Forall_forall in Hx |- *. intros y [_ Hy]%list_elem_of_filter. by apply Hx.
Qed.

Lemma cut_twice (P Q : A -> Prop) `{!forall x, Decision (P x)} `{!forall x, Decision (Q x)} (l : list A) :
  StronglySorted lt l -> (forall x y, x ∈ l -> y ∈ l -> lt x y -> Q y -> Q x) ->
  (forall x y, x ∈ l -> y ∈ l -> lt x y -> P x -> P y) ->
  exists l1 l2 l3, l = l1 ++ l2 ++ l3 /\ filter (fun x => P x /\ Q x) l = l2 /\
    Forall (fun x => ~ P x) l1 /\ Forall (fun x => ~ Q x) l3 /\
    (l2 <> [] -> head (filter (fun x => ~ Q x) l) = head l3).
Proof.
  intros Hs HQ HP. assert (StronglySorted lt (filter P l)) as Hs' by by apply sorted_filter.
  pose proof (cut (fun x => ~ P x) l Hs) as E1. pose proof (cut Q (filter P l) Hs') as E2.
  exists (filter (fun x => ~ P x) l), (filter Q (filter P l)), (filter (fun x => ~ Q x) (filter P l)).
  assert (l = filter (fun x => ~ P x) l ++ filter P l) as E.
  { rewrite {1}E1; [|by intros x y Hx Hy Hxy Hn Hp; apply Hn, (HP x y)]. f_equal. apply filter_iff_in.
    intros x _. destruct (decide (P x)); tauto. }
  assert (filter P l = filter Q (filter P l) ++ filter (fun x => ~ Q x) (filter P l)) as E'.
  { apply E2. intros x y [_ Hx]%list_elem_of_filter [_ Hy]%list_elem_of_filter. by apply HQ. }
  split; [by rewrite -E'|]. split; [rewrite list_filter_filter; apply filter_iff_in; tauto|]. split; [|split].
  - apply Forall_forall. by intros x [Hx _]%list_elem_of_filter.
  - apply Forall_forall. by intros x [Hx _]%list_elem_of_filter.
  - intros Hne. destruct (filter Q (filter P l)) as [|y l2] eqn:Ey; [done|].
    assert (y ∈ filter Q (filter P l)) as Hy by (rewrite Ey; left). apply list_elem_of_filter in Hy as [HQy Hy].
    pose proof Hy as [_ Hyl]%list_elem_of_filter. rewrite {1}E filter_app.
    rewrite (filter_none (fun x => ~ Q x) (filter (fun x => ~ P x) l)); [done|].
    apply Forall_forall. intros x Hx Hn. apply Hn. pose proof Hx as [_ Hxl]%list_elem_of_filter.
    rewrite E in Hs. apply StronglySorted_app in Hs as (Hlt & _ & _). apply (HQ x y); [done|done| |done]. by apply Hlt.
Qed.

End Cuts.

Section Client.
Context {Obj : Type} `{!EqDecision Obj} `{!Objects Obj}.
Notation M := (SE (world Obj)).
Notation item := (option Obj * option Obj)%type.

(** Until an error, with its code; [drop] tells which entries to remove. *)
Definition sub_next (d : side) : SubMapIterator (Obj := Obj) -> M (ECode * option item * SubMapIterator) :=
  Sub_Next d (fun e => k <- get e mKey ;; v <- get e mValue ;; ret (k, v)) true.

Fixpoint visit (d : side) (drop : item -> bool) (n : nat) (it : SubMapIterator) : M (ECode * list item) :=
  match n with
  | O => undefined
  | S n =>
      '(ec, kv, it) <- sub_next d it ;;
      if FAILED ec then ret (ec, [])
      else
        kv <- known kv ;;
        it <- (if drop kv then r <- Sub_Iterator_Remove d it ;; ret (snd r) else ret it) ;;
        r <- visit d drop n it ;; ret (fst r, kv :: snd r)
  end.

(** The iterators of the keys of a view, in its order and against it. *)
Definition view_iterator (back : bool) (v : view Obj) : M SubMapIterator :=
  if back then Sub_GetDescendingKeyIterator v else Sub_GetKeyIterator v.
Definition way (back : bool) (v : view Obj) : side := if back then flip (fst v) else fst v.

(** The view's [Remove] is the map's, with the fence kept. *)
Definition plain (it : SubMapIterator (Obj := Obj)) : PrivateEntryIterator :=
  {| mNext := mSubNext it; mLastReturned := mSubLastReturned it; mExpectedModCount := mSubExpectedModCount it |}.
Definition fenced (fence : option (option Obj)) (it : PrivateEntryIterator) : SubMapIterator :=
  {| mSubNext := mNext it; mSubLastReturned := mLastReturned it; mFenceKey := fence; mSubExpectedModCount := mExpectedModCount it |}.

Lemma Sub_Remove_run d it (w : world Obj) r w' : Iterator_Remove d (plain it) w = Some (r, w') ->
  Sub_Iterator_Remove d it w = Some ((fst r, fenced (mFenceKey it) (snd r)), w').
Proof.
  unfold Iterator_Remove, Sub_Iterator_Remove, bind, self, ret, plain. cbn [mNext mLastReturned mExpectedModCount].
  destruct it as [nx last fence m]. cbn [mSubNext mSubLastReturned mFenceKey mSubExpectedModCount].
  repeat case_match; intros; simplify_eq; done.
Qed.

End Client.

Section Iterate.
Context {Obj : Type} `{!EqDecision Obj} `{!Objects Obj} {cpr : option Obj} `{!KeyOrder cpr}.
Context `{!ghost_mapG Σ positive (TreeMapEntry Obj)} (γ : gname).
Notation M := (SE (world Obj)).
Notation T := (TreeMap Obj).
Notation item := (option Obj * option Obj)%type.
Notation "a ↦ e" := (cell_at γ a e) (at level 20) : bi_scope.
Notation twp := (twp γ).
Notation map_of := (map_of (cpr := cpr) γ).
Notation good_bounds := (good_bounds (cpr := cpr)).
Notation at_pointer o := (fst <$> (o : option (@cell Obj))).
Implicit Types (f : T) (c rest tl : list (@cell Obj)) (d : side) (b : NavigableSubMap Obj).

Lemma sub_next_map d c c1 a kv rest fence last f (Φ : ECode * option item * SubMapIterator -> T -> iProp Σ) :
  along (flip d) c = c1 ++ (a, kv) :: rest -> Some (fst kv) <> fence -> map_of c f -∗
  (map_of c f -∗ Φ (NOERROR, Some kv, fenced fence (before_rest f rest (Some a))) f) -∗
  twp (sub_next d (fenced fence (before_rest f ((a, kv) :: rest) last))) Φ f.
Proof.
  destruct kv as [k v]. iIntros (Hc Hf) "Hm H".
  assert ((a, (k, v)) ∈ c) as Hin by (apply (elem_of_along (flip d)); rewrite Hc; apply elem_of_app; right; left).
  unfold sub_next, Sub_Next, Sub_StepEntry.
  cbn [fenced before_rest mSubNext mNext head fmap option_fmap option_map fst mFenceKey mSubExpectedModCount mExpectedModCount] in *.
  iDestruct (map_read γ c a k v with "Hm") as (e [Ek Ev]) "[Ha Hm]"; [done|]. tsteps.
  rewrite Ek bool_decide_eq_false_2 //. tsteps.
  iDestruct ("Hm" with "Ha") as "Hm". iApply (neighbour_map with "Hm"); [exact Hc|]. iIntros "Hm". tsteps. cbn [FAILED known]. tsteps.
  iDestruct (map_read γ c a k v with "Hm") as (e' [Ek' Ev']) "[Ha Hm]"; [done|]. tsteps. rewrite Ek' Ev'.
  iApply "H". by iApply "Hm".
Qed.

(** At the fence, or at the end of the map. *)
Lemma sub_next_end d c tl fence last f (Φ : ECode * option item * SubMapIterator -> T -> iProp Σ) :
  among (head tl) c -> (tl = [] \/ fence = (fun x => fst (snd x)) <$> head tl) -> map_of c f -∗
  (map_of c f -∗ Φ (E_NO_SUCH_ELEMENT_EXCEPTION, None, fenced fence (before_rest f tl last)) f) -∗
  twp (sub_next d (fenced fence (before_rest f tl last))) Φ f.
Proof.
  iIntros (Ho Htl) "Hm H". unfold sub_next, Sub_Next, Sub_StepEntry.
  cbn [fenced before_rest mSubNext mNext mFenceKey mSubExpectedModCount mExpectedModCount].
  destruct tl as [|[a [k v]] tl]; cbn [head fmap option_fmap option_map fst snd] in *; tsteps.
  - cbn [FAILED]. tsteps. by iApply "H".
  - destruct Htl as [Hn| ->]; [done|]. iDestruct (map_read γ c a k v with "Hm") as (e [Ek Ev]) "[Ha Hm]"; [by apply Ho|]. tsteps.
    rewrite Ek bool_decide_eq_true_2 //. tsteps. cbn [FAILED]. tsteps. iApply "H". by iApply "Hm".
Qed.

Lemma sub_remove_map d c c1 a kv rest fence f (Φ : ECode * SubMapIterator -> T -> iProp Σ) :
  along (flip d) c = c1 ++ (a, kv) :: rest -> in_range f -> map_of c f -∗
  (∀ c' c1' rest' f', ⌜moved 1 f f' /\ along (flip d) c' = c1' ++ rest' /\ snd <$> c1' = snd <$> c1 /\
       snd <$> rest' = snd <$> rest⌝ -∗
     map_of c' f' -∗ Φ (NOERROR, fenced fence (before_rest f' rest' None)) f') -∗
  twp (Sub_Iterator_Remove d (fenced fence (before_rest f rest (Some a)))) Φ f.
Proof.
  iIntros (Hc Hf) "Hm H". iIntros (h) "Hh".
  iDestruct (Remove_map γ d c c1 a kv rest f (fun r f' => Φ (fst r, fenced fence (snd r)) f') Hc Hf with "Hm [H]") as "Hw".
  { iIntros (c' c1' rest' f' Hf') "Hm". by iApply ("H" with "[%] Hm"). }
  iMod ("Hw" with "Hh") as (r f' h' E) "[Hh H]". iModIntro. iExists _, f', h'. iFrame. iPureIntro.
  by apply (Sub_Remove_run d (fenced fence (before_rest f rest (Some a)))) in E.
Qed.

(** The keys of a range and of the fence are different. *)
Lemma fence_apart d c c1 x rest tl : StronglySorted (fun x y : @cell Obj => before d (fst (snd x)) (fst (snd y))) (along d c) ->
  (forall x, x ∈ along d c -> good (fst (snd x))) -> along d c = c1 ++ (x :: rest) ++ tl ->
  Some (fst (snd x)) <> (fun x => fst (snd x)) <$> head tl.
Proof.
  intros Hs Hg Hc E. destruct tl as [|y tl]; [done|]. injection E as E. rewrite Hc in Hs, Hg.
  apply StronglySorted_app in Hs as (_ & _ & Hs). apply StronglySorted_inv in Hs as [_ Hs]. rewrite Forall_forall in Hs.
  assert (good (fst (snd x))) as Gx by (apply Hg; apply elem_of_app; right; left).
  assert (y ∈ rest ++ y :: tl) as Hy by (apply elem_of_app; right; left).
  apply (before_not_equal _ _ _ (Hs y Hy)). rewrite -E. by apply cmp_refl.
Qed.

Lemma visit_map d drop n c c1 mid tl fence last f (Φ : ECode * list item -> T -> iProp Σ) :
  along (flip d) c = c1 ++ mid ++ tl -> fence = (fun x => fst (snd x)) <$> head tl ->
  (length mid < n)%nat -> room (length mid) f -> map_of c f -∗
  (∀ c' f', ⌜snd <$> along (flip d) c' = (snd <$> c1) ++ kept drop (snd <$> mid) ++ (snd <$> tl)⌝ -∗ map_of c' f' -∗
     Φ (E_NO_SUCH_ELEMENT_EXCEPTION, snd <$> mid) f') -∗
  twp (visit d drop n (fenced fence (before_rest f (mid ++ tl) last))) Φ f.
Proof.
  iIntros (Hc Hfence Hn Hroom) "Hm H".
  iInduction n as [|n] "IH" forall (c c1 mid tl last f Φ Hc Hfence Hn Hroom); [lia|]. cbn [visit]. tstep.
  destruct mid as [|[a kv] mid].
  { iApply (sub_next_end d c tl with "Hm"); [|by right|].
    { intros x Ex. apply (elem_of_along (flip d)). rewrite Hc. apply elem_of_app. right. destruct tl; [done|]. injection Ex as ->. left. }
    iIntros "Hm". cbn [FAILED]. tsteps. iApply ("H" with "[%] Hm"). by rewrite Hc !fmap_app. }
  iDestruct (map_sorted γ (flip d) with "Hm") as %[Hsort Hgood].
  pose proof (fence_apart _ _ _ _ _ _ Hsort Hgood Hc) as Hapart. rewrite -Hfence in Hapart.
  iDestruct (map_of_facts with "Hm") as %(Hs & _). destruct Hroom as (Hr1 & Hr2 & Hr3). cbn [length] in Hn, Hr2, Hr3.
  iApply (sub_next_map d c c1 a kv (mid ++ tl) with "Hm"); [exact Hc|done|]. iIntros "Hm". cbn [FAILED known].
  do 3 tstep. destruct (drop kv) eqn:Ed.
  - tstep. iApply (sub_remove_map d c c1 a kv (mid ++ tl) with "Hm"); [exact Hc|split; lia|].
    iIntros (c' c1' rest' f' (Hf' & Hc' & E1 & E2)) "Hm". cbn [snd]. rewrite fmap_app in E2.
    apply fmap_app_inv in E2 as (mid' & tl' & E2 & E3 & ->). iDestruct (map_of_facts with "Hm") as %(Hs' & _).
    assert (length mid' = length mid /\ length c = S (length c')) as [El El'].
    { apply (f_equal length) in E1, E2, E3, Hc, Hc'. rewrite !length_fmap in E1, E2, E3.
      rewrite along_length !length_app in Hc. rewrite along_length !length_app in Hc'. cbn in Hc. unfold cell in *. lia. }
    do 2 tstep. iApply ("IH" $! c' c1' mid' tl' None f' with "[%] [%] [%] [%] Hm"); [done| |by rewrite El; lia| |].
    { rewrite Hfence. destruct tl as [|[? []] ?], tl' as [|[? []] ?]; try done. by injection E3 as -> -> _. }
    { rewrite El. destruct Hf' as [_ Hf']. split; [|split]; lia. }
    iIntros (c2 f2 Hc2) "Hm". tsteps. cbn [fst snd]. rewrite -E2. iApply ("H" with "[%] Hm").
    rewrite Hc2 E1 -E2 -E3. unfold kept. rewrite fmap_cons filter_cons_False; [done|]. rewrite Ed. by intros Hd; apply Hd.
  - tsteps. iApply ("IH" $! c (c1 ++ [(a, kv)]) mid tl (Some a) f with "[%] [%] [%] [%] Hm");
      [by rewrite -app_assoc|done|lia|split; [|split]; lia|].
    iIntros (c2 f2 Hc2) "Hm". tsteps. cbn [fst snd]. iApply ("H" with "[%] Hm").
    rewrite Hc2. unfold kept. rewrite fmap_cons filter_cons_True; [|cbn; rewrite Ed; by intros []]. by rewrite fmap_app -app_assoc.
Qed.

(** The iterator, before the range and with the fence after it. *)
Lemma iterator_towards_map d b c f (Φ : SubMapIterator -> T -> iProp Σ) :
  good_bounds b -> map_of c f -∗
  (∀ fence, ⌜fence = (fun x => fst (snd x)) <$> first_of (flip d) (fun x => ~ inside (cpr := cpr) d b x) c⌝ -∗ map_of c f -∗
     Φ {| mSubNext := at_pointer (first_of (flip d) (in_view (cpr := cpr) b) c); mSubLastReturned := None; mFenceKey := fence;
          mSubExpectedModCount := mModCount f |} f) -∗
  twp (iterator_towards d b) Φ f.
Proof.
  iIntros (Hb) "Hm H". unfold iterator_towards, new_SubMapIterator. tstep.
  iApply (AbsEnd_spec with "Hm"); [done|]. iIntros "Hm". tstep. iApply (AbsFence_spec with "Hm"); [done|]. iIntros "Hm".
  pose proof (first_among (flip d) (fun x => ~ inside (cpr := cpr) d b x) c) as Ho.
  destruct (first_of (flip d) (fun x => ~ inside d b x) c) as [[a [k v]]|]; cbn [fmap option_fmap option_map fst snd]; tsteps.
  - iDestruct (map_read γ c a k v with "Hm") as (e [Ek Ev]) "[Ha Hm]"; [by apply Ho|]. tsteps. rewrite Ek.
    iDestruct ("Hm" with "Ha") as "Hm". by iApply ("H" with "[%] Hm").
  - by iApply ("H" with "[%] Hm").
Qed.

(** What the loop does to the entries of the map. *)
Definition left_in b (drop : item -> bool) (l : list item) : list item := filter (fun x => ~ (in_view (cpr := cpr) b x /\ drop x)) l.

Lemma left_in_cut b drop (l1 l2 l3 : list item) :
  Forall (fun x => ~ in_view (cpr := cpr) b x) l1 -> Forall (in_view b) l2 -> Forall (fun x => ~ in_view b x) l3 ->
  left_in b drop (l1 ++ l2 ++ l3) = l1 ++ kept drop l2 ++ l3.
Proof.
  intros H1 H2 H3. unfold left_in, kept. rewrite !filter_app. 
  rewrite (filter_all _ l1); [|eapply Forall_impl; [exact H1|]; cbn beta; tauto].
  rewrite (filter_all _ l3); [|eapply Forall_impl; [exact H3|]; cbn beta; tauto].
  f_equal. f_equal. apply filter_iff_in. intros x Hx. rewrite Forall_forall in H2. specialize (H2 x Hx). tauto.
Qed.

Lemma visit_view d b drop n c f (Φ : ECode * list item -> T -> iProp Σ) :
  good_bounds b -> (length c < n)%nat -> room (length c) f -> map_of c f -∗
  (∀ c' f', ⌜snd <$> along (flip d) c' = left_in b drop (snd <$> along (flip d) c)⌝ -∗ map_of c' f' -∗
     Φ (E_NO_SUCH_ELEMENT_EXCEPTION, snd <$> filter (fun x => in_view b (snd x)) (along (flip d) c)) f') -∗
  twp (it <- iterator_towards d b ;; visit d drop n it) Φ f.
Proof.
  iIntros (Hb Hn Hroom) "Hm H". iDestruct (map_sorted γ (flip d) with "Hm") as %[Hsort Hgood].
  destruct (cut_twice _ (fun x : @cell Obj => inside (cpr := cpr) (flip d) b (snd x)) (fun x => inside (cpr := cpr) d b (snd x)) _ Hsort)
    as (c1 & mid & tl & Hc & Hmid & H1 & H3 & Hfirst).
  { intros x y Hx Hy Hxy. apply inside_mono; [done|by apply Hgood|by apply Hgood|].
    apply (before_flip d) in Hxy; [done|by apply Hgood|by apply Hgood]. }
  { intros x y Hx Hy Hxy. apply inside_mono; [done|by apply Hgood|by apply Hgood|done]. }
  assert (filter (fun x => in_view b (snd x)) (along (flip d) c) = mid) as Hview.
  { rewrite -Hmid. apply filter_iff_in. intros x _. rewrite (inside_both d). tauto. }
  tstep. iApply (iterator_towards_map with "Hm"); [done|]. iIntros (fence ->) "Hm". unfold first_of. rewrite Hview.
  assert (length (c1 ++ mid ++ tl) = length c) as Hlen by by rewrite -Hc along_length. rewrite !length_app in Hlen.
  destruct mid as [|x mid].
  - destruct n as [|n]; [lia|]. cbn [visit]. tstep.
    iApply (sub_next_end d c [] with "Hm"); [done|by left|]. iIntros "Hm". cbn [FAILED]. tsteps.
    iApply ("H" $! c f with "[%] Hm"). unfold left_in. rewrite filter_all; [done|]. apply Forall_forall. intros y Hy [Hv _].
    apply list_elem_of_fmap in Hy as (y' & -> & Hy').
    assert (y' ∈ filter (fun x => in_view b (snd x)) (along (flip d) c)) as Hin by by apply list_elem_of_filter.
    rewrite Hview in Hin. by apply elem_of_nil in Hin.
  - rewrite Hfirst; [|done]. iApply (visit_map d drop n c c1 (x :: mid) tl with "Hm"); [done|done|lia| |].
    { destruct Hroom as (Hr1 & Hr2 & Hr3). split; [|split]; lia. }
    iIntros (c' f' Hc') "Hm". iApply ("H" $! c' f' with "[%] Hm"). rewrite Hc' Hc !fmap_app left_in_cut; [done|..].
    + apply Forall_fmap. eapply Forall_impl; [exact H1|]. intros y Hy Hv. by apply Hy, (inside_both d).
    + apply Forall_fmap. rewrite -Hview. apply Forall_forall. by intros y [Hy _]%list_elem_of_filter.
    + apply Forall_fmap. eapply Forall_impl; [exact H3|]. intros y Hy Hv. by apply Hy, (inside_both d).
Qed.

End Iterate.

(** ** Runs *)

Section Runs.
Context {Obj : Type} `{!EqDecision Obj} `{!Objects Obj} {cpr : option Obj} `{!KeyOrder cpr}.
Notation item := (option Obj * option Obj)%type.
Implicit Types (l : list item) (w : world Obj) (v : view Obj).

(** C22: A loop over a view, in its order or against it, that asks for the next entry
    until the error at the end, and removes those it does not want through the
    iterator, visits just the entries in the view's bounds, each once and in order,
    and leaves the map of all the others and those it kept. *)
Theorem view_loops_stay_in_range back v (drop : item -> bool) n w l :
  represents (cpr := cpr) w l -> good_bounds (cpr := cpr) (snd v) -> room (length l) (this w) -> (length l < n)%nat ->
  exists w', (it <- view_iterator back v ;; visit (way back v) drop n it) w =
               Some ((E_NO_SUCH_ELEMENT_EXCEPTION, along (flip (way back v)) (range (cpr := cpr) (snd v) l)), w') /\
             represents (cpr := cpr) w' (left_in (cpr := cpr) (snd v) drop l).
Proof.
  intros Hw Hb Hroom Hn.
  destruct (run_map (it <- view_iterator back v ;; visit (way back v) drop n it) (fun r _ l' =>
      r = (E_NO_SUCH_ELEMENT_EXCEPTION, along (flip (way back v)) (range (cpr := cpr) (snd v) l)) /\
      l' = left_in (cpr := cpr) (snd v) drop l) w l Hw) as (r & w' & l' & E & Hw' & -> & ->); [|by exists w'].
  iIntros (? γ) "(%c & <- & Hm)". rewrite length_fmap in Hroom, Hn.
  replace (view_iterator back v) with (iterator_towards (way back v) (snd v)) by by destruct back.
  iApply (visit_view γ (way back v) (snd v) drop n c with "Hm"); [done..|].
  iIntros (c' f' Hc') "Hm". iExists _. iSplit; [|by iApply is_map_of]. iPureIntro. split.
  - f_equal. rewrite (filter_snd (in_view (snd v))) along_snd filter_along. done.
  - rewrite !along_snd in Hc'. unfold left_in in *. rewrite filter_along in Hc'.
    rewrite -(along_along (flip (way back v)) (snd <$> c')) Hc'. by rewrite along_along.
Qed.

(** *** What the code does not define *)

(** The size of a view with a bound is counted with [HasNext]. *)
Lemma bounded_sizes_are_undefined v w : mFromStart (snd v) && mToEnd (snd v) = false ->
  Sub_GetSize v new_EntrySetView w = None.
Proof.
  intros E. unfold Sub_GetSize, EntrySetView_GetSize. rewrite E.
  change ((it <- Sub_GetIterator v ;; n <- rounds ;; size <- count_entries n (fst v) it 0 ;;
    ret (NOERROR, Some size, {| mViewSize := size; mSizeModCount := mModCount (this w) |})) w = None).
  unfold bind at 1. destruct (Sub_GetIterator v w) as [[it w']|]; [|done].
  change ((size <- count_entries (Z.to_nat (mSize (this w')) + 3) (fst v) it 0 ;;
    ret (NOERROR, Some size, {| mViewSize := size; mSizeModCount := mModCount (this w) |})) w' = None).
  by rewrite Nat.add_comm.
Qed.

End Runs.

Lemma view_loops_stay_in_range_witness :
  left_in (cpr := None) (snd (three_to_eight L)) is_five three_items = [(Some 3, Some 30); (Some 8, Some 80)] /\
  exists w', (it <- view_iterator false (three_to_eight L) ;; visit L is_five 4 it) three =
               Some ((E_NO_SUCH_ELEMENT_EXCEPTION, [(Some 5, Some 50); (Some 3, Some 30)]), w') /\
             represents (cpr := None) w' (left_in (cpr := None) (snd (three_to_eight L)) is_five three_items).
Proof.
  split; [by vm_compute|].
  assert (along (flip (way false (three_to_eight L))) (range (cpr := None) (snd (three_to_eight L)) three_items) =
          [(Some 5, Some 50); (Some 3, Some 30)]) as <- by by vm_compute.
  apply (view_loops_stay_in_range (cpr := None) false (three_to_eight L) is_five 4 three three_items);
    [exact three_represents|apply three_to_eight_good|by repeat split|]. apply Nat.ltb_lt. by vm_compute.
Defined.

End TreeSubMapIterate.
